(* ===== verification/_CoqProject ===== *)
-Q . S2P
Prelude.v
Text.v
Words.v
Effects.v
Json.v
Fs.v
Journal.v
JournalHost.v
RfcCore.v
RfcStore.v
Issues.v
DispatchSeal.v
Dispatch.v
DispatchRun.v
RfcLock.v
RfcService.v
RfcMcp.v
Policy.v
Trust.v
CageShell.v
Seal.v
Stream.v
StreamLoop.v
Terminal.v
Detector.v
Injection.v
Events.v
SealConsumer.v
Wildcard.v
Operator.v
CageProfile.v
CageRootfs.v
CageRun.v
Schedule.v
Crontab.v
Jobs.v
Approval.v
Resolution.v
JobControl.v
JobSpawn.v
Attention.v
SealAudit.v
BuiltinTable.v
Values.v
Pipeline.v
PipelineRun.v
