(* ===== verification/Prelude.v ===== *)
(** * Verification of the Orkia agentic shell

    Orkia is a shell in which vendor agents work next to a human. This library
    models the parts that decide what an agent may do, the parts that run agents
    and bring them their work, and the parts that keep the record of what they
    did, and proves them correct. Code is named by its path under [src/];
    [crates/] and [bins/] are directories there.

    ** Parts and how they interact

    - Ground. [Prelude] holds the strings of the Rust standard library, [Text]
      UTF-8 and its lossy decoder, [Words] splitting and numbers, [Effects]
      results and stateful operations that may fail, [Json] JSON values, [Fs] a
      file system whose every call may fail.
    - The RFC primitive. An RFC is a Markdown file with a TOML head, in one of
      six states; agents ask, log decisions and edit through a tool server, a
      human promotes. [RfcCore] is [crates/orkia-rfc-core] without its store:
      the state machine ([state.rs]), the tool matrix ([matrix.rs]), the
      frontmatter ([frontmatter.rs]), decision records and their counters
      ([decision.rs]), scope, hash and errors. [RfcStore] is [store.rs] and the
      file operations of [decision.rs]: paths, atomic writes, listing, the
      decision log, reopening. [RfcLock] is [crates/orkia-rfc-lock]: one writer
      per RFC, with a timeout. [RfcService] is the service of
      [crates/orkia-rfc-state], which composes store, locks, decision counter
      and event sink. [RfcMcp] is the tool server of [crates/orkia-rfc-mcp],
      whose frames reach the service.
    - Dispatch ([crates/orkia-dispatch-proxy]). A remote kernel holds the task
      graph of an RFC; the driver spawns an agent per task, captures its response,
      runs the task's acceptance command and reports the outcome. [Issues] is
      [issues.rs], [compose.rs] and [spawn.rs]: one file per task. [DispatchSeal]
      is [seal.rs], the chain of a run. [Dispatch] is [run.rs], [oracle.rs] and
      [lib.rs], with the kernel, the spawner and the other collaborators as the
      class [Environment]; [DispatchRun] holds the theorems on its runs.
    - The execution boundary. [Policy] is [policy.rs] of
      [crates/orkia-shell-types]: a command line is cut into segments, each is
      canonicalised and matched, the strictest decision wins. [Trust] is
      [trust.rs]: the layer that may turn an ask into an allow, with its unlock
      and pending stores. [CageShell] is [bins/orkia-sh], the shim and the tool
      hook that put the policy between an agent and the real shell. The launcher,
      [bins/orkia-cage], is in three files: [CageProfile] ([sbpl.rs] and the macOS
      half of [lib.rs]), [CageRootfs] ([linux_sb.rs], [toolset.rs] and the Linux
      half) and [CageRun] ([run], from the command line to the launch).
    - Jobs ([crates/orkia-shell]). [Jobs] is [job.rs] of
      [crates/orkia-shell-types] and the controller of [job/]: identifiers, the
      three tables of jobs, their events. [JobSpawn] is [job/spawn.rs] with its
      attachments, hooks and cage, and the drain of job events of
      [repl/drains.rs]. [JobControl] is [builtin_resolve.rs] and
      [repl/job_control.rs]: how a typed word names a job, and the commands on it.
    - Prompts and deliveries. [Terminal] and [Detector] are [terminal_state/]: the
      classifier of a terminal's contents, the queue of bodies for each job, the
      detector threads and the worker of [repl/state_machine.rs]. [Injection] is
      [injection_executor.rs], which types a body into the agent's terminal and
      looks for it on the screen.
    - What waits for the user. [Approval] is [approval.rs], the requests of agents
      and the janitor thread; [Resolution] is [repl/approval.rs], what an answer
      does; [Attention] is [attention.rs] and its submodules, the queue of what
      blocks and of conflicting reads and writes.
    - Events and the record. [Events] is [protocol/]: what happens in a job, from
      whichever source, becomes one stream without duplicates. [SealConsumer] is
      its consumer that writes the audit chains. [Seal] is [seal.rs] and [seal/]:
      the hash-linked chains of jobs, projects and the workspace, their manager,
      and the parked results of scheduled runs. [Wildcard] and [Operator] are the
      drift detector, which compares the stream with the constraints of RFCs.
    - The journal. [Journal] is [journal/types.rs] of [crates/orkia-shell-types]
      and [journal/store.rs] of [crates/orkia-shell]: envelopes and their wire
      form, filters, and the append-only store with its writer. [JournalHost] is
      [bins/orkia/src/pty_daemon/journal_host.rs] with the fan-out of
      [crates/orkia-journal-hub]: the daemon numbers envelopes, mirrors them to
      disk, streams them to the connected shell, replays what a shell missed
      when it attaches, and carries tool calls of agents to it.
    - The publisher. [Stream] holds the pieces of [crates/orkia-stream]: the
      scope gate, the translator, batches, the retrying transport, the cursor
      and the reader of chain files; [StreamLoop] is its loop ([lib.rs]). It reads
      the chains [Seal] writes and the envelopes of [Journal].
    - Scheduled commands ([crates/orkia-builtin], [every.rs] and [every/]).
      [Schedule] is the English of schedules, [Crontab] the tagged lines in the
      user's crontab and the builtin that lists, adds, removes and pauses them.

    ** How the code is rendered

    - A [String] is the list of its Unicode scalar values, with [str::trim],
      [split_whitespace], [lines], [find] and the like defined in this file;
      literals are written [#"text"]. Where bytes matter ([Text], [DispatchSeal],
      [Events]) they are numbers below 256.
    - A struct is a [Record] with the fields of the source, an enum an
      [Inductive] with its variants. [u32] and [u64] counters wrap as they do in
      a release build. A [HashMap] is a [gmap]; where the order of a
      [HashMap]'s iteration reaches an output, the theorems do not depend on it.
    - A function that only computes is a function. One that has effects is an
      operation of the monad [M S E A] of [Effects]: state in, [Result] and state
      out, the state surviving an error, as it does when [?] returns early.
    - The clock is an argument of every operation that reads it.
    - Every file-system call takes its outcome from a script of faults, and a
      failing write has already written a prefix. A theorem that quantifies over
      the script covers every I/O error and every crash between two calls.
    - Processes, terminals, the daemon's connection and the machine are arguments
      that answer what the code asks; what the code does to them is kept in order
      (the trace of the shim and of the injection executor, [acts] of the job
      controller, [sh_fx] of the shell).
    - Threads are transition functions on labels ([JournalHost], [Detector],
      [Approval]), one label per stretch of code that no other thread can cut; a
      list of labels is one interleaving. In [JournalHost] attaches do not overlap
      each other.
    - Single tasks are folds: a run of the publisher, of the operator or of the
      attention queue is a list of inputs, each with what the clock and the
      collaborators answer during it. The environment of a dispatch run answers as
      a function of the whole history of calls, so that a theorem for every
      environment covers every order of answers.
    - The root of a caged agent is a mount table over the host's files; the
      profile on macOS is its text, read back by a reader of its grammar.
    - TOML and JSON serialisation ([Serde], [TomlText]), SHA-256 and a scorer of
      the trust layer are not part of the source: they are class members or
      arguments, and what the code relies on ([SerdeLaws]: decoding undoes
      encoding, a line has no line break and is not blank; [TomlLaws];
      [Sha256Laws]: a digest has 64 characters) is a class of laws. Instances
      that satisfy the laws are given ([table_serde], [table_toml]) and used by
      the witnesses.

    All definitions are executable. Most functions are structurally recursive or
    recurse on the text that is left. These take fuel:
    - [process_wave] of [Dispatch], one unit per task; [waves_terminate] bounds
      what a driver needs;
    - [first_free] of [Seal], one unit per file present and one more, which
      [first_free_total] proves enough;
    - [push_loop] of [Stream], one unit per permitted attempt, which
      [push_batch_bounded] proves enough;
    - [confirm_loop] and [clear_loop] of [Injection], one unit per pause that fits
      before the timeout ([POLL_FUEL]); [confirm_loop_fuel] and
      [clear_loop_fuel] show that more changes nothing;
    - [wildcard_loop] of [Wildcard], proved enough by [pattern_match_glob];
    - [decode_go] of [Text], one unit per byte ([decode_go_fuel]);
    - [resolve_up] of [Trust], one unit per component of the path;
    - [follow] of [CageRootfs], 41 links, the limit of the system.

    ** What the theorems show

    The properties are the theorems whose comment starts with a claim number;
    the others named here support them or state more.

    - RFCs: [rfc_lifecycle] on the pure core; [transition_refines] shows that what
      the service does to the file on disk is a step of that machine.
      [save_atomic], [reopen_crash_safe] under every fault script,
      [save_load_roundtrip], [append_read_decisions], [rfc_paths_confined];
      [lock_exclusion], [propose_edit_spec], [no_lost_update]; [ask_spec],
      [resolve_clarification_spec], [fresh_decision_ids];
      [dispatch_least_privilege] at the tool boundary.
    - Dispatch: [done_needs_verdict] (no task with an acceptance command is
      reported done without a sealed passing verdict, recovery apart),
      [one_outcome_per_release], [waves_terminate].
    - Boundary: [evaluate_match_strictest], [chained_commands_strictest],
      [git_options_ignored]; [apply_trust_keeps_denies], [apply_trust_bounded];
      [exec_only_after_audited_allow], [hook_defers_only_audited_allow],
      [eval_envelope_roundtrip].
    - Cage: [profile_confines] and [mac_launch_protects] on macOS,
      [rootfs_confined], [masks_hold] and [shells_shadowed] on Linux,
      [hook_reads_profile_policy] for both.
    - Jobs: [jobs_accounted], [caged_spawn_only_launcher], [shown_ids_resolve].
    - Deliveries: [job_bodies_fifo] (once and in order in every interleaving),
      [follow_up_delivered], [submit_only_confirmed].
    - Waiting: [response_is_an_answer], [attention_well_formed],
      [conflict_raised], [approval_answers_entry].
    - Record: [seal_append_spec], [seal_reload], [seal_tamper_evident],
      [dedup_refines], [route_confined], [pattern_match_glob].
    - Journal: [envelope_roundtrip]; [host_no_loss] is an invariant of the runs in
      which no step falls into another's window: streams are consecutive and
      nothing is lost; [mcp_not_orphaned] holds in every interleaving.
    - Publisher: [stream_no_leak] (only what its scope lets out is ever sent),
      [stream_refines_queue] (order, no loss, and a cursor that covers exactly what
      is settled), [tail_once], [persist_crash_safe], [push_batch_bounded].
    - Schedules: [schedule_sound], [schedule_complete], [create_listed].
    - Limits of the code, proved as such: [resume_skips_oracle],
      [mediation_bypassed], [exit_skips_teardown], [kill_shown_id_misses],
      [second_reader_hides_conflict]; and, as further theorems,
      [substitution_hides_command], [command_flag_gaps], [verify_blind_spots],
      [torn_append_loses_next], [attach_window_loses], [stale_exit_disconnects],
      [no_identity_skips], [second_request_hidden], [migrate_overwrites_other],
      [remove_takes_foreign], [attach_stage_never_found],
      [pushed_completion_ends_native], [oneshot_completes_twice],
      [other_word_hides_approval], [stop_hook_ends_audit],
      [follow_up_answers_prompt], [launch_empties_corpus].

    ** Not modelled

    The interactive shell's main loop and its other builtins, the pipeline
    language with its stage executor, the front ends, the daemon outside its
    journal host and the plugin host drive terminals, processes, sockets, system
    calls and external runtimes; their decisions go through the parts above. The
    reports over the chains and the shell-side RFC commands only format what the
    modelled stores return. Of the journal hub the socket listener, of the
    publisher the configuration file and the file watcher, of the cage launcher
    the supervising parent, which forwards signals, are left out. The kernel daemon
    the coordinators talk to is not part of the source. Logging calls have no
    effect here. Two processes that write one chain or one RFC file at the same
    time are not modelled: the code has one owner per resource, and the service's
    mutex is a lock that is free or poisoned when an operation starts.

    ** This file

    Strings of the Rust standard library, decimal numbers, and the lemmas on
    them the components share. *)

From Stdlib Require Import NArith ZArith Lia.
From Stdlib Require Import DecimalN.
From stdpp Require Import base gmap strings option numbers list list_basics.

#[export] Set Default Goal Selector "!".

(** ** Rust strings

    A [char] is a Unicode scalar value and a [String]/[&str] the sequence of
    its characters. *)

Abbreviation char := N (only parsing).
Abbreviation str := (list N) (only parsing).

(** ASCII literals: [#"git push"]. *)
Definition lit (s : string) : str :=
  map Byte.to_N (String.list_byte_of_string s).
Arguments lit : simpl never.

Declare Scope rust_scope.
Delimit Scope rust_scope with rust.
Notation "# s" := (lit s%string) (at level 1, s at level 0, format "# s") : rust_scope.
#[global] Open Scope rust_scope.

Definition chr_nl : char := 10%N.
Definition chr_cr : char := 13%N.
Definition chr_space : char := 32%N.
Definition chr_dquote : char := 34%N.
Definition chr_amp : char := 38%N.
Definition chr_squote : char := 39%N.
Definition chr_star : char := 42%N.
Definition chr_plus : char := 43%N.
Definition chr_minus : char := 45%N.
Definition chr_dot : char := 46%N.
Definition chr_slash : char := 47%N.
Definition chr_semi : char := 59%N.
Definition chr_backslash : char := 92%N.
Definition chr_pipe : char := 124%N.

(** [char::is_whitespace]: the Unicode White_Space property. *)
Definition is_whitespace (c : char) : bool :=
  ((9 <=? c) && (c <=? 13) || (c =? 32) || (c =? 133) || (c =? 160)
   || (c =? 5760) || ((8192 <=? c) && (c <=? 8202)) || (c =? 8232)
   || (c =? 8233) || (c =? 8239) || (c =? 8287) || (c =? 12288))%N.

(** Bytes of a character in UTF-8, and of a whole string ([str::len]). *)
Definition utf8_len (c : char) : N :=
  (if c <? 128 then 1 else if c <? 2048 then 2 else if c <? 65536 then 3 else 4)%N.

Definition byte_len (s : str) : N := foldr (λ c n, (utf8_len c + n)%N) 0%N s.

Definition is_empty {A} (l : list A) : bool :=
  match l with [] => true | _ :: _ => false end.

Fixpoint trim_start (s : str) : str :=
  match s with
  | [] => []
  | c :: s' => if is_whitespace c then trim_start s' else s
  end.

Definition trim_end (s : str) : str := reverse (trim_start (reverse s)).

Definition trim (s : str) : str := trim_end (trim_start s).

(** A pending word becomes a token only when it is not empty. *)
Definition flush (cur : str) : list str := if is_empty cur then [] else [cur].

Fixpoint split_whitespace_go (cur s : str) : list str :=
  match s with
  | [] => flush cur
  | c :: s' =>
      if is_whitespace c then flush cur ++ split_whitespace_go [] s'
      else split_whitespace_go (cur ++ [c]) s'
  end.

Definition split_whitespace (s : str) : list str := split_whitespace_go [] s.

Fixpoint join (sep : str) (l : list str) : str :=
  match l with
  | [] => []
  | [x] => x
  | x :: l' => x ++ sep ++ join sep l'
  end.

Fixpoint strip_prefix (p s : str) : option str :=
  match p, s with
  | [], _ => Some s
  | c :: p', d :: s' => if (c =? d)%N then strip_prefix p' s' else None
  | _ :: _, [] => None
  end.

Definition starts_with (p s : str) : bool :=
  match strip_prefix p s with Some _ => true | None => false end.

Definition strip_suffix (p s : str) : option str :=
  reverse <$> strip_prefix (reverse p) (reverse s).

Definition ends_with (p s : str) : bool :=
  match strip_suffix p s with Some _ => true | None => false end.

(** [str::find]: index of the first occurrence of [p]. *)
Fixpoint find_sub (p s : str) : option nat :=
  if starts_with p s then Some 0
  else match s with
       | [] => None
       | _ :: s' => S <$> find_sub p s'
       end.

Definition contains (p s : str) : bool :=
  match find_sub p s with Some _ => true | None => false end.

(** [str::split(c)] for a character: at least one piece. *)
Fixpoint split_char_go (sep : char) (cur s : str) : list str :=
  match s with
  | [] => [cur]
  | c :: s' =>
      if (c =? sep)%N then cur :: split_char_go sep [] s'
      else split_char_go sep (cur ++ [c]) s'
  end.

Definition split_char (sep : char) (s : str) : list str := split_char_go sep [] s.

(** [str::lines] and [BufRead::lines]: a line ends at a line feed, which takes
    one carriage return before it along; a last line needs no line feed. *)
Definition strip_cr (s : str) : str :=
  match strip_suffix [chr_cr] s with Some t => t | None => s end.

Fixpoint lines_go (cur s : str) : list str :=
  match s with
  | [] => flush cur
  | c :: s' =>
      if (c =? chr_nl)%N then strip_cr cur :: lines_go [] s'
      else lines_go (cur ++ [c]) s'
  end.

Definition lines (s : str) : list str := lines_go [] s.

(** Byte order of UTF-8 strings is the order of their scalar values. *)
Fixpoint str_leb (a b : str) : bool :=
  match a, b with
  | [], _ => true
  | _ :: _, [] => false
  | x :: a', y :: b' =>
      if (x <? y)%N then true else if (y <? x)%N then false else str_leb a' b'
  end.

(** *** Decimal numbers *)

Fixpoint uint_str (d : Decimal.uint) : str :=
  match d with
  | Decimal.Nil => []
  | Decimal.D0 d => 48%N :: uint_str d
  | Decimal.D1 d => 49%N :: uint_str d
  | Decimal.D2 d => 50%N :: uint_str d
  | Decimal.D3 d => 51%N :: uint_str d
  | Decimal.D4 d => 52%N :: uint_str d
  | Decimal.D5 d => 53%N :: uint_str d
  | Decimal.D6 d => 54%N :: uint_str d
  | Decimal.D7 d => 55%N :: uint_str d
  | Decimal.D8 d => 56%N :: uint_str d
  | Decimal.D9 d => 57%N :: uint_str d
  end.

Definition digit_cons (c : char) (d : Decimal.uint) : option Decimal.uint :=
  match (c - 48)%N, (48 <=? c)%N with
  | _, false => None
  | 0%N, true => Some (Decimal.D0 d)
  | 1%N, true => Some (Decimal.D1 d)
  | 2%N, true => Some (Decimal.D2 d)
  | 3%N, true => Some (Decimal.D3 d)
  | 4%N, true => Some (Decimal.D4 d)
  | 5%N, true => Some (Decimal.D5 d)
  | 6%N, true => Some (Decimal.D6 d)
  | 7%N, true => Some (Decimal.D7 d)
  | 8%N, true => Some (Decimal.D8 d)
  | 9%N, true => Some (Decimal.D9 d)
  | _, true => None
  end.

Fixpoint str_uint (s : str) : option Decimal.uint :=
  match s with
  | [] => Some Decimal.Nil
  | c :: s' => d ← str_uint s'; digit_cons c d
  end.

(** [format!("{}", n)] and the zero padding of [format!("{:0w}", n)]. *)
Definition fmt_dec (n : N) : str := uint_str (N.to_uint n).

Definition fmt_dec_pad (w : nat) (n : N) : str :=
  replicate (w - length (fmt_dec n)) 48%N ++ fmt_dec n.

Definition u32_max : N := 4294967295%N.

(** [*x += 1] on a [u32] of a release build. *)
Definition u32_succ (n : N) : N := ((n + 1) mod 4294967296)%N.

(** [x += 1] on a [u64] of a release build. *)
Definition u64_succ (n : N) : N := ((n + 1) mod 18446744073709551616)%N.

(** [str::parse::<u32>]: an optional plus sign, then one digit or more, within
    the range of the type. *)
Definition parse_u32 (s : str) : option N :=
  let digits := match s with
                | c :: s' => if (c =? chr_plus)%N then s' else s
                | [] => s
                end in
  match digits with
  | [] => None
  | _ :: _ =>
      d ← str_uint digits;
      let n := N.of_uint d in
      if (n <=? u32_max)%N then Some n else None
  end.

(** *** [{:?}] of a string: quotes and control characters escaped *)

Definition hex_digit (n : N) : char :=
  (if n <? 10 then 48 + n else 87 + n)%N.

Definition escape_debug (c : char) : str :=
  (if c =? 9 then #"\t" else if c =? 10 then #"\n" else if c =? 13 then #"\r"
   else if c =? 0 then #"\0" else if c =? 34 then [92; 34] else if c =? 92 then #"\\"
   else if c <? 16 then #"\u{" ++ [hex_digit c] ++ #"}"
   else if c <? 32 then #"\u{" ++ [hex_digit (c / 16); hex_digit (c mod 16)] ++ #"}"
   else if c =? 127 then #"\u{7f}" else [c])%N.

Definition debug_str (s : str) : str :=
  [chr_dquote] ++ (s ≫= escape_debug) ++ [chr_dquote].

(** ** Lemmas on strings *)

Create HintDb orkia.

Lemma strip_prefix_Some (p s t : str) : strip_prefix p s = Some t ↔ s = p ++ t.
Proof.
  revert s. induction p as [|c p IH]; intros s; simpl.
  - split; [by intros [= ->]|by intros ->].
  - destruct s as [|d s]; simpl; [split; [done|intros [=]]|].
    destruct (N.eqb_spec c d) as [->|Hne].
    + rewrite IH. split; [by intros ->|by intros [= ->]].
    + split; [done|intros [= ??]; congruence].
Qed.

Lemma strip_prefix_app (p t : str) : strip_prefix p (p ++ t) = Some t.
Proof. by apply strip_prefix_Some. Qed.

Lemma starts_with_true (p s : str) : starts_with p s = true ↔ ∃ t, s = p ++ t.
Proof.
  unfold starts_with. destruct (strip_prefix p s) eqn:E.
  - apply strip_prefix_Some in E. split; eauto.
  - split; [done|]. intros [t ->]. by rewrite strip_prefix_app in E.
Qed.

Lemma starts_with_app (p t : str) : starts_with p (p ++ t) = true.
Proof. apply starts_with_true. eauto. Qed.

Lemma strip_suffix_Some (p s t : str) : strip_suffix p s = Some t ↔ s = t ++ p.
Proof.
  unfold strip_suffix. rewrite fmap_Some. split.
  - intros (u & H & ->). apply strip_prefix_Some in H.
    apply (f_equal reverse) in H. by rewrite reverse_involutive, reverse_app,
      reverse_involutive in H.
  - intros ->. exists (reverse t). rewrite reverse_app, strip_prefix_app.
    by rewrite reverse_involutive.
Qed.

Lemma ends_with_true (p s : str) : ends_with p s = true ↔ ∃ t, s = t ++ p.
Proof.
  unfold ends_with. destruct (strip_suffix p s) eqn:E.
  - apply strip_suffix_Some in E. split; eauto.
  - split; [done|]. intros [t Ht]. apply strip_suffix_Some in Ht. congruence.
Qed.

Lemma find_sub_Some (p s : str) i :
  find_sub p s = Some i → ∃ t, s = take i s ++ p ++ t.
Proof.
  revert i. induction s as [|c s IH]; intros i; simpl;
    destruct (starts_with p _) eqn:E.
  - intros [= <-]. by apply starts_with_true in E.
  - done.
  - intros [= <-]. by apply starts_with_true in E.
  - intros (j & Hj & ->)%fmap_Some. destruct (IH j Hj) as [t Ht].
    exists t. simpl. congruence.
Qed.

(** The pattern is found where it was put, when it does not occur before and
    none of its later characters is its first one. *)
Lemma find_sub_app (c : char) (p t r : str) :
  c ∉ p → find_sub (c :: p) t = None →
  find_sub (c :: p) (t ++ (c :: p) ++ r) = Some (length t).
Proof.
  intros Hc. induction t as [|d t IH]; intros Hn.
  - destruct ((c :: p) ++ r) eqn:E; [done|]. rewrite <- E. simpl app.
    change (find_sub (c :: p) ((c :: p) ++ r) = Some 0).
    pose proof (starts_with_app (c :: p) r) as H.
    destruct ((c :: p) ++ r); [done|]. simpl find_sub. by rewrite H.
  - simpl in Hn. destruct (starts_with (c :: p) (d :: t)) eqn:E; [done|].
    apply fmap_None in Hn. specialize (IH Hn).
    change (find_sub (c :: p) (d :: (t ++ (c :: p) ++ r)) = Some (S (length t))).
    simpl find_sub.
    destruct (starts_with (c :: p) (d :: t ++ c :: p ++ r)) eqn:E2.
    + exfalso. apply starts_with_true in E2 as [u Hu]. simpl in Hu.
      injection Hu as -> Hu.
      assert (∀ k, t = p ++ k → False) as Hk.
      { intros k ->. pose proof (starts_with_app (c :: p) k : starts_with _ (c :: p ++ k) = _).
        congruence. }
      apply app_eq_inv in Hu as [(k & -> & _)|(k & -> & Hu)]; [by eapply Hk|].
      destruct k as [|a k]; [by apply (Hk []); rewrite !app_nil_r|].
      injection Hu as -> _. set_solver.
    + simpl in IH |- *. by rewrite IH.
Qed.

(** *** Splitting into lines *)

Lemma lines_go_line (cur l rest : str) :
  chr_nl ∉ l → lines_go cur (l ++ (chr_nl :: rest)) = strip_cr (cur ++ l) :: lines rest.
Proof.
  revert cur. induction l as [|c l IH]; intros cur Hl; simpl.
  - by rewrite app_nil_r.
  - destruct (N.eqb_spec c chr_nl) as [->|_]; [set_solver|].
    rewrite IH by set_solver. by rewrite <- app_assoc.
Qed.

Lemma strip_cr_id (l : str) : chr_cr ∉ l → strip_cr l = l.
Proof.
  intros H. unfold strip_cr. destruct (strip_suffix [chr_cr] l) eqn:E; [|done].
  apply strip_suffix_Some in E as ->. set_solver.
Qed.

(** A text line: no line feed and no carriage return. *)
Definition one_line (l : str) : Prop := (chr_nl ∉ l) ∧ (chr_cr ∉ l).

Lemma lines_cons (l rest : str) :
  one_line l → lines (l ++ (chr_nl :: rest)) = l :: lines rest.
Proof.
  intros [Hn Hr]. unfold lines at 1. rewrite lines_go_line by done.
  simpl. by rewrite strip_cr_id.
Qed.

(** The text of a file that holds one line per element. *)
Definition unlines (ls : list str) : str := ls ≫= (λ l, l ++ [chr_nl]).

Lemma lines_unlines (ls : list str) : Forall one_line ls → lines (unlines ls) = ls.
Proof.
  induction 1 as [|l ls Hl Hls IH]; [done|].
  change (unlines (l :: ls)) with ((l ++ [chr_nl]) ++ unlines ls).
  rewrite <- app_assoc. simpl. by rewrite lines_cons, IH.
Qed.

Lemma unlines_app (a b : list str) : unlines (a ++ b) = unlines a ++ unlines b.
Proof. apply bind_app. Qed.

Lemma join_unlines l ls : join [chr_nl] (l :: ls) ++ [chr_nl] = unlines (l :: ls).
Proof.
  revert l. induction ls as [|l' ls IH]; intros l; [by unfold unlines; cbn; rewrite app_nil_r|].
  change (join [chr_nl] (l :: l' :: ls)) with (l ++ [chr_nl] ++ join [chr_nl] (l' :: ls)).
  change (unlines (l :: l' :: ls)) with ((l ++ [chr_nl]) ++ unlines (l' :: ls)).
  by rewrite <- IH, <- !app_assoc.
Qed.

(** *** Decimal round trip *)

Lemma str_uint_uint_str d : str_uint (uint_str d) = Some d.
Proof. induction d; simpl; rewrite ?IHd; done. Qed.

Lemma str_uint_pad k s d :
  str_uint s = Some d →
  ∃ d', str_uint (replicate k 48%N ++ s) = Some d' ∧ N.of_uint d' = N.of_uint d.
Proof.
  intros H. induction k as [|k (d' & Hd & Hn)]; simpl; [eauto|].
  rewrite Hd. simpl. by eexists.
Qed.

Lemma uint_str_not_plus d : chr_plus ∉ uint_str d.
Proof. induction d; simpl; [set_solver|..]; rewrite not_elem_of_cons; done. Qed.

Lemma fmt_dec_nonempty n : fmt_dec n ≠ [].
Proof.
  unfold fmt_dec. destruct n as [|p]; [done|]. intros H.
  assert (N.to_uint (N.pos p) = Decimal.Nil) as E.
  { by destruct (N.to_uint (N.pos p)). }
  apply (f_equal N.of_uint) in E. rewrite DecimalN.Unsigned.of_to in E. done.
Qed.

Lemma fmt_dec_inj m n : fmt_dec m = fmt_dec n → m = n.
Proof.
  intros E. pose proof (str_uint_uint_str (N.to_uint m)) as H1. unfold fmt_dec in E. rewrite E, str_uint_uint_str in H1.
  injection H1 as H1. apply (f_equal N.of_uint) in H1. by rewrite !DecimalN.Unsigned.of_to in H1.
Qed.

Lemma parse_u32_digits s d :
  s ≠ [] → chr_plus ∉ s → str_uint s = Some d → (N.of_uint d ≤ u32_max)%N →
  parse_u32 s = Some (N.of_uint d).
Proof.
  intros Hne Hp Hd Hle. destruct s as [|c s]; [done|]. unfold parse_u32.
  destruct (N.eqb_spec c chr_plus) as [->|_]; [set_solver|].
  rewrite Hd. simpl. destruct (N.leb_spec (N.of_uint d) u32_max); [done|lia].
Qed.

Lemma parse_u32_fmt_dec_pad w n :
  (n ≤ u32_max)%N → parse_u32 (fmt_dec_pad w n) = Some n.
Proof.
  intros Hn. unfold fmt_dec_pad.
  destruct (str_uint_pad (w - length (fmt_dec n)) (fmt_dec n) (N.to_uint n))
    as (d & Hd & Hdn); [apply str_uint_uint_str|].
  rewrite DecimalN.Unsigned.of_to in Hdn. rewrite <- Hdn at 3.
  apply parse_u32_digits; [|..|done|by rewrite Hdn].
  - intros [_ E]%app_eq_nil. by apply fmt_dec_nonempty in E.
  - rewrite not_elem_of_app, elem_of_replicate. split; [by intros [[=] _]|].
    apply uint_str_not_plus.
Qed.

Lemma fmt_dec_pad_inj w n m :
  (n ≤ u32_max)%N → (m ≤ u32_max)%N → fmt_dec_pad w n = fmt_dec_pad w m → n = m.
Proof.
  intros Hn Hm H. apply (parse_u32_fmt_dec_pad w) in Hn, Hm. congruence.
Qed.

Lemma u32_succ_small n : (n < u32_max)%N → u32_succ n = (n + 1)%N.
Proof. unfold u32_succ, u32_max. intros. by rewrite N.mod_small by lia. Qed.
