(* ===== verification/Text.v ===== *)
(** * Text: bytes and text

    UTF-8 as [str::as_bytes], [std::str::from_utf8] and [String::from_utf8_lossy]
    see it, [to_ascii_lowercase], and signed decimal numbers. The decoder follows
    the standard library: a sequence that stops being well formed is replaced, up
    to the byte that broke it, by one replacement character. *)

From Stdlib Require Import NArith ZArith Lia.
From stdpp Require Import base gmap strings option numbers list list_basics.
From S2P Require Import Prelude.

(** ** Encoding *)

Definition utf8_char (c : char) : list N :=
  (if c <? 128 then [c]
   else if c <? 2048 then [192 + c / 64; 128 + c mod 64]
   else if c <? 65536 then [224 + c / 4096; 128 + c / 64 mod 64; 128 + c mod 64]
   else [240 + c / 262144; 128 + c / 4096 mod 64; 128 + c / 64 mod 64; 128 + c mod 64])%N.

Definition utf8 (s : str) : list N := s ≫= utf8_char.

(** A Unicode scalar value. *)
Definition is_scalar (c : char) : bool :=
  ((c <? 55296) || ((57343 <? c) && (c <? 1114112)))%N.

(** ** Decoding *)

Definition in_range (lo hi b : N) : bool := ((lo <=? b) && (b <=? hi))%N.

(** The range of the byte after the first one, by the first one. *)
Definition second_range (b : N) : N * N :=
  (if b =? 224 then (160, 191) else if b =? 237 then (128, 159)
   else if b =? 240 then (144, 191) else if b =? 244 then (128, 143) else (128, 191))%N.

(** The first character of a byte string, or none when it is ill formed there,
    and the bytes that follow it. *)
Definition decode_step (b : N) (bs : list N) : option char * list N :=
  (let '(lo, hi) := second_range b in
   if b <? 128 then (Some b, bs)
   else if in_range 194 223 b then
     match bs with
     | b1 :: r => if in_range 128 191 b1 then (Some ((b - 192) * 64 + (b1 - 128)), r) else (None, bs)
     | [] => (None, [])
     end
   else if in_range 224 239 b then
     match bs with
     | b1 :: r1 =>
         if in_range lo hi b1 then
           match r1 with
           | b2 :: r2 =>
               if in_range 128 191 b2
               then (Some ((b - 224) * 4096 + (b1 - 128) * 64 + (b2 - 128)), r2) else (None, r1)
           | [] => (None, [])
           end
         else (None, bs)
     | [] => (None, [])
     end
   else if in_range 240 244 b then
     match bs with
     | b1 :: r1 =>
         if in_range lo hi b1 then
           match r1 with
           | b2 :: r2 =>
               if in_range 128 191 b2 then
                 match r2 with
                 | b3 :: r3 =>
                     if in_range 128 191 b3
                     then (Some ((b - 240) * 262144 + (b1 - 128) * 4096 + (b2 - 128) * 64
                                 + (b3 - 128)), r3)
                     else (None, r2)
                 | [] => (None, [])
                 end
               else (None, r1)
           | [] => (None, [])
           end
         else (None, bs)
     | [] => (None, [])
     end
   else (None, bs))%N.

Fixpoint decode_go (fuel : nat) (bs : list N) : list (option char) :=
  match fuel, bs with
  | S fuel, b :: bs' => let '(c, rest) := decode_step b bs' in c :: decode_go fuel rest
  | _, _ => []
  end.

(** One unit of fuel per byte: a step consumes at least one. *)
Definition decode (bs : list N) : list (option char) := decode_go (length bs) bs.

(** [std::str::from_utf8] *)
Definition from_utf8 (bs : list N) : option str := mapM id (decode bs).

Definition REPLACEMENT : char := 65533%N.

(** [String::from_utf8_lossy] *)
Definition from_utf8_lossy (bs : list N) : str := map (default REPLACEMENT) (decode bs).

(** ** ASCII *)

(** [char::to_ascii_lowercase] and [str::to_ascii_lowercase] *)
Definition ascii_lower (c : char) : char := if in_range 65 90 c then (c + 32)%N else c.

Definition to_ascii_lowercase (s : str) : str := map ascii_lower s.

(** [str::parse::<i32>]: one sign, then one digit or more, within the range. *)
Definition parse_i32 (s : str) : option Z :=
  let '(neg, digits) := match s with
                        | c :: s' => if (c =? chr_plus)%N then (false, s')
                                     else if (c =? chr_minus)%N then (true, s')
                                     else (false, s)
                        | [] => (false, s)
                        end in
  match digits with
  | [] => None
  | _ :: _ =>
      d ← str_uint digits;
      let z := (if neg then - Z.of_N (N.of_uint d) else Z.of_N (N.of_uint d))%Z in
      if ((- 2 ^ 31 <=? z) && (z <? 2 ^ 31))%Z then Some z else None
  end.

(** ** Lemmas *)

Lemma utf8_app a b : utf8 (a ++ b) = utf8 a ++ utf8 b.
Proof. apply bind_app. Qed.

Lemma utf8_cons c s : utf8 (c :: s) = utf8_char c ++ utf8 s.
Proof. done. Qed.

Lemma utf8_char_ascii c : (c < 128)%N → utf8_char c = [c].
Proof. intros Hc. unfold utf8_char. by apply N.ltb_lt in Hc as ->. Qed.

Lemma length_utf8_char c : N.of_nat (length (utf8_char c)) = utf8_len c.
Proof. unfold utf8_char, utf8_len. by repeat case_match. Qed.

Lemma length_utf8 s : N.of_nat (length (utf8 s)) = byte_len s.
Proof.
  induction s as [|c s IH]; [done|]. rewrite utf8_cons, length_app, Nat2N.inj_add, IH, length_utf8_char.
  done.
Qed.

Lemma in_range_true lo hi b : in_range lo hi b = true ↔ (lo ≤ b ≤ hi)%N.
Proof. unfold in_range. rewrite andb_true_iff, !N.leb_le. done. Qed.

Lemma in_range_false lo hi b : in_range lo hi b = false ↔ (b < lo ∨ hi < b)%N.
Proof. unfold in_range. rewrite andb_false_iff, !N.leb_gt. done. Qed.

(** Settles every range test whose outcome follows from the context. *)
Ltac ranges :=
  repeat match goal with
  | |- context [in_range ?lo ?hi ?b] =>
      first [ rewrite (proj2 (in_range_true lo hi b)) by lia
            | rewrite (proj2 (in_range_false lo hi b)) by lia ]
  end.

(** Splits on the tests of a goal one by one, as long as both outcomes are open. *)
Ltac split_tests :=
  repeat match goal with
  | |- context [(?a <? ?b)%N] => destruct (N.ltb_spec a b); try lia
  | |- context [(?a =? ?b)%N] => destruct (N.eqb_spec a b); try lia
  end.

(** A character is read back from its bytes. *)
Lemma decode_utf8_char c : is_scalar c = true →
  ∃ b bs, utf8_char c = b :: bs ∧ ∀ r, decode_step b (bs ++ r) = (Some c, r).
Proof.
  unfold is_scalar. rewrite orb_true_iff, andb_true_iff, !N.ltb_lt. intros Hs.
  pose proof (N.div_mod c 64) as D1.
  pose proof (N.div_mod (c / 64) 64) as D2.
  pose proof (N.div_mod (c / 64 / 64) 64) as D3.
  pose proof (N.mod_lt c 64) as M1. pose proof (N.mod_lt (c / 64) 64) as M2.
  pose proof (N.mod_lt (c / 64 / 64) 64) as M3.
  assert (c / 4096 = c / 64 / 64)%N as E2 by (rewrite N.Div0.div_div; done).
  assert (c / 262144 = c / 64 / 64 / 64)%N as E3 by (rewrite !N.Div0.div_div; done).
  unfold utf8_char. rewrite E2, E3. clear E2 E3.
  remember (c / 64)%N as q1 eqn:Hq1. remember (q1 / 64)%N as q2 eqn:Hq2.
  remember (q2 / 64)%N as q3 eqn:Hq3.
  remember (c mod 64)%N as m1 eqn:Hm1. remember (q1 mod 64)%N as m2 eqn:Hm2.
  remember (q2 mod 64)%N as m3 eqn:Hm3.
  clear Hq1 Hq2 Hq3 Hm1 Hm2 Hm3.
  split_tests; eexists _, _; (split; [reflexivity|]); intros r; unfold decode_step, second_range;
    cbn [app]; split_tests; cbn [fst snd]; ranges; do 2 f_equal; lia.
Qed.

Lemma decode_step_length b bs : length (decode_step b bs).2 ≤ length bs.
Proof. unfold decode_step. destruct (second_range b). repeat case_match; simpl; lia. Qed.

Lemma decode_go_fuel n m bs : length bs ≤ n → length bs ≤ m → decode_go n bs = decode_go m bs.
Proof.
  revert m bs. induction n as [|n IH]; intros m [|b bs] Hn Hm; simpl in *; try lia;
    [by destruct m..|].
  destruct m as [|m]; simpl in *; [lia|].
  pose proof (decode_step_length b bs). destruct (decode_step b bs) as [c rest]. simpl in *.
  f_equal. apply IH; lia.
Qed.

Lemma decode_cons b bs : decode (b :: bs) = (decode_step b bs).1 :: decode (decode_step b bs).2.
Proof.
  unfold decode at 1. simpl. pose proof (decode_step_length b bs).
  destruct (decode_step b bs) as [c rest]. simpl in *. f_equal. unfold decode. apply decode_go_fuel; lia.
Qed.

(** Encoded text in front of other bytes is decoded on its own. *)
Lemma decode_utf8_app s bs : Forall (λ c, is_scalar c = true) s → decode (utf8 s ++ bs) = map Some s ++ decode bs.
Proof.
  induction 1 as [|c s Hc Hs IH]; [done|].
  destruct (decode_utf8_char c Hc) as (b & r & E & Hd).
  rewrite utf8_cons, E. cbn [app map]. rewrite <- app_assoc, decode_cons, Hd. cbn [fst snd].
  by rewrite IH.
Qed.

Lemma decode_utf8 s : Forall (λ c, is_scalar c = true) s → decode (utf8 s) = map Some s.
Proof. intros Hs. rewrite <- (app_nil_r (utf8 s)), decode_utf8_app by done. apply app_nil_r. Qed.

Lemma from_utf8_utf8 s : Forall (λ c, is_scalar c = true) s → from_utf8 (utf8 s) = Some s.
Proof.
  intros Hs. unfold from_utf8. rewrite decode_utf8 by done. apply mapM_Some, Forall2_fmap_l.
  by apply Forall_Forall2_diag, Forall_true.
Qed.

Lemma from_utf8_lossy_utf8 s : Forall (λ c, is_scalar c = true) s → from_utf8_lossy (utf8 s) = s.
Proof.
  intros Hs. unfold from_utf8_lossy. rewrite decode_utf8 by done. rewrite map_map. apply map_id.
Qed.

(** An ASCII byte is its own character. *)
Lemma utf8_ascii s : Forall (λ c, c < 128)%N s → utf8 s = s.
Proof.
  induction 1 as [|c s Hc Hs IH]; [done|]. rewrite utf8_cons, IH, utf8_char_ascii by done. done.
Qed.

(** No byte of a character that is not ASCII is an ASCII byte. *)
Lemma utf8_char_high c b : (128 ≤ c)%N → b ∈ utf8_char c → (128 ≤ b)%N.
Proof.
  assert (∀ x y, 128 ≤ x → 128 ≤ x + y)%N as Hadd by (intros; lia).
  intros Hc. unfold utf8_char. split_tests; intros Hb; rewrite !elem_of_cons, elem_of_nil in Hb;
    destruct_or? Hb; try done; subst; by apply Hadd.
Qed.

Lemma elem_utf8_ascii s b : (b < 128)%N → b ∈ utf8 s ↔ b ∈ s.
Proof.
  intros Hb. unfold utf8. rewrite list_elem_of_bind. split.
  - intros (c & Hc & Hs). destruct (N.ltb_spec c 128) as [Hl|Hl].
    + rewrite utf8_char_ascii in Hc by done. by apply list_elem_of_singleton in Hc as ->.
    + apply utf8_char_high in Hc; [lia|done].
  - intros Hs. exists b. rewrite utf8_char_ascii by done. split; [set_solver|done].
Qed.

(** A character cut off before its last byte does not decode. *)
Lemma decode_cut_char c b pre suf :
  utf8_char c = (b :: pre) ++ suf → suf ≠ [] → pre ++ suf ≠ [] → (decode_step b pre).1 = None.
Proof.
  unfold utf8_char. intros Hu Hs Hne.
  assert (∀ x y, 128 ≤ x → (x + y <? 128)%N = false)%N as Hge by (intros; apply N.ltb_ge; lia).
  assert (∀ lo hi x y, hi < x → in_range lo hi (x + y) = false)%N as Hhi
    by (intros; apply in_range_false; lia).
  destruct (c <? 128)%N.
  { destruct pre; simplify_eq/=; done. }
  destruct (c <? 2048)%N; [|destruct (c <? 65536)%N].
  all: destruct pre as [|b1 [|b2 [|b3 pre]]]; simplify_eq/=; try done.
  all: try (match goal with E : [] = ?l ++ ?s |- _ => by symmetry in E; apply app_eq_nil in E as [_ ?] end).
  all: unfold decode_step; destruct (second_range _) as [lo hi]; rewrite Hge by lia;
    rewrite ?(Hhi 194 223 224)%N, ?(Hhi 194 223 240)%N, ?(Hhi 224 239 240)%N by lia; by repeat case_match.
Qed.
