(* ===== verification/Words.v ===== *)
(** * Words and numbers in a text

    The standard library's operations on separators, blanks and decimal numbers that the
    parsers of command lines use ([str::split_once], [str::rsplit_once],
    [str::trim_matches], [str::parse] of an unsigned type), with their lemmas: a list of
    words joined by blanks splits into the words, a number is a word and parses back. *)
From Stdlib Require Import NArith Lia.
From stdpp Require Import base gmap strings option numbers list list_basics.
From S2P Require Import Prelude Text.

(** [str::parse] of an unsigned type with the given largest value. *)
Definition parse_uint (max : N) (s : str) : option N :=
  let digits := match s with
                | c :: s' => if (c =? chr_plus)%N then s' else s
                | [] => s
                end in
  match digits with
  | [] => None
  | _ :: _ =>
      d ← str_uint digits;
      let n := N.of_uint d in
      if (n <=? max)%N then Some n else None
  end.

Definition parse_u8 : str → option N := parse_uint 255.

Definition chr_comma : char := 44%N.
Definition chr_colon : char := 58%N.

(** [str::split_once] and [str::rsplit_once] of a character. *)
Fixpoint split_once (sep : char) (s : str) : option (str * str) :=
  match s with
  | [] => None
  | c :: s' =>
      if (c =? sep)%N then Some ([], s')
      else '(a, b) ← split_once sep s'; Some (c :: a, b)
  end.

Definition rsplit_once (sep : char) (s : str) : option (str * str) :=
  '(a, b) ← split_once sep (reverse s); Some (reverse b, reverse a).

Fixpoint drop_while (p : char → bool) (s : str) : str :=
  match s with
  | [] => []
  | c :: s' => if p c then drop_while p s' else s
  end.

(** [str::trim_matches] *)
Definition trim_matches (p : char → bool) (s : str) : str :=
  reverse (drop_while p (reverse (drop_while p s))).

(** ** Lemmas on words and numbers *)

Definition no_blank (w : str) : Prop := Forall (λ c, is_whitespace c = false) w.

Lemma split_whitespace_go_word cur w rest : no_blank w →
  split_whitespace_go cur (w ++ rest) = split_whitespace_go (cur ++ w) rest.
Proof.
  intros Hw. revert cur. induction Hw as [|c w Hc Hw IH]; intros cur; [by rewrite app_nil_r|].
  simpl. by rewrite Hc, IH, <- app_assoc.
Qed.

Lemma split_whitespace_word w rest : w ≠ [] → no_blank w →
  split_whitespace (w ++ chr_space :: rest) = w :: split_whitespace rest.
Proof.
  intros Hn Hw. unfold split_whitespace. rewrite split_whitespace_go_word by done.
  simpl. by destruct w.
Qed.

Definition word (w : str) : Prop := w ≠ [] ∧ no_blank w.

Lemma split_whitespace_join ws : Forall word ws → split_whitespace (join #" " ws) = ws.
Proof.
  induction 1 as [|w ws [Hn Hw] HF IH]; [done|]. destruct ws as [|v ws].
  - simpl. rewrite <- (app_nil_r w) at 1. unfold split_whitespace. rewrite split_whitespace_go_word by done.
    simpl. by destruct w.
  - change (join #" " (w :: v :: ws)) with (w ++ chr_space :: join #" " (v :: ws)).
    by rewrite split_whitespace_word, IH.
Qed.

Definition digits (s : str) : Prop := Forall (λ c, 48 ≤ c ≤ 57)%N s.

Lemma uint_digits d : digits (uint_str d).
Proof. induction d; constructor; (done || lia). Qed.

Lemma fmt_dec_digits n : digits (fmt_dec n).
Proof. apply uint_digits. Qed.

Lemma digits_word s : s ≠ [] → digits s → word s.
Proof.
  intros Hn Hd. split; [done|]. eapply list.Forall_impl; [exact Hd|]. intros c Hc. cbv beta in Hc.
  apply not_true_iff_false. unfold is_whitespace. rewrite !orb_true_iff, !andb_true_iff, !N.leb_le, !N.eqb_eq. lia.
Qed.

Lemma fmt_dec_word n : word (fmt_dec n).
Proof. apply digits_word; [apply fmt_dec_nonempty|apply fmt_dec_digits]. Qed.

Lemma parse_uint_fmt max n : (n ≤ max)%N → parse_uint max (fmt_dec n) = Some n.
Proof.
  intros Hn. pose proof (fmt_dec_nonempty n) as Hne. pose proof (fmt_dec_digits n) as Hd.
  unfold parse_uint. destruct (fmt_dec n) as [|c s] eqn:E; [done|]. apply list.Forall_cons in Hd as [Hc _].
  destruct (N.eqb_spec c chr_plus) as [->|_]; [unfold chr_plus in Hc; lia|].
  rewrite <- E. unfold fmt_dec. rewrite str_uint_uint_str. simpl. rewrite DecimalN.Unsigned.of_to.
  destruct (N.leb_spec n max); [done|lia].
Qed.

Lemma split_once_None sep s : sep ∉ s → split_once sep s = None.
Proof.
  induction s as [|c s IH]; intros Hs; [done|]. simpl. destruct (N.eqb_spec c sep) as [->|_]; [set_solver|].
  by rewrite IH by set_solver.
Qed.

Lemma split_once_app sep a b : sep ∉ a → split_once sep (a ++ sep :: b) = Some (a, b).
Proof.
  induction a as [|c a IH]; intros Ha; simpl; [by rewrite N.eqb_refl|].
  destruct (N.eqb_spec c sep) as [->|_]; [set_solver|]. by rewrite IH by set_solver.
Qed.

Lemma rsplit_once_app sep a b : sep ∉ b → rsplit_once sep (a ++ sep :: b) = Some (a, b).
Proof.
  intros Hb. unfold rsplit_once. rewrite reverse_app, reverse_cons, <- app_assoc. simpl.
  rewrite split_once_app by (by rewrite elem_of_reverse). simpl. by rewrite !reverse_involutive.
Qed.

Lemma rsplit_once_None sep s : sep ∉ s → rsplit_once sep s = None.
Proof. intros Hs. unfold rsplit_once. by rewrite split_once_None by (by rewrite elem_of_reverse). Qed.

Lemma digits_without c s : (c < 48 ∨ 57 < c)%N → digits s → c ∉ s.
Proof. intros Hc Hd Hin. unfold digits in Hd. rewrite list.Forall_forall in Hd. specialize (Hd c Hin). cbv beta in Hd. lia. Qed.

Lemma split_char_free sep cur s : sep ∉ s → split_char_go sep cur s = [cur ++ s].
Proof.
  revert cur. induction s as [|c s IH]; intros cur Hs; simpl; [by rewrite app_nil_r|].
  destruct (N.eqb_spec c sep) as [->|_]; [set_solver|]. rewrite IH by set_solver. by rewrite <- app_assoc.
Qed.

Lemma split_char_go_at sep cur a b : sep ∉ a →
  split_char_go sep cur (a ++ sep :: b) = (cur ++ a) :: split_char sep b.
Proof.
  revert cur. induction a as [|c a IH]; intros cur Ha; simpl; [by rewrite N.eqb_refl, app_nil_r|].
  destruct (N.eqb_spec c sep) as [->|_]; [set_solver|]. rewrite IH by set_solver. by rewrite <- app_assoc.
Qed.

Lemma split_char_join sep ws : ws ≠ [] → Forall (λ w, sep ∉ w) ws → split_char sep (join [sep] ws) = ws.
Proof.
  intros Hne HF. induction HF as [|w ws Hw HF IH]; [done|]. destruct ws as [|v ws].
  - by apply (split_char_free sep []).
  - change (join [sep] (w :: v :: ws)) with (w ++ sep :: join [sep] (v :: ws)).
    unfold split_char at 1. rewrite (split_char_go_at sep []) by done. by rewrite IH.
Qed.

(** ** What is written is due when it is meant *)

Lemma trim_no_blank s : no_blank s → trim s = s.
Proof.
  assert (∀ l, no_blank l → trim_start l = l) as Hs. { intros l [|c l' Hc Hl]; [done|]. simpl. by rewrite Hc. }
  intros H. unfold trim, trim_end. rewrite (Hs s) by done. rewrite Hs, reverse_involutive; [done|].
  unfold no_blank. by apply list.Forall_reverse.
Qed.

Lemma strip_suffix_snoc c d s : strip_suffix [c] (s ++ [d]) = if (c =? d)%N then Some s else None.
Proof.
  unfold strip_suffix. rewrite reverse_snoc. simpl. destruct (c =? d)%N; [|done]. simpl. by rewrite reverse_involutive.
Qed.
