(* ===== verification/Effects.v ===== *)
(** * Effects: results, stateful operations that may fail, serialization

    [result E A] is Rust's [Result<A, E>]; [M S E A] is an operation that reads
    and writes a state [S] and returns a [Result]: the state survives an error,
    as it does in the code when [?] leaves a function early. [hoare] is the
    partial-correctness judgement the components use for invariants; since
    every [M] is a total Rocq function, it also covers every error return.
    [Serde] is the interface of the serialization crates (toml, serde_json),
    whose code is not part of the repository: the operations are class
    members, their documented behaviour is the class [SerdeLaws]. *)

From Stdlib Require Import NArith ZArith Lia.
From stdpp Require Import base gmap strings option numbers countable list list_basics.
From S2P Require Import Prelude.

(** ** Results *)

Inductive result (E A : Type) : Type :=
| Ok (a : A)
| Err (e : E).
Arguments Ok {E A} a.
Arguments Err {E A} e.

#[export] Instance result_ret E : MRet (result E) := λ A a, Ok a.
#[export] Instance result_bind E : MBind (result E) := λ A B k m,
  match m with Ok a => k a | Err e => Err e end.
#[export] Instance result_map E : FMap (result E) := λ A B f m,
  match m with Ok a => Ok (f a) | Err e => Err e end.

Definition is_ok {E A} (r : result E A) : bool :=
  match r with Ok _ => true | Err _ => false end.

(** [Result::ok] *)
Definition to_option {E A} (r : result E A) : option A :=
  match r with Ok a => Some a | Err _ => None end.

(** [Option::ok_or] *)
Definition ok_or {E A} (o : option A) (e : E) : result E A :=
  match o with Some a => Ok a | None => Err e end.

Definition map_err {E F A} (f : E → F) (r : result E A) : result F A :=
  match r with Ok a => Ok a | Err e => Err (f e) end.

Lemma result_bind_Ok {E A B} (m : result E A) (k : A → result E B) b :
  (m ≫= k) = Ok b ↔ ∃ a, m = Ok a ∧ k a = Ok b.
Proof. destruct m; simpl; naive_solver. Qed.

(** ** Stateful operations that may fail *)

Definition M (S E A : Type) : Type := S → result E A * S.

#[export] Instance M_ret S E : MRet (M S E) := λ A a s, (Ok a, s).
#[export] Instance M_bind S E : MBind (M S E) := λ A B k m s,
  match m s with
  | (Ok a, s') => k a s'
  | (Err e, s') => (Err e, s')
  end.

Definition throw {S E A} (e : E) : M S E A := λ s, (Err e, s).
Definition lift {S E A} (r : result E A) : M S E A := λ s, (r, s).
Definition gets {S E A} (f : S → A) : M S E A := λ s, (Ok (f s), s).
Definition modify {S E} (f : S → S) : M S E unit := λ s, (Ok (), f s).

(** [let _ = op]: the result is dropped, the effect stays. *)
Definition ignore {S E F A} (m : M S E A) : M S F unit := λ s, (Ok (), (m s).2).

(** [op.ok()]: an error becomes [None], the effect stays. *)
Definition attempt {S E F A} (m : M S E A) : M S F (result E A) :=
  λ s, let '(r, s') := m s in (Ok r, s').

(** Runs an operation on a component of a larger state. *)
Definition zoom {S T E A} (get : T → S) (set : S → T → T) (m : M S E A) : M T E A :=
  λ t, let '(r, s') := m (get t) in (r, set s' t).

Lemma M_bind_Ok {S E A B} (m : M S E A) (k : A → M S E B) s b s' :
  (m ≫= k) s = (Ok b, s') ↔ ∃ a s1, m s = (Ok a, s1) ∧ k a s1 = (Ok b, s').
Proof. unfold mbind, M_bind. destruct (m s) as [[a|e] s1]; naive_solver. Qed.

Lemma M_bind_inv {S E A B} (m : M S E A) (k : A → M S E B) s r s' :
  (m ≫= k) s = (r, s') →
  (∃ a s1, m s = (Ok a, s1) ∧ k a s1 = (r, s')) ∨ (∃ e, m s = (Err e, s') ∧ r = Err e).
Proof. unfold mbind, M_bind. destruct (m s) as [[a|e] s1]; naive_solver. Qed.

(** Runs the first operation of a sequence. *)
Lemma M_bind_run {S E A B} (m : M S E A) (k : A → M S E B) s a s' :
  m s = (Ok a, s') → (m ≫= k) s = k a s'.
Proof. unfold mbind, M_bind. by intros ->. Qed.

Lemma M_bind_fail {S E A B} (m : M S E A) (k : A → M S E B) s e s' :
  m s = (Err e, s') → (m ≫= k) s = (Err e, s').
Proof. unfold mbind, M_bind. by intros ->. Qed.

(** ** Partial correctness on every outcome *)

Definition hoare {S E A} (P : S → Prop) (m : M S E A) (Q : A → S → Prop)
    (R : S → Prop) : Prop :=
  ∀ s, P s → match m s with (Ok a, s') => Q a s' | (Err _, s') => R s' end.

Section hoare_rules.
Context {S E : Type}.
Implicit Types (P R : S → Prop).

Lemma hoare_ret {A} (a : A) P (Q : A → S → Prop) R :
  (∀ s, P s → Q a s) → hoare P (mret a : M S E A) Q R.
Proof. intros H s Hs. simpl. auto. Qed.

Lemma hoare_bind {A B} (m : M S E A) (k : A → M S E B) P (Q : A → S → Prop)
    (Q' : B → S → Prop) R :
  hoare P m Q R → (∀ a, hoare (Q a) (k a) Q' R) → hoare P (m ≫= k) Q' R.
Proof.
  intros Hm Hk s Hs. specialize (Hm s Hs). unfold mbind, M_bind.
  destruct (m s) as [[a|e] s1]; [|done]. by apply Hk.
Qed.

Lemma hoare_conseq {A} (m : M S E A) (P' P : S → Prop) (Q' Q : A → S → Prop)
    (R' R : S → Prop) :
  hoare P' m Q' R' → (∀ s, P s → P' s) → (∀ a s, Q' a s → Q a s) → (∀ s, R' s → R s) →
  hoare P m Q R.
Proof.
  intros Hm HP HQ HR s Hs. specialize (Hm s (HP s Hs)).
  destruct (m s) as [[a|e] s1]; auto.
Qed.

Lemma hoare_throw {A} (e : E) P (Q : A → S → Prop) R :
  (∀ s, P s → R s) → hoare P (throw e : M S E A) Q R.
Proof. intros H s Hs. simpl. auto. Qed.

Lemma hoare_lift {A} (r : result E A) P (Q : A → S → Prop) R :
  (∀ a s, r = Ok a → P s → Q a s) → (∀ s, P s → R s) → hoare P (lift r : M S E A) Q R.
Proof. intros HQ HR s Hs. unfold lift. destruct r; auto. Qed.

Lemma hoare_gets {A} (f : S → A) P (Q : A → S → Prop) R :
  (∀ s, P s → Q (f s) s) → hoare P (gets f : M S E A) Q R.
Proof. intros H s Hs. simpl. auto. Qed.

Lemma hoare_modify (f : S → S) P (Q : unit → S → Prop) R :
  (∀ s, P s → Q () (f s)) → hoare P (modify f : M S E unit) Q R.
Proof. intros H s Hs. simpl. auto. Qed.

Lemma hoare_ok {A} (m : M S E A) P (Q : A → S → Prop) R s a s' :
  m s = (Ok a, s') → hoare P m Q R → P s → Q a s'.
Proof. intros Hm H Hs. specialize (H s Hs). by rewrite Hm in H. Qed.

Lemma hoare_err {A} (m : M S E A) P (Q : A → S → Prop) R s e s' :
  m s = (Err e, s') → hoare P m Q R → P s → R s'.
Proof. intros Hm H Hs. specialize (H s Hs). by rewrite Hm in H. Qed.

End hoare_rules.

#[export] Hint Resolve hoare_ret hoare_throw hoare_lift hoare_gets hoare_modify : orkia.

(** Unfolds one monadic bind in a hypothesis and splits on its outcome. *)
Ltac minv H :=
  apply M_bind_inv in H; destruct H as [(?&?&?&H)|(?&?&?)].

(** ** Serialization crates *)

(** The output or error message of a serializer, and its inverse. *)
Class Serde (A : Type) := {
  ser : A → result str str;
  de : str → result str A;
}.

(** What the code relies on: a value that serializes is read back, and its
    text is one line that is not blank (compact JSON escapes line breaks and
    starts with a brace). *)
Class SerdeLaws (A : Type) `{!Serde A} : Prop := {
  de_ser x s : ser x = Ok s → de s = Ok x;
  ser_one_line x s : ser x = Ok s → one_line s;
  ser_not_blank (x : A) s : ser x = Ok s → trim s ≠ [];
}.

(** *** A concrete serializer for countable types: the binary digits of the
    value's code. It shows that the laws can hold. *)

Fixpoint pos_bits (p : positive) : str :=
  match p with
  | xH => [49%N]
  | xO p => 48%N :: pos_bits p
  | xI p => 49%N :: pos_bits p
  end.

Fixpoint bits_pos (s : str) : option positive :=
  match s with
  | [] => None
  | [c] => if (c =? 49)%N then Some xH else None
  | c :: s' =>
      p ← bits_pos s';
      if (c =? 48)%N then Some (xO p) else if (c =? 49)%N then Some (xI p) else None
  end.

Lemma pos_bits_cons p : ∃ c s, pos_bits p = c :: s.
Proof. destruct p; simpl; eauto. Qed.

Lemma bits_pos_bits p : bits_pos (pos_bits p) = Some p.
Proof.
  induction p as [p IH|p IH|]; [| |done]; simpl;
    destruct (pos_bits_cons p) as (c & s & E); by rewrite E, <- E, IH.
Qed.

Lemma pos_bits_chars p c : c ∈ pos_bits p → c = 48%N ∨ c = 49%N.
Proof.
  induction p as [p IH|p IH|]; simpl; [..|set_solver];
    intros [->|?]%elem_of_cons; auto.
Qed.

Lemma trim_pos_bits p : trim (pos_bits p) ≠ [].
Proof.
  assert (∀ l : str, (∀ c, c ∈ l → c = 48%N ∨ c = 49%N) → trim_start l = l) as Ht.
  { intros [|c l] Hl; [done|]. simpl.
    destruct (Hl c) as [->| ->]; [apply list_elem_of_here|done|done]. }
  unfold trim, trim_end. rewrite (Ht (pos_bits p)) by apply pos_bits_chars.
  rewrite Ht; [rewrite reverse_involutive; by destruct p|].
  intros c. rewrite elem_of_reverse. apply pos_bits_chars.
Qed.

Definition bits_serde (A : Type) `{Countable A} : Serde A := {|
  ser x := Ok (pos_bits (encode x));
  de s := ok_or (p ← bits_pos s; decode p) s;
|}.

Lemma bits_serde_laws (A : Type) `{Countable A} : @SerdeLaws A (bits_serde A).
Proof.
  split; simpl; intros x s [= <-].
  - rewrite bits_pos_bits. simpl. by rewrite decode_encode.
  - split; intros [|]%pos_bits_chars; done.
  - apply trim_pos_bits.
Qed.

(** *** A second one, for the values of a given table: cheap to run *)

Section table.
Context {A : Type} `{EqDecision A}.

Definition table_text (l : list A) (x : A) : result str str :=
  ok_or ((λ p, replicate (S p.1) 48%N) <$> list_find (λ y, y = x) l) #"not in the table".

Definition table_value (l : list A) (s : str) : result str A :=
  ok_or (l !! (length s - 1)%nat) #"not in the table".

Definition table_serde (l : list A) : Serde A := {| ser := table_text l; de := table_value l |}.

Lemma table_text_value l x s : table_text l x = Ok s → table_value l s = Ok x.
Proof.
  unfold table_text, table_value. destruct (list_find _ l) as [[i y]|] eqn:E; [|done].
  intros [= <-]. apply list_find_Some in E as (Hi & -> & _).
  simpl. rewrite length_replicate, Nat.sub_0_r. by rewrite Hi.
Qed.

Lemma table_text_chars l x s c : table_text l x = Ok s → c ∈ s → c = 48%N.
Proof.
  unfold table_text. destruct (list_find _ l) as [[i y]|]; [|done]. intros [= <-] Hc.
  simpl in Hc. apply elem_of_cons in Hc as [->|Hc]; [done|]. by apply elem_of_replicate in Hc as [? _].
Qed.

Lemma table_serde_laws l : @SerdeLaws A (table_serde l).
Proof.
  split; simpl; intros x s Hs.
  - by apply table_text_value.
  - split; intros Hc; by apply (table_text_chars _ _ _ _ Hs) in Hc.
  - unfold table_text in Hs. destruct (list_find _ l) as [[i y]|]; [|done].
    injection Hs as <-. generalize i. clear. intros i Ht.
    change (trim (replicate (S i) 48%N) = []) in Ht. unfold trim, trim_end in Ht. simpl in Ht.
    apply (f_equal reverse) in Ht. rewrite reverse_involutive in Ht.
    change (48%N :: replicate i 48%N) with (replicate (S i) 48%N) in Ht.
    rewrite reverse_replicate in Ht. by simpl in Ht.
Qed.

End table.
