(* ===== verification/Json.v ===== *)
(** * Json: [serde_json::Value]

    JSON values as the code sees them, with the accessors it uses
    ([get], [as_str], [as_u64], [as_i64], [as_bool], object insertion).
    [serde_json] is built without [preserve_order], so an object is a
    [BTreeMap]: the association list is kept in key order. A float is its
    64-bit pattern; nothing in the modelled code computes with floats. *)

From Stdlib Require Import NArith ZArith Lia Sorted.
From stdpp Require Import base gmap strings option numbers countable list list_basics.
From S2P Require Import Prelude.

Inductive json : Type :=
| JNull
| JBool (b : bool)
| JInt (z : Z)
| JFloat (bits : N)
| JStr (s : str)
| JArr (l : list json)
| JObj (m : list (str * json)).

(** Induction that reaches into arrays and objects. *)
Definition json_rect_nested (P : json → Prop)
    (Hnull : P JNull) (Hbool : ∀ b, P (JBool b)) (Hint : ∀ z, P (JInt z))
    (Hfloat : ∀ n, P (JFloat n)) (Hstr : ∀ s, P (JStr s))
    (Harr : ∀ l, Forall P l → P (JArr l))
    (Hobj : ∀ m, Forall (λ kv, P kv.2) m → P (JObj m)) : ∀ j, P j :=
  fix go j :=
    match j with
    | JNull => Hnull
    | JBool b => Hbool b
    | JInt z => Hint z
    | JFloat n => Hfloat n
    | JStr s => Hstr s
    | JArr l => Harr l ((fix arr l := match l return Forall P l with
                                      | [] => Forall_nil_2 _
                                      | x :: l' => Forall_cons_2 _ _ _ (go x) (arr l')
                                      end) l)
    | JObj m => Hobj m ((fix obj m := match m return Forall (λ kv, P kv.2) m with
                                      | [] => Forall_nil_2 _
                                      | kv :: m' => Forall_cons_2 _ _ _ (go kv.2) (obj m')
                                      end) m)
    end.

Abbreviation json_leaf := (unit + bool + Z + N + str)%type.

Fixpoint json_tree (j : json) : gen_tree json_leaf :=
  match j with
  | JNull => GenLeaf (inl (inl (inl (inl ()))))
  | JBool b => GenLeaf (inl (inl (inl (inr b))))
  | JInt z => GenLeaf (inl (inl (inr z)))
  | JFloat n => GenLeaf (inl (inr n))
  | JStr s => GenLeaf (inr s)
  | JArr l => GenNode 0 (map json_tree l)
  | JObj m => GenNode 1 (map (λ kv, GenNode 2 [GenLeaf (inr kv.1); json_tree kv.2]) m)
  end.

Fixpoint tree_json (t : gen_tree json_leaf) : json :=
  match t with
  | GenLeaf (inl (inl (inl (inl _)))) => JNull
  | GenLeaf (inl (inl (inl (inr b)))) => JBool b
  | GenLeaf (inl (inl (inr z))) => JInt z
  | GenLeaf (inl (inr n)) => JFloat n
  | GenLeaf (inr s) => JStr s
  | GenNode 0 l => JArr (map tree_json l)
  | GenNode _ l =>
      JObj (map (λ t, match t with
                      | GenNode _ [GenLeaf (inr k); v] => (k, tree_json v)
                      | _ => ([], JNull)
                      end) l)
  end.

Lemma tree_json_tree j : tree_json (json_tree j) = j.
Proof.
  induction j as [| | | | |l IH|m IH] using json_rect_nested; try done; simpl; f_equal.
  - induction IH as [|x l Hx Hl IHl]; simpl; congruence.
  - induction IH as [|[k v] m Hx Hm IHm]; simpl in *; congruence.
Qed.

#[export] Instance json_eq_dec : EqDecision json.
Proof.
  refine (λ a b, cast_if (decide (json_tree a = json_tree b))).
  - rewrite <- (tree_json_tree a), <- (tree_json_tree b). by f_equal.
  - by intros ->.
Defined.

#[export] Instance json_countable : Countable json :=
  inj_countable' json_tree tree_json tree_json_tree.

(** [Value::to_string] *)
Class JsonText := json_text : json → str.

(** ** Accessors *)

Definition jget (k : str) (j : json) : option json :=
  match j with
  | JObj m => snd <$> head (filter (λ kv, kv.1 = k) m)
  | _ => None
  end.

Definition as_str (j : json) : option str :=
  match j with JStr s => Some s | _ => None end.

Definition as_bool (j : json) : option bool :=
  match j with JBool b => Some b | _ => None end.

Definition as_u64 (j : json) : option N :=
  match j with
  | JInt z => if ((0 <=? z) && (z <? 2 ^ 64))%Z then Some (Z.to_N z) else None
  | _ => None
  end.

Definition as_i64 (j : json) : option Z :=
  match j with
  | JInt z => if ((- 2 ^ 63 <=? z) && (z <? 2 ^ 63))%Z then Some z else None
  | _ => None
  end.

(** [BTreeMap::insert]: replaces an equal key, keeps the key order. *)
Fixpoint obj_insert (k : str) (v : json) (m : list (str * json)) : list (str * json) :=
  match m with
  | [] => [(k, v)]
  | (k', v') :: m' =>
      if decide (k = k') then (k, v) :: m'
      else if str_leb k k' then (k, v) :: m
      else (k', v') :: obj_insert k v m'
  end.

(** The object literal of [serde_json::json!]. *)
Definition json_obj (kvs : list (str * json)) : json :=
  JObj (foldl (λ m kv, obj_insert kv.1 kv.2 m) [] kvs).

Definition json_opt_str (o : option str) : json :=
  match o with Some s => JStr s | None => JNull end.

Lemma jget_obj_insert_eq k v m : jget k (JObj (obj_insert k v m)) = Some v.
Proof.
  simpl. induction m as [|[k' v'] m IH]; simpl.
  - by rewrite filter_cons_True.
  - case_decide as E; [by rewrite filter_cons_True|].
    destruct (str_leb k k'); [by rewrite filter_cons_True|].
    by rewrite filter_cons_False.
Qed.

Lemma jget_obj_insert_ne k k' v m :
  k ≠ k' → jget k' (JObj (obj_insert k v m)) = jget k' (JObj m).
Proof.
  intros Hne. simpl. induction m as [|[k2 v2] m IH]; simpl.
  - by rewrite filter_cons_False.
  - case_decide as E; [subst; by rewrite !filter_cons_False|].
    destruct (str_leb k k2); [by rewrite filter_cons_False|].
    destruct (decide (k2 = k')); [by rewrite !filter_cons_True|].
    by rewrite !filter_cons_False.
Qed.

(** ** Objects as ordered maps *)

Lemma str_leb_refl a : str_leb a a = true.
Proof. induction a as [|x a IH]; [done|]. simpl. by rewrite N.ltb_irrefl. Qed.

Lemma str_leb_antisym a b : str_leb a b = true → str_leb b a = true → a = b.
Proof.
  revert b. induction a as [|x a IH]; intros [|y b]; simpl; [done..|].
  destruct (N.ltb_spec x y), (N.ltb_spec y x); try (done || lia).
  intros. f_equal; [lia|by apply IH].
Qed.

Lemma str_leb_total a b : str_leb a b = false → str_leb b a = true.
Proof.
  revert b. induction a as [|x a IH]; intros [|y b]; simpl; [done..|].
  destruct (N.ltb_spec x y), (N.ltb_spec y x); try (done || lia). apply IH.
Qed.

Lemma str_leb_trans a b c : str_leb a b = true → str_leb b c = true → str_leb a c = true.
Proof.
  revert b c. induction a as [|x a IH]; intros [|y b] [|z c]; simpl; try done.
  destruct (N.ltb_spec x y), (N.ltb_spec y x), (N.ltb_spec y z), (N.ltb_spec z y),
    (N.ltb_spec x z), (N.ltb_spec z x); try (done || lia). apply IH.
Qed.

Definition key_lt (a b : str * json) : Prop := str_leb a.1 b.1 = true ∧ a.1 ≠ b.1.

(** What a [BTreeMap] is: strictly increasing keys. *)
Abbreviation obj_sorted := (StronglySorted key_lt) (only parsing).

Definition obj_get (k : str) (m : list (str * json)) : option json := jget k (JObj m).

Lemma obj_get_nil k : obj_get k [] = None.
Proof. done. Qed.

Lemma obj_get_cons k k' v m :
  obj_get k ((k', v) :: m) = if decide (k' = k) then Some v else obj_get k m.
Proof.
  unfold obj_get. simpl. case_decide; [by rewrite filter_cons_True|by rewrite filter_cons_False].
Qed.

Lemma obj_get_insert k v k' m :
  obj_get k' (obj_insert k v m) = if decide (k = k') then Some v else obj_get k' m.
Proof.
  case_decide as E; [subst; apply jget_obj_insert_eq|by apply jget_obj_insert_ne].
Qed.

Lemma key_lt_trans a b c : key_lt a b → key_lt b c → key_lt a c.
Proof.
  intros [H1 N1] [H2 N2]. split; [by eapply str_leb_trans|].
  intros E. apply N1. apply str_leb_antisym; [done|]. by rewrite E.
Qed.

Lemma obj_insert_bound k v m b :
  Forall (key_lt b) m → key_lt b (k, v) → Forall (key_lt b) (obj_insert k v m).
Proof.
  intros Hm Hb. induction Hm as [|[k' v'] m Hk Hm IH]; simpl; [by constructor|].
  case_decide; [by apply Forall_cons_2|].
  destruct (str_leb k k'); apply Forall_cons_2; try done. by apply Forall_cons_2.
Qed.

Lemma obj_insert_sorted k v m : obj_sorted m → obj_sorted (obj_insert k v m).
Proof.
  induction 1 as [|[k' v'] m Hs IH Hf]; simpl; [by repeat constructor|].
  case_decide as E; [subst; by constructor|].
  destruct (str_leb k k') eqn:Hle.
  - assert (key_lt (k, v) (k', v')) as Hlt by done.
    constructor; [by constructor|]. constructor; [done|].
    eapply Forall_impl; [|exact Hf]. intros x. by apply key_lt_trans.
  - apply str_leb_total in Hle. constructor; [done|].
    apply obj_insert_bound; [done|]. by split.
Qed.

Lemma obj_get_above b m : Forall (key_lt b) m → obj_get b.1 m = None.
Proof.
  induction 1 as [|[k v] m [_ Hne] _ IH]; [done|]. rewrite obj_get_cons.
  rewrite decide_False; [done|]. simpl in Hne. congruence.
Qed.

(** Two maps with the same entries are the same list. *)
Lemma obj_ext m m' :
  obj_sorted m → obj_sorted m' → (∀ k, obj_get k m = obj_get k m') → m = m'.
Proof.
  intros Hm. revert m'. induction Hm as [|[k v] m Hs IH Hf]; intros m' Hm' He.
  - destruct m' as [|[k' v'] m']; [done|]. specialize (He k').
    by rewrite obj_get_cons, decide_True in He.
  - destruct Hm' as [|[k' v'] m' Hs' Hf'].
    { specialize (He k). by rewrite obj_get_cons, decide_True in He. }
    assert (k = k') as <-.
    { destruct (decide (k = k')) as [|Hne]; [done|]. exfalso.
      pose proof (He k) as H1. pose proof (He k') as H2. rewrite !obj_get_cons in H1, H2.
      rewrite decide_True, decide_False in H1 by done.
      rewrite decide_False, decide_True in H2 by done.
      assert (∀ x (l : list (str * json)) w, Forall (key_lt x) l → obj_get w l ≠ None →
              str_leb x.1 w = true ∧ x.1 ≠ w) as Hin.
      { intros x l w Hl Hw. induction Hl as [|[a b] l Ha _ IHl]; [done|].
        rewrite obj_get_cons in Hw. case_decide; [by subst|by apply IHl]. }
      destruct (Hin _ _ k Hf') as [L1 _]; [by rewrite <- H1|].
      destruct (Hin _ _ k' Hf) as [L2 _]; [by rewrite H2|].
      apply Hne. by apply str_leb_antisym. }
    pose proof (He k) as H1. rewrite !obj_get_cons, !decide_True in H1 by done.
    injection H1 as <-. f_equal. apply IH; [done|]. intros w. specialize (He w).
    rewrite !obj_get_cons in He. case_decide as E; [|done]. subst.
    pose proof (obj_get_above _ _ Hf). pose proof (obj_get_above _ _ Hf'). simpl in *. congruence.
Qed.

(** Inserting a list of entries, the later ones winning. *)
Definition obj_inserts (kvs m : list (str * json)) : list (str * json) :=
  foldl (λ m kv, obj_insert kv.1 kv.2 m) m kvs.

Lemma obj_inserts_sorted kvs m : obj_sorted m → obj_sorted (obj_inserts kvs m).
Proof. revert m. induction kvs as [|kv kvs IH]; intros m Hm; [done|]. by apply IH, obj_insert_sorted. Qed.

Lemma obj_get_inserts_notin k kvs m :
  (k ∉ kvs.*1) → obj_get k (obj_inserts kvs m) = obj_get k m.
Proof.
  revert m. induction kvs as [|[k' v] kvs IH]; intros m Hk; [done|]. simpl in *.
  rewrite IH by set_solver. rewrite obj_get_insert, decide_False; [done|set_solver].
Qed.

Lemma obj_get_inserts_in k v kvs m :
  NoDup kvs.*1 → (k, v) ∈ kvs → obj_get k (obj_inserts kvs m) = Some v.
Proof.
  revert m. induction kvs as [|[k' v'] kvs IH]; intros m Hnd Hin; [set_solver|]. simpl in *.
  apply list.NoDup_cons in Hnd as [Hn Hnd]. apply elem_of_cons in Hin as [[= -> ->]|Hin].
  - rewrite obj_get_inserts_notin by done. by rewrite obj_get_insert, decide_True.
  - by apply IH.
Qed.

Lemma obj_get_elem k v m : obj_get k m = Some v → (k, v) ∈ m.
Proof.
  induction m as [|[k' v'] m IH]; [done|]. rewrite obj_get_cons.
  case_decide as E; [intros [= ->]; subst; by left|right; by apply IH].
Qed.

Lemma obj_get_None k m : obj_get k m = None ↔ (k ∉ m.*1).
Proof.
  induction m as [|[k' v'] m IH]; [set_solver|]. rewrite obj_get_cons. simpl.
  rewrite not_elem_of_cons. case_decide as E; naive_solver.
Qed.

Lemma obj_sorted_NoDup m : obj_sorted m → NoDup m.*1.
Proof.
  induction 1 as [|[k v] m _ IH Hf]; [apply base.NoDup_nil_2|]. simpl. apply list.NoDup_cons. split; [|done].
  apply obj_get_None. by apply (obj_get_above (k, v)).
Qed.

Lemma obj_elem_get k v m : NoDup m.*1 → (k, v) ∈ m → obj_get k m = Some v.
Proof.
  induction m as [|[k' v'] m IH]; [set_solver|]. simpl. intros [Hn Hnd]%list.NoDup_cons.
  rewrite obj_get_cons. intros [[= -> ->]|Hin]%elem_of_cons; [by rewrite decide_True|].
  rewrite decide_False; [by apply IH|]. intros ->. apply Hn.
  apply list_elem_of_fmap. by exists (k, v).
Qed.

Lemma obj_get_filter (P : str * json → Prop) `{!∀ x, Decision (P x)} k m :
  (∀ v, P (k, v)) → obj_get k (filter P m) = obj_get k m.
Proof.
  intros HP. induction m as [|[k' v'] m IH]; [done|].
  destruct (decide (k' = k)) as [->|Hne].
  - rewrite filter_cons_True by done. rewrite !obj_get_cons. by rewrite !decide_True.
  - rewrite filter_cons. case_decide; rewrite !obj_get_cons; rewrite !(decide_False (P := k' = k)) by done; done.
Qed.

Lemma obj_get_filter_None (P : str * json → Prop) `{!∀ x, Decision (P x)} k m :
  (∀ v, ¬ P (k, v)) → obj_get k (filter P m) = None.
Proof.
  intros HP. apply obj_get_None. intros ([k' v] & -> & Hin)%list_elem_of_fmap.
  apply list_elem_of_filter in Hin as [Hp _]. by apply (HP v).
Qed.

Lemma obj_sorted_filter (P : str * json → Prop) `{!∀ x, Decision (P x)} m :
  obj_sorted m → obj_sorted (filter P m).
Proof.
  induction 1 as [|x m _ IH Hf]; [constructor|]. rewrite filter_cons. case_decide; [|done].
  constructor; [done|]. apply Forall_forall. intros y Hy.
  rewrite <- list_elem_of_In in Hy. apply list_elem_of_filter in Hy as [_ Hy].
  rewrite Forall_forall in Hf. apply Hf. by apply list_elem_of_In.
Qed.
