(* ===== verification/Fs.v ===== *)
(** * Fs: the file system the stores write to

    Files are texts at normalized Unix paths; directories are implicit
    ([create_dir_all] can fail, it creates nothing a file needs here). Every
    call that can fail takes its outcome from a script of faults: a failing
    write has already appended a prefix of its text, as an interrupted or
    full-disk write does, so the state after a failing call is also the state
    a crash at that call leaves behind. Theorems quantify over the script.

    [Path::components], [join] and [with_extension] are modelled as the Unix
    implementation of the standard library documents them. *)

From Stdlib Require Import NArith ZArith Lia.
From stdpp Require Import base gmap strings option numbers list list_basics.
From S2P Require Import Prelude Effects.

(** ** Paths *)

Inductive component : Type :=
| RootDir
| CurDir
| ParentDir
| Normal (s : str).

(** Repeated separators and inner [.] are dropped, a leading [.] is kept. *)
Definition segment_component (seg : str) : list component :=
  if decide (seg = []) then []
  else if decide (seg = #".") then []
  else if decide (seg = #"..") then [ParentDir]
  else [Normal seg].

Definition path_components (s : str) : list component :=
  let segs := split_char chr_slash s in
  (if starts_with [chr_slash] s then [RootDir]
   else match segs with
        | seg :: _ => if decide (seg = #".") then [CurDir] else []
        | [] => []
        end)
  ++ (segs ≫= segment_component).

(** A path is the list of its component names; [..] stays a component. *)
Abbreviation path := (list str) (only parsing).

Definition component_name (c : component) : list str :=
  match c with
  | RootDir | CurDir => []
  | ParentDir => [ #".."]
  | Normal s => [s]
  end.

(** [Path::join]: an absolute argument replaces the base. *)
Definition path_join (base : path) (s : str) : path :=
  (if starts_with [chr_slash] s then [] else base)
  ++ (path_components s ≫= component_name).

(** The name up to its last dot; a name that starts with its only dot has no
    extension. *)
Definition file_stem (name : str) : str :=
  match list_find (λ c, c = chr_dot) (reverse name) with
  | Some (i, _) =>
      let stem := take (length name - S i) name in
      if is_empty stem then name else stem
  | None => name
  end.

Definition with_extension (p : path) (ext : str) : path :=
  match last p with
  | Some name => take (length p - 1) p ++ [file_stem name ++ #"." ++ ext]
  | None => p
  end.

(** [Path::extension] *)
Definition file_extension (name : str) : option str :=
  match strip_prefix (file_stem name) name with
  | Some (_ :: ext) => Some ext
  | _ => None
  end.

(** ** State and system calls *)

Inductive fault : Type :=
| NoFault
| Fault (written : nat) (msg : str).

Inductive io_error : Type :=
| NotFound
| OtherIo (msg : str).

Definition io_error_text (e : io_error) : str :=
  match e with
  | NotFound => #"No such file or directory (os error 2)"
  | OtherIo msg => msg
  end.

Record Fs := mkFs {
  fs_files : gmap path str;
  fs_faults : list fault;
}.

Definition next_fault (s : Fs) : fault * Fs :=
  match fs_faults s with
  | [] => (NoFault, s)
  | f :: fs => (f, mkFs (fs_files s) fs)
  end.

Definition set_files (f : gmap path str → gmap path str) (s : Fs) : Fs :=
  mkFs (f (fs_files s)) (fs_faults s).

(** A call without a partial effect. *)
Definition syscall {A} (body : M Fs io_error A) : M Fs io_error A := λ s,
  match next_fault s with
  | (NoFault, s') => body s'
  | (Fault _ msg, s') => (Err (OtherIo msg), s')
  end.

Definition create_dir_all : M Fs io_error unit := syscall (mret ()).

Definition file_exists {E} (p : path) : M Fs E bool :=
  gets (λ s, bool_decide (is_Some (fs_files s !! p))).

(** [File::create]: truncates. *)
Definition file_create (p : path) : M Fs io_error unit :=
  syscall (modify (set_files <[p := []]>)).

(** [File::open] *)
Definition file_open (p : path) : M Fs io_error unit :=
  syscall (λ s, ((λ _, ()) <$> ok_or (fs_files s !! p) NotFound, s)).

(** [OpenOptions::create(true).append(true).open] *)
Definition open_append (p : path) : M Fs io_error unit :=
  syscall (modify (set_files (λ m,
    match m !! p with Some _ => m | None => <[p := []]> m end))).

Definition append_text (p : path) (t : str) (m : gmap path str) : gmap path str :=
  <[p := default [] (m !! p) ++ t]> m.

(** [write_all] on an open handle: a failing call has written a prefix. *)
Definition write_all (p : path) (t : str) : M Fs io_error unit := λ s,
  match next_fault s with
  | (NoFault, s') => (Ok (), set_files (append_text p t) s')
  | (Fault k msg, s') => (Err (OtherIo msg), set_files (append_text p (take k t)) s')
  end.

(** [fs::write]: truncates, then writes; not atomic. *)
Definition fs_write (p : path) (t : str) : M Fs io_error unit :=
  file_create p;; write_all p t.

Definition sync_all : M Fs io_error unit := syscall (mret ()).

Definition rename (src dst : path) : M Fs io_error unit :=
  syscall (λ s, match fs_files s !! src with
                | Some t => (Ok (), set_files (λ m, <[dst := t]> (delete src m)) s)
                | None => (Err NotFound, s)
                end).

Definition remove_file (p : path) : M Fs io_error unit :=
  syscall (λ s, match fs_files s !! p with
                | Some _ => (Ok (), set_files (delete p) s)
                | None => (Err NotFound, s)
                end).

Definition read_to_string (p : path) : M Fs io_error str :=
  syscall (λ s, (ok_or (fs_files s !! p) NotFound, s)).

Definition file_len (p : path) : M Fs io_error N :=
  syscall (λ s, (byte_len <$> ok_or (fs_files s !! p) NotFound, s)).

(** The files directly inside a directory, as full paths. *)
Definition child_of (dir p : path) : bool :=
  bool_decide (length p = S (length dir)) && bool_decide (take (length dir) p = dir).

Definition dir_files (dir : path) (m : gmap path str) : list path :=
  filter (λ p, child_of dir p = true) (map fst (map_to_list m)).

Definition read_dir (dir : path) : M Fs io_error (list path) :=
  syscall (λ s, (Ok (dir_files dir (fs_files s)), s)).

(** A directory exists when something is below it. *)
Definition below (dir p : path) : bool :=
  bool_decide (length dir < length p) && bool_decide (take (length dir) p = dir).

Definition dir_exists {E} (dir : path) : M Fs E bool :=
  gets (λ s, negb (is_empty (filter (λ p, below dir p = true)
                               (map fst (map_to_list (fs_files s)))))).

(** ** Laws of the calls *)

Lemma next_fault_files s f s' : next_fault s = (f, s') → fs_files s' = fs_files s.
Proof. unfold next_fault. destruct (fs_faults s); naive_solver. Qed.

(** Calls that leave the files alone, whatever their outcome. *)
Definition files_kept {E A} (m : M Fs E A) : Prop := ∀ s, fs_files (m s).2 = fs_files s.

Lemma files_kept_pure {E A} (m : M Fs E A) : (∀ s, (m s).2 = s) → files_kept m.
Proof. intros H s. by rewrite H. Qed.

Lemma files_kept_bind {E A B} (m : M Fs E A) (k : A → M Fs E B) :
  files_kept m → (∀ a, files_kept (k a)) → files_kept (m ≫= k).
Proof.
  intros Hm Hk s. unfold mbind, M_bind. specialize (Hm s).
  destruct (m s) as [[a|e] s1]; simpl in *; [by rewrite Hk|done].
Qed.

Lemma files_kept_attempt {E F A} (m : M Fs E A) :
  files_kept m → files_kept (attempt m : M Fs F (result E A)).
Proof. intros Hm s. specialize (Hm s). unfold attempt. by destruct (m s). Qed.

Lemma syscall_cases {A} (body : M Fs io_error A) s :
  (∃ s', fs_files s' = fs_files s ∧ syscall body s = body s') ∨
  (∃ s' msg, fs_files s' = fs_files s ∧ syscall body s = (Err (OtherIo msg), s')).
Proof.
  unfold syscall. destruct (next_fault s) as [[|k msg] s'] eqn:E;
    apply next_fault_files in E; eauto 6.
Qed.

Lemma files_kept_syscall {A} (body : M Fs io_error A) :
  (∀ s, (body s).2 = s) → files_kept (syscall body).
Proof.
  intros Hb s. destruct (syscall_cases body s) as [(s' & Hf & ->)|(s' & msg & Hf & ->)];
    [by rewrite Hb|done].
Qed.

(** A call without faults runs its body. *)
Lemma syscall_no_fault {A} (body : M Fs io_error A) m :
  syscall body (mkFs m []) = body (mkFs m []).
Proof. done. Qed.

(** A property of the files holds around a call when its body keeps it. *)
Lemma hoare_syscall {A} (body : M Fs io_error A) (P : gmap path str → Prop)
    (Q : A → Fs → Prop) (R : Fs → Prop) :
  hoare (λ s, P (fs_files s)) body Q R →
  (∀ s, P (fs_files s) → R s) →
  hoare (λ s, P (fs_files s)) (syscall body) Q R.
Proof.
  intros Hb HR s Hs. destruct (syscall_cases body s) as [(s' & Hf & ->)|(s' & msg & Hf & ->)].
  - apply Hb. by rewrite Hf.
  - apply HR. by rewrite Hf.
Qed.

(** *** Frame: which paths a call can change *)

Definition touches_only {E A} (T : path → Prop) (m : M Fs E A) : Prop :=
  ∀ s q, ¬ T q → fs_files (m s).2 !! q = fs_files s !! q.

Section touches.
Context {E : Type}.

Lemma touches_bind {A B} T (m : M Fs E A) (k : A → M Fs E B) :
  touches_only T m → (∀ a, touches_only T (k a)) → touches_only T (m ≫= k).
Proof.
  intros Hm Hk s q Hq. unfold mbind, M_bind. specialize (Hm s q Hq).
  destruct (m s) as [[a|e] s1]; simpl in *; [|done].
  by rewrite (Hk a s1 q Hq).
Qed.

Lemma touches_weaken {A} (T T' : path → Prop) (m : M Fs E A) :
  (∀ q, T q → T' q) → touches_only T m → touches_only T' m.
Proof. intros HT Hm s q Hq. apply Hm. naive_solver. Qed.

Lemma touches_ret {A} T (a : A) : touches_only T (mret a : M Fs E A).
Proof. done. Qed.

Lemma touches_lift {A} T (r : result E A) : touches_only T (lift r).
Proof. done. Qed.

Lemma touches_throw {A} T (e : E) : touches_only T (throw e : M Fs E A).
Proof. done. Qed.

Lemma touches_exists T p : touches_only T (file_exists p : M Fs E bool).
Proof. done. Qed.

Lemma touches_ignore {F A} T (m : M Fs F A) :
  touches_only T m → touches_only T (ignore m : M Fs E unit).
Proof. intros Hm s q Hq. simpl. by apply Hm. Qed.

End touches.

Lemma touches_syscall {A} T (body : M Fs io_error A) :
  touches_only T body → touches_only T (syscall body).
Proof.
  intros Hb s q Hq. destruct (syscall_cases body s) as [(s' & Hf & ->)|(s' & msg & Hf & ->)].
  - by rewrite Hb, Hf.
  - simpl. by rewrite Hf.
Qed.

Lemma touches_create_dir_all T : touches_only T create_dir_all.
Proof. by apply touches_syscall. Qed.

Lemma touches_sync_all T : touches_only T sync_all.
Proof. by apply touches_syscall. Qed.

Lemma touches_file_create p : touches_only (λ q, q = p) (file_create p).
Proof. apply touches_syscall. intros s q Hq. simpl. by rewrite lookup_insert_ne. Qed.

Lemma touches_write_all p t : touches_only (λ q, q = p) (write_all p t).
Proof.
  intros s q Hq. unfold write_all, append_text.
  destruct (next_fault s) as [[|k msg] s'] eqn:E; simpl;
    apply next_fault_files in E; by rewrite lookup_insert_ne, E.
Qed.

Lemma touches_rename src dst : touches_only (λ q, q = src ∨ q = dst) (rename src dst).
Proof.
  apply touches_syscall. intros s q Hq. simpl. destruct (fs_files s !! src); [|done]. simpl.
  rewrite lookup_insert_ne by naive_solver. by rewrite lookup_delete_ne by naive_solver.
Qed.

Lemma touches_remove_file p : touches_only (λ q, q = p) (remove_file p).
Proof.
  apply touches_syscall. intros s q Hq. simpl. destruct (fs_files s !! p); [|done]. simpl.
  by rewrite lookup_delete_ne.
Qed.

Lemma touches_read T p : touches_only T (read_to_string p).
Proof. by apply touches_syscall. Qed.

#[export] Hint Resolve touches_bind touches_ret touches_lift touches_throw touches_exists
  touches_ignore touches_create_dir_all touches_sync_all touches_file_create
  touches_write_all touches_rename touches_remove_file touches_read : orkia.

(** *** Appending a line *)

(** [torn p t m s]: the files of [m] with a prefix of [t] appended to [p]. *)
Definition torn (p : path) (t : str) (m : gmap path str) (s : Fs) : Prop :=
  (∀ q, q ≠ p → fs_files s !! q = m !! q)
  ∧ ∃ k, default [] (fs_files s !! p) = default [] (m !! p) ++ take k t.

Lemma torn_none p t m s :
  (∀ q, q ≠ p → fs_files s !! q = m !! q) →
  default [] (fs_files s !! p) = default [] (m !! p) → torn p t m s.
Proof. intros Hq Hp. split; [done|]. exists 0. by rewrite Hp, app_nil_r. Qed.

Definition opened (p : path) (m f : gmap path str) : Prop :=
  f = <[p := default [] (m !! p)]> m.

Lemma hoare_open_append p m R :
  (∀ s, fs_files s = m → R s) →
  hoare (λ s, fs_files s = m) (open_append p) (λ _ s, opened p m (fs_files s)) R.
Proof.
  intros HR. apply (hoare_syscall _ (λ f, f = m)); [|done]. apply hoare_modify.
  intros s Hs. unfold opened. simpl. rewrite Hs.
  destruct (m !! p) eqn:E; [|done]. simpl. by rewrite insert_id.
Qed.

Lemma hoare_write_opened p m t :
  hoare (λ s, opened p m (fs_files s)) (write_all p t)
    (λ _ s, fs_files s = <[p := default [] (m !! p) ++ t]> m) (torn p t m).
Proof.
  intros s Hs. unfold write_all. destruct (next_fault s) as [f s1] eqn:E.
  apply next_fault_files in E. unfold set_files, append_text. rewrite E, Hs.
  rewrite lookup_insert_eq. destruct f as [|k msg]; rewrite insert_insert_eq; simpl; [done|].
  split; simpl; [intros q Hq; by rewrite lookup_insert_ne|].
  exists k. by rewrite lookup_insert_eq.
Qed.
