(* ===== verification/Journal.v ===== *)
(** * Journal: the event envelope, its wire form, the store and the hub's stamp

    [crates/orkia-shell-types/src/journal/types.rs] (the envelope every event
    travels in, and the filter of queries), the in-memory side and the file
    reader of [crates/orkia-shell/src/journal/store.rs], and the fan-out loop of
    [crates/orkia-journal-hub/src/listener.rs], which numbers the envelopes.

    [envelope_to_json] and [envelope_of_json] are what the [serde] attributes
    of the struct say: renamed tag, absent optional fields, and the catch-all
    map flattened into the object. Parsing a date is a parameter. *)

From Stdlib Require Import NArith ZArith Lia Sorted.
From stdpp Require Import base gmap strings option numbers list list_basics.
From S2P Require Import Prelude Effects Json Fs.

(** ** Envelopes *)

Inductive EventType :=
| ETHook
| ETApproval
| ETLifecycle
| ETShell
| ETTell
| ETSeal
| ETScopeChange
| ETKnowledgeAccess.

#[export] Instance EventType_eq_dec : EqDecision EventType.
Proof. solve_decision. Defined.

Record JournalEnvelope := mkJournalEnvelope {
  je_event_type : EventType;
  je_timestamp : str;
  je_hub_seq : option N;
  je_job_id : option N;
  je_session_id : option str;
  je_source : option str;
  je_agent : option str;
  je_event : option str;
  je_tool : option str;
  je_target : option str;
  je_exit_code : option Z;
  je_action : option str;
  je_risk : option str;
  je_description : option str;
  je_message : option str;
  je_model : option str;
  je_prompt : option str;
  je_response_path : option str;
  je_response_sha256 : option str;
  je_response_bytes : option N;
  je_response_preview : option str;
  je_pipeline_id : option str;
  je_stage_index : option N;
  je_extra : list (str * json);
}.

#[export] Instance JournalEnvelope_eq_dec : EqDecision JournalEnvelope.
Proof. solve_decision. Defined.

Definition envelope_now (event_type : EventType) (now : str) : JournalEnvelope :=
  mkJournalEnvelope event_type now None None None None None None None None None None None None
    None None None None None None None None None [].

(** Assignments to the fields the code sets. *)
Definition set_je_hub_seq (v : option N) (e : JournalEnvelope) : JournalEnvelope :=
  mkJournalEnvelope (je_event_type e) (je_timestamp e) v (je_job_id e) (je_session_id e)
    (je_source e) (je_agent e) (je_event e) (je_tool e) (je_target e) (je_exit_code e)
    (je_action e) (je_risk e) (je_description e) (je_message e) (je_model e) (je_prompt e)
    (je_response_path e) (je_response_sha256 e) (je_response_bytes e) (je_response_preview e)
    (je_pipeline_id e) (je_stage_index e) (je_extra e).

Definition set_je_job_id (v : option N) (e : JournalEnvelope) : JournalEnvelope :=
  mkJournalEnvelope (je_event_type e) (je_timestamp e) (je_hub_seq e) v (je_session_id e)
    (je_source e) (je_agent e) (je_event e) (je_tool e) (je_target e) (je_exit_code e)
    (je_action e) (je_risk e) (je_description e) (je_message e) (je_model e) (je_prompt e)
    (je_response_path e) (je_response_sha256 e) (je_response_bytes e) (je_response_preview e)
    (je_pipeline_id e) (je_stage_index e) (je_extra e).

Definition set_je_source (v : option str) (e : JournalEnvelope) : JournalEnvelope :=
  mkJournalEnvelope (je_event_type e) (je_timestamp e) (je_hub_seq e) (je_job_id e)
    (je_session_id e) v (je_agent e) (je_event e) (je_tool e) (je_target e) (je_exit_code e)
    (je_action e) (je_risk e) (je_description e) (je_message e) (je_model e) (je_prompt e)
    (je_response_path e) (je_response_sha256 e) (je_response_bytes e) (je_response_preview e)
    (je_pipeline_id e) (je_stage_index e) (je_extra e).

Definition set_je_agent (v : option str) (e : JournalEnvelope) : JournalEnvelope :=
  mkJournalEnvelope (je_event_type e) (je_timestamp e) (je_hub_seq e) (je_job_id e)
    (je_session_id e) (je_source e) v (je_event e) (je_tool e) (je_target e) (je_exit_code e)
    (je_action e) (je_risk e) (je_description e) (je_message e) (je_model e) (je_prompt e)
    (je_response_path e) (je_response_sha256 e) (je_response_bytes e) (je_response_preview e)
    (je_pipeline_id e) (je_stage_index e) (je_extra e).

Definition set_je_event (v : option str) (e : JournalEnvelope) : JournalEnvelope :=
  mkJournalEnvelope (je_event_type e) (je_timestamp e) (je_hub_seq e) (je_job_id e)
    (je_session_id e) (je_source e) (je_agent e) v (je_tool e) (je_target e) (je_exit_code e)
    (je_action e) (je_risk e) (je_description e) (je_message e) (je_model e) (je_prompt e)
    (je_response_path e) (je_response_sha256 e) (je_response_bytes e) (je_response_preview e)
    (je_pipeline_id e) (je_stage_index e) (je_extra e).

Definition set_je_extra (v : list (str * json)) (e : JournalEnvelope) : JournalEnvelope :=
  mkJournalEnvelope (je_event_type e) (je_timestamp e) (je_hub_seq e) (je_job_id e)
    (je_session_id e) (je_source e) (je_agent e) (je_event e) (je_tool e) (je_target e)
    (je_exit_code e) (je_action e) (je_risk e) (je_description e) (je_message e) (je_model e)
    (je_prompt e) (je_response_path e) (je_response_sha256 e) (je_response_bytes e)
    (je_response_preview e) (je_pipeline_id e) (je_stage_index e) v.

(** [extra.insert(k, v)] *)
Definition extra_insert (k : str) (v : json) (e : JournalEnvelope) : JournalEnvelope :=
  set_je_extra (obj_insert k v (je_extra e)) e.

Definition knowledge_access (now : str) (job_id : option N) (node_ids : list str)
    : JournalEnvelope :=
  extra_insert #"node_ids" (JArr (map JStr node_ids))
    (set_je_event (Some #"KnowledgeAccess")
       (set_je_job_id job_id (envelope_now ETKnowledgeAccess now))).

Definition knowledge_access_ids (e : JournalEnvelope) : list str :=
  match obj_get #"node_ids" (je_extra e) with
  | Some (JArr a) => omap as_str a
  | _ => []
  end.

(** ** The wire form *)

Definition event_type_str (t : EventType) : str :=
  match t with
  | ETHook => #"hook"
  | ETApproval => #"approval"
  | ETLifecycle => #"lifecycle"
  | ETShell => #"shell"
  | ETTell => #"tell"
  | ETSeal => #"seal"
  | ETScopeChange => #"scopechange"
  | ETKnowledgeAccess => #"knowledgeaccess"
  end.

Definition event_types : list EventType :=
  [ETHook; ETApproval; ETLifecycle; ETShell; ETTell; ETSeal; ETScopeChange; ETKnowledgeAccess].

(** A variant is its name, or an object from its name to null. *)
Definition event_type_of (j : json) : option EventType :=
  let named s := head (filter (λ t, event_type_str t = s) event_types) in
  match j with
  | JStr s => named s
  | JObj [(s, JNull)] => named s
  | _ => None
  end.

Definition jnat (n : N) : json := JInt (Z.of_N n).

Definition opt_field (k : str) (v : option json) : list (str * json) :=
  match v with Some j => [(k, j)] | None => [] end.

(** The typed fields; an absent one is skipped. *)
Definition envelope_slots (e : JournalEnvelope) : list (str * option json) :=
  [(#"type", Some (JStr (event_type_str (je_event_type e))));
   (#"timestamp", Some (JStr (je_timestamp e)));
   (#"hub_seq", jnat <$> je_hub_seq e);
   (#"job_id", jnat <$> je_job_id e);
   (#"session_id", JStr <$> je_session_id e);
   (#"source", JStr <$> je_source e);
   (#"agent", JStr <$> je_agent e);
   (#"event", JStr <$> je_event e);
   (#"tool", JStr <$> je_tool e);
   (#"target", JStr <$> je_target e);
   (#"exit_code", JInt <$> je_exit_code e);
   (#"action", JStr <$> je_action e);
   (#"risk", JStr <$> je_risk e);
   (#"description", JStr <$> je_description e);
   (#"message", JStr <$> je_message e);
   (#"model", JStr <$> je_model e);
   (#"prompt", JStr <$> je_prompt e);
   (#"response_path", JStr <$> je_response_path e);
   (#"response_sha256", JStr <$> je_response_sha256 e);
   (#"response_bytes", jnat <$> je_response_bytes e);
   (#"response_preview", JStr <$> je_response_preview e);
   (#"pipeline_id", JStr <$> je_pipeline_id e);
   (#"stage_index", jnat <$> je_stage_index e)].

Definition envelope_fields (e : JournalEnvelope) : list (str * json) :=
  envelope_slots e ≫= λ kv, opt_field kv.1 kv.2.

(** The typed fields, then the flattened catch-all. *)
Definition envelope_to_json (e : JournalEnvelope) : json :=
  JObj (obj_inserts (je_extra e) (obj_inserts (envelope_fields e) [])).

Definition FIELD_NAMES : list str :=
  [ #"type"; #"timestamp"; #"hub_seq"; #"job_id"; #"session_id"; #"source"; #"agent"; #"event";
    #"tool"; #"target"; #"exit_code"; #"action"; #"risk"; #"description"; #"message"; #"model";
    #"prompt"; #"response_path"; #"response_sha256"; #"response_bytes"; #"response_preview";
    #"pipeline_id"; #"stage_index"].

Definition as_u32 (j : json) : option N :=
  n ← as_u64 j; if (n <=? u32_max)%N then Some n else None.

Definition as_i32 (j : json) : option Z :=
  match j with
  | JInt z => if ((- 2 ^ 31 <=? z) && (z <? 2 ^ 31))%Z then Some z else None
  | _ => None
  end.

(** An optional field: absent and null are [None], a value of another type is an error. *)
Definition field {A} (dec : json → option A) (k : str) (m : list (str * json))
    : option (option A) :=
  match obj_get k m with
  | None | Some JNull => Some None
  | Some v => Some <$> dec v
  end.

Definition envelope_of_json (j : json) : option JournalEnvelope :=
  match j with
  | JObj m =>
      event_type ← obj_get #"type" m ≫= event_type_of;
      timestamp ← obj_get #"timestamp" m ≫= as_str;
      hub_seq ← field as_u64 #"hub_seq" m;
      job_id ← field as_u32 #"job_id" m;
      session_id ← field as_str #"session_id" m;
      source ← field as_str #"source" m;
      agent ← field as_str #"agent" m;
      event ← field as_str #"event" m;
      tool ← field as_str #"tool" m;
      target ← field as_str #"target" m;
      exit_code ← field as_i32 #"exit_code" m;
      action ← field as_str #"action" m;
      risk ← field as_str #"risk" m;
      description ← field as_str #"description" m;
      message ← field as_str #"message" m;
      model ← field as_str #"model" m;
      prompt ← field as_str #"prompt" m;
      response_path ← field as_str #"response_path" m;
      response_sha256 ← field as_str #"response_sha256" m;
      response_bytes ← field as_u64 #"response_bytes" m;
      response_preview ← field as_str #"response_preview" m;
      pipeline_id ← field as_str #"pipeline_id" m;
      stage_index ← field as_u32 #"stage_index" m;
      Some (mkJournalEnvelope event_type timestamp hub_seq job_id session_id source agent event
              tool target exit_code action risk description message model prompt response_path
              response_sha256 response_bytes response_preview pipeline_id stage_index
              (filter (λ kv, kv.1 ∉ FIELD_NAMES) m))
  | _ => None
  end.

(** ** Queries *)

Record JournalFilter := mkJournalFilter {
  jf_agent : option str;
  jf_job_id : option N;
  jf_event_type : option EventType;
  jf_event : option str;
  jf_source : option str;
  jf_since : option Z;
  jf_last_n : option nat;
}.

(** [None]: no constraint; otherwise the field must be present and equal. *)
Definition constrained {A} `{EqDecision A} (want got : option A) : bool :=
  match want with Some w => bool_decide (got = Some w) | None => true end.

Section queries.
Context (parse_rfc3339 : str → option Z).

Definition filter_matches (f : JournalFilter) (e : JournalEnvelope) : bool :=
  constrained (jf_agent f) (je_agent e)
  && constrained (jf_job_id f) (je_job_id e)
  && constrained (jf_event_type f) (Some (je_event_type e))
  && constrained (jf_event f) (je_event e)
  && constrained (jf_source f) (je_source e)
  && match jf_since f with
     | None => true
     | Some since =>
         match parse_rfc3339 (je_timestamp e) with
         | Some ts => negb (ts <? since)%Z
         | None => false
         end
     end.

(** [drain(..len - n)] *)
Definition last_hits {A} (last_n : option nat) (hits : list A) : list A :=
  match last_n with
  | Some n => drop (length hits - n) hits
  | None => hits
  end.

Definition store_query (f : JournalFilter) (entries : list JournalEnvelope)
    : list JournalEnvelope :=
  last_hits (jf_last_n f) (filter (λ e, filter_matches f e = true) entries).

(** Global indices start at one. *)
Definition store_query_indexed (f : JournalFilter) (entries : list JournalEnvelope)
    : list (nat * JournalEnvelope) :=
  last_hits (jf_last_n f)
    (filter (λ ie, filter_matches f ie.2 = true) (zip (seq 1 (length entries)) entries)).

End queries.

Section store.
Context `{!Serde JournalEnvelope}.

(** Blank lines and lines that do not parse are skipped. *)
Definition journal_lines (text : str) : list JournalEnvelope :=
  omap (λ l, if is_empty (trim l) then None else to_option (de l)) (lines text).

Definition journal_load (p : path) (s : Fs) : list JournalEnvelope * Fs :=
  match read_to_string p s with
  | (Ok text, s') => (journal_lines text, s')
  | (Err _, s') => ([], s')
  end.

(** The cache, and the lines sent to the writer thread and not yet written. *)
Record JournalStore := mkJournalStore {
  js_entries : list JournalEnvelope;
  js_queue : list str;
}.

Definition store_new (p : path) (s : Fs) : JournalStore * Fs :=
  let '(entries, s') := journal_load p s in (mkJournalStore entries [], s').

(** The line goes to the writer, the envelope to the cache. *)
Definition store_append (e : JournalEnvelope) (st : JournalStore) : JournalStore :=
  mkJournalStore (js_entries st ++ [e])
    (match ser e with Ok line => js_queue st ++ [line] | Err _ => js_queue st end).

Definition cache_envelope (e : JournalEnvelope) (st : JournalStore) : JournalStore :=
  mkJournalStore (js_entries st ++ [e]) (js_queue st).

(** A failed write is logged and forgotten. *)
Definition writer_line (p : path) (line : str) (s : Fs) : Fs :=
  (write_all p (line ++ [chr_nl]) s).2.

(** The writer thread on the lines of its channel. *)
Definition writer_drain (p : path) (st : JournalStore) (s : Fs) : JournalStore * Fs :=
  (mkJournalStore (js_entries st) [], foldl (λ s line, writer_line p line s) s (js_queue st)).

End store.

(** ** The hub *)

(** One turn of the fan-out loop: the stamped envelope goes to the bus and to
    the drain. *)
Definition fanout (next_seq : option N) (e : JournalEnvelope) : JournalEnvelope * option N :=
  match next_seq with
  | Some n => (set_je_hub_seq (Some n) e, Some (u64_succ n))
  | None => (e, None)
  end.

Fixpoint fanout_all (next_seq : option N) (es : list JournalEnvelope) : list JournalEnvelope :=
  match es with
  | [] => []
  | e :: es' => let '(e', n') := fanout next_seq e in e' :: fanout_all n' es'
  end.

Definition hub_start (seq_seed : option N) : option N := u64_succ <$> seq_seed.

(** [max_hub_seq_on_disk] of [bins/orkia/src/pty_daemon/journal_host.rs]. *)
Definition max_hub_seq (entries : list JournalEnvelope) : N :=
  foldr N.max 0%N (omap je_hub_seq entries).

(** ** The wire round trip *)

Lemma fields_keys slots k :
  k ∈ (slots ≫= λ kv : str * option json, opt_field kv.1 kv.2).*1 → k ∈ slots.*1.
Proof.
  induction slots as [|[k' [v|]] slots IH]; simpl; [done| |]; rewrite ?elem_of_cons; naive_solver.
Qed.

Lemma fields_NoDup slots :
  NoDup slots.*1 → NoDup (slots ≫= λ kv : str * option json, opt_field kv.1 kv.2).*1.
Proof.
  induction slots as [|[k [v|]] slots IH]; simpl; [done| |]; intros [Hn Hd]%list.NoDup_cons; [|by apply IH].
  apply list.NoDup_cons. split; [|by apply IH]. by intros ?%fields_keys.
Qed.

Lemma slot_get slots i k v :
  NoDup slots.*1 → slots !! i = Some (k, v) →
  obj_get k (obj_inserts (slots ≫= λ kv : str * option json, opt_field kv.1 kv.2) []) = v.
Proof.
  intros Hd Hi. destruct v as [v|].
  - apply obj_get_inserts_in; [by apply fields_NoDup|].
    apply list_elem_of_bind. exists (k, Some v). split; [by left|by eapply list_elem_of_lookup_2].
  - rewrite obj_get_inserts_notin; [done|].
    revert i Hd Hi. induction slots as [|[k' [w|]] slots IH]; [done|..];
      intros [|i] [Hn Hd]%list.NoDup_cons Hi; simpl in *; simplify_eq; try (by eapply IH).
    + rewrite not_elem_of_cons. split; [|by eapply IH]. intros ->. apply Hn.
      apply list_elem_of_fmap. exists (k', None). split; [done|by eapply list_elem_of_lookup_2].
    + by intros ?%fields_keys.
Qed.

Lemma slots_names e : (envelope_slots e).*1 = FIELD_NAMES.
Proof. done. Qed.

Lemma names_NoDup : NoDup FIELD_NAMES.
Proof. apply (bool_decide_unpack _). by vm_compute. Qed.

(** Values in the range of their types, a map in key order, and no catch-all
    key with the name of a typed field. *)
Record envelope_wf (e : JournalEnvelope) : Prop := mkEnvelopeWf {
  wf_hub_seq n : je_hub_seq e = Some n → (n < 2 ^ 64)%N;
  wf_job_id n : je_job_id e = Some n → (n ≤ u32_max)%N;
  wf_exit_code z : je_exit_code e = Some z → (- 2 ^ 31 ≤ z < 2 ^ 31)%Z;
  wf_response_bytes n : je_response_bytes e = Some n → (n < 2 ^ 64)%N;
  wf_stage_index n : je_stage_index e = Some n → (n ≤ u32_max)%N;
  wf_extra_sorted : obj_sorted (je_extra e);
  wf_extra_free k : k ∈ (je_extra e).*1 → k ∉ FIELD_NAMES;
}.

Section roundtrip.
Context (e : JournalEnvelope) (Hwf : envelope_wf e).

Abbreviation wire := (obj_inserts (je_extra e) (obj_inserts (envelope_fields e) [])).

Lemma wire_slot i k v : envelope_slots e !! i = Some (k, v) → obj_get k wire = v.
Proof.
  intros Hi. rewrite obj_get_inserts_notin.
  - apply (slot_get _ i); [|done]. rewrite slots_names. apply names_NoDup.
  - intros Hk. apply (wf_extra_free _ Hwf) in Hk. apply Hk. rewrite <- (slots_names e).
    apply list_elem_of_fmap. exists (k, v). split; [done|by eapply list_elem_of_lookup_2].
Qed.

Lemma field_str k o m : obj_get k m = JStr <$> o → field as_str k m = Some o.
Proof. intros H. unfold field. rewrite H. by destruct o. Qed.

Lemma as_u64_jnat n : (n < 2 ^ 64)%N → as_u64 (JInt (Z.of_N n)) = Some n.
Proof.
  intros Hn. unfold as_u64. rewrite N2Z.id.
  destruct (Z.leb_spec 0 (Z.of_N n)), (Z.ltb_spec (Z.of_N n) (2 ^ 64)); [done|lia..].
Qed.

Lemma field_u64 k o m :
  (∀ n, o = Some n → (n < 2 ^ 64)%N) → obj_get k m = jnat <$> o → field as_u64 k m = Some o.
Proof.
  intros Ho H. unfold field. rewrite H. destruct o as [n|]; [|done].
  cbn [fmap option_fmap option_map]. unfold jnat. by rewrite as_u64_jnat by auto.
Qed.

Lemma field_u32 k o m :
  (∀ n, o = Some n → (n ≤ u32_max)%N) → obj_get k m = jnat <$> o → field as_u32 k m = Some o.
Proof.
  intros Ho H. unfold field. rewrite H. destruct o as [n|]; [|done].
  cbn [fmap option_fmap option_map]. unfold jnat.
  specialize (Ho n eq_refl). unfold as_u32. rewrite as_u64_jnat by (unfold u32_max in Ho; lia).
  simpl. by rewrite (proj2 (N.leb_le _ _) Ho).
Qed.

Lemma field_i32 k o m :
  (∀ z, o = Some z → (- 2 ^ 31 ≤ z < 2 ^ 31)%Z) → obj_get k m = JInt <$> o →
  field as_i32 k m = Some o.
Proof.
  intros Ho H. unfold field. rewrite H. destruct o as [z|]; [|done]. simpl.
  specialize (Ho z eq_refl). destruct (Z.leb_spec (- 2 ^ 31) z), (Z.ltb_spec z (2 ^ 31)); [done|lia..].
Qed.

Lemma wire_extra : filter (λ kv, kv.1 ∉ FIELD_NAMES) wire = je_extra e.
Proof.
  apply obj_ext.
  - apply obj_sorted_filter, obj_inserts_sorted, obj_inserts_sorted. constructor.
  - apply Hwf.
  - intros k. destruct (decide (k ∈ FIELD_NAMES)) as [Hk|Hk].
    + rewrite obj_get_filter_None by (intros v; simpl; auto).
      symmetry. apply obj_get_None. intros Hx. by apply (wf_extra_free _ Hwf) in Hx.
    + rewrite obj_get_filter by done. destruct (obj_get k (je_extra e)) as [v|] eqn:E.
      * apply obj_get_inserts_in; [apply obj_sorted_NoDup, Hwf|by apply obj_get_elem].
      * apply obj_get_None in E. rewrite obj_get_inserts_notin by done.
        rewrite obj_get_inserts_notin; [done|]. intros Hx%fields_keys. by rewrite slots_names in Hx.
Qed.

Lemma event_type_of_str t : event_type_of (JStr (event_type_str t)) = Some t.
Proof. by destruct t. Qed.

Ltac decode_str i :=
  rewrite (field_str _ _ _ (wire_slot i _ _ eq_refl)); cbn [mbind option_bind].

Ltac decode_num lem range i :=
  rewrite (lem _ _ _ (range _ Hwf) (wire_slot i _ _ eq_refl)); cbn [mbind option_bind].

Lemma envelope_decoded : envelope_of_json (envelope_to_json e) = Some e.
Proof.
  unfold envelope_to_json, envelope_of_json.
  rewrite (wire_slot 0 _ _ eq_refl). cbn [mbind option_bind]. rewrite event_type_of_str.
  cbn [mbind option_bind]. rewrite (wire_slot 1 _ _ eq_refl). cbn [mbind option_bind as_str].
  decode_num field_u64 wf_hub_seq 2. decode_num field_u32 wf_job_id 3.
  decode_str 4. decode_str 5. decode_str 6. decode_str 7. decode_str 8. decode_str 9.
  decode_num field_i32 wf_exit_code 10.
  decode_str 11. decode_str 12. decode_str 13. decode_str 14. decode_str 15. decode_str 16.
  decode_str 17. decode_str 18. decode_num field_u64 wf_response_bytes 19.
  decode_str 20. decode_str 21. decode_num field_u32 wf_stage_index 22.
  rewrite wire_extra. by destruct e.
Qed.

End roundtrip.

(** Envelopes survive the wire: encoding an envelope and decoding the object gives the
    envelope back, when its numbers are in the range of their types and no key of the
    catch-all map is the name of a typed field; the catch-all map, flattened into the
    object on the way, is recovered exactly. *)
Theorem envelope_roundtrip e :
  envelope_wf e → envelope_of_json (envelope_to_json e) = Some e.
Proof. apply envelope_decoded. Qed.

Definition sample_envelope : JournalEnvelope :=
  extra_insert #"verdict" (JStr #"allow")
    (set_je_job_id (Some 7%N) (set_je_event (Some #"cage.verdict") (envelope_now ETHook #"t"))).

Lemma envelope_roundtrip_witness :
  envelope_of_json (envelope_to_json sample_envelope) = Some sample_envelope.
Proof.
  apply envelope_roundtrip. split; try done.
  - intros n [= <-]. by vm_compute.
  - repeat constructor.
  - intros k Hk. simpl in Hk. apply list_elem_of_singleton in Hk as ->.
    apply (bool_decide_unpack _). by vm_compute.
Defined.

(** A catch-all key with the name of a typed field takes its place on the wire. *)
Lemma extra_shadows_field e k v :
  NoDup (je_extra e).*1 → obj_get k (je_extra e) = Some v →
  jget k (envelope_to_json e) = Some v.
Proof. intros Hnd Hv. apply obj_get_inserts_in; [done|by apply obj_get_elem]. Qed.

(** ** Queries *)

Lemma last_hits_map {A B} (f : A → B) n l : map f (last_hits n l) = last_hits n (map f l).
Proof. destruct n; simpl; [|done]. by rewrite skipn_map, length_map. Qed.

Lemma zip_filter_snd {A} (P : A → Prop) `{!∀ x, Decision (P x)} (ks : list nat) (l : list A) :
  length ks = length l → map snd (filter (λ kx, P kx.2) (zip ks l)) = filter P l.
Proof.
  revert ks. induction l as [|x l IH]; intros [|k ks] Hl; simpl in *; try done.
  rewrite !filter_cons. simpl. destruct (decide (P x)); simpl; by rewrite IH by lia.
Qed.

Lemma zip_seq_lookup {A} (l : list A) n i x :
  (i, x) ∈ zip (seq n (length l)) l → n ≤ i ∧ l !! (i - n) = Some x.
Proof.
  revert n. induction l as [|y l IH]; intros n; simpl; [set_solver|].
  intros [[= -> ->]|Hin]%elem_of_cons; [by rewrite Nat.sub_diag|].
  apply IH in Hin as [Hle Hl]. split; [lia|]. by replace (i - n) with (S (i - S n)) by lia.
Qed.

(** Journal citations are stable: the indexed query returns exactly the hits of the plain
    query, in the order of the journal and at most as many as asked for, and the index
    of each hit is its position, counted from one, in the whole journal; it does not
    depend on the filter. *)
Theorem query_indexed_stable parse f entries :
  map snd (store_query_indexed parse f entries) = store_query parse f entries
  ∧ (∀ n, jf_last_n f = Some n → length (store_query parse f entries) ≤ n)
  ∧ ∀ i e, (i, e) ∈ store_query_indexed parse f entries →
      1 ≤ i ∧ entries !! (i - 1) = Some e ∧ filter_matches parse f e = true.
Proof.
  unfold store_query_indexed, store_query. split_and!.
  - rewrite last_hits_map. f_equal.
    apply (@zip_filter_snd _ (λ e, filter_matches parse f e = true)
             (λ e, decide_rel (=) (filter_matches parse f e) true)).
    by rewrite length_seq.
  - intros n ->. simpl. rewrite length_drop. lia.
  - intros i e Hin.
    assert ((i, e) ∈ filter (λ ie, filter_matches parse f ie.2 = true)
              (zip (seq 1 (length entries)) entries)) as Hin'.
    { destruct (jf_last_n f); [|done]. simpl in Hin.
      by eapply elem_of_sublist, sublist_drop. }
    apply list_elem_of_filter in Hin' as [Hm Hz]. apply zip_seq_lookup in Hz as [? ?]. done.
Qed.

(** ** Stamps *)

(** The numbers a seeded hub gives. *)
Lemma fanout_all_seqs n es :
  map je_hub_seq (fanout_all (Some n) es)
  = map (λ i, Some ((n + N.of_nat i) mod 18446744073709551616)%N) (seq 0 (length es))
  ∨ (18446744073709551616 ≤ n)%N.
Proof.
  destruct (N.lt_ge_cases n 18446744073709551616) as [Hn|]; [left|by right].
  revert n Hn. induction es as [|e es IH]; intros n Hn; [done|]. simpl.
  rewrite N.add_0_r, N.mod_small by done. f_equal.
  rewrite IH by (unfold u64_succ; apply N.mod_upper_bound; done).
  rewrite <- (list_fmap_id (seq 0 (length es))). rewrite <- (fmap_S_seq 0).
  rewrite !map_map. apply map_ext. intros i. f_equal. unfold u64_succ, id.
  rewrite N.Div0.add_mod_idemp_l. f_equal. lia.
Qed.

Lemma max_hub_seq_ge entries e n :
  e ∈ entries → je_hub_seq e = Some n → (n ≤ max_hub_seq entries)%N.
Proof.
  unfold max_hub_seq. intros Hin Hn.
  assert (n ∈ omap je_hub_seq entries) as Hel by (apply list_elem_of_omap; eauto).
  induction (omap je_hub_seq entries) as [|x l IH]; [set_solver|]. cbn [foldr].
  apply elem_of_cons in Hel as [->|Hel]; [lia|]. specialize (IH Hel). lia.
Qed.

(** ** The store and its file *)

Section store_lemmas.
Context `{!Serde JournalEnvelope, !SerdeLaws JournalEnvelope}.

Lemma journal_lines_unlines es texts :
  Forall2 (λ e t, ser e = Ok t) es texts → journal_lines (unlines texts) = es.
Proof.
  intros Hf. unfold journal_lines. rewrite lines_unlines.
  - induction Hf as [|e t es texts He _ IH]; [done|]. simpl.
    destruct (trim t) eqn:E; [by apply ser_not_blank in He|]. simpl.
    rewrite (de_ser _ _ He). simpl. f_equal. exact IH.
  - induction Hf; constructor; eauto using ser_one_line.
Qed.

Lemma store_append_all es texts st :
  Forall2 (λ e t, ser e = Ok t) es texts →
  foldl (λ st e, store_append e st) st es
  = mkJournalStore (js_entries st ++ es) (js_queue st ++ texts).
Proof.
  intros Hf. revert st. induction Hf as [|e t es texts He _ IH]; intros st; simpl.
  - rewrite !app_nil_r. by destruct st.
  - rewrite IH. unfold store_append. rewrite He. simpl. by rewrite <- !app_assoc.
Qed.

Lemma writer_drain_text p texts m old :
  m !! p = Some (unlines old) →
  foldl (λ s line, writer_line p line s) (mkFs m []) texts
  = mkFs (<[p := unlines (old ++ texts)]> m) [].
Proof.
  revert m old. induction texts as [|t texts IH]; intros m old Hp; simpl.
  - by rewrite app_nil_r, insert_id.
  - unfold writer_line at 2, write_all, append_text, set_files. simpl. rewrite Hp. simpl.
    rewrite (IH _ (old ++ [t])).
    + by rewrite insert_insert_eq, <- app_assoc.
    + rewrite lookup_insert_eq, unlines_app. simpl. by rewrite app_nil_r.
Qed.

(** The file catches up with the cache: a store opened on a journal file, after
    any appends and once the writer thread has drained its channel, is what a
    new session loads from the file. *)
Theorem journal_reload p m old es told tes :
  Forall2 (λ e t, ser e = Ok t) old told → Forall2 (λ e t, ser e = Ok t) es tes →
  m !! p = Some (unlines told) →
  let st := foldl (λ st e, store_append e st) (store_new p (mkFs m [])).1 es in
  let '(st', s') := writer_drain p st (mkFs m []) in
  js_entries st' = old ++ es ∧ (journal_load p s').1 = js_entries st'.
Proof.
  intros Ho He Hp. unfold store_new, journal_load, read_to_string. rewrite syscall_no_fault.
  simpl. rewrite Hp. simpl. rewrite (journal_lines_unlines _ _ Ho).
  rewrite (store_append_all _ _ _ He). unfold writer_drain. simpl.
  rewrite (writer_drain_text _ _ _ _ Hp). split; [done|].
  unfold syscall. simpl. rewrite lookup_insert_eq. simpl.
  apply journal_lines_unlines. by apply Forall2_app.
Qed.

End store_lemmas.
