(* ===== verification/JournalHost.v ===== *)
(** * JournalHost: the daemon's journal stream and its replay protocol

    [bins/orkia/src/pty_daemon/journal_host.rs] with the fan-out of
    [crates/orkia-journal-hub/src/listener.rs] and the disk tee of [hub.rs]. The
    daemon numbers every journal envelope, mirrors it to disk and streams it to
    the one connected shell; a shell that reconnects is first fed the envelopes
    it missed.

    The code is a handful of threads and tasks that share two counters, a
    sink behind a mutex and a table of blocked calls. The model is a transition
    function on labels, one label per step a thread takes between two points
    where another one can interfere: [run] over a list of labels is one
    interleaving. An atomic load and a following lock are two labels, a
    critical section is one. Counters are below [2^64]. *)

From Stdlib Require Import NArith ZArith Lia.
From stdpp Require Import base gmap strings option numbers list list_basics.
From S2P Require Import Prelude Effects Json Fs Journal.

(** ** State *)

Record DaemonJobEvent := mkDaemonJobEvent {
  dj_job_id : N;
  dj_event : str;
  dj_kind : option str;
  dj_pid : option N;
  dj_exit_code : option Z;
  dj_label : option str;
}.

Inductive StreamFrame :=
| FEnvelope (e : JournalEnvelope)
| FMcpProxy (corr_id : N) (line : str) (peer_job_id : option N)
| FJobEvent (e : DaemonJobEvent).

Record McpReply := mkMcpReply { mr_response : str; mr_accessed : list str }.

(** The fan-out and the tee: envelopes sent in, stamped and on their way to the
    disk, stamped and on their way to the forwarder, and on disk. *)
Record Hub := mkHub {
  hb_next : N;
  hb_ingress : list JournalEnvelope;
  hb_tee : list JournalEnvelope;
  hb_drain : list JournalEnvelope;
  hb_disk : list JournalEnvelope;
}.

(** A writer thread: draining its channel, stopped by a failed write, past the
    check of the generation (with its outcome), gone. *)
Inductive writer := WRunning | WFailed | WChecked (mine : bool) | WGone.

#[export] Instance writer_eq_dec : EqDecision writer.
Proof. solve_decision. Defined.

(** One subscriber: the frames in its channel, those on its socket. *)
Record Chan := mkChan {
  c_queue : list StreamFrame;
  c_received : list StreamFrame;
  c_writer : writer;
}.

Record StreamCursor := mkStreamCursor { streamed_through : N; replay_high : N }.

(** An attach between its steps: it has read the backlog and its highest number,
    armed [replay_high], installed its sink and not started its writer yet. *)
Inductive Attach :=
| ARead (backlog : list JournalEnvelope) (high : N)
| AArmed (backlog : list JournalEnvelope)
| AInstalled.

#[export] Instance attach_installed_dec (a : option Attach) : Decision (a = Some AInstalled).
Proof. destruct a as [[]|]; (by left) || (by right). Defined.

(** A proxied call: inserted in the table, its frame sent to the subscriber [g],
    answered. *)
Inductive call :=
| CInserted (line : str) (peer : option N)
| CWaiting (line : str) (g : nat)
| CDone (r : McpReply).

Record Mcp := mkMcp {
  mc_next : N;
  mc_pending : gset N;
  mc_replies : gmap N McpReply;
  mc_calls : gmap N call;
}.

(** [ho_held]: the envelope the forwarder has let through and not sent yet. *)
Record JournalHost := mkJournalHost {
  ho_hub : Hub;
  ho_held : option JournalEnvelope;
  ho_sink : option nat;
  ho_generation : nat;
  ho_chans : gmap nat Chan;
  ho_cursor : StreamCursor;
  ho_attach : option Attach;
  ho_mcp : Mcp;
}.

(** [start]: the counters resume from the journal on disk. *)
Definition host_start (disk : list JournalEnvelope) : JournalHost :=
  let disk_max := max_hub_seq disk in
  mkJournalHost (mkHub (u64_succ disk_max) [] [] [] disk) None None 0 ∅
    (mkStreamCursor disk_max disk_max) None (mkMcp 1 ∅ ∅ ∅).

Definition set_hub (h : Hub) (s : JournalHost) : JournalHost :=
  mkJournalHost h (ho_held s) (ho_sink s) (ho_generation s) (ho_chans s) (ho_cursor s)
    (ho_attach s) (ho_mcp s).

Definition set_held (e : option JournalEnvelope) (s : JournalHost) : JournalHost :=
  mkJournalHost (ho_hub s) e (ho_sink s) (ho_generation s) (ho_chans s) (ho_cursor s)
    (ho_attach s) (ho_mcp s).

Definition set_sink (g : option nat) (s : JournalHost) : JournalHost :=
  mkJournalHost (ho_hub s) (ho_held s) g (ho_generation s) (ho_chans s) (ho_cursor s)
    (ho_attach s) (ho_mcp s).

Definition set_chans (c : gmap nat Chan) (s : JournalHost) : JournalHost :=
  mkJournalHost (ho_hub s) (ho_held s) (ho_sink s) (ho_generation s) c (ho_cursor s)
    (ho_attach s) (ho_mcp s).

Definition set_cursor (c : StreamCursor) (s : JournalHost) : JournalHost :=
  mkJournalHost (ho_hub s) (ho_held s) (ho_sink s) (ho_generation s) (ho_chans s) c
    (ho_attach s) (ho_mcp s).

Definition set_attach (a : option Attach) (s : JournalHost) : JournalHost :=
  mkJournalHost (ho_hub s) (ho_held s) (ho_sink s) (ho_generation s) (ho_chans s) (ho_cursor s)
    a (ho_mcp s).

Definition set_mcp (m : Mcp) (s : JournalHost) : JournalHost :=
  mkJournalHost (ho_hub s) (ho_held s) (ho_sink s) (ho_generation s) (ho_chans s) (ho_cursor s)
    (ho_attach s) m.

(** ** Steps *)

Inductive label : Type :=
| LEmit (e : JournalEnvelope)
| LStamp
| LTee
| LTeeLost
| LTake
| LSend
| LAttachRead
| LAttachArm
| LAttachInstall
| LAttachStart
| LWrite (g : nat) (ok : bool)
| LExitCheck (g : nat)
| LExitClear (g : nat)
| LJobEvent (e : DaemonJobEvent)
| LMcpBegin (line : str) (peer : option N)
| LMcpSend (corr : N)
| LMcpReply (corr : N) (r : McpReply)
| LMcpWake (corr : N).

Definition emit (e : JournalEnvelope) (s : JournalHost) : JournalHost :=
  let h := ho_hub s in
  set_hub (mkHub (hb_next h) (hb_ingress h ++ [e]) (hb_tee h) (hb_drain h) (hb_disk h)) s.

(** The fan-out task: the stamped envelope goes to the bus and to the drain. *)
Definition fanout_step (s : JournalHost) : option JournalHost :=
  let h := ho_hub s in
  match hb_ingress h, fanout (Some (hb_next h)) with
  | e :: rest, stamp =>
      let '(e', n) := stamp e in
      Some (set_hub (mkHub (default 0%N n) rest (hb_tee h ++ [e']) (hb_drain h ++ [e'])
                       (hb_disk h)) s)
  | [], _ => None
  end.

(** The tee and the writer thread of the store; [lost] when the bus lagged or
    the write failed. *)
Definition tee_step (lost : bool) (s : JournalHost) : option JournalHost :=
  let h := ho_hub s in
  match hb_tee h with
  | e :: rest =>
      Some (set_hub (mkHub (hb_next h) (hb_ingress h) rest (hb_drain h)
                       (if lost then hb_disk h else hb_disk h ++ [e])) s)
  | [] => None
  end.

(** [spawn_rx_forwarder]: up to the check of [replay_high]. *)
Definition forwarder_take (s : JournalHost) : option JournalHost :=
  let h := ho_hub s in
  match ho_held s, hb_drain h with
  | None, e :: rest =>
      let s' := set_hub (mkHub (hb_next h) (hb_ingress h) (hb_tee h) rest (hb_disk h)) s in
      let seq := default 0%N (je_hub_seq e) in
      if negb (seq =? 0)%N && (seq <=? replay_high (ho_cursor s))%N then Some s'
      else Some (set_held (Some e) s')
  | _, _ => None
  end.

(** [sink.send]: refused once the receiving end is gone. *)
Definition chan_send (f : StreamFrame) (g : nat) (chans : gmap nat Chan)
    : option (gmap nat Chan) :=
  match chans !! g with
  | Some c => match c_writer c with
              | WRunning => Some (<[g := mkChan (c_queue c ++ [f]) (c_received c) WRunning]> chans)
              | _ => None
              end
  | None => None
  end.

(** Under the lock of the sink; a frame that cannot be sent is dropped. *)
Definition sink_send (f : StreamFrame) (s : JournalHost) : bool * JournalHost :=
  match ho_sink s with
  | Some g => match chan_send f g (ho_chans s) with
              | Some chans => (true, set_chans chans s)
              | None => (false, s)
              end
  | None => (false, s)
  end.

Definition forwarder_send (s : JournalHost) : option JournalHost :=
  match ho_held s with
  | Some e => Some (sink_send (FEnvelope e) (set_held None s)).2
  | None => None
  end.

Definition missed (since : N) (e : JournalEnvelope) : bool :=
  match je_hub_seq e with Some q => (since <? q)%N | None => false end.

(** [attach_subscriber]: the cursor and the journal on disk. *)
Definition attach_read (s : JournalHost) : option JournalHost :=
  match ho_attach s with
  | Some _ => None
  | None =>
      let since := streamed_through (ho_cursor s) in
      let backlog := filter (λ e, missed since e = true) (hb_disk (ho_hub s)) in
      let backlog_high := match omap je_hub_seq backlog with
                          | [] => since
                          | seqs => foldr N.max 0%N seqs
                          end in
      Some (set_attach (Some (ARead backlog backlog_high)) s)
  end.

Definition attach_arm (s : JournalHost) : option JournalHost :=
  match ho_attach s with
  | Some (ARead backlog high) =>
      Some (set_attach (Some (AArmed backlog))
              (set_cursor (mkStreamCursor (streamed_through (ho_cursor s)) high) s))
  | _ => None
  end.

Definition fail_pending (m : Mcp) : Mcp :=
  mkMcp (mc_next m) ∅ (mc_replies m) (mc_calls m).

(** The backlog is queued in a channel nobody else sees yet, the generation
    bumped and the sink replaced. *)
Definition attach_install (s : JournalHost) : option JournalHost :=
  match ho_attach s with
  | Some (AArmed backlog) =>
      let g := S (ho_generation s) in
      Some (mkJournalHost (ho_hub s) (ho_held s) (Some g) g
              (<[g := mkChan (map FEnvelope backlog) [] WRunning]> (ho_chans s))
              (ho_cursor s) (Some AInstalled) (ho_mcp s))
  | _ => None
  end.

(** The blocked calls are failed and the writer thread started. *)
Definition attach_start (s : JournalHost) : option JournalHost :=
  match ho_attach s with
  | Some AInstalled => Some (set_attach None (set_mcp (fail_pending (ho_mcp s)) s))
  | _ => None
  end.

(** The writer thread of [g] exists. *)
Definition started (g : nat) (s : JournalHost) : bool :=
  negb (bool_decide (ho_attach s = Some AInstalled) && (g =? ho_generation s)).

Definition frame_seq (f : StreamFrame) : option N :=
  match f with FEnvelope e => je_hub_seq e | _ => None end.

(** [stream_writer] on one frame: the cursor moves only after a successful write. *)
Definition stream_writer (g : nat) (ok : bool) (s : JournalHost) : option JournalHost :=
  match started g s, ho_chans s !! g with
  | true, Some (mkChan (f :: rest) received WRunning) =>
      if ok then
        let c := ho_cursor s in
        let c' := match frame_seq f with
                  | Some q => mkStreamCursor (N.max (streamed_through c) q) (replay_high c)
                  | None => c
                  end in
        Some (set_cursor c' (set_chans (<[g := mkChan rest (received ++ [f]) WRunning]> (ho_chans s)) s))
      else Some (set_chans (<[g := mkChan rest received WFailed]> (ho_chans s)) s)
  | _, _ => None
  end.

(** The writer has returned, by a failed write or because its channel is closed
    and empty: the check of the generation. *)
Definition exit_check (g : nat) (s : JournalHost) : option JournalHost :=
  match started g s, ho_chans s !! g with
  | true, Some (mkChan q received w) =>
      if bool_decide (w = WFailed)
         || (bool_decide (w = WRunning) && is_empty q && negb (bool_decide (ho_sink s = Some g)))
      then Some (set_chans
                   (<[g := mkChan q received (WChecked (bool_decide (ho_generation s = g)))]>
                      (ho_chans s)) s)
      else None
  | _, _ => None
  end.

(** Its end: the sink is cleared if the check said so, the blocked calls failed. *)
Definition exit_clear (g : nat) (s : JournalHost) : option JournalHost :=
  match ho_chans s !! g with
  | Some (mkChan q received (WChecked mine)) =>
      let s := set_chans (<[g := mkChan q received WGone]> (ho_chans s)) s in
      let s := if mine then set_sink None s else s in
      Some (set_mcp (fail_pending (ho_mcp s)) s)
  | _ => None
  end.

Definition push_job_event (e : DaemonJobEvent) (s : JournalHost) : JournalHost :=
  (sink_send (FJobEvent e) s).2.

(** ** Proxied calls *)

Section mcp.
Context `{!JsonText} (parse_json : str → option json).

Definition plain (response : str) : McpReply := mkMcpReply response [].

Definition mcp_error_response (request_line message : str) : str :=
  let id := default JNull (parse_json request_line ≫= jget #"id") in
  json_text (json_obj [(#"jsonrpc", JStr #"2.0"); (#"id", id);
    (#"error", json_obj [(#"code", JInt (-32000)); (#"message", JStr message)])]).

(** [dispatch], up to the insertion in the table. *)
Definition mcp_begin (line : str) (peer : option N) (s : JournalHost) : JournalHost :=
  let m := ho_mcp s in
  let corr := mc_next m in
  set_mcp (mkMcp (u64_succ corr) ({[corr]} ∪ mc_pending m) (mc_replies m)
             (<[corr := CInserted line peer]> (mc_calls m))) s.

(** The frame, under the lock of the sink. *)
Definition mcp_send (corr : N) (s : JournalHost) : option JournalHost :=
  let m := ho_mcp s in
  match mc_calls m !! corr with
  | Some (CInserted line peer) =>
      match sink_send (FMcpProxy corr line peer) s with
      | (true, s') =>
          Some (set_mcp (mkMcp (mc_next m) (mc_pending m) (mc_replies m)
                           (<[corr := CWaiting line (default 0 (ho_sink s))]> (mc_calls m))) s')
      | (false, s') =>
          Some (set_mcp (mkMcp (mc_next m) (mc_pending m ∖ {[corr]}) (mc_replies m)
                  (<[corr := CDone (plain (mcp_error_response line #"orkia shell offline"))]>
                     (mc_calls m))) s')
      end
  | _ => None
  end.

(** A call that is no longer in the table is not answered. *)
Definition resolve_mcp (corr : N) (r : McpReply) (s : JournalHost) : JournalHost :=
  let m := ho_mcp s in
  if decide (corr ∈ mc_pending m)
  then set_mcp (mkMcp (mc_next m) (mc_pending m ∖ {[corr]}) (<[corr := r]> (mc_replies m))
                  (mc_calls m)) s
  else s.

(** The blocked receive returns: the reply, or an error once the sender is gone. *)
Definition mcp_wake (corr : N) (s : JournalHost) : option JournalHost :=
  let m := ho_mcp s in
  let finish r := set_mcp (mkMcp (mc_next m) (mc_pending m) (mc_replies m)
                             (<[corr := CDone r]> (mc_calls m))) s in
  match mc_calls m !! corr with
  | Some (CWaiting line _) =>
      match mc_replies m !! corr with
      | Some r => Some (finish r)
      | None =>
          if decide (corr ∈ mc_pending m) then None
          else Some (finish (plain (mcp_error_response line #"orkia shell disconnected")))
      end
  | _ => None
  end.

Definition step (l : label) (s : JournalHost) : option JournalHost :=
  match l with
  | LEmit e => Some (emit e s)
  | LStamp => fanout_step s
  | LTee => tee_step false s
  | LTeeLost => tee_step true s
  | LTake => forwarder_take s
  | LSend => forwarder_send s
  | LAttachRead => attach_read s
  | LAttachArm => attach_arm s
  | LAttachInstall => attach_install s
  | LAttachStart => attach_start s
  | LWrite g ok => stream_writer g ok s
  | LExitCheck g => exit_check g s
  | LExitClear g => exit_clear g s
  | LJobEvent e => Some (push_job_event e s)
  | LMcpBegin line peer => Some (mcp_begin line peer s)
  | LMcpSend corr => mcp_send corr s
  | LMcpReply corr r => Some (resolve_mcp corr r s)
  | LMcpWake corr => mcp_wake corr s
  end.

Fixpoint run (ls : list label) (s : JournalHost) : option JournalHost :=
  match ls with
  | [] => Some s
  | l :: ls' => step l s ≫= run ls'
  end.

End mcp.

(** ** Runs in which the windows are closed

    The forwarder's check and its send are not separated, a subscriber is
    attached in one piece and when the journal on disk has caught up with the
    stamps, a writer's check and its clearing are not separated, and the tee
    loses nothing. *)

Section calm.
Context `{!JsonText} (parse_json : str → option json).

Definition forward (s : JournalHost) : option JournalHost :=
  s1 ← forwarder_take s;
  match ho_held s1 with Some _ => forwarder_send s1 | None => Some s1 end.

Inductive calm_step (s s' : JournalHost) : Prop :=
| calm_emit e : s' = emit e s → calm_step s s'
| calm_stamp : (hb_next (ho_hub s) < 2 ^ 64 - 1)%N → fanout_step s = Some s' → calm_step s s'
| calm_tee : tee_step false s = Some s' → calm_step s s'
| calm_forward : forward s = Some s' → calm_step s s'
| calm_attach :
    hb_tee (ho_hub s) = [] →
    run parse_json [LAttachRead; LAttachArm; LAttachInstall; LAttachStart] s = Some s' → calm_step s s'
| calm_write g ok : stream_writer g ok s = Some s' → calm_step s s'
| calm_exit g : run parse_json [LExitCheck g; LExitClear g] s = Some s' → calm_step s s'
| calm_job e : s' = push_job_event e s → calm_step s s'
| calm_mcp_begin line peer : s' = mcp_begin line peer s → calm_step s s'
| calm_mcp_send corr : mcp_send parse_json corr s = Some s' → calm_step s s'
| calm_mcp_reply corr r : s' = resolve_mcp corr r s → calm_step s s'
| calm_mcp_wake corr : mcp_wake parse_json corr s = Some s' → calm_step s s'.

Definition frame_env (f : StreamFrame) : option JournalEnvelope :=
  match f with FEnvelope e => Some e | _ => None end.

Abbreviation envs := (omap frame_env) (only parsing).

(** The envelopes stamped since the start on the journal [d0]. *)
Definition stamped (d0 : list JournalEnvelope) (s : JournalHost) : list JournalEnvelope :=
  drop (length d0) (hb_disk (ho_hub s) ++ hb_tee (ho_hub s)).

(** One subscriber, whose first envelope has index [a]: it has received a run of
    consecutive envelopes; while its writer runs, its channel continues the
    run; the channel of the sink continues it up to [next]. *)
Definition chan_ok (log : list JournalEnvelope) (S next : nat) (is_sink : Prop) (c : Chan) : Prop :=
  ∃ a, a ≤ S
  ∧ (∃ m, a + m ≤ length log ∧ envs (c_received c) = take m (drop a log))
  ∧ (c_writer c = WRunning →
     ∃ n, a + n ≤ length log ∧ envs (c_received c ++ c_queue c) = take n (drop a log)
          ∧ (is_sink → a + n = next)).

(** [k] envelopes have left the drain, [R] are covered by the replay, [S] are
    below the cursor. *)
Record inv_at (d0 log : list JournalEnvelope) (k R S : nat) (s : JournalHost) : Prop := mkInv {
  inv_held : ho_held s = None;
  inv_attach : ho_attach s = None;
  inv_log : hb_disk (ho_hub s) ++ hb_tee (ho_hub s) = d0 ++ log;
  inv_disk : length d0 ≤ length (hb_disk (ho_hub s));
  inv_seq i e : log !! i = Some e →
    je_hub_seq e = Some (max_hub_seq d0 + 1 + N.of_nat i)%N;
  inv_next : hb_next (ho_hub s) = (max_hub_seq d0 + 1 + N.of_nat (length log))%N;
  inv_range : (hb_next (ho_hub s) < 2 ^ 64)%N;
  inv_k : k ≤ length log;
  inv_drain : hb_drain (ho_hub s) = drop k log;
  inv_R : R ≤ length log;
  inv_replay : replay_high (ho_cursor s) = (max_hub_seq d0 + N.of_nat R)%N;
  inv_S : S ≤ length log;
  inv_streamed : streamed_through (ho_cursor s) = (max_hub_seq d0 + N.of_nat S)%N;
  inv_delivered i e : i < S → log !! i = Some e →
    ∃ g c, ho_chans s !! g = Some c ∧ e ∈ envs (c_received c);
  inv_gen g c : ho_chans s !! g = Some c → g ≤ ho_generation s;
  inv_chans g c : ho_chans s !! g = Some c → chan_ok log S (k `max` R) (ho_sink s = Some g) c;
}.

Definition inv (d0 : list JournalEnvelope) (s : JournalHost) : Prop :=
  ∃ log k R S, inv_at d0 log k R S s.

Lemma inv_start d0 : (max_hub_seq d0 < 2 ^ 64 - 1)%N → inv d0 (host_start d0).
Proof.
  intros Hm. exists [], 0, 0, 0.
  assert (u64_succ (max_hub_seq d0) = max_hub_seq d0 + 1)%N as Hs.
  { unfold u64_succ. apply N.mod_small. lia. }
  split; simpl; rewrite ?app_nil_r, ?N.add_0_r, ?Hs; try done; try lia.
Qed.

(** *** Steps that do not touch the journal stream *)

Lemma inv_set_mcp d0 m s : inv d0 s → inv d0 (set_mcp m s).
Proof. intros (log & k & R & S & Hinv). exists log, k, R, S. by destruct Hinv; split. Qed.

Lemma chan_ok_other log S nx P c f :
  frame_env f = None → chan_ok log S nx P c →
  chan_ok log S nx P (mkChan (c_queue c ++ [f]) (c_received c) WRunning) ∨ c_writer c ≠ WRunning.
Proof.
  intros Hf (a & Ha & Hm & Hr). destruct (decide (c_writer c = WRunning)) as [Hw|]; [left|by right].
  exists a. split_and!; [done|done|]. intros _. destruct (Hr Hw) as (n & Hn & He & Hs).
  exists n. split_and!; [done| |done]. simpl. rewrite app_assoc, omap_app, He. simpl. rewrite Hf.
  by rewrite app_nil_r.
Qed.

Lemma chan_send_Some f g chans chans' :
  chan_send f g chans = Some chans' →
  ∃ c, chans !! g = Some c ∧ c_writer c = WRunning
       ∧ chans' = <[g := mkChan (c_queue c ++ [f]) (c_received c) WRunning]> chans.
Proof.
  unfold chan_send. destruct (chans !! g) as [[q r []]|] eqn:E; [|done..].
  intros [= <-]. eexists. split_and!; [done..|]. done.
Qed.

(** Replacing one channel. *)
Lemma inv_at_chan d0 log k R S s g c c' :
  inv_at d0 log k R S s → ho_chans s !! g = Some c →
  (∀ e, e ∈ envs (c_received c) → e ∈ envs (c_received c')) →
  chan_ok log S (k `max` R) (ho_sink s = Some g) c' →
  inv_at d0 log k R S (set_chans (<[g := c']> (ho_chans s)) s).
Proof.
  intros [] Hg Hsub Hok. split; simpl; try done.
  - intros i e Hi He. destruct (inv_delivered0 i e Hi He) as (g' & c1 & H1 & H2).
    destruct (decide (g' = g)) as [->|].
    + exists g, c'. rewrite lookup_insert_eq. split; [done|]. apply Hsub. congruence.
    + exists g', c1. by rewrite lookup_insert_ne.
  - intros g' c1. destruct (decide (g' = g)) as [->|].
    + intros _. by eapply inv_gen0.
    + rewrite lookup_insert_ne by done. apply inv_gen0.
  - intros g' c1. destruct (decide (g' = g)) as [->|].
    + rewrite lookup_insert_eq. by intros [= <-].
    + rewrite lookup_insert_ne by done. apply inv_chans0.
Qed.

Lemma inv_sink_send_other d0 f s :
  frame_env f = None → inv d0 s → inv d0 (sink_send f s).2.
Proof.
  intros Hf (log & k & R & S & Hinv). unfold sink_send.
  destruct (ho_sink s) as [g|]; [|by exists log, k, R, S].
  destruct (chan_send f g (ho_chans s)) as [chans|] eqn:E; [|by exists log, k, R, S].
  apply chan_send_Some in E as (c & Hc & Hw & ->). exists log, k, R, S. simpl.
  apply (inv_at_chan _ _ _ _ _ _ _ c); [done|done|done|].
  by destruct (chan_ok_other log S (k `max` R) (ho_sink s = Some g) c f Hf (inv_chans _ _ _ _ _ _ Hinv g c Hc)).
Qed.

(** *** The stamp and the tee *)

Lemma take_drop_snoc {A} n a (l : list A) x :
  a + n ≤ length l → take n (drop a (l ++ [x])) = take n (drop a l).
Proof.
  intros Hl. rewrite drop_app_le by lia. rewrite take_app_le; [done|]. rewrite length_drop. lia.
Qed.

Lemma chan_ok_snoc log x S nx P c : chan_ok log S nx P c → chan_ok (log ++ [x]) S nx P c.
Proof.
  intros (a & Ha & (m & Hm & Hem) & Hr). exists a. split_and!; [done| |].
  - exists m. rewrite length_app. simpl. split; [lia|]. by rewrite take_drop_snoc.
  - intros Hw. destruct (Hr Hw) as (n & Hn & Hen & Hs). exists n. rewrite length_app. simpl.
    split_and!; [lia| |done]. by rewrite take_drop_snoc.
Qed.

Lemma inv_stamp d0 s s' :
  inv d0 s → (hb_next (ho_hub s) < 2 ^ 64 - 1)%N → fanout_step s = Some s' → inv d0 s'.
Proof.
  intros (log & k & R & S & Hinv) Hb. unfold fanout_step.
  destruct (hb_ingress (ho_hub s)) as [|e rest]; [done|]. simpl. intros [= <-].
  set (e' := set_je_hub_seq (Some (hb_next (ho_hub s))) e).
  exists (log ++ [e']), k, R, S. destruct Hinv.
  assert (u64_succ (hb_next (ho_hub s)) = hb_next (ho_hub s) + 1)%N as Hs.
  { unfold u64_succ. apply N.mod_small. lia. }
  split; simpl; rewrite ?length_app; simpl; try done; try lia.
  - by rewrite !app_assoc, inv_log0.
  - intros i x. rewrite lookup_app_Some. intros [Hi|[Hi Hx]]; [by apply inv_seq0|].
    apply list_lookup_singleton_Some in Hx as [Hz <-]. simpl. rewrite inv_next0. do 2 f_equal. lia.
  - rewrite inv_drain0, drop_app_le by done. done.
  - intros i x Hi. rewrite lookup_app_l by lia. by apply inv_delivered0.
  - intros g c Hc. apply chan_ok_snoc. by apply inv_chans0.
Qed.

Lemma inv_tee d0 s s' : inv d0 s → tee_step false s = Some s' → inv d0 s'.
Proof.
  intros (log & k & R & S & Hinv). unfold tee_step.
  destruct (hb_tee (ho_hub s)) as [|e rest] eqn:E; [done|]. intros [= <-].
  exists log, k, R, S. destruct Hinv. split; simpl; try done.
  - rewrite <- app_assoc. simpl. by rewrite <- E.
  - rewrite length_app. simpl. lia.
Qed.

(** *** The forwarder *)

Lemma chan_ok_weaken log S nx nx' (P P' : Prop) c :
  (P' → P ∧ nx' = nx) → chan_ok log S nx P c → chan_ok log S nx' P' c.
Proof.
  intros HP (a & Ha & Hm & Hr). exists a. split_and!; [done|done|].
  intros Hw. destruct (Hr Hw) as (n & Hn & He & Hs). exists n. split_and!; [done|done|].
  intros [Hp ->]%HP. by apply Hs.
Qed.

Lemma take_drop_S {A} n a (l : list A) x :
  l !! (a + n) = Some x → take (S n) (drop a l) = take n (drop a l) ++ [x].
Proof. intros Hx. apply take_S_r. by rewrite lookup_drop. Qed.

(** The sink of the next envelope that is not covered by the replay. *)
Lemma inv_forward_send d0 log k R S s e :
  inv_at d0 log k R S s → R ≤ k → log !! k = Some e →
  inv_at d0 log (Datatypes.S k) R S
    (sink_send (FEnvelope e)
       (set_hub (mkHub (hb_next (ho_hub s)) (hb_ingress (ho_hub s)) (hb_tee (ho_hub s))
                   (drop (Datatypes.S k) log) (hb_disk (ho_hub s))) s)).2.
Proof.
  intros Hinv HR He. pose proof (lookup_lt_Some _ _ _ He) as Hlt.
  pose proof (inv_chans _ _ _ _ _ _ Hinv) as Hch.
  assert (∀ chans, (∀ g c, chans !! g = Some c → chan_ok log S (Datatypes.S k `max` R) (ho_sink s = Some g) c) →
            (∀ g c, chans !! g = Some c → g ≤ ho_generation s) →
            (∀ i x, i < S → log !! i = Some x → ∃ g c, chans !! g = Some c ∧ x ∈ envs (c_received c)) →
            inv_at d0 log (Datatypes.S k) R S
              (set_chans chans (set_hub (mkHub (hb_next (ho_hub s)) (hb_ingress (ho_hub s))
                 (hb_tee (ho_hub s)) (drop (Datatypes.S k) log) (hb_disk (ho_hub s))) s))) as Hbuild.
  { intros chans H1 H2 H3. destruct Hinv. split; simpl; try done; lia. }
  unfold sink_send. simpl. destruct (ho_sink s) as [g|] eqn:Eg.
  2: { apply (Hbuild (ho_chans s)); [|apply Hinv|apply Hinv].
       intros g c Hc. eapply chan_ok_weaken; [|by apply Hch]. done. }
  destruct (chan_send (FEnvelope e) g (ho_chans s)) as [chans|] eqn:E.
  - apply chan_send_Some in E as (c & Hc & Hw & ->). simpl. apply Hbuild.
    + intros g' c'. destruct (decide (g' = g)) as [->|Hne].
      * rewrite lookup_insert_eq. intros [= <-].
        destruct (Hch g c Hc) as (a & Ha & Hm & Hr). destruct (Hr Hw) as (n & Hn & Hen & Hs).
        specialize (Hs eq_refl). exists a. split_and!; [done|done|]. intros _.
        exists (Datatypes.S n). split_and!; [lia| |lia]. simpl.
        rewrite app_assoc, omap_app, Hen. simpl. symmetry. apply take_drop_S.
        by replace (a + n) with k by lia.
      * rewrite lookup_insert_ne by done. intros Hc'. eapply chan_ok_weaken; [|by apply Hch].
        intros [= ->]. done.
    + intros g' c'. destruct (decide (g' = g)) as [->|Hne].
      * intros _. by eapply Hinv.
      * rewrite lookup_insert_ne by done. apply Hinv.
    + intros i x Hi Hx. destruct (inv_delivered _ _ _ _ _ _ Hinv i x Hi Hx) as (g' & c' & H1 & H2).
      destruct (decide (g' = g)) as [->|Hne].
      * eexists g, _. rewrite lookup_insert_eq. split; [done|]. simpl. congruence.
      * exists g', c'. by rewrite lookup_insert_ne.
  - apply (Hbuild (ho_chans s)); [|apply Hinv|apply Hinv].
    intros g' c Hc. destruct (Hch g' c Hc) as (a & Ha & Hm & Hr). exists a. split_and!; [done|done|].
    intros Hw. destruct (Hr Hw) as (n & Hn & Hen & Hs). exists n. split_and!; [done|done|].
    intros [= ->]. exfalso. unfold chan_send in E. rewrite Hc in E. by rewrite Hw in E.
Qed.

Lemma inv_forward d0 s s' : inv d0 s → forward s = Some s' → inv d0 s'.
Proof.
  intros (log & k & R & S & Hinv). unfold forward, forwarder_take.
  rewrite (inv_held _ _ _ _ _ _ Hinv), (inv_drain _ _ _ _ _ _ Hinv).
  destruct (drop k log) as [|e rest] eqn:Ed; [done|].
  assert (log !! k = Some e) as He by (rewrite <- (Nat.add_0_r k), <- lookup_drop; by rewrite Ed).
  assert (rest = drop (Datatypes.S k) log) as ->.
  { rewrite (drop_S _ _ _ He) in Ed. congruence. }
  rewrite (inv_seq _ _ _ _ _ _ Hinv k e He). cbn [default from_option id].
  rewrite (inv_replay _ _ _ _ _ _ Hinv).
  destruct (N.eqb_spec (max_hub_seq d0 + 1 + N.of_nat k) 0); [lia|]. cbn [negb andb].
  destruct (N.leb_spec (max_hub_seq d0 + 1 + N.of_nat k) (max_hub_seq d0 + N.of_nat R)) as [Hle|Hgt].
  - cbn [mbind option_bind ho_held set_hub]. rewrite (inv_held _ _ _ _ _ _ Hinv). intros [= <-].
    exists log, (Datatypes.S k), R, S. destruct Hinv. split; simpl; try done; try lia.
    intros g c Hc. eapply chan_ok_weaken; [|by apply inv_chans0]. intros ->. split; [done|lia].
  - cbn [mbind option_bind]. intros [= <-].
    exists log, (Datatypes.S k), R, S.
    pose proof (inv_forward_send d0 log k R S s e Hinv ltac:(lia) He) as Hf.
    pose proof (inv_held _ _ _ _ _ _ Hinv) as Hh. destruct s. simpl in *. by subst.
Qed.

(** *** Attaching *)

Definition consecutive (q : N) (l : list JournalEnvelope) : Prop :=
  ∀ i e, l !! i = Some e → je_hub_seq e = Some (q + N.of_nat i)%N.

Lemma consecutive_tail q e l : consecutive q (e :: l) → consecutive (q + 1) l.
Proof. intros Hc i x Hx. rewrite (Hc (S i) x Hx). f_equal. lia. Qed.

Lemma missed_consecutive since q l :
  consecutive q l →
  filter (λ e, missed since e = true) l = drop (N.to_nat (since + 1 - q)) l.
Proof.
  revert q. induction l as [|e l IH]; intros q Hc; [by destruct (N.to_nat _)|].
  rewrite filter_cons. pose proof (Hc 0 e eq_refl) as He. rewrite N.add_0_r in He.
  assert (missed since e = (since <? q)%N) as Hm by (unfold missed; by rewrite He).
  destruct (N.ltb_spec since q) as [Hlt|Hge].
  - rewrite decide_True by done. rewrite (IH (q + 1)%N) by (by eapply consecutive_tail).
    by replace (N.to_nat (since + 1 - q)) with 0 by lia;
      replace (N.to_nat (since + 1 - (q + 1))) with 0 by lia.
  - rewrite decide_False by (by rewrite Hm). rewrite (IH (q + 1)%N) by (by eapply consecutive_tail).
    by replace (N.to_nat (since + 1 - q)) with (S (N.to_nat (since + 1 - (q + 1)))) by lia.
Qed.

Lemma missed_old d0 since :
  (max_hub_seq d0 ≤ since)%N → filter (λ e, missed since e = true) d0 = [].
Proof.
  intros Hs.
  assert (∀ l, (∀ x, x ∈ l → missed since x = false) → filter (λ e, missed since e = true) l = []) as Hnil.
  { intros l Hl. induction l as [|x l IHl]; [done|]. rewrite filter_cons.
    rewrite decide_False by (rewrite Hl; [done|by left]). apply IHl. intros y Hy. apply Hl. by right. }
  apply Hnil. intros x Hx. unfold missed. destruct (je_hub_seq x) as [q|] eqn:Eq; [|done].
  pose proof (max_hub_seq_ge _ _ _ Hx Eq). apply N.ltb_ge. lia.
Qed.

Lemma max_consecutive q l e :
  consecutive q (e :: l) →
  foldr N.max 0%N (omap je_hub_seq (e :: l)) = (q + N.of_nat (length l))%N.
Proof.
  revert q e. induction l as [|x l IH]; intros q e Hc;
    pose proof (Hc 0 e eq_refl) as He; rewrite N.add_0_r in He; cbn [omap list_omap]; rewrite He.
  - cbn [foldr length]. lia.
  - cbn [foldr]. pose proof (IH (q + 1)%N x ltac:(by eapply consecutive_tail)) as Hx.
    cbn [omap list_omap] in Hx. rewrite Hx. cbn [length]. lia.
Qed.

(** What an attach reads when the disk has caught up. *)
Lemma attach_backlog d0 log k R S s :
  inv_at d0 log k R S s → hb_tee (ho_hub s) = [] →
  attach_read s = Some (set_attach (Some (ARead (drop S log)
                          (max_hub_seq d0 + N.of_nat (length log))%N)) s).
Proof.
  intros Hinv Ht. unfold attach_read. rewrite (inv_attach _ _ _ _ _ _ Hinv).
  pose proof (inv_log _ _ _ _ _ _ Hinv) as Hd. rewrite Ht, app_nil_r in Hd. rewrite Hd.
  rewrite (inv_streamed _ _ _ _ _ _ Hinv), filter_app, missed_old by lia. cbn [app].
  assert (consecutive (max_hub_seq d0 + 1) log) as Hc by (intros i e; apply Hinv).
  rewrite (missed_consecutive _ _ _ Hc).
  replace (N.to_nat (max_hub_seq d0 + N.of_nat S + 1 - (max_hub_seq d0 + 1))) with S by lia.
  do 4 f_equal. pose proof (inv_S _ _ _ _ _ _ Hinv) as HS.
  assert (consecutive (max_hub_seq d0 + 1 + N.of_nat S) (drop S log)) as Hc'.
  { intros i e. rewrite lookup_drop. intros He. rewrite (Hc _ _ He). f_equal. lia. }
  pose proof (length_drop log S) as Hl. destruct (drop S log) as [|e l].
  - cbn in *. lia.
  - pose proof (max_consecutive _ _ _ Hc') as Hm. cbn [length] in Hl.
    destruct (omap je_hub_seq (e :: l)) eqn:Eo.
    + pose proof (Hc' 0 e eq_refl) as He. cbn [omap list_omap] in Eo. by rewrite He in Eo.
    + rewrite Hm. lia.
Qed.

Lemma envs_map l : envs (map FEnvelope l) = l.
Proof. induction l as [|e l IH]; [done|]. cbn. by f_equal. Qed.

Lemma inv_attach_run d0 s s' :
  inv d0 s → hb_tee (ho_hub s) = [] →
  run parse_json [LAttachRead; LAttachArm; LAttachInstall; LAttachStart] s = Some s' → inv d0 s'.
Proof.
  intros (log & k & R & S & Hinv) Ht. cbn [run step].
  rewrite (attach_backlog _ _ _ _ _ _ Hinv Ht). simpl. intros [= <-].
  pose proof (inv_gen _ _ _ _ _ _ Hinv) as Hgen.
  assert (ho_chans s !! Datatypes.S (ho_generation s) = None) as Hfresh.
  { destruct (ho_chans s !! Datatypes.S (ho_generation s)) eqn:E; [|done]. apply Hgen in E. lia. }
  exists log, k, (length log), S. destruct Hinv. split; simpl; try done.
  - intros i e Hi He. destruct (inv_delivered0 i e Hi He) as (g & c & Hg & Hin).
    exists g, c. split; [|done]. rewrite lookup_insert_ne; [done|]. intros Heq.
    rewrite Heq in Hfresh. congruence.
  - intros g c. destruct (decide (g = Datatypes.S (ho_generation s))) as [->|Hne]; [lia|].
    rewrite lookup_insert_ne by done. intros Hg%inv_gen0. lia.
  - intros g c. destruct (decide (g = Datatypes.S (ho_generation s))) as [->|Hne].
    + rewrite lookup_insert_eq. intros [= <-]. exists S. split_and!; [done| |].
      * exists 0. split; [lia|done].
      * intros _. exists (length log - S). simpl. rewrite envs_map.
        rewrite take_ge by (rewrite length_drop; lia). split_and!; [lia|done|lia].
    + rewrite lookup_insert_ne by done. intros Hc. eapply chan_ok_weaken; [|by apply inv_chans0].
      intros [= Heq]. by destruct Hne.
Qed.

(** *** Writers *)

Lemma chan_ok_mono log S S' nx P c : S ≤ S' → chan_ok log S nx P c → chan_ok log S' nx P c.
Proof. intros HS (a & Ha & Hrest). exists a. split; [lia|done]. Qed.

(** One more frame on the socket. *)
Lemma chan_ok_write log S nx P f rest received :
  chan_ok log S nx P (mkChan (f :: rest) received WRunning) →
  chan_ok log S nx P (mkChan rest (received ++ [f]) WRunning)
  ∧ (frame_env f = None
     ∨ ∃ e a m, f = FEnvelope e ∧ a ≤ S ∧ log !! (a + m) = Some e
         ∧ envs (received ++ [f]) = take (Datatypes.S m) (drop a log)).
Proof.
  intros (a & Ha & (m & Hm & Hem) & Hr). destruct (Hr eq_refl) as (n & Hn & Hen & Hs). simpl in *.
  rewrite omap_app in Hen. simpl in Hen.
  destruct (frame_env f) as [e|] eqn:Ef.
  - destruct f as [e'| |]; try done. injection Ef as ->.
    assert (length (envs received) = m) as Hlm by (rewrite Hem, length_take, length_drop; lia).
    assert (log !! (a + m) = Some e) as He.
    { assert (take n (drop a log) !! m = Some e) as Hl
        by (rewrite <- Hen, lookup_app_r, Hlm, Nat.sub_diag by lia; done).
      apply lookup_take_Some in Hl as [Hl _]. by rewrite lookup_drop in Hl. }
    pose proof (lookup_lt_Some _ _ _ He).
    assert (envs (received ++ [FEnvelope e]) = take (Datatypes.S m) (drop a log)) as Hrec.
    { rewrite omap_app, Hem. symmetry. by apply take_drop_S. }
    split; [|right; by exists e, a, m].
    exists a. split_and!; [done| |].
    + exists (Datatypes.S m). split; [lia|done].
    + intros _. exists n. split_and!; [done| |done]. simpl. rewrite <- app_assoc, omap_app. done.
  - split; [|by left]. exists a. split_and!; [done| |].
    + exists m. split; [done|]. simpl. rewrite omap_app. simpl. by rewrite Ef, app_nil_r.
    + intros _. exists n. split_and!; [done| |done]. simpl.
      rewrite <- app_assoc, omap_app. simpl. by rewrite Ef.
Qed.

Lemma inv_write d0 g ok s s' : inv d0 s → stream_writer g ok s = Some s' → inv d0 s'.
Proof.
  intros (log & k & R & S & Hinv). unfold stream_writer, started.
  rewrite (inv_attach _ _ _ _ _ _ Hinv). cbn [bool_decide decide andb negb].
  destruct (ho_chans s !! g) as [[[|f rest] received []]|] eqn:Eg; try done.
  pose proof (inv_chans _ _ _ _ _ _ Hinv g _ Eg) as Hok. destruct ok; intros [= <-].
  2: { exists log, k, R, S. apply (inv_at_chan _ _ _ _ _ _ _ _ _ Hinv Eg); [done|].
       destruct Hok as (a & Ha & Hm & _). by exists a. }
  destruct (chan_ok_write _ _ _ _ _ _ _ Hok) as [Hok' [Hf|(e & a & m & -> & Ha & He & Hrec)]].
  - exists log, k, R, S. assert (frame_seq f = None) as -> by (by destruct f).
    pose proof (inv_at_chan _ _ _ _ _ _ _ _ (mkChan rest (received ++ [f]) WRunning) Hinv Eg) as Hi.
    destruct s. apply Hi; [|done]. simpl. intros x Hx. rewrite omap_app. apply elem_of_app. by left.
  - pose proof (lookup_lt_Some _ _ _ He) as Hlt. cbn [frame_seq].
    rewrite (inv_seq _ _ _ _ _ _ Hinv _ _ He).
    exists log, k, R, (S `max` Datatypes.S (a + m)).
    pose proof (inv_at_chan _ _ _ _ _ _ _ _ (mkChan rest (received ++ [FEnvelope e]) WRunning)
      Hinv Eg) as Hi.
    destruct Hi; [simpl; intros x Hx; rewrite omap_app; apply elem_of_app; by left|done|].
    split; simpl in *; try done; try lia.
    + intros i x Hi Hx. destruct (decide (i < S)) as [Hs|Hs]; [by apply (inv_delivered0 i)|].
      exists g, (mkChan rest (received ++ [FEnvelope e]) WRunning).
      rewrite lookup_insert_eq. split; [done|]. simpl. rewrite Hrec.
      apply (list_elem_of_lookup_2 _ (i - a)). rewrite lookup_take_lt by lia. rewrite lookup_drop.
      by replace (a + (i - a)) with i by lia.
    + intros g' c' Hc'. eapply chan_ok_mono; [|by apply inv_chans0]. lia.
Qed.

Lemma inv_exit d0 g s s' :
  inv d0 s → run parse_json [LExitCheck g; LExitClear g] s = Some s' → inv d0 s'.
Proof.
  intros (log & k & R & S & Hinv). cbn [run step]. unfold exit_check, started.
  rewrite (inv_attach _ _ _ _ _ _ Hinv). cbn [bool_decide decide andb negb].
  destruct (ho_chans s !! g) as [[q received w]|] eqn:Eg; [|done]. simpl.
  destruct (_ || _); [|done]. unfold exit_clear. simpl. rewrite lookup_insert_eq. simpl.
  intros [= <-]. apply inv_set_mcp. rewrite insert_insert_eq.
  exists log, k, R, S.
  pose proof (inv_chans _ _ _ _ _ _ Hinv g _ Eg) as (a & Ha & Hm & _).
  pose proof (inv_at_chan _ _ _ _ _ _ _ _ (mkChan q received WGone) Hinv Eg) as Hi.
  specialize (Hi ltac:(done) ltac:(by exists a)). destruct (bool_decide _); [|done].
  destruct Hi. split; simpl in *; try done.
  intros g' c' Hc'. eapply chan_ok_weaken; [|by apply inv_chans0]. done.
Qed.

(** *** Every calm step *)

Lemma inv_calm d0 s s' : calm_step s s' → inv d0 s → inv d0 s'.
Proof.
  intros [e -> | Hb Hst | Hst | Hst | Ht Hst | g ok Hst | g Hst | e -> | line peer -> | corr Hst
         | corr r -> | corr Hst] Hinv.
  - destruct Hinv as (log & k & R & S & Hinv). exists log, k, R, S. by destruct Hinv; split.
  - by eapply inv_stamp.
  - by eapply inv_tee.
  - by eapply inv_forward.
  - by eapply inv_attach_run.
  - by eapply inv_write.
  - by eapply inv_exit.
  - by apply inv_sink_send_other.
  - by apply inv_set_mcp.
  - revert Hst. unfold mcp_send. destruct (mc_calls _ !! corr) as [[line peer| |]|]; try done.
    pose proof (inv_sink_send_other d0 (FMcpProxy corr line peer) s eq_refl Hinv) as Hs.
    destruct (sink_send _ _) as [[] s1]; intros [= <-]; by apply inv_set_mcp.
  - unfold resolve_mcp. destruct (decide _); [by apply inv_set_mcp|done].
  - revert Hst. unfold mcp_wake. destruct (mc_calls _ !! corr) as [[| |]|]; try done.
    destruct (mc_replies _ !! corr); [intros [= <-]; by apply inv_set_mcp|].
    destruct (decide _); [done|]. intros [= <-]. by apply inv_set_mcp.
Qed.

Lemma inv_reachable d0 s :
  (max_hub_seq d0 < 2 ^ 64 - 1)%N → rtc calm_step (host_start d0) s → inv d0 s.
Proof.
  intros Hd Hr. pose proof (inv_start d0 Hd) as Hi. revert Hi.
  induction Hr as [|x y z Hxy _ IH]; [done|]. intros Hx. apply IH. by eapply inv_calm.
Qed.

Lemma inv_stamped d0 log k R S s : inv_at d0 log k R S s → stamped d0 s = log.
Proof. intros Hinv. unfold stamped. rewrite (inv_log _ _ _ _ _ _ Hinv). by rewrite drop_app_length. Qed.


End calm.

(** ** The windows *)

Section windows.
Context `{!JsonText} (parse_json : str → option json).

(** No frame numbered [q] is anywhere on its way to a subscriber, and none will
    be: [q] is below the stamp counter and not above the cursor. *)
Record gone (q : N) (s : JournalHost) : Prop := mkGone {
  gone_chans g c : ho_chans s !! g = Some c →
    Forall (λ f, frame_seq f ≠ Some q) (c_queue c) ∧ Forall (λ f, frame_seq f ≠ Some q) (c_received c);
  gone_held e : ho_held s = Some e → je_hub_seq e ≠ Some q;
  gone_drain : Forall (λ e, je_hub_seq e ≠ Some q) (hb_drain (ho_hub s));
  gone_read l h : ho_attach s = Some (ARead l h) → Forall (λ e, je_hub_seq e ≠ Some q) l;
  gone_armed l : ho_attach s = Some (AArmed l) → Forall (λ e, je_hub_seq e ≠ Some q) l;
  gone_cursor : (q ≤ streamed_through (ho_cursor s))%N;
  gone_next : (q < hb_next (ho_hub s))%N;
}.

Lemma gone_set_mcp q m s : gone q s → gone q (set_mcp m s).
Proof. by intros []. Qed.

Lemma gone_set_chan q g c s :
  gone q s → Forall (λ f, frame_seq f ≠ Some q) (c_queue c) →
  Forall (λ f, frame_seq f ≠ Some q) (c_received c) → gone q (set_chans (<[g := c]> (ho_chans s)) s).
Proof.
  intros [] Hq Hr. split; simpl; try done. intros g' c'. destruct (decide (g' = g)) as [->|].
  - rewrite lookup_insert_eq. by intros [= <-].
  - rewrite lookup_insert_ne by done. apply gone_chans0.
Qed.

Lemma gone_sink_send q f s : gone q s → frame_seq f ≠ Some q → gone q (sink_send f s).2.
Proof.
  intros Hs Hf. unfold sink_send. destruct (ho_sink s) as [g|]; [|done].
  destruct (chan_send f g (ho_chans s)) as [chans|] eqn:E; [|done].
  apply chan_send_Some in E as (c & Hc & _ & ->). destruct (gone_chans _ _ Hs g c Hc).
  apply gone_set_chan; [done| |done]. simpl. apply Forall_app_2; [done|]. by apply Forall_singleton.
Qed.

Lemma missed_gone q since l :
  (q ≤ since)%N → Forall (λ e, je_hub_seq e ≠ Some q) (filter (λ e, missed since e = true) l).
Proof.
  intros Hq. apply list.Forall_forall. intros e [Hm _]%list_elem_of_filter He.
  unfold missed in Hm. rewrite He in Hm. apply N.ltb_lt in Hm. lia.
Qed.

Lemma gone_fanout q s s' :
  (hb_next (ho_hub s) < 2 ^ 64 - 1)%N → gone q s → fanout_step s = Some s' →
  gone q s' ∧ hb_next (ho_hub s') = (hb_next (ho_hub s) + 1)%N.
Proof.
  intros Hb Hs. unfold fanout_step. destruct (hb_ingress (ho_hub s)) as [|e rest]; [done|]. simpl.
  intros [= <-].
  assert (u64_succ (hb_next (ho_hub s)) = hb_next (ho_hub s) + 1)%N as Hn.
  { unfold u64_succ. apply N.mod_small. lia. }
  split; [|done]. destruct Hs. split; simpl; rewrite ?Hn; try done; [|lia].
  apply Forall_app_2; [done|]. apply Forall_singleton. simpl. intros [= ?]. lia.
Qed.

Lemma gone_forwarder_take q s s' : gone q s → forwarder_take s = Some s' → gone q s'.
Proof.
  intros Hs. unfold forwarder_take. destruct (ho_held s) eqn:Eh; [done|].
  destruct (hb_drain (ho_hub s)) as [|e rest] eqn:Ed; [done|].
  pose proof (gone_drain _ _ Hs) as Hd. rewrite Ed in Hd. apply list.Forall_cons in Hd as [He Hd].
  destruct (_ && _); intros [= <-]; destruct Hs; split; simpl; try done. by intros ? [= <-].
Qed.

Lemma gone_attach q s s' l :
  l = LAttachRead ∨ l = LAttachArm ∨ l = LAttachInstall ∨ l = LAttachStart →
  gone q s → step parse_json l s = Some s' → gone q s'.
Proof.
  intros Hl Hs. pose proof (gone_cursor _ _ Hs) as Hc.
  pose proof (missed_gone q (streamed_through (ho_cursor s)) (hb_disk (ho_hub s)) Hc) as Hm.
  destruct Hl as [->|[->|[->| ->]]]; simpl.
  - unfold attach_read. destruct (ho_attach s) eqn:Ea; [done|]. intros [= <-].
    destruct Hs. split; simpl; try done. by intros ? ? [= <- _].
  - unfold attach_arm. destruct (ho_attach s) as [[b h| |]|] eqn:Ea; try done. intros [= <-].
    pose proof (gone_read _ _ Hs b h Ea). destruct Hs. split; simpl; try done. by intros ? [= <-].
  - unfold attach_install. destruct (ho_attach s) as [[|b|]|] eqn:Ea; try done. intros [= <-].
    pose proof (gone_armed _ _ Hs b Ea) as Hb.
    apply (gone_set_chan q (S (ho_generation s)) (mkChan (map FEnvelope b) [] WRunning)) in Hs;
      [|simpl; by apply Forall_fmap|constructor].
    destruct Hs. by split.
  - unfold attach_start. destruct (ho_attach s) as [[]|]; try done. intros [= <-].
    destruct Hs. by split.
Qed.

Lemma gone_writer q g ok s s' : gone q s → stream_writer g ok s = Some s' → gone q s'.
Proof.
  intros Hs. unfold stream_writer. destruct (started g s); [|done].
  destruct (ho_chans s !! g) as [[[|f rest] received []]|] eqn:Eg; try done.
  destruct (gone_chans _ _ Hs g _ Eg) as [Hq Hr]. simpl in Hq, Hr. apply list.Forall_cons in Hq as [Hf Hq].
  destruct ok; intros [= <-]; [|by apply gone_set_chan].
  apply (gone_set_chan q g (mkChan rest (received ++ [f]) WRunning)) in Hs;
    [|done|simpl; apply Forall_app_2; [done|by apply Forall_singleton]].
  destruct Hs. split; simpl in *; try done. destruct (frame_seq f); simpl; lia.
Qed.

Lemma gone_exit q g s s' :
  exit_check g s = Some s' ∨ exit_clear g s = Some s' → gone q s → gone q s'.
Proof.
  intros [Hst|Hst] Hs; revert Hst; [unfold exit_check; destruct (started g s); [|done]|unfold exit_clear];
    (destruct (ho_chans s !! g) as [[qu received w]|] eqn:Eg; [|done]);
    destruct (gone_chans _ _ Hs g _ Eg) as [Hq Hr].
  - destruct (_ || _); [|done]. intros [= <-]. by apply gone_set_chan.
  - destruct w as [| |mine|]; try done. intros [= <-]. apply gone_set_mcp.
    apply (gone_set_chan q g (mkChan qu received WGone)) in Hs; [|done|done].
    destruct mine; [|done]. by destruct Hs.
Qed.

Lemma sink_send_hub f s : ho_hub (sink_send f s).2 = ho_hub s.
Proof.
  unfold sink_send. destruct (ho_sink s) as [g|]; [|done]. by destruct (chan_send _ _ _).
Qed.

(** Only the fan-out moves the counter. *)
Lemma step_next l s s' :
  l ≠ LStamp → step parse_json l s = Some s' → hb_next (ho_hub s') = hb_next (ho_hub s).
Proof.
  intros Hl Hst. destruct l as [| | | | | | | | | | | | | | |corr| |]; simpl in Hst; try done;
    unfold tee_step, forwarder_take, attach_read, attach_arm, attach_install, attach_start,
      stream_writer, exit_check, exit_clear, mcp_wake in Hst;
    try by (simplify_eq/=; repeat (case_match; simplify_eq/=)).
  - unfold forwarder_send in Hst. destruct (ho_held s); [|done]. injection Hst as <-.
    by rewrite sink_send_hub.
  - injection Hst as <-. unfold push_job_event. by rewrite sink_send_hub.
  - unfold mcp_send in Hst. destruct (mc_calls _ !! _) as [[line peer| |]|]; try done.
    pose proof (sink_send_hub (FMcpProxy corr line peer) s) as Hh.
    destruct (sink_send _ _) as [[] s1]; injection Hst as <-; simpl in *; by rewrite Hh.
  - injection Hst as <-. unfold resolve_mcp. by case_match.
Qed.

Lemma gone_hub q n i t d s :
  gone q s → n = hb_next (ho_hub s) → gone q (set_hub (mkHub n i t (hb_drain (ho_hub s)) d) s).
Proof. intros [] ->. by split. Qed.

Lemma gone_step q l s s' :
  l ≠ LStamp → gone q s → step parse_json l s = Some s' → gone q s'.
Proof.
  intros Hl Hs Hst. destruct l; simpl in Hst; try done.
  - injection Hst as <-. by apply gone_hub.
  - unfold tee_step in Hst. destruct (hb_tee (ho_hub s)); [done|]. injection Hst as <-.
    by apply gone_hub.
  - unfold tee_step in Hst. destruct (hb_tee (ho_hub s)); [done|]. injection Hst as <-.
    by apply gone_hub.
  - by eapply gone_forwarder_take.
  - unfold forwarder_send in Hst. destruct (ho_held s) as [e|] eqn:Eh; [|done].
    injection Hst as <-. pose proof (gone_held _ _ Hs e Eh) as He.
    apply gone_sink_send; [|done]. by destruct Hs.
  - eapply (gone_attach q s s' LAttachRead); [tauto|done..].
  - eapply (gone_attach q s s' LAttachArm); [tauto|done..].
  - eapply (gone_attach q s s' LAttachInstall); [tauto|done..].
  - eapply (gone_attach q s s' LAttachStart); [tauto|done..].
  - by eapply gone_writer.
  - eapply gone_exit; eauto.
  - eapply gone_exit; eauto.
  - injection Hst as <-. by apply gone_sink_send.
  - injection Hst as <-. by apply gone_set_mcp.
  - unfold mcp_send in Hst. destruct (mc_calls _ !! corr) as [[line peer| |]|]; try done.
    pose proof (gone_sink_send q (FMcpProxy corr line peer) s Hs ltac:(done)) as Hg.
    destruct (sink_send _ _) as [[] s1]; injection Hst as <-; by apply gone_set_mcp.
  - injection Hst as <-. unfold resolve_mcp. case_match; [by apply gone_set_mcp|done].
  - unfold mcp_wake in Hst. repeat (case_match; simplify_eq/=; try done); by apply gone_set_mcp.
Qed.

(** A frame that is gone stays gone. *)
Lemma gone_run q ls s s' :
  (hb_next (ho_hub s) + N.of_nat (length ls) < 2 ^ 64)%N →
  gone q s → run parse_json ls s = Some s' → gone q s'.
Proof.
  revert s. induction ls as [|l ls IH]; intros s Hb Hs Hr; [by injection Hr as <-|].
  cbn [run] in Hr. destruct (step parse_json l s) as [s1|] eqn:E; [|done]. cbn [length] in Hb.
  assert (l = LStamp ∨ l ≠ LStamp) as [->|Hl] by (destruct l; (by left) || (by right)).
  - destruct (gone_fanout q s s1 ltac:(lia) Hs E) as [Hs1 Hn]. eapply (IH s1); [lia|done|done].
  - pose proof (step_next l s s1 Hl E) as Hn. eapply (IH s1); [lia|by eapply gone_step|done].
Qed.

(** An envelope goes through the hub and the forwarder. *)
Definition pass (e : JournalEnvelope) : list label := [LEmit e; LStamp; LTee; LTake; LSend].

Definition attach : list label := [LAttachRead; LAttachArm; LAttachInstall; LAttachStart].

(** the window of an attach loses envelopes: one that passes the forwarder after
    the new subscriber has read the journal and before its sink is installed is
    in no backlog and is sent to no sink; the next envelope written moves the
    cursor past it, and no continuation of the run (of less than [2^63] steps)
    ever puts it on a socket, whoever attaches. *)
Theorem attach_window_loses e1 e2 :
  ∃ s c, run parse_json
           ([LAttachRead] ++ pass e1 ++ [LAttachArm; LAttachInstall; LAttachStart]
              ++ pass e2 ++ [LWrite 1 true]) (host_start []) = Some s
  ∧ hb_disk (ho_hub s) = [set_je_hub_seq (Some 1%N) e1; set_je_hub_seq (Some 2%N) e2]
  ∧ ho_chans s !! 1 = Some c ∧ c_received c = [FEnvelope (set_je_hub_seq (Some 2%N) e2)]
  ∧ ∀ ls s' g' c', (N.of_nat (length ls) < 2 ^ 63)%N → run parse_json ls s = Some s' →
      ho_chans s' !! g' = Some c' → Forall (λ f, frame_seq f ≠ Some 1%N) (c_received c').
Proof.
  eexists _, _. split; [vm_compute; reflexivity|]. split_and!; try reflexivity.
  intros ls s' g' c' Hl Hr Hc. eapply (gone_run 1) in Hr.
  - by destruct (gone_chans _ _ Hr g' c' Hc).
  - cbn. lia.
  - split; cbn; try done; try lia. intros g c Hg.
    change (({[1 := mkChan [] [FEnvelope (set_je_hub_seq (Some 2%N) e2)] WRunning]}
              : gmap nat Chan) !! g = Some c) in Hg.
    apply lookup_singleton_Some in Hg as [<- <-]. split; [constructor|]. by apply Forall_singleton.
Qed.

(** a writer that ends while the next shell attaches can disconnect it: if it
    compares the generation before the attach bumps it and clears the sink
    afterwards, the new subscriber's channel is open and its writer runs, but
    nothing is sent to it: envelopes and job events are dropped and proxied
    calls answered with the offline error. *)
Theorem stale_exit_disconnects e line peer :
  ∃ s c, run parse_json
           (attach ++ pass e ++ [LWrite 1 false; LExitCheck 1] ++ attach ++ [LExitClear 1])
           (host_start []) = Some s
  ∧ ho_generation s = 2 ∧ ho_chans s !! 2 = Some c ∧ c_writer c = WRunning
  ∧ (∀ f, sink_send f s = (false, s))
  ∧ ∃ s', run parse_json [LMcpBegin line peer; LMcpSend 1] s = Some s'
      ∧ mc_calls (ho_mcp s') !! 1%N
        = Some (CDone (plain (mcp_error_response parse_json line #"orkia shell offline"))).
Proof.
  eexists _, _. split; [vm_compute; reflexivity|]. split_and!; try reflexivity.
  eexists. split; reflexivity.
Qed.

End windows.

(** ** Proxied calls are not orphaned *)

Section orphans.
Context `{!JsonText} (parse_json : str → option json).

(** The writer of [g] has not run to its end. *)
Definition unfinished (g : nat) (s : JournalHost) : Prop :=
  ∃ c, ho_chans s !! g = Some c ∧ c_writer c ≠ WGone.

Lemma unfinished_insert g g' c s s' :
  ho_chans s' = <[g' := c]> (ho_chans s) → c_writer c ≠ WGone → unfinished g s → unfinished g s'.
Proof.
  intros Hs Hc (c0 & Hg & Hw). unfold unfinished. rewrite Hs.
  destruct (decide (g = g')) as [->|]; [exists c|exists c0]; by simplify_map_eq.
Qed.

Lemma sink_send_chans f s :
  (sink_send f s = (false, s))
  ∨ ∃ g c, ho_sink s = Some g ∧ ho_chans s !! g = Some c ∧ c_writer c = WRunning
      ∧ sink_send f s
        = (true, set_chans (<[g := mkChan (c_queue c ++ [f]) (c_received c) WRunning]> (ho_chans s)) s).
Proof.
  unfold sink_send. destruct (ho_sink s) as [g|] eqn:Eg; [|by left].
  destruct (chan_send f g (ho_chans s)) as [chans|] eqn:E; [|by left].
  apply chan_send_Some in E as (c & Hc & Hw & ->). right. by exists g, c.
Qed.

Lemma unfinished_sink_send g f s : unfinished g s → unfinished g (sink_send f s).2.
Proof.
  intros Hg. destruct (sink_send_chans f s) as [->|(g' & c & _ & Hc & Hw & ->)]; [done|].
  by eapply unfinished_insert.
Qed.

Lemma sink_send_mcp f s : ho_mcp (sink_send f s).2 = ho_mcp s.
Proof. by destruct (sink_send_chans f s) as [->|(g' & c & _ & _ & _ & ->)]. Qed.

(** A writer that runs to its end fails every blocked call. *)
Lemma step_unfinished g l s s' :
  step parse_json l s = Some s' → unfinished g s →
  unfinished g s' ∨ mc_pending (ho_mcp s') = ∅.
Proof.
  intros Hst Hg. destruct l; simpl in Hst;
    try (left; unfold fanout_step, tee_step, forwarder_take, attach_read, attach_arm, attach_start,
           mcp_wake in Hst; simplify_eq/=; repeat (case_match; simplify_eq/=); done).
  - left. unfold forwarder_send in Hst. case_match; simplify_eq/=. by apply unfinished_sink_send.
  - left. unfold attach_install in Hst. repeat (case_match; simplify_eq/=).
    by eapply unfinished_insert.
  - left. unfold stream_writer in Hst. repeat (case_match; simplify_eq/=); by eapply unfinished_insert.
  - left. unfold exit_check in Hst. repeat (case_match; simplify_eq/=); by eapply unfinished_insert.
  - right. unfold exit_clear in Hst. repeat (case_match; simplify_eq/=); done.
  - left. simplify_eq/=. by apply unfinished_sink_send.
  - left. unfold mcp_send in Hst. case_match; [|done]. case_match; try done.
    pose proof (unfinished_sink_send g (FMcpProxy corr line peer) s Hg) as Hu.
    destruct (sink_send _ _) as [[] s1]; by simplify_eq/=.
  - left. simplify_eq/=. unfold resolve_mcp. by case_match.
Qed.

(** A call that waits was waiting before, or its frame has just been sent. *)
Lemma step_waiting l s s' corr line g :
  step parse_json l s = Some s' → mc_calls (ho_mcp s') !! corr = Some (CWaiting line g) →
  (mc_calls (ho_mcp s) !! corr = Some (CWaiting line g)
   ∧ (corr ∈ mc_pending (ho_mcp s') → corr ∈ mc_pending (ho_mcp s))
   ∧ (is_Some (mc_replies (ho_mcp s) !! corr) → is_Some (mc_replies (ho_mcp s') !! corr)))
  ∨ unfinished g s'.
Proof.
  intros Hst Hw. destruct l as [| | | | | | | | | | | | | |line' peer|corr'|corr' r|corr']; simpl in Hst;
    try (left; unfold fanout_step, tee_step, forwarder_take, attach_read, attach_arm, attach_start,
           attach_install, stream_writer, exit_check, exit_clear in Hst; simplify_eq/=;
         repeat (case_match; simplify_eq/=); set_solver).
  - left. unfold forwarder_send in Hst. case_match; simplify_eq/=. by rewrite sink_send_mcp in *.
  - left. simplify_eq/=. unfold push_job_event in *. by rewrite sink_send_mcp in *.
  - left. simplify_eq/=. destruct (decide (corr = mc_next (ho_mcp s))) as [->|Hne].
    { by rewrite lookup_insert_eq in Hw. }
    rewrite lookup_insert_ne in Hw by done. set_solver.
  - unfold mcp_send in Hst. destruct (mc_calls (ho_mcp s) !! corr') as [[line' peer| |]|] eqn:Ec; try done.
    destruct (sink_send_chans (FMcpProxy corr' line' peer) s) as [E|(g' & c & Hsk & Hc & Hr & E)];
      rewrite E in Hst; simplify_eq/=; destruct (decide (corr = corr')) as [->|Hne];
      rewrite ?lookup_insert_eq in Hw; rewrite ?lookup_insert_ne in Hw by done; simplify_eq.
    + left. set_solver.
    + right. rewrite Hsk. simpl. eexists. simpl. rewrite lookup_insert_eq. done.
    + left. set_solver.
  - left. simplify_eq/=. unfold resolve_mcp in *. case_match; simpl in *; [|done].
    split_and!; [done|set_solver|]. intros [x Hx]. destruct (decide (corr = corr')) as [->|].
    + rewrite lookup_insert_eq. by eexists.
    + rewrite lookup_insert_ne by done. by eexists.
  - left. unfold mcp_wake in Hst. repeat (case_match; simplify_eq/=; try done);
      (destruct (decide (corr = corr')) as [->|];
       [by rewrite lookup_insert_eq in Hw|rewrite lookup_insert_ne in Hw by done; done]).
Qed.

Definition answerable (corr : N) (s : JournalHost) : Prop :=
  corr ∉ mc_pending (ho_mcp s) ∨ is_Some (mc_replies (ho_mcp s) !! corr).

Lemma answerable_wakes corr line g s :
  mc_calls (ho_mcp s) !! corr = Some (CWaiting line g) → answerable corr s →
  is_Some (mcp_wake parse_json corr s).
Proof.
  intros Hc Ha. unfold mcp_wake. rewrite Hc.
  destruct (mc_replies _ !! corr) eqn:Er; [by eexists|]. destruct (decide _); [|by eexists].
  destruct Ha as [?|[? ?]]; [done|congruence].
Qed.

Lemma waiting_reachable d0 ls s corr line g :
  run parse_json ls (host_start d0) = Some s →
  mc_calls (ho_mcp s) !! corr = Some (CWaiting line g) → answerable corr s ∨ unfinished g s.
Proof.
  assert (∀ s0, (∀ corr line g, mc_calls (ho_mcp s0) !! corr = Some (CWaiting line g) →
                   answerable corr s0 ∨ unfinished g s0) →
            run parse_json ls s0 = Some s →
            mc_calls (ho_mcp s) !! corr = Some (CWaiting line g) → answerable corr s ∨ unfinished g s)
    as Hgen; [|by apply Hgen].
  induction ls as [|l ls IH]; intros s0 H0 Hr; [injection Hr as <-; apply H0|].
  cbn [run] in Hr. destruct (step parse_json l s0) as [s1|] eqn:E; [|done].
  apply (IH s1); [|done]. intros corr' line' g' Hw.
  destruct (step_waiting _ _ _ _ _ _ E Hw) as [(Hc & Hp & Hrep)|]; [|by right].
  destruct (H0 _ _ _ Hc) as [[Ha|Ha]|Hu].
  - left. left. by intros ?%Hp.
  - left. right. by apply Hrep.
  - destruct (step_unfinished _ _ _ _ E Hu) as [|Hn]; [by right|]. left. left. rewrite Hn. set_solver.
Qed.

(** no proxied call is orphaned, in any interleaving: a call that blocks
    can return, with the reply or an error, or the writer of the subscriber it was
    sent to is still there, and the end of that writer lets it return. *)
Theorem mcp_not_orphaned d0 ls s corr line g :
  run parse_json ls (host_start d0) = Some s →
  mc_calls (ho_mcp s) !! corr = Some (CWaiting line g) →
  is_Some (mcp_wake parse_json corr s)
  ∨ unfinished g s
    ∧ ∀ s', exit_clear g s = Some s' → is_Some (mcp_wake parse_json corr s').
Proof.
  intros Hr Hc. destruct (waiting_reachable _ _ _ _ _ _ Hr Hc) as [Ha|Hu].
  - left. by eapply answerable_wakes.
  - right. split; [done|]. intros s' He. unfold exit_clear in He.
    repeat (case_match; simplify_eq/=); (eapply answerable_wakes; [done|left; set_solver]).
Qed.

End orphans.

(** ** Examples *)

Section examples.

#[local] Instance plain_json : JsonText := λ _, #"{}".

Definition no_parse (_ : str) : option json := None.

Definition sample (t : str) : JournalEnvelope := envelope_now ETHook t.

(** A shell that attaches after the envelope has passed is fed it. *)
Definition replay_run : list label := pass (sample #"t") ++ attach ++ [LWrite 1 true].

Definition replayed : JournalHost := default (host_start []) (run no_parse replay_run (host_start [])).

Lemma replayed_calm : rtc (calm_step no_parse) (host_start []) replayed.
Proof.
  eapply rtc_l; [by eapply (calm_emit _ _ _ (sample #"t"))|].
  eapply rtc_l; [eapply calm_stamp; [by vm_compute|by vm_compute]|].
  eapply rtc_l; [eapply calm_tee; by vm_compute|].
  eapply rtc_l; [eapply calm_forward; by vm_compute|].
  eapply rtc_l; [eapply calm_attach; [by vm_compute|by vm_compute]|].
  eapply rtc_l; [eapply (calm_write _ _ _ 1 true); by vm_compute|].
  apply rtc_refl.
Qed.


Definition blocked : JournalHost :=
  default (host_start [])
    (run no_parse (attach ++ [LMcpBegin #"{}" None; LMcpSend 1]) (host_start [])).

Lemma mcp_not_orphaned_witness :
  is_Some (mcp_wake no_parse 1 blocked)
  ∨ unfinished 1 blocked
    ∧ ∀ s', exit_clear 1 blocked = Some s' → is_Some (mcp_wake no_parse 1 s').
Proof.
  apply (mcp_not_orphaned no_parse [] (attach ++ [LMcpBegin #"{}" None; LMcpSend 1]) blocked 1 #"{}" 1);
    by vm_compute.
Defined.

End examples.
