(* ===== verification/RfcCore.v ===== *)
(** * RfcCore: data and pure logic of the RFC primitive

    [crates/orkia-rfc-core]: identifiers, scopes, content hashes, the error
    type, the state machine ([state.rs]), the tool matrix ([matrix.rs]), the
    frontmatter ([frontmatter.rs]) and the decision log's data and counters
    ([decision.rs]). The file-backed operations are in [RfcStore].

    [RfcId], [AgentId], [SectionPath] and [DecisionId] are transparent string
    newtypes and are strings here. Times are points on an integer axis. The
    TOML crate is the class [Serde RfcFrontmatter]; SHA-256 is the class
    [Sha256], the hex digest of a text's bytes. *)

From Stdlib Require Import NArith ZArith Lia.
From stdpp Require Import base gmap strings option numbers finite countable list list_basics.
From S2P Require Import Prelude Effects Json.

Abbreviation RfcId := str (only parsing).
Abbreviation AgentId := str (only parsing).
Abbreviation SectionPath := str (only parsing).
Abbreviation DecisionId := str (only parsing).
Abbreviation ContentHash := str (only parsing).
Abbreviation Time := Z (only parsing).

(** ** States and transitions *)

Inductive RfcState :=
| DraftEmpty
| DraftActive
| Active
| Archived
| Completed
| Abandoned.

#[export] Instance RfcState_eq_dec : EqDecision RfcState.
Proof. solve_decision. Defined.
#[export] Program Instance RfcState_finite : Finite RfcState :=
  {| enum := [DraftEmpty; DraftActive; Active; Archived; Completed; Abandoned] |}.
Next Obligation. repeat constructor; set_solver. Qed.
Next Obligation. intros []; set_solver. Qed.

Definition is_terminal (s : RfcState) : bool :=
  match s with Completed | Abandoned | Archived => true | _ => false end.

Definition is_draft (s : RfcState) : bool :=
  match s with DraftEmpty | DraftActive => true | _ => false end.

(** The derived [Debug] form, used in messages. *)
Definition state_debug (s : RfcState) : str :=
  match s with
  | DraftEmpty => #"DraftEmpty"
  | DraftActive => #"DraftActive"
  | Active => #"Active"
  | Archived => #"Archived"
  | Completed => #"Completed"
  | Abandoned => #"Abandoned"
  end.

Inductive Transition :=
| ResolveClarifications
| Promote
| Complete
| Abandon
| Reopen.

#[export] Instance Transition_eq_dec : EqDecision Transition.
Proof. solve_decision. Defined.

Record TransitionCtx := mkTransitionCtx {
  tc_open_clarifications : N;
  tc_unreviewed_decisions : N;
  tc_dispatch_done : bool;
}.

Definition TransitionCtx_default : TransitionCtx := mkTransitionCtx 0 0 true.

(** ** Errors *)

Inductive RfcError :=
| ENotFound (rfc_id : RfcId) (operation : str)
| EInvalidState (rfc_id : RfcId) (state : RfcState) (operation action : str)
| ELocked (rfc_id : RfcId) (locked_by : AgentId) (action : str)
| EStaleSnapshot (got expected : ContentHash) (action : str)
| ERationaleRequired (operation : str)
| ESectionGuarded (section : SectionPath) (reason action : str)
| EIo (operation message : str)
| EFrontmatter (message : str)
| EDecisionNotResolvable (rfc_id : RfcId) (decision_id : DecisionId) (reason action : str).

Definition transition_name (t : Transition) : str :=
  match t with
  | ResolveClarifications => #"resolve_clarifications"
  | Promote => #"promote"
  | Complete => #"complete"
  | Abandon => #"abandon"
  | Reopen => #"reopen"
  end.

Definition educational_hint (s : RfcState) (t : Transition) : str :=
  match s, t with
  | DraftEmpty, Promote =>
      #"RFC is in draft-empty. Use orkia_rfc_ask to gather requirements first."
  | Archived, _ => #"This version is archived. Work on the current version instead."
  | (Completed | Abandoned), t =>
      if negb (bool_decide (t = Reopen))
      then #"RFC is in a terminal state. Use `rfc reopen` to start a new version."
      else #"Operation not permitted from this state."
  | _, _ => #"Operation not permitted from this state."
  end.

Definition validate_transition (rfc_id : RfcId) (from : RfcState) (t : Transition)
    (ctx : TransitionCtx) : result RfcError RfcState :=
  match from, t with
  | DraftEmpty, ResolveClarifications =>
      if (tc_open_clarifications ctx =? 0)%N then Ok DraftActive
      else Err (EInvalidState rfc_id from #"resolve_clarifications"
                  (fmt_dec (tc_open_clarifications ctx)
                   ++ #" open clarifications remain. Resolve them before promoting."))
  | DraftActive, Promote =>
      if (0 <? tc_unreviewed_decisions ctx)%N
      then Err (EInvalidState rfc_id from #"promote"
                  (fmt_dec (tc_unreviewed_decisions ctx)
                   ++ #" design decisions await review. Use `rfc review` first."))
      else Ok Active
  | Active, Complete =>
      if negb (tc_dispatch_done ctx)
      then Err (EInvalidState rfc_id from #"complete"
                  #"Dispatch is still running. Wait for jobs to finish.")
      else Ok Completed
  | Active, Abandon | DraftActive, Abandon => Ok Abandoned
  | Active, Reopen | Completed, Reopen | Abandoned, Reopen => Ok DraftActive
  | state, _ => Err (EInvalidState rfc_id state (transition_name t) (educational_hint state t))
  end.

(** ** Tool matrix *)

Inductive RfcTool :=
| GetContext
| State
| ListDecisions
| Ask
| LogDecision
| ProposeEdit
| ProposePromote.

Definition tool_name (t : RfcTool) : str :=
  match t with
  | GetContext => #"orkia_rfc_get_context"
  | State => #"orkia_rfc_state"
  | ListDecisions => #"orkia_rfc_list_decisions"
  | Ask => #"orkia_rfc_ask"
  | LogDecision => #"orkia_rfc_log_decision"
  | ProposeEdit => #"orkia_rfc_propose_edit"
  | ProposePromote => #"orkia_rfc_propose_promote"
  end.

Definition tool_allowed (state : RfcState) (tool : RfcTool) : result str unit :=
  match tool with
  | GetContext | State | ListDecisions => Ok ()
  | _ =>
    match state, tool with
    | (DraftEmpty | DraftActive), Ask => Ok ()
    | Active, Ask =>
        Err #"Active RFCs do not accept ad-hoc clarifications. Use job-level questions instead."
    | DraftEmpty, LogDecision =>
        Err #"RFC is in draft-empty. Use orkia_rfc_ask to gather requirements first."
    | DraftActive, LogDecision => Ok ()
    | Active, LogDecision =>
        Err #"Design decisions during Active are tracked at the job level, not on the RFC."
    | DraftEmpty, ProposeEdit =>
        Err #"RFC in draft-empty. Body sections locked. Resolve clarifications first."
    | DraftActive, ProposeEdit => Ok ()
    | Active, ProposeEdit =>
        Err #"Active RFCs are soft-locked. Use orkia_rfc_propose_amendment (see DISPATCH spec)."
    | DraftActive, ProposePromote => Ok ()
    | state, _ =>
        Err (#"Operation not permitted in " ++ state_debug state
             ++ #". Read-only access via get_context.")
    end
  end.

(** ** Scope and content hash *)

Inductive Scope := Private | Team | Public.

#[export] Instance Scope_eq_dec : EqDecision Scope.
Proof. solve_decision. Defined.
#[export] Program Instance Scope_finite : Finite Scope := {| enum := [Private; Team; Public] |}.
Next Obligation. repeat constructor; set_solver. Qed.
Next Obligation. intros []; set_solver. Qed.

Definition scope_as_str (s : Scope) : str :=
  match s with Private => #"private" | Team => #"team" | Public => #"public" end.

Definition Scope_default : Scope := Private.

(** SHA-256 of the bytes of a text, in hexadecimal. *)
Class Sha256 := sha256_hex : str → str.

Definition content_hash_of `{!Sha256} (body : str) : ContentHash :=
  #"sha256:" ++ sha256_hex body.

(** ** Frontmatter *)

Record OperatorConstraints := mkOperatorConstraints {
  oc_allowed_paths : list str;
  oc_forbidden_paths : list str;
  oc_forbidden_commands : list str;
  oc_risk_ceiling : option str;
  oc_watch_paths : list str;
  oc_contract_paths : list str;
}.

Record OperatorFrontmatterBlock := mkOperatorFrontmatterBlock {
  ob_constraints : option OperatorConstraints;
}.

Record DispatchTaskBlock := mkDispatchTaskBlock {
  dt_id : str;
  dt_agent : str;
  dt_body : str;
  dt_depends_on : list str;
  dt_accept : option str;
  dt_max_attempts : option N;
}.

Record DispatchFrontmatterBlock := mkDispatchFrontmatterBlock {
  db_strategy : str;
  db_max_inflight : N;
  db_aggregation : option str;
  db_on_task_fail : str;
  db_accept : option str;
  db_max_replans : option N;
  db_tasks : list DispatchTaskBlock;
}.

Record ForgeAgentTools := mkForgeAgentTools {
  fat_fetch : bool;
  fat_shell : bool;
  fat_filesystem : bool;
}.

Record ForgeAgentBlock := mkForgeAgentBlock {
  fa_archetype : str;
  fa_description : option str;
  fa_model : option str;
  fa_max_invocations_per_hour : option N;
  fa_max_cost_cents_per_invocation : option N;
  fa_system_prompt : str;
  fa_tools : ForgeAgentTools;
}.

Record ForgeWindow := mkForgeWindow {
  fw_title : str;
  fw_width : N;
  fw_height : N;
  fw_resizable : bool;
}.

Record ForgePermissions := mkForgePermissions {
  fp_storage : bool;
  fp_agent : bool;
  fp_network : list str;
  fp_notification : bool;
}.

Record ForgeFrontmatterBlock := mkForgeFrontmatterBlock {
  ff_name : str;
  ff_description : str;
  ff_icon : option str;
  ff_window : ForgeWindow;
  ff_permissions : ForgePermissions;
  ff_agent : option ForgeAgentBlock;
}.

Record RfcFrontmatter := mkRfcFrontmatter {
  fm_id : RfcId;
  fm_state : RfcState;
  fm_version : N;
  fm_created_at : Time;
  fm_updated_at : Time;
  fm_content_hash : ContentHash;
  fm_agents : list AgentId;
  fm_locked_by : option AgentId;
  fm_locked_at : option Time;
  fm_title : option str;
  fm_status : option str;
  fm_assigned : option (list str);
  fm_kind : option str;
  fm_forge : option ForgeFrontmatterBlock;
  fm_scope : option Scope;
  fm_operator : option OperatorFrontmatterBlock;
  fm_dispatch : option DispatchFrontmatterBlock;
}.

(** Field updates the code makes on a frontmatter it owns. *)
Definition fm_with_state (s : RfcState) (fm : RfcFrontmatter) : RfcFrontmatter :=
  mkRfcFrontmatter (fm_id fm) s (fm_version fm) (fm_created_at fm) (fm_updated_at fm)
    (fm_content_hash fm) (fm_agents fm) (fm_locked_by fm) (fm_locked_at fm) (fm_title fm)
    (fm_status fm) (fm_assigned fm) (fm_kind fm) (fm_forge fm) (fm_scope fm)
    (fm_operator fm) (fm_dispatch fm).

Definition fm_saved (updated_at : Time) (hash : ContentHash) (status : option str)
    (fm : RfcFrontmatter) : RfcFrontmatter :=
  mkRfcFrontmatter (fm_id fm) (fm_state fm) (fm_version fm) (fm_created_at fm) updated_at
    hash (fm_agents fm) (fm_locked_by fm) (fm_locked_at fm) (fm_title fm)
    status (fm_assigned fm) (fm_kind fm) (fm_forge fm) (fm_scope fm)
    (fm_operator fm) (fm_dispatch fm).

Definition DELIM : str := #"+++".
Arguments DELIM : simpl never.

(** [parse_frontmatter]: the text between the opening and the closing
    delimiter is TOML, the rest, less one line feed, is the body. *)
Definition strip_one_nl (s : str) : str := default s (strip_prefix [chr_nl] s).

Arguments strip_one_nl : simpl never.

Definition parse_frontmatter `{!Serde RfcFrontmatter} (content : str)
    : result RfcError (RfcFrontmatter * str) :=
  rest ← ok_or (strip_prefix DELIM content) (EFrontmatter #"missing opening +++");
  let rest := strip_one_nl rest in
  close ← ok_or (find_sub (chr_nl :: DELIM) rest) (EFrontmatter #"missing closing +++");
  let toml_src := take close rest in
  let after := drop (close + 1 + length DELIM) rest in
  let body := strip_one_nl after in
  fm ← map_err EFrontmatter (de toml_src);
  Ok (fm, body).

Definition render_frontmatter `{!Serde RfcFrontmatter} (fm : RfcFrontmatter) (body : str)
    : result RfcError str :=
  toml_src ← map_err EFrontmatter (ser fm);
  let body_norm := if starts_with [chr_nl] body then body else chr_nl :: body in
  Ok (DELIM ++ [chr_nl] ++ toml_src ++ DELIM ++ body_norm).

(** ** Decision log *)

Inductive DecisionKind :=
| Clarification
| ClarificationResolved
| DesignProposed
| DesignReviewed
| DispatchOutput
| AcceptanceVerdict
| GlobalVerdict
| ReplanDecision.

#[export] Instance DecisionKind_eq_dec : EqDecision DecisionKind.
Proof. solve_decision. Defined.
#[export] Program Instance DecisionKind_finite : Finite DecisionKind :=
  {| enum := [Clarification; ClarificationResolved; DesignProposed; DesignReviewed;
              DispatchOutput; AcceptanceVerdict; GlobalVerdict; ReplanDecision] |}.
Next Obligation. repeat constructor; set_solver. Qed.
Next Obligation. intros []; set_solver. Qed.

Definition kind_as_str (k : DecisionKind) : str :=
  match k with
  | Clarification => #"clarification"
  | ClarificationResolved => #"clarification_resolved"
  | DesignProposed => #"design_proposed"
  | DesignReviewed => #"design_reviewed"
  | DispatchOutput => #"dispatch_output"
  | AcceptanceVerdict => #"acceptance_verdict"
  | GlobalVerdict => #"global_verdict"
  | ReplanDecision => #"replan_decision"
  end.

Definition kind_debug (k : DecisionKind) : str :=
  match k with
  | Clarification => #"Clarification"
  | ClarificationResolved => #"ClarificationResolved"
  | DesignProposed => #"DesignProposed"
  | DesignReviewed => #"DesignReviewed"
  | DispatchOutput => #"DispatchOutput"
  | AcceptanceVerdict => #"AcceptanceVerdict"
  | GlobalVerdict => #"GlobalVerdict"
  | ReplanDecision => #"ReplanDecision"
  end.

Inductive DecisionStatus := Open | Resolved | Proposed | Reviewed.

#[export] Instance DecisionStatus_eq_dec : EqDecision DecisionStatus.
Proof. solve_decision. Defined.
#[export] Program Instance DecisionStatus_finite : Finite DecisionStatus :=
  {| enum := [Open; Resolved; Proposed; Reviewed] |}.
Next Obligation. repeat constructor; set_solver. Qed.
Next Obligation. intros []; set_solver. Qed.

Definition status_debug (s : DecisionStatus) : str :=
  match s with
  | Open => #"Open" | Resolved => #"Resolved" | Proposed => #"Proposed" | Reviewed => #"Reviewed"
  end.

Record DecisionRecord := mkDecisionRecord {
  dr_id : DecisionId;
  dr_rfc_id : RfcId;
  dr_rfc_version : N;
  dr_ts : Time;
  dr_actor : AgentId;
  dr_kind : DecisionKind;
  dr_content : json;
  dr_status : DecisionStatus;
  dr_prev_hash : str;
  dr_hash : str;
}.

Definition MAX_DECISION_LOG_BYTES : N := (4 * 1024 * 1024)%N.

Record DecisionCounts := mkDecisionCounts {
  open_clarifications : N;
  unreviewed_decisions : N;
}.

(** [counts_from]: the last record inserted under an id is its state. *)
Definition latest_by_id (records : list DecisionRecord) : gmap DecisionId DecisionRecord :=
  foldl (λ m r, <[dr_id r := r]> m) ∅ records.

Definition count_one (c : DecisionCounts) (r : DecisionRecord) : DecisionCounts :=
  match dr_kind r, dr_status r with
  | Clarification, Open => mkDecisionCounts (open_clarifications c + 1) (unreviewed_decisions c)
  | DesignProposed, Proposed =>
      mkDecisionCounts (open_clarifications c) (unreviewed_decisions c + 1)
  | _, _ => c
  end.

Definition counts_from (records : list DecisionRecord) : DecisionCounts :=
  foldl count_one (mkDecisionCounts 0 0) (map snd (map_to_list (latest_by_id records))).

(** ** Codes for the records, so that a serializer can be instantiated *)

#[export] Instance OperatorConstraints_eq_dec : EqDecision OperatorConstraints.
Proof. solve_decision. Defined.
#[export] Instance OperatorConstraints_countable : Countable OperatorConstraints.
Proof.
  refine (inj_countable'
    (λ x, (oc_allowed_paths x, oc_forbidden_paths x, oc_forbidden_commands x, oc_risk_ceiling x,
       oc_watch_paths x, oc_contract_paths x))
    (λ '(x0, x1, x2, x3, x4, x5), mkOperatorConstraints x0 x1 x2 x3 x4 x5) _).
  by intros [].
Defined.

#[export] Instance OperatorFrontmatterBlock_eq_dec : EqDecision OperatorFrontmatterBlock.
Proof. solve_decision. Defined.
#[export] Instance OperatorFrontmatterBlock_countable : Countable OperatorFrontmatterBlock :=
  inj_countable' ob_constraints mkOperatorFrontmatterBlock
    (λ x, match x with mkOperatorFrontmatterBlock _ => eq_refl end).

#[export] Instance DispatchTaskBlock_eq_dec : EqDecision DispatchTaskBlock.
Proof. solve_decision. Defined.
#[export] Instance DispatchTaskBlock_countable : Countable DispatchTaskBlock.
Proof.
  refine (inj_countable'
    (λ x, (dt_id x, dt_agent x, dt_body x, dt_depends_on x, dt_accept x, dt_max_attempts x))
    (λ '(x0, x1, x2, x3, x4, x5), mkDispatchTaskBlock x0 x1 x2 x3 x4 x5) _).
  by intros [].
Defined.

#[export] Instance DispatchFrontmatterBlock_eq_dec : EqDecision DispatchFrontmatterBlock.
Proof. solve_decision. Defined.
#[export] Instance DispatchFrontmatterBlock_countable : Countable DispatchFrontmatterBlock.
Proof.
  refine (inj_countable'
    (λ x, (db_strategy x, db_max_inflight x, db_aggregation x, db_on_task_fail x, db_accept x,
       db_max_replans x, db_tasks x))
    (λ '(x0, x1, x2, x3, x4, x5, x6), mkDispatchFrontmatterBlock x0 x1 x2 x3 x4 x5 x6) _).
  by intros [].
Defined.

#[export] Instance ForgeAgentTools_eq_dec : EqDecision ForgeAgentTools.
Proof. solve_decision. Defined.
#[export] Instance ForgeAgentTools_countable : Countable ForgeAgentTools.
Proof.
  refine (inj_countable'
    (λ x, (fat_fetch x, fat_shell x, fat_filesystem x))
    (λ '(x0, x1, x2), mkForgeAgentTools x0 x1 x2) _).
  by intros [].
Defined.

#[export] Instance ForgeAgentBlock_eq_dec : EqDecision ForgeAgentBlock.
Proof. solve_decision. Defined.
#[export] Instance ForgeAgentBlock_countable : Countable ForgeAgentBlock.
Proof.
  refine (inj_countable'
    (λ x, (fa_archetype x, fa_description x, fa_model x, fa_max_invocations_per_hour x,
       fa_max_cost_cents_per_invocation x, fa_system_prompt x, fa_tools x))
    (λ '(x0, x1, x2, x3, x4, x5, x6), mkForgeAgentBlock x0 x1 x2 x3 x4 x5 x6) _).
  by intros [].
Defined.

#[export] Instance ForgeWindow_eq_dec : EqDecision ForgeWindow.
Proof. solve_decision. Defined.
#[export] Instance ForgeWindow_countable : Countable ForgeWindow.
Proof.
  refine (inj_countable'
    (λ x, (fw_title x, fw_width x, fw_height x, fw_resizable x))
    (λ '(x0, x1, x2, x3), mkForgeWindow x0 x1 x2 x3) _).
  by intros [].
Defined.

#[export] Instance ForgePermissions_eq_dec : EqDecision ForgePermissions.
Proof. solve_decision. Defined.
#[export] Instance ForgePermissions_countable : Countable ForgePermissions.
Proof.
  refine (inj_countable'
    (λ x, (fp_storage x, fp_agent x, fp_network x, fp_notification x))
    (λ '(x0, x1, x2, x3), mkForgePermissions x0 x1 x2 x3) _).
  by intros [].
Defined.

#[export] Instance ForgeFrontmatterBlock_eq_dec : EqDecision ForgeFrontmatterBlock.
Proof. solve_decision. Defined.
#[export] Instance ForgeFrontmatterBlock_countable : Countable ForgeFrontmatterBlock.
Proof.
  refine (inj_countable'
    (λ x, (ff_name x, ff_description x, ff_icon x, ff_window x, ff_permissions x, ff_agent x))
    (λ '(x0, x1, x2, x3, x4, x5), mkForgeFrontmatterBlock x0 x1 x2 x3 x4 x5) _).
  by intros [].
Defined.

#[export] Instance RfcFrontmatter_eq_dec : EqDecision RfcFrontmatter.
Proof. solve_decision. Defined.
#[export] Instance RfcFrontmatter_countable : Countable RfcFrontmatter.
Proof.
  refine (inj_countable'
    (λ x, (fm_id x, fm_state x, fm_version x, fm_created_at x, fm_updated_at x, fm_content_hash
       x, fm_agents x, fm_locked_by x, fm_locked_at x, fm_title x, fm_status x, fm_assigned x,
       fm_kind x, fm_forge x, fm_scope x, fm_operator x, fm_dispatch x))
    (λ '(x0, x1, x2, x3, x4, x5, x6, x7, x8, x9, x10, x11, x12, x13, x14, x15, x16),
       mkRfcFrontmatter x0 x1 x2 x3 x4 x5 x6 x7 x8 x9 x10 x11 x12 x13 x14 x15 x16) _).
  by intros [].
Defined.

#[export] Instance DecisionRecord_eq_dec : EqDecision DecisionRecord.
Proof. solve_decision. Defined.
#[export] Instance DecisionRecord_countable : Countable DecisionRecord.
Proof.
  refine (inj_countable'
    (λ x, (dr_id x, dr_rfc_id x, dr_rfc_version x, dr_ts x, dr_actor x, dr_kind x, dr_content x,
       dr_status x, dr_prev_hash x, dr_hash x))
    (λ '(x0, x1, x2, x3, x4, x5, x6, x7, x8, x9), mkDecisionRecord x0 x1 x2 x3 x4 x5 x6 x7 x8
       x9) _).
  by intros [].
Defined.

(** *** A concrete TOML stand-in: the bits of the code and a line feed *)

Definition bits_toml : Serde RfcFrontmatter := {|
  ser fm := Ok (pos_bits (encode fm) ++ [chr_nl]);
  de s := ok_or (p ← bits_pos s; decode p) s;
|}.

(** What the code relies on of the TOML crate: the text of a frontmatter ends
    in a line feed, and is read back also without it. *)
Class TomlLaws `{!Serde RfcFrontmatter} : Prop := {
  toml_text fm s : ser fm = Ok s → ∃ t, s = t ++ [chr_nl] ∧ de t = Ok fm;
}.

Lemma bits_toml_ser fm s : @ser _ bits_toml fm = Ok s → s = pos_bits (encode fm) ++ [chr_nl].
Proof. cbn [ser bits_toml]. generalize (pos_bits (encode fm) ++ [chr_nl]). congruence. Qed.

Lemma bits_toml_de fm : @de _ bits_toml (pos_bits (encode fm)) = Ok fm.
Proof.
  cbn [de bits_toml]. rewrite bits_pos_bits. cbn [mbind option_bind].
  rewrite decode_encode. cbn [ok_or]. done.
Qed.

Lemma bits_toml_laws : @TomlLaws bits_toml.
Proof.
  split. intros fm s ->%bits_toml_ser. exists (pos_bits (encode fm)).
  split; [done|]. apply bits_toml_de.
Qed.

(** A frontmatter whose TOML has no line that starts like the delimiter. *)
Definition toml_safe `{!Serde RfcFrontmatter} (fm : RfcFrontmatter) : Prop :=
  ∀ s, ser fm = Ok s → find_sub (chr_nl :: DELIM) s = None.

Lemma bits_toml_safe fm : @toml_safe bits_toml fm.
Proof.
  intros s ->%bits_toml_ser. generalize (encode fm) as p. intros p.
  assert (∀ l : str, (∀ c, c ∈ l → c = 48%N ∨ c = 49%N) →
            find_sub (chr_nl :: DELIM) (l ++ [chr_nl]) = None) as H.
  { induction l as [|c l IH]; intros Hl; [done|]. simpl.
    unfold starts_with. simpl.
    destruct (Hl c) as [->| ->]; [set_solver| |]; simpl;
      rewrite IH; [done|set_solver|done|set_solver]. }
  apply H, pos_bits_chars.
Qed.

(** The same for a table of frontmatters. *)
Definition table_toml (l : list RfcFrontmatter) : Serde RfcFrontmatter := {|
  ser fm := t ← table_text l fm; Ok (t ++ [chr_nl]);
  de := table_value l;
|}.

Lemma table_toml_laws l : @TomlLaws (table_toml l).
Proof.
  split. simpl. intros fm s (t & Ht & [= <-])%result_bind_Ok. exists t. split; [done|].
  by apply table_text_value.
Qed.

Lemma table_toml_safe l fm : @toml_safe (table_toml l) fm.
Proof.
  intros s. simpl. intros (t & Ht & [= <-])%result_bind_Ok.
  assert (∀ c, c ∈ t → c = 48%N) as Hc by (intros c; by apply table_text_chars with l fm).
  clear Ht. induction t as [|c t IH]; [done|]. simpl. unfold starts_with. simpl.
  rewrite (Hc c) by set_solver. simpl. rewrite IH; [done|set_solver].
Qed.

(** ** State machine *)

(** The transitions as a relation: source, intent and guard. *)
Inductive rfc_step (ctx : TransitionCtx) : RfcState → Transition → RfcState → Prop :=
| step_resolve :
    tc_open_clarifications ctx = 0%N → rfc_step ctx DraftEmpty ResolveClarifications DraftActive
| step_promote :
    tc_unreviewed_decisions ctx = 0%N → rfc_step ctx DraftActive Promote Active
| step_complete :
    tc_dispatch_done ctx = true → rfc_step ctx Active Complete Completed
| step_abandon s :
    s = Active ∨ s = DraftActive → rfc_step ctx s Abandon Abandoned
| step_reopen s :
    s = Active ∨ s = Completed ∨ s = Abandoned → rfc_step ctx s Reopen DraftActive.

Lemma validate_transition_step id from t ctx to :
  validate_transition id from t ctx = Ok to ↔ rfc_step ctx from t to.
Proof.
  split.
  - destruct from, t; simpl; try done;
      repeat case_match; intros [= <-]; constructor; try naive_solver.
    + by apply N.eqb_eq.
    + apply N.ltb_ge in H. lia.
    + by destruct (tc_dispatch_done ctx).
  - destruct 1 as [H|H|H|s [->| ->]|s [->|[->| ->]]]; simpl; rewrite ?H; done.
Qed.

Lemma validate_transition_err id from t ctx e :
  validate_transition id from t ctx = Err e →
  ∃ action, e = EInvalidState id from (transition_name t) action.
Proof. destruct from, t; simpl; repeat case_match; naive_solver. Qed.

(** A run of transitions, each with the context of its moment. *)
Fixpoint run_transitions (id : RfcId) (from : RfcState)
    (l : list (Transition * TransitionCtx)) : result RfcError RfcState :=
  match l with
  | [] => Ok from
  | (t, ctx) :: l' => to ← validate_transition id from t ctx; run_transitions id to l'
  end.

Lemma run_transitions_snoc id from l t ctx :
  run_transitions id from (l ++ [(t, ctx)]) =
  (s ← run_transitions id from l; validate_transition id s t ctx).
Proof.
  revert from. induction l as [|[t' ctx'] l IH]; intros from; simpl.
  - by destruct (validate_transition id from t ctx).
  - destruct (validate_transition id from t' ctx'); simpl; auto.
Qed.

(** A run up to now was promoted, with reviewed decisions and no reopening since. *)
Definition promoted_run (id : RfcId) (l : list (Transition * TransitionCtx)) : Prop :=
  ∃ l1 ctx l2, l = l1 ++ (Promote, ctx) :: l2
    ∧ run_transitions id DraftEmpty l1 = Ok DraftActive
    ∧ tc_unreviewed_decisions ctx = 0%N
    ∧ Forall (λ tc, tc.1 ≠ Reopen) l2.

Lemma promoted_run_snoc id l t ctx :
  t ≠ Reopen → promoted_run id l → promoted_run id (l ++ [(t, ctx)]).
Proof.
  intros Ht (l1 & c & l2 & -> & Hr & Hu & Hf). exists l1, c, (l2 ++ [(t, ctx)]).
  split; [by rewrite <- app_assoc|]. split_and!; [done|done|].
  apply Forall_app. auto.
Qed.

Lemma run_never_empty id l s :
  s ≠ DraftEmpty → run_transitions id s l ≠ Ok DraftEmpty.
Proof.
  revert s. induction l as [|[t c] l IH]; intros s Hs; cbn [run_transitions]; [congruence|].
  intros (s' & Hv & Hr)%result_bind_Ok. apply validate_transition_step in Hv.
  eapply IH; [|done]. by destruct Hv.
Qed.

(** The only way out of [DraftEmpty]. *)
Lemma run_first_step id l s :
  run_transitions id DraftEmpty l = Ok s → l ≠ [] →
  s ≠ DraftEmpty ∧ ∃ ctx l', l = (ResolveClarifications, ctx) :: l'
                              ∧ tc_open_clarifications ctx = 0%N.
Proof.
  destruct l as [|[t c] l]; [done|]. cbn [run_transitions].
  intros (s1 & Hv & Hr)%result_bind_Ok _. apply validate_transition_step in Hv.
  inversion Hv; subst; [|naive_solver..].
  split; [|by eexists _, _]. intros ->. by apply run_never_empty in Hr.
Qed.

(** The life cycle of an RFC as the state machine of [state.rs] allows it,
    over every sequence of accepted transitions from a fresh [DraftEmpty]: the
    current version is never [Archived]; it leaves [DraftEmpty] only by resolving
    its clarifications with none left open; and it is [Active] or [Completed] only
    after a promotion out of [DraftActive] that found no unreviewed decision, with
    no reopening since. *)
Theorem rfc_lifecycle id l s :
  run_transitions id DraftEmpty l = Ok s →
  s ≠ Archived
  ∧ (s ≠ DraftEmpty → ∃ ctx l', l = (ResolveClarifications, ctx) :: l'
                                 ∧ tc_open_clarifications ctx = 0%N)
  ∧ (s = Active ∨ s = Completed → promoted_run id l).
Proof.
  revert s. induction l as [|[t ctx] l IH] using rev_ind; intros s Hrun.
  { injection Hrun as <-. naive_solver. }
  destruct (run_first_step _ _ _ Hrun) as [_ Hfirst]; [by destruct l|].
  rewrite run_transitions_snoc, result_bind_Ok in Hrun. destruct Hrun as (s0 & H0 & Hv).
  apply validate_transition_step in Hv. destruct (IH s0 H0) as (_ & _ & IH3).
  split; [by destruct Hv|]. split; [done|].
  destruct Hv as [H|H|H|s1 _|s1 _]; intros [Hs|Hs]; try done.
  - by exists l, ctx, [].
  - apply promoted_run_snoc; auto.
Qed.

Lemma rfc_lifecycle_witness :
  run_transitions #"r" DraftEmpty
    [(ResolveClarifications, TransitionCtx_default); (Promote, TransitionCtx_default);
     (Complete, TransitionCtx_default)] = Ok Completed
  ∧ promoted_run #"r"
      [(ResolveClarifications, TransitionCtx_default); (Promote, TransitionCtx_default);
       (Complete, TransitionCtx_default)].
Proof.
  split; [reflexivity|].
  apply (rfc_lifecycle #"r" _ Completed); [reflexivity|by right].
Defined.

(** The tool matrix agrees with the state machine: reading is always allowed;
    proposing a promotion is allowed exactly in the states from which the state
    machine can promote; in a terminal state every writing tool is refused; and a
    refusal always carries a hint for the agent. *)
Theorem tool_matrix_sound id s tool :
  ((tool = GetContext ∨ tool = State ∨ tool = ListDecisions) → tool_allowed s tool = Ok ())
  ∧ (tool_allowed s ProposePromote = Ok () ↔ ∃ ctx to, validate_transition id s Promote ctx = Ok to)
  ∧ (is_terminal s = true → tool_allowed s tool = Ok () →
       tool = GetContext ∨ tool = State ∨ tool = ListDecisions)
  ∧ (∀ hint, tool_allowed s tool = Err hint → hint ≠ []).
Proof.
  split; [by intros [->|[->| ->]]|]. split.
  { split.
    - destruct s; simpl; try done. intros _. by exists TransitionCtx_default, Active.
    - intros (ctx & to & Hv). apply validate_transition_step in Hv.
      inversion Hv; naive_solver. }
  split.
  - destruct s, tool; simpl; naive_solver.
  - intros hint. destruct s, tool; simpl; intros [= <-]; done.
Qed.

Lemma tool_matrix_sound_witness :
  tool_allowed Completed ListDecisions = Ok ()
  ∧ tool_allowed DraftActive ProposePromote = Ok ().
Proof.
  split.
  - apply (tool_matrix_sound #"r" Completed ListDecisions). by right; right.
  - apply (tool_matrix_sound #"r" DraftActive Ask). by exists TransitionCtx_default, Active.
Defined.

(** ** Frontmatter *)

Lemma find_sub_None_app_l (p t u : str) : find_sub p (t ++ u) = None → find_sub p t = None.
Proof.
  induction t as [|c t IH]; simpl; intros H.
  - destruct (starts_with p []) eqn:E; [|done].
    apply starts_with_true in E as [r Hr]. symmetry in Hr.
    apply app_eq_nil in Hr as [-> ->]. by destruct u.
  - destruct (starts_with p (c :: t ++ u)) eqn:E; [done|]. apply fmap_None in H.
    destruct (starts_with p (c :: t)) eqn:E2; [|by rewrite IH].
    apply starts_with_true in E2 as [r Hr].
    pose proof (starts_with_app p (r ++ u)) as Hs.
    rewrite app_assoc, <- Hr in Hs. simpl in Hs. congruence.
Qed.

Lemma strip_one_nl_cons (s : str) : strip_one_nl (chr_nl :: s) = s.
Proof. done. Qed.

(** Writing an RFC file and reading it back: for a frontmatter whose TOML has
    no line that starts with the delimiter, [parse_frontmatter] of the rendered text
    gives back the same frontmatter and the body, less one leading line feed if the
    body had one. *)
Lemma parse_render_frontmatter `{!Serde RfcFrontmatter, !TomlLaws} fm body text :
  toml_safe fm →
  render_frontmatter fm body = Ok text →
  parse_frontmatter text = Ok (fm, strip_one_nl body).
Proof.
  intros Hsafe. unfold render_frontmatter.
  set (bn := if starts_with [chr_nl] body then body else chr_nl :: body).
  intros (s & Hs & Htext)%result_bind_Ok.
  destruct (ser fm) as [s'|] eqn:Es; [|done]. injection Hs as ->.
  destruct (toml_text _ _ Es) as (t & -> & Ht).
  pose proof (find_sub_None_app_l _ _ _ (Hsafe _ Es)) as Hnone.
  assert (strip_one_nl bn = strip_one_nl body) as Hbn.
  { subst bn. unfold starts_with. destruct (strip_prefix [chr_nl] body) eqn:E; [done|].
    unfold strip_one_nl. by rewrite E. }
  assert (text = DELIM ++ chr_nl :: (t ++ (chr_nl :: DELIM) ++ bn)) as ->.
  { transitivity (DELIM ++ [chr_nl] ++ (t ++ [chr_nl]) ++ DELIM ++ bn); [congruence|].
    by rewrite <- app_assoc. }
  unfold parse_frontmatter. rewrite strip_prefix_app. cbn [ok_or mbind result_bind].
  rewrite strip_one_nl_cons, find_sub_app;
    [|by apply (bool_decide_unpack (chr_nl ∉ DELIM))|done].
  cbn [ok_or mbind result_bind]. rewrite take_app_length, Ht.
  cbn [map_err mbind result_bind]. rewrite <- Hbn.
  replace (length t + 1 + length DELIM) with (length (t ++ chr_nl :: DELIM))
    by (rewrite length_app; simpl; lia).
  by rewrite app_assoc, drop_app_length.
Qed.

(** A small frontmatter for the examples. *)
Definition sample_fm : RfcFrontmatter :=
  mkRfcFrontmatter #"r" DraftActive 1 0 0 #"sha256:0" [] None None (Some #"t") (Some #"draft")
    None None None None None None.

(** ** Decision counters *)

(** The state of a decision is its last record in the log. *)
Definition last_record (id : DecisionId) (records : list DecisionRecord)
    : option DecisionRecord :=
  last (filter (λ r, dr_id r = id) records).

Definition is_open_clarification (r : DecisionRecord) : bool :=
  match dr_kind r, dr_status r with Clarification, Open => true | _, _ => false end.

Definition is_unreviewed_design (r : DecisionRecord) : bool :=
  match dr_kind r, dr_status r with DesignProposed, Proposed => true | _, _ => false end.

Lemma latest_by_id_snoc records r :
  latest_by_id (records ++ [r]) = <[dr_id r := r]> (latest_by_id records).
Proof. unfold latest_by_id. by rewrite foldl_app. Qed.

Lemma latest_by_id_lookup records id : latest_by_id records !! id = last_record id records.
Proof.
  induction records as [|r records IH] using rev_ind; [done|].
  rewrite latest_by_id_snoc. unfold last_record. rewrite filter_app, lookup_insert.
  case_decide as E.
  - rewrite filter_cons_True by done. apply eq_sym, last_snoc.
  - rewrite filter_cons_False by done. by rewrite app_nil_r.
Qed.

Lemma count_list_fold l c :
  foldl count_one c l =
  mkDecisionCounts
    (open_clarifications c + N.of_nat (length (filter (λ r, is_open_clarification r = true) l)))
    (unreviewed_decisions c + N.of_nat (length (filter (λ r, is_unreviewed_design r = true) l))).
Proof.
  revert c. induction l as [|r l IH]; intros c; simpl.
  { destruct c; simpl. by rewrite !N.add_0_r. }
  rewrite IH, !filter_cons. unfold count_one, is_open_clarification, is_unreviewed_design.
  destruct (dr_kind r), (dr_status r); simpl; f_equal; lia.
Qed.

Lemma map_values_count {A} (f : A → bool) (m : gmap str A) :
  length (filter (λ x, f x = true) (map snd (map_to_list m))) =
  size (filter (λ kv, f kv.2 = true) m).
Proof.
  induction m as [|k v m Hk IH] using map_ind.
  { by rewrite map_to_list_empty, map_filter_empty, map_size_empty. }
  rewrite map_to_list_insert by done. cbn [map snd].
  rewrite filter_cons, map_filter_insert. simpl. case_decide as HP; simpl.
  - rewrite map_size_insert_None, IH; [done|]. apply map_lookup_filter_None. by left.
  - by rewrite delete_id.
Qed.

(** [counts_from] counts each decision once, by its last record in the log:
    the open clarifications are the ids whose last record is an open clarification,
    the unreviewed decisions those whose last record is a proposed design, however
    often an id occurs before. *)
Theorem counts_from_latest records :
  ∃ m : gmap DecisionId DecisionRecord,
    (∀ id, m !! id = last_record id records)
    ∧ open_clarifications (counts_from records) =
        N.of_nat (size (filter (λ kv, is_open_clarification kv.2 = true) m))
    ∧ unreviewed_decisions (counts_from records) =
        N.of_nat (size (filter (λ kv, is_unreviewed_design kv.2 = true) m)).
Proof.
  exists (latest_by_id records). split; [apply latest_by_id_lookup|].
  unfold counts_from. rewrite count_list_fold. simpl.
  rewrite !N.add_0_l. split; f_equal; apply map_values_count.
Qed.
