(* ===== verification/RfcStore.v ===== *)
(** * RfcStore: the file-backed RFC store

    [crates/orkia-rfc-core/src/store.rs] and the file operations of
    [decision.rs] ([append], [read_all]), over the faulty file system of [Fs].
    The store is its project directory, a path. Times read from the clock are
    arguments. *)

From Stdlib Require Import NArith ZArith Lia.
From stdpp Require Import base gmap strings option numbers countable list list_basics.
From S2P Require Import Prelude Effects Json Fs RfcCore.

Definition io_err {A} (op : str) (m : M Fs io_error A) : M Fs RfcError A := λ s,
  let '(r, s') := m s in (map_err (λ e, EIo op (io_error_text e)) r, s').

Record RfcRecord := mkRfcRecord {
  rec_fm : RfcFrontmatter;
  rec_body : str;
}.

Definition legacy_status_for (s : RfcState) : str :=
  match s with
  | DraftEmpty | DraftActive => #"draft"
  | Active => #"active"
  | Archived => #"archived"
  | Completed => #"completed"
  | Abandoned => #"abandoned"
  end.

(** [RfcStore::validate_id]: the id is exactly one normal path component. *)
Definition validate_id (id : RfcId) : result RfcError unit :=
  match path_components id with
  | [Normal _] => Ok ()
  | _ => Err (EIo #"validate_rfc_id"
                (#"RfcId " ++ debug_str id
                 ++ #" contains path-traversal characters or is otherwise invalid"))
  end.

Section paths.
Context (project_dir : path).

Definition rfc_path (id : RfcId) : path :=
  path_join (path_join project_dir #"rfcs") (id ++ #".md").

Definition decision_path (id : RfcId) : path :=
  path_join (path_join project_dir #"decisions") (id ++ #".jsonl").

Definition seal_path (id : RfcId) : path :=
  path_join (path_join project_dir #"seal") (id ++ #".seal.jsonl").

Definition rfc_history_dir (id : RfcId) : path :=
  path_join (path_join project_dir #"rfcs") (id ++ #".history").

Definition decision_history_dir (id : RfcId) : path :=
  path_join (path_join project_dir #"decisions") (id ++ #".history").

End paths.

(** ** Decision log files *)

Section store.
Context `{!Sha256, !Serde RfcFrontmatter, !Serde DecisionRecord}.
Context (project_dir : path).

(** [decision::append]: one line, written and synced. [writeln!] writes the
    text and the line feed; a failing write leaves a prefix of both. *)
Definition decision_append (p : path) (record : DecisionRecord) : M Fs RfcError unit :=
  io_err #"decision_mkdir" create_dir_all;;
  io_err #"decision_open" (open_append p);;
  line ← lift (map_err (EIo #"decision_serialize") (ser record));
  io_err #"decision_write" (write_all p (line ++ [chr_nl]));;
  io_err #"decision_fsync" sync_all.

Fixpoint parse_log_lines (i : N) (ls : list str) : result RfcError (list DecisionRecord) :=
  match ls with
  | [] => Ok []
  | line :: ls' =>
      if is_empty (trim line) then parse_log_lines (i + 1) ls'
      else
        r ← map_err (λ e, EFrontmatter (#"decision log line " ++ fmt_dec (i + 1)
                                        ++ #": " ++ e)) (de line);
        rs ← parse_log_lines (i + 1) ls';
        Ok (r :: rs)
  end.

(** [decision::read_all]: a missing file is an empty log, a file over the
    size cap is refused before it is read. *)
Definition decision_read_all (p : path) : M Fs RfcError (list DecisionRecord) :=
  ex ← file_exists p;
  if negb ex then mret []
  else
    io_err #"decision_read" (file_open p);;
    len ← io_err #"decision_read_meta" (file_len p);
    if (MAX_DECISION_LOG_BYTES <? len)%N
    then throw (EIo #"decision_read"
                  (#"decision log exceeds size cap (" ++ fmt_dec len ++ #" > "
                   ++ fmt_dec MAX_DECISION_LOG_BYTES ++ #" bytes)"))
    else
      raw ← io_err #"decision_read_line" (read_to_string p);
      lift (parse_log_lines 0 (lines raw)).

(** ** RFC files *)

(** [write_atomic]: temporary file, sync, rename. *)
Definition write_atomic (id : RfcId) (fm : RfcFrontmatter) (body : str)
    : M Fs RfcError unit :=
  let final_path := rfc_path project_dir id in
  io_err #"rfc_mkdir" create_dir_all;;
  let tmp_path := with_extension final_path #"md.tmp" in
  content ← lift (render_frontmatter fm body);
  io_err #"rfc_tmp_create" (file_create tmp_path);;
  io_err #"rfc_tmp_write" (write_all tmp_path content);;
  io_err #"rfc_tmp_fsync" sync_all;;
  io_err #"rfc_rename" (rename tmp_path final_path).

(** [write_path_atomic]: the same for the archives. *)
Definition write_path_atomic (p : path) (content : str) (op : str) : M Fs RfcError unit :=
  io_err op create_dir_all;;
  let tmp_path := with_extension p #"tmp" in
  io_err op (file_create tmp_path);;
  io_err op (write_all tmp_path content);;
  io_err op sync_all;;
  io_err op (rename tmp_path p).

Definition new_frontmatter (id : RfcId) (title : option str) (assigned : list str)
    (hash : ContentHash) (now : Time) : RfcFrontmatter :=
  mkRfcFrontmatter id DraftEmpty 1 now now hash [] None None title (Some #"draft")
    (if is_empty assigned then None else Some assigned) None None None None None.

Definition create_with_legacy (now : Time) (id : RfcId) (title : option str)
    (assigned : list str) : M Fs RfcError RfcRecord :=
  lift (validate_id id);;
  ex ← file_exists (rfc_path project_dir id);
  if (ex : bool)
  then throw (EFrontmatter (#"RFC " ++ id ++ #" already exists"))
  else
    let body := [] in
    let fm := new_frontmatter id title assigned (content_hash_of body) now in
    write_atomic id fm body;;
    mret (mkRfcRecord fm body).

Definition create (now : Time) (id : RfcId) (title : option str) : M Fs RfcError RfcRecord :=
  lift (validate_id id);;
  create_with_legacy now id title [].

Definition load (id : RfcId) : M Fs RfcError RfcRecord :=
  lift (validate_id id);;
  let p := rfc_path project_dir id in
  ex ← file_exists p;
  if negb ex then throw (ENotFound id #"load")
  else
    raw ← io_err #"rfc_read" (read_to_string p);
    '(fm, body) ← lift (parse_frontmatter raw);
    mret (mkRfcRecord fm body).

Definition save (now : Time) (fm : RfcFrontmatter) (body : str) : M Fs RfcError RfcRecord :=
  lift (validate_id (fm_id fm));;
  let fm := fm_saved now (content_hash_of body) (Some (legacy_status_for (fm_state fm))) fm in
  write_atomic (fm_id fm) fm body;;
  mret (mkRfcRecord fm body).

(** [list]: unreadable and unparsable files are skipped; stable sort by id. *)
Fixpoint insert_by_id (r : RfcRecord) (l : list RfcRecord) : list RfcRecord :=
  match l with
  | [] => [r]
  | x :: l' =>
      if str_leb (fm_id (rec_fm x)) (fm_id (rec_fm r))
      then x :: insert_by_id r l' else r :: l
  end.

Definition sort_by_id (l : list RfcRecord) : list RfcRecord :=
  foldl (λ acc r, insert_by_id r acc) [] l.

Fixpoint list_entries (ps : list path) : M Fs RfcError (list RfcRecord) :=
  match ps with
  | [] => mret []
  | p :: ps' =>
      if negb (bool_decide (last p ≫= file_extension = Some #"md"))
      then list_entries ps'
      else
        raw ← attempt (read_to_string p);
        match (raw ≫= λ raw, map_err (λ _, NotFound) (parse_frontmatter raw)) with
        | Ok (fm, body) => rs ← list_entries ps'; mret (mkRfcRecord fm body :: rs)
        | Err _ => list_entries ps'
        end
  end.

Definition rfc_list : M Fs RfcError (list RfcRecord) :=
  let dir := path_join project_dir #"rfcs" in
  ex ← dir_exists dir;
  if negb ex then mret []
  else
    ps ← io_err #"rfc_listdir" (read_dir dir);
    out ← list_entries ps;
    mret (sort_by_id out).

Definition append_decision (record : DecisionRecord) : M Fs RfcError unit :=
  lift (validate_id (dr_rfc_id record));;
  decision_append (decision_path project_dir (dr_rfc_id record)) record.

Definition read_decisions (id : RfcId) : M Fs RfcError (list DecisionRecord) :=
  lift (validate_id id);;
  decision_read_all (decision_path project_dir id).

Definition decision_counts (id : RfcId) : M Fs RfcError DecisionCounts :=
  records ← read_decisions id;
  mret (counts_from records).

(** The frontmatter [reopen] seeds the next version with. *)
Definition reopened_frontmatter (id : RfcId) (now : Time) (current : RfcRecord)
    : RfcFrontmatter :=
  let fm := rec_fm current in
  mkRfcFrontmatter id DraftActive (u32_succ (fm_version fm)) now now
    (content_hash_of (rec_body current)) [] None None (fm_title fm)
    (Some (legacy_status_for DraftActive)) (fm_assigned fm) (fm_kind fm) (fm_forge fm)
    (fm_scope fm) (fm_operator fm) None.

Definition version_file (n : N) (ext : str) : str := #"v" ++ fmt_dec n ++ ext.

(** The archive of the decision log: copied, the live log stays. *)
Definition archive_decisions (id : RfcId) (n : N) : M Fs RfcError bool :=
  let dec_path := decision_path project_dir id in
  dec_existed ← file_exists dec_path;
  if (dec_existed : bool) then
    dec_bytes ← io_err #"reopen_read_dec" (read_to_string dec_path);
    write_path_atomic
      (path_join (decision_history_dir project_dir id) (version_file n #".jsonl"))
      dec_bytes #"reopen_archive_dec";;
    mret true
  else mret false.

Definition reopen (now : Time) (id : RfcId) : M Fs RfcError RfcRecord :=
  lift (validate_id id);;
  current ← load id;
  let n := fm_version (rec_fm current) in
  let hist_dir := rfc_history_dir project_dir id in
  io_err #"reopen_mkdir_rfc" create_dir_all;;
  let archived_body_path := path_join hist_dir (version_file n #".md") in
  archived_content ←
    lift (render_frontmatter (fm_with_state Archived (rec_fm current)) (rec_body current));
  write_path_atomic archived_body_path archived_content #"reopen_write_archived_rfc";;
  dec_existed ← archive_decisions id n;
  let new_fm := reopened_frontmatter id now current in
  write_atomic id new_fm (rec_body current);;
  (if (dec_existed : bool) then ignore (remove_file (decision_path project_dir id))
   else mret ());;
  mret (mkRfcRecord new_fm (rec_body current)).

End store.

(** ** Paths of valid ids *)

Lemma path_join_dir (base : path) (d : str) :
  chr_slash ∉ d → d ≠ [] → d ≠ #"." → d ≠ #".." → path_join base d = base ++ [d].
Proof.
  intros Hs He Hd Hdd. unfold path_join, path_components, split_char.
  assert (starts_with [chr_slash] d = false) as Hsw.
  { destruct (starts_with [chr_slash] d) eqn:E; [|done].
    apply starts_with_true in E as [t ->]. set_solver. }
  assert (∀ cur, split_char_go chr_slash cur d = [cur ++ d]) as Hsplit.
  { clear -Hs. induction d as [|c d IH]; intros cur; simpl; [by rewrite app_nil_r|].
    destruct (N.eqb_spec c chr_slash) as [->|_]; [set_solver|].
    rewrite IH by set_solver. by rewrite <- app_assoc. }
  rewrite Hsw, Hsplit. simpl. unfold segment_component.
  repeat case_decide; done.
Qed.

Lemma split_char_go_ext sep (cur s : str) :
  ∃ pre lst, split_char_go sep cur s = pre ++ [lst]
    ∧ ∀ ext, sep ∉ ext → split_char_go sep cur (s ++ ext) = pre ++ [lst ++ ext].
Proof.
  revert cur. induction s as [|c s IH]; intros cur; simpl.
  - exists [], cur. split; [done|]. intros ext. revert cur.
    induction ext as [|c ext IH]; intros cur Hext; simpl; [by rewrite app_nil_r|].
    destruct (N.eqb_spec c sep) as [->|_]; [set_solver|].
    rewrite IH by set_solver. simpl. by rewrite <- app_assoc.
  - destruct (c =? sep)%N.
    + destruct (IH []) as (pre & lst & Hs & Ht). exists (cur :: pre), lst.
      split; [by rewrite Hs|]. intros ext Hext. by rewrite (Ht ext Hext).
    + apply IH.
Qed.

Lemma validate_id_components id :
  validate_id id = Ok () → ∃ n, path_components id = [Normal n].
Proof. unfold validate_id. repeat case_match; naive_solver. Qed.

(** The names a list of segments contributes to a path. *)
Definition segment_names (segs : list str) : list str :=
  (segs ≫= segment_component) ≫= component_name.

Lemma path_join_segments (base : path) s :
  starts_with [chr_slash] s = false →
  path_join base s = base ++ segment_names (split_char chr_slash s).
Proof.
  intros H. unfold path_join, path_components, segment_names. rewrite H.
  rewrite bind_app. f_equal.
  destruct (split_char chr_slash s) as [|seg segs]; [done|]. by case_decide.
Qed.

Lemma valid_id_not_absolute id ext :
  validate_id id = Ok () → starts_with [chr_slash] (id ++ ext) = false.
Proof.
  intros (n & Hn)%validate_id_components.
  destruct (starts_with [chr_slash] (id ++ ext)) eqn:E; [exfalso|done].
  apply starts_with_true in E as [t Ht].
  destruct id as [|c id]; [by vm_compute in Hn|].
  injection Ht as -> _. unfold path_components in Hn.
  change (chr_slash :: id) with ([chr_slash] ++ id) in Hn.
  by rewrite starts_with_app in Hn.
Qed.

(** Every path built from a valid id and a file suffix stays below its base:
    a directory part without parent references, then one name. *)
Lemma valid_id_join id :
  validate_id id = Ok () →
  ∃ pre seg, (#".." ∉ pre) ∧
    ∀ base ext, chr_slash ∉ ext → 3 ≤ length ext →
      path_join base (id ++ ext) = base ++ pre ++ [seg ++ ext].
Proof.
  intros Hv. pose proof Hv as (n & Hn)%validate_id_components.
  destruct (split_char_go_ext chr_slash [] id) as (pre & lst & Hs & Ht).
  exists (segment_names pre), lst. split.
  - intros Hin. unfold segment_names in Hin.
    apply list_elem_of_bind in Hin as (c & Hc & Hin).
    assert (c ∈ path_components id) as Hmem.
    { unfold path_components, split_char. rewrite Hs, bind_app. set_solver. }
    rewrite Hn in Hmem. apply list_elem_of_singleton in Hmem as ->.
    apply list_elem_of_singleton in Hc; subst n.
    apply list_elem_of_bind in Hin as (seg & Hseg & _).
    unfold segment_component in Hseg. repeat case_decide; set_solver.
  - intros base ext He Hl. rewrite path_join_segments by by apply valid_id_not_absolute.
    f_equal. unfold split_char. rewrite (Ht ext He). unfold segment_names.
    rewrite !bind_app. f_equal. simpl. rewrite app_nil_r. unfold segment_component.
    assert (3 ≤ length (lst ++ ext)) as Hlen by (rewrite length_app; lia).
    case_decide as H1; [rewrite H1 in Hlen; simpl in Hlen; lia|].
    case_decide as H2; [rewrite H2 in Hlen; vm_compute in Hlen; lia|].
    case_decide as H3; [rewrite H3 in Hlen; vm_compute in Hlen; lia|done].
Qed.

(** A literal without a separator. *)
Ltac not_slash :=
  match goal with |- ?x ∉ ?l => apply (bool_decide_unpack (x ∉ l)); vm_compute; exact I end.

Lemma store_dir (pd : path) (d : str) :
  d = #"rfcs" ∨ d = #"decisions" ∨ d = #"seal" → path_join pd d = pd ++ [d].
Proof.
  intros [->|[->| ->]]; apply path_join_dir; try discriminate; by not_slash.
Qed.

(** Path confinement (SEC-033): for an id that [validate_id] accepts, every path
    the store derives from it (the RFC file, the decision log, the seal log and the
    two history directories) lies strictly below the project directory, in the
    directory of its kind, and has no parent reference. *)
Theorem rfc_paths_confined pd id p :
  validate_id id = Ok () →
  p ∈ [rfc_path pd id; decision_path pd id; seal_path pd id;
       rfc_history_dir pd id; decision_history_dir pd id] →
  ∃ dir rest, p = pd ++ dir :: rest ∧ rest ≠ [] ∧ (#".." ∉ rest)
              ∧ dir ∈ [ #"rfcs"; #"decisions"; #"seal"].
Proof.
  intros (pre & seg & Hpre & Hjoin)%valid_id_join Hp.
  assert (∃ d ext, p = path_join (path_join pd d) (id ++ ext)
            ∧ (d = #"rfcs" ∨ d = #"decisions" ∨ d = #"seal")
            ∧ (chr_slash ∉ ext) ∧ 3 ≤ length ext) as (d & ext & -> & Hd & He & Hl).
  { repeat (apply elem_of_cons in Hp as [->|Hp];
      [eexists _, _; split_and!;
         [done|tauto|not_slash|by apply Nat.leb_le]|]).
    by apply not_elem_of_nil in Hp. }
  rewrite (store_dir _ _ Hd), (Hjoin _ _ He Hl). exists d, (pre ++ [seg ++ ext]).
  rewrite <- app_assoc. split_and!; [done|by destruct pre| |set_solver].
  rewrite not_elem_of_app, list_elem_of_singleton. split; [done|].
  intros Hc%(f_equal length). rewrite length_app in Hc. change (length #"..") with 2 in Hc. lia.
Qed.

Lemma rfc_paths_confined_witness :
  ∃ dir rest, rfc_path [ #"home"] #"auth-pkce" = [ #"home"] ++ dir :: rest
    ∧ rest ≠ [] ∧ (#".." ∉ rest) ∧ dir ∈ [ #"rfcs"; #"decisions"; #"seal"].
Proof.
  apply (rfc_paths_confined [ #"home"] #"auth-pkce"); [reflexivity|apply list_elem_of_here].
Defined.

Lemma split_char_go_sep sep (cur s t : str) :
  split_char_go sep cur (s ++ sep :: t) = split_char_go sep cur s ++ split_char sep t.
Proof.
  revert cur. induction s as [|c s IH]; intros cur; simpl.
  - by rewrite N.eqb_refl.
  - destruct (c =? sep)%N; by rewrite IH.
Qed.

Lemma split_char_go_cons sep (cur s : str) : ∃ x l, split_char_go sep cur s = x :: l.
Proof. revert cur. induction s as [|c s IH]; intros cur; simpl; [|case_match]; eauto. Qed.

(** What the id check does not reject: an id that passes [validate_id] still
    passes with a trailing separator, and the ids with one and with two trailing
    separators name the same RFC file, so an accepted id may contain a slash and
    does not determine its file. *)
Theorem validate_id_trailing_separator pd id :
  validate_id id = Ok () →
  validate_id (id ++ #"/") = Ok ()
  ∧ rfc_path pd (id ++ #"/") = rfc_path pd (id ++ #"//").
Proof.
  intros Hv. pose proof Hv as (n & Hn)%validate_id_components. split.
  - assert (path_components (id ++ #"/") = path_components id) as Heq.
    { unfold path_components. rewrite valid_id_not_absolute by done.
      pose proof (valid_id_not_absolute id [] Hv) as Ha. rewrite app_nil_r in Ha. rewrite Ha.
      unfold split_char. change (id ++ #"/") with (id ++ chr_slash :: []).
      rewrite split_char_go_sep. destruct (split_char_go_cons chr_slash [] id) as (x & l & ->).
      simpl. by rewrite bind_app, app_nil_r. }
    unfold validate_id. by rewrite Heq, Hn.
  - unfold rfc_path. rewrite <- !app_assoc.
    rewrite !(path_join_segments _ (id ++ _)) by by apply valid_id_not_absolute.
    f_equal. unfold split_char.
    change (id ++ #"/" ++ #".md") with (id ++ chr_slash :: #".md").
    change (id ++ #"//" ++ #".md") with (id ++ chr_slash :: chr_slash :: #".md").
    rewrite !split_char_go_sep. unfold segment_names. rewrite !bind_app. reflexivity.
Qed.

Lemma validate_id_trailing_separator_witness :
  validate_id #"a/" = Ok () ∧ rfc_path [] #"a/" = rfc_path [] #"a//".
Proof. apply (validate_id_trailing_separator [] #"a"). reflexivity. Defined.

(** ** Atomic replacement of a file *)

Lemma hoare_io_err {A} op (m : M Fs io_error A) P (Q : A → Fs → Prop) R :
  hoare P m Q R → hoare P (io_err op m) Q R.
Proof.
  intros H s Hs. specialize (H s Hs). unfold io_err. by destruct (m s) as [[a|e] s'].
Qed.

(** The files are those of [m], except possibly at [tmp]. *)
Definition agree_except (tmp : path) (m : gmap path str) (s : Fs) : Prop :=
  ∀ q, q ≠ tmp → fs_files s !! q = m !! q.

Lemma hoare_create_tmp tmp m :
  hoare (agree_except tmp m) (file_create tmp)
    (λ _ s, agree_except tmp m s ∧ fs_files s !! tmp = Some []) (agree_except tmp m).
Proof.
  apply (hoare_syscall _ (λ f, ∀ q, q ≠ tmp → f !! q = m !! q)); [|done].
  apply hoare_modify. intros s Hs. split; simpl; [|by rewrite lookup_insert_eq].
  intros q Hq. simpl. rewrite lookup_insert_ne by done. by apply Hs.
Qed.

Lemma hoare_write_tmp tmp m c :
  hoare (λ s, agree_except tmp m s ∧ fs_files s !! tmp = Some []) (write_all tmp c)
    (λ _ s, agree_except tmp m s ∧ fs_files s !! tmp = Some c) (agree_except tmp m).
Proof.
  intros s [Ha Ht]. unfold write_all. destruct (next_fault s) as [f s1] eqn:E.
  apply next_fault_files in E. unfold set_files, append_text. rewrite E, Ht.
  destruct f; [split; [|by apply lookup_insert_eq]|];
    intros q Hq; simpl; rewrite lookup_insert_ne by done; by apply Ha.
Qed.

Lemma hoare_sync tmp m c :
  hoare (λ s, agree_except tmp m s ∧ fs_files s !! tmp = Some c) sync_all
    (λ _ s, agree_except tmp m s ∧ fs_files s !! tmp = Some c) (agree_except tmp m).
Proof.
  apply (hoare_syscall _ (λ f, (∀ q, q ≠ tmp → f !! q = m !! q) ∧ f !! tmp = Some c));
    [by apply hoare_ret|by intros s []].
Qed.

Lemma hoare_rename_tmp tmp p m c :
  hoare (λ s, agree_except tmp m s ∧ fs_files s !! tmp = Some c) (rename tmp p)
    (λ _ s, fs_files s = <[p := c]> (delete tmp m)) (agree_except tmp m).
Proof.
  apply (hoare_syscall _ (λ f, (∀ q, q ≠ tmp → f !! q = m !! q) ∧ f !! tmp = Some c));
    [|by intros s []].
  intros s [Ha Ht]. rewrite Ht. simpl. f_equal. apply map_eq. intros q.
  destruct (decide (q = tmp)) as [->|Hq]; [by rewrite !lookup_delete_eq|].
  rewrite !lookup_delete_ne by done. by apply Ha.
Qed.

(** Temporary file, sync, rename: a failure anywhere changes no file but the
    temporary one, success replaces exactly the target. *)
Lemma hoare_atomic_write o1 o2 o3 o4 tmp p c m :
  hoare (λ s, fs_files s = m)
    (io_err o1 (file_create tmp);; io_err o2 (write_all tmp c);;
     io_err o3 sync_all;; io_err o4 (rename tmp p))
    (λ _ s, fs_files s = <[p := c]> (delete tmp m)) (agree_except tmp m).
Proof.
  apply (hoare_conseq _ (agree_except tmp m) _ (λ _ s, fs_files s = <[p := c]> (delete tmp m))
           _ (agree_except tmp m)); [|by intros s Hs q _; rewrite Hs|done|done].
  eapply hoare_bind; [apply hoare_io_err, hoare_create_tmp|intros []].
  eapply hoare_bind; [apply hoare_io_err, hoare_write_tmp|intros []].
  eapply hoare_bind; [apply hoare_io_err, hoare_sync|intros []].
  apply hoare_io_err, hoare_rename_tmp.
Qed.

Lemma with_extension_last (pre : path) name ext :
  with_extension (pre ++ [name]) ext = pre ++ [file_stem name ++ #"." ++ ext].
Proof.
  unfold with_extension. rewrite last_snoc, length_app. simpl.
  replace (length pre + 1 - 1) with (length pre) by lia. by rewrite take_app_length.
Qed.

(** A name never equals its own temporary name when the last characters of
    the name and of the temporary extension differ. *)
Lemma with_extension_ne (pre : path) name ext c d :
  last name = Some c → last ext = Some d → c ≠ d →
  with_extension (pre ++ [name]) ext ≠ pre ++ [name].
Proof.
  intros Hc Hd Hne. rewrite with_extension_last. intros H%app_inv_head.
  assert (last (file_stem name ++ #"." ++ ext) = Some d) as He
    by (by rewrite app_assoc, last_app, Hd).
  congruence.
Qed.

Lemma hoare_mkdir (op : str) (P : gmap path str → Prop) :
  hoare (λ s, P (fs_files s)) (io_err op create_dir_all) (λ _ s, P (fs_files s))
    (λ s, P (fs_files s)).
Proof. apply hoare_io_err, hoare_syscall; [by apply hoare_ret|done]. Qed.

Section atomic.
Context `{!Sha256, !Serde RfcFrontmatter, !Serde DecisionRecord}.
Context (project_dir : path).
Implicit Types (m : gmap path str) (id : RfcId).

Abbreviation rfc_tmp id := (with_extension (rfc_path project_dir id) #"md.tmp").

Lemma hoare_write_atomic id fm body m :
  hoare (λ s, fs_files s = m) (write_atomic project_dir id fm body)
    (λ _ s, ∃ text, render_frontmatter fm body = Ok text
                    ∧ fs_files s = <[rfc_path project_dir id := text]> (delete (rfc_tmp id) m))
    (agree_except (rfc_tmp id) m).
Proof.
  unfold write_atomic.
  eapply hoare_bind; [eapply hoare_conseq; [apply (hoare_mkdir _ (λ f, f = m))|done|done|]|intros []].
  { by intros s Hs q _; rewrite Hs. }
  eapply hoare_bind; [apply (hoare_lift _ _ (λ text s,
    render_frontmatter fm body = Ok text ∧ fs_files s = m)); [done|]|intros text].
  { by intros s Hs q _; rewrite Hs. }
  intros s [Ht Hs]. pose proof (hoare_atomic_write #"rfc_tmp_create" #"rfc_tmp_write"
    #"rfc_tmp_fsync" #"rfc_rename" (rfc_tmp id) (rfc_path project_dir id) text m s Hs) as Hw.
  destruct (mbind (M:=M Fs RfcError) _ _ s) as [[[]|e] s']; [eauto|done].
Qed.

Lemma hoare_write_path_atomic p content op m :
  hoare (λ s, fs_files s = m) (write_path_atomic p content op)
    (λ _ s, fs_files s = <[p := content]> (delete (with_extension p #"tmp") m))
    (agree_except (with_extension p #"tmp") m).
Proof.
  unfold write_path_atomic.
  eapply hoare_bind; [eapply hoare_conseq; [apply (hoare_mkdir _ (λ f, f = m))|done|done|]|intros []].
  { by intros s Hs q _; rewrite Hs. }
  apply hoare_atomic_write.
Qed.

Lemma rfc_tmp_ne id : validate_id id = Ok () → rfc_tmp id ≠ rfc_path project_dir id.
Proof.
  intros (pre & seg & _ & Hjoin)%valid_id_join. unfold rfc_path.
  rewrite (Hjoin _ #".md"), app_assoc; [|not_slash|by apply Nat.leb_le].
  eapply with_extension_ne; [by rewrite last_app|done|done].
Qed.

(** What [save] does on every outcome, path by path. *)
Lemma save_cases now fm body s :
  let p := rfc_path project_dir (fm_id fm) in
  let '(r, s') := save project_dir now fm body s in
  (∀ q, q ≠ p → q ≠ rfc_tmp (fm_id fm) → fs_files s' !! q = fs_files s !! q)
  ∧ match r with
    | Ok rec =>
        (∃ text, render_frontmatter (rec_fm rec) body = Ok text ∧ fs_files s' !! p = Some text)
        ∧ rec = mkRfcRecord (fm_saved now (content_hash_of body)
                  (Some (legacy_status_for (fm_state fm))) fm) body
    | Err _ => fs_files s' !! p = fs_files s !! p
    end.
Proof.
  unfold save, mbind at 1, M_bind at 1, lift.
  destruct (validate_id (fm_id fm)) as [[]|e] eqn:Hv; [|done].
  set (fm' := fm_saved _ _ _ _). unfold mbind, M_bind.
  pose proof (hoare_write_atomic (fm_id fm) fm' body (fs_files s) s eq_refl) as Hw.
  change (fm_id fm') with (fm_id fm). simpl.
  destruct (write_atomic _ _ _ _ s) as [[[]|e] s'].
  - destruct Hw as (text & Ht & Hf). simpl. rewrite Hf. split; [|split; [|done]].
    + intros q Hq1 Hq2. by rewrite lookup_insert_ne, lookup_delete_ne.
    + exists text. split; [done|]. by rewrite lookup_insert_eq.
  - split; [intros q _ Hq; by apply Hw|]. apply Hw. apply not_eq_sym. by apply rfc_tmp_ne.
Qed.

(** The last character of the files' names. *)
Lemma valid_path_last id d ext :
  validate_id id = Ok () → d = #"rfcs" ∨ d = #"decisions" ∨ d = #"seal" →
  chr_slash ∉ ext → 3 ≤ length ext →
  ∃ name, last (path_join (path_join project_dir d) (id ++ ext)) = Some name
          ∧ last name = last ext.
Proof.
  intros (pre & seg & _ & Hj)%valid_id_join Hd He Hl.
  rewrite (store_dir _ _ Hd), (Hj _ _ He Hl), app_assoc, last_snoc.
  eexists. split; [done|]. rewrite last_app. by destruct ext using rev_ind; [simpl in Hl; lia|rewrite last_snoc].
Qed.

Lemma with_extension_last_char (p : path) ext c name :
  last ext = Some c → last (with_extension p ext) = Some name → last name = Some c.
Proof.
  intros Hc. destruct p as [|x p] using rev_ind; [done|].
  rewrite with_extension_last, last_snoc. intros Hn. apply (inj Some) in Hn. subst name.
  by rewrite app_assoc, last_app, Hc.
Qed.

(** No temporary file is an RFC file or a decision log. *)
Lemma tmp_not_live (p : path) id :
  validate_id id = Ok () →
  with_extension p #"md.tmp" ≠ rfc_path project_dir id
  ∧ with_extension p #"md.tmp" ≠ decision_path project_dir id.
Proof.
  intros Hv. split; intros E.
  - destruct (valid_path_last id #"rfcs" #".md" Hv) as (name & Hn & Hl);
      [auto|not_slash|by apply Nat.leb_le|].
    change (last (rfc_path project_dir id) = Some name) in Hn. rewrite <- E in Hn.
    eapply with_extension_last_char in Hn; [|reflexivity]. by rewrite Hl in Hn.
  - destruct (valid_path_last id #"decisions" #".jsonl" Hv) as (name & Hn & Hl);
      [auto|not_slash|by apply Nat.leb_le|].
    change (last (decision_path project_dir id) = Some name) in Hn. rewrite <- E in Hn.
    eapply with_extension_last_char in Hn; [|reflexivity]. by rewrite Hl in Hn.
Qed.

Lemma rfc_not_decision id1 id2 :
  validate_id id1 = Ok () → validate_id id2 = Ok () →
  rfc_path project_dir id1 ≠ decision_path project_dir id2.
Proof.
  intros (pre & seg & _ & Hj)%valid_id_join (pre2 & seg2 & _ & Hj2)%valid_id_join.
  unfold rfc_path, decision_path.
  rewrite (store_dir _ #"rfcs"), (store_dir _ #"decisions") by auto.
  rewrite (Hj _ #".md"), (Hj2 _ #".jsonl") by first [not_slash|by apply Nat.leb_le].
  rewrite <- !app_assoc. intros [=]%app_inv_head.
Qed.

(** Which live files can differ between two states. *)
Definition live_same_except (id : RfcId) m (s : Fs) : Prop :=
  ∀ id', validate_id id' = Ok () →
    fs_files s !! decision_path project_dir id' = m !! decision_path project_dir id'
    ∧ (rfc_path project_dir id' ≠ rfc_path project_dir id →
       fs_files s !! rfc_path project_dir id' = m !! rfc_path project_dir id').

Lemma save_live now fm body s :
  live_same_except (fm_id fm) (fs_files s) (save project_dir now fm body s).2.
Proof.
  intros id' Hv'. destruct (validate_id (fm_id fm)) as [[]|e] eqn:Hv.
  2: { unfold save, mbind, M_bind, lift. by rewrite Hv. }
  pose proof (save_cases now fm body s) as H1.
  destruct (save project_dir now fm body s) as [r s']. destruct H1 as [Hq _]. simpl.
  destruct (tmp_not_live (rfc_path project_dir (fm_id fm)) id' Hv').
  split; [|intros Hne]; apply Hq; try done.
  apply not_eq_sym. by apply rfc_not_decision.
Qed.

(** C19: Crash safety of [save] under every sequence of file-system failures: no decision
    log and no other RFC's file changes; on success the RFC's file holds the whole
    rendered text of the saved record, whose hash is that of the body and whose
    legacy status follows the state; on any error the file is the one before. *)
Theorem save_atomic now fm body s :
  let p := rfc_path project_dir (fm_id fm) in
  let '(r, s') := save project_dir now fm body s in
  live_same_except (fm_id fm) (fs_files s) s'
  ∧ match r with
    | Ok rec =>
        (∃ text, render_frontmatter (rec_fm rec) body = Ok text ∧ fs_files s' !! p = Some text)
        ∧ rec = mkRfcRecord (fm_saved now (content_hash_of body)
                  (Some (legacy_status_for (fm_state fm))) fm) body
    | Err _ => fs_files s' !! p = fs_files s !! p
    end.
Proof.
  pose proof (save_cases now fm body s) as H1. pose proof (save_live now fm body s) as H2.
  destruct (save project_dir now fm body s) as [r s']. by destruct H1.
Qed.

Lemma save_Ok now fm body s rec s' :
  save project_dir now fm body s = (Ok rec, s') →
  validate_id (fm_id fm) = Ok ()
  ∧ rec = mkRfcRecord (fm_saved now (content_hash_of body)
            (Some (legacy_status_for (fm_state fm))) fm) body
  ∧ ∃ text, render_frontmatter (rec_fm rec) body = Ok text
            ∧ fs_files s' !! rfc_path project_dir (fm_id fm) = Some text.
Proof.
  unfold save. intros ([] & s1 & Hv & Hs)%M_bind_Ok. injection Hv as Hv <-.
  apply M_bind_Ok in Hs as ([] & s2 & Hw & [= <- <-]). split_and!; [done|done|].
  destruct (hoare_ok _ _ _ _ _ _ _ Hw (hoare_write_atomic _ _ _ _) eq_refl)
    as (text & Ht & Hf). exists text. split; [done|].
  rewrite Hf. by rewrite lookup_insert_eq.
Qed.

(** Round trip through the disk: after a successful [save], [load] of the same id
    returns the saved frontmatter, with the content hash of the body that was given,
    and the body less one leading line feed, whenever the TOML of the frontmatter has
    no line that starts like the delimiter. *)
Theorem save_load_roundtrip `{!TomlLaws} now fm body s rec s' :
  save project_dir now fm body s = (Ok rec, s') →
  toml_safe (rec_fm rec) →
  fs_faults s' = [] →
  load project_dir (fm_id fm) s' = (Ok (mkRfcRecord (rec_fm rec) (strip_one_nl body)), s')
  ∧ fm_content_hash (rec_fm rec) = content_hash_of body.
Proof.
  intros (Hv & Hrec & text & Ht & Hf)%save_Ok Hsafe Hnf. split; [|by subst rec].
  unfold load, mbind, M_bind, lift, file_exists, gets. rewrite Hv, Hf.
  rewrite bool_decide_true by eauto. simpl.
  destruct s' as [m fl]. simpl in Hnf, Hf. subst fl.
  unfold io_err, read_to_string. rewrite syscall_no_fault. simpl. rewrite Hf. simpl.
  by rewrite (parse_render_frontmatter _ _ _ Hsafe Ht).
Qed.

End atomic.

Definition bits_sha256 : Sha256 := λ s, s.

Definition sample_saved : result RfcError RfcRecord * Fs :=
  @save bits_sha256 bits_toml [] 5 sample_fm #"body" (mkFs ∅ []).

Definition sample_rec : RfcRecord :=
  mkRfcRecord (fm_saved 5 (@content_hash_of bits_sha256 #"body") (Some #"draft") sample_fm) #"body".

Lemma save_load_roundtrip_witness :
  @load bits_toml [] #"r" sample_saved.2 = (Ok sample_rec, sample_saved.2).
Proof.
  refine (proj1 (@save_load_roundtrip bits_sha256 bits_toml [] bits_toml_laws 5 sample_fm #"body"
    (mkFs ∅ []) sample_rec sample_saved.2 _ _ _)).
  - reflexivity.
  - apply bits_toml_safe.
  - reflexivity.
Defined.

(** ** Reads leave the files alone *)

Lemma files_kept_io_err {A} op (m : M Fs io_error A) : files_kept m → files_kept (io_err op m).
Proof. intros Hm s. specialize (Hm s). unfold io_err. by destruct (m s). Qed.

Ltac kept :=
  repeat first
    [ apply files_kept_bind; [|intros ?]
    | apply files_kept_io_err
    | apply files_kept_attempt
    | apply files_kept_syscall; intros ?; reflexivity
    | apply files_kept_pure; intros ?; reflexivity
    | case_match ].

Section reads.
Context `{!Serde RfcFrontmatter, !Serde DecisionRecord}.
Context (project_dir : path).

Lemma load_kept id : files_kept (load project_dir id).
Proof. unfold load. kept. Qed.

Lemma read_decisions_kept id : files_kept (read_decisions project_dir id).
Proof. unfold read_decisions, decision_read_all. kept. Qed.

Lemma decision_counts_kept id : files_kept (decision_counts project_dir id).
Proof.
  apply files_kept_bind; [apply read_decisions_kept|]. intros ?. by apply files_kept_pure.
Qed.

Lemma list_entries_kept ps : files_kept (list_entries ps).
Proof. induction ps as [|p ps IH]; simpl; kept; done. Qed.

Lemma rfc_list_kept : files_kept (rfc_list project_dir).
Proof.
  unfold rfc_list. apply files_kept_bind; [by apply files_kept_pure|intros ex].
  destruct ex; simpl; [|by apply files_kept_pure].
  apply files_kept_bind; [kept|intros ps].
  apply files_kept_bind; [apply list_entries_kept|intros ?]. by apply files_kept_pure.
Qed.

End reads.

(** *** and without faults they leave the whole state alone *)

Definition still {E A} (m : M Fs E A) : Prop := ∀ f, (m (mkFs f [])).2 = mkFs f [].

Lemma still_bind {E A B} (m : M Fs E A) (k : A → M Fs E B) :
  still m → (∀ a, still (k a)) → still (m ≫= k).
Proof.
  intros Hm Hk f. unfold mbind, M_bind. specialize (Hm f).
  destruct (m (mkFs f [])) as [[a|e] s1]; simpl in *; [subst; apply Hk|done].
Qed.

Lemma still_io_err {A} op (m : M Fs io_error A) : still m → still (io_err op m).
Proof. intros Hm f. specialize (Hm f). unfold io_err. by destruct (m (mkFs f [])). Qed.

Lemma read_decisions_still `{!Serde DecisionRecord} (pd : path) id : still (read_decisions pd id).
Proof.
  unfold read_decisions, decision_read_all.
  repeat first [apply still_bind; [|intros ?] | apply still_io_err | case_match
               | by intros f].
Qed.

(** ** Reopening *)

Section reopening.
Context `{!Sha256, !Serde RfcFrontmatter, !Serde DecisionRecord}.
Context (project_dir : path).
Implicit Types (m : gmap path str) (id : RfcId).

Abbreviation archive_path id n :=
  (path_join (rfc_history_dir project_dir id) (version_file n #".md")).
Abbreviation dec_archive_path id n :=
  (path_join (decision_history_dir project_dir id) (version_file n #".jsonl")).

Lemma fmt_dec_digit n c : c ∈ fmt_dec n → (48 ≤ c ≤ 57)%N.
Proof.
  unfold fmt_dec. generalize (N.to_uint n). intros d.
  induction d; simpl; [set_solver|..]; intros [->|?]%elem_of_cons; auto; lia.
Qed.

Lemma path_join_version (base : path) n ext :
  chr_slash ∉ ext → path_join base (version_file n ext) = base ++ [version_file n ext].
Proof.
  intros He. apply path_join_dir; [|done..].
  unfold version_file. rewrite !not_elem_of_app. split_and!; [not_slash| |done].
  intros Hd%fmt_dec_digit. unfold chr_slash in Hd. lia.
Qed.

(** Where the files of a version live. *)
Lemma reopen_path_shapes id n :
  validate_id id = Ok () →
  ∃ pre x y t h k u v,
    rfc_path project_dir id = project_dir ++ #"rfcs" :: pre ++ [x]
    ∧ decision_path project_dir id = project_dir ++ #"decisions" :: pre ++ [y]
    ∧ with_extension (rfc_path project_dir id) #"md.tmp" = project_dir ++ #"rfcs" :: pre ++ [t]
    ∧ archive_path id n = project_dir ++ #"rfcs" :: pre ++ [h; version_file n #".md"]
    ∧ with_extension (archive_path id n) #"tmp" = project_dir ++ #"rfcs" :: pre ++ [h; u]
    ∧ dec_archive_path id n = project_dir ++ #"decisions" :: pre ++ [k; version_file n #".jsonl"]
    ∧ with_extension (dec_archive_path id n) #"tmp" = project_dir ++ #"decisions" :: pre ++ [k; v].
Proof.
  intros (pre & seg & _ & Hj)%valid_id_join.
  assert (∀ d ext, d = #"rfcs" ∨ d = #"decisions" ∨ d = #"seal" → chr_slash ∉ ext →
            3 ≤ length ext → path_join (path_join project_dir d) (id ++ ext) =
            project_dir ++ d :: pre ++ [seg ++ ext]) as Hp.
  { intros d ext Hd He Hl. rewrite (store_dir _ _ Hd), (Hj _ _ He Hl). by rewrite <- app_assoc. }
  assert (∀ d a x ext, with_extension (project_dir ++ d :: pre ++ a ++ [x]) ext =
            project_dir ++ d :: pre ++ a ++ [file_stem x ++ #"." ++ ext]) as Hx.
  { intros d a x ext. replace (project_dir ++ d :: pre ++ a ++ [x])
      with ((project_dir ++ d :: pre ++ a) ++ [x]) by (by rewrite <- app_assoc, <- app_comm_cons, <- app_assoc).
    rewrite with_extension_last. by rewrite <- app_assoc, <- app_comm_cons, <- app_assoc. }
  rewrite !path_join_version by not_slash.
  unfold rfc_path, decision_path, rfc_history_dir, decision_history_dir.
  rewrite !Hp by first [not_slash | by apply Nat.leb_le | by auto].
  eexists pre, _, _, _, _, _, _, _. split_and!; [done|done|apply (Hx _ [])|..].
  - by rewrite <- app_assoc, <- app_comm_cons, <- app_assoc.
  - rewrite <- app_assoc, <- app_comm_cons, <- app_assoc. apply (Hx _ [_]).
  - by rewrite <- app_assoc, <- app_comm_cons, <- app_assoc.
  - rewrite <- app_assoc, <- app_comm_cons, <- app_assoc. apply (Hx _ [_]).
Qed.

Lemma below_ne_dir (pd : path) d1 d2 r1 r2 : d1 ≠ d2 → pd ++ d1 :: r1 ≠ pd ++ d2 :: r2.
Proof. intros Hd [= ??]%app_inv_head. done. Qed.

Lemma below_ne_len (pd : path) d1 d2 pre l1 l2 :
  length l1 ≠ length l2 → pd ++ d1 :: pre ++ l1 ≠ pd ++ d2 :: pre ++ l2.
Proof. intros Hd [= _ ?%app_inv_head]%app_inv_head. congruence. Qed.

Lemma rfcs_ne_decisions : #"rfcs" ≠ #"decisions".
Proof. discriminate. Qed.

(** The live files, the archives and the temporary files are distinct. *)
Lemma reopen_paths_distinct id n :
  validate_id id = Ok () →
  let p := rfc_path project_dir id in
  let d := decision_path project_dir id in
  let tp := with_extension p #"md.tmp" in
  let a := archive_path id n in
  let ta := with_extension a #"tmp" in
  let b := dec_archive_path id n in
  let tb := with_extension b #"tmp" in
  p ≠ d ∧ tp ≠ d ∧ (∀ q, q ∈ [a; ta; b; tb] → q ≠ p ∧ q ≠ d ∧ q ≠ tp)
  ∧ a ≠ b ∧ a ≠ tb.
Proof.
  intros (pre & x & y & t & h & k & u & v & Hp & Hd & Ht & Ha & Hta & Hb & Htb)
    %(λ H, reopen_path_shapes id n H). intros p d tp a ta b tb.
  fold p in Hp, Ht. fold d in Hd. fold tp in Ht. fold a in Ha, Hta. fold ta in Hta.
  fold b in Hb, Htb. fold tb in Htb. clearbody p d tp a ta b tb. subst.
  pose proof rfcs_ne_decisions.
  split_and!; try (by apply below_ne_dir).
  intros q Hq. split_and!; intros ->;
    repeat (apply elem_of_cons in Hq as [Hq|Hq]; [revert Hq|]);
    try (by apply not_elem_of_nil in Hq); apply below_ne_len; simpl; lia.
Qed.

Lemma hoare_load id m :
  hoare (λ s, fs_files s = m) (load project_dir id)
    (λ cur s, fs_files s = m ∧ validate_id id = Ok ()
       ∧ ∃ raw, m !! rfc_path project_dir id = Some raw
                ∧ parse_frontmatter raw = Ok (rec_fm cur, rec_body cur))
    (λ s, fs_files s = m).
Proof.
  intros s Hs. unfold load, mbind, M_bind, lift, file_exists, gets.
  destruct (validate_id id) as [[]|e] eqn:Hv; [|done].
  destruct (bool_decide _); [simpl|done]. unfold io_err, read_to_string.
  destruct (syscall_cases (λ s, (ok_or (fs_files s !! rfc_path project_dir id) NotFound, s)) s)
    as [(s' & Hf & ->)|(s' & msg & Hf & ->)]; simpl; rewrite Hf, Hs; [|done].
  destruct (m !! rfc_path project_dir id) as [raw|] eqn:Hraw; simpl; [|congruence].
  destruct (parse_frontmatter raw) as [[fm body]|e] eqn:Hp; [|simpl; congruence].
  split_and!; [congruence|done|]. by exists raw.
Qed.

Lemma hoare_archive_decisions id n m :
  hoare (λ s, fs_files s = m) (archive_decisions project_dir id n)
    (λ ex s, if ex : bool
             then ∃ log, m !! decision_path project_dir id = Some log
                    ∧ fs_files s = <[dec_archive_path id n := log]>
                                     (delete (with_extension (dec_archive_path id n) #"tmp") m)
             else m !! decision_path project_dir id = None ∧ fs_files s = m)
    (agree_except (with_extension (dec_archive_path id n) #"tmp") m).
Proof.
  intros s Hs. unfold archive_decisions, mbind at 1, M_bind at 1, file_exists, gets. rewrite Hs.
  destruct (m !! decision_path project_dir id) as [log|] eqn:Hl; [|by rewrite bool_decide_false by by intros []].
  rewrite bool_decide_true by eauto. unfold mbind at 1, M_bind at 1, io_err, read_to_string.
  destruct (syscall_cases (λ s, (ok_or (fs_files s !! decision_path project_dir id) NotFound, s)) s)
    as [(s' & Hf & ->)|(s' & msg & Hf & ->)]; simpl; [|by intros q _; rewrite Hf, Hs].
  rewrite Hf, Hs, Hl. simpl. unfold mbind, M_bind.
  pose proof (hoare_write_path_atomic (dec_archive_path id n) log #"reopen_archive_dec" m s'
    (eq_trans Hf Hs)) as Hw.
  destruct (write_path_atomic _ _ _ s') as [[[]|e] s2]; [by exists log|done].
Qed.

(** The live files of [id] in [s] are those of [m]. *)
Definition live_kept id m (s : Fs) : Prop :=
  fs_files s !! rfc_path project_dir id = m !! rfc_path project_dir id
  ∧ fs_files s !! decision_path project_dir id = m !! decision_path project_dir id.

Lemma live_kept_agree id tmp m m0 s :
  agree_except tmp m s → live_kept id m0 (mkFs m []) →
  tmp ≠ rfc_path project_dir id → tmp ≠ decision_path project_dir id → live_kept id m0 s.
Proof. intros Ha [H1 H2] Hp Hd. split; rewrite Ha; [exact H1|done|exact H2|done]. Qed.

Lemma live_kept_write id p c tmp m m0 :
  live_kept id m0 (mkFs m []) → p ≠ rfc_path project_dir id → p ≠ decision_path project_dir id →
  tmp ≠ rfc_path project_dir id → tmp ≠ decision_path project_dir id →
  live_kept id m0 (mkFs (<[p := c]> (delete tmp m)) []).
Proof.
  intros [H1 H2] ????. split; simpl; by rewrite lookup_insert_ne, lookup_delete_ne.
Qed.

(** What a successful [reopen] of version [cur] leaves on disk. *)
Definition reopened id (now : Time) m (rec : RfcRecord) (s : Fs) : Prop :=
  ∃ raw cur text archived,
    m !! rfc_path project_dir id = Some raw
    ∧ parse_frontmatter raw = Ok (rec_fm cur, rec_body cur)
    ∧ rec = mkRfcRecord (reopened_frontmatter id now cur) (rec_body cur)
    ∧ render_frontmatter (rec_fm rec) (rec_body rec) = Ok text
    ∧ fs_files s !! rfc_path project_dir id = Some text
    ∧ render_frontmatter (fm_with_state Archived (rec_fm cur)) (rec_body cur) = Ok archived
    ∧ fs_files s !! archive_path id (fm_version (rec_fm cur)) = Some archived
    ∧ match m !! decision_path project_dir id with
      | None => fs_files s !! decision_path project_dir id = None
      | Some log =>
          fs_files s !! dec_archive_path id (fm_version (rec_fm cur)) = Some log
          ∧ (fs_files s !! decision_path project_dir id = None
             ∨ fs_files s !! decision_path project_dir id = Some log)
      end.

Lemma hoare_ignore_remove (d : path) m :
  hoare (λ s, fs_files s = m) (ignore (remove_file d) : M Fs RfcError unit)
    (λ _ s, fs_files s = m ∨ fs_files s = delete d m) (λ _, False).
Proof.
  intros s Hs. unfold ignore, remove_file. simpl.
  destruct (syscall_cases (λ s, match fs_files s !! d with
    | Some _ => (Ok (), set_files (delete d) s) | None => (Err NotFound, s) end) s)
    as [(s' & Hf & ->)|(s' & msg & Hf & ->)]; simpl; [|left; congruence].
  destruct (fs_files s' !! d); simpl; [right|left]; congruence.
Qed.

(** The last steps of [reopen], from the files [m2] with the archives written. *)
Lemma hoare_reopen_commit id (rec : RfcRecord) (ex : bool) m m2 :
  validate_id id = Ok () → live_kept id m (mkFs m2 []) →
  (ex = false → m !! decision_path project_dir id = None) →
  hoare (λ s, fs_files s = m2)
    (write_atomic project_dir id (rec_fm rec) (rec_body rec);;
     (if ex then ignore (remove_file (decision_path project_dir id)) else mret ());;
     mret rec)
    (λ r s, r = rec
       ∧ (∃ text, render_frontmatter (rec_fm rec) (rec_body rec) = Ok text
                  ∧ fs_files s !! rfc_path project_dir id = Some text)
       ∧ (∀ q, q ≠ rfc_path project_dir id → q ≠ decision_path project_dir id →
               q ≠ with_extension (rfc_path project_dir id) #"md.tmp" →
               fs_files s !! q = m2 !! q)
       ∧ match m !! decision_path project_dir id with
         | None => fs_files s !! decision_path project_dir id = None
         | Some log => fs_files s !! decision_path project_dir id = None
                       ∨ fs_files s !! decision_path project_dir id = Some log
         end)
    (live_kept id m).
Proof.
  intros Hv Hk Hex. destruct (reopen_paths_distinct id 0 Hv) as (Hpd & Htd & _).
  pose proof (rfc_tmp_ne project_dir id Hv) as Htp.
  intros s0 Hs0. unfold mbind at 1, M_bind at 1.
  pose proof (hoare_write_atomic project_dir id (rec_fm rec) (rec_body rec) m2 s0 Hs0) as Hw.
  destruct (write_atomic _ _ _ _ s0) as [[[]|e] s];
    [|by apply (live_kept_agree _ _ _ _ _ Hw)].
  destruct Hw as (text & Ht & Hs). destruct Hk as [_ Hd]. simpl in Hd.
  set (d := decision_path project_dir id) in *. set (p := rfc_path project_dir id) in *.
  set (t := with_extension p _) in *.
  assert (∀ s', fs_files s' = fs_files s ∨ fs_files s' = delete d (fs_files s) ∧ ex = true →
    (fs_files s' !! p = Some text)
    ∧ (∀ q, q ≠ p → q ≠ d → q ≠ t → fs_files s' !! q = m2 !! q)
    ∧ match m !! d with
      | None => fs_files s' !! d = None
      | Some log => fs_files s' !! d = None ∨ fs_files s' !! d = Some log
      end) as Hfin.
  { intros s' [-> | [-> Hx]]; rewrite Hs; split_and!.
    - by rewrite lookup_insert_eq.
    - intros q ???. by rewrite lookup_insert_ne, lookup_delete_ne.
    - rewrite lookup_insert_ne, lookup_delete_ne, Hd by done. destruct (m !! d); auto.
    - by rewrite lookup_delete_ne, lookup_insert_eq.
    - intros q ???. by rewrite lookup_delete_ne, lookup_insert_ne, lookup_delete_ne.
    - rewrite lookup_delete_eq. destruct (m !! d); auto. }
  destruct ex; simpl.
  - pose proof (hoare_ignore_remove d (fs_files s) s eq_refl) as Hr. simpl in Hr.
    unfold mbind, M_bind. simpl. split; [done|].
    destruct (Hfin (remove_file d s).2) as (? & ? & ?); [tauto|]. eauto.
  - split; [done|]. destruct (Hfin s) as (? & ? & ?); [tauto|]. eauto.
Qed.

(** After the decision archive: the live files and the first archive are kept,
    and a live log has its copy. *)
Lemma archive_decisions_kept id n (ex : bool) m m3 s archived :
  validate_id id = Ok () → live_kept id m (mkFs m3 []) →
  m3 !! archive_path id n = Some archived →
  (if ex
   then ∃ log, m3 !! decision_path project_dir id = Some log
          ∧ fs_files s = <[dec_archive_path id n := log]>
                           (delete (with_extension (dec_archive_path id n) #"tmp") m3)
   else m3 !! decision_path project_dir id = None ∧ fs_files s = m3) →
  live_kept id m (mkFs (fs_files s) [])
  ∧ fs_files s !! archive_path id n = Some archived
  ∧ (ex = false → m !! decision_path project_dir id = None)
  ∧ ∀ log, m !! decision_path project_dir id = Some log →
           fs_files s !! dec_archive_path id n = Some log.
Proof.
  intros Hv Hk Ha Hd. destruct (reopen_paths_distinct id n Hv) as (_ & _ & Hall & Hab & Hatb).
  pose proof Hk as [_ Hkd]. simpl in Hkd. destruct ex.
  - destruct Hd as (log & Hlog & ->). split_and!; [|..|done|].
    + apply live_kept_write; [done|apply Hall; set_solver..].
    + by rewrite lookup_insert_ne, lookup_delete_ne.
    + intros log' Hlog'. rewrite lookup_insert_eq. congruence.
  - destruct Hd as [Hnone ->]. split_and!; [done|done|congruence|congruence].
Qed.

(** Crash safety of [reopen] under every sequence of file-system failures: on an
    error at any step the live RFC file and the live decision log are the ones before;
    on success the next version is committed as a draft that keeps title, assignment,
    kind, forge block and body, the old version is archived under its number, and a
    decision log that existed is archived whole, the live one being removed or, if
    the removal failed, left as it was. *)
Theorem reopen_crash_safe now id s :
  match reopen project_dir now id s with
  | (Err _, s') => live_kept id (fs_files s) s'
  | (Ok rec, s') => reopened id now (fs_files s) rec s'
  end.
Proof.
  unfold reopen, mbind at 1, M_bind at 1, lift at 1.
  destruct (validate_id id) as [[]|e] eqn:Hv; [|done].
  remember (fs_files s) as m eqn:Hm. symmetry in Hm. unfold mbind at 1, M_bind at 1.
  assert (∀ t, fs_files t = m → live_kept id m t) as Hsame by (intros t Ht; split; by rewrite Ht).
  pose proof (hoare_load id m s Hm) as Hl.
  destruct (load project_dir id s) as [[cur|e] s1]; [|by apply Hsame].
  destruct Hl as (Hs1 & _ & raw & Hraw & Hparse). set (n := fm_version (rec_fm cur)).
  destruct (reopen_paths_distinct id n Hv) as (Hpd & Htd & Hall & Hab & Hatb).
  pose proof (hoare_mkdir #"reopen_mkdir_rfc" (λ f, f = m) s1 Hs1) as Hmk.
  unfold mbind at 1, M_bind at 1.
  destruct (io_err _ _ s1) as [[[]|e] s2]; [|by apply Hsame].
  unfold mbind at 1, M_bind at 1, lift at 1.
  destruct (render_frontmatter (fm_with_state _ _) _) as [archived|e] eqn:Har; [|by apply Hsame].
  unfold mbind at 1, M_bind at 1.
  pose proof (hoare_write_path_atomic (archive_path id n) archived #"reopen_write_archived_rfc"
    m s2 Hmk) as Hw.
  destruct (write_path_atomic _ _ _ s2) as [[[]|e] s3].
  2: { eapply live_kept_agree; [exact Hw|by apply Hsame|apply Hall; set_solver..]. }
  assert (live_kept id m (mkFs (fs_files s3) [])) as Hk3.
  { rewrite Hw. apply live_kept_write; [by apply Hsame|apply Hall; set_solver..]. }
  pose proof (hoare_archive_decisions id n (fs_files s3) s3 eq_refl) as Hd.
  unfold mbind at 1, M_bind at 1.
  destruct (archive_decisions _ _ _ s3) as [[ex|e] s4].
  2: { eapply live_kept_agree; [exact Hd|done|apply Hall; set_solver..]. }
  assert (fs_files s3 !! archive_path id n = Some archived) as Ha3
    by (rewrite Hw; by rewrite lookup_insert_eq).
  destruct (archive_decisions_kept id n ex m _ s4 archived Hv Hk3 Ha3 Hd)
    as (Hk4 & Ha4 & Hex & Hlog).
  pose proof (hoare_reopen_commit id (mkRfcRecord (reopened_frontmatter id now cur) (rec_body cur))
    ex m (fs_files s4) Hv Hk4 Hex s4 eq_refl) as Hc.
  destruct (mbind (M:=M Fs RfcError) _ _ s4) as [[rec|e] s5]; [|done].
  destruct Hc as (-> & (text & Ht & Hp) & Hoth & Hdec).
  exists raw, cur, text, archived. split_and!; try done.
  - rewrite Hoth; [done|apply Hall; set_solver..].
  - destruct (m !! decision_path project_dir id) as [log|]; [|done]. split; [|done].
    rewrite Hoth; [by apply Hlog|apply Hall; set_solver..].
Qed.

End reopening.

(** ** The decision log as a list of records *)

Section decision_log.
Context `{!Serde DecisionRecord, !SerdeLaws DecisionRecord}.
Context (project_dir : path).

(** The file holds exactly the records, one line each; a missing file holds none. *)
Definition log_holds (p : path) (rs : list DecisionRecord) (m : gmap path str) : Prop :=
  ∃ texts, Forall2 (λ r t, ser r = Ok t) rs texts ∧ default [] (m !! p) = unlines texts.

Lemma parse_log_unlines i rs texts :
  Forall2 (λ r t, ser r = Ok t) rs texts → parse_log_lines i texts = Ok rs.
Proof.
  intros H. revert i. induction H as [|r t rs texts Hr _ IH]; intros i; simpl; [done|].
  destruct (trim t) eqn:E; [by apply ser_not_blank in Hr|]. simpl.
  by rewrite (de_ser _ _ Hr), IH.
Qed.

Lemma ser_lines rs texts :
  Forall2 (λ r t, ser r = Ok t) rs texts → Forall one_line texts.
Proof. induction 1; constructor; eauto using ser_one_line. Qed.

Definition log_line (r : DecisionRecord) : str :=
  match ser r with Ok t => t ++ [chr_nl] | Err _ => [] end.

(** What [decision_append] does to the log file, on every outcome. *)
Lemma hoare_decision_append p r m :
  hoare (λ s, fs_files s = m) (decision_append p r)
    (λ _ s, is_ok (ser r) = true ∧ fs_files s = <[p := default [] (m !! p) ++ log_line r]> m)
    (torn p (log_line r) m).
Proof.
  assert (∀ s, fs_files s = m → torn p (log_line r) m s) as Hm
    by (intros s Hs; apply torn_none; intros; by rewrite Hs).
  assert (∀ s, opened p m (fs_files s) → torn p (log_line r) m s) as Ho.
  { intros s Hs. apply torn_none; [intros q Hq|]; rewrite Hs;
      [by rewrite lookup_insert_ne|by rewrite lookup_insert_eq]. }
  unfold decision_append.
  eapply (hoare_bind _ _ _ (λ _ s, fs_files s = m));
    [eapply hoare_conseq; [apply (hoare_mkdir _ (λ f, f = m))|done|done|exact Hm]|intros []].
  eapply hoare_bind; [apply hoare_io_err, (hoare_open_append p m _ Hm)|intros []].
  eapply (hoare_bind _ _ _ (λ l s, ser r = Ok l ∧ opened p m (fs_files s)));
    [apply hoare_lift; [|done]|intros l].
  { intros l s Hl Hs. split; [by destruct (ser r); simplify_eq/=|done]. }
  intros s [Hl Hs]. assert (log_line r = l ++ [chr_nl]) as Hline by (unfold log_line; by rewrite Hl).
  rewrite <- Hline. revert s Hs.
  change (hoare (λ s, opened p m (fs_files s))
    (io_err #"decision_write" (write_all p (log_line r));; io_err #"decision_fsync" sync_all)
    (λ _ s, is_ok (ser r) = true ∧ fs_files s = <[p := default [] (m !! p) ++ log_line r]> m)
    (torn p (log_line r) m)).
  eapply hoare_bind; [apply hoare_io_err, hoare_write_opened|intros []].
  apply hoare_io_err, (hoare_syscall _ (λ f, f = <[p := default [] (m !! p) ++ log_line r]> m)).
  - apply hoare_ret. intros s Hs. by rewrite Hl.
  - intros s Hs. split; [intros q Hq; rewrite Hs; by rewrite lookup_insert_ne|].
    exists (length (log_line r)). by rewrite Hs, lookup_insert_eq, firstn_all.
Qed.

Lemma log_holds_append p rs r m :
  log_holds p rs m → is_ok (ser r) = true →
  log_holds p (rs ++ [r]) (<[p := default [] (m !! p) ++ log_line r]> m).
Proof.
  intros (texts & Hf & Ht) Hok. unfold log_line. destruct (ser r) as [t|] eqn:E; [|done].
  exists (texts ++ [t]). split; [by apply Forall2_app; [|repeat constructor]|].
  rewrite lookup_insert_eq. simpl. rewrite Ht, unlines_app. simpl. by rewrite app_nil_r.
Qed.

Lemma io_read_ok op (p : path) t m :
  m !! p = Some t → io_err op (read_to_string p) (mkFs m []) = (Ok t, mkFs m []).
Proof. intros H. unfold io_err, read_to_string. rewrite syscall_no_fault. simpl. by rewrite H. Qed.

Lemma io_open_ok op (p : path) t m :
  m !! p = Some t → io_err op (file_open p) (mkFs m []) = (Ok (), mkFs m []).
Proof. intros H. unfold io_err, file_open. rewrite syscall_no_fault. simpl. by rewrite H. Qed.

Lemma io_len_ok op (p : path) t m :
  m !! p = Some t → io_err op (file_len p) (mkFs m []) = (Ok (byte_len t), mkFs m []).
Proof. intros H. unfold io_err, file_len. rewrite syscall_no_fault. simpl. by rewrite H. Qed.

(** A log under the cap is read back record by record, one over it is refused. *)
Lemma read_all_holds p rs m :
  log_holds p rs m →
  decision_read_all p (mkFs m []) =
    (let len := byte_len (default [] (m !! p)) in
     if (MAX_DECISION_LOG_BYTES <? len)%N
     then Err (EIo #"decision_read"
                 (#"decision log exceeds size cap (" ++ fmt_dec len ++ #" > "
                  ++ fmt_dec MAX_DECISION_LOG_BYTES ++ #" bytes)"))
     else Ok rs, mkFs m []).
Proof.
  intros (texts & Hf & Ht). unfold decision_read_all.
  destruct (m !! p) as [text|] eqn:Em; cbn [default from_option id] in Ht |- *; subst.
  - rewrite (M_bind_run _ _ _ true _)
      by (unfold file_exists, gets; simpl; by rewrite Em, bool_decide_true by eauto).
    cbn [negb]. rewrite (M_bind_run _ _ _ _ _ (io_open_ok _ _ _ _ Em)).
    rewrite (M_bind_run _ _ _ _ _ (io_len_ok _ _ _ _ Em)).
    cbv zeta. destruct (_ <? _)%N; [done|].
    rewrite (M_bind_run _ _ _ _ _ (io_read_ok _ _ _ _ Em)).
    rewrite lines_unlines by by eapply ser_lines. unfold lift.
    by rewrite (parse_log_unlines _ _ _ Hf).
  - rewrite (M_bind_run _ _ _ false _)
      by (unfold file_exists, gets; simpl; by rewrite Em, bool_decide_false by by intros []).
    destruct texts as [|t texts]; [by inversion Hf|].
    unfold unlines in Ht. simpl in Ht. by destruct t.
Qed.

(** The decision log refines a list of records: appending a record to a log that
    holds [rs] makes it hold [rs] and the record, and the next read returns exactly
    those, or the size error if the file has grown past the cap. *)
Theorem append_read_decisions rec rs s s' :
  let p := decision_path project_dir (dr_rfc_id rec) in
  log_holds p rs (fs_files s) →
  append_decision project_dir rec s = (Ok (), s') →
  fs_faults s' = [] →
  log_holds p (rs ++ [rec]) (fs_files s')
  ∧ match read_decisions project_dir (dr_rfc_id rec) s' with
    | (Ok got, s2) => got = rs ++ [rec] ∧ s2 = s'
    | (Err e, s2) => (MAX_DECISION_LOG_BYTES < byte_len (default [] (fs_files s' !! p)))%N
                     ∧ s2 = s'
    end.
Proof.
  intros p Hrs. unfold append_decision, read_decisions, mbind, M_bind, lift.
  destruct (validate_id (dr_rfc_id rec)) as [[]|e]; [|done]. intros Ha Hnf.
  destruct (hoare_ok _ _ _ _ _ _ _ Ha (hoare_decision_append _ _ _) eq_refl) as [Hok Hf].
  assert (log_holds p (rs ++ [rec]) (fs_files s')) as Hlog
    by (rewrite Hf; by apply log_holds_append).
  split; [done|]. destruct s' as [m fl]. simpl in Hnf. subst fl.
  change (fs_files (mkFs m [])) with m in *. fold p. rewrite (read_all_holds p _ m Hlog). cbv zeta.
  destruct (N.ltb_spec MAX_DECISION_LOG_BYTES (byte_len (default [] (m !! p)))); done.
Qed.

(** A failed append leaves every other file alone and the log with a prefix of the
    record's line, possibly empty, after its old text. *)
Theorem append_decision_torn rec s :
  match append_decision project_dir rec s with
  | (Ok _, s') => is_ok (ser rec) = true
  | (Err _, s') => torn (decision_path project_dir (dr_rfc_id rec)) (log_line rec) (fs_files s) s'
  end.
Proof.
  unfold append_decision, mbind, M_bind, lift.
  destruct (validate_id (dr_rfc_id rec)) as [[]|e]; [|by apply torn_none].
  pose proof (hoare_decision_append (decision_path project_dir (dr_rfc_id rec)) rec
    (fs_files s) s eq_refl) as H.
  destruct (decision_append _ _ s) as [[[]|e] s']; [apply H|done].
Qed.

End decision_log.

Definition sample_decision : DecisionRecord :=
  mkDecisionRecord #"d-001" #"r" 1 0 #"a" Clarification JNull Open [] [].

Definition bits_decision : Serde DecisionRecord := bits_serde DecisionRecord.

Definition sample_log : result RfcError unit * Fs :=
  @append_decision bits_decision [] sample_decision (mkFs ∅ []).

Lemma append_read_decisions_witness :
  @log_holds bits_decision (decision_path [] #"r") [sample_decision] (fs_files sample_log.2).
Proof.
  destruct (@append_read_decisions bits_decision (bits_serde_laws DecisionRecord) []
    sample_decision [] (mkFs ∅ []) sample_log.2) as [H _]; [..|exact H].
  - exists []. split; [constructor|reflexivity].
  - reflexivity.
  - reflexivity.
Defined.
