(* ===== verification/DispatchSeal.v ===== *)
(** * DispatchSeal: the audit chain of a dispatch run

    [crates/orkia-dispatch-proxy/src/seal.rs]: the outputs of finished tasks, the
    verdicts of their acceptance commands, the verdicts on whole rounds and the
    decisions to run another one, one JSON line each, linked by hashes. The hash is
    taken over bytes (texts in UTF-8 and little-endian integers); SHA-256 is a
    class member, the serializer of a record another. *)

From Stdlib Require Import NArith ZArith Lia.
From stdpp Require Import base gmap strings option numbers list list_basics.
From S2P Require Import Prelude Text Effects Fs RfcCore RfcStore Issues.

(** ** Bytes *)

(** [u32::to_le_bytes]; an [i32] is taken modulo [2^32]. *)
Definition le_bytes (n : N) : list N :=
  [n mod 256; n / 256 mod 256; n / 65536 mod 256; n / 16777216 mod 256]%N.

Definition le_bytes_i32 (z : Z) : list N := le_bytes (Z.to_N (z mod 2 ^ 32)).

Definition bool_byte (b : bool) : list N := if b then [1%N] else [0%N].

(** Hex digest of a sequence of bytes. *)
Class Sha256Bytes := sha256_bytes : list N → str.

(** ** Records *)

Record DispatchSealRecord := mkDispatchSealRecord {
  ds_kind : DecisionKind;
  ds_ts : str;
  ds_task_id : str;
  ds_agent : str;
  ds_response_sha256 : option str;
  ds_response_path : str;
  ds_attempt : option N;
  ds_exit_code : option Z;
  ds_passed : option bool;
  ds_accept_command : option str;
  ds_round : option N;
  ds_decision : option str;
  ds_prev_hash : str;
  ds_hash : str;
}.

#[export] Instance DispatchSealRecord_eq_dec : EqDecision DispatchSealRecord.
Proof. solve_decision. Defined.

Inductive DispatchSealError := DSealIo (op : str) (e : io_error) | DSealCorrupt (msg : str).

Definition DISPATCH_ZERO_HASH : str := replicate 64 48%N.
Definition MAX_SEAL_BYTES : N := 4194304.

Section chain.
Context `{!Sha256Bytes, !Serde DispatchSealRecord} (rfc_dir : path).

Definition output_hash (prev task_id sha p ts : str) : str :=
  sha256_bytes (utf8 prev ++ utf8 (kind_as_str DispatchOutput) ++ utf8 task_id ++ utf8 sha ++ utf8 p ++ utf8 ts).

Definition verdict_hash (prev task_id : str) (attempt : N) (exit_code : Z) (passed : bool)
    (command ts : str) : str :=
  sha256_bytes (utf8 prev ++ utf8 (kind_as_str AcceptanceVerdict) ++ utf8 task_id ++ le_bytes attempt
                ++ le_bytes_i32 exit_code ++ bool_byte passed ++ utf8 command ++ utf8 ts).

Definition global_verdict_hash (prev : str) (round : N) (exit_code : Z) (passed : bool)
    (command ts : str) : str :=
  sha256_bytes (utf8 prev ++ utf8 (kind_as_str GlobalVerdict) ++ le_bytes round
                ++ le_bytes_i32 exit_code ++ bool_byte passed ++ utf8 command ++ utf8 ts).

Definition replan_hash (prev : str) (round : N) (decision ts : str) : str :=
  sha256_bytes (utf8 prev ++ utf8 (kind_as_str ReplanDecision) ++ le_bytes round ++ utf8 decision ++ utf8 ts).

(** The hash [verify] recomputes. *)
Definition record_hash (r : DispatchSealRecord) : str :=
  let opt_str o := default [] o in
  match ds_kind r with
  | AcceptanceVerdict =>
      verdict_hash (ds_prev_hash r) (ds_task_id r) (default 0%N (ds_attempt r))
        (default 0%Z (ds_exit_code r)) (default false (ds_passed r)) (opt_str (ds_accept_command r)) (ds_ts r)
  | GlobalVerdict =>
      global_verdict_hash (ds_prev_hash r) (default 0%N (ds_round r)) (default 0%Z (ds_exit_code r))
        (default false (ds_passed r)) (opt_str (ds_accept_command r)) (ds_ts r)
  | ReplanDecision =>
      replan_hash (ds_prev_hash r) (default 0%N (ds_round r)) (opt_str (ds_decision r)) (ds_ts r)
  | _ => output_hash (ds_prev_hash r) (ds_task_id r) (opt_str (ds_response_sha256 r)) (ds_response_path r) (ds_ts r)
  end.

(** ** The file *)

Definition dseal_path : path := rfc_dir ++ [ #"seal"; #"dispatch.seal.jsonl"].

Definition dseal_io {A} (op : str) (m : M Fs io_error A) : M Fs DispatchSealError A := λ s,
  match m s with
  | (Ok a, s') => (Ok a, s')
  | (Err e, s') => (Err (DSealIo op e), s')
  end.

Definition read_capped : M Fs DispatchSealError (option str) :=
  len ← attempt (file_len dseal_path);
  match len with
  | Err NotFound => mret None
  | Err e => throw (DSealIo #"stat" e)
  | Ok n =>
      if (MAX_SEAL_BYTES <? n)%N then throw (DSealCorrupt #"chain exceeds 4194304 bytes")
      else raw ← dseal_io #"read" (read_to_string dseal_path); mret (Some raw)
  end.

Definition seal_lines (raw : str) : list str := filter (λ l, trim l ≠ []) (lines raw).

Definition parse_record (msg : str) (line : str) : result DispatchSealError DispatchSealRecord :=
  map_err (λ e, DSealCorrupt (msg ++ e)) (de line).

(** The last line that is not blank; a malformed one is an error. *)
Definition tip : M Fs DispatchSealError (option str) :=
  raw ← read_capped;
  match raw with
  | None => mret None
  | Some s =>
      match last (seal_lines s) with
      | None => mret None
      | Some line => r ← lift (parse_record #"unparseable tip: " line); mret (Some (ds_hash r))
      end
  end.

Fixpoint parse_all (ls : list str) : result DispatchSealError (list DispatchSealRecord) :=
  match ls with
  | [] => Ok []
  | l :: ls' => r ← parse_record #"unparseable record: " l; rs ← parse_all ls'; Ok (r :: rs)
  end.

Definition records : M Fs DispatchSealError (list DispatchSealRecord) :=
  raw ← read_capped;
  match raw with
  | None => mret []
  | Some s => lift (parse_all (seal_lines s))
  end.

Fixpoint verify_from (prev : str) (rs : list DispatchSealRecord) : bool :=
  match rs with
  | [] => true
  | r :: rs' =>
      if negb (bool_decide (ds_prev_hash r = prev)) then false
      else if negb (bool_decide (record_hash r = ds_hash r)) then false
      else verify_from (ds_hash r) rs'
  end.

Definition verify : M Fs DispatchSealError bool :=
  rs ← records; mret (verify_from DISPATCH_ZERO_HASH rs).

Definition dseal_append (r : DispatchSealRecord) : M Fs DispatchSealError unit :=
  dseal_io #"mkdir" create_dir_all;;
  line ← lift (map_err (λ e, DSealCorrupt (#"serialize: " ++ e)) (ser r));
  dseal_io #"open" (open_append dseal_path);;
  dseal_io #"write" (write_all dseal_path (line ++ [chr_nl]));;
  dseal_io #"fsync" sync_all.

(** ** Sealing *)

Definition tip_or_zero : M Fs DispatchSealError str :=
  t ← tip; mret (default DISPATCH_ZERO_HASH t).

Definition seal_output (task_id agent : str) (sha : option str) (response_path ts : str)
    : M Fs DispatchSealError str :=
  prev ← tip_or_zero;
  let hash := output_hash prev task_id (default [] sha) response_path ts in
  dseal_append (mkDispatchSealRecord DispatchOutput ts task_id agent sha response_path None None None
                  None None None prev hash);;
  mret hash.

Definition seal_verdict (task_id agent : str) (attempt : N) (command : str) (exit_code : Z)
    (passed : bool) (ts : str) : M Fs DispatchSealError str :=
  prev ← tip_or_zero;
  let hash := verdict_hash prev task_id attempt exit_code passed command ts in
  dseal_append (mkDispatchSealRecord AcceptanceVerdict ts task_id agent None [] (Some attempt)
                  (Some exit_code) (Some passed) (Some command) None None prev hash);;
  mret hash.

Definition seal_global_verdict (round : N) (command : str) (exit_code : Z) (passed : bool) (ts : str)
    : M Fs DispatchSealError str :=
  prev ← tip_or_zero;
  let hash := global_verdict_hash prev round exit_code passed command ts in
  dseal_append (mkDispatchSealRecord GlobalVerdict ts #"<rfc>" #"<fleet>" None [] None (Some exit_code)
                  (Some passed) (Some command) (Some round) None prev hash);;
  mret hash.

Definition seal_replan_decision (round : N) (decision ts : str) : M Fs DispatchSealError str :=
  prev ← tip_or_zero;
  let hash := replan_hash prev round decision ts in
  dseal_append (mkDispatchSealRecord ReplanDecision ts #"<rfc>" #"<fleet>" None [] None None None None
                  (Some round) (Some decision) prev hash);;
  mret hash.

(** ** Every record extends the chain *)

(** The four operations. *)
Inductive seal_op :=
| SealOutput (task_id agent : str) (sha : option str) (response_path ts : str)
| SealVerdict (task_id agent : str) (attempt : N) (command : str) (exit_code : Z) (passed : bool) (ts : str)
| SealGlobal (round : N) (command : str) (exit_code : Z) (passed : bool) (ts : str)
| SealReplan (round : N) (decision ts : str).

Definition run_seal_op (op : seal_op) : M Fs DispatchSealError str :=
  match op with
  | SealOutput t a sha p ts => seal_output t a sha p ts
  | SealVerdict t a n c e b ts => seal_verdict t a n c e b ts
  | SealGlobal n c e b ts => seal_global_verdict n c e b ts
  | SealReplan n d ts => seal_replan_decision n d ts
  end.

Definition op_record (op : seal_op) (prev : str) : DispatchSealRecord :=
  match op with
  | SealOutput t a sha p ts =>
      mkDispatchSealRecord DispatchOutput ts t a sha p None None None None None None prev
        (output_hash prev t (default [] sha) p ts)
  | SealVerdict t a n c e b ts =>
      mkDispatchSealRecord AcceptanceVerdict ts t a None [] (Some n) (Some e) (Some b) (Some c) None None prev
        (verdict_hash prev t n e b c ts)
  | SealGlobal n c e b ts =>
      mkDispatchSealRecord GlobalVerdict ts #"<rfc>" #"<fleet>" None [] None (Some e) (Some b) (Some c)
        (Some n) None prev (global_verdict_hash prev n e b c ts)
  | SealReplan n d ts =>
      mkDispatchSealRecord ReplanDecision ts #"<rfc>" #"<fleet>" None [] None None None None (Some n)
        (Some d) prev (replan_hash prev n d ts)
  end.

Lemma run_seal_op_eq op :
  run_seal_op op
  = (prev ← tip_or_zero; dseal_append (op_record op prev);; mret (ds_hash (op_record op prev))).
Proof. by destruct op. Qed.

Lemma op_record_hash op prev :
  ds_prev_hash (op_record op prev) = prev
  ∧ record_hash (op_record op prev) = ds_hash (op_record op prev).
Proof. by destruct op. Qed.

(** The file is the lines of these records. *)
Definition chain_file (m : gmap path str) (rs : list DispatchSealRecord) : Prop :=
  ∃ texts, Forall2 (λ r t, ser r = Ok t) rs texts ∧ default [] (m !! dseal_path) = unlines texts.

Definition last_hash (rs : list DispatchSealRecord) : str :=
  default DISPATCH_ZERO_HASH (ds_hash <$> last rs).

Lemma verify_from_snoc prev rs r :
  verify_from prev (rs ++ [r])
  = verify_from prev rs && bool_decide (ds_prev_hash r = default prev (ds_hash <$> last rs))
    && bool_decide (record_hash r = ds_hash r).
Proof.
  revert prev. induction rs as [|x rs IH]; intros prev.
  - cbn. by repeat case_bool_decide.
  - rewrite last_cons. cbn [app verify_from]. rewrite IH. destruct (last rs); cbn; by repeat case_bool_decide.
Qed.

Context `{!SerdeLaws DispatchSealRecord}.

Lemma seal_lines_unlines rs texts :
  Forall2 (λ r t, ser r = Ok t) rs texts → seal_lines (unlines texts) = texts.
Proof.
  intros Hf. unfold seal_lines. rewrite lines_unlines.
  2: { induction Hf; constructor; eauto using ser_one_line. }
  induction Hf as [|r t rs texts Ht _ IH]; [done|]. rewrite filter_cons_True, IH; [done|].
  by eapply ser_not_blank.
Qed.

Lemma hoare_dseal_io {A} op (m : M Fs io_error A) P (Q : A → Fs → Prop) R :
  hoare P m Q R → hoare P (dseal_io op m) Q R.
Proof. intros Hm s Hs. specialize (Hm s Hs). unfold dseal_io. by destruct (m s) as [[a|e] s']. Qed.

Lemma read_capped_spec m :
  hoare (λ s, fs_files s = m) read_capped
    (λ raw s, fs_files s = m ∧ raw = m !! dseal_path) (λ s, fs_files s = m).
Proof.
  intros s <-. unfold read_capped, attempt, mbind, M_bind, file_len.
  destruct (syscall_cases (λ s0, (byte_len <$> ok_or (fs_files s0 !! dseal_path) NotFound, s0)) s)
    as [(s1 & F1 & ->)|(s1 & msg & F1 & ->)]; [|done].
  rewrite F1. destruct (fs_files s !! dseal_path) as [text|] eqn:Ef; cbn; [|done].
  destruct (MAX_SEAL_BYTES <? byte_len text)%N; [done|].
  unfold dseal_io, read_to_string.
  destruct (syscall_cases (λ s0, (ok_or (fs_files s0 !! dseal_path) NotFound, s0)) s1)
    as [(s2 & F2 & ->)|(s2 & msg & F2 & ->)]; [|cbn; congruence].
  rewrite F2, F1, Ef. cbn. by rewrite F2, F1.
Qed.

Lemma tip_spec m rs :
  chain_file m rs →
  hoare (λ s, fs_files s = m) tip_or_zero (λ h s, fs_files s = m ∧ h = last_hash rs) (λ s, fs_files s = m).
Proof.
  intros (texts & Hf & Ht). unfold tip_or_zero, tip.
  eapply (hoare_bind _ _ _ (λ t s, fs_files s = m ∧ default DISPATCH_ZERO_HASH t = last_hash rs)).
  2: { intros t. apply hoare_ret. done. }
  eapply hoare_bind; [apply read_capped_spec|]. intros raw s [Hs ->].
  destruct (m !! dseal_path) as [text|] eqn:Em; cbn in Ht.
  - subst text. rewrite (seal_lines_unlines _ _ Hf).
    destruct (last texts) as [line|] eqn:El.
    + apply last_Some in El as [texts' ->]. apply Forall2_app_inv_r in Hf as (rs' & r' & Hf1 & Hf2 & ->).
      apply Forall2_cons_inv_r in Hf2 as (r & ? & Hr & Hnil & ->). apply Forall2_nil_inv_r in Hnil as ->.
      unfold lift, parse_record, mbind, M_bind. rewrite (de_ser _ _ Hr). cbn. split; [done|].
      unfold last_hash. by rewrite last_snoc.
    + apply last_None in El as ->. apply Forall2_nil_inv_r in Hf as ->. done.
  - destruct texts as [|t texts]; [|by destruct t]. apply Forall2_nil_inv_r in Hf as ->. done.
Qed.

(** The other files are those of [m], and the chain's starts as it was. *)
Definition chain_kept (m : gmap path str) (s : Fs) : Prop :=
  (∀ q, q ≠ dseal_path → fs_files s !! q = m !! q)
  ∧ default [] (m !! dseal_path) `prefix_of` default [] (fs_files s !! dseal_path).

Lemma chain_kept_refl m s : fs_files s = m → chain_kept m s.
Proof. intros <-. split; [done|]. by exists []; rewrite app_nil_r. Qed.

(** Appending: the line is added whole, or a part of it is. *)
Lemma dseal_append_spec m r :
  hoare (λ s, fs_files s = m) (dseal_append r)
    (λ _ s, ∃ line, ser r = Ok line
       ∧ fs_files s = <[dseal_path := default [] (m !! dseal_path) ++ line ++ [chr_nl]]> m)
    (chain_kept m).
Proof.
  unfold dseal_append.
  eapply (hoare_bind _ _ _ (λ _ s, fs_files s = m)).
  { apply hoare_dseal_io. apply (hoare_syscall _ (λ f, f = m)); [by apply hoare_ret|apply chain_kept_refl]. }
  intros []. destruct (ser r) as [line|e]; cbn [map_err]; [|intros s Hs; by apply chain_kept_refl].
  match goal with |- hoare ?P (_ ≫= ?k) ?Q ?R => change (hoare P (k line) Q R) end. cbn beta.
  eapply hoare_bind; [apply hoare_dseal_io, hoare_open_append, chain_kept_refl|]. intros []. cbn beta.
  eapply (hoare_bind _ _ _ (λ _ s, fs_files s
            = <[dseal_path := default [] (m !! dseal_path) ++ line ++ [chr_nl]]> m));
    [apply hoare_dseal_io; eapply hoare_conseq; [apply (hoare_write_opened _ m)|done|done|]|].
  { intros s [Hq [k Hk]]. split; [done|]. rewrite Hk. by eexists. }
  intros []. cbn beta. apply hoare_dseal_io.
  apply (hoare_syscall _ (λ f, f = <[dseal_path := default [] (m !! dseal_path) ++ line ++ [chr_nl]]> m)).
  - apply hoare_ret. intros s Hs. by exists line.
  - intros s Hs. unfold chain_kept. rewrite Hs. split; [intros q Hq; by rewrite lookup_insert_ne|].
    rewrite lookup_insert_eq. by eexists.
Qed.

(** sealing is append-only and links: on a chain file that verifies, each of the four
    operations, when it reports a hash, has added exactly one record with
    that hash, linked to the last one, and the chain verifies again; when it fails,
    at whichever system call, the records that were there still are the start of the
    file; no other file changes. *)
Theorem dispatch_seal_extends op rs s :
  chain_file (fs_files s) rs → verify_from DISPATCH_ZERO_HASH rs = true →
  match run_seal_op op s with
  | (Ok h, s') =>
      ∃ r, ds_hash r = h ∧ ds_prev_hash r = last_hash rs ∧ chain_file (fs_files s') (rs ++ [r])
      ∧ verify_from DISPATCH_ZERO_HASH (rs ++ [r]) = true
      ∧ ∀ q, q ≠ dseal_path → fs_files s' !! q = fs_files s !! q
  | (Err _, s') =>
      default [] (fs_files s !! dseal_path) `prefix_of` default [] (fs_files s' !! dseal_path)
      ∧ ∀ q, q ≠ dseal_path → fs_files s' !! q = fs_files s !! q
  end.
Proof.
  intros Hc Hv. rewrite run_seal_op_eq. unfold mbind at 1, M_bind at 1.
  pose proof (tip_spec _ _ Hc s eq_refl) as Htip.
  destruct (tip_or_zero s) as [[h|e] s1]; [|by destruct (chain_kept_refl _ _ Htip)].
  destruct Htip as [Hs1 ->]. unfold mbind, M_bind.
  pose proof (dseal_append_spec (fs_files s) (op_record op (last_hash rs)) s1 Hs1) as Ha.
  destruct (dseal_append _ s1) as [[[]|e] s2]; cbn beta iota; [|by destruct Ha].
  destruct Ha as (line & Hser & Hf). destruct (op_record_hash op (last_hash rs)) as [Hp Hh].
  exists (op_record op (last_hash rs)). split_and!; [done|done| | |].
  - destruct Hc as (texts & Htexts & Ht). exists (texts ++ [line]). split.
    + apply Forall2_app; [done|]. by repeat constructor.
    + rewrite Hf, lookup_insert_eq, unlines_app. cbn. by rewrite Ht, app_nil_r.
  - rewrite verify_from_snoc, Hv. cbn [andb]. rewrite !bool_decide_eq_true_2; [done|done|]. by rewrite Hp.
  - intros q Hq. by rewrite Hf, lookup_insert_ne.
Qed.

End chain.

(** ** Example *)

Section examples.

#[local] Instance const_hash : Sha256Bytes := λ b, [N.of_nat (length b)].

Definition first_op : seal_op := SealVerdict #"t" #"faye" 0 #"make test" 0 true #"now".

Definition first_record : DispatchSealRecord := op_record first_op DISPATCH_ZERO_HASH.

#[local] Instance dseal_serde : Serde DispatchSealRecord := table_serde [first_record].
#[local] Instance dseal_laws : SerdeLaws DispatchSealRecord := table_serde_laws _.

Lemma dispatch_seal_extends_witness :
  (run_seal_op [] first_op (mkFs ∅ [])).1 = Ok (ds_hash first_record)
  ∧ match run_seal_op [] first_op (mkFs ∅ []) with
    | (Ok h, s') =>
        ∃ r, ds_hash r = h ∧ ds_prev_hash r = last_hash [] ∧ chain_file [] (fs_files s') ([] ++ [r])
        ∧ verify_from DISPATCH_ZERO_HASH ([] ++ [r]) = true
        ∧ ∀ q, q ≠ dseal_path [] → fs_files s' !! q = (∅ : gmap path str) !! q
    | (Err _, s') =>
        default [] ((∅ : gmap path str) !! dseal_path []) `prefix_of` default [] (fs_files s' !! dseal_path [])
        ∧ ∀ q, q ≠ dseal_path [] → fs_files s' !! q = (∅ : gmap path str) !! q
    end.
Proof.
  split; [by vm_compute|]. apply (dispatch_seal_extends [] first_op [] (mkFs ∅ [])); [|done].
  exists []. by split.
Defined.

End examples.
