(* ===== verification/Dispatch.v ===== *)
(** * Dispatch: the actor that drives a run of tasks

    [crates/orkia-dispatch-proxy/src/{run,oracle,lib}.rs] and the messages of
    [crates/orkia-shell-types/src/dispatch_kernel.rs]. A remote kernel holds the
    task graph and hands out waves of tasks; the driver spawns an agent for each
    task, captures its response in the task's issue ([Issues]), runs the task's
    acceptance command, retries, seals what happened ([DispatchSeal]) and tells
    the kernel the outcome.

    The kernel, the spawner of jobs, the source of responses, the list of live
    jobs, the clock and the commands that are run are the members of
    [Environment]: each answers as a function of the whole history of calls, so a
    theorem for every environment covers every order of answers. The history is
    the trace the driver leaves: one event per call to a collaborator. *)

From Stdlib Require Import NArith ZArith Lia.
From stdpp Require Import base gmap strings option numbers list list_basics.
From S2P Require Import Prelude Text Effects Fs RfcCore RfcStore Issues DispatchSeal.

(** ** Messages of the kernel *)

Record DispatchTaskRequest := mkDispatchTaskRequest {
  tr_id : str;
  tr_agent : str;
  tr_body : str;
  tr_command : str;
  tr_args : list str;
  tr_provider : option str;
  tr_runtime : option str;
  tr_depends_on : list str;
}.

Record DispatchAuthorizeRequest := mkDispatchAuthorizeRequest {
  au_strategy : str;
  au_max_inflight : N;
  au_on_task_fail : str;
  au_tasks : list DispatchTaskRequest;
}.

Record TaskPlan := mkTaskPlan {
  tp_run_id : str;
  tp_task_id : str;
  tp_agent : str;
  tp_command : str;
  tp_args : list str;
  tp_provider : option str;
  tp_runtime : option str;
  tp_body : str;
  tp_depends_on : list str;
  tp_timeout_secs : option N;
}.

Inductive DispatchAuthorizeResponse :=
| Authorized (run_id : str) (total_tasks : N) (wave : list TaskPlan)
| AuthorizeRefused (reason : str).

Record TaskOutputRef := mkTaskOutputRef {
  out_path : str;
  out_bytes : N;
  out_via_mcp : bool;
  out_elapsed_ms : N;
}.

Inductive TaskOutcome :=
| OutcomeDone (output : TaskOutputRef)
| OutcomeFailed (reason : str).

Record DispatchAdvanceRequest := mkDispatchAdvanceRequest {
  av_run_id : str;
  av_task_id : str;
  av_outcome : TaskOutcome;
}.

Inductive DispatchAdvanceResponse :=
| NextWave (wave : list TaskPlan)
| Completed (elapsed_ms : N)
| Paused (failed : list str)
| Aborted (failed : str)
| AdvanceFailed (reason : str).

Record DispatchFinalizeRequest := mkDispatchFinalizeRequest {
  fz_run_id : str;
  fz_passed : bool;
  fz_round : N;
  fz_failure_tail : option str;
}.

Inductive DispatchFinalizeResponse :=
| Converged
| Replan (wave : list TaskPlan) (reopened : list str)
| GiveUp (reason : str)
| FinalizeFailed (reason : str).

Inductive KernelRpcError :=
| Unavailable (msg : str)
| Timeout
| Protocol (msg : str)
| KernelIo (msg : str).

(** ** Messages of the shell *)

Record FinalResponseEvent := mkFinalResponseEvent {
  fr_job_id : N;
  fr_agent : str;
  fr_session_id : option str;
  fr_response_path : option str;
  fr_response_sha256 : option str;
  fr_response_bytes : N;
  fr_response_preview : str;
}.

Record DetachedCageWrapper := mkDetachedCageWrapper { cw_cage_bin : str; cw_policy_path : str }.

Record DetachedSpawnRequest := mkDetachedSpawnRequest {
  sp_command : str;
  sp_working_dir : option str;
  sp_agent_name : option str;
  sp_extra_env : list (str * str);
  sp_cage_wrapper : option DetachedCageWrapper;
}.

(** What the driver reads of a daemon job. *)
Record DaemonJobView := mkDaemonJobView { dj_id : N; dj_exit_code : option Z }.

(** ** The acceptance command ([oracle.rs]) *)

Record AcceptanceResult := mkAcceptanceResult { ar_exit_code : Z; ar_output_tail : str }.

Definition passed (r : AcceptanceResult) : bool := (ar_exit_code r =? 0)%Z.

Definition TAIL_CAP : N := 4096.

(** The last [cap] bytes, from the first character boundary among them. *)
Fixpoint tail_of (cap : N) (s : str) : str :=
  if (byte_len s <=? cap)%N then s
  else match s with
       | [] => []
       | _ :: s' => tail_of cap s'
       end.

(** What running a command gives: an error to start it, or its exit code, if it
    has one, and what it printed. *)
Definition CommandOutput : Type := result str (option Z * str * str).

Definition acceptance_of (out : CommandOutput) : AcceptanceResult :=
  match out with
  | Ok (code, stdout, stderr) =>
      mkAcceptanceResult (default (-1)%Z code) (tail_of TAIL_CAP (stdout ++ stderr))
  | Err e => mkAcceptanceResult (-1) (#"acceptance command failed to spawn: " ++ e)
  end.

Record AcceptSpec := mkAcceptSpec { as_command : str; as_max_attempts : N }.

(** ** The driver's data *)

Inductive ProxyMsg :=
| MsgResponse (ev : FinalResponseEvent)
| MsgVerdict (task_id : str) (attempt : N) (result : AcceptanceResult)
| MsgAbort.

Inductive Flow := FlowContinue | FlowDone.

Inductive Step :=
| StepContinue
| StepCascade (wave : list TaskPlan)
| StepStop.

Inductive Advanced :=
| AdvancedWave (wave : list TaskPlan)
| AdvancedStop.

Inductive FleetStep :=
| FleetStop (reason : str)
| FleetReplan (wave : list TaskPlan).

(** [OutOfFuel] is not an error of the code: it ends [process_wave] when its fuel
    is used up. *)
Inductive DriverError :=
| DriverIssue (e : IssueError)
| DriverSpawn (task_id reason : str)
| DriverMissingDep (task_id dep : str)
| DriverKernel (e : KernelRpcError)
| DriverSeal (task_id : str) (e : DispatchSealError)
| OutOfFuel.

Record Driver := mkDriver {
  d_rfc_dir : path;
  d_run_id : str;
  d_rfc_id : str;
  d_project : str;
  d_working_dir : option str;
  d_job_to_task : gmap N str;
  d_accept_specs : gmap str AcceptSpec;
  d_global_accept : option str;
  d_max_replans : N;
  d_authorize_req : DispatchAuthorizeRequest;
  d_round : N;
  d_last_fail_sig : option str;
}.

Definition set_job_to_task (f : gmap N str → gmap N str) (d : Driver) : Driver :=
  mkDriver (d_rfc_dir d) (d_run_id d) (d_rfc_id d) (d_project d) (d_working_dir d)
    (f (d_job_to_task d)) (d_accept_specs d) (d_global_accept d) (d_max_replans d)
    (d_authorize_req d) (d_round d) (d_last_fail_sig d).

Definition set_run_id (id : str) (d : Driver) : Driver :=
  mkDriver (d_rfc_dir d) id (d_rfc_id d) (d_project d) (d_working_dir d)
    (d_job_to_task d) (d_accept_specs d) (d_global_accept d) (d_max_replans d)
    (d_authorize_req d) (d_round d) (d_last_fail_sig d).

Definition set_round (n : N) (d : Driver) : Driver :=
  mkDriver (d_rfc_dir d) (d_run_id d) (d_rfc_id d) (d_project d) (d_working_dir d)
    (d_job_to_task d) (d_accept_specs d) (d_global_accept d) (d_max_replans d)
    (d_authorize_req d) n (d_last_fail_sig d).

Definition set_last_fail_sig (o : option str) (d : Driver) : Driver :=
  mkDriver (d_rfc_dir d) (d_run_id d) (d_rfc_id d) (d_project d) (d_working_dir d)
    (d_job_to_task d) (d_accept_specs d) (d_global_accept d) (d_max_replans d)
    (d_authorize_req d) (d_round d) o.

(** ** Texts of errors *)

Definition tick (s : str) : str := #"`" ++ s ++ #"`".

Definition issue_error_text (e : IssueError) : str :=
  match e with
  | IssueIo op e => #"issues " ++ op ++ #" failed: " ++ io_error_text e
  | IssueEncode msg => #"issue encode failed: " ++ msg
  | IssueMalformed id detail => #"issue " ++ tick id ++ #" is malformed: " ++ detail
  end.

Definition seal_error_text (e : DispatchSealError) : str :=
  match e with
  | DSealIo op e => #"dispatch seal " ++ op ++ #" failed: " ++ io_error_text e
  | DSealCorrupt msg => #"dispatch seal chain is corrupt: " ++ msg
  end.

Definition kernel_error_text (e : KernelRpcError) : str :=
  match e with
  | Unavailable m => #"kernel unavailable: " ++ m
  | Timeout => #"kernel timeout"
  | Protocol m => #"kernel protocol error: " ++ m
  | KernelIo m => #"kernel io error: " ++ m
  end.

Definition driver_error_text (e : DriverError) : str :=
  match e with
  | DriverIssue e => issue_error_text e
  | DriverSpawn t reason => #"spawn detached task " ++ tick t ++ #": " ++ reason
  | DriverMissingDep t dep =>
      #"task " ++ tick t ++ #" depends on " ++ tick dep ++ #", whose response was never captured"
  | DriverKernel e => #"kernel advance: " ++ kernel_error_text e
  | DriverSeal t e => #"seal task " ++ tick t ++ #": " ++ seal_error_text e
  | OutOfFuel => []
  end.

Definition fmt_i32 (z : Z) : str :=
  if (z <? 0)%Z then [chr_minus] ++ fmt_dec (Z.to_N (- z)) else fmt_dec (Z.to_N z).

(** ** The history and the environment *)

Inductive event :=
| ERead (task_id : str) (found : option Issue)
| EWrite (issue : Issue)
| EOutput (task_id hash : str)
| EVerdict (task_id : str) (attempt : N) (ok : bool) (hash : str)
| EGlobal (round : N) (ok : bool)
| EReplan (round : N) (decision : str)
| ESpawn (req : DetachedSpawnRequest) (reply : result str N)
| EOracle (task_id : str) (attempt : N) (command : str)
| EAdvance (req : DispatchAdvanceRequest) (reply : result KernelRpcError DispatchAdvanceResponse)
| EFinalize (req : DispatchFinalizeRequest) (reply : result KernelRpcError DispatchFinalizeResponse)
| EAuthorize (req : DispatchAuthorizeRequest) (reply : result KernelRpcError DispatchAuthorizeResponse)
| EAbort (run_id : str).

Class Environment := {
  env_advance : list event → DispatchAdvanceRequest → result KernelRpcError DispatchAdvanceResponse;
  env_finalize : list event → DispatchFinalizeRequest → result KernelRpcError DispatchFinalizeResponse;
  env_authorize : list event → DispatchAuthorizeRequest → result KernelRpcError DispatchAuthorizeResponse;
  env_spawn : list event → DetachedSpawnRequest → result str N;
  env_latest_for_job : list event → N → option FinalResponseEvent;
  env_jobs : list event → list DaemonJobView;
  env_clock : list event → str;
  env_command : list event → str → option str → CommandOutput;
}.

(** The driver, the files, the acceptance commands that are still running, and
    the history. *)
Record DState := mkDState {
  st_driver : Driver;
  st_fs : Fs;
  st_oracles : list (str * N);
  st_trace : list event;
}.

Definition set_st_driver (f : Driver → Driver) (s : DState) : DState :=
  mkDState (f (st_driver s)) (st_fs s) (st_oracles s) (st_trace s).

Definition set_st_fs (fs : Fs) (s : DState) : DState :=
  mkDState (st_driver s) fs (st_oracles s) (st_trace s).

Definition set_st_oracles (l : list (str * N)) (s : DState) : DState :=
  mkDState (st_driver s) (st_fs s) l (st_trace s).

Definition add_event (e : event) (s : DState) : DState :=
  mkDState (st_driver s) (st_fs s) (st_oracles s) (st_trace s ++ [e]).

Abbreviation D := (M DState DriverError).

Definition emit (e : event) : D unit := modify (add_event e).

Definition field {A} (f : Driver → A) : D A := gets (λ s, f (st_driver s)).

(** An operation on the files, its error turned into one of the driver. *)
Definition on_files {E A} (f : E → DriverError) (m : M Fs E A) : D A := λ s,
  let '(r, fs) := m (st_fs s) in (map_err f r, set_st_fs fs s).

(** ** Operations *)

(** [Path::display] of an absolute path. *)
Definition display (p : path) : str := [chr_slash] ++ join [chr_slash] p.

(** The prompt of a retry: the prior one, the command that failed and its output. *)
Definition compose_retry_body (prior_prompt accept_command output_tail : str) (attempt : N) : str :=
  prior_prompt ++ [chr_nl; chr_nl] ++ #"---" ++ [chr_nl] ++ #"Attempt " ++ fmt_dec attempt
  ++ #": the acceptance check " ++ tick accept_command ++ #" failed. Its output was:" ++ [chr_nl]
  ++ #"```" ++ [chr_nl] ++ output_tail ++ [chr_nl] ++ #"```" ++ [chr_nl]
  ++ #"Fix the underlying cause so " ++ tick accept_command ++ #" passes, then stop.".

Definition done_outcome (rfc_dir : path) (issue : Issue) : TaskOutcome :=
  OutcomeDone (mkTaskOutputRef (display (issue_path rfc_dir (im_id (is_meta issue))))
                 (default 0%N (byte_len <$> is_response issue)) false 0).

Definition first_or (failed : list str) (fallback : str) : str := default fallback (head failed).

(** Field updates of an issue. *)
Definition set_status (st : Status) (i : Issue) : Issue :=
  let m := is_meta i in
  mkIssue (mkIssueMeta (im_id m) (im_title m) (im_agent m) (im_depends_on m) st (im_job_id m)
             (im_response_sha m) (im_seal m) (im_attempt m) (im_verdict_seal m))
    (is_prompt i) (is_response i).

Definition set_response (r : option str) (i : Issue) : Issue := mkIssue (is_meta i) (is_prompt i) r.

Definition set_verdict_seal (h : option str) (i : Issue) : Issue :=
  let m := is_meta i in
  mkIssue (mkIssueMeta (im_id m) (im_title m) (im_agent m) (im_depends_on m) (im_status m)
             (im_job_id m) (im_response_sha m) (im_seal m) (im_attempt m) h)
    (is_prompt i) (is_response i).

(** What a response does to its issue. *)
Definition finished_issue (sha : option str) (seal text : str) (i : Issue) : Issue :=
  let m := is_meta i in
  mkIssue (mkIssueMeta (im_id m) (im_title m) (im_agent m) (im_depends_on m) Done (im_job_id m)
             sha (Some seal) (im_attempt m) (im_verdict_seal m))
    (is_prompt i) (Some text).

(** What another attempt does to it. *)
Definition retried_issue (attempt job_id : N) (body : str) (i : Issue) : Issue :=
  let m := is_meta i in
  mkIssue (mkIssueMeta (im_id m) (im_title m) (im_agent m) (im_depends_on m) Spawned (Some job_id)
             None (im_seal m) attempt (im_verdict_seal m))
    body None.

(** What another round does to it. *)
Definition reopened_issue (i : Issue) : Issue :=
  let m := is_meta i in
  mkIssue (mkIssueMeta (im_id m) (im_title m) (im_agent m) (im_depends_on m) Pending None None None 0 None)
    (is_prompt i) None.

(** The issue of a task before and when it is spawned. *)
Definition fresh_issue (id agent body : str) (deps : list str) (st : Status) (job : option N)
    (prompt : str) : Issue :=
  mkIssue (mkIssueMeta id (title_from_body body id) agent deps st job None None 0 None) prompt None.

Section driver.
Context `{!Environment, !Sha256Bytes, !Serde IssueMeta, !Serde RunMeta, !Serde DispatchSealRecord}.

Definition failure_signature (output_tail : str) : str := sha256_bytes (utf8 (trim output_tail)).

(** *** Calls to the collaborators *)

Definition store_read (task_id : str) : D (option Issue) :=
  dir ← field d_rfc_dir;
  r ← on_files DriverIssue (issue_read dir task_id);
  emit (ERead task_id r);; mret r.

Definition store_write (issue : Issue) : D unit :=
  dir ← field d_rfc_dir;
  on_files DriverIssue (issue_write dir issue);;
  emit (EWrite issue).

Definition now : D str := gets (λ s, env_clock (st_trace s)).

Definition spawn_detached (task_id : str) (req : DetachedSpawnRequest) : D N :=
  r ← gets (λ s, env_spawn (st_trace s) req);
  emit (ESpawn req r);;
  lift (map_err (DriverSpawn task_id) r).

Definition dispatch_advance (req : DispatchAdvanceRequest) : D DispatchAdvanceResponse :=
  r ← gets (λ s, env_advance (st_trace s) req);
  emit (EAdvance req r);;
  lift (map_err DriverKernel r).

Definition dispatch_finalize (req : DispatchFinalizeRequest)
    : D (result KernelRpcError DispatchFinalizeResponse) :=
  r ← gets (λ s, env_finalize (st_trace s) req);
  emit (EFinalize req r);;
  mret r.

Definition dispatch_authorize (req : DispatchAuthorizeRequest) : D DispatchAuthorizeResponse :=
  r ← gets (λ s, env_authorize (st_trace s) req);
  emit (EAuthorize req r);;
  lift (map_err DriverKernel r).

Definition task_spawn_request (task_id agent : str) (d : Driver) : DetachedSpawnRequest :=
  mkDetachedSpawnRequest (task_command_line (d_rfc_id d) task_id agent (d_project d))
    (d_working_dir d) (Some agent) [] None.

(** *** Closing a run *)

Definition close_run (reason : str) : D unit :=
  dir ← field d_rfc_dir;
  meta ← attempt (on_files DriverIssue (read_run dir));
  match meta with
  | Ok (Some m) =>
      match rm_closed m with
      | None =>
          ignore (on_files DriverIssue
            (write_run dir (mkRunMeta (rm_run_id m) (rm_plan_hash m) (rm_strategy m) (rm_started m)
                              (Some reason))))
      | Some _ => mret ()
      end
  | _ => mret ()
  end.

Definition abort_kernel : D unit := run_id ← field d_run_id; emit (EAbort run_id).

Definition on_abort : D Flow := close_run #"cancelled";; abort_kernel;; mret FlowDone.

Definition teardown (reason : str) : D Flow := close_run reason;; abort_kernel;; mret FlowDone.

(** *** Rounds *)

Definition reset_issue_for_replan (task_id : str) : D unit :=
  r ← store_read task_id;
  match r with
  | Some issue => store_write (reopened_issue issue)
  | None => mret ()
  end.

Fixpoint reset_all (ids : list str) : D unit :=
  match ids with
  | [] => mret ()
  | t :: ids' => reset_issue_for_replan t;; reset_all ids'
  end.

Definition replan_rerun_all : D (list TaskPlan) :=
  req ← field d_authorize_req;
  resp ← dispatch_authorize req;
  match resp with
  | AuthorizeRefused reason =>
      throw (DriverSpawn #"<re-plan>" (#"kernel refused re-authorize: " ++ reason))
  | Authorized run_id _ wave =>
      modify (set_st_driver (set_run_id run_id));;
      dir ← field d_rfc_dir;
      meta ← attempt (on_files DriverIssue (read_run dir));
      match meta with
      | Ok (Some m) =>
          ignore (on_files DriverIssue
            (write_run dir (mkRunMeta run_id (rm_plan_hash m) (rm_strategy m) (rm_started m) (rm_closed m))))
      | _ => mret ()
      end;;
      reset_all (map tr_id (au_tasks req));;
      mret wave
  end.

Definition seal_replan (decision : str) : D unit :=
  dir ← field d_rfc_dir;
  round ← field d_round;
  ts ← now;
  r ← attempt (on_files (DriverSeal []) (seal_replan_decision dir round decision ts));
  match r with Ok _ => emit (EReplan round decision) | Err _ => mret () end.

Definition next_round : D unit :=
  modify (set_st_driver (λ d, set_round (u32_succ (d_round d)) d)).

Definition replan (failure_tail : str) : D FleetStep :=
  run_id ← field d_run_id;
  round ← field d_round;
  finalize ← dispatch_finalize (mkDispatchFinalizeRequest run_id false round (Some failure_tail));
  match finalize with
  | Ok (Replan wave reopened) =>
      seal_replan #"rerun-targeted";;
      r ← attempt (reset_all reopened);
      match r with
      | Err e => mret (FleetStop (#"re-plan reset failed: " ++ driver_error_text e))
      | Ok _ => next_round;; mret (FleetReplan wave)
      end
  | Ok (GiveUp reason) => mret (FleetStop (#"re-plan declined: " ++ reason))
  | Ok Converged => mret (FleetStop #"converged")
  | _ =>
      seal_replan #"rerun-all";;
      r ← attempt replan_rerun_all;
      match r with
      | Ok wave => next_round;; mret (FleetReplan wave)
      | Err e => mret (FleetStop (#"re-plan failed: " ++ driver_error_text e))
      end
  end.

Definition notify_kernel_converged : D unit :=
  run_id ← field d_run_id;
  round ← field d_round;
  ignore (dispatch_finalize (mkDispatchFinalizeRequest run_id true round None)).

Definition run_acceptance (cmd : str) : D AcceptanceResult :=
  wd ← field d_working_dir;
  gets (λ s, acceptance_of (env_command (st_trace s) cmd wd)).

Definition seal_global (cmd : str) (r : AcceptanceResult) : D unit :=
  dir ← field d_rfc_dir;
  round ← field d_round;
  ts ← now;
  res ← attempt (on_files (DriverSeal [])
          (seal_global_verdict dir round cmd (ar_exit_code r) (passed r) ts));
  match res with Ok _ => emit (EGlobal round (passed r)) | Err _ => mret () end.

Definition finalize_round : D FleetStep :=
  global ← field d_global_accept;
  match global with
  | None => notify_kernel_converged;; mret (FleetStop #"completed")
  | Some cmd =>
      result ← run_acceptance cmd;
      seal_global cmd result;;
      if passed result then notify_kernel_converged;; mret (FleetStop #"converged")
      else
        round ← field d_round;
        max ← field d_max_replans;
        if (max <=? round)%N then
          mret (FleetStop (#"integration failed: " ++ tick cmd ++ #" exit "
                           ++ fmt_i32 (ar_exit_code result) ++ #" (after " ++ fmt_dec round
                           ++ #" re-plan(s))"))
        else
          let sig := failure_signature (ar_output_tail result) in
          last ← field d_last_fail_sig;
          if bool_decide (last = Some sig) then
            seal_replan #"give-up: no progress";;
            mret (FleetStop #"oscillating: integration failure unchanged")
          else
            modify (set_st_driver (set_last_fail_sig (Some sig)));;
            replan (ar_output_tail result)
  end.

(** *** Reporting an outcome *)

Definition advance (task_id : str) (outcome : TaskOutcome) : D Advanced :=
  run_id ← field d_run_id;
  resp ← dispatch_advance (mkDispatchAdvanceRequest run_id task_id outcome);
  match resp with
  | NextWave wave => mret (AdvancedWave wave)
  | Completed _ =>
      next ← finalize_round;
      match next with
      | FleetStop reason => close_run reason;; mret AdvancedStop
      | FleetReplan wave => mret (AdvancedWave wave)
      end
  | Paused failed => close_run (#"paused: " ++ first_or failed task_id);; mret AdvancedStop
  | Aborted failed => close_run (#"aborted: " ++ failed);; abort_kernel;; mret AdvancedStop
  | AdvanceFailed reason => close_run (#"kernel: " ++ reason);; mret AdvancedStop
  end.

Definition fast_forward (task_id : str) (outcome : TaskOutcome) : D Step :=
  a ← advance task_id outcome;
  mret (match a with AdvancedWave wave => StepCascade wave | AdvancedStop => StepStop end).

(** *** A captured response *)

Definition read_response (p : str) : D str :=
  r ← attempt (on_files (λ e, DriverIssue (IssueIo #"read" e)) (read_to_string (path_join [] p)));
  mret (match r with Ok text => text | Err _ => [] end).

Definition absorb (task_id : str) (ev : FinalResponseEvent) : D TaskOutcome :=
  r ← store_read task_id;
  match r with
  | None => throw (DriverSpawn task_id #"issue vanished before its response landed")
  | Some issue =>
      match fr_response_path ev with
      | Some p =>
          text ← read_response p;
          dir ← field d_rfc_dir;
          ts ← now;
          hash ← on_files (DriverSeal task_id)
                   (seal_output dir task_id (im_agent (is_meta issue)) (fr_response_sha256 ev) p ts);
          emit (EOutput task_id hash);;
          store_write (finished_issue (fr_response_sha256 ev) hash text issue);;
          mret (OutcomeDone (mkTaskOutputRef p (fr_response_bytes ev) false 0))
      | None =>
          let reason := fr_response_preview ev in
          store_write (set_response (Some reason) (set_status Failed issue));;
          mret (OutcomeFailed reason)
      end
  end.

(** *** The acceptance command of a task *)

Definition read_issue (task_id : str) : D Issue :=
  r ← store_read task_id;
  lift (ok_or r (DriverSpawn task_id #"issue vanished before its verdict")).

(** The command runs on a thread of its own, which posts one verdict. *)
Definition launch_oracle (task_id : str) : D unit :=
  specs ← field d_accept_specs;
  match specs !! task_id with
  | None => mret ()
  | Some spec =>
      issue ← read_issue task_id;
      store_write (set_status Verifying issue);;
      let attempt := im_attempt (is_meta issue) in
      emit (EOracle task_id attempt (as_command spec));;
      modify (λ s, set_st_oracles (st_oracles s ++ [(task_id, attempt)]) s)
  end.

Definition retry_task (task_id : str) (issue : Issue) (accept_command output_tail : str) : D unit :=
  let next_attempt := u32_succ (im_attempt (is_meta issue)) in
  let body := compose_retry_body (is_prompt issue) accept_command output_tail next_attempt in
  req ← field (task_spawn_request task_id (im_agent (is_meta issue)));
  job_id ← spawn_detached task_id req;
  store_write (retried_issue next_attempt job_id body issue);;
  modify (set_st_driver (set_job_to_task <[job_id := task_id]>)).

(** *** Spawning and reconciling *)

Fixpoint dep_contexts (task_id : str) (deps : list str) : D (list DepContext) :=
  match deps with
  | [] => mret []
  | dep :: deps' =>
      r ← store_read dep;
      issue ← lift (ok_or r (DriverMissingDep task_id dep));
      response ← lift (ok_or (is_response issue) (DriverMissingDep task_id dep));
      rest ← dep_contexts task_id deps';
      mret (mkDepContext dep (im_agent (is_meta issue)) response :: rest)
  end.

Definition spawn_one (plan : TaskPlan) : D unit :=
  deps ← dep_contexts (tp_task_id plan) (tp_depends_on plan);
  let composed := compose_body (tp_body plan) deps in
  req ← field (task_spawn_request (tp_task_id plan) (tp_agent plan));
  job_id ← spawn_detached (tp_task_id plan) req;
  store_write (fresh_issue (tp_task_id plan) (tp_agent plan) (tp_body plan) (tp_depends_on plan)
                 Spawned (Some job_id) composed);;
  modify (set_st_driver (set_job_to_task <[job_id := tp_task_id plan]>)).

Definition job_alive (job_id : N) : D bool :=
  gets (λ s, existsb (λ j, (dj_id j =? job_id)%N && bool_decide (dj_exit_code j = None))
               (env_jobs (st_trace s))).

Definition lost_task (task_id : str) (issue : Issue) : D Step :=
  store_write (set_response (Some #"lost on restart") (set_status Failed issue));;
  fast_forward task_id (OutcomeFailed #"lost on restart").

Definition reconcile_spawned (plan : TaskPlan) (issue : Issue) : D Step :=
  match im_job_id (is_meta issue) with
  | None => lost_task (tp_task_id plan) issue
  | Some job_id =>
      latest ← gets (λ s, env_latest_for_job (st_trace s) job_id);
      match latest with
      | Some ev =>
          outcome ← absorb (tp_task_id plan) ev;
          fast_forward (tp_task_id plan) outcome
      | None =>
          alive ← job_alive job_id;
          if (alive : bool) then
            modify (set_st_driver (set_job_to_task <[job_id := tp_task_id plan]>));; mret StepContinue
          else lost_task (tp_task_id plan) issue
      end
  end.

Definition process_one (plan : TaskPlan) : D Step :=
  let t := tp_task_id plan in
  r ← store_read t;
  match r with
  | None => spawn_one plan;; mret StepContinue
  | Some issue =>
      match im_status (is_meta issue) with
      | Pending => spawn_one plan;; mret StepContinue
      | Spawned => reconcile_spawned plan issue
      | Verifying =>
          specs ← field d_accept_specs;
          if bool_decide (is_Some (specs !! t)) then launch_oracle t;; mret StepContinue
          else dir ← field d_rfc_dir; fast_forward t (done_outcome dir issue)
      | Done | Verified => dir ← field d_rfc_dir; fast_forward t (done_outcome dir issue)
      | Failed => fast_forward t (OutcomeFailed (default #"failed" (is_response issue)))
      | Rejected => fast_forward t (OutcomeFailed #"acceptance oracle rejected after max attempts")
      end
  end.

(** The queue grows by what the kernel releases; one unit of fuel per task. *)
Fixpoint process_wave (fuel : nat) (queue : list TaskPlan) : D Flow :=
  match queue with
  | [] => mret FlowContinue
  | plan :: rest =>
      match fuel with
      | 0 => throw OutOfFuel
      | S fuel' =>
          step ← process_one plan;
          match step with
          | StepContinue => process_wave fuel' rest
          | StepCascade more => process_wave fuel' (rest ++ more)
          | StepStop => mret FlowDone
          end
      end
  end.

Section actor.
Context (fuel : nat).

Definition advance_into_flow (task_id : str) (outcome : TaskOutcome) : D Flow :=
  a ← advance task_id outcome;
  match a with
  | AdvancedStop => mret FlowDone
  | AdvancedWave wave => process_wave fuel wave
  end.

(** *** Messages *)

Definition handle_response (task_id : str) (ev : FinalResponseEvent) : D Flow :=
  outcome ← absorb task_id ev;
  specs ← field d_accept_specs;
  match outcome, specs !! task_id with
  | OutcomeDone _, Some _ => launch_oracle task_id;; mret FlowContinue
  | _, _ => advance_into_flow task_id outcome
  end.

Definition on_response (ev : FinalResponseEvent) : D Flow :=
  jobs ← field d_job_to_task;
  match jobs !! fr_job_id ev with
  | None => mret FlowContinue
  | Some task_id =>
      modify (set_st_driver (set_job_to_task (delete (fr_job_id ev))));;
      r ← attempt (handle_response task_id ev);
      match r with
      | Ok flow => mret flow
      | Err e => teardown (#"response " ++ tick task_id ++ #": " ++ driver_error_text e)
      end
  end.

Definition handle_verdict (task_id : str) (attempt : N) (result : AcceptanceResult) : D Flow :=
  specs ← field d_accept_specs;
  match specs !! task_id with
  | None => mret FlowContinue
  | Some spec =>
      issue ← read_issue task_id;
      if negb (im_attempt (is_meta issue) =? attempt)%N then mret FlowContinue
      else
        dir ← field d_rfc_dir;
        ts ← now;
        hash ← on_files (DriverSeal task_id)
                 (seal_verdict dir task_id (im_agent (is_meta issue)) attempt (as_command spec)
                    (ar_exit_code result) (passed result) ts);
        emit (EVerdict task_id attempt (passed result) hash);;
        let issue := set_verdict_seal (Some hash) issue in
        if passed result then
          let issue := set_status Verified issue in
          store_write issue;;
          advance_into_flow task_id (done_outcome dir issue)
        else if (u32_succ attempt <? as_max_attempts spec)%N then
          store_write issue;;
          retry_task task_id issue (as_command spec) (ar_output_tail result);;
          mret FlowContinue
        else
          store_write (set_status Rejected issue);;
          advance_into_flow task_id
            (OutcomeFailed (#"acceptance " ++ tick (as_command spec) ++ #" failed after "
                            ++ fmt_dec (u32_succ attempt) ++ #" attempt(s) (exit "
                            ++ fmt_i32 (ar_exit_code result) ++ #")"))
  end.

Definition on_verdict (task_id : str) (attempt : N) (result : AcceptanceResult) : D Flow :=
  r ← Effects.attempt (handle_verdict task_id attempt result);
  match r with
  | Ok flow => mret flow
  | Err e => teardown (#"verdict " ++ tick task_id ++ #": " ++ driver_error_text e)
  end.

(** *** The actor *)

Definition on_msg (msg : ProxyMsg) : D Flow :=
  match msg with
  | MsgResponse ev => on_response ev
  | MsgVerdict t a r => on_verdict t a r
  | MsgAbort => on_abort
  end.

(** The thread that posts a verdict ends. *)
Definition deliver (msg : ProxyMsg) (s : DState) : DState :=
  match msg with
  | MsgVerdict t a _ =>
      match list_find (λ o, o = (t, a)) (st_oracles s) with
      | Some (i, _) => set_st_oracles (delete i (st_oracles s)) s
      | None => s
      end
  | _ => s
  end.

Definition actor_start (wave : list TaskPlan) : D Flow :=
  r ← Effects.attempt (process_wave fuel wave);
  match r with
  | Ok flow => mret flow
  | Err e => teardown (#"initial wave: " ++ driver_error_text e)
  end.

Fixpoint drain (msgs : list ProxyMsg) : D unit :=
  match msgs with
  | [] => mret ()
  | msg :: msgs' =>
      modify (deliver msg);;
      flow ← on_msg msg;
      match flow with FlowDone => mret () | FlowContinue => drain msgs' end
  end.

Definition run_actor (wave : list TaskPlan) (msgs : list ProxyMsg) : D unit :=
  flow ← actor_start wave;
  match flow with FlowDone => mret () | FlowContinue => drain msgs end.

End actor.
End driver.

(** ** Starting and resuming a run ([lib.rs]) *)

Record ResolvedRuntime := mkResolvedRuntime {
  rr_command : str;
  rr_args : list str;
  rr_provider : option str;
  rr_runtime : option str;
}.

Class AgentResolver := resolve : str → option ResolvedRuntime.

Record DispatchTaskSpec := mkDispatchTaskSpec {
  ts_id : str;
  ts_agent : str;
  ts_body : str;
  ts_depends_on : list str;
  ts_accept : option str;
  ts_max_attempts : option N;
}.

Record DispatchRequest := mkDispatchRequest {
  rq_rfc_id : str;
  rq_project : str;
  rq_rfc_dir : path;
  rq_working_dir : option str;
  rq_strategy : str;
  rq_max_inflight : N;
  rq_on_task_fail : str;
  rq_global_accept : option str;
  rq_max_replans : N;
  rq_tasks : list DispatchTaskSpec;
}.

(** A started run is the driver and the wave its actor begins with. *)
Inductive DispatchStartOutcome :=
| Started (total_tasks : N) (driver : Driver) (wave : list TaskPlan)
| StartRefused (reason : str).

Inductive ResumeOutcome :=
| Resumed (total_tasks : N) (driver : Driver) (wave : list TaskPlan)
| NoRun
| AlreadyClosed (reason : str)
| ResumeRefused (reason : str).

(** [as u32] *)
Definition as_u32 (n : N) : N := (n mod 4294967296)%N.

Record World := mkWorld { w_fs : Fs; w_trace : list event }.

Definition world_files {E F A} (f : E → F) (m : M Fs E A) : M World F A := λ w,
  let '(r, fs) := m (w_fs w) in (map_err f r, mkWorld fs (w_trace w)).

Definition world_emit {F} (e : event) : M World F unit :=
  modify (λ w, mkWorld (w_fs w) (w_trace w ++ [e])).

(** [max_attempts.unwrap_or(1).max(1) as u32] of the tasks that have a command; a
    later task of the same name replaces an earlier one. *)
Definition accept_specs_of (tasks : list DispatchTaskSpec) : gmap str AcceptSpec :=
  foldl (λ m t, match ts_accept t with
                | Some cmd =>
                    <[ts_id t := mkAcceptSpec cmd (as_u32 (N.max 1 (default 1%N (ts_max_attempts t))))]> m
                | None => m
                end) ∅ tasks.

Section coordinator.
Context `{!Environment, !AgentResolver, !Sha256Bytes, !Serde IssueMeta, !Serde RunMeta,
          !Serde DispatchAuthorizeRequest}.

Definition resolve_one (spec : DispatchTaskSpec) : result str DispatchTaskRequest :=
  rt ← ok_or (resolve (ts_agent spec))
         (#"task " ++ tick (ts_id spec) ++ #": agent @" ++ ts_agent spec ++ #" has no command configured");
  Ok (mkDispatchTaskRequest (ts_id spec) (ts_agent spec) (ts_body spec) (rr_command rt) (rr_args rt)
        (rr_provider rt) (rr_runtime rt) (ts_depends_on spec)).

Fixpoint resolve_tasks (specs : list DispatchTaskSpec) : result str (list DispatchTaskRequest) :=
  match specs with
  | [] => Ok []
  | s :: specs' => t ← resolve_one s; ts ← resolve_tasks specs'; Ok (t :: ts)
  end.

Definition plan_hash (req : DispatchAuthorizeRequest) : str :=
  take 16 (sha256_bytes (utf8 (match ser req with Ok s => s | Err _ => [] end))).

Definition authorize_request (req : DispatchRequest) (tasks : list DispatchTaskRequest)
    : DispatchAuthorizeRequest :=
  mkDispatchAuthorizeRequest (rq_strategy req) (rq_max_inflight req) (rq_on_task_fail req) tasks.

(** The kernel's answer, a refusal as the reason for it. *)
Definition authorize (req : DispatchAuthorizeRequest) : M World str (str * N * list TaskPlan) :=
  r ← gets (λ w, env_authorize (w_trace w) req);
  world_emit (EAuthorize req r);;
  match r with
  | Ok (Authorized run_id total wave) => mret (run_id, total, wave)
  | Ok (AuthorizeRefused reason) => throw reason
  | Err e => throw (#"kernel unavailable: " ++ kernel_error_text e)
  end.

Fixpoint open_issues (dir : path) (specs : list DispatchTaskSpec) : M World str unit :=
  match specs with
  | [] => mret ()
  | s :: specs' =>
      let issue := fresh_issue (ts_id s) (ts_agent s) (ts_body s) (ts_depends_on s) Pending None (ts_body s) in
      world_files (λ e, #"issue " ++ tick (ts_id s) ++ #" unwritable: " ++ issue_error_text e)
        (issue_write dir issue);;
      world_emit (EWrite issue);;
      open_issues dir specs'
  end.

Definition open_run (req : DispatchRequest) (run_id : str) (auth : DispatchAuthorizeRequest)
    : M World str unit :=
  started ← gets (λ w, env_clock (w_trace w));
  world_files (λ e, #"dispatch run unwritable: " ++ issue_error_text e)
    (write_run (rq_rfc_dir req) (mkRunMeta run_id (plan_hash auth) (rq_strategy req) started None));;
  open_issues (rq_rfc_dir req) (rq_tasks req).

Definition launch (req : DispatchRequest) (run_id : str) (auth : DispatchAuthorizeRequest) : Driver :=
  mkDriver (rq_rfc_dir req) run_id (rq_rfc_id req) (rq_project req) (rq_working_dir req) ∅
    (accept_specs_of (rq_tasks req)) (rq_global_accept req) (as_u32 (rq_max_replans req)) auth 0 None.

Definition start_run_go (req : DispatchRequest) : M World str (N * Driver * list TaskPlan) :=
  tasks ← lift (resolve_tasks (rq_tasks req));
  let auth := authorize_request req tasks in
  a ← authorize auth;
  let '(run_id, total, wave) := a in
  open_run req run_id auth;;
  mret (total, launch req run_id auth, wave).

Definition start_run (req : DispatchRequest) (w : World) : DispatchStartOutcome * World :=
  match start_run_go req w with
  | (Ok (total, driver, wave), w') => (Started total driver wave, w')
  | (Err reason, w') => (StartRefused reason, w')
  end.

(** An early return is an error that carries the outcome. *)
Definition refusing {A} (m : M World str A) : M World ResumeOutcome A := λ w,
  let '(r, w') := m w in (map_err ResumeRefused r, w').

Definition resume_run_go (req : DispatchRequest) : M World ResumeOutcome ResumeOutcome :=
  r ← world_files (λ e, ResumeRefused (#"run meta unreadable: " ++ issue_error_text e))
        (read_run (rq_rfc_dir req));
  prior ← lift (ok_or r NoRun);
  match rm_closed prior with
  | Some reason => throw (AlreadyClosed reason)
  | None =>
      tasks ← refusing (lift (resolve_tasks (rq_tasks req)));
      let auth := authorize_request req tasks in
      a ← refusing (authorize auth);
      let '(run_id, total, wave) := a in
      world_files (λ e, ResumeRefused (#"run meta unwritable: " ++ issue_error_text e))
        (write_run (rq_rfc_dir req)
           (mkRunMeta run_id (plan_hash auth) (rq_strategy req) (rm_started prior) None));;
      mret (Resumed total (launch req run_id auth) wave)
  end.

Definition resume_run (req : DispatchRequest) (w : World) : ResumeOutcome * World :=
  match resume_run_go req w with
  | (Ok o, w') | (Err o, w') => (o, w')
  end.

End coordinator.
