(* ===== verification/DispatchRun.v ===== *)
(** * DispatchRun: what a dispatch run guarantees

    Theorems on [Dispatch]: which events the history of a run can contain and in
    which order (a task with an acceptance command is reported done only after a
    sealed passing verdict, or by recovery), that the kernel hears one outcome per
    task it handed out, that retries and rounds are bounded, and that a wave is
    processed in finitely many steps. *)

From Stdlib Require Import NArith ZArith Lia.
From stdpp Require Import base gmap strings option numbers list list_basics.
From S2P Require Import Prelude Effects Fs RfcCore RfcStore Issues DispatchSeal Dispatch.

(** ** Events *)

(** The tasks a reply hands out. *)
Definition wave_of (e : event) : list TaskPlan :=
  match e with
  | EAdvance _ (Ok (NextWave w)) => w
  | EFinalize req (Ok (Replan w _)) => if fz_passed req then [] else w
  | EAuthorize _ (Ok (Authorized _ _ w)) => w
  | _ => []
  end.

(** A reply that opens a round. *)
Definition opens_round (e : event) : bool :=
  match e with
  | EFinalize req (Ok (Replan _ _)) => negb (fz_passed req)
  | EAuthorize _ (Ok (Authorized _ _ _)) => true
  | _ => false
  end.

(** How many tasks were handed out in the current round. *)
Definition released (h : list event) : nat :=
  foldl (λ n e, if opens_round e then length (wave_of e) else n + length (wave_of e)) 0 h.

(** How often a task was handed out, and how often an outcome was reported. *)
Definition cnt (t : str) (l : list str) : nat := length (filter (λ x, x = t) l).

Definition handed (t : str) (h : list event) : nat :=
  cnt t (h ≫= λ e, map tp_task_id (wave_of e)).

Definition advanced_task (e : event) : list str :=
  match e with EAdvance req _ => [av_task_id req] | _ => [] end.

Definition advances (t : str) (h : list event) : nat := cnt t (h ≫= advanced_task).

(** Events of the end of a round: they report no task and claim nothing about one. *)
Definition fleet_event (e : event) : Prop :=
  match e with
  | ERead _ _ | EReplan _ _ | EGlobal _ _ | EAbort _ | EFinalize _ _ | EAuthorize _ _ => True
  | EWrite i => im_status (is_meta i) = Pending ∧ im_attempt (is_meta i) = 0%N
  | _ => False
  end.

(** Those among them that hand out nothing. *)
Definition quiet_event (e : event) : Prop := fleet_event e ∧ wave_of e = [] ∧ opens_round e = false.

(** ** The order of events *)

(** The verdict on the task just passed, was sealed, and is recorded in its issue. *)
Definition verdict_passed (h : list event) (t : str) : Prop :=
  ∃ h0 a hash i, h = h0 ++ [EVerdict t a true hash; EWrite i]
    ∧ im_status (is_meta i) = Verified ∧ im_verdict_seal (is_meta i) = Some hash
    ∧ im_attempt (is_meta i) = a.

(** The task was found finished on disk, or found spawned with its response
    captured meanwhile. *)
Definition recovered (h : list event) (t : str) : Prop :=
  (∃ h0 i, h = h0 ++ [ERead t (Some i)]
     ∧ (im_status (is_meta i) = Done ∨ im_status (is_meta i) = Verified))
  ∨ (∃ h0 i0 i1 hash i2,
       h = h0 ++ [ERead t (Some i0); ERead t (Some i1); EOutput t hash; EWrite i2]
       ∧ im_status (is_meta i0) = Spawned).

(** A failing verdict is recorded in an issue that keeps its status. *)
Definition rewritten (h : list event) (i : Issue) : Prop :=
  ∃ h0 t i0 a hash, h = h0 ++ [ERead t (Some i0); EVerdict t a false hash]
    ∧ i = set_verdict_seal (Some hash) i0.

Section order.
Context (specs : gmap str AcceptSpec).

Record write_ok (h : list event) (i : Issue) : Prop := {
  write_done : im_status (is_meta i) = Done →
    (∃ h0 t i0 hash, h = h0 ++ [ERead t (Some i0); EOutput t hash] ∧ im_seal (is_meta i) = Some hash)
    ∨ rewritten h i;
  write_verified : im_status (is_meta i) = Verified →
    (∃ h0 t i0 hash, h = h0 ++ [ERead t (Some i0); EVerdict t (im_attempt (is_meta i)) true hash]
       ∧ im_verdict_seal (is_meta i) = Some hash)
    ∨ rewritten h i;
  write_attempt req reply : last h = Some (ESpawn req reply) →
    im_attempt (is_meta i) = 0%N
    ∨ ∃ t spec, specs !! t = Some spec ∧ (im_attempt (is_meta i) < as_max_attempts spec)%N;
}.

Definition step_ok (h : list event) (e : event) : Prop :=
  match e with
  | EAdvance req _ =>
      ∀ o, av_outcome req = OutcomeDone o → is_Some (specs !! av_task_id req) →
      verdict_passed h (av_task_id req) ∨ recovered h (av_task_id req)
  | EWrite i => write_ok h i
  | EOracle t a c =>
      ∃ spec i, specs !! t = Some spec ∧ c = as_command spec ∧ last h = Some (EWrite i)
      ∧ im_status (is_meta i) = Verifying ∧ im_attempt (is_meta i) = a
  | _ => True
  end.

Definition trace_ok (h : list event) : Prop :=
  ∀ h1 e h2, h = h1 ++ e :: h2 → step_ok h1 e.

Lemma trace_ok_nil : trace_ok [].
Proof. intros [|? ?]; done. Qed.

Lemma trace_ok_snoc h e : trace_ok h → step_ok h e → trace_ok (h ++ [e]).
Proof.
  intros Hh He h1 e' h2 Heq. destruct h2 as [|e2 h2 _] using rev_ind.
  - apply app_inj_tail in Heq as [-> ->]. done.
  - rewrite app_comm_cons, app_assoc in Heq. apply app_inj_tail in Heq as [-> ->]. by eapply Hh.
Qed.

Lemma fleet_step_ok h e : fleet_event e → step_ok h e.
Proof.
  destruct e; try done. intros [Hs Ha]. split; [congruence|congruence|]. intros ?? _. by left.
Qed.

Lemma trace_ok_fleet h es : trace_ok h → Forall fleet_event es → trace_ok (h ++ es).
Proof.
  intros Hh. induction es as [|e es IH] using rev_ind; intros Hes; [by rewrite app_nil_r|].
  apply Forall_app in Hes as [Hes He]. rewrite app_assoc. apply trace_ok_snoc; [auto|].
  apply fleet_step_ok. by inversion He.
Qed.

End order.

(** ** Counting *)

Lemma cnt_app t l k : cnt t (l ++ k) = cnt t l + cnt t k.
Proof. unfold cnt. by rewrite filter_app, length_app. Qed.

Lemma cnt_cons t x l : cnt t (x :: l) = (if decide (x = t) then 1 else 0) + cnt t l.
Proof. unfold cnt. rewrite filter_cons. by case_decide. Qed.

Lemma handed_app t h k : handed t (h ++ k) = handed t h + handed t k.
Proof. unfold handed. by rewrite bind_app, cnt_app. Qed.

Lemma advances_app t h k : advances t (h ++ k) = advances t h + advances t k.
Proof. unfold advances. by rewrite bind_app, cnt_app. Qed.

Lemma handed_one t e : handed t [e] = cnt t (map tp_task_id (wave_of e)).
Proof. unfold handed. cbn. by rewrite app_nil_r. Qed.

Lemma advances_one t e : advances t [e] = cnt t (advanced_task e).
Proof. unfold advances. cbn. by rewrite app_nil_r. Qed.

Lemma advances_fleet t es : Forall fleet_event es → advances t es = 0.
Proof.
  induction 1 as [|e es He _ IH]; [done|]. change (e :: es) with ([e] ++ es).
  rewrite advances_app, IH. by destruct e.
Qed.

(** The jobs of a task. *)
Definition jobs_of (t : str) (m : gmap N str) : nat := size (filter (λ kv, kv.2 = t) m).

Lemma jobs_of_insert t j t' m :
  jobs_of t (<[j := t']> m) ≤ (if decide (t' = t) then 1 else 0) + jobs_of t m.
Proof.
  unfold jobs_of. case_decide as E.
  - rewrite map_filter_insert_True by done. rewrite map_size_insert. destruct (_ !! j); cbn; lia.
  - rewrite map_filter_insert_False by done. rewrite map_filter_delete, map_size_delete.
    destruct (_ !! j); cbn; lia.
Qed.

Lemma jobs_of_delete t j t' m :
  m !! j = Some t' → (if decide (t' = t) then 1 else 0) + jobs_of t (delete j m) = jobs_of t m.
Proof.
  intros Hj. unfold jobs_of. rewrite map_filter_delete, map_size_delete. case_decide as E.
  - assert (filter (λ kv : N * str, kv.2 = t) m !! j = Some t') as Hf by by apply map_lookup_filter_Some.
    rewrite Hf. assert (size (filter (λ kv : N * str, kv.2 = t) m) ≠ 0) as Hs; [|lia].
    intros Hs%map_size_empty_iff. rewrite Hs in Hf. done.
  - assert (filter (λ kv : N * str, kv.2 = t) m !! j = None) as Hf.
    { apply map_lookup_filter_None. right. intros x Hx. cbn. congruence. }
    by rewrite Hf.
Qed.

(** ** What a call leaves behind *)

(** [s'] is [s] after the events [es], up to the files, the identity of the run and
    the count of rounds. *)
Record ext (s : DState) (es : list event) (s' : DState) : Prop := {
  ext_trace : st_trace s' = st_trace s ++ es;
  ext_oracles : st_oracles s' = st_oracles s;
  ext_jobs : d_job_to_task (st_driver s') = d_job_to_task (st_driver s);
  ext_specs : d_accept_specs (st_driver s') = d_accept_specs (st_driver s);
  ext_max : d_max_replans (st_driver s') = d_max_replans (st_driver s);
}.

Lemma ext_refl s s' :
  st_trace s' = st_trace s → st_oracles s' = st_oracles s → st_driver s' = st_driver s → ext s [] s'.
Proof. intros Ht Ho Hd. split; rewrite ?app_nil_r, ?Hd; done. Qed.

Lemma ext_trans s es s' es' s'' : ext s es s' → ext s' es' s'' → ext s (es ++ es') s''.
Proof. intros [] []. split; [rewrite app_assoc|..]; congruence. Qed.

Definition round_of (s : DState) : N := d_round (st_driver s).

(** What is owed to the kernel: a task handed out is queued, has a job, is being
    verified or was reported; an outcome is never reported twice. *)
Record good (specs : gmap str AcceptSpec) (queue : list str) (s : DState) : Prop := {
  good_specs : d_accept_specs (st_driver s) = specs;
  good_trace : trace_ok specs (st_trace s);
  good_tokens t :
    advances t (st_trace s) + jobs_of t (d_job_to_task (st_driver s)) + cnt t (map fst (st_oracles s))
    + cnt t queue ≤ handed t (st_trace s);
}.

Section tokens.
Context (specs : gmap str AcceptSpec).
Implicit Types (s : DState) (q : list str).

Lemma good_sub q q' s : good specs q s → (∀ t, cnt t q' ≤ cnt t q) → good specs q' s.
Proof. intros [] Hq. split; [done|done|]. intros t. specialize (Hq t). specialize (good_tokens0 t). lia. Qed.

Lemma good_none q s : good specs q s → good specs [] s.
Proof. intros Hg. eapply good_sub; [done|]. intros t. cbn. lia. Qed.

Lemma good_fleet q s es s' : good specs q s → ext s es s' → Forall fleet_event es →
  good specs (q ++ (es ≫= λ e, map tp_task_id (wave_of e))) s'.
Proof.
  intros [Hs Ht Hk] [E1 E2 E3 E4 _] Hf. split; [congruence| |].
  - rewrite E1. by apply trace_ok_fleet.
  - intros t. specialize (Hk t). rewrite E1, E2, E3, advances_app, handed_app, cnt_app.
    rewrite (advances_fleet t es Hf). unfold handed at 2. lia.
Qed.

Lemma good_event q s e : good specs q s → step_ok specs (st_trace s) e → advanced_task e = [] →
  good specs (q ++ map tp_task_id (wave_of e)) (add_event e s).
Proof.
  intros [Hs Ht Hk] He Ha. split; [done|by apply trace_ok_snoc|]. intros t. specialize (Hk t).
  cbn [st_trace st_oracles st_driver add_event].
  rewrite advances_app, handed_app, handed_one, advances_one, cnt_app, Ha. cbn. lia.
Qed.

Lemma good_plain q s e : good specs q s → step_ok specs (st_trace s) e → advanced_task e = [] →
  wave_of e = [] → good specs q (add_event e s).
Proof.
  intros Hg He Ha Hw. pose proof (good_event q s e Hg He Ha) as Hg'. rewrite Hw in Hg'.
  by rewrite app_nil_r in Hg'.
Qed.

Lemma good_advance q s req reply :
  good specs (av_task_id req :: q) s → step_ok specs (st_trace s) (EAdvance req reply) →
  good specs (q ++ map tp_task_id (wave_of (EAdvance req reply))) (add_event (EAdvance req reply) s).
Proof.
  intros [Hs Ht Hk] He. split; [done|by apply trace_ok_snoc|]. intros t. specialize (Hk t).
  rewrite cnt_cons in Hk. cbn [st_trace st_oracles st_driver add_event].
  rewrite advances_app, handed_app, handed_one, advances_one, cnt_app. cbn [advanced_task].
  rewrite cnt_cons. cbn. lia.
Qed.

Lemma good_job q s t j :
  good specs (t :: q) s → good specs q (set_st_driver (set_job_to_task <[j := t]>) s).
Proof.
  intros [Hs Ht Hk]. split; [done|done|]. intros t'. specialize (Hk t'). rewrite cnt_cons in Hk.
  cbn [st_trace st_oracles st_driver set_st_driver d_job_to_task set_job_to_task].
  pose proof (jobs_of_insert t' j t (d_job_to_task (st_driver s))). lia.
Qed.

Lemma good_oracle q s t a :
  good specs (t :: q) s → good specs q (set_st_oracles (st_oracles s ++ [(t, a)]) s).
Proof.
  intros [Hs Ht Hk]. split; [done|done|]. intros t'. specialize (Hk t'). rewrite cnt_cons in Hk.
  cbn [st_trace st_oracles st_driver set_st_oracles]. rewrite map_app, cnt_app. cbn [map fst].
  rewrite cnt_cons. change (cnt t' []) with 0. lia.
Qed.

Lemma good_fs q s fs : good specs q s → good specs q (set_st_fs fs s).
Proof. by intros []. Qed.

End tokens.

(** ** Running an operation *)

(** The result and the state after [m] from [s]. *)
Definition runs {A} (s : DState) (m : D A) (Q : result DriverError A → DState → Prop) : Prop :=
  Q (m s).1 (m s).2.

Section runs_rules.
Context {A B : Type}.
Implicit Types (Q : result DriverError A → DState → Prop).

Lemma runs_mono s (m : D A) Q Q' : runs s m Q → (∀ r s', Q r s' → Q' r s') → runs s m Q'.
Proof. unfold runs. auto. Qed.

Lemma runs_and s (m : D A) Q Q' : runs s m Q → runs s m Q' → runs s m (λ r s', Q r s' ∧ Q' r s').
Proof. by split. Qed.

Lemma runs_bind s (m : D A) (k : A → D B) (Q : result DriverError B → DState → Prop) :
  runs s m (λ r s', match r with Ok a => runs s' (k a) Q | Err e => Q (Err e) s' end) →
  runs s (m ≫= k) Q.
Proof. unfold runs, mbind, M_bind. by destruct (m s) as [[a|e] s']. Qed.

Lemma runs_ret s (a : A) Q : Q (Ok a) s → runs s (mret a) Q.
Proof. done. Qed.

Lemma runs_throw s e Q : Q (Err e) s → runs s (throw e) Q.
Proof. done. Qed.

Lemma runs_lift s (r : result DriverError A) Q : Q r s → runs s (lift r) Q.
Proof. done. Qed.

Lemma runs_gets s (f : DState → A) Q : Q (Ok (f s)) s → runs s (gets f) Q.
Proof. done. Qed.

Lemma runs_field s (f : Driver → A) Q : Q (Ok (f (st_driver s))) s → runs s (field f) Q.
Proof. done. Qed.

Lemma runs_modify s f (Q : result DriverError unit → DState → Prop) :
  Q (Ok ()) (f s) → runs s (modify f) Q.
Proof. done. Qed.

Lemma runs_emit s e (Q : result DriverError unit → DState → Prop) :
  Q (Ok ()) (add_event e s) → runs s (emit e) Q.
Proof. done. Qed.

Lemma runs_attempt s (m : D A) (Q : result DriverError (result DriverError A) → DState → Prop) :
  runs s m (λ r s', Q (Ok r) s') → runs s (attempt m) Q.
Proof. unfold runs, attempt. by destruct (m s). Qed.

Lemma runs_ignore s (m : D A) (Q : result DriverError unit → DState → Prop) :
  runs s m (λ _ s', Q (Ok ()) s') → runs s (ignore m) Q.
Proof. done. Qed.

Lemma runs_files {E} s (f : E → DriverError) (m : M Fs E A) Q :
  (∀ r fs, Q (map_err f r) (set_st_fs fs s)) → runs s (on_files f m) Q.
Proof. intros HQ. unfold runs, on_files. destruct (m (st_fs s)) as [r fs]. apply HQ. Qed.

End runs_rules.

(** Runs the first calls of an operation down to the first that has a specification. *)
Ltac drun :=
  cbv beta iota;
  lazymatch goal with
  | |- runs _ (_ ≫= _) _ => apply runs_bind; drun
  | |- runs _ (field _) _ => apply runs_field; drun
  | |- runs _ (gets _) _ => apply runs_gets; drun
  | |- runs _ (mret _) _ => apply runs_ret; drun
  | |- runs _ (throw _) _ => apply runs_throw; drun
  | |- runs _ (lift _) _ => apply runs_lift; drun
  | |- runs _ (emit _) _ => apply runs_emit; drun
  | |- runs _ (modify _) _ => apply runs_modify; drun
  | |- runs _ (attempt _) _ => apply runs_attempt; drun
  | |- runs _ (ignore _) _ => apply runs_ignore; drun
  | _ => idtac
  end.

Section ops.
Context `{!Environment, !Sha256Bytes, !Serde IssueMeta, !Serde RunMeta, !Serde DispatchSealRecord}.

Lemma runs_store_read s t Q :
  (∀ fs r, Q (Ok r) (add_event (ERead t r) (set_st_fs fs s))) →
  (∀ fs e, Q (Err (DriverIssue e)) (set_st_fs fs s)) → runs s (store_read t) Q.
Proof.
  intros H1 H2. unfold store_read. drun. apply runs_files. intros [r|e] fs; cbn; [by drun|done].
Qed.

Lemma runs_store_write s i Q :
  (∀ fs, Q (Ok ()) (add_event (EWrite i) (set_st_fs fs s))) →
  (∀ fs e, Q (Err (DriverIssue e)) (set_st_fs fs s)) → runs s (store_write i) Q.
Proof.
  intros H1 H2. unfold store_write. drun. apply runs_files. intros [[]|e] fs; cbn; [by drun|done].
Qed.

(** *** Operations that report nothing *)

Definition calm {A} (m : D A) : Prop := ∀ s, runs s m (λ r s',
  ∃ es, ext s es s' ∧ Forall quiet_event es ∧ round_of s' = round_of s ∧ r ≠ Err OutOfFuel).

Lemma calm_bind {A B} (m : D A) (k : A → D B) : calm m → (∀ a, calm (k a)) → calm (m ≫= k).
Proof.
  intros Hm Hk s. apply runs_bind. eapply runs_mono; [apply Hm|].
  intros [a|e] s' (es & He & Hq & Hr & Hf); [|exists es; split_and!; [done..|]; intros [= ->]; by apply Hf].
  eapply runs_mono; [apply Hk|]. intros r s'' (es' & He' & Hq' & Hr' & Hf').
  exists (es ++ es'). split; [by eapply ext_trans|]. split; [by apply Forall_app|]. split; [congruence|done].
Qed.

Lemma calm_pure {A} (m : D A) :
  (∀ s, (m s).2 = s) → (∀ s, (m s).1 ≠ Err OutOfFuel) → calm m.
Proof. intros Hm Hf s. exists []. rewrite Hm. split; [by apply ext_refl|]. done. Qed.

Lemma calm_emit e : quiet_event e → calm (emit e).
Proof. intros He s. exists [e]. split; [by split|]. split; [by apply Forall_singleton|done]. Qed.

Lemma calm_files {E A} f (m : M Fs E A) : (∀ e, f e ≠ OutOfFuel) → calm (on_files f m).
Proof.
  intros Hf s. apply runs_files. intros r fs. exists []. split; [by apply ext_refl|].
  split; [done|]. split; [done|]. destruct r as [a|e]; [done|]. cbn. intros [= He]. by eapply Hf.
Qed.

Lemma calm_attempt {A} (m : D A) : calm m → calm (attempt m).
Proof.
  intros Hm s. apply runs_attempt. eapply runs_mono; [apply Hm|].
  intros r s' (es & He & Hq & Hr & _). exists es. done.
Qed.

Lemma calm_ignore {A} (m : D A) : calm m → calm (ignore m).
Proof.
  intros Hm s. apply runs_ignore. eapply runs_mono; [apply Hm|].
  intros r s' (es & He & Hq & Hr & _). exists es. done.
Qed.

Lemma calm_read t : calm (store_read t).
Proof.
  apply calm_bind; [by apply calm_pure|]. intros dir. apply calm_bind; [by apply calm_files|].
  intros r. apply calm_bind; [by apply calm_emit|]. intros []. by apply calm_pure.
Qed.

Lemma calm_modify f :
  (∀ s, ext s [] (f s)) → (∀ s, round_of (f s) = round_of s) → calm (modify f).
Proof. intros He Hr s. exists []. split_and!; [apply He|done|apply Hr|done]. Qed.

Lemma calm_reset t : calm (reset_issue_for_replan t).
Proof.
  apply calm_bind; [apply calm_read|]. intros [i|]; [|by apply calm_pure].
  apply calm_bind; [by apply calm_pure|]. intros dir. apply calm_bind; [by apply calm_files|].
  intros []. by apply calm_emit.
Qed.

Lemma calm_reset_all ids : calm (reset_all ids).
Proof.
  induction ids as [|t ids IH]; [by apply calm_pure|].
  apply calm_bind; [apply calm_reset|]. by intros [].
Qed.

Lemma calm_close_run reason : calm (close_run reason).
Proof.
  apply calm_bind; [by apply calm_pure|]. intros dir.
  apply calm_bind; [by apply calm_attempt, calm_files|].
  intros [[m|]|e]; [|by apply calm_pure..].
  destruct (rm_closed m); [by apply calm_pure|]. by apply calm_ignore, calm_files.
Qed.

Lemma calm_abort : calm abort_kernel.
Proof. apply calm_bind; [by apply calm_pure|]. intros r. by apply calm_emit. Qed.

Lemma calm_seal_replan d : calm (seal_replan d).
Proof.
  do 3 (apply calm_bind; [by apply calm_pure|]; intros ?).
  apply calm_bind; [by apply calm_attempt, calm_files|]. intros [h|e]; [by apply calm_emit|by apply calm_pure].
Qed.

Lemma calm_seal_global c r : calm (seal_global c r).
Proof.
  do 3 (apply calm_bind; [by apply calm_pure|]; intros ?).
  apply calm_bind; [by apply calm_attempt, calm_files|]. intros [h|e]; [by apply calm_emit|by apply calm_pure].
Qed.

Lemma calm_converged : calm notify_kernel_converged.
Proof.
  do 2 (apply calm_bind; [by apply calm_pure|]; intros ?). apply calm_ignore. intros s.
  unfold dispatch_finalize. drun. eexists [_]. split; [by split|]. split; [|done].
  apply Forall_singleton. split; [done|]. cbn. by destruct (env_finalize _ _) as [[]|].
Qed.

(** *** The end of a round *)

(** What the kernel answered. *)
Definition answered (e : event) : Prop :=
  match e with
  | EFinalize req r => ∃ h, r = env_finalize h req
  | EAuthorize req r => ∃ h, r = env_authorize h req
  | _ => True
  end.

(** The round ends the run, or a reply of the kernel opens the next one. *)
Definition fleet_post (s : DState) (r : result DriverError FleetStep) (s' : DState) : Prop :=
  match r with
  | Ok (FleetStop _) => ∃ es, ext s es s' ∧ Forall fleet_event es
  | Ok (FleetReplan w) =>
      ∃ es1 e es2, ext s (es1 ++ e :: es2) s' ∧ Forall quiet_event es1 ∧ Forall quiet_event es2
      ∧ fleet_event e ∧ answered e ∧ opens_round e = true ∧ wave_of e = w
      ∧ round_of s' = u32_succ (round_of s)
  | Err e => e ≠ OutOfFuel ∧ ∃ es, ext s es s' ∧ Forall fleet_event es
  end.

Lemma quiet_fleet es : Forall quiet_event es → Forall fleet_event es.
Proof. intros Hq. apply (list.Forall_impl quiet_event); [done|]. by intros e [? _]. Qed.

(** [m] runs without a report before [k]. *)
Lemma runs_calm_bind {A B} s (m : D A) (k : A → D B) Q :
  calm m →
  (∀ a es s', ext s es s' → Forall quiet_event es → round_of s' = round_of s → runs s' (k a) Q) →
  (∀ e es s', ext s es s' → Forall quiet_event es → e ≠ OutOfFuel → Q (Err e) s') →
  runs s (m ≫= k) Q.
Proof.
  intros Hm Hk He. apply runs_bind. eapply runs_mono; [apply Hm|].
  intros [a|e] s' (es & Hx & Hq & Hr & Hf); [by eapply Hk|]. eapply He; [done..|]. intros ->. by apply Hf.
Qed.

Lemma fleet_post_pre s es s1 r s' :
  ext s es s1 → Forall quiet_event es → round_of s1 = round_of s → fleet_post s1 r s' → fleet_post s r s'.
Proof.
  intros Hx Hq Hr. destruct r as [[reason|w]|e].
  - intros (es' & Hx' & Hf). exists (es ++ es'). split; [by eapply ext_trans|].
    apply Forall_app. auto using quiet_fleet.
  - intros (es1 & e & es2 & Hx' & H1 & H2 & He & Ha & Ho & Hw & Hr'). exists (es ++ es1), e, es2.
    rewrite <- app_assoc. split_and!; [by eapply ext_trans|by apply Forall_app|done..|congruence].
  - intros [Hne (es' & Hx' & Hf)]. split; [done|]. exists (es ++ es'). split; [by eapply ext_trans|].
    apply Forall_app. auto using quiet_fleet.
Qed.

Lemma runs_fleet_bind {A} s (m : D A) k :
  calm m → (∀ a s', runs s' (k a) (fleet_post s')) → runs s (m ≫= k) (fleet_post s).
Proof.
  intros Hm Hk. apply runs_calm_bind; [done| |].
  - intros a es s' Hx Hq Hr. eapply runs_mono; [apply Hk|]. intros r s''. by eapply fleet_post_pre.
  - intros e es s' Hx Hq He. split; [done|]. exists es. auto using quiet_fleet.
Qed.

Lemma fleet_stop s reason : runs s (mret (FleetStop reason)) (fleet_post s).
Proof. exists []. split; [by apply ext_refl|done]. Qed.

(** The reply that opens the next round, then the rest of it. *)
Lemma runs_opened {A} s es e es' s1 (m : D A) (stop : DriverError → str) w :
  ext s (es ++ e :: es') s1 → Forall quiet_event es → Forall quiet_event es' →
  round_of s1 = round_of s → fleet_event e → answered e → opens_round e = true → wave_of e = w → calm m →
  runs s1 (r ← attempt m;
           match r with
           | Err x => mret (FleetStop (stop x))
           | Ok _ => next_round;; mret (FleetReplan w)
           end) (fleet_post s).
Proof.
  intros Hx Hq Hq' Hr1 He Ha Ho Hw Hm.
  assert (Forall fleet_event (es ++ e :: es')) as Hf
    by (apply Forall_app_2; [|constructor]; auto using quiet_fleet).
  apply runs_calm_bind; [by apply calm_attempt| |].
  - intros [a|x] es2 s2 Hx2 Hq2 Hr2.
    + unfold next_round. drun. exists es, e, (es' ++ es2).
      split_and!; try done; [|by apply Forall_app|cbn; unfold round_of in *; congruence].
      pose proof (ext_trans _ _ _ _ _ Hx Hx2) as Hx3. rewrite <- app_assoc in Hx3. by destruct Hx3.
    + drun. exists ((es ++ e :: es') ++ es2). split; [by eapply ext_trans|].
      apply Forall_app_2; auto using quiet_fleet.
  - intros x es2 s2 Hx2 Hq2 Hne. split; [done|]. exists ((es ++ e :: es') ++ es2).
    split; [by eapply ext_trans|]. apply Forall_app_2; auto using quiet_fleet.
Qed.

Lemma ext_one s e : ext s [e] (add_event e s).
Proof. by split. Qed.

(** Re-authorising the whole plan. *)
Lemma runs_rerun_all s :
  runs s replan_rerun_all (λ r s',
    match r with
    | Ok w => ∃ e es, ext s (e :: es) s' ∧ fleet_event e ∧ answered e ∧ opens_round e = true
              ∧ wave_of e = w ∧ Forall quiet_event es ∧ round_of s' = round_of s
    | Err x => x ≠ OutOfFuel ∧ ∃ es, ext s es s' ∧ Forall fleet_event es
    end).
Proof.
  unfold replan_rerun_all, dispatch_authorize. drun. set (req := d_authorize_req _). set (r := env_authorize _ _).
  assert (answered (EAuthorize req r)) as Ha by by eexists.
  destruct r as [[run_id n w|reason]|x]; cbn [map_err]; drun; [|split; [done|]; eexists [_]; split; [by split|]; by apply Forall_singleton..].
  set (e := EAuthorize _ _) in *. set (s1 := add_event e s).
  assert (Forall fleet_event [e]) as Hfe by by apply Forall_singleton.
  apply runs_files. intros meta fs. cbv beta. set (s2 := set_st_fs _ _).
  assert (ext s [e] s2) as Hx by by split.
  apply runs_calm_bind.
  { destruct meta as [[m|]|x]; cbn; [by apply calm_ignore, calm_files|by apply calm_pure..]. }
  2: { intros x es s3 Hx3 Hq3 Hne. split; [done|]. exists ([e] ++ es). split; [by eapply ext_trans|].
       apply Forall_app. auto using quiet_fleet. }
  intros [] es3 s3 Hx3 Hq3 Hr3. apply runs_calm_bind; [apply calm_reset_all| |].
  - intros [] es4 s4 Hx4 Hq4 Hr4. drun. exists e, (es3 ++ es4).
    split_and!; try done; [|by apply Forall_app|rewrite Hr4, Hr3; done].
    apply (ext_trans _ [e] s2); [done|]. by eapply ext_trans.
  - intros x es4 s4 Hx4 Hq4 Hne. split; [done|]. exists ([e] ++ es3 ++ es4).
    split; [eapply ext_trans; [done|]; by eapply ext_trans|].
    repeat apply Forall_app_2; auto using quiet_fleet.
Qed.


Lemma runs_rerun_branch s :
  runs s (seal_replan #"rerun-all";;
          (r ← attempt replan_rerun_all;
           match r with
           | Ok wave => next_round;; mret (FleetReplan wave)
           | Err x => mret (FleetStop (#"re-plan failed: " ++ driver_error_text x))
           end)) (fleet_post s).
Proof.
  apply runs_fleet_bind; [apply calm_seal_replan|]. intros [] s1. drun.
  eapply runs_mono; [apply runs_rerun_all|]. intros [w|x] s2.
  - intros (e & es & Hx & Hf & Ha & Ho & Hw & Hq & Hr). unfold next_round. drun. exists [], e, es.
    split_and!; try done; [by destruct Hx|]. cbn. unfold round_of in *. by rewrite Hr.
  - intros [Hne (es & Hx & Hf)]. drun. by exists es.
Qed.

Lemma runs_replan s tail : runs s (replan tail) (fleet_post s).
Proof.
  unfold replan, dispatch_finalize. drun. set (req := mkDispatchFinalizeRequest _ _ _ _).
  set (r := env_finalize _ _). assert (answered (EFinalize req r)) as Ha by by eexists.
  set (s1 := add_event _ s). assert (ext s [EFinalize req r] s1) as Hx by by split.
  assert (∀ reason, runs s1 (mret (FleetStop reason)) (fleet_post s)) as Hstop.
  { intros reason. exists [EFinalize req r]. split; [done|]. by apply Forall_singleton. }
  assert (quiet_event (EFinalize req r) → runs s1 (seal_replan #"rerun-all";;
          (r ← attempt replan_rerun_all;
           match r with
           | Ok wave => next_round;; mret (FleetReplan wave)
           | Err x => mret (FleetStop (#"re-plan failed: " ++ driver_error_text x))
           end)) (fleet_post s)) as Hall.
  { intros Hq. eapply runs_mono; [apply runs_rerun_branch|]. intros r' s'.
    apply (fleet_post_pre s [EFinalize req r]); [done|by apply Forall_singleton|done]. }
  clearbody r. destruct r as [[|w ro|reason|reason]|x]; [by apply Hstop| |by apply Hstop|by apply Hall..].
  apply runs_calm_bind; [apply calm_seal_replan| |].
  - intros [] es s2 Hx2 Hq2 Hr2.
    eapply (runs_opened s [] (EFinalize req (Ok (Replan w ro))) es); try done; [|apply calm_reset_all].
    exact (ext_trans _ _ _ _ _ Hx Hx2).
  - intros x es s2 Hx2 Hq2 Hne. split; [done|]. eexists. split; [by eapply ext_trans|].
    apply Forall_app_2; [by apply Forall_singleton|auto using quiet_fleet].
Qed.

(** A round that opens is within the limit. *)
Definition round_post (s : DState) (r : result DriverError FleetStep) (s' : DState) : Prop :=
  fleet_post s r s' ∧ ∀ w, r = Ok (FleetReplan w) → (round_of s < d_max_replans (st_driver s))%N.

Lemma runs_round_bind {A} s (m : D A) k :
  calm m →
  (∀ a s', round_of s' = round_of s → d_max_replans (st_driver s') = d_max_replans (st_driver s) →
           runs s' (k a) (round_post s')) →
  runs s (m ≫= k) (round_post s).
Proof.
  intros Hm Hk. apply runs_calm_bind; [done| |].
  - intros a es s' Hx Hq Hr. eapply runs_mono; [apply Hk; [done|by destruct Hx]|].
    intros r s'' [Hf Hb]. split; [by eapply fleet_post_pre|]. intros w Hw. specialize (Hb w Hw).
    destruct Hx as [_ _ _ _ Hm']. by rewrite <- Hr, <- Hm'.
  - intros e es s' Hx Hq He. split; [|done]. split; [done|]. exists es. auto using quiet_fleet.
Qed.

Lemma round_stop s reason : runs s (mret (FleetStop reason)) (round_post s).
Proof. split; [apply fleet_stop|done]. Qed.

Lemma runs_finalize_round s : runs s finalize_round (round_post s).
Proof.
  unfold finalize_round. apply runs_round_bind; [by apply calm_pure|]. intros [cmd|] s1 _ _.
  2: { apply runs_round_bind; [apply calm_converged|]. intros [] s2 _ _. apply round_stop. }
  apply runs_round_bind; [apply calm_bind; [|intros ?]; by apply calm_pure|]. intros result s2 _ _.
  apply runs_round_bind; [apply calm_seal_global|]. intros [] s3 _ _. destruct (passed result).
  { apply runs_round_bind; [apply calm_converged|]. intros [] s4 _ _. apply round_stop. }
  drun. destruct (N.leb_spec (d_max_replans (st_driver s3)) (d_round (st_driver s3))) as [|Hlt]; [apply round_stop|].
  drun. case_bool_decide.
  { apply runs_round_bind; [apply calm_seal_replan|]. intros [] s4 _ _. apply round_stop. }
  drun. eapply runs_mono; [apply runs_replan|]. intros r s' Hf. split; [|done].
  refine (fleet_post_pre s3 [] _ _ _ _ _ _ Hf); [|done|done]. by split; cbn; rewrite ?app_nil_r.
Qed.

(** *** Reporting an outcome *)

Definition advance_event (s : DState) (run_id t : str) (o : TaskOutcome) : event :=
  let req := mkDispatchAdvanceRequest run_id t o in EAdvance req (env_advance (st_trace s) req).

Definition advance_post (t : str) (o : TaskOutcome) (s : DState) (r : result DriverError Advanced)
    (s' : DState) : Prop :=
  ∃ run_id, let e := advance_event s run_id t o in
  match r with
  | Ok (AdvancedWave w) =>
      (wave_of e = w ∧ ext s [e] s' ∧ round_of s' = round_of s)
      ∨ (∃ es1 e2 es2, wave_of e = [] ∧ ext s (e :: es1 ++ e2 :: es2) s'
         ∧ Forall quiet_event es1 ∧ Forall quiet_event es2 ∧ fleet_event e2 ∧ answered e2
         ∧ opens_round e2 = true ∧ wave_of e2 = w ∧ round_of s' = u32_succ (round_of s)
         ∧ (round_of s < d_max_replans (st_driver s))%N)
  | Ok AdvancedStop => ∃ es, ext s (e :: es) s' ∧ Forall fleet_event es
  | Err x => x ≠ OutOfFuel ∧ ∃ es, ext s (e :: es) s' ∧ Forall fleet_event es
  end.

Lemma ext_cons s e es s' : ext (add_event e s) es s' → ext s (e :: es) s'.
Proof. apply (ext_trans s [e]). apply ext_one. Qed.

(** The run ends after the report. *)
Lemma advance_stops s run_id t o es s1 (m : D unit) :
  ext s (advance_event s run_id t o :: es) s1 → Forall fleet_event es → calm m →
  runs s1 (m;; mret AdvancedStop) (advance_post t o s).
Proof.
  intros Hx Hf Hm. apply runs_calm_bind; [done| |].
  - intros [] es' s2 Hx' Hq _. exists run_id, (es ++ es'). split; [|apply Forall_app; auto using quiet_fleet].
    exact (ext_trans _ _ _ _ _ Hx Hx').
  - intros x es' s2 Hx' Hq Hne. exists run_id. split; [done|]. exists (es ++ es').
    split; [exact (ext_trans _ _ _ _ _ Hx Hx')|apply Forall_app; auto using quiet_fleet].
Qed.

Lemma runs_advance s t o : runs s (advance t o) (advance_post t o s).
Proof.
  unfold advance, dispatch_advance. drun. set (run_id := d_run_id _). set (req := mkDispatchAdvanceRequest _ _ _).
  set (r := env_advance _ _). set (s1 := add_event _ s).
  assert (ext s [advance_event s run_id t o] s1) as Hx by by split.
  assert (round_of s1 = round_of s ∧ d_max_replans (st_driver s1) = d_max_replans (st_driver s)) as [Hr1 Hm1] by done.
  assert (advance_event s run_id t o = EAdvance req r) as He by done. clearbody s1 r.
  destruct r as [[w|n|failed|failed|reason]|x]; cbn [map_err];
    cbv beta iota.
  - drun. exists run_id. left. by rewrite He in *.
  - apply runs_bind. eapply runs_mono; [apply runs_finalize_round|]. intros [[reason|w]|x] s2 [Hf Hb].
    + destruct Hf as (es & Hx2 & Hf). eapply advance_stops; [|done|apply calm_close_run].
      exact (ext_trans _ _ _ _ _ Hx Hx2).
    + destruct Hf as (es1 & e2 & es2 & Hx2 & H1 & H2 & Hfl & Ha & Ho & Hw & Hrd). drun. exists run_id. right.
      exists es1, e2, es2. split_and!; try done; [by rewrite He|exact (ext_trans _ _ _ _ _ Hx Hx2)|congruence|].
      rewrite <- Hr1, <- Hm1. by apply (Hb w).
    + destruct Hf as [Hne (es & Hx2 & Hf)]. exists run_id. split; [done|]. exists es.
      split; [exact (ext_trans _ _ _ _ _ Hx Hx2)|done].
  - eapply advance_stops; [done..|apply calm_close_run].
  - apply runs_calm_bind; [apply calm_close_run| |].
    + intros [] es s2 Hx2 Hq _. eapply advance_stops; [exact (ext_trans _ _ _ _ _ Hx Hx2)| |apply calm_abort].
      auto using quiet_fleet.
    + intros x es s2 Hx2 Hq Hne. exists run_id. split; [done|]. exists es.
      split; [exact (ext_trans _ _ _ _ _ Hx Hx2)|auto using quiet_fleet].
  - eapply advance_stops; [done..|apply calm_close_run].
  - exists run_id. split; [done|]. exists []. done.
Qed.

Lemma fast_forward_trace s t o :
  ∃ run_id es, st_trace (fast_forward t o s).2 = st_trace s ++ advance_event s run_id t o :: es
               ∧ Forall fleet_event es.
Proof.
  change (runs s (fast_forward t o) (λ _ s', ∃ run_id es,
    st_trace s' = st_trace s ++ advance_event s run_id t o :: es ∧ Forall fleet_event es)).
  apply runs_bind. eapply runs_mono; [apply runs_advance|]. intros r s' [run_id Hp]. cbv zeta in Hp.
  destruct r as [[w|]|x]; drun; exists run_id.
  - destruct Hp as [(_ & [Et _ _ _ _] & _)|(es1 & e2 & es2 & _ & [Et _ _ _ _] & Hq1 & Hq2 & He & _)].
    + by exists [].
    + eexists. split; [done|]. apply Forall_app_2; [|constructor]; auto using quiet_fleet.
  - by destruct Hp as (es & [Et _ _ _ _] & Hf); exists es.
  - by destruct Hp as [_ (es & [Et _ _ _ _] & Hf)]; exists es.
Qed.

(** A response that was captured is sealed and written, nothing else. *)
Lemma absorb_trace s t ev :
  runs s (absorb t ev) (λ r s',
    match r with
    | Ok (OutcomeDone _) => ∃ i h i2, st_trace s' = st_trace s ++ [ERead t (Some i); EOutput t h; EWrite i2]
    | _ => True
    end).
Proof.
  unfold absorb. apply runs_bind. apply runs_store_read; [|done]. intros fs [i|]; [|by drun].
  destruct (fr_response_path ev) as [p|].
  - unfold read_response, now. drun. apply runs_files. intros rt fs1. drun. apply runs_files.
    intros [h|e] fs2; cbn [map_err]; drun; [|done]. apply runs_store_write; [|done].
    intros fs3. drun. cbv zeta. exists i, h. eexists. cbn. by rewrite <- !app_assoc.
  - apply runs_bind. apply runs_store_write; [|done]. intros fs1. by drun.
Qed.

(** ** Outcomes and the order of events *)

Section order_and_tokens.
Context (specs : gmap str AcceptSpec).

Definition done_ok (h : list event) (t : str) (o : TaskOutcome) : Prop :=
  ∀ out, o = OutcomeDone out → is_Some (specs !! t) → verdict_passed h t ∨ recovered h t.

Lemma good_advanced q t o s r s' :
  good specs (t :: q) s → done_ok (st_trace s) t o → advance_post t o s r s' →
  match r with
  | Ok (AdvancedWave w) => good specs (q ++ map tp_task_id w) s'
  | _ => good specs q s'
  end.
Proof.
  intros Hg Ho [run_id Hp]. cbv zeta in Hp. set (e := advance_event s run_id t o) in *.
  assert (good specs (q ++ map tp_task_id (wave_of e)) (add_event e s)) as Hg1
    by by apply (good_advance specs q s).
  assert (∀ es s1, ext s (e :: es) s1 → Forall fleet_event es →
            good specs (q ++ map tp_task_id (wave_of e) ++ (es ≫= λ e, map tp_task_id (wave_of e))) s1) as Hes.
  { intros es s1 [E1 E2 E3 E4 E5] Hf. rewrite app_assoc. eapply good_fleet; [done| |done].
    split; cbn; try done. by rewrite E1, <- app_assoc. }
  assert (∀ es s1, ext s (e :: es) s1 → Forall fleet_event es → good specs q s1) as Hes0.
  { intros es s1 Hx Hf. eapply good_sub; [by apply Hes|]. intros t'. rewrite cnt_app. lia. }
  destruct r as [[w|]|x].
  - destruct Hp as [(<- & Hx & _)|(es1 & e2 & es2 & Hw & Hx & H1 & H2 & H3 & _ & _ & <- & _)].
    + specialize (Hes [] s' Hx). rewrite app_nil_r in Hes. by apply Hes.
    + eapply good_sub; [apply (Hes _ _ Hx)|].
      * apply Forall_app_2; [|constructor]; auto using quiet_fleet.
      * intros t'. rewrite Hw, bind_app, !cnt_app. cbn [map mbind list_bind app]. rewrite !cnt_app. lia.
  - destruct Hp as (es & Hx & Hf). by eapply Hes0.
  - destruct Hp as [_ (es & Hx & Hf)]. by eapply Hes0.
Qed.

(** A read, an output or a verdict that was sealed, a spawn. *)
Lemma good_inert q s e :
  match e with ERead _ _ | EOutput _ _ | EVerdict _ _ _ _ | ESpawn _ _ => True | _ => False end →
  good specs q s → good specs q (add_event e s).
Proof. intros He Hg. by apply good_plain; destruct e. Qed.

(** Goes back over the steps that keep [good]. *)
Ltac keep := repeat first [assumption | apply good_fs | apply good_inert; [exact I|]].

(** A write that makes no claim, not after a spawn. *)
Lemma good_write q s i :
  im_status (is_meta i) ≠ Done → im_status (is_meta i) ≠ Verified →
  (∀ req reply, last (st_trace s) ≠ Some (ESpawn req reply)) →
  good specs q s → good specs q (add_event (EWrite i) s).
Proof.
  intros H1 H2 H3 Hg. apply good_plain; try done. split; [done|done|]. intros req reply Hl. by destruct (H3 req reply).
Qed.

Lemma last_snoc_ne {A} (l : list A) x y : x ≠ y → last (l ++ [x]) ≠ Some y.
Proof. rewrite last_snoc. congruence. Qed.

Lemma runs_absorb q s t ev :
  good specs q s → runs s (absorb t ev) (λ _ s', good specs q s').
Proof.
  intros Hg. unfold absorb. apply runs_bind. apply runs_store_read.
  2: { intros fs e. cbv beta iota. keep. }
  intros fs [i|]; [|drun; keep].
  set (s1 := add_event _ _). assert (good specs q s1) as Hg1 by keep.
  destruct (fr_response_path ev) as [p|].
  - unfold read_response, now. drun. apply runs_files. intros rt fs1. drun. apply runs_files.
    intros [h|e] fs2; cbn [map_err]; drun; [|keep].
    apply runs_store_write; [|intros fs3 e; cbv beta iota; keep].
    intros fs3. drun. cbv zeta. apply good_plain; try done; [keep|]. split; [|done|].
    + intros _. left. exists (st_trace s), t, i, h. split; [|done]. cbn. by rewrite <- app_assoc.
    + intros req reply Hl. exfalso. revert Hl. by apply last_snoc_ne.
  - apply runs_bind. apply runs_store_write; [|intros fs1 e; cbv beta iota; keep].
    intros fs1. drun. apply good_write; try done; [|keep]. intros req reply. by apply last_snoc_ne.
Qed.

Lemma good_tail q t s : good specs (t :: q) s → good specs q s.
Proof. intros Hg. eapply good_sub; [done|]. intros t'. rewrite cnt_cons. lia. Qed.

Lemma runs_launch q s t :
  good specs (t :: q) s → runs s (launch_oracle t) (λ _ s', good specs q s').
Proof.
  intros Hg. unfold launch_oracle, read_issue. drun. destruct (_ !! t) as [spec|] eqn:Hs; [|drun; by eapply good_tail].
  drun. apply runs_store_read; [|intros fs e; cbv beta iota; apply good_fs; by eapply good_tail].
  intros fs [i|]; cbn [ok_or]; drun; [|apply good_inert; [done|]; apply good_fs; by eapply good_tail].
  apply runs_store_write; [|intros fs1 e; cbv beta iota; keep; by eapply good_tail].
  intros fs1. drun. apply good_oracle. apply good_plain; try done.
  - apply good_write; try done; [|keep]. intros req reply. by apply last_snoc_ne.
  - destruct Hg as [Hsp _ _]. exists spec, (set_status Verifying i). rewrite <- Hsp. split_and!; try done.
    apply last_snoc.
Qed.

Lemma runs_deps q s t deps :
  good specs q s → runs s (dep_contexts t deps) (λ _ s', good specs q s').
Proof.
  revert s. induction deps as [|dep deps IH]; intros s Hg; cbn [dep_contexts]; [by drun|].
  apply runs_bind. apply runs_store_read; [|intros fs e; cbv beta iota; keep].
  intros fs [i|]; cbn [ok_or]; drun; [|keep]. destruct (is_response i); cbn [ok_or]; drun; [|keep].
  eapply runs_mono; [apply IH; keep|]. intros [ctx|e] s' Hg'; [by drun|done].
Qed.

(** A job is spawned, written down and registered. *)
Lemma runs_spawned q s t req j i :
  good specs (t :: q) s → im_status (is_meta i) = Spawned →
  (im_attempt (is_meta i) = 0%N
   ∨ ∃ t spec, specs !! t = Some spec ∧ (im_attempt (is_meta i) < as_max_attempts spec)%N) →
  runs (add_event (ESpawn req (Ok j)) s)
    (store_write i;; modify (set_st_driver (set_job_to_task <[j := t]>)))
    (λ _ s', good specs q s').
Proof.
  intros Hg Hs Ha. apply runs_bind. apply runs_store_write.
  2: { intros fs e. cbv beta iota. keep. by eapply good_tail. }
  intros fs. drun. apply good_job. apply good_plain; try done; [keep|]. split; [congruence|congruence|]. done.
Qed.

Lemma runs_spawn_one q s plan :
  good specs (tp_task_id plan :: q) s → runs s (spawn_one plan) (λ _ s', good specs q s').
Proof.
  intros Hg. unfold spawn_one, spawn_detached. apply runs_bind.
  eapply runs_mono; [by apply runs_deps|]. intros [deps|e] s1 Hg1; [|by eapply good_tail].
  cbv zeta. drun. destruct (env_spawn _ _) as [j|e]; cbn [map_err]; cbv beta iota.
  - apply (runs_spawned _ _ (tp_task_id plan)); [done|done|by left].
  - keep. by eapply good_tail.
Qed.

Lemma runs_retry q s t i cmd tail spec :
  good specs (t :: q) s → specs !! t = Some spec →
  (u32_succ (im_attempt (is_meta i)) < as_max_attempts spec)%N →
  runs s (retry_task t i cmd tail) (λ _ s', good specs q s').
Proof.
  intros Hg Hs Ha. unfold retry_task, spawn_detached. cbv zeta. drun.
  destruct (env_spawn _ _) as [j|e]; cbn [map_err]; cbv beta iota.
  - apply (runs_spawned _ _ t); [done|done|]. right. by exists t, spec.
  - keep. by eapply good_tail.
Qed.

(** *** Waves *)

Definition step_post (q : list str) (r : result DriverError Step) (s' : DState) : Prop :=
  match r with
  | Ok (StepCascade w) => good specs (q ++ map tp_task_id w) s'
  | _ => good specs q s'
  end.

Lemma runs_fast_forward q s t o :
  good specs (t :: q) s → done_ok (st_trace s) t o → runs s (fast_forward t o) (step_post q).
Proof.
  intros Hg Ho. apply runs_bind. eapply runs_mono; [apply runs_advance|].
  intros r s' Hp. apply (good_advanced q) in Hp; [|done..]. by destruct r as [[w|]|e].
Qed.

Lemma runs_lost q s t i :
  (∀ req reply, last (st_trace s) ≠ Some (ESpawn req reply)) →
  good specs (t :: q) s → runs s (lost_task t i) (step_post q).
Proof.
  intros Hl Hg. apply runs_bind. apply runs_store_write.
  2: { intros fs e. cbv beta iota. apply good_fs. by eapply good_tail. }
  intros fs. cbv beta iota. apply runs_fast_forward; [|done]. apply good_write; try done. by apply good_fs.
Qed.

Lemma runs_reconcile q s0 s plan i :
  st_trace s = st_trace s0 ++ [ERead (tp_task_id plan) (Some i)] → im_status (is_meta i) = Spawned →
  good specs (tp_task_id plan :: q) s → runs s (reconcile_spawned plan i) (step_post q).
Proof.
  intros Ht Hs Hg. unfold reconcile_spawned.
  assert (∀ req reply, last (st_trace s) ≠ Some (ESpawn req reply)) as Hl
    by (intros req reply; rewrite Ht; by apply last_snoc_ne).
  destruct (im_job_id (is_meta i)) as [j|]; [|by apply runs_lost].
  apply runs_bind. apply runs_gets. cbv beta iota. destruct (env_latest_for_job _ j) as [ev|].
  - apply runs_bind. eapply runs_mono; [apply runs_and; [by apply runs_absorb|apply absorb_trace]|].
    intros [o|e] s' [Hg' Hp]; [|by eapply good_tail]. apply runs_fast_forward; [done|]. intros out -> _. destruct Hp as (i1 & h & i2 & Ht').
    right. right. exists (st_trace s0), i, i1, h, i2. split; [|done]. by rewrite Ht', Ht, <- app_assoc.
  - apply runs_bind. unfold job_alive. apply runs_gets. cbv beta iota. case_match; [|by apply runs_lost].
    drun. by apply good_job.
Qed.

Lemma runs_process_one q s plan :
  good specs (tp_task_id plan :: q) s → runs s (process_one plan) (step_post q).
Proof.
  intros Hg. unfold process_one. cbv zeta. apply runs_bind. apply runs_store_read.
  2: { intros fs e. cbv beta iota. apply good_fs. by eapply good_tail. }
  intros fs r. cbv beta iota. set (s1 := add_event _ _).
  assert (good specs (tp_task_id plan :: q) s1) as Hg1 by keep.
  assert (st_trace s1 = st_trace s ++ [ERead (tp_task_id plan) r]) as Ht by done.
  assert (runs s1 (spawn_one plan;; mret StepContinue) (step_post q)) as Hspawn.
  { apply runs_bind. eapply runs_mono; [by apply runs_spawn_one|]. intros [[]|e] s2 Hg2; [by drun|done]. }
  clearbody s1. destruct r as [i|]; [|done]. destruct (im_status (is_meta i)) eqn:Hs.
  - done.
  - by eapply runs_reconcile.
  - drun. apply runs_fast_forward; [done|]. intros out _ _. right. left. exists (st_trace s), i. auto.
  - apply runs_fast_forward; done.
  - drun. case_bool_decide as Hsp.
    + apply runs_bind. eapply runs_mono; [by apply runs_launch|]. intros [[]|e] s2 Hg2; [by drun|done].
    + drun. apply runs_fast_forward; [done|]. intros out _ Hin. destruct Hg1 as [Hg1 _ _]. by rewrite Hg1 in Hsp.
  - drun. apply runs_fast_forward; [done|]. intros out _ _. right. left. exists (st_trace s), i. auto.
  - apply runs_fast_forward; done.
Qed.

Lemma runs_process_wave fuel queue s :
  good specs (map tp_task_id queue) s →
  runs s (process_wave fuel queue) (λ _ s', good specs [] s').
Proof.
  revert queue s. induction fuel as [|fuel IH]; intros [|plan rest] s Hg; cbn [process_wave].
  - by drun.
  - drun. by eapply good_none.
  - by drun.
  - apply runs_bind. eapply runs_mono; [by apply runs_process_one|]. intros [[|w|]|e] s' Hg'; cbn in Hg'.
    + by apply IH.
    + apply IH. by rewrite map_app.
    + drun. by eapply good_none.
    + by eapply good_none.
Qed.

(** *** Messages *)

Context (fuel : nat).

Lemma good_calm {A} q s (m : D A) : calm m → good specs q s → runs s m (λ _ s', good specs q s').
Proof.
  intros Hm Hg. eapply runs_mono; [apply Hm|]. intros r s' (es & Hx & Hq & _).
  eapply good_sub; [eapply good_fleet; [done..|by apply quiet_fleet]|]. intros t. rewrite cnt_app. lia.
Qed.

Lemma runs_advance_flow s t o :
  good specs [t] s → done_ok (st_trace s) t o →
  runs s (advance_into_flow fuel t o) (λ _ s', good specs [] s').
Proof.
  intros Hg Ho. apply runs_bind. eapply runs_mono; [apply runs_advance|].
  intros r s' Hp. apply (good_advanced []) in Hp; [|done..]. destruct r as [[w|]|e]; [|by drun|done].
  by apply runs_process_wave.
Qed.

Lemma runs_handle_response s t ev :
  good specs [t] s → runs s (handle_response fuel t ev) (λ _ s', good specs [] s').
Proof.
  intros Hg. unfold handle_response. apply runs_bind.
  eapply runs_mono; [by apply runs_absorb|]. intros [o|e] s1 Hg1; [|by eapply good_none].
  drun. destruct Hg1 as [Hsp Ht Hk]. assert (good specs [t] s1) as Hg1 by by split. rewrite Hsp.
  destruct o as [out|reason]; [|by apply runs_advance_flow]. destruct (specs !! t) as [spec|] eqn:Hs.
  - apply runs_bind. eapply runs_mono; [by apply runs_launch|]. intros [[]|e] s2 Hg2; [by drun|done].
  - apply runs_advance_flow; [done|]. intros out' _ [spec Hspec]. congruence.
Qed.

Lemma runs_handle_verdict s t a res :
  good specs [t] s → runs s (handle_verdict fuel t a res) (λ _ s', good specs [] s').
Proof.
  intros Hg. unfold handle_verdict, read_issue, now. drun. rewrite (good_specs _ _ _ Hg).
  destruct (specs !! t) as [spec|] eqn:Hs; [|drun; by eapply good_none].
  drun. apply runs_store_read; [|intros fs e; cbv beta iota; apply good_fs; by eapply good_none].
  intros fs [i|]; cbn [ok_or]; drun; [|keep; by eapply good_none].
  set (s1 := add_event _ _). assert (good specs [t] s1) as Hg1 by keep.
  destruct (N.eqb_spec (im_attempt (is_meta i)) a) as [<-|Hne]; cbn [negb]; [|drun; by eapply good_none].
  drun. apply runs_files. intros [h|e] fs1; cbn [map_err]; drun; [|keep; by eapply good_none].
  set (s2 := add_event _ _). assert (good specs [t] s2) as Hg2 by keep.
  assert (st_trace s2 = st_trace s ++ [ERead t (Some i); EVerdict t (im_attempt (is_meta i)) (passed res) h]) as Ht
    by (cbn; by rewrite <- app_assoc).
  assert (∀ req reply, last (st_trace s2) ≠ Some (ESpawn req reply)) as Hl by (intros; by apply last_snoc_ne).
  cbv zeta. destruct (passed res).
  - apply runs_bind. apply runs_store_write; [|intros fs2 e; cbv beta iota; keep; by eapply good_none].
    intros fs2. cbv beta iota. apply runs_advance_flow.
    + apply good_plain; try done; [keep|]. split; [done| |].
      * intros _. left. exists (st_trace s), t, i, h. split; [exact Ht|done].
      * intros req reply HH. by destruct (Hl req reply).
    + intros out _ _. left. exists (st_trace s ++ [ERead t (Some i)]), (im_attempt (is_meta i)), h,
        (set_status Verified (set_verdict_seal (Some h) i)). split; [|done]. cbn [st_trace add_event set_st_fs]. rewrite Ht. by rewrite <- !app_assoc.
  - destruct (N.ltb_spec (u32_succ (im_attempt (is_meta i))) (as_max_attempts spec)) as [Hlt|_].
    + drun. apply runs_store_write; [|intros fs2 e; cbv beta iota; keep; by eapply good_none].
      intros fs2. cbv beta iota. apply runs_bind. eapply runs_mono.
      * eapply (runs_retry []); [|done|done]. apply good_plain; try done; [keep|]. split; [intros _..|].
        1-2: right; exists (st_trace s), t, i, (im_attempt (is_meta i)), h; split; [exact Ht|done].
        intros req reply HH. by destruct (Hl req reply).
      * intros [[]|e] s3 Hg3; [by drun|done].
    + apply runs_bind. apply runs_store_write; [|intros fs2 e; cbv beta iota; keep; by eapply good_none].
      intros fs2. cbv beta iota. apply runs_advance_flow; [|done]. apply good_write; try done. keep.
Qed.

Lemma runs_teardown s reason : good specs [] s → runs s (teardown reason) (λ _ s', good specs [] s').
Proof.
  apply good_calm. apply calm_bind; [apply calm_close_run|]. intros []. apply calm_bind; [apply calm_abort|].
  intros []. by apply calm_pure.
Qed.

Lemma good_take_job s j t :
  good specs [] s → d_job_to_task (st_driver s) !! j = Some t →
  good specs [t] (set_st_driver (set_job_to_task (delete j)) s).
Proof.
  intros [Hsp Ht Hk] Hj. split; [done|done|]. intros t'. specialize (Hk t').
  cbn [st_trace st_oracles st_driver set_st_driver d_job_to_task set_job_to_task].
  pose proof (jobs_of_delete t' j t _ Hj). rewrite cnt_cons. cbn in *. lia.
Qed.

Lemma runs_on_response s ev : good specs [] s → runs s (on_response fuel ev) (λ _ s', good specs [] s').
Proof.
  intros Hg. unfold on_response. drun. destruct (_ !! fr_job_id ev) as [t|] eqn:Hj; [|by drun].
  drun. eapply runs_mono; [by eapply runs_handle_response, good_take_job|].
  intros [flow|e] s1 Hg1; [by drun|by apply runs_teardown].
Qed.

Lemma runs_on_verdict s t a r :
  good specs [t] s → runs s (on_verdict fuel t a r) (λ _ s', good specs [] s').
Proof.
  intros Hg. unfold on_verdict. drun. eapply runs_mono; [by apply runs_handle_verdict|].
  intros [flow|e] s1 Hg1; [by drun|by apply runs_teardown].
Qed.

Lemma runs_actor_start s wave :
  good specs (map tp_task_id wave) s → runs s (actor_start fuel wave) (λ _ s', good specs [] s').
Proof.
  intros Hg. unfold actor_start. drun. eapply runs_mono; [by apply runs_process_wave|].
  intros [flow|e] s1 Hg1; [by drun|by apply runs_teardown].
Qed.

(** A verdict can only arrive from an acceptance command that was started. *)
Definition sendable (msg : ProxyMsg) (s : DState) : Prop :=
  match msg with MsgVerdict t a _ => (t, a) ∈ st_oracles s | _ => True end.

Lemma cnt_perm t l k : l ≡ₚ k → cnt t l = cnt t k.
Proof. intros Hp. unfold cnt. by rewrite Hp. Qed.

Lemma good_deliver s t a r :
  good specs [] s → (t, a) ∈ st_oracles s → good specs [t] (deliver (MsgVerdict t a r) s).
Proof.
  intros [Hsp Ht Hk] Hin. unfold deliver.
  destruct (list_find (λ o, o = (t, a)) (st_oracles s)) as [[j o]|] eqn:Hf.
  - apply list_find_Some in Hf as (Hj & -> & _). split; [done|done|]. intros t'. specialize (Hk t').
    cbn [st_trace st_oracles st_driver set_st_oracles].
    pose proof (cnt_perm t' _ _ (fmap_Permutation fst _ _ (delete_Permutation _ _ _ Hj))) as Hp.
    change (cnt t' (map fst (st_oracles s)) = cnt t' (t :: map fst (delete j (st_oracles s)))) in Hp.
    rewrite !cnt_cons in *. change (cnt t' []) with 0 in *. lia.
  - apply list_find_None in Hf. rewrite list.Forall_forall in Hf. by destruct (Hf _ Hin).
Qed.

Lemma runs_on_msg s msg :
  good specs [] s → sendable msg s → runs (deliver msg s) (on_msg fuel msg) (λ _ s', good specs [] s').
Proof.
  intros Hg Hs. destruct msg as [ev|t a r|]; cbn [on_msg].
  - by apply runs_on_response.
  - apply runs_on_verdict. by apply good_deliver.
  - by apply runs_teardown.
Qed.

End order_and_tokens.
(** ** The actor *)

(** The states an actor goes through: the first wave, then the messages of its
    channel, until one ends the run. *)
Inductive actor (fuel : nat) (wave : list TaskPlan) (s0 : DState) : Flow → DState → Prop :=
| actor_begin flow s :
    actor_start fuel wave s0 = (Ok flow, s) → actor fuel wave s0 flow s
| actor_msg msg flow s s' :
    actor fuel wave s0 FlowContinue s → sendable msg s →
    on_msg fuel msg (deliver msg s) = (Ok flow, s') → actor fuel wave s0 flow s'.

Lemma close_run_ok reason s : ∃ s', close_run reason s = (Ok (), s').
Proof.
  unfold close_run, field, gets, attempt, mbind, M_bind. cbv beta iota.
  destruct (on_files DriverIssue _ s) as [[[m|]|e] s1]; [|by eexists..].
  destruct (rm_closed m); by eexists.
Qed.

Lemma teardown_ok reason s : ∃ s', teardown reason s = (Ok FlowDone, s').
Proof.
  unfold teardown, mbind, M_bind. destruct (close_run_ok reason s) as [s1 ->]. cbv beta iota. by eexists.
Qed.

(** An error ends the run in [teardown]; no message is answered by an error. *)
Lemma attempted_ok {A} (m : D A) (k : A → Flow) (f : DriverError → str) s :
  ∃ flow s', (r ← attempt m; match r with Ok a => mret (k a) | Err e => teardown (f e) end) s = (Ok flow, s').
Proof.
  unfold attempt, mbind, M_bind. destruct (m s) as [[a|e] s1]; cbv beta iota; [by eexists _, _|].
  destruct (teardown_ok (f e) s1) as [s2 ->]. by eexists _, _.
Qed.

Lemma actor_start_ok fuel wave s : ∃ flow s', actor_start fuel wave s = (Ok flow, s').
Proof. apply (attempted_ok _ (λ x, x)). Qed.

Lemma on_msg_ok fuel msg s : ∃ flow s', on_msg fuel msg s = (Ok flow, s').
Proof.
  destruct msg as [ev|t a r|]; cbn [on_msg].
  - unfold on_response, field, gets. unfold mbind at 1, M_bind at 1. cbv beta iota.
    destruct (_ !! fr_job_id ev) as [t|]; [|by eexists _, _].
    unfold modify. unfold mbind at 1, M_bind at 1. cbv beta iota. apply (attempted_ok _ (λ x, x)).
  - apply (attempted_ok _ (λ x, x)).
  - destruct (teardown_ok #"cancelled" s) as [s1 Hs]. exists FlowDone, s1. exact Hs.
Qed.

(** Each message can be in the channel when its turn comes. *)
Fixpoint timely (fuel : nat) (msgs : list ProxyMsg) (s : DState) : Prop :=
  match msgs with
  | [] => True
  | msg :: msgs' =>
      sendable msg s
      ∧ match on_msg fuel msg (deliver msg s) with
        | (Ok FlowContinue, s') => timely fuel msgs' s'
        | _ => True
        end
  end.

(** [run_actor] ends in a state of the actor. *)
Lemma drain_actor fuel wave s0 msgs s :
  actor fuel wave s0 FlowContinue s → timely fuel msgs s →
  ∃ flow, actor fuel wave s0 flow (drain fuel msgs s).2.
Proof.
  revert s. induction msgs as [|msg msgs IH]; intros s Ha Ht; [by eexists|].
  destruct Ht as [Hs Ht]. destruct (on_msg_ok fuel msg (deliver msg s)) as (flow & s' & Hm). rewrite Hm in Ht.
  assert (actor fuel wave s0 flow s') as Ha' by by eapply actor_msg.
  cbn [drain]. unfold modify, mbind, M_bind. cbv beta iota. rewrite Hm.
  destruct flow; [by apply IH|by eexists].
Qed.

Lemma run_actor_actor fuel wave s0 msgs :
  (∀ s, actor_start fuel wave s0 = (Ok FlowContinue, s) → timely fuel msgs s) →
  ∃ flow, actor fuel wave s0 flow (run_actor fuel wave msgs s0).2.
Proof.
  intros Ht. destruct (actor_start_ok fuel wave s0) as (flow & s & Hs).
  assert (actor fuel wave s0 flow s) as Ha by by apply actor_begin.
  unfold run_actor, mbind, M_bind. rewrite Hs. destruct flow; [by apply drain_actor; auto|by eexists].
Qed.

Lemma actor_good specs fuel wave s0 flow s :
  good specs (map tp_task_id wave) s0 → actor fuel wave s0 flow s → good specs [] s.
Proof.
  intros Hg. induction 1 as [flow s Hs|msg flow s s' _ IH Hm Hs].
  - pose proof (runs_actor_start specs fuel s0 wave Hg) as Hr. unfold runs in Hr. by rewrite Hs in Hr.
  - pose proof (runs_on_msg specs fuel s msg IH Hm) as Hr. unfold runs in Hr. by rewrite Hs in Hr.
Qed.

End ops.

(** ** Runs that are started or resumed *)

Section runs_of_requests.
Context `{!Environment, !AgentResolver, !Sha256Bytes, !Serde IssueMeta, !Serde RunMeta,
          !Serde DispatchSealRecord, !Serde DispatchAuthorizeRequest}.

(** A run of the request: what the actor starts from. *)
Inductive started (req : DispatchRequest) : DState → list TaskPlan → Prop :=
| by_start w w' n d wave :
    w_trace w = [] → start_run req w = (Started n d wave, w') →
    started req (mkDState d (w_fs w') [] (w_trace w')) wave
| by_resume w w' n d wave :
    w_trace w = [] → resume_run req w = (Resumed n d wave, w') →
    started req (mkDState d (w_fs w') [] (w_trace w')) wave.

Lemma world_files_trace {E F A} (f : E → F) (m : M Fs E A) w r w' :
  world_files f m w = (r, w') → w_trace w' = w_trace w.
Proof. unfold world_files. destruct (m (w_fs w)). by intros [= _ <-]. Qed.

Lemma open_issues_trace dir specs w r w' :
  open_issues dir specs w = (r, w') → ∃ es, w_trace w' = w_trace w ++ es ∧ Forall quiet_event es.
Proof.
  revert w. induction specs as [|sp specs IH]; intros w; cbn [open_issues].
  { intros [= _ <-]. exists []. by rewrite app_nil_r. }
  intros Hb. apply M_bind_inv in Hb as [([] & w1 & Hf & Hb)|(e & Hf & _)];
    apply world_files_trace in Hf; [|exists []; by rewrite app_nil_r].
  apply M_bind_inv in Hb as [([] & w2 & He & Hb)|(e & He & _)]; [|done].
  injection He as <-. apply IH in Hb as (es & Hes & Hq). eexists (_ :: es).
  split; [rewrite Hes; cbn [w_trace]; rewrite Hf, <- app_assoc; done|]. by constructor.
Qed.

Lemma authorize_Ok auth w run_id n wave w' :
  authorize auth w = (Ok (run_id, n, wave), w') →
  env_authorize (w_trace w) auth = Ok (Authorized run_id n wave)
  ∧ w_trace w' = w_trace w ++ [EAuthorize auth (Ok (Authorized run_id n wave))].
Proof.
  unfold authorize, gets, mbind, M_bind. cbv beta iota. cbn [world_emit modify].
  destruct (env_authorize _ _) as [[run_id' n' wave'|]|]; try done. by intros [= -> -> -> <-].
Qed.

(** What the actor starts from: a plan the kernel authorised, and nothing reported. *)
Definition launched (req : DispatchRequest) (s : DState) (wave : list TaskPlan) : Prop :=
  ∃ run_id n auth es,
    st_trace s = EAuthorize auth (Ok (Authorized run_id n wave)) :: es ∧ Forall quiet_event es
    ∧ env_authorize [] auth = Ok (Authorized run_id n wave)
    ∧ st_driver s = launch req run_id auth ∧ st_oracles s = [].

Lemma start_run_go_Ok req w n d wave w' :
  start_run_go req w = (Ok (n, d, wave), w') → w_trace w = [] →
  launched req (mkDState d (w_fs w') [] (w_trace w')) wave.
Proof.
  intros Hgo Hw. unfold start_run_go in Hgo.
  apply M_bind_Ok in Hgo as (tasks & w2 & Ht & Hgo). injection Ht as _ <-.
  apply M_bind_Ok in Hgo as ([[run_id n''] wave''] & w2 & Ha & Hgo). apply authorize_Ok in Ha as [He Ha].
  apply M_bind_Ok in Hgo as ([] & w3 & Ho & Hgo). injection Hgo as -> <- -> <-.
  apply M_bind_Ok in Ho as (started & w4 & Hst & Ho). injection Hst as _ <-.
  apply M_bind_Ok in Ho as ([] & w5 & Hst & Ho). apply world_files_trace in Hst.
  apply open_issues_trace in Ho as (es & Hes & Hq). rewrite Hst, Ha, Hw in Hes. rewrite Hw in He.
  eexists _, _, _, es. split; [exact Hes|done].
Qed.

Lemma resume_run_go_Ok req w n d wave w' :
  resume_run_go req w = (Ok (Resumed n d wave), w') → w_trace w = [] →
  launched req (mkDState d (w_fs w') [] (w_trace w')) wave.
Proof.
  intros Hgo Hw. unfold resume_run_go in Hgo.
  apply M_bind_Ok in Hgo as (prior & w2 & Hf & Hgo). apply world_files_trace in Hf.
  apply M_bind_Ok in Hgo as (m & w3 & Hm & Hgo). injection Hm as _ <-.
  destruct (rm_closed m); [done|].
  apply M_bind_Ok in Hgo as (tasks & w3 & Ht & Hgo). unfold refusing, lift in Ht. injection Ht as _ <-.
  apply M_bind_Ok in Hgo as ([[run_id n''] wave''] & w3 & Ha & Hgo). unfold refusing in Ha.
  destruct (authorize _ w2) as [[x|e] w4] eqn:Hau; [|done]. injection Ha as -> <-.
  apply authorize_Ok in Hau as [He Ha].
  apply M_bind_Ok in Hgo as ([] & w5 & Hf5 & Hgo). injection Hgo as -> <- -> <-.
  apply world_files_trace in Hf5. rewrite Hf, Hw in Ha, He. rewrite Ha in Hf5.
  eexists _, _, _, []. split; [exact Hf5|done].
Qed.

Lemma world_files_err {E F A} (f : E → F) (m : M Fs E A) w e w' :
  world_files f m w = (Err e, w') → ∃ x, e = f x.
Proof. unfold world_files. destruct (m (w_fs w)) as [[a|x] fs]; [done|]. intros [= <- _]. by eexists. Qed.

(** An early return of [resume_run] never claims a resumed run. *)
Lemma resume_run_go_Err req w n d wave w' : resume_run_go req w ≠ (Err (Resumed n d wave), w').
Proof.
  intros Hgo. unfold resume_run_go in Hgo.
  apply M_bind_inv in Hgo as [(prior & w2 & _ & Hgo)|(e & Hf & He)].
  2: { apply world_files_err in Hf as [x ->]. done. }
  apply M_bind_inv in Hgo as [(m & w3 & _ & Hgo)|(e & Hm & He)].
  2: { unfold lift in Hm. destruct prior; cbn in Hm; congruence. }
  destruct (rm_closed m); [done|].
  apply M_bind_inv in Hgo as [(tasks & w4 & _ & Hgo)|(e & Hf & He)].
  2: { unfold refusing, lift in Hf. destruct (resolve_tasks _); cbn in Hf; congruence. }
  apply M_bind_inv in Hgo as [([[run_id n''] wave''] & w5 & _ & Hgo)|(e & Hf & He)].
  2: { unfold refusing in Hf. destruct (authorize _ _) as [[] ?]; cbn in Hf; congruence. }
  apply M_bind_inv in Hgo as [([] & w6 & _ & Hgo)|(e & Hf & He)]; [done|].
  apply world_files_err in Hf as [x ->]. done.
Qed.

Lemma started_launched req s wave : started req s wave → launched req s wave.
Proof.
  intros [w w' n d wave' Hw Hs|w w' n d wave' Hw Hs].
  - unfold start_run in Hs. destruct (start_run_go req w) as [[[[n' d'] wv]|e] w1] eqn:Hgo; [|done].
    injection Hs as -> -> -> ->. by eapply start_run_go_Ok.
  - unfold resume_run in Hs. destruct (resume_run_go req w) as [[o|o] w1] eqn:Hgo; injection Hs as -> ->.
    + by eapply resume_run_go_Ok.
    + by apply resume_run_go_Err in Hgo.
Qed.

Lemma launched_good req s wave :
  launched req s wave → good (accept_specs_of (rq_tasks req)) (map tp_task_id wave) s.
Proof.
  intros (run_id & n & auth & es & Ht & Hq & _ & Hd & Ho).
  set (e := EAuthorize auth (Ok (Authorized run_id n wave))).
  assert (good (accept_specs_of (rq_tasks req)) [] (mkDState (st_driver s) (st_fs s) [] [])) as Hg.
  { split; [by rewrite Hd|apply trace_ok_nil|]. intros t. cbn [st_driver]. by rewrite Hd. }
  eapply (good_fleet _ _ _ (e :: es) s) in Hg; [|by split; cbn|constructor; [done|by apply quiet_fleet]].
  eapply good_sub; [done|]. intros t. cbn [app mbind list_bind]. rewrite cnt_app. cbn [wave_of e]. lia.
Qed.

Lemma started_good req s wave :
  started req s wave → good (accept_specs_of (rq_tasks req)) (map tp_task_id wave) s.
Proof. intros Hs. by apply launched_good, started_launched. Qed.

(** C4: Done means verified or recovered. In a run that was started or resumed, in every state
    its actor reaches, the kernel was told that a task with an acceptance command is
    done only when right before a passing verdict on its current attempt had been sealed and
    its issue, marked verified and naming that seal, had been written; or when, on
    resuming, the task was found done or verified on disk, or found spawned with
    its response captured meanwhile. *)
Theorem done_needs_verdict req s0 wave fuel flow s h1 areq reply h2 out spec :
  started req s0 wave → actor fuel wave s0 flow s →
  st_trace s = h1 ++ EAdvance areq reply :: h2 → av_outcome areq = OutcomeDone out →
  accept_specs_of (rq_tasks req) !! av_task_id areq = Some spec →
  verdict_passed h1 (av_task_id areq) ∨ recovered h1 (av_task_id areq).
Proof.
  intros Hs Ha Ht Ho Hsp. destruct (actor_good _ _ _ _ _ _ (started_good _ _ _ Hs) Ha) as [_ Hok _].
  eapply (Hok _ _ _ Ht); [done|]. by eexists.
Qed.

(** C5: Each release of a task is answered at most once. In every state the actor of a started
    or resumed run reaches, whatever the files hold, whichever calls fail and
    however responses and verdicts arrive, no more outcomes of a task were reported
    to the kernel than the kernel handed the task out: retries, late verdicts and
    repeated responses never reach it. *)
Theorem one_outcome_per_release req s0 wave fuel flow s t :
  started req s0 wave → actor fuel wave s0 flow s →
  advances t (st_trace s) + jobs_of t (d_job_to_task (st_driver s)) + cnt t (map fst (st_oracles s))
  ≤ handed t (st_trace s).
Proof.
  intros Hs Ha. destruct (actor_good _ _ _ _ _ _ (started_good _ _ _ Hs) Ha) as [_ _ Hk].
  specialize (Hk t). change (cnt t []) with 0 in Hk. lia.
Qed.

(** What an issue claims is sealed first, and attempts are limited. An issue written as done
    names the hash of an output record sealed right before, one written as verified
    the hash of a passing verdict on its attempt sealed right before, unless a failing
    verdict is noted on an issue that was read with that status; an issue
    written after a spawn is on its first attempt, or on one below the limit of a task's
    acceptance command. *)
Theorem written_claims_sealed req s0 wave fuel flow s h1 i h2 :
  started req s0 wave → actor fuel wave s0 flow s → st_trace s = h1 ++ EWrite i :: h2 →
  (im_status (is_meta i) = Done →
     (∃ h0 t i0 hash, h1 = h0 ++ [ERead t (Some i0); EOutput t hash] ∧ im_seal (is_meta i) = Some hash)
     ∨ rewritten h1 i)
  ∧ (im_status (is_meta i) = Verified →
     (∃ h0 t i0 hash, h1 = h0 ++ [ERead t (Some i0); EVerdict t (im_attempt (is_meta i)) true hash]
        ∧ im_verdict_seal (is_meta i) = Some hash)
     ∨ rewritten h1 i)
  ∧ (∀ sreq reply, last h1 = Some (ESpawn sreq reply) →
     im_attempt (is_meta i) = 0%N
     ∨ ∃ t spec, accept_specs_of (rq_tasks req) !! t = Some spec
                 ∧ (im_attempt (is_meta i) < as_max_attempts spec)%N).
Proof.
  intros Hs Ha Ht. destruct (actor_good _ _ _ _ _ _ (started_good _ _ _ Hs) Ha) as [_ Hok _].
  destruct (Hok _ _ _ Ht) as [H1' H2' H3']. split_and!; [done|done|]. exact H3'.
Qed.

(** C38: Recovery skips the acceptance command. When a wave hands out a task whose issue on disk is
    done (as a crash between the capture of its response and the start of its
    acceptance command leaves it), or spawned with its response captured while the
    shell was down, the task is reported done right away: its acceptance command is
    neither started nor its verdict sealed. *)
Theorem resume_skips_oracle plan s i s1 :
  store_read (tp_task_id plan) s = (Ok (Some i), s1) →
  let t := tp_task_id plan in
  (im_status (is_meta i) = Done →
   ∃ run_id es, st_trace (process_one plan s).2
     = st_trace s1 ++ advance_event s1 run_id t (done_outcome (d_rfc_dir (st_driver s1)) i) :: es
     ∧ Forall fleet_event es)
  ∧ (∀ j ev o s2, im_status (is_meta i) = Spawned → im_job_id (is_meta i) = Some j →
     env_latest_for_job (st_trace s1) j = Some ev → absorb t ev s1 = (Ok (OutcomeDone o), s2) →
     ∃ run_id es i1 hash i2, st_trace (process_one plan s).2
       = st_trace s1 ++ [ERead t (Some i1); EOutput t hash; EWrite i2]
         ++ advance_event s2 run_id t (OutcomeDone o) :: es
       ∧ Forall fleet_event es).
Proof.
  intros Hr t. unfold process_one. cbv zeta. fold t. rewrite (M_bind_run _ _ _ _ _ Hr). split.
  - intros ->. apply fast_forward_trace.
  - intros j ev o s2 -> Hj Hl Hab. unfold reconcile_spawned. rewrite Hj. cbn [gets mbind M_bind].
    unfold mbind at 1, M_bind at 1, gets at 1. rewrite Hl. fold t. rewrite (M_bind_run _ _ _ _ _ Hab).
    pose proof (absorb_trace s1 t ev) as Ht. unfold runs in Ht. rewrite Hab in Ht.
    destruct Ht as (i1 & hash & i2 & Ht). cbn [snd] in Ht.
    destruct (fast_forward_trace s2 t (OutcomeDone o)) as (run_id & es & Hff & Hf).
    exists run_id, es, i1, hash, i2. split; [|done]. by rewrite Hff, Ht, <- app_assoc.
Qed.

End runs_of_requests.

(** ** Every wave comes to an end *)

Lemma released_snoc h e :
  released (h ++ [e])
  = if opens_round e then length (wave_of e) else released h + length (wave_of e).
Proof. unfold released. by rewrite foldl_app. Qed.

Lemma released_plain h es :
  Forall (λ e, wave_of e = [] ∧ opens_round e = false) es → released (h ++ es) = released h.
Proof.
  induction es as [|e es IH] using rev_ind; intros Hes; [by rewrite app_nil_r|].
  apply Forall_app in Hes as [Hes He]. apply Forall_singleton in He as [Hw Ho].
  rewrite app_assoc, released_snoc, Ho, Hw, IH by done. cbn. lia.
Qed.

Lemma released_quiet h es : Forall quiet_event es → released (h ++ es) = released h.
Proof.
  intros Hq. apply released_plain. apply (list.Forall_impl quiet_event); [done|]. by intros e (_ & ? & ?).
Qed.

Section termination.
Context `{!Environment, !Sha256Bytes, !Serde IssueMeta, !Serde RunMeta, !Serde DispatchSealRecord}.

(** In one round the kernel hands out at most [T] tasks. *)
Record kernel_bounded (T : nat) : Prop := {
  kb_advance h req w : env_advance h req = Ok (NextWave w) → released h + length w ≤ T;
  kb_finalize h req w ids : env_finalize h req = Ok (Replan w ids) → length w ≤ T;
  kb_authorize h req run_id n w : env_authorize h req = Ok (Authorized run_id n w) → length w ≤ T;
}.

(** [m] hands out nothing and opens no round. *)
Definition steady {A} (m : D A) : Prop := ∀ s, runs s m (λ r s',
  released (st_trace s') = released (st_trace s) ∧ round_of s' = round_of s
  ∧ d_max_replans (st_driver s') = d_max_replans (st_driver s) ∧ r ≠ Err OutOfFuel).

Lemma steady_bind {A B} (m : D A) (k : A → D B) : steady m → (∀ a, steady (k a)) → steady (m ≫= k).
Proof.
  intros Hm Hk s. apply runs_bind. eapply runs_mono; [apply Hm|].
  intros [a|e] s' (E1 & E2 & E3 & E4); [|split_and!; [done..|]; intros [= ->]; by apply E4].
  eapply runs_mono; [apply Hk|]. intros r s'' (E1' & E2' & E3' & E4'). split_and!; congruence.
Qed.

Lemma steady_calm {A} (m : D A) : calm m → steady m.
Proof.
  intros Hm s. eapply runs_mono; [apply Hm|]. intros r s' (es & [Et _ _ _ Em] & Hq & Hr & Hf).
  split_and!; try done. rewrite Et. by apply released_quiet.
Qed.

Lemma steady_emit e : wave_of e = [] → opens_round e = false → steady (emit e).
Proof. intros Hw Ho s. split_and!; try done. apply (released_plain _ [e]). by apply Forall_singleton. Qed.

Lemma steady_modify f :
  (∀ s, released (st_trace (f s)) = released (st_trace s) ∧ round_of (f s) = round_of s
        ∧ d_max_replans (st_driver (f s)) = d_max_replans (st_driver s)) → steady (modify f).
Proof. intros Hf s. destruct (Hf s) as (? & ? & ?). split_and!; done. Qed.

Lemma steady_pure {A} (m : D A) :
  (∀ s, (m s).2 = s) → (∀ s, (m s).1 ≠ Err OutOfFuel) → steady m.
Proof. intros. apply steady_calm. by apply calm_pure. Qed.

Lemma steady_write i : steady (store_write i).
Proof.
  apply steady_bind; [by apply steady_pure|]. intros dir. apply steady_bind; [by apply steady_calm, calm_files|].
  intros []. by apply steady_emit.
Qed.

Lemma steady_read t : steady (store_read t).
Proof. apply steady_calm, calm_read. Qed.

Lemma steady_read_issue t : steady (read_issue t).
Proof. apply steady_bind; [apply steady_read|]. intros [i|]; by apply steady_pure. Qed.

Lemma steady_absorb t ev : steady (absorb t ev).
Proof.
  apply steady_bind; [apply steady_read|]. intros [i|]; [|by apply steady_pure].
  destruct (fr_response_path ev) as [p|].
  - apply steady_bind.
    { apply steady_bind; [by apply steady_calm, calm_attempt, calm_files|]. intros ?. by apply steady_pure. }
    intros text. do 2 (apply steady_bind; [by apply steady_pure|]; intros ?).
    apply steady_bind; [by apply steady_calm, calm_files|]. intros h.
    apply steady_bind; [by apply steady_emit|]. intros []. apply steady_bind; [apply steady_write|].
    intros []. by apply steady_pure.
  - apply steady_bind; [apply steady_write|]. intros []. by apply steady_pure.
Qed.

Lemma steady_launch t : steady (launch_oracle t).
Proof.
  apply steady_bind; [by apply steady_pure|]. intros sp. destruct (sp !! t); [|by apply steady_pure].
  apply steady_bind; [apply steady_read_issue|]. intros i. apply steady_bind; [apply steady_write|]. intros [].
  apply steady_bind; [by apply steady_emit|]. intros []. by apply steady_modify.
Qed.

Lemma steady_spawn_detached t req : steady (spawn_detached t req).
Proof.
  apply steady_bind; [by apply steady_pure|]. intros r. apply steady_bind; [by apply steady_emit|].
  intros []. apply steady_pure; [done|]. intros s. by destruct r.
Qed.

Lemma steady_retry t i c tail : steady (retry_task t i c tail).
Proof.
  unfold retry_task. cbv zeta. apply steady_bind; [by apply steady_pure|]. intros req.
  apply steady_bind; [apply steady_spawn_detached|]. intros j. apply steady_bind; [apply steady_write|].
  intros []. by apply steady_modify.
Qed.

Lemma steady_deps t deps : steady (dep_contexts t deps).
Proof.
  induction deps as [|dep deps IH]; [by apply steady_pure|].
  apply steady_bind; [apply steady_read|]. intros r. apply steady_bind; [by destruct r; apply steady_pure|].
  intros i. apply steady_bind; [by destruct (is_response i); apply steady_pure|]. intros x.
  apply steady_bind; [done|]. intros l. by apply steady_pure.
Qed.

Lemma steady_spawn_one plan : steady (spawn_one plan).
Proof.
  apply steady_bind; [apply steady_deps|]. intros deps. cbv zeta. apply steady_bind; [by apply steady_pure|].
  intros req. apply steady_bind; [apply steady_spawn_detached|]. intros j.
  apply steady_bind; [apply steady_write|]. intros []. by apply steady_modify.
Qed.

Section bounded.
Context (T : nat) (HT : kernel_bounded T).

(** What is left to hand out: in this round, and in the rounds that may follow. *)
Definition left_over (s : DState) : nat :=
  (T - released (st_trace s)) + N.to_nat (d_max_replans (st_driver s) - round_of s) * T.

(** A report returns at most what was left, less than that by what it returns. *)
Definition metered (s s' : DState) (w : list TaskPlan) : Prop :=
  length w + left_over s' ≤ left_over s ∧ d_max_replans (st_driver s') = d_max_replans (st_driver s).

Lemma advance_metered t o s w s' :
  (d_max_replans (st_driver s) ≤ u32_max)%N →
  advance_post t o s (Ok (AdvancedWave w)) s' → metered s s' w.
Proof.
  intros Hmax [run_id Hp]. cbv zeta in Hp. unfold metered, left_over.
  set (e := advance_event s run_id t o) in *. assert (opens_round e = false) as Hne by done.
  destruct Hp as [(Hw & [Et _ _ _ Em] & Hr)|(es1 & e2 & es2 & Hw & [Et _ _ _ Em] & Hq1 & Hq2 & _ & Ha & Ho & Hw2 & Hr & Hlt)].
  - rewrite Em, Hr, Et, released_snoc, Hne, Hw.
    assert (released (st_trace s) + length w ≤ T ∨ w = []) as [Hb| ->]; [|cbn; lia|cbn; split; [lia|done]].
    subst w e. unfold advance_event. cbv zeta. cbn [wave_of].
    destruct (env_advance _ _) as [[w'|?|?|?|?]|?] eqn:Hadv; [|by right..]. left. by eapply kb_advance.
  - rewrite Em, Hr, Et. replace (st_trace s ++ e :: es1 ++ e2 :: es2)
      with ((((st_trace s ++ [e]) ++ es1) ++ [e2]) ++ es2) by (by rewrite <- !app_assoc).
    rewrite released_quiet, released_snoc, Ho, Hw2 by done. rewrite u32_succ_small by lia.
    assert (length w ≤ T) as Hb.
    { subst w. destruct e2 as [| | | | | | | | |req r|req r|]; try done; cbn [wave_of opens_round answered] in *.
      - destruct Ha as [h Ha]. destruct r as [[|w ids|?|?]|?]; try done. destruct (fz_passed req); [cbn; lia|].
        by eapply kb_finalize.
      - destruct Ha as [h Ha]. destruct r as [[id n w|?]|?]; try done. by eapply kb_authorize. }
    replace (N.to_nat (d_max_replans (st_driver s) - round_of s))
      with (S (N.to_nat (d_max_replans (st_driver s) - (round_of s + 1)))) by lia. split; [lia|done].
Qed.

Lemma steady_left {A} s (m : D A) (Q : result DriverError A → DState → Prop) :
  steady m →
  (∀ r s', left_over s' = left_over s → d_max_replans (st_driver s') = d_max_replans (st_driver s) →
           r ≠ Err OutOfFuel → Q r s') →
  runs s m Q.
Proof.
  intros Hm HQ. eapply runs_mono; [apply Hm|]. intros r s' (E1 & E2 & E3 & E4). apply HQ; [|done..].
  unfold left_over. congruence.
Qed.

Definition step_metered (s : DState) (r : result DriverError Step) (s' : DState) : Prop :=
  r ≠ Err OutOfFuel
  ∧ match r with
    | Ok StepContinue => metered s s' []
    | Ok (StepCascade w) => metered s s' w
    | _ => True
    end.

Lemma step_metered_pre s s1 r s' :
  left_over s1 = left_over s → d_max_replans (st_driver s1) = d_max_replans (st_driver s) →
  step_metered s1 r s' → step_metered s r s'.
Proof.
  intros E1 E2. unfold step_metered, metered. rewrite E1, E2. by destruct r as [[]|].
Qed.

(** A steady call first. *)
Lemma runs_metered_bind {A} s (m : D A) k :
  steady m → (d_max_replans (st_driver s) ≤ u32_max)%N →
  (∀ a s', (d_max_replans (st_driver s') ≤ u32_max)%N → runs s' (k a) (step_metered s')) →
  runs s (m ≫= k) (step_metered s).
Proof.
  intros Hm Hmax Hk. apply runs_bind. apply steady_left; [done|]. intros [a|e] s' E1 E2 Hne.
  - eapply runs_mono; [apply Hk; by rewrite E2|]. intros r s''. by apply step_metered_pre.
  - split; [|done]. intros [= ->]. by apply Hne.
Qed.

Lemma metered_ff s t o :
  (d_max_replans (st_driver s) ≤ u32_max)%N → runs s (fast_forward t o) (step_metered s).
Proof.
  intros Hmax. apply runs_bind. eapply runs_mono; [apply runs_advance|]. intros [[w|]|e] s' Hp.
  - drun. split; [done|]. by eapply advance_metered.
  - drun. done.
  - destruct Hp as [run_id [Hne _]]. split; [|done]. by intros [= ->].
Qed.

Lemma metered_continue {A} s (m : D A) :
  steady m → (d_max_replans (st_driver s) ≤ u32_max)%N →
  runs s (m ≫= λ _, mret StepContinue) (step_metered s).
Proof.
  intros Hm Hmax. apply runs_metered_bind; [done..|]. intros a s' Hmax'. drun. split; [done|]. done.
Qed.

Lemma metered_lost s t i :
  (d_max_replans (st_driver s) ≤ u32_max)%N → runs s (lost_task t i) (step_metered s).
Proof.
  intros Hmax. apply runs_metered_bind; [apply steady_write|done|]. intros [] s' Hmax'. by apply metered_ff.
Qed.

Lemma process_one_metered s plan :
  (d_max_replans (st_driver s) ≤ u32_max)%N → runs s (process_one plan) (step_metered s).
Proof.
  intros Hmax. apply runs_metered_bind; [apply steady_read|done|]. clear s Hmax. intros [i|] s Hmax.
  2: { apply metered_continue; [apply steady_spawn_one|done]. }
  destruct (im_status (is_meta i)).
  - apply metered_continue; [apply steady_spawn_one|done].
  - unfold reconcile_spawned. destruct (im_job_id (is_meta i)) as [j|]; [|by apply metered_lost].
    apply runs_metered_bind; [by apply steady_pure|done|]. clear s Hmax. intros [ev|] s Hmax.
    + apply runs_metered_bind; [apply steady_absorb|done|]. intros o s' Hmax'. by apply metered_ff.
    + apply runs_metered_bind; [by apply steady_pure|done|]. clear s Hmax. intros [|] s Hmax; [|by apply metered_lost].
      apply metered_continue; [by apply steady_modify|done].
  - apply runs_metered_bind; [by apply steady_pure|done|]. intros dir s' Hmax'. by apply metered_ff.
  - by apply metered_ff.
  - apply runs_metered_bind; [by apply steady_pure|done|]. clear s Hmax. intros sp s Hmax. case_bool_decide.
    + apply metered_continue; [apply steady_launch|done].
    + apply runs_metered_bind; [by apply steady_pure|done|]. intros dir s' Hmax'. by apply metered_ff.
  - apply runs_metered_bind; [by apply steady_pure|done|]. intros dir s' Hmax'. by apply metered_ff.
  - by apply metered_ff.
Qed.

Lemma process_wave_ends fuel queue s :
  (d_max_replans (st_driver s) ≤ u32_max)%N → length queue + left_over s ≤ fuel →
  (process_wave fuel queue s).1 ≠ Err OutOfFuel.
Proof.
  revert queue s. induction fuel as [|fuel IH]; intros [|plan rest] s Hmax Hf; cbn [process_wave]; try done.
  { cbn in Hf. lia. }
  change (runs s (step ← process_one plan; match step with
          | StepContinue => process_wave fuel rest
          | StepCascade more => process_wave fuel (rest ++ more)
          | StepStop => mret FlowDone
          end) (λ r _, r ≠ Err OutOfFuel)).
  apply runs_bind. eapply runs_mono; [by apply process_one_metered|].
  cbn in Hf. intros [[|w|]|e] s' [Hne Hm]; [| |by drun|intros [= ->]; by apply Hne].
  - destruct Hm as [Hm Hmax']. apply IH; [by rewrite Hmax'|]. cbn in Hm. lia.
  - destruct Hm as [Hm Hmax']. apply IH; [by rewrite Hmax'|]. rewrite length_app. lia.
Qed.

(** *** Messages *)

Section messages.
Context (mx : N) (fuel : nat) (Hmx : (mx ≤ u32_max)%N) (Hfuel : T * (N.to_nat mx + 1) ≤ fuel).

Definition ends {A} (m : D A) : Prop := ∀ s, d_max_replans (st_driver s) = mx → (m s).1 ≠ Err OutOfFuel.

Lemma ends_bind {A B} (m : D A) (k : A → D B) : steady m → (∀ a, ends (k a)) → ends (m ≫= k).
Proof.
  intros Hm Hk s Hs. change (runs s (m ≫= k) (λ r _, r ≠ Err OutOfFuel)). apply runs_bind.
  apply steady_left; [done|]. intros [a|e] s' _ E Hne; [apply Hk; congruence|]. intros [= ->]. by apply Hne.
Qed.

Lemma ends_steady {A} (m : D A) : steady m → ends m.
Proof. intros Hm s _. by destruct (Hm s) as (_ & _ & _ & Hne). Qed.

Lemma ends_advance t o : ends (advance_into_flow fuel t o).
Proof.
  intros s Hs. change (runs s (advance_into_flow fuel t o) (λ r _, r ≠ Err OutOfFuel)). apply runs_bind.
  eapply runs_mono; [apply runs_advance|]. intros [[w|]|e] s' Hp; [|by drun|].
  - destruct (advance_metered t o s w s') as [Hm Hmax]; [by rewrite Hs|done|].
    apply process_wave_ends; [by rewrite Hmax, Hs|]. unfold left_over in Hm at 2. rewrite Hs in Hm. nia.
  - destruct Hp as [run_id [Hne _]]. by intros [= ->].
Qed.

Lemma ends_response t ev : ends (handle_response fuel t ev).
Proof.
  apply ends_bind; [apply steady_absorb|]. intros o. apply ends_bind; [by apply steady_pure|]. intros sp.
  destruct o; [|apply ends_advance]. destruct (sp !! t); [|apply ends_advance]. apply ends_steady.
  apply steady_bind; [apply steady_launch|]. intros []. by apply steady_pure.
Qed.

Lemma ends_verdict t a r : ends (handle_verdict fuel t a r).
Proof.
  apply ends_bind; [by apply steady_pure|]. intros sp. destruct (sp !! t) as [spec|]; [|by apply ends_steady, steady_pure].
  apply ends_bind; [apply steady_read_issue|]. intros i. destruct (negb _); [by apply ends_steady, steady_pure|].
  do 2 (apply ends_bind; [by apply steady_pure|]; intros ?).
  apply ends_bind; [by apply steady_calm, calm_files|]. intros h. apply ends_bind; [by apply steady_emit|]. intros [].
  cbv zeta. destruct (passed r); [apply ends_bind; [apply steady_write|]; intros []; apply ends_advance|].
  destruct (_ <? _)%N; apply ends_bind; try apply steady_write; intros []; [|apply ends_advance].
  apply ends_steady. apply steady_bind; [apply steady_retry|]. intros []. by apply steady_pure.
Qed.

End messages.
End bounded.
(** C29: Waves end. When the kernel hands out at most [T] tasks per round, a driver that
    may re-plan [n] times processes a first wave, a response or a verdict in at most
    [T * (n + 2)] tasks, whatever the files, the faults and the other answers: the
    fuel of [process_wave] is not used up and the loop of the code returns. *)
Theorem waves_terminate T fuel s :
  kernel_bounded T → (d_max_replans (st_driver s) ≤ u32_max)%N →
  T * (N.to_nat (d_max_replans (st_driver s)) + 2) ≤ fuel →
  (∀ wave, length wave ≤ T → (process_wave fuel wave s).1 ≠ Err OutOfFuel)
  ∧ (∀ t ev, (handle_response fuel t ev s).1 ≠ Err OutOfFuel)
  ∧ (∀ t a r, (handle_verdict fuel t a r s).1 ≠ Err OutOfFuel).
Proof.
  intros HT Hmx Hf. split_and!.
  - intros wave Hw. apply (process_wave_ends T HT); [done|]. unfold left_over. nia.
  - intros t ev. apply (ends_response T HT (d_max_replans (st_driver s))); [done|lia|done].
  - intros t a r. apply (ends_verdict T HT (d_max_replans (st_driver s))); [done|lia|done].
Qed.

End termination.

(** ** Example: one task with an acceptance command *)

Section examples.

#[local] Instance one_hash : Sha256Bytes := λ _, #"h".

Definition ex_meta (st : Status) (job : option N) (sha seal vs : option str) : IssueMeta :=
  mkIssueMeta #"t" #"Do it" #"faye" [] st job sha seal 0 vs.

Definition ex_metas : list IssueMeta :=
  [ ex_meta Pending None None None None;
    ex_meta Spawned (Some 7%N) None None None;
    ex_meta Done (Some 7%N) (Some #"s") (Some #"h") None;
    ex_meta Verifying (Some 7%N) (Some #"s") (Some #"h") None;
    ex_meta Verified (Some 7%N) (Some #"s") (Some #"h") (Some #"h") ].

#[local] Instance ex_meta_serde : Serde IssueMeta := {|
  ser m := t ← table_text ex_metas m; Ok (t ++ [chr_nl]);
  de := table_value ex_metas;
|}.

#[local] Instance ex_record_serde : Serde DispatchSealRecord := table_serde
  [ mkDispatchSealRecord DispatchOutput #"now" #"t" #"faye" (Some #"s") #"/out" None None None None None
      None DISPATCH_ZERO_HASH #"h";
    mkDispatchSealRecord AcceptanceVerdict #"now" #"t" #"faye" None [] (Some 0%N) (Some 0%Z) (Some true)
      (Some #"make test") None None #"h" #"h" ].

#[local] Instance ex_run_serde : Serde RunMeta := {| ser _ := Ok #"run"; de _ := Err #"run" |}.
#[local] Instance ex_auth_serde : Serde DispatchAuthorizeRequest := {| ser _ := Ok #"plan"; de _ := Err #"plan" |}.
#[local] Instance ex_resolver : AgentResolver := λ _, Some (mkResolvedRuntime #"claude" [] None None).

Definition ex_plan : TaskPlan :=
  mkTaskPlan #"r" #"t" #"faye" #"claude" [] None None #"Do it" [] None.

#[local] Instance ex_env : Environment := {|
  env_advance _ _ := Ok (Completed 0);
  env_finalize _ _ := Ok Converged;
  env_authorize _ _ := Ok (Authorized #"r" 1 [ex_plan]);
  env_spawn _ _ := Ok 7%N;
  env_latest_for_job _ _ := None;
  env_jobs _ := [];
  env_clock _ := #"now";
  env_command _ _ _ := Err #"no command";
|}.

Definition ex_req : DispatchRequest :=
  mkDispatchRequest #"RFC-001" #"demo" [ #"rfc"] None #"dag" 1 #"pause" None 0
    [mkDispatchTaskSpec #"t" #"faye" #"Do it" [] (Some #"make test") (Some 2%N)].

Definition ex_world : World := mkWorld (mkFs ∅ []) [].

Definition ex_launched : DState :=
  match start_run ex_req ex_world with
  | (Started _ d _, w) => mkDState d (w_fs w) [] (w_trace w)
  | (StartRefused _, w) => mkDState (launch ex_req [] (authorize_request ex_req [])) (w_fs w) [] []
  end.

Definition ex_response : ProxyMsg :=
  MsgResponse (mkFinalResponseEvent 7 #"faye" None (Some #"/out") (Some #"s") 0 []).

Definition ex_verdict : ProxyMsg := MsgVerdict #"t" 0 (mkAcceptanceResult 0 []).

Definition ex_s1 : DState := (actor_start 4 [ex_plan] ex_launched).2.
Definition ex_s2 : DState := (on_msg 4 ex_response (deliver ex_response ex_s1)).2.
Definition ex_s3 : DState := (on_msg 4 ex_verdict (deliver ex_verdict ex_s2)).2.

Lemma pair_ok {E A S} (x : result E A * S) a : x.1 = Ok a → x = (Ok a, x.2).
Proof. destruct x. by cbn; intros ->. Qed.

Lemma ex_start :
  match (start_run ex_req ex_world).1 with Started _ _ wave => wave = [ex_plan] | _ => False end.
Proof. by vm_compute. Qed.

Lemma ex_started : started ex_req ex_launched [ex_plan].
Proof.
  pose proof ex_start as Hs. unfold ex_launched. destruct (start_run ex_req ex_world) as [o w] eqn:Hst.
  destruct o as [n d wave|]; [|destruct Hs]. cbn in Hs. subst wave.
  exact (by_start ex_req ex_world w n d [ex_plan] eq_refl Hst).
Qed.

Lemma ex_flow1 : (actor_start 4 [ex_plan] ex_launched).1 = Ok FlowContinue.
Proof. by vm_compute. Qed.

Lemma ex_flow2 : (on_msg 4 ex_response (deliver ex_response ex_s1)).1 = Ok FlowContinue.
Proof. by vm_compute. Qed.

Lemma ex_flow3 : (on_msg 4 ex_verdict (deliver ex_verdict ex_s2)).1 = Ok FlowDone.
Proof. by vm_compute. Qed.

Lemma ex_sendable : sendable ex_verdict ex_s2.
Proof. vm_compute. by left. Qed.

Lemma ex_actor : actor 4 [ex_plan] ex_launched FlowDone ex_s3.
Proof.
  exact (actor_msg 4 [ex_plan] ex_launched ex_verdict FlowDone ex_s2 ex_s3
           (actor_msg 4 [ex_plan] ex_launched ex_response FlowContinue ex_s1 ex_s2
              (actor_begin 4 [ex_plan] ex_launched FlowContinue ex_s1 (pair_ok _ _ ex_flow1))
              I (pair_ok _ _ ex_flow2))
           ex_sendable (pair_ok _ _ ex_flow3)).
Qed.

(** The history: the outcome is its event number 14. *)
Definition ex_trace : list event := Eval vm_compute in st_trace ex_s3.

Lemma ex_trace_eq : st_trace ex_s3 = ex_trace.
Proof. by vm_compute. Qed.

Definition ex_advance : DispatchAdvanceRequest :=
  mkDispatchAdvanceRequest #"r" #"t" (OutcomeDone (mkTaskOutputRef #"/rfc/issues/t.md" 0 false 0)).

Lemma ex_split :
  ex_trace = take 14 ex_trace ++ EAdvance ex_advance (Ok (Completed 0)) :: drop 15 ex_trace.
Proof. by vm_compute. Qed.

Lemma done_needs_verdict_witness :
  verdict_passed (take 14 ex_trace) #"t" ∨ recovered (take 14 ex_trace) #"t".
Proof.
  apply (done_needs_verdict ex_req ex_launched [ex_plan] 4 FlowDone ex_s3 (take 14 ex_trace) ex_advance
           (Ok (Completed 0)) (drop 15 ex_trace) (mkTaskOutputRef #"/rfc/issues/t.md" 0 false 0)
           (mkAcceptSpec #"make test" 2)).
  - exact ex_started.
  - exact ex_actor.
  - rewrite ex_trace_eq. exact ex_split.
  - reflexivity.
  - by vm_compute.
Defined.

Lemma one_outcome_per_release_witness :
  advances #"t" ex_trace = 1
  ∧ advances #"t" (st_trace ex_s3) + jobs_of #"t" (d_job_to_task (st_driver ex_s3))
    + cnt #"t" (map fst (st_oracles ex_s3)) ≤ handed #"t" (st_trace ex_s3).
Proof.
  split; [by vm_compute|].
  exact (one_outcome_per_release ex_req ex_launched [ex_plan] 4 FlowDone ex_s3 #"t" ex_started ex_actor).
Defined.

(** The issue written last is verified. *)
Definition ex_verified : Issue := mkIssue (ex_meta Verified (Some 7%N) (Some #"s") (Some #"h") (Some #"h"))
  #"Do it" None.

Lemma ex_split_write :
  ex_trace = take 13 ex_trace ++ EWrite ex_verified :: drop 14 ex_trace.
Proof. by vm_compute. Qed.

Lemma written_claims_sealed_witness :
  (∃ h0 t i0 hash, take 13 ex_trace = h0 ++ [ERead t (Some i0); EVerdict t 0 true hash]
     ∧ im_verdict_seal (is_meta ex_verified) = Some hash)
  ∨ rewritten (take 13 ex_trace) ex_verified.
Proof.
  destruct (written_claims_sealed ex_req ex_launched [ex_plan] 4 FlowDone ex_s3 (take 13 ex_trace) ex_verified
              (drop 14 ex_trace)) as (_ & Hv & _).
  - exact ex_started.
  - exact ex_actor.
  - rewrite ex_trace_eq. exact ex_split_write.
  - apply Hv. reflexivity.
Defined.

Lemma ex_bounded : kernel_bounded 1.
Proof. split; [done|done|]. intros h req run_id n w [= _ _ <-]. done. Qed.

Lemma waves_terminate_witness :
  (process_wave 2 [ex_plan] ex_launched).1 ≠ Err OutOfFuel
  ∧ (∀ t ev, (handle_response 2 t ev ex_launched).1 ≠ Err OutOfFuel).
Proof.
  destruct (waves_terminate 1 2 ex_launched ex_bounded) as (Hw & Hr & _).
  - by vm_compute.
  - by vm_compute; lia.
  - split; [by apply Hw|exact Hr].
Defined.

(** A run found with its task done, its acceptance command never started. *)
Definition ex_done : Issue :=
  mkIssue (ex_meta Done (Some 7%N) (Some #"s") (Some #"h") None) #"Do it" (Some #"x").

Definition ex_found : DState :=
  mkDState (launch ex_req #"r" (authorize_request ex_req [])) (issue_write [ #"rfc"] ex_done (mkFs ∅ [])).2 [] [].

Lemma ex_found_read : (store_read #"t" ex_found).1 = Ok (Some ex_done).
Proof. by vm_compute. Qed.

Lemma resume_skips_oracle_witness :
  ∃ run_id es, st_trace (process_one ex_plan ex_found).2
    = st_trace (store_read #"t" ex_found).2
      ++ advance_event (store_read #"t" ex_found).2 run_id #"t"
           (done_outcome (d_rfc_dir (st_driver (store_read #"t" ex_found).2)) ex_done) :: es
    ∧ Forall fleet_event es.
Proof.
  destruct (resume_skips_oracle ex_plan ex_found ex_done (store_read #"t" ex_found).2) as [Hd _].
  - exact (pair_ok _ _ ex_found_read).
  - apply Hd. reflexivity.
Defined.

End examples.
