(* ===== verification/RfcLock.v ===== *)
(** * RfcLock: the single-writer lock store

    [crates/orkia-rfc-lock/src/lib.rs]. The store is a map from RFC ids to lock
    infos with a timeout; instants and durations are integers on one axis, and
    the clock is an argument ([acquire] is [acquire_at] at the present time).
    A [HashMap] has no order of its own: lists that the code collects from the
    map are in the order of [map_to_list].

    [lock_op] and [run_ops] are sequences of calls on one store, in the order
    its owner serves them. *)

From Stdlib Require Import NArith ZArith Lia.
From stdpp Require Import base gmap strings option numbers list list_basics.
From S2P Require Import Prelude Effects RfcCore.

Definition DEFAULT_TIMEOUT : Z := (15 * 60 * 1000000000)%Z.

Inductive UnlockReason := AgentExit | Explicit | Timeout | Replaced.

Record LockInfo := mkLockInfo {
  li_rfc_id : RfcId;
  li_held_by : AgentId;
  li_acquired_at : Time;
  li_last_activity : Time;
  li_timeout : Z;
}.

(** [duration_since] fails when the clock is before the last activity: not
    expired then. *)
Definition is_expired (i : LockInfo) (now : Time) : bool :=
  if (now <? li_last_activity i)%Z then false
  else (li_timeout i <? now - li_last_activity i)%Z.

Record LockStore := mkLockStore {
  ls_locks : gmap RfcId LockInfo;
  ls_timeout : Z;
}.

Definition LockStore_new : LockStore := mkLockStore ∅ DEFAULT_TIMEOUT.

Definition LockStore_with_timeout (timeout : Z) : LockStore := mkLockStore ∅ timeout.

Definition set_locks (f : gmap RfcId LockInfo → gmap RfcId LockInfo) (s : LockStore)
    : LockStore :=
  mkLockStore (f (ls_locks s)) (ls_timeout s).

Definition locked_error (rfc_id : RfcId) (holder : AgentId) : RfcError :=
  ELocked rfc_id holder
    (#"Agent " ++ holder ++ #" currently holds the write lock. You may still read via get_context or ask clarifications.").

Definition fresh_lock (rfc_id : RfcId) (agent : AgentId) (now : Time) : M LockStore RfcError LockInfo :=
  timeout ← gets ls_timeout;
  let info := mkLockInfo rfc_id agent now now timeout in
  modify (set_locks <[rfc_id := info]>);;
  mret info.

Definition acquire_at (rfc_id : RfcId) (agent : AgentId) (now : Time)
    : M LockStore RfcError LockInfo :=
  existing ← gets (λ s, ls_locks s !! rfc_id);
  match existing with
  | Some existing =>
      if is_expired existing now then fresh_lock rfc_id agent now
      else if negb (bool_decide (li_held_by existing = agent))
      then throw (locked_error rfc_id (li_held_by existing))
      else
        let refreshed := mkLockInfo (li_rfc_id existing) (li_held_by existing)
                           (li_acquired_at existing) now (li_timeout existing) in
        modify (set_locks <[rfc_id := refreshed]>);;
        mret refreshed
  | None => fresh_lock rfc_id agent now
  end.

Definition release (rfc_id : RfcId) (agent : AgentId) (reason : UnlockReason) (s : LockStore)
    : option UnlockReason * LockStore :=
  match ls_locks s !! rfc_id with
  | Some info =>
      if bool_decide (li_held_by info = agent)
      then (Some reason, set_locks (delete rfc_id) s)
      else (None, s)
  | None => (None, s)
  end.

Definition force_release (rfc_id : RfcId) (s : LockStore) : option AgentId * LockStore :=
  (li_held_by <$> ls_locks s !! rfc_id, set_locks (delete rfc_id) s).

(** [for id in ids { self.locks.remove(id) }] *)
Definition remove_all (ids : list RfcId) (s : LockStore) : LockStore :=
  foldl (λ s id, set_locks (delete id) s) s ids.

Definition release_all_for (agent : AgentId) (s : LockStore) : list RfcId * LockStore :=
  let to_remove := map fst (filter (λ kv, li_held_by kv.2 = agent) (map_to_list (ls_locks s))) in
  (to_remove, remove_all to_remove s).

Definition reap_expired (now : Time) (s : LockStore) : list (RfcId * AgentId) * LockStore :=
  let expired := map (λ kv, (kv.1, li_held_by kv.2))
                   (filter (λ kv, is_expired kv.2 now = true) (map_to_list (ls_locks s))) in
  (expired, remove_all (map fst expired) s).

Definition status (rfc_id : RfcId) (s : LockStore) : option LockInfo := ls_locks s !! rfc_id.

(** ** Lemmas *)

Lemma remove_all_lookup ids s k :
  ls_locks (remove_all ids s) !! k = if decide (k ∈ ids) then None else ls_locks s !! k.
Proof.
  revert s. induction ids as [|id ids IH]; intros s.
  { by rewrite decide_False by apply not_elem_of_nil. }
  change (remove_all (id :: ids) s) with (remove_all ids (set_locks (delete id) s)).
  rewrite IH. unfold set_locks. cbn [ls_locks].
  destruct (decide (k = id)) as [->|Hne].
  - rewrite lookup_delete_eq. repeat case_decide; done || set_solver.
  - rewrite lookup_delete_ne by done. repeat case_decide; done || set_solver.
Qed.

Lemma remove_all_timeout ids s : ls_timeout (remove_all ids s) = ls_timeout s.
Proof. revert s. induction ids as [|id ids IH]; intros s; simpl; [done|by rewrite IH]. Qed.

Lemma release_all_for_lookup agent s k :
  ls_locks (release_all_for agent s).2 !! k =
    match ls_locks s !! k with
    | Some i => if decide (li_held_by i = agent) then None else Some i
    | None => None
    end.
Proof.
  unfold release_all_for. simpl. rewrite remove_all_lookup. case_decide as Hin.
  - apply list_elem_of_fmap in Hin as ([k' i] & -> & Hin). simpl.
    apply list_elem_of_filter in Hin as [Hag Hin]. apply elem_of_map_to_list in Hin.
    by rewrite Hin, decide_True.
  - destruct (ls_locks s !! k) as [i|] eqn:E; [|done]. rewrite decide_False; [done|].
    intros Hag. apply Hin. apply list_elem_of_fmap. exists (k, i). split; [done|].
    apply list_elem_of_filter. split; [done|]. by apply elem_of_map_to_list.
Qed.

Lemma reap_expired_lookup now s k :
  ls_locks (reap_expired now s).2 !! k =
    match ls_locks s !! k with
    | Some i => if is_expired i now then None else Some i
    | None => None
    end.
Proof.
  unfold reap_expired. simpl. rewrite remove_all_lookup, map_map. simpl.
  case_decide as Hin.
  - apply list_elem_of_fmap in Hin as ([k' i] & -> & Hin). simpl.
    apply list_elem_of_filter in Hin as [Hag Hin]. apply elem_of_map_to_list in Hin.
    simpl in Hag. by rewrite Hin, Hag.
  - destruct (ls_locks s !! k) as [i|] eqn:E; [|done]. destruct (is_expired i now) eqn:Hx; [|done].
    destruct Hin. apply list_elem_of_fmap. exists (k, i). split; [done|].
    apply list_elem_of_filter. split; [done|]. by apply elem_of_map_to_list.
Qed.

(** ** Sequences of operations *)

Inductive lock_op :=
| OpAcquire (rfc_id : RfcId) (agent : AgentId) (now : Time)
| OpRelease (rfc_id : RfcId) (agent : AgentId) (reason : UnlockReason)
| OpForceRelease (rfc_id : RfcId)
| OpReleaseAllFor (agent : AgentId)
| OpReapExpired (now : Time).

Definition run_op (op : lock_op) (s : LockStore) : LockStore :=
  match op with
  | OpAcquire rfc_id agent now => (acquire_at rfc_id agent now s).2
  | OpRelease rfc_id agent reason => (release rfc_id agent reason s).2
  | OpForceRelease rfc_id => (force_release rfc_id s).2
  | OpReleaseAllFor agent => (release_all_for agent s).2
  | OpReapExpired now => (reap_expired now s).2
  end.

Definition run_ops (ops : list lock_op) (s : LockStore) : LockStore :=
  foldl (λ s op, run_op op s) s ops.

(** An operation that is neither the holder's own, nor the human override, nor
    past the timeout of the lock [i]. *)
Definition foreign (i : LockInfo) (rfc_id : RfcId) (op : lock_op) : Prop :=
  match op with
  | OpAcquire r b now => r ≠ rfc_id ∨ b ≠ li_held_by i ∧ is_expired i now = false
  | OpRelease r b _ => r ≠ rfc_id ∨ b ≠ li_held_by i
  | OpForceRelease r => r ≠ rfc_id
  | OpReleaseAllFor b => b ≠ li_held_by i
  | OpReapExpired now => is_expired i now = false
  end.

(** Every stored lock is filed under its own id and has the store's timeout. *)
Definition locks_wf (s : LockStore) : Prop :=
  ∀ k i, ls_locks s !! k = Some i → li_rfc_id i = k ∧ li_timeout i = ls_timeout s.

Lemma acquire_other rfc_id agent now s k :
  k ≠ rfc_id → ls_locks (acquire_at rfc_id agent now s).2 !! k = ls_locks s !! k.
Proof.
  intros Hk. unfold acquire_at, fresh_lock, mbind, M_bind, gets, modify, mret, M_ret. simpl.
  repeat case_match; simpl; try done; by rewrite lookup_insert_ne.
Qed.

Lemma acquire_blocked rfc_id i agent now s :
  ls_locks s !! rfc_id = Some i → is_expired i now = false → agent ≠ li_held_by i →
  acquire_at rfc_id agent now s = (Err (locked_error rfc_id (li_held_by i)), s).
Proof.
  intros Hi Hx Hne. unfold acquire_at, mbind, M_bind, gets. rewrite Hi, Hx.
  by rewrite bool_decide_false.
Qed.

Lemma foreign_keeps i rfc_id op s :
  ls_locks s !! rfc_id = Some i → foreign i rfc_id op →
  ls_locks (run_op op s) !! rfc_id = Some i.
Proof.
  intros Hi. destruct op as [r b now|r b reason|r|b|now]; cbn [run_op foreign].
  - intros Hf. destruct (decide (rfc_id = r)) as [<-|Hr].
    + destruct Hf as [?|[Hb Hx]]; [done|]. by rewrite (acquire_blocked _ _ _ _ _ Hi Hx Hb).
    + by rewrite acquire_other.
  - intros Hf. unfold release. destruct (decide (r = rfc_id)) as [->|Hr].
    + rewrite Hi. destruct Hf as [?|Hb]; [done|]. by rewrite bool_decide_false.
    + repeat case_match; try done. simpl. by rewrite lookup_delete_ne.
  - intros Hr. simpl. by rewrite lookup_delete_ne.
  - intros Hb. rewrite release_all_for_lookup, Hi. by rewrite decide_False.
  - intros Hx. by rewrite reap_expired_lookup, Hi, Hx.
Qed.

Lemma foreign_trace_keeps i rfc_id ops s :
  ls_locks s !! rfc_id = Some i → Forall (foreign i rfc_id) ops →
  ls_locks (run_ops ops s) !! rfc_id = Some i.
Proof.
  intros Hi Hf. revert s Hi. induction Hf as [|op ops Hop _ IH]; intros s Hi; [done|].
  apply IH. by apply foreign_keeps.
Qed.

(** Which acquisitions succeed, and with what. *)
Lemma acquire_Ok rfc_id agent now s i s' :
  acquire_at rfc_id agent now s = (Ok i, s') →
  s' = set_locks <[rfc_id := i]> s ∧ li_held_by i = agent ∧ li_last_activity i = now
  ∧ match ls_locks s !! rfc_id with
    | Some j => if is_expired j now then i = mkLockInfo rfc_id agent now now (ls_timeout s)
                else li_held_by j = agent ∧ li_acquired_at i = li_acquired_at j
                     ∧ li_rfc_id i = li_rfc_id j ∧ li_timeout i = li_timeout j
    | None => i = mkLockInfo rfc_id agent now now (ls_timeout s)
    end.
Proof.
  unfold acquire_at, fresh_lock, mbind, M_bind, gets, modify, mret, M_ret, throw.
  destruct (ls_locks s !! rfc_id) as [j|]; [destruct (is_expired j now); [|case_bool_decide]|];
    simpl; intros [= <- <-]; simpl; auto 10.
Qed.

Lemma acquire_Err rfc_id agent now s e s' :
  acquire_at rfc_id agent now s = (Err e, s') →
  s' = s ∧ ∃ j, ls_locks s !! rfc_id = Some j ∧ is_expired j now = false
                ∧ li_held_by j ≠ agent ∧ e = locked_error rfc_id (li_held_by j).
Proof.
  unfold acquire_at, mbind, M_bind, gets. destruct (ls_locks s !! rfc_id) as [j|]; [|done].
  destruct (is_expired j now) eqn:Hx; [done|]. case_bool_decide as Hb; [done|].
  intros [= <- <-]. eauto 6.
Qed.

(** C17: Mutual exclusion: from the moment an agent has acquired the lock of an RFC, and
    through any sequence of operations that are not its own, not the human override
    and not later than the lock's timeout, the lock stays exactly as it was and every
    other agent that tries to acquire it within the timeout is refused, with the
    holder's name and without any change to the store. *)
Theorem lock_exclusion rfc_id agent now s i s1 ops b t :
  acquire_at rfc_id agent now s = (Ok i, s1) →
  Forall (foreign i rfc_id) ops →
  b ≠ agent → is_expired i t = false →
  status rfc_id (run_ops ops s1) = Some i
  ∧ acquire_at rfc_id b t (run_ops ops s1)
    = (Err (locked_error rfc_id agent), run_ops ops s1).
Proof.
  intros (-> & <- & _)%acquire_Ok Hops Hb Ht.
  assert (ls_locks (run_ops ops (set_locks <[rfc_id := i]> s)) !! rfc_id = Some i) as Hi
    by (apply foreign_trace_keeps; [simpl; by rewrite lookup_insert_eq|done]).
  split; [done|]. by apply acquire_blocked.
Qed.

Definition sample_locks : LockStore := (acquire_at #"r" #"a" 0 LockStore_new).2.

Definition sample_ops : list lock_op := [OpAcquire #"r" #"b" 300; OpReleaseAllFor #"c"].

Lemma lock_exclusion_witness :
  acquire_at #"r" #"b" 500 (run_ops sample_ops sample_locks)
  = (Err (locked_error #"r" #"a"), run_ops sample_ops sample_locks).
Proof.
  apply (lock_exclusion #"r" #"a" 0 LockStore_new (mkLockInfo #"r" #"a" 0 0 DEFAULT_TIMEOUT)
    sample_locks sample_ops #"b" 500).
  - reflexivity.
  - apply Forall_cons_2; [by right|]. apply Forall_cons_2; [done|]. apply Forall_nil_2.
  - done.
  - reflexivity.
Defined.

(** The lock protocol on every branch of [acquire_at]: it succeeds exactly when the
    RFC is free, its lock has expired or the caller already holds it; success records
    the caller with the present as last activity, keeping the time of acquisition
    when the lock is only refreshed and starting a new lock otherwise; an error names
    the holder and changes nothing. *)
Theorem acquire_at_spec rfc_id agent now s :
  let held := status rfc_id s in
  match acquire_at rfc_id agent now s with
  | (Ok i, s') =>
      s' = set_locks <[rfc_id := i]> s ∧ li_held_by i = agent ∧ li_last_activity i = now
      ∧ (∀ j, held = Some j → is_expired j now = false →
             li_held_by j = agent ∧ li_acquired_at i = li_acquired_at j)
      ∧ ((∀ j, held = Some j → is_expired j now = true) → li_acquired_at i = now)
  | (Err e, s') =>
      s' = s ∧ ∃ j, held = Some j ∧ is_expired j now = false ∧ li_held_by j ≠ agent
                    ∧ e = locked_error rfc_id (li_held_by j)
  end.
Proof.
  unfold status. destruct (acquire_at rfc_id agent now s) as [[i|e] s'] eqn:E.
  - apply acquire_Ok in E as (-> & Ha & Hn & Hj). split_and!; [done|done|done| |].
    + intros j Hh Hx. rewrite Hh, Hx in Hj. tauto.
    + intros Hx. destruct (ls_locks s !! rfc_id) as [j|]; [|by rewrite Hj].
      rewrite (Hx j eq_refl) in Hj. by rewrite Hj.
  - by apply acquire_Err in E.
Qed.

Lemma wf_shrink s s' :
  locks_wf s → ls_timeout s' = ls_timeout s →
  (∀ k, ls_locks s' !! k = ls_locks s !! k ∨ ls_locks s' !! k = None) → locks_wf s'.
Proof.
  intros Hs Ht Hk k i Hi. rewrite Ht. apply Hs. destruct (Hk k) as [E|E]; congruence.
Qed.

Lemma run_op_wf op s :
  locks_wf s → locks_wf (run_op op s) ∧ ls_timeout (run_op op s) = ls_timeout s.
Proof.
  intros Hs. destruct op as [r b now|r b reason|r|b|now]; cbn [run_op].
  - destruct (acquire_at r b now s) as [[i|e] s'] eqn:E.
    + apply acquire_Ok in E as (-> & _ & _ & Hi). split; [|done]. intros k j. simpl.
      intros [[-> ->]|[Hne Hj]]%lookup_insert_Some; [|by apply Hs].
      destruct (ls_locks s !! k) as [j'|] eqn:E; [|by subst].
      destruct (is_expired j' now); [by subst|]. destruct (Hs _ _ E). naive_solver congruence.
    + by apply acquire_Err in E as [-> _].
  - unfold release. repeat case_match; simpl; split; try done. eapply wf_shrink; [done|done|].
    intros k. simpl. destruct (decide (k = r)) as [->|?];
      [rewrite lookup_delete_eq|rewrite lookup_delete_ne by done]; auto.
  - split; [|done]. eapply wf_shrink; [done|done|]. intros k. simpl.
    destruct (decide (k = r)) as [->|?];
      [rewrite lookup_delete_eq|rewrite lookup_delete_ne by done]; auto.
  - split; [|apply remove_all_timeout]. eapply wf_shrink; [done|apply remove_all_timeout|].
    intros k. rewrite release_all_for_lookup. repeat case_match; auto.
  - split; [|apply remove_all_timeout]. eapply wf_shrink; [done|apply remove_all_timeout|].
    intros k. rewrite reap_expired_lookup. repeat case_match; auto.
Qed.

(** Invariant of the lock store: from an empty store, through every sequence of
    operations, each lock is filed under the id it names and carries the timeout of
    the store. *)
Theorem locks_wf_reachable timeout ops :
  locks_wf (run_ops ops (LockStore_with_timeout timeout))
  ∧ ls_timeout (run_ops ops (LockStore_with_timeout timeout)) = timeout.
Proof.
  assert (∀ ops s, locks_wf s → locks_wf (run_ops ops s)
            ∧ ls_timeout (run_ops ops s) = ls_timeout s) as H.
  { clear. induction ops as [|op ops IH]; intros s Hs; [done|].
    destruct (run_op_wf op s Hs) as [Hw Ht].
    change (run_ops (op :: ops) s) with (run_ops ops (run_op op s)).
    destruct (IH _ Hw) as [? ->]. by rewrite Ht. }
  by apply H.
Qed.
