(* ===== verification/RfcService.v ===== *)
(** * RfcService: the RFC state service and its tool server

    [crates/orkia-rfc-state/src/{events.rs, service/}] over [RfcStore] and
    [RfcLock], and the request handlers of [crates/orkia-rfc-mcp/src/handler.rs].
    The state of the service is the file system, the lock store with the poison
    flag of its mutex, the events given to the sink so far and the decision
    counter. A method of the service is one step: its mutexes are held by one
    caller at a time. The clock readings are arguments. *)

From Stdlib Require Import NArith ZArith Lia.
From stdpp Require Import base gmap strings option numbers list list_basics.
From S2P Require Import Prelude Effects Json Fs RfcCore RfcStore RfcLock.

(** ** Events *)

Inductive RfcEvent :=
| EvCreated (rfc_id : RfcId) (by_ : AgentId)
| EvStateChanged (rfc_id : RfcId) (from to : RfcState) (by_ : AgentId) (reason : str)
| EvLocked (rfc_id : RfcId) (by_ : AgentId)
| EvUnlocked (rfc_id : RfcId) (by_ : AgentId) (reason : UnlockReason)
| EvEditApplied (rfc_id : RfcId) (by_ : AgentId) (section : SectionPath)
    (prev_content_hash new_content_hash : ContentHash)
| EvReopened (rfc_id : RfcId) (by_ : AgentId) (archived_version new_version : N)
| EvPromoted (rfc_id : RfcId) (version : N) (approver : AgentId)
| EvCompleted (rfc_id : RfcId) (by_ : AgentId)
| EvAbandoned (rfc_id : RfcId) (by_ : AgentId) (reason : str)
| EvDecisionOpened (rfc_id : RfcId) (decision_id : DecisionId) (by_ : AgentId)
| EvDecisionResolved (rfc_id : RfcId) (decision_id : DecisionId) (by_ : AgentId)
| EvDecisionProposed (rfc_id : RfcId) (decision_id : DecisionId) (by_ : AgentId).

Definition event_name (e : RfcEvent) : str :=
  match e with
  | EvCreated _ _ => #"rfc.created"
  | EvStateChanged _ _ _ _ _ => #"rfc.state_changed"
  | EvLocked _ _ => #"rfc.locked"
  | EvUnlocked _ _ _ => #"rfc.unlocked"
  | EvEditApplied _ _ _ _ _ => #"rfc.edit_applied"
  | EvReopened _ _ _ _ => #"rfc.reopened"
  | EvPromoted _ _ _ => #"rfc.promoted"
  | EvCompleted _ _ => #"rfc.completed"
  | EvAbandoned _ _ _ => #"rfc.abandoned"
  | EvDecisionOpened _ _ _ => #"rfc.decision_opened"
  | EvDecisionResolved _ _ _ => #"rfc.decision_resolved"
  | EvDecisionProposed _ _ _ => #"rfc.decision_proposed"
  end.

Definition event_rfc_id (e : RfcEvent) : RfcId :=
  match e with
  | EvCreated id _ | EvStateChanged id _ _ _ _ | EvLocked id _ | EvUnlocked id _ _
  | EvEditApplied id _ _ _ _ | EvReopened id _ _ _ | EvPromoted id _ _ | EvCompleted id _
  | EvAbandoned id _ _ | EvDecisionOpened id _ _ | EvDecisionResolved id _ _
  | EvDecisionProposed id _ _ => id
  end.

(** ** State *)

Record Svc := mkSvc {
  svc_fs : Fs;
  svc_locks : LockStore;
  svc_poisoned : bool;
  svc_events : list RfcEvent;
  svc_seq : N;
}.

Definition set_fs (f : Fs) (s : Svc) : Svc :=
  mkSvc f (svc_locks s) (svc_poisoned s) (svc_events s) (svc_seq s).
Definition set_lock_store (l : LockStore) (s : Svc) : Svc :=
  mkSvc (svc_fs s) l (svc_poisoned s) (svc_events s) (svc_seq s).
Definition set_seq (n : N) (s : Svc) : Svc :=
  mkSvc (svc_fs s) (svc_locks s) (svc_poisoned s) (svc_events s) n.

Abbreviation S_ := (M Svc RfcError) (only parsing).

(** [self.store.op(..)] *)
Definition on_store {A} (m : M Fs RfcError A) : S_ A := zoom svc_fs set_fs m.

(** [locks.op(..)] under the mutex guard. *)
Definition on_locks {A} (m : M LockStore RfcError A) : S_ A := zoom svc_locks set_lock_store m.

(** [self.sink.emit(..)] *)
Definition emit (e : RfcEvent) : S_ unit :=
  modify (λ s, mkSvc (svc_fs s) (svc_locks s) (svc_poisoned s) (svc_events s ++ [e]) (svc_seq s)).

Definition lock_poison : RfcError := EIo #"lock_poison" #"lock store mutex poisoned".

(** [self.locks.lock().map_err(..)?] *)
Definition lock_mutex : S_ unit := λ s, if svc_poisoned s then (Err lock_poison, s) else (Ok (), s).

(** ** Requests and answers *)

Record RfcContext := mkRfcContext {
  rc_rfc_id : RfcId;
  rc_state : RfcState;
  rc_version : N;
  rc_content : str;
  rc_content_hash : ContentHash;
  rc_locked_by : option AgentId;
  rc_open_clarifications : N;
  rc_unreviewed_decisions : N;
}.

Record AskRequest := mkAskRequest {
  ask_rfc_id : RfcId; ask_agent : AgentId; ask_question : str; ask_rationale : str;
}.

Record LogDecisionRequest := mkLogDecisionRequest {
  log_rfc_id : RfcId; log_agent : AgentId; log_content : str; log_rationale : str;
  log_affects : list str;
}.

Record EditRequest := mkEditRequest {
  ed_rfc_id : RfcId; ed_agent : AgentId; ed_section : SectionPath; ed_new_body : str;
  ed_linked_decisions : list DecisionId; ed_if_hash_matches : option ContentHash;
}.

(** ** Operations *)

(** The number of a decision id [d-NNN]. *)
Definition decision_number (id : DecisionId) : option N :=
  strip_prefix #"d-" id ≫= parse_u32.

Definition max_decision (max : N) (ds : list DecisionRecord) : N :=
  foldl (λ m d, match decision_number (dr_id d) with Some n => N.max m n | None => m end) max ds.

Section service.
Context `{!Sha256, !Serde RfcFrontmatter, !Serde DecisionRecord}.
Context (project_dir : path).

Fixpoint decision_seq_go (recs : list RfcRecord) (max : N) : M Fs RfcError N :=
  match recs with
  | [] => mret max
  | r :: recs' =>
      ds ← attempt (read_decisions project_dir (fm_id (rec_fm r)));
      match ds with
      | Ok ds => decision_seq_go recs' (max_decision max ds)
      | Err _ => decision_seq_go recs' max
      end
  end.

Definition initial_decision_seq : M Fs RfcError N :=
  rfcs ← attempt (rfc_list project_dir);
  match rfcs with
  | Ok rfcs => decision_seq_go rfcs 0
  | Err _ => mret 0%N
  end.

Definition with_lock_timeout (timeout : Z) (fs : Fs) : Svc :=
  match initial_decision_seq fs with
  | (Ok n, fs') => mkSvc fs' (LockStore_with_timeout timeout) false [] n
  | (Err _, fs') => mkSvc fs' (LockStore_with_timeout timeout) false [] 0
  end.

Definition service_new (fs : Fs) : Svc := with_lock_timeout DEFAULT_TIMEOUT fs.

Definition decision_id_of (n : N) : DecisionId := #"d-" ++ fmt_dec_pad 3 n.

(** The poisoned counter mutex is recovered, so it never fails. *)
Definition next_decision_id : S_ DecisionId := λ s,
  let n := u32_succ (svc_seq s) in (Ok (decision_id_of n), set_seq n s).

Definition svc_get_context (id : RfcId) : S_ RfcContext :=
  rec ← on_store (load project_dir id);
  counts ← on_store (decision_counts project_dir id);
  lock_mutex;;
  locked_by ← gets (λ s, li_held_by <$> status id (svc_locks s));
  let fm := rec_fm rec in
  mret (mkRfcContext (fm_id fm) (fm_state fm) (fm_version fm) (rec_body rec)
          (fm_content_hash fm) locked_by (open_clarifications counts)
          (unreviewed_decisions counts)).

Definition svc_create (now : Time) (id : RfcId) (by_ : AgentId) (title : option str)
    : S_ RfcContext :=
  rec ← on_store (create project_dir now id title);
  emit (EvCreated id by_);;
  let fm := rec_fm rec in
  mret (mkRfcContext (fm_id fm) (fm_state fm) (fm_version fm) (rec_body rec)
          (fm_content_hash fm) None 0 0).

(** [tool_allowed(..).map_err(..)?] *)
Definition require_tool (id : RfcId) (state : RfcState) (tool : RfcTool) (op : str) : S_ unit :=
  lift (map_err (EInvalidState id state op) (tool_allowed state tool)).

Definition new_record (did : DecisionId) (id : RfcId) (version : N) (ts : Time) (actor : AgentId)
    (kind : DecisionKind) (content : json) (st : DecisionStatus) : DecisionRecord :=
  mkDecisionRecord did id version ts actor kind content st [] [].

Definition ask (now : Time) (req : AskRequest) : S_ DecisionId :=
  if is_empty (trim (ask_rationale req)) then throw (ERationaleRequired #"ask")
  else
    rec ← on_store (load project_dir (ask_rfc_id req));
    require_tool (ask_rfc_id req) (fm_state (rec_fm rec)) Ask #"ask";;
    did ← next_decision_id;
    on_store (append_decision project_dir
      (new_record did (ask_rfc_id req) (fm_version (rec_fm rec)) now (ask_agent req) Clarification
         (json_obj [(#"q", JStr (ask_question req)); (#"rationale", JStr (ask_rationale req))])
         Open));;
    emit (EvDecisionOpened (ask_rfc_id req) did (ask_agent req));;
    mret did.

Definition transition (now : Time) (id : RfcId) (t : Transition) (by_ : AgentId) (reason : str)
    : S_ RfcState :=
  rec ← on_store (load project_dir id);
  counts ← on_store (decision_counts project_dir id);
  let ctx := mkTransitionCtx (open_clarifications counts) (unreviewed_decisions counts) true in
  let from := fm_state (rec_fm rec) in
  to ← lift (validate_transition id from t ctx);
  on_store (save project_dir now (fm_with_state to (rec_fm rec)) (rec_body rec));;
  emit (EvStateChanged id from to by_ reason);;
  mret to.

Definition not_resolvable (rfc_id : RfcId) (did : DecisionId) (current : option DecisionRecord)
    : option RfcError :=
  match current with
  | None =>
      Some (EDecisionNotResolvable rfc_id did #"no such decision"
              #"Check the decision id; only an open clarification can be resolved.")
  | Some d =>
      if negb (bool_decide (dr_status d = Open)) || negb (bool_decide (dr_kind d = Clarification))
      then Some (EDecisionNotResolvable rfc_id did
                   (#"decision is " ++ kind_debug (dr_kind d) ++ #"/" ++ status_debug (dr_status d)
                    ++ #", not an open clarification")
                   #"Only an open clarification can be resolved.")
      else None
  end.

Definition resolve_clarification (now : Time) (rfc_id : RfcId) (did : DecisionId) (by_ : AgentId)
    (answer : str) : S_ unit :=
  rec ← on_store (load project_dir rfc_id);
  decisions ← on_store (read_decisions project_dir rfc_id);
  match not_resolvable rfc_id did (head (filter (λ d, dr_id d = did) (reverse decisions))) with
  | Some e => throw e
  | None =>
      on_store (append_decision project_dir
        (new_record did rfc_id (fm_version (rec_fm rec)) now by_ ClarificationResolved
           (json_obj [(#"a", JStr answer)]) Resolved));;
      emit (EvDecisionResolved rfc_id did by_);;
      if bool_decide (fm_state (rec_fm rec) = DraftEmpty)
      then
        counts ← on_store (decision_counts project_dir rfc_id);
        if (open_clarifications counts =? 0)%N
        then transition now rfc_id ResolveClarifications by_ #"all clarifications resolved";;
             mret ()
        else mret ()
      else mret ()
  end.

Definition log_decision (now : Time) (req : LogDecisionRequest) : S_ DecisionId :=
  if is_empty (trim (log_rationale req)) then throw (ERationaleRequired #"log_decision")
  else
    rec ← on_store (load project_dir (log_rfc_id req));
    require_tool (log_rfc_id req) (fm_state (rec_fm rec)) LogDecision #"log_decision";;
    did ← next_decision_id;
    on_store (append_decision project_dir
      (new_record did (log_rfc_id req) (fm_version (rec_fm rec)) now (log_agent req) DesignProposed
         (json_obj [(#"content", JStr (log_content req));
                    (#"rationale", JStr (log_rationale req));
                    (#"affects", JArr (map JStr (log_affects req)))])
         Proposed));;
    emit (EvDecisionProposed (log_rfc_id req) did (log_agent req));;
    mret did.

Definition check_snapshot (req : EditRequest) (fm : RfcFrontmatter) : S_ unit :=
  match ed_if_hash_matches req with
  | Some claimed =>
      if negb (bool_decide (claimed = fm_content_hash fm))
      then throw (EStaleSnapshot claimed (fm_content_hash fm)
                    #"Call orkia_rfc_get_context to refresh, then retry.")
      else mret ()
  | None => mret ()
  end.

(** The mutex is held from the load to the save; [now_lock] is the clock of
    [acquire], [now] that of [save]. *)
Definition propose_edit (now_lock now : Time) (req : EditRequest) : S_ ContentHash :=
  lock_mutex;;
  rec ← on_store (load project_dir (ed_rfc_id req));
  require_tool (ed_rfc_id req) (fm_state (rec_fm rec)) ProposeEdit #"propose_edit";;
  check_snapshot req (rec_fm rec);;
  held ← gets (λ s, status (ed_rfc_id req) (svc_locks s));
  let acquired := match held with
                  | None => true
                  | Some i => negb (bool_decide (li_held_by i = ed_agent req))
                  end in
  on_locks (acquire_at (ed_rfc_id req) (ed_agent req) now_lock);;
  let prev_hash := fm_content_hash (rec_fm rec) in
  saved ← on_store (save project_dir now (rec_fm rec) (ed_new_body req));
  (if acquired then emit (EvLocked (ed_rfc_id req) (ed_agent req)) else mret ());;
  emit (EvEditApplied (ed_rfc_id req) (ed_agent req) (ed_section req) prev_hash
          (fm_content_hash (rec_fm saved)));;
  mret (fm_content_hash (rec_fm saved)).

Definition promote (now : Time) (id : RfcId) (approver : AgentId) : S_ RfcState :=
  transition now id Promote approver #"promote";;
  rec ← on_store (load project_dir id);
  emit (EvPromoted id (fm_version (rec_fm rec)) approver);;
  mret (fm_state (rec_fm rec)).

Definition complete (now : Time) (id : RfcId) (by_ : AgentId) : S_ RfcState :=
  transition now id Complete by_ #"complete";;
  emit (EvCompleted id by_);;
  mret Completed.

Definition abandon (now : Time) (id : RfcId) (by_ : AgentId) (reason : str) : S_ RfcState :=
  transition now id Abandon by_ reason;;
  emit (EvAbandoned id by_ reason);;
  mret Abandoned.

Definition svc_reopen (now : Time) (id : RfcId) (by_ : AgentId) : S_ RfcState :=
  current ← on_store (load project_dir id);
  let from := fm_state (rec_fm current) in
  lift (validate_transition id from Reopen TransitionCtx_default);;
  let archived_version := fm_version (rec_fm current) in
  new_rec ← on_store (reopen project_dir now id);
  emit (EvReopened id by_ archived_version (fm_version (rec_fm new_rec)));;
  emit (EvStateChanged id from DraftActive by_ #"reopen");;
  mret (fm_state (rec_fm new_rec)).

End service.

(** *** Locks: a poisoned mutex makes these calls do nothing *)

(** Runs a lock-store function that cannot fail and emits the given events. *)
Definition with_locks {A B} (f : LockStore → A * LockStore) (events : A → list RfcEvent)
    (ret : A → B) (poisoned : B) (s : Svc) : B * Svc :=
  if svc_poisoned s then (poisoned, s)
  else let '(a, l) := f (svc_locks s) in
       (ret a, mkSvc (svc_fs s) l (svc_poisoned s) (svc_events s ++ events a) (svc_seq s)).

Definition release_lock (id : RfcId) (agent : AgentId) (reason : UnlockReason) : Svc → bool * Svc :=
  with_locks (release id agent reason)
    (λ r, match r with Some _ => [EvUnlocked id agent reason] | None => [] end)
    (λ r, match r with Some _ => true | None => false end) false.

Definition svc_release_all_for (agent : AgentId) : Svc → unit * Svc :=
  with_locks (release_all_for agent) (map (λ rid, EvUnlocked rid agent AgentExit)) (λ _, ()) ().

Definition svc_force_release (id : RfcId) : Svc → option AgentId * Svc :=
  with_locks (force_release id)
    (λ r, match r with Some by_ => [EvUnlocked id by_ Replaced] | None => [] end) (λ r, r) None.

Definition reap_expired_locks (now : Time) : Svc → nat * Svc :=
  with_locks (reap_expired now) (map (λ p, EvUnlocked p.1 p.2 Timeout)) length 0.

(** ** Lemmas *)

Lemma on_store_inv {A} (m : M Fs RfcError A) s r s' :
  on_store m s = (r, s') → ∃ f, m (svc_fs s) = (r, f) ∧ s' = set_fs f s.
Proof. unfold on_store, zoom. destruct (m (svc_fs s)) as [r' f]. intros [= -> <-]. eauto. Qed.

Lemma on_locks_inv {A} (m : M LockStore RfcError A) s r s' :
  on_locks m s = (r, s') → ∃ l, m (svc_locks s) = (r, l) ∧ s' = set_lock_store l s.
Proof. unfold on_locks, zoom. destruct (m (svc_locks s)) as [r' l]. intros [= -> <-]. eauto. Qed.

(** Nothing but the file system's fault script has moved. *)
Record quiet (s s' : Svc) : Prop := mkQuiet {
  q_files : fs_files (svc_fs s') = fs_files (svc_fs s);
  q_locks : svc_locks s' = svc_locks s;
  q_poison : svc_poisoned s' = svc_poisoned s;
  q_events : svc_events s' = svc_events s;
  q_seq : svc_seq s' = svc_seq s;
}.

Lemma quiet_refl s : quiet s s.
Proof. by split. Qed.

Lemma quiet_trans s1 s2 s3 : quiet s1 s2 → quiet s2 s3 → quiet s1 s3.
Proof. intros [] []. split; congruence. Qed.

#[export] Hint Resolve quiet_refl : orkia.

(** Operations that are quiet on every outcome. *)
Definition read_only {A} (m : S_ A) : Prop := ∀ s, quiet s (m s).2.

Lemma read_only_bind {A B} (m : S_ A) (k : A → S_ B) :
  read_only m → (∀ a, read_only (k a)) → read_only (m ≫= k).
Proof.
  intros Hm Hk s. unfold mbind, M_bind. specialize (Hm s).
  destruct (m s) as [[a|e] s1]; [|done]. eapply quiet_trans; [exact Hm|apply Hk].
Qed.

Lemma read_only_pure {A} (m : S_ A) : (∀ s, (m s).2 = s) → read_only m.
Proof. intros H s. rewrite H. apply quiet_refl. Qed.

Lemma read_only_store {A} (m : M Fs RfcError A) : files_kept m → read_only (on_store m).
Proof.
  intros Hm s. specialize (Hm (svc_fs s)). unfold on_store, zoom.
  destruct (m (svc_fs s)) as [r f]. by split.
Qed.

Lemma read_only_inv {A} (m : S_ A) s r s' : read_only m → m s = (r, s') → quiet s s'.
Proof. intros Hm E. specialize (Hm s). by rewrite E in Hm. Qed.

Section service_lemmas.
Context `{!Sha256, !Serde RfcFrontmatter, !Serde DecisionRecord}.
Context (pd : path).

Lemma load_read_only id : read_only (on_store (load pd id)).
Proof. apply read_only_store, load_kept. Qed.

Lemma counts_read_only id : read_only (on_store (decision_counts pd id)).
Proof. apply read_only_store, decision_counts_kept. Qed.

Lemma decisions_read_only id : read_only (on_store (read_decisions pd id)).
Proof. apply read_only_store, read_decisions_kept. Qed.

Lemma require_read_only id st tool op : read_only (require_tool id st tool op).
Proof. by apply read_only_pure. Qed.

Lemma mutex_read_only : read_only lock_mutex.
Proof. apply read_only_pure. intros s. unfold lock_mutex. by destruct (svc_poisoned s). Qed.

Lemma snapshot_read_only req fm : read_only (check_snapshot req fm).
Proof. apply read_only_pure. intros s. unfold check_snapshot. repeat case_match; done. Qed.

Lemma get_context_read_only id : read_only (svc_get_context pd id).
Proof.
  unfold svc_get_context. apply read_only_bind; [apply load_read_only|intros rec].
  apply read_only_bind; [apply counts_read_only|intros counts].
  apply read_only_bind; [apply mutex_read_only|intros []]. by apply read_only_pure.
Qed.

(** The record that the file of [id] holds. *)
Definition stored (id : RfcId) (m : gmap path str) (rec : RfcRecord) : Prop :=
  validate_id id = Ok ()
  ∧ ∃ raw, m !! rfc_path pd id = Some raw
           ∧ parse_frontmatter raw = Ok (rec_fm rec, rec_body rec).

Lemma load_Ok id s rec s' :
  on_store (load pd id) s = (Ok rec, s') → quiet s s' ∧ stored id (fs_files (svc_fs s)) rec.
Proof.
  intros E. split; [by eapply read_only_inv; [apply load_read_only|]|].
  apply on_store_inv in E as (f & E & ->).
  destruct (hoare_ok _ _ _ _ _ _ _ E (hoare_load pd id _) eq_refl) as (_ & Hv & Hr). by split.
Qed.

Lemma stored_fun id m r1 r2 : stored id m r1 → stored id m r2 → r1 = r2.
Proof. intros [_ (? & ? & ?)] [_ (? & ? & ?)]. destruct r1, r2. naive_solver congruence. Qed.

End service_lemmas.

(** Splits a run of a bind in hypothesis [H] into its two outcomes. *)
Tactic Notation "run" hyp(H) "as" ident(a) ident(s1) ident(Hm) :=
  apply M_bind_inv in H as [(a & s1 & Hm & H)|(? & Hm & ->)].

(** The same for a run that is known to succeed. *)
Tactic Notation "runok" hyp(H) "as" ident(a) ident(s1) ident(Hm) :=
  apply M_bind_Ok in H as (a & s1 & Hm & H).

Section service_specs.
Context `{!Sha256, !Serde RfcFrontmatter, !Serde DecisionRecord}.
Context (pd : path).

(** The counters that the decision log of [id] gives in files [m]. *)
Definition counted (id : RfcId) (m : gmap path str) (counts : DecisionCounts) : Prop :=
  ∃ f f', fs_files f = m ∧ decision_counts pd id f = (Ok counts, f').

Lemma counts_Ok id s counts s' :
  on_store (decision_counts pd id) s = (Ok counts, s') →
  quiet s s' ∧ counted id (fs_files (svc_fs s)) counts.
Proof.
  intros E. split; [by eapply read_only_inv; [apply counts_read_only|]|].
  apply on_store_inv in E as (f & E & ->). by exists (svc_fs s), f.
Qed.

(** The context in which the service validates a transition. *)
Definition ctx_of (counts : DecisionCounts) : TransitionCtx :=
  mkTransitionCtx (open_clarifications counts) (unreviewed_decisions counts) true.

(** [s'] is [s] after a save of [fm] and [body] and the emission of [evs]. *)
Record saved_as (now : Time) (fm : RfcFrontmatter) (body : str) (evs : list RfcEvent)
    (s s' : Svc) : Prop := mkSavedAs {
  sv_text : ∃ text,
    render_frontmatter (fm_saved now (content_hash_of body)
      (Some (legacy_status_for (fm_state fm))) fm) body = Ok text
    ∧ fs_files (svc_fs s') !! rfc_path pd (fm_id fm) = Some text;
  sv_live : live_same_except pd (fm_id fm) (fs_files (svc_fs s)) (svc_fs s');
  sv_events : svc_events s' = svc_events s ++ evs;
  sv_seq : svc_seq s' = svc_seq s;
}.

(** No live file changed and nothing was emitted. *)
Record refused (s s' : Svc) : Prop := mkRefused {
  rf_live : ∀ id, validate_id id = Ok () →
    fs_files (svc_fs s') !! rfc_path pd id = fs_files (svc_fs s) !! rfc_path pd id
    ∧ fs_files (svc_fs s') !! decision_path pd id = fs_files (svc_fs s) !! decision_path pd id;
  rf_events : svc_events s' = svc_events s;
  rf_seq : svc_seq s' = svc_seq s;
}.

Lemma quiet_refused s s' : quiet s s' → refused s s'.
Proof. intros []. split; [|done|done]. intros id _. split; congruence. Qed.

Lemma refused_trans s1 s2 s3 : refused s1 s2 → refused s2 s3 → refused s1 s3.
Proof.
  intros [L1 E1 S1] [L2 E2 S2]. split; [|congruence|congruence].
  intros id Hv. destruct (L1 id Hv), (L2 id Hv). split; congruence.
Qed.

(** A save inside the service. *)
Lemma svc_save now fm body s r s' :
  on_store (save pd now fm body) s = (r, s') →
  svc_locks s' = svc_locks s ∧ svc_events s' = svc_events s ∧ svc_seq s' = svc_seq s ∧
  match r with
  | Ok rec => saved_as now fm body [] s s'
              ∧ rec = mkRfcRecord (fm_saved now (content_hash_of body)
                        (Some (legacy_status_for (fm_state fm))) fm) body
  | Err _ => refused s s'
  end.
Proof.
  intros (f & E & ->)%on_store_inv. split_and!; [done..|].
  pose proof (save_cases pd now fm body (svc_fs s)) as H1.
  pose proof (save_live pd now fm body (svc_fs s)) as H2. rewrite E in H1, H2.
  destruct H1 as [_ H1]. destruct r as [rec|e].
  - destruct H1 as [Ht ->]. split; [|done]. split; [done|done|by rewrite app_nil_r|done].
  - split; [|done|done]. intros id Hv. destruct (H2 id Hv) as [Hd Hr]. split; [|done].
    destruct (decide (rfc_path pd id = rfc_path pd (fm_id fm))) as [->|Hne]; [done|by apply Hr].
Qed.

Lemma saved_as_quiet now fm body evs s s1 s' :
  quiet s s1 → saved_as now fm body evs s1 s' → saved_as now fm body evs s s'.
Proof. intros [Hf _ _ He Hs] [Ht Hl He' Hs']. split; [done|by rewrite <- Hf|congruence|congruence]. Qed.

Lemma saved_as_emit now fm body evs e s s' :
  saved_as now fm body evs s s' →
  saved_as now fm body (evs ++ [e]) s (emit e s' : result RfcError unit * Svc).2.
Proof. intros [Ht Hl He Hs]. split; simpl; [done|done|by rewrite He, <- app_assoc|done]. Qed.

(** One transition of the service, on every outcome. *)
Lemma transition_cases now id t by_ reason s :
  match transition pd now id t by_ reason s with
  | (Ok to, s') =>
      ∃ rec counts,
        stored pd id (fs_files (svc_fs s)) rec
        ∧ counted id (fs_files (svc_fs s)) counts
        ∧ validate_transition id (fm_state (rec_fm rec)) t (ctx_of counts) = Ok to
        ∧ saved_as now (fm_with_state to (rec_fm rec)) (rec_body rec)
            [EvStateChanged id (fm_state (rec_fm rec)) to by_ reason] s s'
        ∧ svc_locks s' = svc_locks s
  | (Err _, s') => refused s s' ∧ svc_locks s' = svc_locks s
  end.
Proof.
  destruct (transition _ _ _ _ _ _ s) as [r s'] eqn:E. unfold transition in E.
  run E as rec s1 Hl; [|by pose proof (read_only_inv _ _ _ _ (load_read_only pd id) Hl) as Q;
    split; [apply quiet_refused|apply Q]].
  apply load_Ok in Hl as [Q1 Hrec].
  run E as counts s2 Hc.
  2: { pose proof (read_only_inv _ _ _ _ (counts_read_only pd id) Hc) as Q.
       pose proof (quiet_trans _ _ _ Q1 Q) as Q'. split; [by apply quiet_refused|apply Q']. }
  apply counts_Ok in Hc as [Q2 Hcnt]. rewrite (q_files _ _ Q1) in Hcnt.
  pose proof (quiet_trans _ _ _ Q1 Q2) as Q.
  run E as to s3 Hv; injection Hv as Hv <-; [|split; [by apply quiet_refused|apply Q]].
  run E as saved s4 Hs; apply svc_save in Hs as (Hlk & Hev & Hsq & Hs).
  2: { split; [eapply refused_trans; [by apply quiet_refused|done]|].
       rewrite Hlk. apply Q. }
  destruct Hs as [Hs _]. injection E as <- <-.
  exists rec, counts. split_and!; [done|done|done| |].
  - apply (saved_as_emit _ _ _ []). by eapply saved_as_quiet.
  - simpl. rewrite Hlk. apply Q.
Qed.


(** Whether an edit by [agent] announces a new lock. *)
Definition lock_events (id : RfcId) (agent : AgentId) (l : LockStore) : list RfcEvent :=
  match status id l with
  | None => [EvLocked id agent]
  | Some i => if bool_decide (li_held_by i = agent) then [] else [EvLocked id agent]
  end.

Lemma saved_as_locks now fm body evs s l s' :
  saved_as now fm body evs (set_lock_store l s) s' → saved_as now fm body evs s s'.
Proof. by intros []. Qed.

Lemma propose_edit_cases now_lock now req s :
  let id := ed_rfc_id req in
  match propose_edit pd now_lock now req s with
  | (Ok h, s') =>
      ∃ rec i,
        stored pd id (fs_files (svc_fs s)) rec
        ∧ fm_state (rec_fm rec) = DraftActive
        ∧ (∀ claimed, ed_if_hash_matches req = Some claimed → claimed = fm_content_hash (rec_fm rec))
        ∧ acquire_at id (ed_agent req) now_lock (svc_locks s) = (Ok i, svc_locks s')
        ∧ h = content_hash_of (ed_new_body req)
        ∧ saved_as now (rec_fm rec) (ed_new_body req)
            (lock_events id (ed_agent req) (svc_locks s)
             ++ [EvEditApplied id (ed_agent req) (ed_section req)
                   (fm_content_hash (rec_fm rec)) h]) s s'
  | (Err _, s') => refused s s'
  end.
Proof.
  intros id. destruct (propose_edit _ _ _ _ s) as [r s'] eqn:E. unfold propose_edit in E.
  run E as u s0 Hm; pose proof (read_only_inv _ _ _ _ mutex_read_only Hm) as Q0;
    [|by apply quiet_refused].
  run E as rec s1 Hl.
  2: { pose proof (read_only_inv _ _ _ _ (load_read_only pd _) Hl) as Q.
       eapply quiet_refused, quiet_trans; done. }
  apply load_Ok in Hl as [Q1 Hrec]. rewrite (q_files _ _ Q0) in Hrec.
  pose proof (quiet_trans _ _ _ Q0 Q1) as Q.
  run E as u1 s2 Ht; injection Ht as Ht <-; [|by apply quiet_refused].
  run E as u2 s3 Hsn; pose proof (read_only_inv _ _ _ _ (snapshot_read_only req _) Hsn) as Q3;
    pose proof (quiet_trans _ _ _ Q Q3) as Q'; [|by apply quiet_refused].
  assert (fm_state (rec_fm rec) = DraftActive) as Hst by (by destruct (fm_state (rec_fm rec))).
  run E as held s4 Hg; [|done]. injection Hg as <- <-.
  run E as i s5 Ha; apply on_locks_inv in Ha as (l & Ha & ->); rewrite (q_locks _ _ Q') in *.
  2: { apply acquire_Err in Ha as [-> _]. apply quiet_refused.
       eapply quiet_trans; [done|]. by split; rewrite ?(q_locks _ _ Q'). }
  run E as saved s6 Hs; apply svc_save in Hs as (Hlk & Hev & Hsq & Hs).
  2: { eapply refused_trans; [by apply quiet_refused|]. by destruct Hs. }
  destruct Hs as [Hs ->]. apply saved_as_locks in Hs.
  eapply saved_as_quiet in Hs; [|done].
  run E as u3 s7 Hlk7; [|by repeat case_match].
  assert (saved_as now (rec_fm rec) (ed_new_body req)
            (lock_events id (ed_agent req) (svc_locks s)) s s7 ∧ svc_locks s7 = l) as [Hs7 Hl7].
  { unfold lock_events. fold id in Hlk7. destruct (status id (svc_locks s)) as [j|];
      [destruct (bool_decide _)|]; simpl in Hlk7; injection Hlk7 as _ <-; (split; [|done]);
      done || by apply (saved_as_emit _ _ _ []). }
  injection E as <- <-. exists rec, i. split_and!; [done|done| |by rewrite <- Hl7 in Ha|done|].
  - intros c Hc. unfold check_snapshot in Hsn. rewrite Hc in Hsn.
    case_bool_decide as Hb; [done|discriminate].
  - by apply saved_as_emit.
Qed.

(** Writing is exclusive and audited: an edit succeeds only on a draft that is active,
    against the snapshot the caller claims, and when no other agent holds a live lock;
    afterwards the caller holds the lock, the file holds the new body with its hash,
    no other RFC and no decision log changed, and the events name the old and the
    new hash (with a locked event when the lock changed hands). A failed edit changes
    no RFC file, no decision log and emits nothing. *)
Theorem propose_edit_spec now_lock now req s :
  let id := ed_rfc_id req in
  match propose_edit pd now_lock now req s with
  | (Ok h, s') =>
      ∃ rec,
        stored pd id (fs_files (svc_fs s)) rec
        ∧ fm_state (rec_fm rec) = DraftActive
        ∧ (∀ claimed, ed_if_hash_matches req = Some claimed → claimed = fm_content_hash (rec_fm rec))
        ∧ (∀ j, status id (svc_locks s) = Some j → is_expired j now_lock = false →
                li_held_by j = ed_agent req)
        ∧ (∃ i, status id (svc_locks s') = Some i ∧ li_held_by i = ed_agent req
                ∧ li_last_activity i = now_lock)
        ∧ h = content_hash_of (ed_new_body req)
        ∧ saved_as now (rec_fm rec) (ed_new_body req)
            (lock_events id (ed_agent req) (svc_locks s)
             ++ [EvEditApplied id (ed_agent req) (ed_section req)
                   (fm_content_hash (rec_fm rec)) h]) s s'
  | (Err _, s') => refused s s'
  end.
Proof.
  intros id. pose proof (propose_edit_cases now_lock now req s) as Hc.
  destruct (propose_edit _ _ _ _ s) as [[h|e] s']; [|done].
  destruct Hc as (rec & i & ? & ? & ? & Ha & ? & ?). fold id in Ha.
  apply acquire_Ok in Ha as (Hl & Hag & Hla & Hj). exists rec. split_and!; try done.
  - intros j Hj' Hx. unfold status in Hj'. rewrite Hj', Hx in Hj. tauto.
  - exists i. rewrite Hl. unfold status. simpl. by rewrite lookup_insert_eq.
Qed.

Lemma stored_after_save `{!TomlLaws} now fm body evs s s' :
  validate_id (fm_id fm) = Ok () →
  toml_safe (fm_saved now (content_hash_of body) (Some (legacy_status_for (fm_state fm))) fm) →
  saved_as now fm body evs s s' →
  stored pd (fm_id fm) (fs_files (svc_fs s'))
    (mkRfcRecord (fm_saved now (content_hash_of body) (Some (legacy_status_for (fm_state fm))) fm)
       (strip_one_nl body)).
Proof.
  intros Hv Hsafe [(text & Ht & Hf) _ _ _]. split; [done|]. exists text. split; [done|].
  by apply parse_render_frontmatter.
Qed.

(** No lost update: of two edits of one RFC made against the same snapshot hash, when
    the first succeeds and changes the hash, the second is refused, whatever the agents
    and the clocks, and leaves every file and event as the first one put them. The
    record on disk must carry its own id, and its TOML no line that starts like the
    delimiter. *)
Theorem no_lost_update `{!TomlLaws} nl1 now1 r1 nl2 now2 r2 c h1 s s1 :
  ed_rfc_id r2 = ed_rfc_id r1 →
  ed_if_hash_matches r1 = Some c → ed_if_hash_matches r2 = Some c →
  (∀ rec, stored pd (ed_rfc_id r1) (fs_files (svc_fs s)) rec →
     fm_id (rec_fm rec) = ed_rfc_id r1
     ∧ toml_safe (fm_saved now1 (content_hash_of (ed_new_body r1))
         (Some (legacy_status_for (fm_state (rec_fm rec)))) (rec_fm rec))) →
  propose_edit pd nl1 now1 r1 s = (Ok h1, s1) → h1 ≠ c →
  match propose_edit pd nl2 now2 r2 s1 with
  | (Ok _, _) => False
  | (Err _, s2) => refused s1 s2
  end.
Proof.
  intros Hid Hc1 Hc2 Hwf E1 Hne. pose proof (propose_edit_cases nl1 now1 r1 s) as H1.
  pose proof (propose_edit_cases nl2 now2 r2 s1) as H2. rewrite E1 in H1.
  destruct H1 as (rec & i & Hst & _ & _ & _ & Hh & Hsv).
  destruct (propose_edit _ _ _ r2 s1) as [[h2|e] s2]; [|done].
  destruct H2 as (rec2 & _ & Hst2 & _ & Hclaim & _).
  destruct (Hwf rec Hst) as [Hrid Hsafe]. pose proof Hst as [Hv _]. rewrite <- Hrid in Hv.
  pose proof (stored_after_save _ _ _ _ _ _ Hv Hsafe Hsv) as Hst1.
  rewrite Hid, <- Hrid in Hst2. pose proof (stored_fun _ _ _ _ _ Hst1 Hst2) as <-.
  specialize (Hclaim c Hc2). simpl in Hclaim. congruence.
Qed.

End service_specs.

(** ** Clarifications and decisions *)

Section decisions.
Context `{!Sha256, !Serde RfcFrontmatter, !Serde DecisionRecord}.
Context (pd : path).

(** [s'] is [s] with [r] appended to its log and [ev] emitted. *)
Record logged (r : DecisionRecord) (ev : RfcEvent) (s s' : Svc) : Prop := mkLogged {
  lg_files : fs_files (svc_fs s') =
    <[decision_path pd (dr_rfc_id r) :=
        default [] (fs_files (svc_fs s) !! decision_path pd (dr_rfc_id r)) ++ log_line r]>
      (fs_files (svc_fs s));
  lg_events : svc_events s' = svc_events s ++ [ev];
  lg_locks : svc_locks s' = svc_locks s;
}.

(** [s'] is [s] with at most a prefix of [r]'s line in its log, and no event. *)
Definition torn_log (r : DecisionRecord) (s s' : Svc) : Prop :=
  torn (decision_path pd (dr_rfc_id r)) (log_line r) (fs_files (svc_fs s)) (svc_fs s')
  ∧ svc_events s' = svc_events s ∧ svc_locks s' = svc_locks s.

Lemma svc_append_cases r ev s s0 res s1 :
  fs_files (svc_fs s) = fs_files (svc_fs s0) → svc_events s = svc_events s0 →
  svc_locks s = svc_locks s0 →
  on_store (append_decision pd r) s = (res, s1) →
  svc_seq s1 = svc_seq s
  ∧ match res with
    | Ok _ => logged r ev s0 (emit ev s1 : result RfcError unit * Svc).2
    | Err _ => torn_log r s0 s1
    end.
Proof.
  intros Hf He Hl (f & Ha & ->)%on_store_inv. split; [done|].
  unfold append_decision, mbind, M_bind, lift in Ha.
  destruct (validate_id (dr_rfc_id r)) as [[]|e].
  2: { injection Ha as <- <-. split; [|done]. apply torn_none; simpl; by rewrite Hf. }
  destruct res as [u|e].
  - destruct (hoare_ok _ _ _ _ _ _ _ Ha (hoare_decision_append _ _ _) eq_refl) as [_ Hfs].
    split; simpl; [|by rewrite He|done]. by rewrite Hfs, Hf.
  - pose proof (hoare_err _ _ _ _ _ _ _ Ha (hoare_decision_append _ _ _) eq_refl) as Ht.
    rewrite Hf in Ht. done.
Qed.

(** The record an agent's question becomes. *)
Definition question_record (now : Time) (req : AskRequest) (n version : N) : DecisionRecord :=
  new_record (decision_id_of n) (ask_rfc_id req) version now (ask_agent req) Clarification
    (json_obj [(#"q", JStr (ask_question req)); (#"rationale", JStr (ask_rationale req))]) Open.

(** Asking is gated and numbered: a question is accepted only with a rationale and on a
    draft; it then becomes exactly one open clarification, appended to the log under
    the next decision id, and one event. An error emits nothing and takes no lock; a
    refusal by the gate changes no file and no counter, and otherwise at most a prefix
    of the record's line has been written. *)
Theorem ask_spec now req s :
  let n := u32_succ (svc_seq s) in
  match ask pd now req s with
  | (Ok did, s') =>
      ∃ rec, stored pd (ask_rfc_id req) (fs_files (svc_fs s)) rec
        ∧ is_draft (fm_state (rec_fm rec)) = true ∧ trim (ask_rationale req) ≠ []
        ∧ did = decision_id_of n ∧ svc_seq s' = n
        ∧ logged (question_record now req n (fm_version (rec_fm rec)))
            (EvDecisionOpened (ask_rfc_id req) did (ask_agent req)) s s'
  | (Err _, s') =>
      quiet s s'
      ∨ (∃ version, torn_log (question_record now req n version) s s') ∧ svc_seq s' = n
  end.
Proof.
  intros n. destruct (ask pd now req s) as [r s'] eqn:E. unfold ask in E.
  destruct (trim (ask_rationale req)) as [|c t] eqn:Ht; simpl in E.
  { injection E as <- <-. left. apply quiet_refl. }
  run E as rec s1 Hl; [|left; by eapply read_only_inv; [apply load_read_only|]].
  apply load_Ok in Hl as [Q Hrec].
  run E as u s2 Hg; injection Hg as Hg <-; [|by left].
  run E as did s3 Hd; [|done]. injection Hd as <- <-.
  assert (u32_succ (svc_seq s1) = n) as Hn by (unfold n; by rewrite (q_seq _ _ Q)).
  rewrite Hn in E. clearbody n.
  run E as u1 s4 Ha; apply (svc_append_cases _
    (EvDecisionOpened (ask_rfc_id req) (decision_id_of n) (ask_agent req)) _ s) in Ha
    as [Hs Ha]; try apply Q.
  - injection E as <- <-. exists rec. split_and!; try done.
    by destruct (fm_state (rec_fm rec)).
  - right. split; [|done]. by exists (fm_version (rec_fm rec)).
Qed.

Lemma not_resolvable_None id did ds :
  not_resolvable id did (head (filter (λ d, dr_id d = did) (reverse ds))) = None →
  ∃ d, last_record did ds = Some d ∧ is_open_clarification d = true.
Proof.
  assert (head (filter (λ d, dr_id d = did) (reverse ds)) = last_record did ds) as ->.
  { unfold last_record. rewrite <- head_reverse. f_equal.
    induction ds as [|d ds IH] using rev_ind; [done|].
    rewrite reverse_app, !filter_app, reverse_app, IH. f_equal.
    change (reverse [d]) with [d]. rewrite !filter_cons, !filter_nil. by case_decide. }
  destruct (last_record did ds) as [d|]; [|done]. simpl. intros Hn. exists d. split; [done|].
  unfold is_open_clarification. destruct (dr_kind d), (dr_status d); done.
Qed.

Definition answer_record (now : Time) (id : RfcId) (did : DecisionId) (by_ : AgentId)
    (answer : str) (version : N) : DecisionRecord :=
  new_record did id version now by_ ClarificationResolved (json_obj [(#"a", JStr answer)]) Resolved.

Lemma stored_logged r ev id rec s s' :
  dr_rfc_id r = id → logged r ev s s' → stored pd id (fs_files (svc_fs s)) rec →
  stored pd id (fs_files (svc_fs s')) rec.
Proof.
  intros <- [Hf _ _] [Hv (raw & Hraw & Hp)]. split; [done|]. exists raw. split; [|done].
  rewrite Hf, lookup_insert_ne; [done|]. apply not_eq_sym. by apply rfc_not_decision.
Qed.

(** The end of [resolve_clarification]: the promotion of an empty draft. *)
Lemma resolve_promotes now id by_ rec mid (r : result RfcError unit) s' :
  stored pd id (fs_files (svc_fs mid)) rec →
  (if bool_decide (fm_state (rec_fm rec) = DraftEmpty)
   then counts ← on_store (decision_counts pd id);
        if (open_clarifications counts =? 0)%N
        then transition pd now id ResolveClarifications by_ #"all clarifications resolved";; mret ()
        else mret ()
   else mret ()) mid = (r, s') →
  match r with
  | Ok _ =>
      (fm_state (rec_fm rec) ≠ DraftEmpty → quiet mid s')
      ∧ (fm_state (rec_fm rec) = DraftEmpty →
           ∃ counts, counted pd id (fs_files (svc_fs mid)) counts
             ∧ if (open_clarifications counts =? 0)%N
               then saved_as pd now (fm_with_state DraftActive (rec_fm rec)) (rec_body rec)
                      [EvStateChanged id DraftEmpty DraftActive by_
                         #"all clarifications resolved"] mid s'
               else quiet mid s')
  | Err _ => refused pd mid s'
  end.
Proof.
  intros Hst. case_bool_decide as Hde; intros E.
  2: { injection E as <- <-. split; [intros _; apply quiet_refl|done]. }
  run E as counts s1 Hc;
    [|by eapply quiet_refused, read_only_inv; [apply (counts_read_only pd id)|]].
  apply counts_Ok in Hc as [Q Hcnt].
  destruct (open_clarifications counts =? 0)%N eqn:Ho.
  2: { injection E as <- <-. split; [done|]. intros _. exists counts. by rewrite Ho. }
  pose proof (transition_cases pd now id ResolveClarifications by_
    #"all clarifications resolved" s1) as Ht.
  run E as to s2 Htr; rewrite Htr in Ht.
  2: { eapply refused_trans; [by apply quiet_refused|]. apply Ht. }
  injection E as <- <-. destruct Ht as (rec' & counts' & Hst' & _ & Hv & Hsv & _).
  rewrite (q_files _ _ Q) in Hst'. rewrite <- (stored_fun _ _ _ _ _ Hst Hst') in Hv, Hsv.
  split; [done|]. intros _. exists counts. rewrite Ho. split; [done|].
  rewrite Hde in Hv, Hsv. apply validate_transition_step in Hv. inversion Hv; subst.
  by eapply saved_as_quiet.
Qed.

(** Resolving a clarification: it succeeds only for a decision whose last record is an
    open clarification, and appends the answer to the log; an empty draft then becomes
    an active one exactly when the counters of the extended log show no open
    clarification, and in every other case the RFC file is left alone. When the
    decision is unknown or not an open clarification, nothing at all changes. *)
Theorem resolve_clarification_spec now id did by_ answer s :
  match resolve_clarification pd now id did by_ answer s with
  | (Ok _, s') =>
      ∃ rec ds d mid f f',
        stored pd id (fs_files (svc_fs s)) rec
        ∧ fs_files f = fs_files (svc_fs s) ∧ read_decisions pd id f = (Ok ds, f')
        ∧ last_record did ds = Some d ∧ is_open_clarification d = true
        ∧ logged (answer_record now id did by_ answer (fm_version (rec_fm rec)))
            (EvDecisionResolved id did by_) s mid
        ∧ (fm_state (rec_fm rec) ≠ DraftEmpty → quiet mid s')
        ∧ (fm_state (rec_fm rec) = DraftEmpty →
             ∃ counts, counted pd id (fs_files (svc_fs mid)) counts
               ∧ if (open_clarifications counts =? 0)%N
                 then saved_as pd now (fm_with_state DraftActive (rec_fm rec)) (rec_body rec)
                        [EvStateChanged id DraftEmpty DraftActive by_
                           #"all clarifications resolved"] mid s'
                 else quiet mid s')
  | (Err _, s') =>
      (∀ id', validate_id id' = Ok () →
         fs_files (svc_fs s') !! rfc_path pd id' = fs_files (svc_fs s) !! rfc_path pd id')
      ∧ (quiet s s'
         ∨ ∃ ds d f f', fs_files f = fs_files (svc_fs s) ∧ read_decisions pd id f = (Ok ds, f')
             ∧ last_record did ds = Some d ∧ is_open_clarification d = true)
  end.
Proof.
  destruct (resolve_clarification _ _ _ _ _ _ s) as [r s'] eqn:E.
  unfold resolve_clarification in E.
  assert (∀ t, quiet s t → (∀ id', validate_id id' = Ok () →
    fs_files (svc_fs t) !! rfc_path pd id' = fs_files (svc_fs s) !! rfc_path pd id')) as Hq
    by (intros t Q id' _; by rewrite (q_files _ _ Q)).
  run E as rec s1 Hl; [|pose proof (read_only_inv _ _ _ _ (load_read_only pd _) Hl); auto].
  apply load_Ok in Hl as [Q1 Hrec].
  run E as ds s2 Hr; pose proof (read_only_inv _ _ _ _ (decisions_read_only pd _) Hr) as Q2;
    pose proof (quiet_trans _ _ _ Q1 Q2) as Q; [|auto].
  destruct (not_resolvable id did _) as [e|] eqn:Hnr; [injection E as <- <-; auto|].
  apply not_resolvable_None in Hnr as (d & Hd & Ho).
  apply on_store_inv in Hr as (f' & Hr & _). assert (fs_files (svc_fs s1) = _) as Hf by apply Q1.
  set (ev := EvDecisionResolved id did by_).
  assert (∃ ds d f f', fs_files f = fs_files (svc_fs s) ∧ read_decisions pd id f = (Ok ds, f')
            ∧ last_record did ds = Some d ∧ is_open_clarification d = true) as Hopen
    by by exists ds, d, (svc_fs s1), f'.
  run E as u s4 Ha; apply (svc_append_cases _ ev _ s) in Ha as [_ Ha]; try apply Q.
  2: { split; [|by right]. intros id' Hv'. destruct Ha as [[Ha _] _]. apply Ha.
       apply rfc_not_decision; [done|apply Hrec]. }
  run E as u2 mid He; [|done].
  assert (mid = (emit ev s4 : result RfcError unit * Svc).2) as Hmid by by injection He.
  rewrite <- Hmid in Ha. clear He Hmid.
  assert (∀ id', validate_id id' = Ok () → fs_files (svc_fs mid) !! rfc_path pd id' =
            fs_files (svc_fs s) !! rfc_path pd id') as Hsame.
  { intros id' Hv'. destruct Ha as [-> _ _]. rewrite lookup_insert_ne; [done|].
    apply not_eq_sym, rfc_not_decision; [done|apply Hrec]. }
  assert (stored pd id (fs_files (svc_fs mid)) rec) as Hmid
    by by eapply stored_logged; [|exact Ha|exact Hrec].
  pose proof (resolve_promotes now id by_ rec mid r s' Hmid E) as Hp.
  destruct r as [[]|e].
  - exists rec, ds, d, mid, (svc_fs s1), f'. by destruct Hp.
  - split; [|by right]. intros id' Hv'. rewrite <- (Hsame id' Hv'). by apply Hp.
Qed.

End decisions.

(** ** Decision ids *)

Lemma decision_number_of n : (n ≤ u32_max)%N → decision_number (decision_id_of n) = Some n.
Proof.
  intros Hn. unfold decision_number, decision_id_of. rewrite strip_prefix_app. simpl.
  by apply parse_u32_fmt_dec_pad.
Qed.

Lemma max_decision_ge max ds :
  (max ≤ max_decision max ds)%N
  ∧ ∀ d n, d ∈ ds → decision_number (dr_id d) = Some n → (n ≤ max_decision max ds)%N.
Proof.
  revert max. induction ds as [|x ds IH]; intros max; simpl.
  - split; [lia|set_solver].
  - set (m := match decision_number (dr_id x) with Some n => N.max max n | None => max end).
    destruct (IH m) as [H1 H2]. unfold max_decision in *. simpl. fold m.
    assert (max ≤ m)%N by (subst m; case_match; lia).
    split; [lia|]. intros d n [->|Hd]%elem_of_cons Hn; [|by eauto].
    assert (n ≤ m)%N by (subst m; rewrite Hn; lia). lia.
Qed.

Section decision_ids.
Context `{!Sha256, !Serde RfcFrontmatter, !Serde DecisionRecord}.
Context (pd : path).

Lemma decision_seq_go_ok recs max s :
  ∃ n s', decision_seq_go pd recs max s = (Ok n, s') ∧ (max ≤ n)%N.
Proof.
  revert max s. induction recs as [|r recs IH]; intros max s; simpl; [by eexists _, _|].
  unfold mbind, M_bind, attempt.
  destruct (read_decisions pd (fm_id (rec_fm r)) s) as [[ds|e] s1]; [|apply IH].
  destruct (IH (max_decision max ds) s1) as (n & s' & -> & Hn). exists n, s'. split; [done|].
  pose proof (proj1 (max_decision_ge max ds)). lia.
Qed.

(** Every number that can be read from a listed RFC's log is below the seed. *)
Lemma decision_seq_go_bound recs max f rec ds s1 d k :
  rec ∈ recs → read_decisions pd (fm_id (rec_fm rec)) (mkFs f []) = (Ok ds, s1) →
  d ∈ ds → decision_number (dr_id d) = Some k →
  ∃ n s', decision_seq_go pd recs max (mkFs f []) = (Ok n, s') ∧ (k ≤ n)%N.
Proof.
  intros Hrec Hr Hd Hk. revert max. induction recs as [|r recs IH]; intros max; [set_solver|].
  simpl. unfold mbind at 1, M_bind at 1, attempt.
  pose proof (read_decisions_still pd (fm_id (rec_fm r)) f) as Hs.
  destruct (read_decisions pd (fm_id (rec_fm r)) (mkFs f [])) as [r' s2] eqn:E.
  simpl in Hs. subst s2. apply elem_of_cons in Hrec as [->|Hrec].
  - rewrite Hr in E. injection E as <- ->.
    destruct (decision_seq_go_ok recs (max_decision max ds) (mkFs f [])) as (n & s' & -> & Hn).
    exists n, s'. split; [done|].
    pose proof (proj2 (max_decision_ge max ds) d k Hd Hk). lia.
  - destruct r'; by apply IH.
Qed.

(** Decision ids are not reused across a restart: a service opened on a project issues
    no id that already occurs in a decision log it can read, as long as its counter
    stays below the largest 32-bit number. *)
Theorem fresh_decision_ids f rfcs rec ds d s :
  rfc_list pd (mkFs f []) = (Ok rfcs, mkFs f []) → rec ∈ rfcs →
  read_decisions pd (fm_id (rec_fm rec)) (mkFs f []) = (Ok ds, mkFs f []) → d ∈ ds →
  (svc_seq (service_new pd (mkFs f [])) ≤ svc_seq s)%N → (svc_seq s < u32_max)%N →
  (next_decision_id s).1 ≠ Ok (dr_id d).
Proof.
  intros Hl Hrec Hr Hd Hseq Hmax. simpl. rewrite u32_succ_small by done. intros [= Hid].
  pose proof (decision_number_of (svc_seq s + 1) ltac:(lia)) as Hn. rewrite Hid in Hn.
  destruct (decision_seq_go_bound rfcs 0 f rec ds _ d _ Hrec Hr Hd Hn) as (n & s' & Hgo & Hle).
  unfold service_new, with_lock_timeout, initial_decision_seq, mbind, M_bind, attempt in Hseq.
  rewrite Hl, Hgo in Hseq. simpl in Hseq. lia.
Qed.

(** What the seed does not see: once no live decision log exists, as right after a
    reopening, a restarted service counts from zero again, whatever ids the archived
    logs hold; the first id it issues is [d-001]. *)
Theorem archived_ids_reissued fs :
  (∀ id, fs_files fs !! decision_path pd id = None) →
  svc_seq (service_new pd fs) = 0%N
  ∧ (next_decision_id (service_new pd fs)).1 = Ok #"d-001".
Proof.
  intros Hnone. assert (svc_seq (service_new pd fs) = 0%N) as H0.
  { unfold service_new, with_lock_timeout, initial_decision_seq, mbind, M_bind, attempt.
    pose proof (rfc_list_kept pd fs) as Hk.
    destruct (rfc_list pd fs) as [[rfcs|e] s1]; [|done]. simpl in Hk.
    assert (∀ s, fs_files s = fs_files fs →
              ∃ s', decision_seq_go pd rfcs 0 s = (Ok 0%N, s')) as Hgo.
    { clear -Hnone. induction rfcs as [|r rfcs IH]; intros s Hs; simpl; [eauto|].
      unfold mbind, M_bind, attempt, read_decisions, decision_read_all, lift, file_exists, gets.
      unfold mbind, M_bind. destruct (validate_id _) as [[]|e]; [|by apply IH].
      rewrite Hs, Hnone, bool_decide_false by by intros []. by apply IH. }
    destruct (Hgo s1 Hk) as [s' ->]. done. }
  split; [done|]. unfold next_decision_id. rewrite H0. reflexivity.
Qed.

End decision_ids.

Lemma archived_ids_reissued_witness :
  svc_seq (@service_new (table_toml []) bits_decision [] (mkFs ∅ [])) = 0%N.
Proof. apply (@archived_ids_reissued (table_toml []) bits_decision [] (mkFs ∅ [])). reflexivity. Defined.

(** *** A concrete service for the witnesses *)

Definition sample_fm1 : RfcFrontmatter :=
  fm_saved 10 (@content_hash_of bits_sha256 #"new") (Some #"draft") sample_fm.

Definition sample_toml : Serde RfcFrontmatter := table_toml [sample_fm; sample_fm1].

Definition sample_text : str :=
  match @render_frontmatter sample_toml sample_fm #"body" with Ok t => t | Err _ => [] end.

Definition sample_fs : Fs := mkFs {[ rfc_path [] #"r" := sample_text ]} [].

Definition sample_svc : Svc := mkSvc sample_fs LockStore_new false [] 0.

Definition sample_edit (agent : AgentId) : EditRequest :=
  mkEditRequest #"r" agent #"s" #"new" [] (Some #"sha256:0").

Definition sample_edited : result RfcError ContentHash * Svc :=
  @propose_edit bits_sha256 sample_toml [] 9 10 (sample_edit #"a") sample_svc.

Lemma no_lost_update_witness :
  match @propose_edit bits_sha256 sample_toml [] 20 21 (sample_edit #"b") sample_edited.2 with
  | (Ok _, _) => False
  | (Err _, s2) => refused [] sample_edited.2 s2
  end.
Proof.
  apply (@no_lost_update bits_sha256 sample_toml [] (table_toml_laws _) 9 10 (sample_edit #"a")
    20 21 (sample_edit #"b") #"sha256:0" (@content_hash_of bits_sha256 #"new") sample_svc
    sample_edited.2); [done|done|done| |vm_compute; reflexivity|done].
  intros [fm body] [_ (raw & Hraw & Hp)]. split; [|apply table_toml_safe].
  vm_compute in Hraw. injection Hraw as <-. vm_compute in Hp. injection Hp as <- _. done.
Defined.

Definition sample_dec : Serde DecisionRecord := table_serde [sample_decision].

Definition sample_files : gmap path str :=
  <[decision_path [] #"r" := #"0" ++ [chr_nl]]> {[ rfc_path [] #"r" := sample_text ]}.

Definition sample_restarted : Svc := @service_new sample_toml sample_dec [] (mkFs sample_files []).

Lemma fresh_decision_ids_witness : (next_decision_id sample_restarted).1 ≠ Ok #"d-001".
Proof.
  apply (@fresh_decision_ids sample_toml sample_dec [] sample_files
    [mkRfcRecord sample_fm #"body"] (mkRfcRecord sample_fm #"body") [sample_decision]
    sample_decision sample_restarted).
  - vm_compute. reflexivity.
  - apply list_elem_of_here.
  - vm_compute. reflexivity.
  - apply list_elem_of_here.
  - vm_compute. discriminate.
  - vm_compute. reflexivity.
Defined.
