(* ===== verification/RfcMcp.v ===== *)
(** * RfcMcp: the tool server of the RFC primitive

    [crates/orkia-rfc-mcp/src/{rpc.rs, handler.rs}] and [check_len] of
    [crates/orkia-shell-types/src/input_limits.rs]: JSON-RPC requests from an
    agent become calls of the RFC service. Decoding of requests and parameters
    and encoding of answers are done by serde and are class members here. *)

From Stdlib Require Import NArith ZArith Lia.
From stdpp Require Import base gmap strings option numbers list list_basics.
From S2P Require Import Prelude Effects Json Fs RfcCore RfcStore RfcLock RfcService.

(** ** Input caps *)

Definition MCP_FRAME_MAX_BYTES : N := (256 * 1024)%N.

(** [check_len]: the message of the I/O error on overflow. *)
Definition check_len (len cap : N) (boundary : str) : result str unit :=
  if (cap <? len)%N
  then Err (boundary ++ #": input exceeds " ++ fmt_dec cap ++ #"-byte cap (" ++ fmt_dec len
            ++ #" bytes)")
  else Ok ().

(** ** JSON-RPC *)

Record JsonRpcRequest := mkJsonRpcRequest {
  rq_jsonrpc : str;
  rq_id : option json;
  rq_method : str;
  rq_params : json;
}.

Record JsonRpcError := mkJsonRpcError {
  re_code : Z;
  re_message : str;
  re_data : option json;
}.

Record JsonRpcResponse := mkJsonRpcResponse {
  rs_jsonrpc : str;
  rs_id : option json;
  rs_result : option json;
  rs_error : option JsonRpcError;
}.

Definition response_ok (id : option json) (v : json) : JsonRpcResponse :=
  mkJsonRpcResponse #"2.0" id (Some v) None.

Definition response_err (id : option json) (code : Z) (message : str) (data : option json)
    : JsonRpcResponse :=
  mkJsonRpcResponse #"2.0" id None (Some (mkJsonRpcError code message data)).

Definition PARSE_ERROR : Z := -32700.
Definition METHOD_NOT_FOUND : Z := -32601.
Definition INVALID_PARAMS : Z := -32602.
Definition INTERNAL_ERROR : Z := -32603.
Definition RFC_ERROR : Z := -32000.

(** The [Display] texts of [RfcError]. *)
Definition rfc_error_text (e : RfcError) : str :=
  match e with
  | ENotFound id _ => #"RFC " ++ id ++ #" not found"
  | EInvalidState id st op action =>
      #"RFC " ++ id ++ #" is in state " ++ state_debug st ++ #", operation " ++ op
      ++ #" not permitted: " ++ action
  | ELocked id locked_by action =>
      #"Cannot edit: " ++ id ++ #" is locked by " ++ locked_by ++ #". " ++ action
  | EStaleSnapshot got expected action =>
      #"Stale snapshot: your hash ContentHash(" ++ debug_str got ++ #"), current ContentHash("
      ++ debug_str expected ++ #"). " ++ action
  | ERationaleRequired op => #"Rationale required for " ++ op
  | ESectionGuarded section reason action =>
      #"Cannot propose edit to section " ++ section ++ #": " ++ reason ++ #". " ++ action
  | EIo op message => #"I/O error during " ++ op ++ #": " ++ message
  | EFrontmatter message => #"Frontmatter parse error: " ++ message
  | EDecisionNotResolvable id did reason action =>
      #"decision " ++ did ++ #" on RFC " ++ id ++ #" cannot be resolved: " ++ reason
      ++ #". " ++ action
  end.

(** ** Parameters and answers *)

Record GetContextParams := mkGetContextParams {
  gc_rfc_id : RfcId; gc_if_hash_differs_from : option ContentHash;
}.
Record IdOnlyParams := mkIdOnlyParams { io_rfc_id : RfcId }.
Record AskParams := mkAskParams {
  ap_rfc_id : RfcId; ap_agent : AgentId; ap_question : str; ap_rationale : str;
}.
Record LogDecisionParams := mkLogDecisionParams {
  lp_rfc_id : RfcId; lp_agent : AgentId; lp_content : str; lp_rationale : str;
  lp_affects : list str;
}.
Record ProposeEditParams := mkProposeEditParams {
  pp_rfc_id : RfcId; pp_agent : AgentId; pp_section : SectionPath; pp_new_body : str;
  pp_linked_decisions : list DecisionId; pp_if_hash_matches : option ContentHash;
}.
Record PromoteParams := mkPromoteParams {
  pr_rfc_id : RfcId; pr_agent : AgentId; pr_rationale : str;
}.

Record StateInfo := mkStateInfo {
  si_rfc_id : RfcId; si_state : RfcState; si_version : N; si_content_hash : ContentHash;
  si_locked_by : option AgentId; si_open_clarifications : N; si_unreviewed_decisions : N;
}.

Record PromoteAck := mkPromoteAck {
  pa_queued : bool; pa_rationale : str; pa_rfc_id : RfcId; pa_agent : AgentId;
}.

(** serde's conversions. *)
Class FromValue (P : Type) := from_value : json → result str P.
Class ToValue (R : Type) := to_value : R → result str json.
Class RequestText := request_from_str : str → result str JsonRpcRequest.

Section handlers.
Context `{!Sha256, !Serde RfcFrontmatter, !Serde DecisionRecord}.
Context (pd : path).

Definition h_get_context (p : GetContextParams) : S_ (option RfcContext) :=
  ctx ← svc_get_context pd (gc_rfc_id p);
  match gc_if_hash_differs_from p with
  | Some claimed =>
      if bool_decide (claimed = rc_content_hash ctx) then mret None else mret (Some ctx)
  | None => mret (Some ctx)
  end.

Definition h_get_state (p : IdOnlyParams) : S_ StateInfo :=
  c ← svc_get_context pd (io_rfc_id p);
  mret (mkStateInfo (rc_rfc_id c) (rc_state c) (rc_version c) (rc_content_hash c)
          (rc_locked_by c) (rc_open_clarifications c) (rc_unreviewed_decisions c)).

Definition h_list_decisions (p : IdOnlyParams) : S_ (list DecisionRecord) :=
  on_store (read_decisions pd (io_rfc_id p)).

Definition h_ask (now : Time) (p : AskParams) : S_ DecisionId :=
  ask pd now (mkAskRequest (ap_rfc_id p) (ap_agent p) (ap_question p) (ap_rationale p)).

Definition h_log_decision (now : Time) (p : LogDecisionParams) : S_ DecisionId :=
  log_decision pd now
    (mkLogDecisionRequest (lp_rfc_id p) (lp_agent p) (lp_content p) (lp_rationale p)
       (lp_affects p)).

Definition h_propose_edit (now_lock now : Time) (p : ProposeEditParams) : S_ ContentHash :=
  propose_edit pd now_lock now
    (mkEditRequest (pp_rfc_id p) (pp_agent p) (pp_section p) (pp_new_body p)
       (pp_linked_decisions p) (pp_if_hash_matches p)).

Definition h_propose_promote (p : PromoteParams) : S_ PromoteAck :=
  if is_empty (trim (pr_rationale p)) then throw (ERationaleRequired #"propose_promote")
  else
    ctx ← svc_get_context pd (pr_rfc_id p);
    let tctx := mkTransitionCtx (rc_open_clarifications ctx) (rc_unreviewed_decisions ctx) true in
    if negb (bool_decide (rc_state ctx = DraftActive))
    then throw (EInvalidState (pr_rfc_id p) (rc_state ctx) #"propose_promote"
                  #"Only DraftActive RFCs may be promoted.")
    else
      lift (validate_transition (pr_rfc_id p) (rc_state ctx) Promote tctx);;
      mret (mkPromoteAck true (pr_rationale p) (pr_rfc_id p) (pr_agent p)).

(** ** Dispatch *)

Context `{!RequestText, !ToValue RfcError}.
Context `{!FromValue GetContextParams, !FromValue IdOnlyParams, !FromValue AskParams,
          !FromValue LogDecisionParams, !FromValue ProposeEditParams, !FromValue PromoteParams}.
Context `{!ToValue (option RfcContext), !ToValue StateInfo, !ToValue (list DecisionRecord),
          !ToValue str, !ToValue PromoteAck}.

Definition handle {P R} `{!FromValue P, !ToValue R} (id : option json) (params : json)
    (f : P → S_ R) (s : Svc) : JsonRpcResponse * Svc :=
  match from_value params with
  | Err e => (response_err id INVALID_PARAMS (#"invalid params: " ++ e) None, s)
  | Ok p =>
      match f p s with
      | (Ok r, s') =>
          (match to_value r with
           | Ok v => response_ok id v
           | Err e => response_err id INTERNAL_ERROR (#"serialize: " ++ e) None
           end, s')
      | (Err e, s') =>
          (response_err id RFC_ERROR (rfc_error_text e) (to_option (to_value e)), s')
      end
  end.

Definition dispatch_request (now_lock now : Time) (raw : str) (s : Svc)
    : JsonRpcResponse * Svc :=
  match check_len (byte_len raw) MCP_FRAME_MAX_BYTES #"orkia-rfc-mcp" with
  | Err e => (response_err None PARSE_ERROR (#"input rejected: " ++ e) None, s)
  | Ok _ =>
      match request_from_str raw with
      | Err e => (response_err None PARSE_ERROR (#"parse error: " ++ e) None, s)
      | Ok req =>
          let id := rq_id req in
          let m := rq_method req in
          if decide (m = #"orkia_rfc_get_context") then handle id (rq_params req) h_get_context s
          else if decide (m = #"orkia_rfc_state") then handle id (rq_params req) h_get_state s
          else if decide (m = #"orkia_rfc_list_decisions")
          then handle id (rq_params req) h_list_decisions s
          else if decide (m = #"orkia_rfc_ask") then handle id (rq_params req) (h_ask now) s
          else if decide (m = #"orkia_rfc_log_decision")
          then handle id (rq_params req) (h_log_decision now) s
          else if decide (m = #"orkia_rfc_propose_edit")
          then handle id (rq_params req) (h_propose_edit now_lock now) s
          else if decide (m = #"orkia_rfc_propose_promote")
          then handle id (rq_params req) h_propose_promote s
          else (response_err id METHOD_NOT_FOUND (#"unknown method: " ++ m) None, s)
      end
  end.

(** ** Theorems *)

Lemma handle_read_only {P R} `{!FromValue P, !ToValue R} id params (f : P → S_ R) s :
  (∀ p, read_only (f p)) → quiet s (handle id params f s).2.
Proof.
  intros Hf. unfold handle. destruct (from_value params) as [p|e]; [|apply quiet_refl].
  specialize (Hf p s). by destruct (f p s) as [[r|e] s'].
Qed.

Lemma propose_promote_read_only p : read_only (h_propose_promote p).
Proof.
  unfold h_propose_promote. destruct (is_empty _); [by apply read_only_pure|].
  apply read_only_bind; [apply get_context_read_only|intros ctx].
  destruct (negb _); [by apply read_only_pure|].
  apply read_only_bind; [by apply read_only_pure|intros ?]. by apply read_only_pure.
Qed.

(** The methods that may write. *)
Definition writing_method (m : str) : Prop :=
  m = #"orkia_rfc_ask" ∨ m = #"orkia_rfc_log_decision" ∨ m = #"orkia_rfc_propose_edit".

(** Least privilege at the tool boundary: a frame that is too large, does not parse or
    names any method but the three writing ones (asking, logging a decision, proposing
    an edit) changes no file, no lock, no counter and emits no event; in particular an
    agent's promotion request changes nothing. A too large frame is answered by a parse
    error before it is decoded. *)
Theorem dispatch_least_privilege now_lock now raw s :
  let '(resp, s') := dispatch_request now_lock now raw s in
  (quiet s s' ∨ ∃ req, request_from_str raw = Ok req ∧ writing_method (rq_method req)
                       ∧ (byte_len raw ≤ MCP_FRAME_MAX_BYTES)%N)
  ∧ ((MCP_FRAME_MAX_BYTES < byte_len raw)%N →
       s' = s ∧ ∃ msg, rs_error resp = Some (mkJsonRpcError PARSE_ERROR msg None)).
Proof.
  unfold dispatch_request, check_len.
  destruct (N.ltb_spec MCP_FRAME_MAX_BYTES (byte_len raw)) as [Hlt|Hge].
  { split; [left; apply quiet_refl|]. intros _. split; [done|]. by eexists. }
  destruct (request_from_str raw) as [req|e] eqn:Hreq.
  2: { split; [left; apply quiet_refl|lia]. }
  match goal with |- let '(_, _) := ?x in _ => assert (quiet s x.2 ∨ writing_method (rq_method req)) as Hq end.
  { unfold writing_method.
    repeat case_decide; try tauto; left;
      try apply quiet_refl; apply handle_read_only; intros p.
    - unfold h_get_context. apply read_only_bind; [apply get_context_read_only|intros ctx].
      repeat case_match; by apply read_only_pure.
    - apply read_only_bind; [apply get_context_read_only|intros ctx]. by apply read_only_pure.
    - apply decisions_read_only.
    - apply propose_promote_read_only. }
  destruct (if decide _ then _ else _) as [resp s'] eqn:Hd. split; [|lia].
  destruct Hq; [by left|right; eauto].
Qed.

Lemma get_context_Ok id s ctx s' :
  svc_get_context pd id s = (Ok ctx, s') →
  ∃ rec counts, stored pd id (fs_files (svc_fs s)) rec
    ∧ counted pd id (fs_files (svc_fs s)) counts
    ∧ rc_state ctx = fm_state (rec_fm rec)
    ∧ rc_open_clarifications ctx = open_clarifications counts
    ∧ rc_unreviewed_decisions ctx = unreviewed_decisions counts.
Proof.
  unfold svc_get_context. intros E.
  runok E as rec s1 Hl. apply load_Ok in Hl as [Q1 Hrec].
  runok E as counts s2 Hc. apply counts_Ok in Hc as [Q2 Hcnt].
  rewrite (q_files _ _ Q1) in Hcnt.
  runok E as u s3 Hm. runok E as l s4 Hg. injection E as <- <-. eauto 8.
Qed.

(** The acknowledgement of a promotion request is sound: it is given only with a
    rationale, and when the RFC on disk and its decision log allow the promotion step
    of the state machine; the request itself never changes anything. *)
Theorem promote_ack_sound p s :
  let '(r, s') := h_propose_promote p s in
  quiet s s'
  ∧ match r with
    | Ok ack =>
        ack = mkPromoteAck true (pr_rationale p) (pr_rfc_id p) (pr_agent p)
        ∧ trim (pr_rationale p) ≠ []
        ∧ ∃ rec counts, stored pd (pr_rfc_id p) (fs_files (svc_fs s)) rec
            ∧ counted pd (pr_rfc_id p) (fs_files (svc_fs s)) counts
            ∧ rfc_step (ctx_of counts) (fm_state (rec_fm rec)) Promote Active
    | Err _ => True
    end.
Proof.
  pose proof (propose_promote_read_only p s) as Q.
  destruct (h_propose_promote p s) as [[ack|e] s'] eqn:E; [|done]. split; [done|].
  unfold h_propose_promote in E. destruct (trim (pr_rationale p)) eqn:Ht; [done|]. simpl in E.
  runok E as ctx s1 Hc. apply get_context_Ok in Hc as (rec & counts & Hst & Hcn & H1 & H2 & H3).
  case_bool_decide as Hd; [|done]. cbn [negb] in E.
  runok E as to s2 Hv. injection E as <- <-. injection Hv as Hv _.
  split_and!; [done|done|]. exists rec, counts. split_and!; [done|done|].
  rewrite <- H1, Hd. rewrite Hd, H2, H3 in Hv. apply validate_transition_step in Hv.
  by inversion Hv; subst.
Qed.

End handlers.
