(* ===== verification/Policy.v ===== *)
(** * Policy: the command policy of the cage

    [crates/orkia-shell-types/src/policy.rs]: the data of a policy, the lexers
    that cut a command line into simple commands ([split_segments]) and a
    simple command into words ([shell_split]), the canonical form of a command
    ([canonicalize]), rule matching and the combination of the segments'
    decisions ([evaluate_match]). The lexers index a vector of characters and
    look at most one character ahead; here they recurse on the remaining
    characters. *)

From Stdlib Require Import NArith ZArith Lia.
From stdpp Require Import base gmap strings option numbers list list_basics.
From S2P Require Import Prelude.

(** ** Data *)

Record WorkspaceScope := mkWorkspaceScope { ws_root : str }.

Inductive Verdict := Allow | Ask | Deny.

#[export] Instance Verdict_eq_dec : EqDecision Verdict.
Proof. solve_decision. Defined.

Inductive Sensitivity := Benign | Sensitive.

#[export] Instance Sensitivity_eq_dec : EqDecision Sensitivity.
Proof. solve_decision. Defined.

Definition Sensitivity_default : Sensitivity := Sensitive.

Record Capability := mkCapability {
  cap_name : str;
  cap_matches : list str;
  cap_verdict : Verdict;
  cap_sensitivity : Sensitivity;
}.

Record ClassCaps := mkClassCaps { cc_read : bool; cc_write : bool; cc_exec : bool }.

Definition ClassCaps_default : ClassCaps := mkClassCaps false false false.

Record Policy := mkPolicy {
  default_verdict : Verdict;
  caps : ClassCaps;
  workspace : WorkspaceScope;
  capabilities : list Capability;
}.

Record Adjustable := mkAdjustable {
  adj_capability : option str;
  adj_rule : option str;
}.

Inductive PolicyDecision :=
| DAllow (capability rule : option str)
| DDeny (capability rule : option str)
| DAsk (a : Adjustable).

#[export] Instance Adjustable_eq_dec : EqDecision Adjustable.
Proof. solve_decision. Defined.
#[export] Instance PolicyDecision_eq_dec : EqDecision PolicyDecision.
Proof. solve_decision. Defined.

Definition decision_capability (d : PolicyDecision) : option str :=
  match d with DAllow c _ | DDeny c _ => c | DAsk a => adj_capability a end.

Definition decision_rule (d : PolicyDecision) : option str :=
  match d with DAllow _ r | DDeny _ r => r | DAsk a => adj_rule a end.

Inductive AskOutcome := OAuto | OAsk.

Definition resolve (a : Adjustable) (outcome : AskOutcome) : Verdict :=
  match outcome with OAuto => Allow | OAsk => Deny end.

Definition decision_from (v : Verdict) (capability rule : option str) : PolicyDecision :=
  match v with
  | Allow => DAllow capability rule
  | Deny => DDeny capability rule
  | Ask => DAsk (mkAdjustable capability rule)
  end.

Definition tier (d : PolicyDecision) : nat :=
  match d with DAllow _ _ => 0 | DAsk _ => 1 | DDeny _ _ => 2 end.

(** ** Lexing *)

Definition normalize (s : str) : str := join #" " (split_whitespace s).

Definition pattern_matches (pattern normalized_cmd : str) : bool :=
  match strip_suffix [chr_star] (trim pattern) with
  | Some prefix => starts_with (normalize prefix) normalized_cmd
  | None => bool_decide (normalized_cmd = normalize pattern)
  end.

(** [in_single] and [in_double] are never both set. *)
Inductive quoting := Plain | InSingle | InDouble.

(** One of [;], [|], [&] and the line feed. *)
Definition is_operator (c : char) : bool :=
  (c =? chr_semi)%N || (c =? chr_pipe)%N || (c =? chr_amp)%N || (c =? chr_nl)%N.

(** The operators of two characters. *)
Definition is_doubled (c d : char) : bool :=
  ((c =? chr_amp)%N || (c =? chr_pipe)%N) && (d =? c)%N.

Fixpoint segments_go (q : quoting) (cur line : str) : list str :=
  match line with
  | [] => [cur]
  | c :: line' =>
      match q with
      | InSingle =>
          segments_go (if (c =? chr_squote)%N then Plain else InSingle) (cur ++ [c]) line'
      | InDouble =>
          match line' with
          | d :: line'' =>
              if (c =? chr_backslash)%N then segments_go InDouble (cur ++ [c; d]) line''
              else segments_go (if (c =? chr_dquote)%N then Plain else InDouble)
                     (cur ++ [c]) line'
          | [] =>
              segments_go (if (c =? chr_dquote)%N then Plain else InDouble) (cur ++ [c]) line'
          end
      | Plain =>
          if (c =? chr_squote)%N then segments_go InSingle (cur ++ [c]) line'
          else if (c =? chr_dquote)%N then segments_go InDouble (cur ++ [c]) line'
          else
            match line' with
            | d :: line'' =>
                if (c =? chr_backslash)%N then segments_go Plain (cur ++ [c; d]) line''
                else if is_doubled c d then cur :: segments_go Plain [] line''
                else if is_operator c then cur :: segments_go Plain [] line'
                else segments_go Plain (cur ++ [c]) line'
            | [] =>
                if is_operator c then cur :: segments_go Plain [] line'
                else segments_go Plain (cur ++ [c]) line'
            end
      end
  end.

(** The segments, trimmed, without the empty ones. *)
Definition clean (segs : list str) : list str := filter (λ s, s ≠ []) (map trim segs).

Definition split_segments (line : str) : list str := clean (segments_go Plain [] line).

Fixpoint split_go (q : quoting) (has : bool) (cur s : str) : list str :=
  match s with
  | [] => if has then [cur] else []
  | c :: s' =>
      match q with
      | InSingle =>
          if (c =? chr_squote)%N then split_go Plain has cur s'
          else split_go InSingle has (cur ++ [c]) s'
      | InDouble =>
          match s' with
          | d :: s'' =>
              if (c =? chr_backslash)%N then split_go InDouble has (cur ++ [d]) s''
              else if (c =? chr_dquote)%N then split_go Plain has cur s'
              else split_go InDouble has (cur ++ [c]) s'
          | [] =>
              if (c =? chr_dquote)%N then split_go Plain has cur s'
              else split_go InDouble has (cur ++ [c]) s'
          end
      | Plain =>
          if (c =? chr_squote)%N then split_go InSingle true cur s'
          else if (c =? chr_dquote)%N then split_go InDouble true cur s'
          else
            match s' with
            | d :: s'' =>
                if (c =? chr_backslash)%N then split_go Plain true (cur ++ [d]) s''
                else if is_whitespace c
                then if has then cur :: split_go Plain false [] s' else split_go Plain has cur s'
                else split_go Plain true (cur ++ [c]) s'
            | [] =>
                if is_whitespace c
                then if has then cur :: split_go Plain false [] s' else split_go Plain has cur s'
                else split_go Plain true (cur ++ [c]) s'
            end
      end
  end.

Definition shell_split (s : str) : list str := split_go Plain false [] s.

Definition VALUE_TAKING : list str :=
  [ #"-C"; #"-c"; #"--git-dir"; #"--work-tree"; #"--namespace"; #"--super-prefix"].

(** [git_subcommand_index], the loop from index [i] on. *)
Fixpoint git_index_go (i : nat) (tokens : list str) : nat :=
  match tokens with
  | [] => i
  | t :: tokens' =>
      if negb (starts_with [chr_minus] t) then i
      else if bool_decide (t ∈ VALUE_TAKING)
      then match tokens' with _ :: tokens'' => git_index_go (i + 2) tokens'' | [] => i + 2 end
      else git_index_go (i + 1) tokens'
  end.

Definition git_subcommand_index (tokens : list str) : nat := git_index_go 1 (tail tokens).

(** [t.rsplit('/').next()] *)
Definition base_name (t : str) : option str := last (split_char chr_slash t).

Definition is_git (tokens : list str) : bool :=
  match tokens with
  | t :: _ => bool_decide (base_name t = Some #"git")
  | [] => false
  end.

Definition canonicalize (segment : str) : str :=
  let tokens := shell_split segment in
  if negb (is_git tokens) then normalize segment
  else
    let start := git_subcommand_index tokens in
    normalize (foldl (λ out t, out ++ #" " ++ t) #"git"
                 (drop (Nat.min start (length tokens)) tokens)).

(** ** Matching *)

Definition find_rule (matches : list str) (cmd : str) : option str :=
  head (filter (λ p, pattern_matches p cmd = true) matches).

Fixpoint match_caps (cs : list Capability) (default : Verdict) (cmd : str) : PolicyDecision :=
  match cs with
  | [] => decision_from default None None
  | cap :: cs' =>
      match find_rule (cap_matches cap) cmd with
      | Some rule => decision_from (cap_verdict cap) (Some (cap_name cap)) (Some rule)
      | None => match_caps cs' default cmd
      end
  end.

Definition match_one (p : Policy) (cmd : str) : PolicyDecision :=
  match_caps (capabilities p) (default_verdict p) cmd.

Definition combine (chosen : option PolicyDecision) (m : PolicyDecision) : PolicyDecision :=
  match chosen with
  | Some prev => if tier m <=? tier prev then prev else m
  | None => m
  end.

Definition eval_segment (p : Policy) (chosen : option PolicyDecision) (segment : str)
    : option PolicyDecision :=
  let canon := canonicalize segment in
  if is_empty canon then chosen else Some (combine chosen (match_one p canon)).

Definition evaluate_match (p : Policy) (command_line : str) : PolicyDecision :=
  match foldl (eval_segment p) None (split_segments command_line) with
  | Some d => d
  | None => decision_from (default_verdict p) None None
  end.

(** ** Combination of segments *)

Lemma combine_tier o m :
  tier (combine o m) = Nat.max (match o with Some d => tier d | None => 0 end) (tier m).
Proof.
  destruct o as [d|]; simpl; [|lia]. destruct (Nat.leb_spec (tier m) (tier d)); lia.
Qed.

(** The decisions of the segments that are not blank, in order. *)
Definition segment_decisions (p : Policy) (segs : list str) : list PolicyDecision :=
  map (match_one p) (filter (λ c, c ≠ []) (map canonicalize segs)).

Lemma segment_decisions_cons p seg segs :
  segment_decisions p (seg :: segs) =
  (if is_empty (canonicalize seg) then [] else [match_one p (canonicalize seg)])
  ++ segment_decisions p segs.
Proof.
  unfold segment_decisions. cbn [map]. rewrite filter_cons.
  case_decide as Hc; destruct (canonicalize seg); naive_solver.
Qed.

Lemma eval_fold p segs o :
  foldl (eval_segment p) o segs = foldl (λ o m, Some (combine o m)) o (segment_decisions p segs).
Proof.
  revert o. induction segs as [|seg segs IH]; intros o; [done|].
  rewrite segment_decisions_cons, foldl_app. simpl. unfold eval_segment at 2.
  destruct (canonicalize seg); apply IH.
Qed.

(** The chosen decision is one of those seen, and none seen is stricter; the
    first of the strictest wins. *)
Lemma combine_fold ds d0 :
  ∃ d, foldl (λ o m, Some (combine o m)) (Some d0) ds = Some d
    ∧ d ∈ d0 :: ds ∧ ∀ d', d' ∈ d0 :: ds → tier d' ≤ tier d.
Proof.
  revert d0. induction ds as [|m ds IH]; intros d0; simpl.
  - exists d0. split; [done|]. split; [set_solver|]. intros d' [->|?]%elem_of_cons; [lia|set_solver].
  - destruct (IH (combine (Some d0) m)) as (d & Hd & Hin & Hmax). exists d. split; [done|].
    assert (combine (Some d0) m = d0 ∨ combine (Some d0) m = m) as Hc by (simpl; case_match; auto).
    split; [set_solver|]. pose proof (combine_tier (Some d0) m) as Ht.
    assert (tier (combine (Some d0) m) ≤ tier d) by (apply Hmax; set_solver).
    intros d' [->|[->|?]%elem_of_cons]%elem_of_cons; [lia|lia|]. apply Hmax. set_solver.
Qed.

Lemma evaluate_decisions p line :
  evaluate_match p line =
  match segment_decisions p (split_segments line) with
  | [] => decision_from (default_verdict p) None None
  | d :: ds => default d (foldl (λ o m, Some (combine o m)) (Some d) ds)
  end.
Proof.
  unfold evaluate_match. rewrite eval_fold.
  destruct (segment_decisions p (split_segments line)) as [|d ds]; [done|]. simpl.
  destruct (combine_fold ds d) as (d1 & -> & _). done.
Qed.

Lemma evaluate_match_in p line :
  segment_decisions p (split_segments line) ≠ [] →
  evaluate_match p line ∈ segment_decisions p (split_segments line).
Proof.
  rewrite evaluate_decisions. destruct (segment_decisions p _) as [|d ds]; [done|]. intros _.
  destruct (combine_fold ds d) as (d1 & -> & Hin & _). done.
Qed.

Lemma evaluate_match_max p line d :
  d ∈ segment_decisions p (split_segments line) → tier d ≤ tier (evaluate_match p line).
Proof.
  rewrite evaluate_decisions. destruct (segment_decisions p _) as [|d0 ds]; [set_solver|].
  destruct (combine_fold ds d0) as (d1 & -> & _ & Hmax). apply Hmax.
Qed.

(** C18: The decision on a command line is one of its segments' decisions and the most
    restrictive of them (deny over ask over allow); a line without a command gets the
    policy's default. So a denied segment denies the line wherever it stands. *)
Theorem evaluate_match_strictest p line :
  let ds := segment_decisions p (split_segments line) in
  (ds = [] → evaluate_match p line = decision_from (default_verdict p) None None)
  ∧ (ds ≠ [] → evaluate_match p line ∈ ds)
  ∧ ∀ d, d ∈ ds → tier d ≤ tier (evaluate_match p line).
Proof.
  intros ds. split; [intros Hd; rewrite evaluate_decisions; by fold ds; rewrite Hd|].
  split; [apply evaluate_match_in|apply evaluate_match_max].
Qed.

Lemma evaluate_match_strictest_witness :
  evaluate_match (mkPolicy Ask ClassCaps_default (mkWorkspaceScope [])
    [mkCapability #"git.push" [ #"git push*"] Deny Sensitive]) #"echo ok && git push"
  ∈ [DAsk (mkAdjustable None None); DDeny (Some #"git.push") (Some #"git push*")].
Proof.
  refine (proj1 (proj2 (evaluate_match_strictest (mkPolicy Ask ClassCaps_default
    (mkWorkspaceScope []) [mkCapability #"git.push" [ #"git push*"] Deny Sensitive])
    #"echo ok && git push")) _). vm_compute. discriminate.
Defined.

(** ** Matching order *)

(** Rules are tried in declaration order: the decision of one command is that of the
    first capability with a matching pattern, carrying its verdict, its name and its
    first matching pattern; without one it is the default, naming no rule. *)
Theorem match_one_first p cmd :
  (∃ before cap after rule,
     capabilities p = before ++ cap :: after
     ∧ Forall (λ c, Forall (λ r, pattern_matches r cmd = false) (cap_matches c)) before
     ∧ find_rule (cap_matches cap) cmd = Some rule
     ∧ rule ∈ cap_matches cap ∧ pattern_matches rule cmd = true
     ∧ match_one p cmd = decision_from (cap_verdict cap) (Some (cap_name cap)) (Some rule))
  ∨ (Forall (λ c, Forall (λ r, pattern_matches r cmd = false) (cap_matches c)) (capabilities p)
     ∧ match_one p cmd = decision_from (default_verdict p) None None).
Proof.
  unfold match_one. induction (capabilities p) as [|c cs IH]; simpl; [by right|].
  destruct (find_rule (cap_matches c) cmd) as [rule|] eqn:E.
  - left. exists [], c, cs, rule. unfold find_rule in E.
    assert (rule ∈ filter (λ r, pattern_matches r cmd = true) (cap_matches c)) as Hin.
    { destruct (filter _ _); simplify_eq/=. set_solver. }
    apply list_elem_of_filter in Hin as [??]. by split_and!.
  - assert (Forall (λ r, pattern_matches r cmd = false) (cap_matches c)) as Hc.
    { apply Forall_forall. intros r Hr%list_elem_of_In.
      destruct (pattern_matches r cmd) eqn:Ep; [|done].
      unfold find_rule in E. apply head_None in E.
      assert (r ∈ filter (λ r, pattern_matches r cmd = true) (cap_matches c)) as Hin
        by by apply list_elem_of_filter.
      rewrite E in Hin. by apply not_elem_of_nil in Hin. }
    destruct IH as [(before & cap & after & rule & -> & Hb & IH)|[Hb Hd]].
    + left. exists (c :: before), cap, after, rule. split_and!; try done; [by constructor|apply IH..].
    + right. split; [by constructor|done].
Qed.

(** ** Chained commands *)

(** [segments_go] on a piece of a line: the segments completed and the state at
    its end; [None] when the piece ends where the lexer looks ahead. *)
Fixpoint lex_go (q : quoting) (cur line : str) : option (list str * quoting * str) :=
  match line with
  | [] => Some ([], q, cur)
  | c :: line' =>
      match q with
      | InSingle => lex_go (if (c =? chr_squote)%N then Plain else InSingle) (cur ++ [c]) line'
      | InDouble =>
          if (c =? chr_backslash)%N
          then match line' with
               | d :: line'' => lex_go InDouble (cur ++ [c; d]) line''
               | [] => None
               end
          else lex_go (if (c =? chr_dquote)%N then Plain else InDouble) (cur ++ [c]) line'
      | Plain =>
          if (c =? chr_squote)%N then lex_go InSingle (cur ++ [c]) line'
          else if (c =? chr_dquote)%N then lex_go InDouble (cur ++ [c]) line'
          else
            match line' with
            | d :: line'' =>
                if (c =? chr_backslash)%N then lex_go Plain (cur ++ [c; d]) line''
                else if is_doubled c d
                then '(segs, q', cur') ← lex_go Plain [] line''; Some (cur :: segs, q', cur')
                else if is_operator c
                then '(segs, q', cur') ← lex_go Plain [] line'; Some (cur :: segs, q', cur')
                else lex_go Plain (cur ++ [c]) line'
            | [] =>
                if (c =? chr_backslash)%N || (c =? chr_amp)%N || (c =? chr_pipe)%N then None
                else if is_operator c then Some ([cur], Plain, [])
                else Some ([], Plain, cur ++ [c])
            end
      end
  end.

(** A piece that ends outside quotes, at a point where no lookahead is pending. *)
Definition closed (a : str) : bool :=
  match lex_go Plain [] a with Some (_, Plain, _) => true | _ => false end.

Lemma is_doubled_operator c d : is_doubled c d = true → is_operator c = true.
Proof.
  unfold is_doubled, is_operator. destruct (c =? chr_amp)%N, (c =? chr_pipe)%N,
    (c =? chr_semi)%N; simpl; done.
Qed.

(** One step of the lexers on a plain character that has a successor. *)
Lemma lex_plain_step cur c d a :
  lex_go Plain cur (c :: d :: a) =
  if (c =? chr_squote)%N then lex_go InSingle (cur ++ [c]) (d :: a)
  else if (c =? chr_dquote)%N then lex_go InDouble (cur ++ [c]) (d :: a)
  else if (c =? chr_backslash)%N then lex_go Plain (cur ++ [c; d]) a
  else if is_doubled c d
  then '(segs, q', cur') ← lex_go Plain [] a; Some (cur :: segs, q', cur')
  else if is_operator c
  then '(segs, q', cur') ← lex_go Plain [] (d :: a); Some (cur :: segs, q', cur')
  else lex_go Plain (cur ++ [c]) (d :: a).
Proof. reflexivity. Qed.

Lemma segments_plain_step cur c d a :
  segments_go Plain cur (c :: d :: a) =
  if (c =? chr_squote)%N then segments_go InSingle (cur ++ [c]) (d :: a)
  else if (c =? chr_dquote)%N then segments_go InDouble (cur ++ [c]) (d :: a)
  else if (c =? chr_backslash)%N then segments_go Plain (cur ++ [c; d]) a
  else if is_doubled c d then cur :: segments_go Plain [] a
  else if is_operator c then cur :: segments_go Plain [] (d :: a)
  else segments_go Plain (cur ++ [c]) (d :: a).
Proof. reflexivity. Qed.

Lemma lex_double_step cur c d a :
  lex_go InDouble cur (c :: d :: a) =
  if (c =? chr_backslash)%N then lex_go InDouble (cur ++ [c; d]) a
  else lex_go (if (c =? chr_dquote)%N then Plain else InDouble) (cur ++ [c]) (d :: a).
Proof. reflexivity. Qed.

Lemma segments_double_step cur c d a :
  segments_go InDouble cur (c :: d :: a) =
  if (c =? chr_backslash)%N then segments_go InDouble (cur ++ [c; d]) a
  else segments_go (if (c =? chr_dquote)%N then Plain else InDouble) (cur ++ [c]) (d :: a).
Proof. reflexivity. Qed.

Lemma lex_last_app q cur c segs q' cur' k :
  lex_go q cur [c] = Some (segs, q', cur') →
  segments_go q cur (c :: k) = segs ++ segments_go q' cur' k.
Proof.
  destruct q; simpl; [| |].
  - destruct (c =? chr_squote)%N; [by intros [= <- <- <-]|].
    destruct (c =? chr_dquote)%N; [by intros [= <- <- <-]|].
    destruct (c =? chr_backslash)%N eqn:E1; [done|].
    destruct (c =? chr_amp)%N eqn:E2; [done|]. destruct (c =? chr_pipe)%N eqn:E3; [done|]. simpl.
    assert (∀ x, is_doubled c x = false) as Hd by (intros x; unfold is_doubled; by rewrite E2, E3).
    destruct (is_operator c) eqn:E4; intros [= <- <- <-]; destruct k as [|x k]; rewrite ?Hd; done.
  - by intros [= <- <- <-].
  - destruct (c =? chr_backslash)%N eqn:Eb; [done|]. intros [= <- <- <-]. by destruct k.
Qed.

Lemma lex_bind_inv (o : option (list str * quoting * str)) cur segs q' cur' :
  ('(sg, q1, c1) ← o; Some (cur :: sg, q1, c1)) = Some (segs, q', cur') →
  ∃ sg, o = Some (sg, q', cur') ∧ segs = cur :: sg.
Proof. destruct o as [[[sg q1] c1]|]; naive_solver. Qed.

Lemma lex_go_app a q cur segs q' cur' k :
  lex_go q cur a = Some (segs, q', cur') →
  segments_go q cur (a ++ k) = segs ++ segments_go q' cur' k.
Proof.
  revert q cur segs q' cur'.
  induction a as [a IH] using (induction_ltof1 _ (@length N)). unfold ltof in IH.
  destruct a as [|c [|d a]]; intros q cur segs q' cur'; [by intros [= <- <- <-]|apply lex_last_app|].
  pose proof (IH a ltac:(simpl; lia)) as IH1. pose proof (IH (d :: a) ltac:(simpl; lia)) as IH2.
  clear IH. change ((c :: d :: a) ++ k) with (c :: d :: a ++ k). destruct q.
  - rewrite lex_plain_step, segments_plain_step.
    destruct (c =? chr_squote)%N; [by apply IH2|]. destruct (c =? chr_dquote)%N; [by apply IH2|].
    destruct (c =? chr_backslash)%N; [by apply IH1|].
    destruct (is_doubled c d); [|destruct (is_operator c); [|by apply IH2]];
      intros (sg & E & ->)%lex_bind_inv; simpl app; f_equal; [by apply IH1|by apply IH2].
  - apply IH2.
  - rewrite lex_double_step, segments_double_step.
    destruct (c =? chr_backslash)%N; [by apply IH1|by apply IH2].
Qed.

(** [op] is a complete control operator in front of [b]. *)
Definition separates (op b : str) : bool :=
  bool_decide (op ∈ [ #";"; [chr_nl]; #"&&"; #"||"])
  || bool_decide (op ∈ [ #"|"; #"&"]) && negb (starts_with op b).

Lemma segments_single_operator cur c b :
  c = chr_pipe ∨ c = chr_amp → starts_with [c] b = false →
  segments_go Plain cur (c :: b) = cur :: segments_go Plain [] b.
Proof.
  intros Hc Hs. destruct b as [|x b]; [by destruct Hc as [->| ->]|].
  rewrite segments_plain_step. unfold starts_with in Hs. simpl in Hs.
  assert (is_doubled c x = false) as ->.
  { unfold is_doubled. rewrite (N.eqb_sym x c). destruct (c =? x)%N; [done|by rewrite andb_false_r]. }
  by destruct Hc as [->| ->].
Qed.

Lemma segments_go_operator cur op b :
  separates op b = true → segments_go Plain cur (op ++ b) = cur :: segments_go Plain [] b.
Proof.
  unfold separates. intros [H|[H Hs]%andb_true_iff]%orb_true_iff;
    apply bool_decide_eq_true_1 in H.
  - repeat (apply elem_of_cons in H as [->|H]; [by destruct b|]). by apply not_elem_of_nil in H.
  - apply negb_true_iff in Hs. apply elem_of_cons in H as [->|H%list_elem_of_singleton]; [|subst op];
      (apply segments_single_operator; [auto|done]).
Qed.

Lemma split_segments_chain a op b :
  closed a = true → separates op b = true →
  split_segments (a ++ op ++ b) = split_segments a ++ split_segments b.
Proof.
  unfold closed, split_segments. destruct (lex_go Plain [] a) as [[[segs q] cur]|] eqn:E; [|done].
  destruct q; [|done|done]. intros _ Hop. rewrite (lex_go_app _ _ _ _ _ _ _ E).
  rewrite segments_go_operator by done.
  assert (segments_go Plain [] a = segs ++ [cur]) as ->.
  { rewrite <- (app_nil_r a). by rewrite (lex_go_app _ _ _ _ _ _ [] E). }
  unfold clean. rewrite !map_app, !filter_app. simpl.
  change (trim cur :: map trim (segments_go Plain [] b))
    with ([trim cur] ++ map trim (segments_go Plain [] b)).
  by rewrite filter_app, app_assoc.
Qed.

(** A command cannot hide behind another one: when [a] is a piece of shell text that
    ends outside quotes and escapes, and [op] is a control operator, the chained line
    is decided at least as strictly as [a] and as [b] alone, whichever of them holds a
    command; its segments are exactly those of the two sides. *)
Theorem chained_commands_strictest p a op b :
  closed a = true → separates op b = true →
  split_segments (a ++ op ++ b) = split_segments a ++ split_segments b
  ∧ (segment_decisions p (split_segments a) ≠ [] →
       tier (evaluate_match p a) ≤ tier (evaluate_match p (a ++ op ++ b)))
  ∧ (segment_decisions p (split_segments b) ≠ [] →
       tier (evaluate_match p b) ≤ tier (evaluate_match p (a ++ op ++ b))).
Proof.
  intros Ha Hop. pose proof (split_segments_chain a op b Ha Hop) as Hs. split; [done|].
  assert (segment_decisions p (split_segments (a ++ op ++ b)) =
          segment_decisions p (split_segments a) ++ segment_decisions p (split_segments b)) as Hd.
  { rewrite Hs. unfold segment_decisions. by rewrite map_app, filter_app, map_app. }
  split; intros Hne; apply evaluate_match_max; rewrite Hd;
    pose proof (evaluate_match_in p _ Hne); set_solver.
Qed.

Lemma chained_commands_strictest_witness :
  closed #"echo 'a;b'" = true
  ∧ split_segments #"echo 'a;b'&& git push" = [ #"echo 'a;b'"; #"git push"].
Proof.
  split; [reflexivity|].
  refine (eq_trans (proj1 (chained_commands_strictest
    (mkPolicy Ask ClassCaps_default (mkWorkspaceScope []) []) #"echo 'a;b'" #"&&" #" git push"
    eq_refl eq_refl)) _). reflexivity.
Defined.

(** ** Words and the canonical form of git commands *)

Definition single_quote (w : str) : str := chr_squote :: w ++ [chr_squote].

(** A command line that quotes every word. *)
Definition quote_line (ws : list str) : str := join #" " (map single_quote ws).

Lemma split_go_quoted has cur w rest :
  chr_squote ∉ w →
  split_go InSingle has cur (w ++ chr_squote :: rest) = split_go Plain has (cur ++ w) rest.
Proof.
  revert cur. induction w as [|c w IH]; intros cur Hw; simpl; [by rewrite app_nil_r|].
  destruct (N.eqb_spec c chr_squote) as [->|_]; [set_solver|].
  rewrite IH by set_solver. by rewrite <- app_assoc.
Qed.

Lemma split_go_word w rest :
  chr_squote ∉ w →
  split_go Plain false [] (single_quote w ++ rest) = split_go Plain true w rest.
Proof.
  intros Hw. unfold single_quote. rewrite <- app_comm_cons, <- app_assoc.
  change (split_go Plain false [] (chr_squote :: w ++ [chr_squote] ++ rest))
    with (split_go InSingle true [] (w ++ chr_squote :: rest)).
  by rewrite split_go_quoted.
Qed.

Lemma split_go_space cur rest :
  split_go Plain true cur (chr_space :: rest) = cur :: split_go Plain false [] rest.
Proof. by destruct rest. Qed.

Lemma shell_split_quote ws :
  Forall (λ w, chr_squote ∉ w) ws → shell_split (quote_line ws) = ws.
Proof.
  unfold shell_split, quote_line. induction 1 as [|w ws Hw Hws IH]; [done|].
  destruct ws as [|w' ws].
  - simpl join. rewrite <- (app_nil_r (single_quote w)). by rewrite split_go_word.
  - change (join #" " (map single_quote (w :: w' :: ws)))
      with (single_quote w ++ chr_space :: join #" " (map single_quote (w' :: ws))).
    by rewrite split_go_word, split_go_space, IH.
Qed.

(** Global options of git in front of a subcommand. *)
Inductive git_options : list str → Prop :=
| opts_nil : git_options []
| opts_flag o os :
    starts_with [chr_minus] o = true → o ∉ VALUE_TAKING → git_options os → git_options (o :: os)
| opts_value o v os : o ∈ VALUE_TAKING → git_options os → git_options (o :: v :: os).

Lemma value_taking_minus o : o ∈ VALUE_TAKING → starts_with [chr_minus] o = true.
Proof.
  intros H. unfold VALUE_TAKING in H. repeat (apply elem_of_cons in H as [->|H]; [done|]).
  by apply not_elem_of_nil in H.
Qed.

Lemma git_index_options opts sub rest i :
  git_options opts → starts_with [chr_minus] sub = false →
  git_index_go i (opts ++ sub :: rest) = i + length opts.
Proof.
  intros Ho Hs. revert i. induction Ho as [|o os Hm Hv _ IH|o v os Hv _ IH]; intros i;
    cbn [git_index_go app].
  - rewrite Hs. simpl. lia.
  - rewrite Hm, bool_decide_false by done. cbn [negb]. rewrite IH. simpl. lia.
  - rewrite (value_taking_minus _ Hv), bool_decide_true by done. cbn [negb]. rewrite IH. simpl. lia.
Qed.

Lemma foldl_join (ts : list str) out :
  foldl (λ out t, out ++ #" " ++ t) out ts = join #" " (out :: ts).
Proof.
  revert out. induction ts as [|t ts IH]; intros out; [done|]. cbn [foldl]. rewrite IH.
  change (join #" " (out :: t :: ts)) with (out ++ #" " ++ join #" " (t :: ts)).
  destruct ts as [|t' ts]; [done|].
  change (join #" " ((out ++ #" " ++ t) :: t' :: ts))
    with ((out ++ #" " ++ t) ++ #" " ++ join #" " (t' :: ts)).
  change (join #" " (t :: t' :: ts)) with (t ++ #" " ++ join #" " (t' :: ts)).
  by rewrite <- !app_assoc.
Qed.

(** Structured git calls do not escape the rules: a git invocation, under any path to
    the program, with any global options before its subcommand and every word quoted,
    has the same canonical form as the plain call of the subcommand with the same
    arguments, so the same rules match it. *)
Theorem git_options_ignored p prog opts sub rest :
  base_name prog = Some #"git" → git_options opts → starts_with [chr_minus] sub = false →
  Forall (λ w, chr_squote ∉ w) (prog :: opts ++ sub :: rest) →
  canonicalize (quote_line (prog :: opts ++ sub :: rest)) = normalize (join #" " (#"git" :: sub :: rest))
  ∧ match_one p (canonicalize (quote_line (prog :: opts ++ sub :: rest)))
    = match_one p (canonicalize (quote_line (#"git" :: sub :: rest))).
Proof.
  intros Hp Ho Hs Hq.
  assert (∀ prog opts, base_name prog = Some #"git" → git_options opts →
    Forall (λ w, chr_squote ∉ w) (prog :: opts ++ sub :: rest) →
    canonicalize (quote_line (prog :: opts ++ sub :: rest))
      = normalize (join #" " (#"git" :: sub :: rest))) as Hc.
  { clear -Hs. intros prog opts Hp Ho Hq. unfold canonicalize. rewrite shell_split_quote by done.
    assert (is_git (prog :: opts ++ sub :: rest) = true) as -> by (simpl; by rewrite bool_decide_true).
    unfold git_subcommand_index. cbn [negb tail]. rewrite git_index_options by done.
    rewrite Nat.min_l by (simpl; rewrite length_app; simpl; lia).
    change (drop (1 + length opts) (prog :: opts ++ sub :: rest)) with (drop (length opts) (opts ++ sub :: rest)).
    rewrite drop_app_length. by rewrite foldl_join. }
  split; [by apply Hc|]. rewrite (Hc prog opts) by done.
  pose proof (Hc #"git" [] eq_refl opts_nil) as Hg. simpl app in Hg. rewrite Hg; [done|].
  constructor; [by apply (bool_decide_unpack (chr_squote ∉ #"git"))|].
  apply Forall_inv_tail in Hq. by apply Forall_app in Hq as [_ Hq].
Qed.

Lemma git_options_ignored_witness :
  canonicalize (quote_line [ #"/usr/bin/git"; #"-C"; #"/repo"; #"push"; #"origin"])
  = normalize (join #" " [ #"git"; #"push"; #"origin"]).
Proof.
  apply (git_options_ignored (mkPolicy Ask ClassCaps_default (mkWorkspaceScope []) [])
    #"/usr/bin/git" [ #"-C"; #"/repo"] #"push" [ #"origin"]).
  - reflexivity.
  - apply opts_value; [apply list_elem_of_here|apply opts_nil].
  - reflexivity.
  - apply (bool_decide_unpack (Forall (λ w, chr_squote ∉ w)
      ([ #"/usr/bin/git"; #"-C"; #"/repo"; #"push"; #"origin"]))). vm_compute. exact I.
Defined.

(** A policy that denies pushing and allows the rest. *)
Definition no_push : Policy :=
  mkPolicy Allow (mkClassCaps true true true) (mkWorkspaceScope #".")
    [mkCapability #"git.push" [ #"git push*"] Deny Sensitive].

(** What the segmentation does not see: command substitutions, subshells and compound
    commands are not cut at their inner command, so a denied command inside one is
    merged into the command around it and gets that one's decision. *)
Theorem substitution_hides_command :
  evaluate_match no_push #"git push" = DDeny (Some #"git.push") (Some #"git push*")
  ∧ split_segments #"echo $(git push)" = [ #"echo $(git push)"]
  ∧ evaluate_match no_push #"echo $(git push)" = DAllow None None
  ∧ evaluate_match no_push #"echo `git push`" = DAllow None None
  ∧ evaluate_match no_push #"(git push)" = DAllow None None
  ∧ evaluate_match no_push #"if true; then git push; fi" = DAllow None None.
Proof. vm_compute. done. Qed.
