(* ===== verification/Trust.v ===== *)
(** * Trust: what a trust layer may do to a policy

    [crates/orkia-shell-types/src/trust.rs]: trust scopes and keys, the store of
    human unlocks, the review list of pending capabilities and [apply_trust].
    The scorer is not part of the repository; it is the class [TrustAdjuster],
    whose instance here is the one the repository ships, [NoopTrustAdjuster].
    Theorems about [apply_trust] hold for every adjuster. *)

From Stdlib Require Import NArith ZArith Lia.
From stdpp Require Import base gmap strings option numbers list list_basics.
From S2P Require Import Prelude Effects Fs Policy.

Abbreviation ProjectId := str (only parsing).

(** [resolve_project_id]: the nearest directory, from [cwd] upwards, that has a
    [.git] entry. Absolute paths; [has_git d] is [d.join(".git").exists()]. *)
Definition path_text (p : path) : str := [chr_slash] ++ join [chr_slash] p.

Fixpoint resolve_up (has_git : path → bool) (fuel : nat) (dir : path) : option ProjectId :=
  if has_git dir then Some (path_text dir)
  else match fuel with
       | 0 => None
       | S fuel' => resolve_up has_git fuel' (take (length dir - 1) dir)
       end.

(** A path has as many parents as components. *)
Definition resolve_project_id (has_git : path → bool) (cwd : path) : option ProjectId :=
  resolve_up has_git (length cwd) cwd.

Record TrustKey := mkTrustKey {
  tk_agent : str;
  tk_project : ProjectId;
  tk_capability : str;
}.

#[export] Instance TrustKey_eq_dec : EqDecision TrustKey.
Proof. solve_decision. Defined.

Record TrustScope := mkTrustScope {
  tsc_agent : str;
  tsc_project : option ProjectId;
}.

Definition trusted (s : TrustScope) : option (str * ProjectId) :=
  let agent := trim (tsc_agent s) in
  match is_empty agent, tsc_project s with
  | false, Some project => Some (agent, project)
  | _, _ => None
  end.

(** An entry of the two stores is a key. *)
Record UnlockStore := mkUnlockStore { unlocks : list TrustKey }.
Record PendingStore := mkPendingStore { pending : list TrustKey }.

Definition UnlockStore_empty : UnlockStore := mkUnlockStore [].
Definition PendingStore_empty : PendingStore := mkPendingStore [].

Class TrustAdjuster := {
  adjust : TrustKey → Sensitivity → AskOutcome;
  eligibility : Policy → TrustScope → UnlockStore → list TrustKey;
}.

Definition NoopTrustAdjuster : TrustAdjuster := {|
  adjust _ _ := OAsk;
  eligibility _ _ _ := [];
|}.

Definition unlock_has (s : UnlockStore) (key : TrustKey) : bool :=
  existsb (λ u, bool_decide (tk_agent u = tk_agent key)
                && bool_decide (tk_project u = tk_project key)
                && bool_decide (tk_capability u = tk_capability key)) (unlocks s).

Definition unlock_record (s : UnlockStore) (key : TrustKey) : UnlockStore :=
  if negb (unlock_has s key) then mkUnlockStore (unlocks s ++ [key]) else s.

Definition unlock_remove (s : UnlockStore) (key : TrustKey) : bool * UnlockStore :=
  let kept := filter (λ u, ¬ (tk_agent u = tk_agent key ∧ tk_project u = tk_project key
                              ∧ tk_capability u = tk_capability key)) (unlocks s) in
  (negb (length kept =? length (unlocks s)), mkUnlockStore kept).

Definition pending_has (s : PendingStore) (key : TrustKey) : bool :=
  existsb (λ e, bool_decide (tk_agent e = tk_agent key)
                && bool_decide (tk_project e = tk_project key)
                && bool_decide (tk_capability e = tk_capability key)) (pending s).

Definition update_scope (s : PendingStore) (agent : str) (project : ProjectId)
    (keys : list TrustKey) : bool * PendingStore :=
  let next := filter (λ e, ¬ (tk_agent e = agent ∧ tk_project e = project)) (pending s)
              ++ map (λ k, mkTrustKey (tk_agent k) (tk_project k) (tk_capability k)) keys in
  let changed := negb (bool_decide (next = pending s)) in
  (changed, if changed then mkPendingStore next else s).

Section files.
Context `{!Serde UnlockStore, !Serde PendingStore}.

(** Any fault in reading gives the empty store. *)
Definition unlock_load (p : path) : M Fs io_error UnlockStore := λ s,
  match read_to_string p s with
  | (Ok raw, s') => (Ok (default UnlockStore_empty (to_option (de raw))), s')
  | (Err _, s') => (Ok UnlockStore_empty, s')
  end.

Definition unlock_save (st : UnlockStore) (p : path) : M Fs io_error unit :=
  create_dir_all;;
  raw ← lift (map_err OtherIo (ser st));
  fs_write p raw.

Definition pending_load (p : path) : M Fs io_error PendingStore := λ s,
  match read_to_string p s with
  | (Ok raw, s') => (Ok (default PendingStore_empty (to_option (de raw))), s')
  | (Err _, s') => (Ok PendingStore_empty, s')
  end.

Definition pending_save (st : PendingStore) (p : path) : M Fs io_error unit :=
  create_dir_all;;
  raw ← lift (map_err OtherIo (ser st));
  fs_write p raw.

End files.

Section apply_trust.
Context `{!TrustAdjuster}.

Definition promotes (agent : str) (project : ProjectId) (us : UnlockStore) (cap : Capability)
    : bool :=
  let key := mkTrustKey agent project (cap_name cap) in
  match adjust key (cap_sensitivity cap) with
  | OAsk => false
  | OAuto => match cap_sensitivity cap with
             | Benign => true
             | Sensitive => unlock_has us key
             end
  end.

Definition adjust_cap (agent : str) (project : ProjectId) (us : UnlockStore) (cap : Capability)
    : Capability :=
  if negb (bool_decide (cap_verdict cap = Ask)) then cap
  else if promotes agent project us cap
  then mkCapability (cap_name cap) (cap_matches cap) Allow (cap_sensitivity cap)
  else cap.

Definition apply_trust (base : Policy) (scope : TrustScope) (us : UnlockStore) : Policy :=
  match trusted scope with
  | None => base
  | Some (agent, project) =>
      mkPolicy (default_verdict base) (caps base) (workspace base)
        (map (adjust_cap agent project us) (capabilities base))
  end.

(** ** Theorems *)

(** What may differ between a capability and its adjusted form. *)
Definition adjusted (scope : TrustScope) (us : UnlockStore) (c c' : Capability) : Prop :=
  c' = c
  ∨ ∃ agent project, trusted scope = Some (agent, project)
      ∧ cap_verdict c = Ask
      ∧ c' = mkCapability (cap_name c) (cap_matches c) Allow (cap_sensitivity c)
      ∧ (cap_sensitivity c = Sensitive →
         unlock_has us (mkTrustKey agent project (cap_name c)) = true).

Lemma apply_trust_caps base scope us :
  default_verdict (apply_trust base scope us) = default_verdict base
  ∧ Forall2 (adjusted scope us) (capabilities base) (capabilities (apply_trust base scope us)).
Proof.
  unfold apply_trust. destruct (trusted scope) as [[agent project]|] eqn:Et; simpl.
  - split; [done|]. induction (capabilities base) as [|c cs IH]; simpl; constructor; [|done].
    unfold adjust_cap, adjusted. case_bool_decide as Hv; simpl; [|by left].
    destruct (promotes agent project us c) eqn:Hp; [|by left].
    right. exists agent, project. split_and!; [done..|]. intros Hs.
    unfold promotes in Hp. rewrite Hs in Hp. by destruct (adjust _ _).
  - split; [done|]. induction (capabilities base); constructor; [by left|done].
Qed.

(** Trust only widens asks, within bounds, whatever the scorer answers: the adjusted
    policy keeps the default verdict, the class switches, the workspace and every
    rule; a capability's verdict changes only from ask to allow, only in a trusted
    scope, and for a sensitive capability only with a recorded human unlock. *)
Theorem apply_trust_bounded base scope us :
  let out := apply_trust base scope us in
  default_verdict out = default_verdict base ∧ caps out = caps base
  ∧ workspace out = workspace base
  ∧ Forall2 (adjusted scope us) (capabilities base) (capabilities out).
Proof.
  intros out. destruct (apply_trust_caps base scope us) as [Hd Hc].
  split_and!; [done| | |done]; unfold out, apply_trust; by destruct (trusted scope) as [[]|].
Qed.

(** How a decision under the base policy becomes one under the adjusted one. *)
Definition decision_adjusted (d d' : PolicyDecision) : Prop :=
  d' = d ∨ ∃ c r, d = DAsk (mkAdjustable c r) ∧ d' = DAllow c r.

Lemma adjusted_match scope us cs cs' dv cmd :
  Forall2 (adjusted scope us) cs cs' →
  decision_adjusted (match_caps cs dv cmd) (match_caps cs' dv cmd).
Proof.
  induction 1 as [|c c' cs cs' Hc _ IH]; simpl; [by left|].
  destruct Hc as [->|(agent & project & _ & Hv & -> & _)]; simpl.
  - destruct (find_rule (cap_matches c) cmd); [by left|done].
  - destruct (find_rule (cap_matches c) cmd); [|done]. right. rewrite Hv. simpl. eauto.
Qed.

Lemma Forall2_nil_iff {A B} (R : A → B → Prop) l k : Forall2 R l k → k = [] ↔ l = [].
Proof. by destruct 1. Qed.

(** The strictest decision is a deny exactly when a segment is denied, and then
    it is the first denied segment's. *)
Definition is_deny (d : PolicyDecision) : bool :=
  match d with DDeny _ _ => true | _ => false end.

Definition first_deny (ds : list PolicyDecision) : option PolicyDecision :=
  head (filter (λ d, is_deny d = true) ds).

Lemma combine_fold_deny ds d0 c r :
  foldl (λ o m, Some (combine o m)) (Some d0) ds = Some (DDeny c r)
  ↔ first_deny (d0 :: ds) = Some (DDeny c r).
Proof.
  unfold first_deny. revert d0. induction ds as [|m ds IH]; intros d0.
  - simpl. rewrite filter_cons, filter_nil. destruct d0; naive_solver.
  - cbn [foldl]. rewrite IH. rewrite !filter_cons.
    destruct d0, m; simpl; rewrite ?filter_cons; simpl; naive_solver.
Qed.

Lemma evaluate_deny p line c r :
  evaluate_match p line = DDeny c r ↔
  first_deny (segment_decisions p (split_segments line)) = Some (DDeny c r)
  ∨ segment_decisions p (split_segments line) = []
    ∧ decision_from (default_verdict p) None None = DDeny c r.
Proof.
  rewrite evaluate_decisions. destruct (segment_decisions p _) as [|d ds].
  - unfold first_deny. simpl. naive_solver.
  - rewrite <- combine_fold_deny. destruct (combine_fold ds d) as (d1 & -> & _). simpl. naive_solver.
Qed.

Lemma adjusted_first_deny ds ds' :
  Forall2 decision_adjusted ds ds' → first_deny ds' = first_deny ds.
Proof.
  unfold first_deny. induction 1 as [|d d' ds ds' Hd _ IH]; [done|].
  rewrite !filter_cons. destruct Hd as [->|(c & r & -> & ->)]; simpl; [|done].
  by destruct (is_deny d).
Qed.

Lemma apply_trust_decisions base scope us segs :
  Forall2 decision_adjusted (segment_decisions base segs)
    (segment_decisions (apply_trust base scope us) segs).
Proof.
  pose proof (apply_trust_caps base scope us) as (Hd & Hc).
  unfold segment_decisions. induction (filter _ _) as [|cmd cmds IH]; simpl; constructor; [|done].
  unfold match_one. rewrite Hd. by eapply adjusted_match.
Qed.

(** C2: The trust anchor, at the level of command lines: for every scorer, scope and set of
    unlocks, a line is denied by the adjusted policy exactly when the base policy
    denies it, by the same capability and rule; and no line is decided more
    restrictively than before. *)
Theorem apply_trust_keeps_denies base scope us line :
  (∀ c r, evaluate_match (apply_trust base scope us) line = DDeny c r
          ↔ evaluate_match base line = DDeny c r)
  ∧ tier (evaluate_match (apply_trust base scope us) line) ≤ tier (evaluate_match base line).
Proof.
  pose proof (apply_trust_decisions base scope us (split_segments line)) as Hf.
  destruct (apply_trust_caps base scope us) as (Hd & _). split.
  - intros c r. rewrite !evaluate_deny, (adjusted_first_deny _ _ Hf), Hd.
    by rewrite (Forall2_nil_iff _ _ _ Hf).
  - destruct (decide (segment_decisions (apply_trust base scope us) (split_segments line) = []))
      as [He|Hne].
    + rewrite !evaluate_decisions, He, Hd. rewrite (Forall2_nil_iff _ _ _ Hf) in He.
      by rewrite He.
    + pose proof (evaluate_match_in _ _ Hne) as Hin.
      apply list_elem_of_lookup in Hin as (i & Hi).
      destruct (Forall2_lookup_r _ _ _ _ _ Hf Hi) as (d & Hi' & Hda).
      pose proof (evaluate_match_max base line d (list_elem_of_lookup_2 _ _ _ Hi')).
      destruct Hda as [->|(c & r & -> & ->)]; simpl in *; lia.
Qed.

End apply_trust.

(** The shipped adjuster is inert: with it, every policy is left exactly as it is. *)
Lemma noop_adjuster_identity base scope us :
  @apply_trust NoopTrustAdjuster base scope us = base.
Proof.
  unfold apply_trust. destruct (trusted scope) as [[agent project]|]; [|done].
  assert (map (@adjust_cap NoopTrustAdjuster agent project us) (capabilities base)
          = capabilities base) as ->; [|by destruct base].
  induction (capabilities base) as [|c cs IH]; [done|]. simpl. rewrite IH. f_equal.
  unfold adjust_cap, promotes. simpl. by destruct (negb _).
Qed.

(** ** Unlocks *)

Lemma key_eqb u key :
  bool_decide (tk_agent u = tk_agent key) && bool_decide (tk_project u = tk_project key)
  && bool_decide (tk_capability u = tk_capability key) = bool_decide (u = key).
Proof.
  destruct u as [a1 p1 c1], key as [a2 p2 c2]. simpl.
  repeat case_bool_decide; simpl; naive_solver.
Qed.

Lemma unlock_has_elem s key : unlock_has s key = bool_decide (key ∈ unlocks s).
Proof.
  unfold unlock_has. induction (unlocks s) as [|u us IH]; simpl; [done|].
  rewrite IH, key_eqb. repeat case_bool_decide; simpl; set_solver.
Qed.

Lemma unlock_record_elem s key key' :
  key' ∈ unlocks (unlock_record s key) ↔ key' = key ∨ key' ∈ unlocks s.
Proof.
  unfold unlock_record. rewrite unlock_has_elem. case_bool_decide; simpl; set_solver.
Qed.

Lemma unlock_remove_elem s key key' :
  key' ∈ unlocks (unlock_remove s key).2 ↔ key' ≠ key ∧ key' ∈ unlocks s.
Proof.
  unfold unlock_remove. simpl. rewrite list_elem_of_filter. destruct key', key. naive_solver.
Qed.

Lemma unlock_remove_changed s key :
  (unlock_remove s key).1 = unlock_has s key.
Proof.
  rewrite unlock_has_elem. unfold unlock_remove. simpl.
  induction (unlocks s) as [|u us IH]; simpl; [done|].
  rewrite filter_cons.
  destruct (decide (¬ (tk_agent u = tk_agent key ∧ tk_project u = tk_project key
                       ∧ tk_capability u = tk_capability key))) as [Hu|Hu]; simpl.
  - assert (u ≠ key) by (intros ->; tauto).
    rewrite IH. repeat case_bool_decide; try done; set_solver.
  - rewrite (bool_decide_true (key ∈ u :: us)).
    + apply negb_true_iff, Nat.eqb_neq. pose proof (length_filter (λ u, ¬ (tk_agent u = tk_agent key
        ∧ tk_project u = tk_project key ∧ tk_capability u = tk_capability key)) us). lia.
    + apply dec_stable in Hu as (?&?&?). destruct u, key. simpl in *. subst.
      apply list_elem_of_here.
Qed.

(** One change of the unlock store by a human. *)
Inductive unlock_op := Unlock (key : TrustKey) | Lock (key : TrustKey).

#[export] Instance unlock_op_eq_dec : EqDecision unlock_op.
Proof. solve_decision. Defined.

Definition run_unlock (s : UnlockStore) (op : unlock_op) : UnlockStore :=
  match op with Unlock key => unlock_record s key | Lock key => (unlock_remove s key).2 end.

(** The unlock store is the set of triples a human last unlocked: after any sequence of
    unlocks and locks from the empty store, exactly the keys whose last operation was
    an unlock are present, each at most once. An unlock for one agent, project or
    capability never counts for another. *)
Theorem unlock_store_last_wins ops key :
  let s := foldl run_unlock UnlockStore_empty ops in
  (unlock_has s key = true
   ↔ last (filter (λ op, op = Unlock key ∨ op = Lock key) ops) = Some (Unlock key))
  ∧ NoDup (unlocks s).
Proof.
  intros s. rewrite unlock_has_elem, bool_decide_eq_true. subst s.
  induction ops as [|op ops [IH Hnd]] using rev_ind.
  { simpl. split; [set_solver|constructor]. }
  rewrite foldl_snoc, filter_app, filter_cons, filter_nil. split.
  - destruct op as [k|k]; cbn [run_unlock];
      rewrite ?unlock_record_elem, ?unlock_remove_elem, ?IH;
      (case_decide as Hk; [rewrite last_snoc|rewrite app_nil_r]);
      destruct (decide (key = k)) as [->|]; naive_solver.
  - destruct op as [k|k]; cbn [run_unlock].
    + unfold unlock_record. rewrite unlock_has_elem. case_bool_decide; simpl; [done|].
      apply list.NoDup_app. split_and!; [done|set_solver|apply NoDup_singleton].
    + by apply list.NoDup_filter.
Qed.

(** ** Scopes *)

Lemma resolve_up_step has_git fuel dir :
  resolve_up has_git fuel dir =
  if has_git dir then Some (path_text dir)
  else match fuel with
       | 0 => None
       | S fuel' => resolve_up has_git fuel' (take (length dir - 1) dir)
       end.
Proof. by destruct fuel. Qed.

(** The trust scope does not move with the working directory: from any directory below
    [cwd] on whose way there is no other repository root, the project id is that of
    [cwd]. *)
Theorem project_id_stable has_git cwd sub :
  (∀ k, k < length sub → has_git (cwd ++ take (S k) sub) = false) →
  resolve_project_id has_git (cwd ++ sub) = resolve_project_id has_git cwd.
Proof.
  unfold resolve_project_id. induction sub as [|x sub IH] using rev_ind; intros Hno.
  { by rewrite app_nil_r. }
  pose proof (Hno (length sub)) as Hx.
  rewrite take_ge, length_app in Hx by (rewrite length_app; simpl; lia).
  rewrite resolve_up_step, Hx, app_assoc, !length_app by (simpl; lia). simpl.
  replace (length cwd + length sub + 1) with (S (length cwd + length sub)) by lia.
  replace (S (length cwd + length sub) - 1) with (length (cwd ++ sub)) by (rewrite length_app; lia).
  rewrite take_app_length, <- length_app. apply IH.
  intros k Hk. specialize (Hno k). rewrite length_app, take_app_le in Hno by lia.
  apply Hno. simpl. lia.
Qed.

Lemma project_id_stable_witness :
  resolve_project_id (λ d, bool_decide (d = [ #"repo"])) [ #"repo"; #"src"; #"lib"]
  = Some #"/repo".
Proof.
  refine (eq_trans (project_id_stable (λ d, bool_decide (d = [ #"repo"])) [ #"repo"]
    [ #"src"; #"lib"] _) _); [|reflexivity].
  intros [|k] Hk; reflexivity.
Defined.

(** Each spawn rewrites the pending entries of its own scope only. *)
Lemma update_scope_entries s agent project keys e :
  e ∈ pending (update_scope s agent project keys).2 ↔
  (e ∈ pending s ∧ ¬ (tk_agent e = agent ∧ tk_project e = project)) ∨ e ∈ keys.
Proof.
  assert (∀ l : list TrustKey, map (λ k, mkTrustKey (tk_agent k) (tk_project k) (tk_capability k)) l = l)
    as Hid by (induction l as [|[] ? IH]; simpl; congruence).
  unfold update_scope. rewrite Hid. simpl.
  case_bool_decide as Hb; simpl.
  - rewrite <- Hb at 1. rewrite elem_of_app, list_elem_of_filter. tauto.
  - rewrite elem_of_app, list_elem_of_filter. tauto.
Qed.
