(* ===== verification/CageShell.v ===== *)
(** * CageShell: the mediating shell

    [bins/orkia-sh/src/{decide,core,verdict,main,hook}.rs]: recovery of the
    command from the agent's envelope, the decision, its audit record, and the
    two entry points (the shell shim and the tool hook). A run is a state
    transformer on a [World]: the effects so far, in order, and the outcomes of
    the journal socket still to come. Environment variables, the loaded policy,
    the result of starting the real shell and the supervised child's signals
    are fields of [Env]. *)

From Stdlib Require Import NArith ZArith Lia.
From stdpp Require Import base gmap strings option numbers list list_basics.
From S2P Require Import Prelude Effects Json Journal Policy.

(** ** Recovering the command ([decide.rs]) *)

Inductive Extracted := Command (s : str) | Unparseable.

Definition EVAL_MARKER : str := #"eval '".
Arguments EVAL_MARKER : simpl never.

(** The bash escape of a single quote inside single quotes. *)
Definition QUOTE_ESCAPE : str := [chr_squote; chr_backslash; chr_squote; chr_squote].

Fixpoint unwrap_go (out rest : str) : option str :=
  match rest with
  | [] => None
  | c :: rest' =>
      if (c =? chr_squote)%N then
        match rest' with
        | a :: b :: d :: rest'' =>
            if (a =? chr_backslash)%N && (b =? chr_squote)%N && (d =? chr_squote)%N
            then unwrap_go (out ++ [chr_squote]) rest''
            else Some out
        | _ => Some out
        end
      else unwrap_go (out ++ [c]) rest'
  end.

Definition unwrap_eval (raw : str) : option str :=
  start ← find_sub EVAL_MARKER raw;
  unwrap_go [] (drop (start + length EVAL_MARKER) raw).

Definition extract_command (raw : str) : Extracted :=
  if contains EVAL_MARKER raw then
    match unwrap_eval raw with
    | Some inner => Command inner
    | None => Unparseable
    end
  else Command (trim raw).

(** ** Deciding ([core.rs]) *)

Inductive Decision :=
| CAllow (command : str) (capability rule : option str)
| CDeny (command : str) (capability rule : option str) (forced_reason : option str)
| CAsk (command : str) (capability rule : option str).

Definition forced_deny (command reason : str) : Decision := CDeny command None None (Some reason).

Definition evaluate (command : str) (policy : Policy) : Decision :=
  if negb (cc_exec (caps policy))
  then CDeny command None None (Some #"exec class disabled")
  else
    match evaluate_match policy command with
    | DAllow c r => CAllow command c r
    | DDeny c r => CDeny command c r None
    | DAsk a => CAsk command (adj_capability a) (adj_rule a)
    end.

(** [load_policy] is the environment's: unset variable, read or parse error. *)
Definition decide_command (policy : result str Policy) (raw_command : str) : Decision :=
  match extract_command raw_command with
  | Unparseable => forced_deny raw_command #"unparseable agent envelope"
  | Command command =>
      match policy with
      | Ok policy => evaluate command policy
      | Err _ => forced_deny command #"policy unavailable"
      end
  end.

(** ** The world *)

Inductive eff :=
| Sent (e : JournalEnvelope)
| Exec (shell : str) (args : list str) (cleared : bool)
| Signal (signo : Z)
| Stderr (s : str)
| Stdout (j : json).

Record World := mkWorld {
  w_trace : list eff;
  w_sends : list (result str unit);
}.

Definition perform (e : eff) (w : World) : World := mkWorld (w_trace w ++ [e]) (w_sends w).

(** What the supervising parent receives. *)
Inductive sup_event :=
| ChildExited (code : Z)
| ChildSignaled (signo : Z)
| ChildOther
| Forwarded (signo : Z).

Record Env := mkEnv {
  env_linux : bool;
  env_now : str;
  env_policy : result str Policy;
  env_policy_set : bool;
  env_cleared : bool;
  env_real_shell : option str;
  env_job_id : option str;
  env_agent : option str;
  env_project : option str;
  env_spawn : result str (list sup_event);
}.

(** How a run ends: replaced by the real shell, an exit code, or an error
    returned from [main] (exit code 1). *)
Inductive ending := Replaced | Exited (code : Z) | Failed (msg : str).

Section run.
Context (env : Env).

(** ** Audit records ([verdict.rs]) *)

Definition verdict_str (v : Verdict) : str :=
  match v with Allow => #"allow" | Ask => #"ask" | Deny => #"deny" end.

Definition build_envelope (command : str) (v : Verdict) (capability rule : option str)
    : JournalEnvelope :=
  extra_insert #"rule" (json_opt_str rule)
    (extra_insert #"capability" (json_opt_str capability)
       (extra_insert #"verdict" (JStr (verdict_str v))
          (extra_insert #"command" (JStr command)
             (set_je_source (Some #"generic")
                (set_je_event (Some #"cage.verdict") (envelope_now ETHook (env_now env))))))).

Definition build_outcome_envelope (capability : option str) (success : bool)
    (exit_code : option Z) : JournalEnvelope :=
  let e := extra_insert #"success" (JBool success)
             (extra_insert #"capability" (json_opt_str capability)
                (set_je_source (Some #"generic")
                   (set_je_event (Some #"command.outcome") (envelope_now ETHook (env_now env))))) in
  match exit_code with Some c => extra_insert #"exit_code" (JInt c) e | None => e end.

Definition stamp_routing (e : JournalEnvelope) : JournalEnvelope :=
  let e := set_je_agent (env_agent env) (set_je_job_id (env_job_id env ≫= parse_u32) e) in
  match env_project env with
  | Some project => extra_insert #"project" (JStr project) e
  | None => e
  end.

(** [send]: serialization, connection, timeout and write fail alike. *)
Definition send (e : JournalEnvelope) (w : World) : result str unit * World :=
  match w_sends w with
  | Err m :: rest => (Err m, mkWorld (w_trace w) rest)
  | Ok _ :: rest => (Ok (), mkWorld (w_trace w ++ [Sent e]) rest)
  | [] => (Ok (), perform (Sent e) w)
  end.

Definition emit_verdict (command : str) (v : Verdict) (capability rule : option str) (w : World)
    : result str unit * World :=
  send (stamp_routing (build_envelope command v capability rule)) w.

Definition emit_best_effort (command : str) (v : Verdict) (capability rule : option str)
    (w : World) : World :=
  (emit_verdict command v capability rule w).2.

Definition emit_outcome (capability : option str) (success : bool) (exit_code : option Z)
    (w : World) : World :=
  (send (stamp_routing (build_outcome_envelope capability success exit_code)) w).2.

(** ** The shell shim ([main.rs]) *)

Definition DEFAULT_REAL_SHELL : str := #"/bin/bash".

Definition real_shell : str := default DEFAULT_REAL_SHELL (env_real_shell env).

(** [exec] returns only on failure. *)
Definition exec_real_shell (args : list str) (set_cleared : bool) (w : World) : ending * World :=
  match env_spawn env with
  | Ok _ => (Replaced, perform (Exec real_shell args set_cleared) w)
  | Err e => (Failed (#"failed to exec real shell `" ++ real_shell ++ #"`: " ++ e), w)
  end.

(** The loop of [supervise] over the signals the parent receives; [None] while
    the child is still running when they end. *)
Fixpoint supervise (events : list sup_event) (w : World) : option Z * World :=
  match events with
  | [] => (None, w)
  | ChildExited code :: _ => (Some code, w)
  | ChildSignaled s :: _ => (Some (128 + s)%Z, w)
  | ChildOther :: events' => supervise events' w
  | Forwarded s :: events' => supervise events' (perform (Signal s) w)
  end.

Definition run_supervised (args : list str) (capability : option str) (w : World)
    : option ending * World :=
  match env_spawn env with
  | Err e => (Some (Failed (#"failed to spawn real shell `" ++ real_shell ++ #"`: " ++ e)), w)
  | Ok events =>
      match supervise events (perform (Exec real_shell args true) w) with
      | (None, w') => (None, w')
      | (Some code, w') =>
          (Some (Exited code), emit_outcome capability (code =? 0)%Z (Some code) w')
      end
  end.

Definition deny_text (capability forced : option str) : str :=
  match capability, forced with
  | Some cap, _ => #"DENIED by orkia-cage (capability: " ++ cap ++ #")"
  | None, Some reason => #"DENIED by orkia-cage (" ++ reason ++ #")"
  | None, None => #"DENIED by orkia-cage (no matching allow)"
  end.

Definition deny (command : str) (capability forced : option str) (w : World) : ending * World :=
  (Exited 126, perform (Stderr (deny_text capability forced ++ #": " ++ command)) w).

(** [None]: the supervised child has not ended yet. *)
Definition mediate (args : list str) (raw_command : str) (w : World) : option ending * World :=
  match decide_command (env_policy env) raw_command with
  | CAllow command capability rule =>
      match emit_verdict command Allow capability rule w with
      | (Err e, w') =>
          (Some (Failed (#"refusing to run: cage.verdict audit write failed (fail-closed): " ++ e)), w')
      | (Ok _, w') =>
          if env_linux env then run_supervised args capability w'
          else let '(e, w2) := exec_real_shell args true w' in (Some e, w2)
      end
  | CDeny command capability rule forced =>
      let w := emit_best_effort command Deny capability rule w in
      let '(e, w2) := deny command capability forced w in (Some e, w2)
  | CAsk command capability rule =>
      let w := emit_best_effort command Ask capability rule w in
      let '(e, w2) := deny command capability None w in (Some e, w2)
  end.

Definition is_option_token (arg : str) : bool :=
  starts_with [chr_minus] arg && (1 <? byte_len arg)%N.

(** The bytes of the flags are all ASCII lowercase letters. *)
Definition is_command_flag (arg : str) : bool :=
  match strip_prefix [chr_minus] arg with
  | None => false
  | Some flags =>
      negb (is_empty flags) && negb (starts_with [chr_minus] flags) && ends_with #"c" flags
      && forallb (λ b, (97 <=? b)%N && (b <=? 122)%N) flags
  end.

Fixpoint after_flag (args : list str) : option (list str) :=
  match args with
  | [] => None
  | a :: args' => if is_command_flag a then Some args' else after_flag args'
  end.

Definition dash_c_command (args : list str) : option str :=
  rest ← after_flag args;
  head (filter (λ a, is_option_token a = false) rest).

(** ** The tool hook ([hook.rs]) *)

Definition MEDIATED_TOOLS : list str := [ #"Bash"].

Definition emit_decision (decision reason : str) (w : World) : World :=
  perform (Stdout (json_obj [(#"hookSpecificOutput",
    json_obj [(#"hookEventName", JStr #"PreToolUse"); (#"permissionDecision", JStr decision);
              (#"permissionDecisionReason", JStr reason)])])) w.

Definition act (d : Decision) (w : World) : World :=
  match d with
  | CAllow command capability rule =>
      match emit_verdict command Allow capability rule w with
      | (Ok _, w') => w'
      | (Err e, w') => emit_decision #"deny" (#"audit write failed (fail-closed): " ++ e) w'
      end
  | CDeny command capability rule forced =>
      emit_decision #"deny" (deny_text capability forced)
        (emit_best_effort command Deny capability rule w)
  | CAsk command capability rule =>
      emit_decision #"deny" (deny_text capability None)
        (emit_best_effort command Ask capability rule w)
  end.

Definition capability_of (d : Decision) : option str :=
  match d with CAllow _ c _ | CDeny _ c _ _ | CAsk _ c _ => c end.

Definition flag_set (k : str) (r : json) : bool := default false (jget k r ≫= as_bool).

Definition outcome_signal (resp : option json) : bool * option Z :=
  match resp with
  | None => (true, None)
  | Some r =>
      match jget #"exit_code" r ≫= as_i64 with
      | Some code => ((code =? 0)%Z, Some code)
      | None =>
          (negb (flag_set #"interrupted" r || flag_set #"is_error" r || flag_set #"isError" r),
           None)
      end
  end.

Definition record_outcome (command : str) (parsed : json) (w : World) : World :=
  let capability := capability_of (decide_command (env_policy env) command) in
  let '(success, exit_code) := outcome_signal (jget #"tool_response" parsed) in
  emit_outcome capability success exit_code w.

(** [input] is the parsed text of standard input, [None] when it is not JSON. *)
Definition hook_run (input : option json) (w : World) : World :=
  let parsed := default JNull input in
  let tool := default [] (jget #"tool_name" parsed ≫= as_str) in
  if negb (bool_decide (tool ∈ MEDIATED_TOOLS)) then w
  else
    match (jget #"tool_input" parsed ≫= jget #"command") ≫= as_str with
    | None => perform (Stderr #"orkia-cage: hook could not read the Bash command; deferring") w
    | Some command =>
        if negb (env_policy_set env) then w
        else if bool_decide (jget #"hook_event_name" parsed ≫= as_str = Some #"PostToolUse")
        then record_outcome command parsed w
        else act (decide_command (env_policy env) command) w
    end.

Definition main (args : list str) (stdin : option json) (w : World) : option ending * World :=
  if bool_decide (head args = Some #"hook") then (Some (Exited 0), hook_run stdin w)
  else
    match dash_c_command args with
    | None => let '(e, w') := exec_real_shell args false w in (Some e, w')
    | Some command =>
        if env_cleared env
        then let '(e, w') := exec_real_shell args false w in (Some e, w')
        else mediate args command w
    end.

End run.

(** ** The envelope *)

(** The text bash reads as a single-quoted [c]. *)
Definition escape_quotes (c : str) : str :=
  c ≫= λ x, if (x =? chr_squote)%N then QUOTE_ESCAPE else [x].

Lemma unwrap_go_escape c out post :
  starts_with [chr_backslash; chr_squote; chr_squote] post = false →
  unwrap_go out (escape_quotes c ++ chr_squote :: post) = Some (out ++ c).
Proof.
  intros Hp. revert out. induction c as [|x c IH]; intros out; simpl.
  - rewrite app_nil_r. destruct post as [|a [|b [|d post]]]; try done.
    unfold starts_with in Hp. simpl in Hp.
    destruct (N.eqb_spec a chr_backslash) as [->|], (N.eqb_spec b chr_squote) as [->|],
      (N.eqb_spec d chr_squote) as [->|]; done.
  - destruct (N.eqb_spec x chr_squote) as [->|Hx].
    + change (unwrap_go (out ++ [chr_squote]) (escape_quotes c ++ chr_squote :: post) =
              Some (out ++ chr_squote :: c)).
      rewrite IH. by rewrite <- app_assoc.
    + simpl. destruct (N.eqb_spec x chr_squote) as [|_]; [done|].
      rewrite IH. by rewrite <- app_assoc.
Qed.

Lemma contains_find p s i : find_sub p s = Some i → contains p s = true.
Proof. unfold contains. by intros ->. Qed.

(** The command in the first envelope is recovered exactly, and nothing else of
    the text matters. *)
Lemma extract_envelope pre c post :
  find_sub EVAL_MARKER pre = None →
  starts_with [chr_backslash; chr_squote; chr_squote] post = false →
  extract_command (pre ++ EVAL_MARKER ++ escape_quotes c ++ chr_squote :: post) = Command c.
Proof.
  intros Hpre Hpost.
  assert (find_sub EVAL_MARKER (pre ++ EVAL_MARKER ++ escape_quotes c ++ chr_squote :: post)
          = Some (length pre)) as Hf.
  { apply (find_sub_app 101%N #"val '"); [|done].
    apply (bool_decide_unpack (101%N ∉ #"val '")). vm_compute. exact I. }
  unfold extract_command, unwrap_eval. rewrite (contains_find _ _ _ Hf), Hf.
  cbn [mbind option_bind].
  replace (length pre + length EVAL_MARKER) with (length (pre ++ EVAL_MARKER))
    by by rewrite length_app.
  rewrite app_assoc, drop_app_length, unwrap_go_escape by done. done.
Qed.

(** The envelope round trip: whatever command an agent quotes into an eval envelope,
    with any text before and after it, the shim evaluates exactly that command; an
    envelope that is never closed is refused. The text around the envelope takes no
    part in the decision, although all of it is run. *)
Theorem eval_envelope_roundtrip policy pre c post :
  find_sub EVAL_MARKER pre = None →
  starts_with [chr_backslash; chr_squote; chr_squote] post = false →
  decide_command (Ok policy) (pre ++ EVAL_MARKER ++ escape_quotes c ++ chr_squote :: post)
    = evaluate c policy
  ∧ extract_command (pre ++ EVAL_MARKER ++ escape_quotes c) = Unparseable.
Proof.
  intros Hpre Hpost. split.
  - unfold decide_command. by rewrite extract_envelope.
  - assert (find_sub EVAL_MARKER (pre ++ EVAL_MARKER ++ escape_quotes c) = Some (length pre)) as Hf.
    { apply (find_sub_app 101%N #"val '"); [|done].
      apply (bool_decide_unpack (101%N ∉ #"val '")). vm_compute. exact I. }
    unfold extract_command, unwrap_eval. rewrite (contains_find _ _ _ Hf), Hf.
  cbn [mbind option_bind].
    replace (length pre + length EVAL_MARKER) with (length (pre ++ EVAL_MARKER))
      by by rewrite length_app.
    rewrite app_assoc, drop_app_length.
    assert (∀ out, unwrap_go out (escape_quotes c) = None) as Hu.
    { clear. induction c as [|x c IH]; intros out; [done|]. simpl.
      destruct (x =? chr_squote)%N eqn:E; simpl; [apply IH|]. by rewrite E. }
    by rewrite Hu.
Qed.

Lemma eval_envelope_roundtrip_witness :
  decide_command (Ok no_push) #"source x && eval 'echo it'\''s' < /dev/null && git push"
  = evaluate #"echo it's" no_push.
Proof.
  refine (proj1 (eval_envelope_roundtrip no_push #"source x && " #"echo it's"
    #" < /dev/null && git push" _ _)); reflexivity.
Defined.

(** ** Fail-closed mediation *)

Lemma decide_Allow policy raw command c r :
  decide_command policy raw = CAllow command c r →
  ∃ p, policy = Ok p ∧ extract_command raw = Command command ∧ cc_exec (caps p) = true
       ∧ evaluate_match p command = DAllow c r.
Proof.
  unfold decide_command, evaluate, forced_deny.
  destruct (extract_command raw) as [cmd|]; [|done]. destruct policy as [p|]; [|done].
  destruct (cc_exec (caps p)) eqn:Ex; [|done]. simpl.
  destruct (evaluate_match p cmd) eqn:Em; [|done|done]. intros [= -> -> ->]. eauto.
Qed.

(** Effects that start no program. *)
Definition no_exec (evs : list eff) : Prop := ∀ sh a cl, Exec sh a cl ∉ evs.

Lemma send_trace e w : ∃ evs, w_trace (send e w).2 = w_trace w ++ evs ∧ no_exec evs
  ∧ ((send e w).1 = Ok () → evs = [Sent e]).
Proof.
  unfold send. destruct (w_sends w) as [|[u|m] rest]; simpl.
  - exists [Sent e]. split; [done|]. split; [|done]. intros ??? H. set_solver.
  - exists [Sent e]. split; [done|]. split; [|done]. intros ??? H. set_solver.
  - exists []. rewrite app_nil_r. split; [done|]. split; [|done]. intros ??? H. set_solver.
Qed.

Lemma supervise_trace events w :
  ∃ evs, w_trace (supervise events w).2 = w_trace w ++ evs ∧ no_exec evs.
Proof.
  revert w. induction events as [|ev events IH]; intros w.
  - exists []. rewrite app_nil_r. split; [done|]. intros ???. apply not_elem_of_nil.
  - destruct ev; simpl; try (exists []; rewrite app_nil_r; split; [done|]; intros ???; apply not_elem_of_nil).
    + apply IH.
    + destruct (IH (perform (Signal signo) w)) as (evs & -> & Hn).
      exists (Signal signo :: evs). simpl. rewrite <- app_assoc. split; [done|].
      intros sh a cl [?|?]%elem_of_cons; [done|by apply (Hn sh a cl)].
Qed.

(** After the audit record, an allowed command starts once. *)
Lemma run_supervised_trace env args capability w :
  ∃ evs, w_trace (run_supervised env args capability w).2 = w_trace w ++ evs
    ∧ ((evs = []) ∨ ∃ evs', evs = Exec (real_shell env) args true :: evs' ∧ no_exec evs').
Proof.
  unfold run_supervised. destruct (env_spawn env) as [events|e].
  2: { exists []. rewrite app_nil_r. auto. }
  destruct (supervise_trace events (perform (Exec (real_shell env) args true) w)) as (e1 & H1 & Hn1).
  destruct (supervise events _) as [[code|] w']; simpl in *.
  - unfold emit_outcome.
    destruct (send_trace (stamp_routing env (build_outcome_envelope env capability (code =? 0)%Z
      (Some code))) w') as (e2 & H2 & Hn2 & _).
    exists (Exec (real_shell env) args true :: e1 ++ e2). rewrite H2, H1.
    rewrite <- !app_assoc. split; [done|]. right. exists (e1 ++ e2). split; [done|].
    intros sh a cl [?|?]%elem_of_app; [by eapply Hn1|by eapply Hn2].
  - exists (Exec (real_shell env) args true :: e1). rewrite H1, <- app_assoc. eauto.
Qed.

(** The audit record of an allow. *)
Definition allow_record (env : Env) (command : str) (c r : option str) : eff :=
  Sent (stamp_routing env (build_envelope env command Allow c r)).

(** The policy of [env] allows the command that [raw] carries. *)
Definition policy_allows (env : Env) (raw command : str) (c r : option str) : Prop :=
  ∃ p, env_policy env = Ok p ∧ extract_command raw = Command command
       ∧ cc_exec (caps p) = true ∧ evaluate_match p command = DAllow c r.

Lemma no_exec_app e1 e2 : no_exec e1 → no_exec e2 → no_exec (e1 ++ e2).
Proof. intros H1 H2 sh a cl [?|?]%elem_of_app; [by eapply H1|by eapply H2]. Qed.

(** A refusal: at most a record, then the message, exit code 126. *)
Lemma deny_trace env command v c r forced w :
  ∃ evs, w_trace (deny command c forced (emit_best_effort env command v c r w)).2
         = w_trace w ++ evs ∧ no_exec evs.
Proof.
  unfold emit_best_effort, emit_verdict.
  destruct (send_trace (stamp_routing env (build_envelope env command v c r)) w) as (e1 & H1 & Hn & _).
  eexists (e1 ++ [_]). simpl. rewrite H1, <- app_assoc. split; [done|].
  apply no_exec_app; [done|]. intros ??? H. set_solver.
Qed.

Lemma mediate_trace env args raw w :
  ∃ evs, w_trace (mediate env args raw w).2 = w_trace w ++ evs
    ∧ (no_exec evs
       ∨ ∃ command c r evs', policy_allows env raw command c r
           ∧ evs = allow_record env command c r :: Exec (real_shell env) args true :: evs'
           ∧ no_exec evs').
Proof.
  unfold mediate. destruct (decide_command (env_policy env) raw) as [cmd c r|cmd c r forced|cmd c r]
    eqn:Hd.
  - destruct (decide_Allow _ _ _ _ _ Hd) as (p & Hp & Hx & He & Hm). unfold emit_verdict.
    destruct (send_trace (stamp_routing env (build_envelope env cmd Allow c r)) w) as (e1 & H1 & Hn1 & Hs).
    destruct (send _ w) as [[[]|e] w1]; simpl in *; [|by eauto].
    rewrite (Hs eq_refl) in H1. destruct (env_linux env).
    + destruct (run_supervised_trace env args c w1) as (e2 & H2 & Hc).
      eexists. rewrite H2, H1, <- app_assoc. split; [done|].
      destruct Hc as [->|(e3 & -> & Hn3)].
      * left. intros ??? H. set_solver.
      * right. exists cmd, c, r, e3. split; [|done]. by exists p.
    + unfold exec_real_shell. destruct (env_spawn env); simpl.
      * eexists. rewrite H1, <- app_assoc. split; [done|]. right.
        exists cmd, c, r, []. split; [by exists p|]. split; [done|]. intros ???. apply not_elem_of_nil.
      * eexists. split; [done|]. left. intros ??? H. set_solver.
  - destruct (deny_trace env cmd Deny c r forced w) as (evs & H1 & Hn). simpl in *. eauto.
  - destruct (deny_trace env cmd Ask c r None w) as (evs & H1 & Hn). simpl in *. eauto.
Qed.

(** C1: Nothing runs unaudited or unallowed: when the shim is called with a command string
    and has not been cleared by an earlier allow, a program is started only if the
    policy was loaded, its exec class is open and its decision on the recovered command
    is allow; then the audit record of that allow has been sent first, the program is
    the real shell with the original arguments, marked as cleared, and it is started
    once. Every failure of the policy, the envelope or the audit starts nothing. *)
Theorem exec_only_after_audited_allow env args stdin w raw :
  head args ≠ Some #"hook" → dash_c_command args = Some raw → env_cleared env = false →
  ∃ evs, w_trace (main env args stdin w).2 = w_trace w ++ evs
    ∧ (no_exec evs
       ∨ ∃ command c r evs', policy_allows env raw command c r
           ∧ evs = allow_record env command c r :: Exec (real_shell env) args true :: evs'
           ∧ no_exec evs').
Proof.
  intros Hh Hd Hc. unfold main. rewrite bool_decide_false by done. rewrite Hd, Hc.
  apply mediate_trace.
Qed.

Definition sample_env : Env :=
  mkEnv true #"now" (Ok no_push) true false None (Some #"7") (Some #"claude") None
    (Ok [Forwarded 2; ChildExited 0]).

Lemma exec_only_after_audited_allow_witness :
  ∃ evs, w_trace (main sample_env [ #"-lc"; #"git status"] None (mkWorld [] [])).2 = [] ++ evs
    ∧ (no_exec evs
       ∨ ∃ command c r evs', policy_allows sample_env #"git status" command c r
           ∧ evs = allow_record sample_env command c r
                   :: Exec (real_shell sample_env) [ #"-lc"; #"git status"] true :: evs'
           ∧ no_exec evs').
Proof.
  apply (exec_only_after_audited_allow sample_env [ #"-lc"; #"git status"] None (mkWorld [] [])
    #"git status"); [discriminate|reflexivity|reflexivity].
Defined.

(** The hook's answer that refuses a tool call. *)
Definition deny_answer (reason : str) : eff :=
  Stdout (json_obj [(#"hookSpecificOutput",
    json_obj [(#"hookEventName", JStr #"PreToolUse"); (#"permissionDecision", JStr #"deny");
              (#"permissionDecisionReason", JStr reason)])]).

Lemma act_trace env raw w :
  (∃ command c r, policy_allows env raw command c r
     ∧ w_trace (act env (decide_command (env_policy env) raw) w)
       = w_trace w ++ [allow_record env command c r])
  ∨ ∃ evs reason, w_trace (act env (decide_command (env_policy env) raw) w)
                  = w_trace w ++ evs ++ [deny_answer reason].
Proof.
  destruct (decide_command (env_policy env) raw) as [cmd c r|cmd c r forced|cmd c r] eqn:Hd; simpl;
    unfold emit_best_effort, emit_verdict.
  - destruct (decide_Allow _ _ _ _ _ Hd) as (p & Hp & Hx & He & Hm).
    destruct (send_trace (stamp_routing env (build_envelope env cmd Allow c r)) w) as (e1 & H1 & _ & Hs).
    destruct (send _ w) as [[[]|e] w1]; simpl in *.
    + left. exists cmd, c, r. split; [by exists p|]. by rewrite H1, (Hs eq_refl).
    + right. rewrite H1. eexists e1, _. by rewrite <- app_assoc.
  - destruct (send_trace (stamp_routing env (build_envelope env cmd Deny c r)) w) as (e1 & H1 & _).
    right. rewrite H1. eexists e1, _. by rewrite <- app_assoc.
  - destruct (send_trace (stamp_routing env (build_envelope env cmd Ask c r)) w) as (e1 & H1 & _).
    right. rewrite H1. eexists e1, _. by rewrite <- app_assoc.
Qed.

(** The tool hook is fail-closed inside the cage: for a shell tool call before its use,
    either the policy allows the command, the allow has been recorded and nothing is
    printed, so that the call proceeds; or the last thing printed is a deny answer. *)
Theorem hook_defers_only_audited_allow env parsed command_line w :
  jget #"tool_name" parsed = Some (JStr #"Bash") →
  jget #"tool_input" parsed ≫= jget #"command" = Some (JStr command_line) →
  jget #"hook_event_name" parsed = Some (JStr #"PreToolUse") →
  env_policy_set env = true →
  (∃ command c r, policy_allows env command_line command c r
     ∧ w_trace (hook_run env (Some parsed) w) = w_trace w ++ [allow_record env command c r])
  ∨ ∃ evs reason, w_trace (hook_run env (Some parsed) w) = w_trace w ++ evs ++ [deny_answer reason].
Proof.
  intros Ht Hc He Hset. unfold hook_run. cbn [default from_option id].
  rewrite Ht, Hc, He, Hset. cbn [mbind option_bind as_str negb default from_option id].
  rewrite bool_decide_true by apply list_elem_of_here. cbn [negb].
  rewrite bool_decide_false by discriminate. apply act_trace.
Qed.

Definition sample_call : json :=
  json_obj [(#"tool_name", JStr #"Bash"); (#"hook_event_name", JStr #"PreToolUse");
            (#"tool_input", json_obj [(#"command", JStr #"git push")])].

Lemma hook_defers_only_audited_allow_witness :
  (∃ command c r, policy_allows sample_env #"git push" command c r
     ∧ w_trace (hook_run sample_env (Some sample_call) (mkWorld [] []))
       = [] ++ [allow_record sample_env command c r])
  ∨ ∃ evs reason, w_trace (hook_run sample_env (Some sample_call) (mkWorld [] []))
                  = [] ++ evs ++ [deny_answer reason].
Proof.
  apply (hook_defers_only_audited_allow sample_env sample_call #"git push" (mkWorld [] []));
    reflexivity.
Defined.

Lemma dash_c_other_flag f cmd : is_command_flag f = false → dash_c_command [f; cmd] = None.
Proof.
  intros Hf. unfold dash_c_command. cbn [after_flag]. rewrite Hf. by destruct (is_command_flag cmd).
Qed.

(** Where the recognition of command strings ends: a cluster with the command flag not
    last, or with an upper-case flag, is not seen as a command string, so the real
    shell runs it unmediated and without a record, whatever the policy; and an option
    that takes an argument makes the shim evaluate that argument instead of the
    command that is run. *)
Theorem command_flag_gaps env cmd stdin w events :
  env_spawn env = Ok events →
  main env [ #"-cl"; cmd] stdin w
    = (Some Replaced, perform (Exec (real_shell env) [ #"-cl"; cmd] false) w)
  ∧ main env [ #"-Ec"; cmd] stdin w
    = (Some Replaced, perform (Exec (real_shell env) [ #"-Ec"; cmd] false) w)
  ∧ dash_c_command [ #"-c"; #"-o"; #"pipefail"; cmd] = Some #"pipefail".
Proof.
  intros Hs. unfold main.
  rewrite !bool_decide_false, !dash_c_other_flag by (discriminate || reflexivity).
  unfold exec_real_shell. rewrite Hs. split; [done|]. split; [done|]. reflexivity.
Qed.

Lemma command_flag_gaps_witness :
  main sample_env [ #"-cl"; #"git push"] None (mkWorld [] [])
  = (Some Replaced, mkWorld [Exec #"/bin/bash" [ #"-cl"; #"git push"] false] []).
Proof.
  exact (proj1 (command_flag_gaps sample_env #"git push" None (mkWorld [] [])
    [Forwarded 2; ChildExited 0] eq_refl)).
Defined.
