(* ===== verification/Seal.v ===== *)
(** * Seal: the hash-linked audit chains

    [crates/orkia-shell-types/src/seal.rs], and of [crates/orkia-shell/src/seal/]
    [chain.rs] (one chain and its file), [manager.rs] (the chains of jobs,
    projects and the workspace) and [pending.rs] (parked results and journal
    lines of scheduled runs). A chain is its in-memory mirror; operations run
    on the pair of the mirror (or the manager) and the file system of [Fs].
    Timestamps are arguments. SHA-256, the compact text of a JSON value and the
    serializers of records are class members; [Sha256Laws] is the fixed length
    of a hex digest. *)

From Stdlib Require Import NArith ZArith Lia.
From stdpp Require Import base gmap strings option numbers list list_basics.
From S2P Require Import Prelude Effects Json Fs RfcCore.

(** ** Records *)

Record SealRecord := mkSealRecord {
  sr_seq : N;
  sr_timestamp : str;
  sr_event_type : str;
  sr_detail : json;
  sr_hash : str;
  sr_prev_hash : str;
  sr_rfc_id : option RfcId;
}.

#[export] Instance SealRecord_eq_dec : EqDecision SealRecord.
Proof. solve_decision. Defined.

Inductive SealError :=
| SealIo (e : io_error)
| SealClosed
| SealSerialize (msg : str)
| SealInternal (msg : str).

Class Sha256Laws `{!Sha256} : Prop := sha256_length s : length (sha256_hex s) = 64.

Definition ZERO_HASH : str := replicate 64 48%N.

Definition is_terminal_event (event_type : str) : bool :=
  bool_decide (event_type ∈ [ #"agent.complete"; #"agent.failed"]).

(** The bytes that are hashed. *)
Definition hash_input `{!JsonText} (prev_hash event_type : str) (detail : json)
    (timestamp : str) (rfc_id : option RfcId) : str :=
  prev_hash ++ event_type ++ json_text detail ++ timestamp
  ++ match rfc_id with Some id => #"rfc_id:" ++ id | None => [] end.

Definition compute_hash `{!Sha256, !JsonText} (prev_hash event_type : str) (detail : json)
    (timestamp : str) (rfc_id : option RfcId) : str :=
  sha256_hex (hash_input prev_hash event_type detail timestamp rfc_id).

(** ** One chain *)

Record SealChain := mkSealChain {
  ch_records : list SealRecord;
  ch_file_path : path;
  ch_next_seq : N;
  ch_closed : bool;
}.

Definition tip_hash (c : SealChain) : option str := sr_hash <$> last (ch_records c).

Definition chain_close (c : SealChain) : SealChain :=
  mkSealChain (ch_records c) (ch_file_path c) (ch_next_seq c) true.

Section chain.
Context `{!Sha256, !JsonText, !Serde SealRecord}.

Definition chain_create (p : path) : M Fs io_error SealChain :=
  create_dir_all;; mret (mkSealChain [] p 0 false).

(** Malformed lines are skipped. *)
Definition parse_records (content : str) : list SealRecord :=
  omap (λ line, if is_empty (trim line) then None else to_option (de line)) (lines content).

Definition chain_of_records (records : list SealRecord) (p : path) : SealChain :=
  mkSealChain records p
    (match last records with Some r => u64_succ (sr_seq r) | None => 0%N end)
    (match last records with Some r => is_terminal_event (sr_event_type r) | None => false end).

Definition chain_load (p : path) : M Fs io_error SealChain :=
  create_dir_all;;
  content ← attempt (read_to_string p);
  match content with
  | Ok s => mret (chain_of_records (parse_records s) p)
  | Err NotFound => mret (chain_of_records (parse_records []) p)
  | Err e => throw e
  end.

Definition load_or_quarantine (p : path) (s : Fs) : SealChain * Fs :=
  match chain_load p s with
  | (Ok c, s') => (c, s')
  | (Err _, s') => (mkSealChain [] p 0 true, s')
  end.

(** The record the next append writes. *)
Definition next_record (c : SealChain) (timestamp event_type : str) (detail : json)
    (rfc_id : option RfcId) : SealRecord :=
  let prev_hash := default ZERO_HASH (sr_hash <$> last (ch_records c)) in
  mkSealRecord (ch_next_seq c) timestamp event_type detail
    (compute_hash prev_hash event_type detail timestamp rfc_id) prev_hash rfc_id.

Definition pushed (c : SealChain) (r : SealRecord) : SealChain :=
  mkSealChain (ch_records c ++ [r]) (ch_file_path c) (u64_succ (ch_next_seq c))
    (ch_closed c || is_terminal_event (sr_event_type r)).

(** [?] on an I/O error. *)
Definition seal_io {A} (m : M Fs io_error A) : M (SealChain * Fs) SealError A := λ st,
  let '(r, s') := m st.2 in (map_err SealIo r, (st.1, s')).

Definition append_with_rfc (timestamp event_type : str) (detail : json)
    (rfc_id : option RfcId) : M (SealChain * Fs) SealError SealRecord := λ st,
  let c := st.1 in
  if ch_closed c then (Err SealClosed, st)
  else
    let record := next_record c timestamp event_type detail rfc_id in
    (line ← lift (map_err SealSerialize (ser record));
     seal_io (open_append (ch_file_path c));;
     seal_io (write_all (ch_file_path c) (line ++ [chr_nl]));;
     modify (λ st, (pushed c record, st.2));;
     mret record) st.

Definition append (timestamp event_type : str) (detail : json)
    : M (SealChain * Fs) SealError SealRecord :=
  append_with_rfc timestamp event_type detail None.

Fixpoint verify_from (expected_prev : str) (rs : list SealRecord) : bool * option N :=
  match rs with
  | [] => (true, None)
  | r :: rs' =>
      if negb (bool_decide (sr_prev_hash r = expected_prev)) then (false, Some (sr_seq r))
      else if negb (bool_decide (compute_hash expected_prev (sr_event_type r) (sr_detail r)
                                   (sr_timestamp r) (sr_rfc_id r) = sr_hash r))
      then (false, Some (sr_seq r))
      else verify_from (sr_hash r) rs'
  end.

Definition verify (c : SealChain) : bool * option N := verify_from ZERO_HASH (ch_records c).

(** ** The manager *)

Record SealManager := mkSealManager {
  sm_job_chains : gmap N SealChain;
  sm_project_chains : gmap str SealChain;
  sm_workspace_chain : option SealChain;
  sm_data_dir : path;
  sm_origin_tag : option str;
}.

(** [scheduled]: the value of the environment variable [ORKIA_SCHEDULED]. *)
Definition manager_new (data_dir : path) (scheduled : option str) : SealManager :=
  mkSealManager ∅ ∅ None data_dir
    (if bool_decide (scheduled = Some #"1") then Some #"scheduled" else None).

Definition tag_origin (m : SealManager) (detail : json) : json :=
  match sm_origin_tag m, detail with
  | Some origin, JObj obj => JObj (obj_insert #"origin" (JStr origin) obj)
  | _, _ => detail
  end.

Definition job_chain_path (m : SealManager) (agent_name : str) (job_id : N) : path :=
  path_join (path_join (path_join (path_join (path_join (sm_data_dir m) #"agents") agent_name)
    #"jobs") (fmt_dec job_id)) #"seal.jsonl".

Definition project_chain_path (m : SealManager) (project : str) : path :=
  path_join (path_join (path_join (sm_data_dir m) #"projects") project) #"seal.jsonl".

Definition workspace_chain_path (m : SealManager) : path :=
  path_join (path_join (sm_data_dir m) #"workspace") #"seal.jsonl".

Definition archive_name (p : path) (n : N) : path := with_extension p (#"jsonl." ++ fmt_dec n).

(** The first free archive name from [n] on; among one more names than there
    are files one is free. *)
Fixpoint first_free (files : gmap path str) (p : path) (n : N) (fuel : nat) : option path :=
  match fuel with
  | 0 => None
  | S fuel' =>
      if (u32_max <=? n)%N then None
      else if bool_decide (is_Some (files !! archive_name p n))
      then first_free files p (n + 1) fuel'
      else Some (archive_name p n)
  end.

Definition archive_stale_chain (p : path) (s : Fs) : Fs :=
  match file_len p s with
  | (Ok len, s1) =>
      if (0 <? len)%N then
        match first_free (fs_files s1) p 1 (S (size (fs_files s1))) with
        | Some archive => (rename p archive s1).2
        | None => s1
        end
      else s1
  | (Err _, s1) => s1
  end.

Abbreviation MSt := (SealManager * Fs)%type (only parsing).

Definition set_job (job_id : N) (c : SealChain) (m : SealManager) : SealManager :=
  mkSealManager (<[job_id := c]> (sm_job_chains m)) (sm_project_chains m)
    (sm_workspace_chain m) (sm_data_dir m) (sm_origin_tag m).

Definition set_project (project : str) (c : SealChain) (m : SealManager) : SealManager :=
  mkSealManager (sm_job_chains m) (<[project := c]> (sm_project_chains m))
    (sm_workspace_chain m) (sm_data_dir m) (sm_origin_tag m).

Definition set_workspace (c : SealChain) (m : SealManager) : SealManager :=
  mkSealManager (sm_job_chains m) (sm_project_chains m) (Some c) (sm_data_dir m)
    (sm_origin_tag m).

(** [entry(job_id).or_insert(chain)] *)
Definition or_insert_job (job_id : N) (c : SealChain) (m : SealManager) : SealManager :=
  match sm_job_chains m !! job_id with Some _ => m | None => set_job job_id c m end.

Definition create_job_chain (job_id : N) (agent_name : str) (st : MSt) : MSt :=
  let '(m, s) := st in
  let p := job_chain_path m agent_name job_id in
  let '(c, s2) := load_or_quarantine p (archive_stale_chain p s) in
  (or_insert_job job_id c m, s2).

Definition open_job_chain (job_id : N) (agent_name : str) (st : MSt) : MSt :=
  let '(m, s) := st in
  let '(c, s2) := load_or_quarantine (job_chain_path m agent_name job_id) s in
  (or_insert_job job_id c m, s2).

(** A closed chain swallows the record. *)
Definition swallow_closed {A} (r : result SealError A) : result SealError unit :=
  match r with Ok _ => Ok () | Err SealClosed => Ok () | Err e => Err e end.

Definition seal_job_with_rfc (now : str) (job_id : N) (event_type : str) (detail : json)
    (rfc_id : option RfcId) (st : MSt) : result SealError unit * MSt :=
  let '(m, s) := st in
  let detail := tag_origin m detail in
  match sm_job_chains m !! job_id with
  | Some c =>
      let '(r, (c', s')) := append_with_rfc now event_type detail rfc_id (c, s) in
      (swallow_closed r, (set_job job_id c' m, s'))
  | None => (Ok (), st)
  end.

Definition close_job_chain (job_id : N) (m : SealManager) : option str * SealManager :=
  match sm_job_chains m !! job_id with
  | Some c => (tip_hash c, set_job job_id (chain_close c) m)
  | None => (None, m)
  end.

Definition evict_job_chain (job_id : N) (m : SealManager) : SealManager :=
  mkSealManager (delete job_id (sm_job_chains m)) (sm_project_chains m)
    (sm_workspace_chain m) (sm_data_dir m) (sm_origin_tag m).

Definition seal_project_with_rfc (now : str) (project event_type : str) (detail : json)
    (rfc_id : option RfcId) (st : MSt) : result SealError unit * MSt :=
  let '(m, s) := st in
  let detail := tag_origin m detail in
  let '(c, s1) := match sm_project_chains m !! project with
                  | Some c => (c, s)
                  | None => load_or_quarantine (project_chain_path m project) s
                  end in
  let '(r, (c', s')) := append_with_rfc now event_type detail rfc_id (c, s1) in
  (swallow_closed r, (set_project project c' m, s')).

Definition seal_job_reference (now : str) (project : str) (job_id : N)
    (agent_name job_chain_hash : str) (st : MSt) : result SealError unit * MSt :=
  seal_project_with_rfc now project #"job.reference"
    (json_obj [(#"job_id", JInt (Z.of_N job_id)); (#"agent", JStr agent_name);
               (#"job_chain_hash", JStr job_chain_hash)]) None st.

Definition seal_workspace_with_rfc (now : str) (event_type : str) (detail : json)
    (rfc_id : option RfcId) (st : MSt) : result SealError unit * MSt :=
  let '(m, s) := st in
  let detail := tag_origin m detail in
  let '(c, s1) := match sm_workspace_chain m with
                  | Some c => (c, s)
                  | None => load_or_quarantine (workspace_chain_path m) s
                  end in
  let '(r, (c', s')) := append_with_rfc now event_type detail rfc_id (c, s1) in
  (swallow_closed r, (set_workspace c' m, s')).

Definition verify_at (p : path) (s : Fs) : bool * option N * nat :=
  match (chain_load p s).1 with
  | Ok c => (verify c, length (ch_records c))
  | Err _ => (false, Some 0%N, 0)
  end.

Definition verify_job (m : SealManager) (agent_name : str) (job_id : N) (s : Fs)
    : bool * option N * nat := verify_at (job_chain_path m agent_name job_id) s.

Definition verify_project (m : SealManager) (project : str) (s : Fs) : bool * option N * nat :=
  verify_at (project_chain_path m project) s.

Record JobVerifyResult := mkJobVerifyResult {
  jv_job_id : N;
  jv_agent : str;
  jv_chain_ok : bool;
  jv_tip_matches : bool;
  jv_broken_at : option N;
  jv_record_count : nat;
}.

Record DeepVerifyResult := mkDeepVerifyResult {
  dv_project_ok : bool;
  dv_project_broken_at : option N;
  dv_project_records : nat;
  dv_job_results : list JobVerifyResult;
}.

Definition verify_reference (m : SealManager) (record : SealRecord) (s : Fs)
    : JobVerifyResult * Fs :=
  let detail := sr_detail record in
  let agent := default #"unknown" (jget #"agent" detail ≫= as_str) in
  let job_id := (default 0 (jget #"job_id" detail ≫= as_u64) mod 4294967296)%N in
  let expected_hash := default [] (jget #"job_chain_hash" detail ≫= as_str) in
  let '(job_chain, s') := chain_load (job_chain_path m agent job_id) s in
  match job_chain with
  | Ok c =>
      let '(ok, broken) := verify c in
      (mkJobVerifyResult job_id agent ok
         (match tip_hash c with Some h => bool_decide (h = expected_hash) | None => false end)
         broken (length (ch_records c)), s')
  | Err _ => (mkJobVerifyResult job_id agent false false (Some 0%N) 0, s')
  end.

Fixpoint verify_references (m : SealManager) (rs : list SealRecord) (s : Fs)
    : list JobVerifyResult :=
  match rs with
  | [] => []
  | r :: rs' =>
      if negb (bool_decide (sr_event_type r = #"job.reference")) then verify_references m rs' s
      else let '(res, s') := verify_reference m r s in res :: verify_references m rs' s'
  end.

Definition verify_project_deep (m : SealManager) (project : str) (s : Fs) : DeepVerifyResult :=
  match chain_load (project_chain_path m project) s with
  | (Err _, _) => mkDeepVerifyResult false (Some 0%N) 0 []
  | (Ok c, s') =>
      let '(ok, broken) := verify c in
      mkDeepVerifyResult ok broken (length (ch_records c))
        (verify_references m (ch_records c) s')
  end.

End chain.

(** ** Scheduled runs ([pending.rs]) *)

Record ScheduledContext := mkScheduledContext { is_scheduled : bool; approval_required : bool }.

(** From the values of [ORKIA_SCHEDULED] and [ORKIA_SCHEDULED_APPROVAL]. *)
Definition scheduled_from_env (scheduled approval : option str) : ScheduledContext :=
  mkScheduledContext (bool_decide (scheduled = Some #"1"))
    (bool_decide (approval = Some #"required" ∨ approval = Some #"require")).

Section pending.
Context (to_pretty : json → result str str) (to_line : json → result str str).

Definition park_scheduled_result (now : str) (cron : option str) (data_dir : path) (job_id : N)
    (agent : str) (exit_code : option Z) : M Fs io_error path :=
  let dir := path_join data_dir #"pending" in
  create_dir_all;;
  let p := path_join dir (fmt_dec job_id ++ #".json") in
  let payload := json_obj
    [(#"job_id", JInt (Z.of_N job_id)); (#"agent", JStr agent);
     (#"exit_code", match exit_code with Some c => JInt c | None => JNull end);
     (#"origin", JStr #"scheduled"); (#"parked_at", JStr now);
     (#"cron_expression", json_opt_str cron)] in
  text ← lift (map_err OtherIo (to_pretty payload));
  fs_write p text;;
  mret p.

(** Best effort: an error ends the function without a result. *)
Definition append_journal_event (now : str) (data_dir : path) (event_type event : str)
    (job_id : N) (agent : str) (extra : json) (s : Fs) : Fs :=
  let p := path_join data_dir #"journal.jsonl" in
  let envelope := json_obj
    [(#"type", JStr event_type); (#"timestamp", JStr now); (#"job_id", JInt (Z.of_N job_id));
     (#"agent", JStr agent); (#"event", JStr event); (#"origin", JStr #"scheduled");
     (#"extra", extra)] in
  ((create_dir_all;;
    line ← lift (map_err OtherIo (to_line envelope));
    open_append p;;
    write_all p (line ++ [chr_nl])) s).2.

End pending.

(** ** Verification and appending *)

Section chain_theorems.
Context `{!Sha256, !JsonText, !Serde SealRecord}.

Lemma verify_snoc prev rs r :
  verify_from prev (rs ++ [r]) = (true, None) ↔
  verify_from prev rs = (true, None)
  ∧ sr_prev_hash r = default prev (sr_hash <$> last rs)
  ∧ compute_hash (sr_prev_hash r) (sr_event_type r) (sr_detail r) (sr_timestamp r) (sr_rfc_id r)
    = sr_hash r.
Proof.
  revert prev. induction rs as [|x rs IH]; intros prev; cbn [verify_from app].
  - repeat case_bool_decide; simpl; naive_solver congruence.
  - repeat case_bool_decide; cbn [negb]; [|naive_solver..].
    rewrite IH, last_cons. destruct (last rs); simpl; naive_solver.
Qed.

(** Every record is linked, hashed and numbered by its position, and an open
    chain has not ended. *)
Record chain_wf (c : SealChain) : Prop := mkChainWf {
  wf_verify : verify c = (true, None);
  wf_next : ch_next_seq c = (N.of_nat (length (ch_records c)) mod 18446744073709551616)%N;
  wf_seq i r : ch_records c !! i = Some r → sr_seq r = (N.of_nat i mod 18446744073709551616)%N;
  wf_terminal r : last (ch_records c) = Some r → is_terminal_event (sr_event_type r) = true →
    ch_closed c = true;
}.

Lemma chain_wf_empty p closed : chain_wf (mkSealChain [] p 0 closed).
Proof. by split. Qed.

Lemma u64_succ_mod n :
  u64_succ (n mod 18446744073709551616)%N = ((n + 1) mod 18446744073709551616)%N.
Proof. unfold u64_succ. by rewrite N.Div0.add_mod_idemp_l. Qed.

Lemma chain_wf_pushed c ts ev d rfc :
  chain_wf c → chain_wf (pushed c (next_record c ts ev d rfc)).
Proof.
  intros [Hv Hn Hs Ht]. split.
  - unfold verify, pushed. simpl. apply verify_snoc. split; [done|]. simpl. done.
  - simpl. rewrite Hn, u64_succ_mod, length_app. simpl. f_equal. lia.
  - intros i r. simpl. intros [Hi|[Hi Hr]]%lookup_app_Some; [by apply Hs|].
    apply list_lookup_singleton_Some in Hr as [Hz <-]. simpl. rewrite Hn. do 2 f_equal. lia.
  - intros r. simpl. rewrite last_snoc. intros [= <-] Hterm. simpl in Hterm.
    by rewrite Hterm, orb_true_r.
Qed.

(** The file of a chain holds its records, one line each. *)
Definition mirrors (c : SealChain) (m : gmap path str) : Prop :=
  ∃ texts, Forall2 (λ r t, ser r = Ok t) (ch_records c) texts
           ∧ default [] (m !! ch_file_path c) = unlines texts.

Definition seal_line (r : SealRecord) : str :=
  match ser r with Ok t => t ++ [chr_nl] | Err _ => [] end.

(** One append, on every outcome. *)
Lemma append_cases ts ev d rfc c s :
  let rec := next_record c ts ev d rfc in
  let '(r, (c', s')) := append_with_rfc ts ev d rfc (c, s) in
  match r with
  | Ok rec' =>
      rec' = rec ∧ ch_closed c = false ∧ is_ok (ser rec) = true ∧ c' = pushed c rec
      ∧ fs_files s' = <[ch_file_path c := default [] (fs_files s !! ch_file_path c) ++ seal_line rec]>
                        (fs_files s)
  | Err e =>
      c' = c ∧ torn (ch_file_path c) (seal_line rec) (fs_files s) s'
      ∧ (ch_closed c = true → e = SealClosed ∧ s' = s)
  end.
Proof.
  intros rec. unfold append_with_rfc. cbn [fst]. destruct (ch_closed c) eqn:Hcl.
  { split; [done|]. split; [by apply torn_none|done]. }
  fold rec. unfold mbind, M_bind, lift, seal_line.
  destruct (ser rec) as [line|e] eqn:Hser; cbn [map_err].
  2: { split; [done|]. split; [by apply torn_none|done]. }
  unfold seal_io. cbn [fst snd].
  pose proof (hoare_open_append (ch_file_path c) (fs_files s)
    (λ s', torn (ch_file_path c) (line ++ [chr_nl]) (fs_files s) s')) as Ho.
  specialize (Ho ltac:(intros s0 Hs0; apply torn_none; intros; by rewrite Hs0) s eq_refl).
  destruct (open_append (ch_file_path c) s) as [[[]|e] s1]; cbn [map_err]; [|done].
  pose proof (hoare_write_opened (ch_file_path c) (fs_files s) (line ++ [chr_nl]) s1 Ho) as Hw.
  cbn [fst snd].
  destruct (write_all (ch_file_path c) (line ++ [chr_nl]) s1) as [[[]|e] s2]; cbn [map_err]; done.
Qed.

Lemma mirrors_pushed c rec m :
  mirrors c m → is_ok (ser rec) = true →
  mirrors (pushed c rec)
    (<[ch_file_path c := default [] (m !! ch_file_path c) ++ seal_line rec]> m).
Proof.
  intros (texts & Hf & Ht) Hok. unfold seal_line. destruct (ser rec) as [t|] eqn:E; [|done].
  exists (texts ++ [t]). simpl. split; [by apply Forall2_app; [|repeat constructor]|].
  rewrite lookup_insert_eq. simpl. rewrite Ht, unlines_app. simpl. by rewrite app_nil_r.
Qed.

(** C3: Appending to an audit chain is fail-closed and keeps it sound: on a verifying chain
    whose file holds its records, a successful append adds exactly the next record,
    linked to the tip, hashed and numbered; the chain still verifies, its file holds
    it, and a terminal event closes it. A failed append leaves the chain in memory as
    it was and at most a prefix of the record's line in the file; a closed chain
    refuses every append and nothing at all changes. *)
Theorem seal_append_spec ts ev d rfc c s :
  chain_wf c → mirrors c (fs_files s) →
  let '(r, (c', s')) := append_with_rfc ts ev d rfc (c, s) in
  match r with
  | Ok rec =>
      ch_closed c = false ∧ rec = next_record c ts ev d rfc
      ∧ ch_records c' = ch_records c ++ [rec] ∧ ch_closed c' = is_terminal_event ev
      ∧ chain_wf c' ∧ mirrors c' (fs_files s')
      ∧ ∀ q, q ≠ ch_file_path c → fs_files s' !! q = fs_files s !! q
  | Err e =>
      c' = c ∧ torn (ch_file_path c) (seal_line (next_record c ts ev d rfc)) (fs_files s) s'
      ∧ (ch_closed c = true → e = SealClosed ∧ s' = s)
  end.
Proof.
  intros Hwf Hm. pose proof (append_cases ts ev d rfc c s) as Hc.
  destruct (append_with_rfc ts ev d rfc (c, s)) as [[rec|e] [c' s']]; [|done].
  destruct Hc as (-> & Hcl & Hok & -> & Hf). split_and!; try done.
  - simpl. by rewrite Hcl.
  - by apply chain_wf_pushed.
  - rewrite Hf. by apply mirrors_pushed.
  - intros q Hq. rewrite Hf. by rewrite lookup_insert_ne.
Qed.

(** *** Reloading *)

Lemma seal_lines_one `{!SerdeLaws SealRecord} rs texts :
  Forall2 (λ r t, ser r = Ok t) rs texts → Forall one_line texts.
Proof. induction 1; constructor; eauto using ser_one_line. Qed.

Lemma parse_records_unlines `{!SerdeLaws SealRecord} rs texts :
  Forall2 (λ r t, ser r = Ok t) rs texts → parse_records (unlines texts) = rs.
Proof.
  intros Hf. unfold parse_records. rewrite lines_unlines by by eapply seal_lines_one.
  induction Hf as [|r t rs texts Hr _ IH]; [done|]. simpl.
  destruct (trim t) eqn:E; [by apply ser_not_blank in Hr|]. simpl.
  rewrite (de_ser _ _ Hr). simpl. f_equal. exact IH.
Qed.

Lemma chain_load_ok p m :
  chain_load p (mkFs m []) =
  (Ok (chain_of_records (parse_records (default [] (m !! p))) p), mkFs m []).
Proof.
  unfold chain_load, create_dir_all, read_to_string, mbind, M_bind, attempt.
  rewrite !syscall_no_fault. simpl. by destruct (m !! p).
Qed.

(** Chains made from a fresh one by successful appends, with their files. *)
Inductive sealed_by : SealChain → gmap path str → Prop :=
| sealed_new p m : default [] (m !! p) = [] → sealed_by (mkSealChain [] p 0 false) m
| sealed_append c s ts ev d rfc rec c' s' :
    sealed_by c (fs_files s) →
    append_with_rfc ts ev d rfc (c, s) = (Ok rec, (c', s')) →
    sealed_by c' (fs_files s').

Lemma sealed_by_inv c m :
  sealed_by c m →
  chain_wf c ∧ mirrors c m
  ∧ ch_closed c = match last (ch_records c) with
                  | Some r => is_terminal_event (sr_event_type r)
                  | None => false
                  end.
Proof.
  induction 1 as [p m Hm|c s ts ev d rfc rec c' s' _ (Hwf & Hm & Hcl) Ha].
  - split_and!; [apply chain_wf_empty| |done]. exists []. by split; [constructor|].
  - pose proof (append_cases ts ev d rfc c s) as Hc. rewrite Ha in Hc.
    destruct Hc as (-> & Hop & Hok & -> & Hf). split_and!.
    + by apply chain_wf_pushed.
    + rewrite Hf. by apply mirrors_pushed.
    + simpl. rewrite last_snoc, Hop. done.
Qed.


(** *** Tamper evidence *)

(** What the hash of a record covers. *)
Definition covered (r : SealRecord) : str :=
  hash_input (sr_prev_hash r) (sr_event_type r) (sr_detail r) (sr_timestamp r) (sr_rfc_id r).

Definition verifies (rs : list SealRecord) : Prop := verify_from ZERO_HASH rs = (true, None).

(** The two chains themselves exhibit a break of SHA-256: two of their records
    cover different texts with one digest, or a record's text has digest zero. *)
Definition sha256_broken_by (rs rs' : list SealRecord) : Prop :=
  (∃ r r', r ∈ rs ∧ r' ∈ rs' ∧ covered r ≠ covered r'
           ∧ sha256_hex (covered r) = sha256_hex (covered r'))
  ∨ (∃ r, r ∈ rs ++ rs' ∧ sha256_hex (covered r) = ZERO_HASH).

Lemma sha256_broken_snoc rs r rs' r' :
  sha256_broken_by rs rs' → sha256_broken_by (rs ++ [r]) (rs' ++ [r']).
Proof.
  intros [(x & y & Hx & Hy & Hne & He)|(x & Hx & He)]; [left; exists x, y|right; exists x]; set_solver.
Qed.

Lemma verifies_snoc rs r :
  verifies (rs ++ [r]) →
  verifies rs ∧ sr_prev_hash r = default ZERO_HASH (sr_hash <$> last rs)
  ∧ sr_hash r = sha256_hex (covered r).
Proof. intros (Hv & Hp & Hh)%verify_snoc. done. Qed.

Lemma verifies_tip_length `{!Sha256Laws} rs :
  verifies rs → length (default ZERO_HASH (sr_hash <$> last rs)) = 64.
Proof.
  destruct rs as [|r rs _] using rev_ind; [done|]. rewrite last_snoc. simpl.
  intros (_ & _ & ->)%verifies_snoc. apply sha256_length.
Qed.

(** Two verifying chains with equal tips: one step back. *)
Lemma tip_step_back `{!Sha256Laws} rs r rs' r' :
  verifies (rs ++ [r]) → verifies (rs' ++ [r']) → sr_hash r = sr_hash r' →
  sha256_broken_by (rs ++ [r]) (rs' ++ [r'])
  ∨ covered r = covered r'
    ∧ default ZERO_HASH (sr_hash <$> last rs) = default ZERO_HASH (sr_hash <$> last rs').
Proof.
  intros (Hv & Hp & Hh)%verifies_snoc (Hv' & Hp' & Hh')%verifies_snoc He.
  destruct (decide (covered r = covered r')) as [Hc|Hc].
  - right. split; [done|]. rewrite <- Hp, <- Hp'.
    unfold covered, hash_input in Hc. apply app_inj_1 in Hc as [? _]; [done|].
    rewrite Hp, Hp'. by rewrite !verifies_tip_length.
  - left. left. exists r, r'. split_and!; [set_solver|set_solver|done|congruence].
Qed.

(** Equal tips of chains of which one is empty. *)
Lemma tip_zero_broken rs r (l : list SealRecord) :
  verifies (rs ++ [r]) → default ZERO_HASH (sr_hash <$> last (rs ++ [r])) = ZERO_HASH →
  r ∈ l → ∃ x, x ∈ l ∧ sha256_hex (covered x) = ZERO_HASH.
Proof.
  intros (_ & _ & Hh)%verifies_snoc. rewrite last_snoc. simpl. intros Hz Hr.
  exists r. split; [done|congruence].
Qed.

(** C20: Tamper evidence: if two chains verify and have the same tip hash, then every record
    of one covers the same text as the record at the same place of the other, and they
    are equally long; unless the two chains themselves exhibit a break of SHA-256: two
    of their records covering different texts with one digest, or a record whose text
    has the all-zero genesis link as its digest. So no covered field of a record can be
    changed, and no record inserted, dropped or reordered, without the tip hash changing
    or a collision being found. *)
Theorem seal_tamper_evident `{!Sha256Laws} rs rs' :
  verifies rs → verifies rs' → sr_hash <$> last rs = sr_hash <$> last rs' →
  sha256_broken_by rs rs' ∨ map covered rs = map covered rs'.
Proof.
  intros V1 V2 Htip.
  assert (default ZERO_HASH (sr_hash <$> last rs) = default ZERO_HASH (sr_hash <$> last rs'))
    as Ht by by rewrite Htip.
  clear Htip. revert rs' V2 Ht.
  induction rs as [|r rs IH] using rev_ind; intros rs' V2 Ht;
    destruct rs' as [|r' rs' _] using rev_ind.
  - by right.
  - left. right. eapply tip_zero_broken; [exact V2|done|set_solver].
  - left. right. eapply tip_zero_broken; [exact V1|done|set_solver].
  - rewrite !last_snoc in Ht. simpl in Ht.
    destruct (tip_step_back _ _ _ _ V1 V2 Ht) as [?|[Hc Ht']]; [by left|].
    apply verifies_snoc in V1 as [V1 _]. apply verifies_snoc in V2 as [V2 _].
    destruct (IH V1 rs' V2 Ht') as [?|Hm]; [left; by apply sha256_broken_snoc|].
    right. by rewrite !map_app, Hm; simpl; rewrite Hc.
Qed.

Definition with_seq (n : N) (r : SealRecord) : SealRecord :=
  mkSealRecord n (sr_timestamp r) (sr_event_type r) (sr_detail r) (sr_hash r)
    (sr_prev_hash r) (sr_rfc_id r).

(** The tag of [r] moved into its timestamp. *)
Definition untagged (r : SealRecord) : SealRecord :=
  match sr_rfc_id r with
  | Some id => mkSealRecord (sr_seq r) (sr_timestamp r ++ #"rfc_id:" ++ id) (sr_event_type r)
                 (sr_detail r) (sr_hash r) (sr_prev_hash r) None
  | None => r
  end.

(** What verification does not cover: changing the sequence numbers of a verifying chain
    in any way, or taking the RFC tag off any record by moving its text into the
    timestamp, leaves the chain verifying with the same tip. *)
Theorem verify_blind_spots (num : SealRecord → N) rs :
  verifies rs →
  verifies (map (λ r, with_seq (num r) r) rs)
  ∧ verifies (map untagged rs)
  ∧ map sr_hash (map untagged rs) = map sr_hash rs.
Proof.
  unfold verifies. generalize ZERO_HASH.
  induction rs as [|r rs IH]; intros prev; [done|]. cbn [map verify_from].
  case_bool_decide as Hp; cbn [negb]; [|done]. case_bool_decide as Hh; cbn [negb]; [|done].
  intros Hv. destruct (IH _ Hv) as (I1 & I2 & I3).
  assert (sr_prev_hash (untagged r) = sr_prev_hash r ∧ sr_hash (untagged r) = sr_hash r
          ∧ compute_hash prev (sr_event_type (untagged r)) (sr_detail (untagged r))
              (sr_timestamp (untagged r)) (sr_rfc_id (untagged r)) = sr_hash r)
    as (U1 & U2 & U3).
  { unfold untagged. destruct (sr_rfc_id r) as [id|] eqn:E; [|by rewrite E]. simpl.
    split_and!; [done..|]. rewrite <- Hh. unfold compute_hash, hash_input.
    by rewrite !app_nil_r. }
  rewrite U1, U2, U3, !bool_decide_true by done. cbn [negb]. rewrite I3. done.
Qed.

(** *** A torn line *)

Lemma append_no_fault ts ev d rfc c m t :
  ch_closed c = false → ser (next_record c ts ev d rfc) = Ok t →
  append_with_rfc ts ev d rfc (c, mkFs m []) =
  (Ok (next_record c ts ev d rfc),
   (pushed c (next_record c ts ev d rfc),
    mkFs (<[ch_file_path c := default [] (m !! ch_file_path c) ++ t ++ [chr_nl]]> m) [])).
Proof.
  intros Hcl Hs. unfold append_with_rfc. cbn [fst]. rewrite Hcl.
  unfold mbind, M_bind, lift. rewrite Hs. unfold seal_io, open_append, syscall. simpl.
  unfold write_all. simpl. do 3 f_equal.
  unfold set_files, append_text. simpl.
  destruct (m !! ch_file_path c) as [old|] eqn:E; simpl; [by rewrite E|].
  by rewrite lookup_insert_eq, insert_insert_eq.
Qed.

Lemma append_torn_write ts ev d rfc c m k msg t :
  ch_closed c = false → ser (next_record c ts ev d rfc) = Ok t →
  append_with_rfc ts ev d rfc (c, mkFs m [NoFault; Fault k msg]) =
  (Err (SealIo (OtherIo msg)),
   (c, mkFs (<[ch_file_path c := default [] (m !! ch_file_path c) ++ take k (t ++ [chr_nl])]> m) [])).
Proof.
  intros Hcl Hs. unfold append_with_rfc. cbn [fst]. rewrite Hcl.
  unfold mbind, M_bind, lift. rewrite Hs. unfold seal_io, open_append, syscall. simpl.
  unfold write_all. simpl. do 3 f_equal.
  unfold set_files, append_text. simpl.
  destruct (m !! ch_file_path c) as [old|] eqn:E; simpl; [by rewrite E|].
  by rewrite lookup_insert_eq, insert_insert_eq.
Qed.

(** A torn line costs the next record: when an append fails after part of its line has
    reached the file, and the next append succeeds, the two texts share one line; if
    that line is not a record, reloading the chain finds neither, although the second
    record was reported as written and is in the chain in memory. *)
Theorem torn_append_loses_next `{!SerdeLaws SealRecord} ts1 ev1 d1 rfc1 ts2 ev2 d2 rfc2
    c m k msg t1 t2 :
  chain_wf c → mirrors c m → ch_closed c = false →
  ser (next_record c ts1 ev1 d1 rfc1) = Ok t1 → ser (next_record c ts2 ev2 d2 rfc2) = Ok t2 →
  1 ≤ k ≤ length t1 → to_option (de (A:=SealRecord) (take k t1 ++ t2)) = None →
  let '(r1, (c1, s1)) := append_with_rfc ts1 ev1 d1 rfc1 (c, mkFs m [NoFault; Fault k msg]) in
  let '(r2, (c2, s2)) := append_with_rfc ts2 ev2 d2 rfc2 (c1, s1) in
  is_ok r1 = false ∧ r2 = Ok (next_record c ts2 ev2 d2 rfc2)
  ∧ ch_records c2 = ch_records c ++ [next_record c ts2 ev2 d2 rfc2]
  ∧ ch_records <$> (chain_load (ch_file_path c) s2).1 = Ok (ch_records c).
Proof.
  intros Hwf (texts & Hf & Ht) Hcl Hs1 Hs2 Hk Hde.
  rewrite (append_torn_write _ _ _ _ _ _ _ _ _ Hcl Hs1), (append_no_fault _ _ _ _ _ _ _ Hcl Hs2).
  split_and!; [done|done|done|]. rewrite chain_load_ok. cbn [fst].
  rewrite !lookup_insert_eq. cbn [default from_option id].
  rewrite Ht, (take_app_le t1) by lia.
  assert (one_line (take k t1 ++ t2)) as Hone.
  { destruct (ser_one_line _ _ Hs1) as [N1 R1], (ser_one_line _ _ Hs2) as [N2 R2].
    assert (∀ x, x ∈ take k t1 → x ∈ t1) as Hsub 
      by (intros x Hx; rewrite <- (take_drop k t1); set_solver).
    split; rewrite not_elem_of_app; split; [by intros ?%Hsub|done|by intros ?%Hsub|done]. }
  assert ((unlines texts ++ take k t1) ++ t2 ++ [chr_nl] = unlines (texts ++ [take k t1 ++ t2])) as ->.
  { rewrite unlines_app. simpl. by rewrite app_nil_r, <- !app_assoc. }
  unfold parse_records. rewrite lines_unlines.
  2: { apply Forall_app. split; [by eapply seal_lines_one|].
       apply Forall_cons_2; [done|apply Forall_nil_2]. }
  rewrite omap_app. simpl. do 2 f_equal.
  rewrite <- (parse_records_unlines _ _ Hf). unfold parse_records.
  rewrite lines_unlines by by eapply seal_lines_one.
  rewrite Hde. by destruct (is_empty _); rewrite app_nil_r.
Qed.

End chain_theorems.

(** ** Fresh job chains *)

Section job_chains.
Context `{!Sha256, !JsonText, !Serde SealRecord}.

Lemma archive_name_inj (pre : path) name n m :
  (n ≤ u32_max)%N → (m ≤ u32_max)%N →
  archive_name (pre ++ [name]) n = archive_name (pre ++ [name]) m → n = m.
Proof.
  intros Hn Hm. unfold archive_name, with_extension. rewrite last_snoc, length_app. simpl.
  replace (length pre + 1 - 1) with (length pre) by lia. rewrite take_app_length.
  intros He%app_inv_head. injection He as He. apply app_inv_head in He.
  injection He as He. by apply fmt_dec_inj.
Qed.

Lemma first_free_Some files p n fuel q :
  first_free files p n fuel = Some q → ∃ k, q = archive_name p k ∧ files !! q = None.
Proof.
  revert n. induction fuel as [|fuel IH]; intros n; cbn [first_free]; [done|].
  destruct (u32_max <=? n)%N; [done|]. case_bool_decide as Hb; [by apply IH|].
  intros [= <-]. exists n. split; [done|]. by apply eq_None_not_Some.
Qed.

Lemma first_free_None files p n fuel :
  first_free files p n fuel = None → (n + N.of_nat fuel ≤ u32_max)%N →
  ∀ i, i < fuel → is_Some (files !! archive_name p (n + N.of_nat i)).
Proof.
  revert n. induction fuel as [|fuel IH]; intros n; [lia|]. cbn [first_free].
  destruct (N.leb_spec u32_max n); [lia|]. case_bool_decide as Hb; [|done].
  intros Hf Hm [|i] Hi; [by rewrite N.add_0_r|].
  replace (n + N.of_nat (S i))%N with (n + 1 + N.of_nat i)%N by lia. apply IH; [done|lia|lia].
Qed.

(** Among one more names than files one is free. *)
Lemma first_free_total files (pre : path) name :
  (N.of_nat (S (size files)) < u32_max)%N →
  is_Some (first_free files (pre ++ [name]) 1 (S (size files))).
Proof.
  intros Hsz. set (p := pre ++ [name]). set (k := S (size files)) in *.
  destruct (first_free files p 1 k) eqn:Ef; [done|]. exfalso.
  pose proof (first_free_None _ _ _ _ Ef ltac:(lia)) as Hall.
  assert (NoDup (map (λ i, archive_name p (1 + N.of_nat i)) (seq 0 k))) as Hnd.
  { apply NoDup_fmap_2_strong; [|apply NoDup_seq]. intros x y Hx Hy He.
    apply elem_of_seq in Hx, Hy. apply archive_name_inj in He; lia. }
  assert (list_to_set (map (λ i, archive_name p (1 + N.of_nat i)) (seq 0 k)) ⊆@{gset path} dom files)
    as Hsub.
  { intros q Hq. apply elem_of_list_to_set, list_elem_of_fmap in Hq as (i & -> & Hi).
    apply elem_of_dom, Hall. apply elem_of_seq in Hi. lia. }
  apply subseteq_size in Hsub. rewrite size_list_to_set, length_map, length_seq, size_dom in Hsub by done.
  lia.
Qed.

Lemma byte_len_pos t : t ≠ [] → (0 < byte_len t)%N.
Proof.
  destruct t as [|c t]; [done|]. intros _. simpl. unfold utf8_len. repeat case_match; lia.
Qed.

Lemma job_chain_path_snoc m agent job :
  ∃ pre, job_chain_path m agent job = pre ++ [ #"seal.jsonl"].
Proof. eexists. unfold job_chain_path. reflexivity. Qed.

#[local] Arguments first_free : simpl never.

Lemma archive_stale_chain_spec files (pre : path) name :
  (N.of_nat (S (size files)) < u32_max)%N →
  let p := pre ++ [name] in
  let s' := archive_stale_chain p (mkFs files []) in
  fs_faults s' = []
  ∧ default [] (fs_files s' !! p) = []
  ∧ (∀ q t, q ≠ p → files !! q = Some t → fs_files s' !! q = Some t)
  ∧ (∀ t, files !! p = Some t → t ≠ [] →
       ∃ n, files !! archive_name p n = None ∧ fs_files s' !! archive_name p n = Some t).
Proof.
  intros Hsz p s'. subst s'. unfold archive_stale_chain, file_len. rewrite syscall_no_fault. simpl.
  destruct (files !! p) as [t|] eqn:Ep; simpl.
  2: { rewrite Ep. split_and!; [done|done|done|]. intros t ?. congruence. }
  destruct (N.ltb_spec 0 (byte_len t)) as [Hlt|Hge].
  2: { simpl. rewrite Ep. assert (t = []) as ->.
       { destruct t; [done|]. pose proof (byte_len_pos (n :: t) ltac:(done)). lia. }
       split_and!; [done|done|done|]. intros t ??. congruence. }
  destruct (first_free_total files pre name Hsz) as [q Hq]. fold p in Hq.
  rewrite Hq. apply first_free_Some in Hq as (n & -> & Hfree).
  unfold rename. rewrite syscall_no_fault. cbn [fs_files]. rewrite Ep. simpl.
  assert (archive_name p n ≠ p) as Hne by congruence.
  split_and!; [done|by rewrite lookup_insert_ne, lookup_delete_eq| |].
  - intros q t' Hqp Ht'. rewrite lookup_insert_ne by congruence. by rewrite lookup_delete_ne.
  - intros t' [= <-] _. exists n. split; [done|]. by rewrite lookup_insert_eq.
Qed.

(** A reused job id starts afresh and loses nothing: when a job chain is created for an
    id the manager does not hold, the new chain is empty and open whatever its path
    held before, and an earlier chain at that path is kept whole under a name that was
    free, no other file being touched; a free name is always found. *)
Theorem create_job_chain_fresh job agent m files :
  sm_job_chains m !! job = None → (N.of_nat (S (size files)) < u32_max)%N →
  let p := job_chain_path m agent job in
  let '(m', s') := create_job_chain job agent (m, mkFs files []) in
  sm_job_chains m' !! job = Some (mkSealChain [] p 0 false)
  ∧ (∀ q t, q ≠ p → files !! q = Some t → fs_files s' !! q = Some t)
  ∧ (∀ t, files !! p = Some t → t ≠ [] →
       ∃ n, files !! archive_name p n = None ∧ fs_files s' !! archive_name p n = Some t).
Proof.
  intros Hm Hsz p. unfold create_job_chain. fold p.
  destruct (job_chain_path_snoc m agent job) as [pre Hp]. fold p in Hp.
  destruct (archive_stale_chain_spec files pre #"seal.jsonl" Hsz) as (Hnf & Hemp & Hoth & Harch).
  rewrite <- Hp in Hnf, Hemp, Hoth, Harch.
  destruct (archive_stale_chain p (mkFs files [])) as [f1 fl]. simpl in *. subst fl.
  unfold load_or_quarantine. rewrite chain_load_ok, Hemp. simpl.
  split_and!; [|done|done]. unfold or_insert_job. rewrite Hm. simpl. by rewrite lookup_insert_eq.
Qed.

End job_chains.

(** ** The theorems at concrete chains *)

Module SealExample.

#[local] Instance toy_sha : Sha256 := λ s, take 64 (map (λ c, N.succ (c mod 200)) s ++ replicate 64 49%N).

#[local] Instance toy_sha_laws : Sha256Laws.
Proof.
  intros s. unfold sha256_hex, toy_sha. rewrite length_take, length_app, length_map, length_replicate. lia.
Qed.

#[local] Instance toy_json : JsonText := λ _, #"{}".

Definition c0 : SealChain := mkSealChain [] [ #"seal.jsonl"] 0 false.
Definition r1 : SealRecord := next_record c0 #"t1" #"job.start" JNull (Some #"RFC-1").
Definition c1 : SealChain := pushed c0 r1.
Definition r2 : SealRecord := next_record c1 #"t2" #"agent.complete" JNull None.
Definition r2' : SealRecord := next_record c1 #"t3" #"job.note" JNull None.

#[local] Instance toy_serde : Serde SealRecord := table_serde [r1; r2; r2'].
#[local] Instance toy_serde_laws : SerdeLaws SealRecord := table_serde_laws _.

Definition m1 : gmap path str := {[ [ #"seal.jsonl"] := [48; 10]%N ]}.

Lemma c1_wf : chain_wf c1.
Proof. apply chain_wf_pushed, chain_wf_empty. Qed.

Lemma c1_mirrors : mirrors c1 m1.
Proof.
  exists [[48%N]]. split; [|by vm_compute].
  apply Forall2_cons; [by vm_compute|by apply Forall2_nil].
Qed.

Lemma c1_sealed : sealed_by c1 m1.
Proof.
  refine (sealed_append c0 (mkFs ∅ []) #"t1" #"job.start" JNull (Some #"RFC-1") r1 c1 (mkFs m1 []) _ _).
  - by apply sealed_new.
  - by vm_compute.
Qed.

Lemma seal_append_spec_witness :
  ∃ c' s', append_with_rfc #"t2" #"agent.complete" JNull None (c1, mkFs m1 []) = (Ok r2, (c', s'))
           ∧ ch_closed c' = true ∧ chain_wf c'.
Proof.
  pose proof (seal_append_spec #"t2" #"agent.complete" JNull None c1 (mkFs m1 []) c1_wf c1_mirrors) as H.
  destruct (append_with_rfc #"t2" #"agent.complete" JNull None (c1, mkFs m1 [])) as [[rec|e] [c' s']] eqn:E.
  - exists c', s'. destruct H as (_ & -> & _ & Hc & Hwf & _). done.
  - by vm_compute in E.
Defined.


Lemma seal_tamper_evident_witness :
  sha256_broken_by [r1; r2] (map (with_seq 7) [r1; r2])
  ∨ map covered [r1; r2] = map covered (map (with_seq 7) [r1; r2]).
Proof. apply (seal_tamper_evident [r1; r2] (map (with_seq 7) [r1; r2])); by vm_compute. Defined.

Lemma verify_blind_spots_witness :
  verifies (map (with_seq 7) [r1; r2]) ∧ verifies (map untagged [r1; r2])
  ∧ map sr_hash (map untagged [r1; r2]) = map sr_hash [r1; r2].
Proof. apply (verify_blind_spots (λ _, 7%N) [r1; r2]). by vm_compute. Defined.

Lemma torn_append_loses_next_witness :
  let '(_, (c1', s1)) := append_with_rfc #"t2" #"agent.complete" JNull None
                           (c1, mkFs m1 [NoFault; Fault 2 #"disk full"]) in
  let '(res, (c2, s2)) := append_with_rfc #"t3" #"job.note" JNull None (c1', s1) in
  res = Ok r2' ∧ ch_records c2 = [r1; r2'] ∧ ch_records <$> (chain_load [ #"seal.jsonl"] s2).1 = Ok [r1].
Proof.
  pose proof (torn_append_loses_next #"t2" #"agent.complete" JNull None #"t3" #"job.note" JNull None
    c1 m1 2 #"disk full" [48; 48]%N [48; 48; 48]%N c1_wf c1_mirrors) as H.
  do 2 (destruct (append_with_rfc _ _ _ _ _) as [? [??]]).
  destruct H as (_ & H1 & H2 & H3); [done|by vm_compute|by vm_compute|simpl; lia|by vm_compute|].
  split_and!; [exact H1|exact H2|exact H3].
Defined.

Definition old_chain : gmap path str :=
  {[ job_chain_path (manager_new [ #"data"] None) #"claude" 3 := [48; 10]%N ]}.

Lemma create_job_chain_fresh_witness :
  let '(m', s') := create_job_chain 3 #"claude" (manager_new [ #"data"] None, mkFs old_chain []) in
  (ch_records <$> sm_job_chains m' !! 3%N) = Some []
  ∧ ∃ q, fs_files s' !! q = Some [48; 10]%N.
Proof.
  pose proof (create_job_chain_fresh 3 #"claude" (manager_new [ #"data"] None) old_chain
    eq_refl eq_refl) as H.
  destruct (create_job_chain _ _ _) as [m' s']. destruct H as (H1 & _ & H3).
  split; [by rewrite H1|]. destruct (H3 [48; 10]%N) as (n & _ & Hn); [by vm_compute|done|eauto].
Defined.

End SealExample.
