(* ===== verification/Stream.v ===== *)
(** * Stream: the publisher of local records

    [crates/orkia-stream]: the pieces the publisher's loop is made of. The scope
    gate ([scope.rs], [auth.rs]) decides what may leave the machine, the
    translator ([translate.rs]) builds the lines, the batcher ([batch.rs])
    collects them, the transport ([transport.rs]) posts a batch with bounded
    retries, the cursor ([cursor.rs]) remembers per chain what has been handed
    over, and the source ([sources/seal.rs]) reads the chain files from there.
    Module [StreamLoop] composes them.

    The answers of the session store, the server's responses, the clock and
    fresh identifiers are arguments of the operations that ask for them. Parsing
    a date or a UUID and narrowing a float are parameters. *)

From Stdlib Require Import NArith ZArith Lia.
From stdpp Require Import base gmap strings option numbers list list_basics.
From S2P Require Import Prelude Effects Json Fs Journal RfcCore Seal.

(** ** Scopes and sessions *)

Inductive Scope := Private | Team | Public.

#[export] Instance Scope_eq_dec : EqDecision Scope.
Proof. solve_decision. Defined.

Definition scope_parse (s : str) : option Scope :=
  if decide (s = #"private") then Some Private
  else if decide (s = #"team") then Some Team
  else if decide (s = #"public") then Some Public
  else None.

(** What the session store answers at one moment. *)
Record Session := mkSession { ss_workspace_id : option str; ss_account_id : option str }.

Record AuthContext := mkAuthContext {
  au_bearer : option str;
  au_current : option Session;
  au_team_probe : option bool;
}.

Record AuthSnapshot := mkAuthSnapshot { authenticated : bool; has_any_team_membership : bool }.

Definition snapshot (a : AuthContext) : AuthSnapshot :=
  mkAuthSnapshot (bool_decide (is_Some (au_bearer a))) (default false (au_team_probe a)).

Definition try_refresh (a : AuthContext) : bool := bool_decide (is_Some (au_bearer a)).

Definition identity (parse_uuid : str → option str) (a : AuthContext)
    : option (str * str * option str) :=
  session ← au_current a;
  ws ← ss_workspace_id session ≫= parse_uuid;
  acc ← ss_account_id session ≫= parse_uuid;
  Some (ws, acc, None).

(** ** The scope gate *)

Record ScopeDecision := mkDecision {
  d_publish : bool;
  d_scope : option Scope;
  d_warn_reason : option str;
}.

Definition scope_label (d : ScopeDecision) : str :=
  match d_scope d with
  | Some Public => #"public"
  | Some Team => #"team"
  | Some Private | None => #"private"
  end.

(** The keys that have been warned about. *)
Abbreviation warned := (gset str) (only parsing).

Definition warn_once (artifact_id reason message : str) (w : warned) : option str * warned :=
  let key := artifact_id ++ #":" ++ reason in
  if decide (key ∈ w) then (None, w) else (Some message, {[key]} ∪ w).

Definition dropped (scope : option Scope) (r : option str * warned) : ScopeDecision * warned :=
  (mkDecision false scope r.1, r.2).

Definition decide_team (scope : option Scope) (auth : AuthSnapshot) (event_type artifact_id : str)
    (w : warned) : ScopeDecision * warned :=
  if negb (authenticated auth) then
    dropped scope (warn_once artifact_id #"team-no-auth"
      (#"event " ++ event_type ++ #": scope=team declared but session is not authenticated; run 'orkia auth login' first") w)
  else if negb (has_any_team_membership auth) then
    dropped scope (warn_once artifact_id #"team-no-membership"
      (#"event " ++ event_type ++ #": scope=team declared but you are not a member of any team; run 'orkia team join <invite>' first") w)
  else (mkDecision true scope None, w).

Definition decide_public (scope : option Scope) (auth : AuthSnapshot) (event_type artifact_id : str)
    (w : warned) : ScopeDecision * warned :=
  if negb (authenticated auth) then
    dropped scope (warn_once artifact_id #"public-no-auth"
      (#"event " ++ event_type ++ #": scope=public declared but session is not authenticated; run 'orkia auth login' first") w)
  else (mkDecision true scope None, w).

Definition gate_decide (auth : AuthContext) (raw : option str) (event_type artifact_id : str)
    (w : warned) : ScopeDecision * warned :=
  match raw, raw ≫= scope_parse with
  | Some s, None =>
      dropped None (warn_once artifact_id #"malformed-scope"
        (#"malformed scope '" ++ s ++ #"' on event " ++ event_type ++ #"; treating as private") w)
  | _, scope =>
      match default Private scope with
      | Private => (mkDecision false scope None, w)
      | Team => decide_team scope (snapshot auth) event_type artifact_id w
      | Public => decide_public scope (snapshot auth) event_type artifact_id w
      end
  end.

Definition seal_scope (r : SealRecord) : option str := jget #"scope" (sr_detail r) ≫= as_str.

Definition evaluate_seal (auth : AuthContext) (r : SealRecord) (artifact_id : str) (w : warned)
    : ScopeDecision * warned :=
  gate_decide auth (seal_scope r) (sr_event_type r) artifact_id w.

Definition envelope_scope (e : JournalEnvelope) : option str :=
  obj_get #"scope" (je_extra e) ≫= as_str.

(** The event type is named by its JSON text, quotes included. *)
Definition evaluate_journal (auth : AuthContext) (e : JournalEnvelope) (artifact_id : str)
    (w : warned) : ScopeDecision * warned :=
  gate_decide auth (envelope_scope e)
    ([chr_dquote] ++ event_type_str (je_event_type e) ++ [chr_dquote]) artifact_id w.

(** ** Lines *)

Record PushLine := mkPushLine { pl_entity_type : str; pl_data : json }.

#[export] Instance PushLine_eq_dec : EqDecision PushLine.
Proof. solve_decision. Defined.

Definition push_json (l : PushLine) : json :=
  json_obj [(#"entity_type", JStr (pl_entity_type l)); (#"data", pl_data l)].

(** [as i32], [as i64]. *)
Definition as_signed (bits : Z) (z : Z) : Z :=
  ((z + 2 ^ (bits - 1)) mod 2 ^ bits - 2 ^ (bits - 1))%Z.

Definition json_opt_int (o : option Z) : json := match o with Some z => JInt z | None => JNull end.

Definition extra_str (e : JournalEnvelope) (key : str) : option str :=
  obj_get key (je_extra e) ≫= as_str.

Definition to_local_seal_push (id chain_id : str) (r : SealRecord) (workspace_id account_id : str)
    (team_id : option str) (label : str) : PushLine :=
  let content :=
    [(#"event_type", JStr (sr_event_type r)); (#"timestamp", JStr (sr_timestamp r));
     (#"detail", sr_detail r); (#"scope", JStr label)]
    ++ match sr_rfc_id r with Some rfc => [(#"rfc_id", JStr rfc)] | None => [] end in
  mkPushLine #"local_seal_record"
    (json_obj [(#"id", JStr id); (#"workspace_id", JStr workspace_id);
               (#"account_id", JStr account_id); (#"team_id", json_opt_str team_id);
               (#"chain_id", JStr chain_id); (#"seq", JInt (as_signed 64 (Z.of_N (sr_seq r))));
               (#"parent_hash", JStr (sr_prev_hash r)); (#"content_hash", JStr (sr_hash r));
               (#"content", json_obj content)]).

(** The column of a journal event; the payload spells two of them without [_]. *)
Definition push_event_type (t : EventType) : str :=
  match t with
  | ETHook => #"hook"
  | ETApproval => #"approval"
  | ETLifecycle => #"lifecycle"
  | ETShell => #"shell"
  | ETTell => #"tell"
  | ETSeal => #"seal"
  | ETScopeChange => #"scope_change"
  | ETKnowledgeAccess => #"knowledge_access"
  end.

Section translate.
Context (parse_uuid parse_rfc3339 : str → option str) (as_f32 : json → option json).

Definition extra_time (e : JournalEnvelope) (key : str) : option str :=
  extra_str e key ≫= parse_rfc3339.

Definition to_public_job_push (now : str) (e : JournalEnvelope) (workspace_id : str)
    : option PushLine :=
  id ← extra_str e #"id" ≫= parse_uuid;
  project ← extra_str e #"project";
  Some (mkPushLine #"public_job"
    (json_obj [(#"id", JStr id); (#"workspace_id", JStr workspace_id);
       (#"project_name", JStr project);
       (#"agent_name", JStr (default [] (extra_str e #"agent_name")));
       (#"model", JStr (default [] (extra_str e #"model")));
       (#"status", JStr (default #"running" (extra_str e #"status")));
       (#"task_summary", JStr (default [] (extra_str e #"task_summary")));
       (#"started_at", JStr (default now (extra_time e #"started_at")));
       (#"completed_at", json_opt_str (extra_time e #"completed_at"));
       (#"runtime_ms", json_opt_int (obj_get #"runtime_ms" (je_extra e) ≫= as_i64));
       (#"exit_code",
          json_opt_int (as_signed 32 <$> (obj_get #"exit_code" (je_extra e) ≫= as_i64)))])).

(** The bit patterns of 1.0 and 0.0. *)
Definition f64_one : N := 4607182418800017408.
Definition f64_zero : N := 0.

Definition to_public_routing_push (now : str) (e : JournalEnvelope) (workspace_id : str)
    : option PushLine :=
  id ← extra_str e #"id" ≫= parse_uuid;
  project ← extra_str e #"project";
  Some (mkPushLine #"public_routing_decision"
    (json_obj [(#"id", JStr id); (#"workspace_id", JStr workspace_id);
       (#"project_name", JStr project);
       (#"intent", JStr (default [] (extra_str e #"intent")));
       (#"target_agent_name", JStr (default [] (extra_str e #"target_agent_name")));
       (#"target_model", JStr (default [] (extra_str e #"target_model")));
       (#"confidence", default (JFloat f64_one) (obj_get #"confidence" (je_extra e) ≫= as_f32));
       (#"trust_at_routing",
          default (JFloat f64_zero) (obj_get #"trust_at_routing" (je_extra e) ≫= as_f32));
       (#"job_id", json_opt_str (extra_str e #"job_id" ≫= parse_uuid));
       (#"routed_at", JStr (default now (extra_time e #"routed_at")))])).

Definition to_journal_push (id now : str) (e : JournalEnvelope) (workspace_id account_id : str)
    (team_id : option str) (label : str) : PushLine :=
  mkPushLine #"journal_event"
    (json_obj [(#"id", JStr id); (#"workspace_id", JStr workspace_id);
       (#"account_id", JStr account_id); (#"team_id", json_opt_str team_id);
       (#"seq", JInt (default 0%Z (obj_get #"seq" (je_extra e) ≫= as_i64)));
       (#"event_type", JStr (push_event_type (je_event_type e)));
       (#"source", json_opt_str (je_source e)); (#"agent_name", json_opt_str (je_agent e));
       (#"job_id", json_opt_int ((λ j, as_signed 32 (Z.of_N j)) <$> je_job_id e));
       (#"event", json_opt_str (je_event e)); (#"tool", json_opt_str (je_tool e));
       (#"target", json_opt_str (je_target e)); (#"exit_code", json_opt_int (je_exit_code e));
       (#"action", json_opt_str (je_action e)); (#"risk", json_opt_str (je_risk e));
       (#"description", json_opt_str (je_description e));
       (#"message", json_opt_str (je_message e)); (#"payload", envelope_to_json e);
       (#"timestamp", JStr (default now (parse_rfc3339 (je_timestamp e))));
       (#"scope", JStr label)]).

End translate.

(** ** Batches *)

Record SealAdvance := mkSealAdvance {
  sa_chain_id : str;
  sa_last_seq : N;
  sa_last_hash : str;
  sa_byte_end : N;
}.

Record Batch := mkBatch {
  b_lines : list PushLine;
  b_seal_advances : list SealAdvance;
  b_bytes : N;
}.

Definition batch_default : Batch := mkBatch [] [] 0.

Record Batcher := mkBatcher {
  ba_pending : Batch;
  ba_held : list Batch;
  ba_max_events : N;
  ba_max_bytes : N;
  ba_flush_interval : N;
  ba_first_event : option N;
  ba_held_cap : N;
}.

Definition batcher_new (max_events max_bytes flush_interval : N) : Batcher :=
  mkBatcher batch_default [] max_events max_bytes flush_interval None 32.

Section batch.
Context `{!JsonText}.

Definition serialized_size (l : PushLine) : N := byte_len (json_text (push_json l)).

Definition add_journal (l : PushLine) (b : Batch) : Batch :=
  mkBatch (b_lines b ++ [l]) (b_seal_advances b) (b_bytes b + serialized_size l).

(** The last advance of a chain replaces the earlier ones. *)
Definition add_seal_advance (a : SealAdvance) (line : option PushLine) (b : Batch) : Batch :=
  let b := match line with Some l => add_journal l b | None => b end in
  mkBatch (b_lines b)
    (filter (λ x, sa_chain_id x ≠ sa_chain_id a) (b_seal_advances b) ++ [a]) (b_bytes b).

Definition to_ndjson (b : Batch) : str :=
  join [chr_nl] (map (λ l, json_text (push_json l)) (b_lines b)).

Definition set_pending (p : Batch) (first : option N) (b : Batcher) : Batcher :=
  mkBatcher p (ba_held b) (ba_max_events b) (ba_max_bytes b) (ba_flush_interval b) first
    (ba_held_cap b).

Definition set_batches (held : list Batch) (b : Batcher) : Batcher :=
  mkBatcher (ba_pending b) held (ba_max_events b) (ba_max_bytes b) (ba_flush_interval b)
    (ba_first_event b) (ba_held_cap b).

Definition first_or (now : N) (b : Batcher) : option N := Some (default now (ba_first_event b)).

Definition push_seal (now : N) (a : SealAdvance) (line : PushLine) (b : Batcher) : Batcher :=
  set_pending (add_seal_advance a (Some line) (ba_pending b)) (first_or now b) b.

(** The clock of the flush interval is not started. *)
Definition note_dropped_seal (a : SealAdvance) (b : Batcher) : Batcher :=
  set_pending (add_seal_advance a None (ba_pending b)) (ba_first_event b) b.

Definition push_journal (now : N) (line : PushLine) (b : Batcher) : Batcher :=
  set_pending (add_journal line (ba_pending b)) (first_or now b) b.

Definition has_pending (b : Batcher) : bool :=
  negb (is_empty (b_lines (ba_pending b))) || negb (is_empty (b_seal_advances (ba_pending b)))
  || negb (is_empty (ba_held b)).

Definition should_flush (now : N) (b : Batcher) : bool :=
  let p := ba_pending b in
  if negb (is_empty (ba_held b)) then true
  else if is_empty (b_lines p) && is_empty (b_seal_advances p) then false
  else if (ba_max_events b <=? N.of_nat (length (b_lines p)))%N then true
  else if (ba_max_bytes b <=? b_bytes p)%N then true
  else match ba_first_event b with
       | Some first => (ba_flush_interval b <=? now - first)%N
       | None => false
       end.

Definition batcher_take (b : Batcher) : Batch * Batcher :=
  match ba_held b with
  | h :: held => (h, set_batches held b)
  | [] => (ba_pending b, set_pending batch_default None b)
  end.

(** Beyond the cap the first held batch is dropped. *)
Definition requeue (batch : Batch) (b : Batcher) : Batcher :=
  let held := if (ba_held_cap b <=? N.of_nat (length (ba_held b)))%N then drop 1 (ba_held b)
              else ba_held b in
  set_batches (batch :: held) b.

End batch.

(** ** Transport *)

(** One attempt: the request failed, or a response came back. *)
Inductive Response :=
| TransportError
| HttpResponse (status : N) (accepted : option N) (retry_after : option N).

Inductive AttemptOutcome := AOk (accepted : N) | ADropped | AAuthExpired | ARetry | ARetryAfter (secs : N).

Inductive PushOutcome := Accepted (accepted : N) | Dropped | AuthExpired.

Inductive push_error := PushFailed | RetryAfterLimit.

Definition MAX_RETRIES : N := 6.
Definition BACKOFF_STEPS : list N := [1; 2; 4; 8; 16; 30]%N.

Definition classify (r : Response) : AttemptOutcome :=
  match r with
  | TransportError => ARetry
  | HttpResponse status accepted retry_after =>
      if (200 <=? status)%N && (status <? 300)%N then AOk (default 0%N accepted)
      else if (status =? 401)%N then AAuthExpired
      else if (status =? 400)%N || (status =? 403)%N then ADropped
      else if (status =? 503)%N then ARetryAfter (default 5%N retry_after)
      else if (500 <=? status)%N && (status <? 600)%N then ARetry
      else ADropped
  end.

(** What the world answers attempt by attempt: the session store (before the
    request, and after a 401) and the server. *)
Record Attempt := mkAttempt {
  at_auth : AuthContext;
  at_response : Response;
  at_refresh : AuthContext;
}.

(** The requests sent (bearer, key and body), the seconds slept, and the outcome. *)
Record PushResult := mkPushResult {
  pr_requests : list (str * str * str);
  pr_slept : N;
  pr_outcome : result push_error PushOutcome;
}.

Definition sent (req : str * str * str) (secs : N) (r : PushResult) : PushResult :=
  mkPushResult (req :: pr_requests r) (secs + pr_slept r) (pr_outcome r).

(** The loop, with [fuel] attempts left ([MAX_RETRIES] are enough). *)
Fixpoint push_loop (fuel : nat) (world : nat → Attempt) (key body : str) (n : nat) (attempt : N)
    : option PushResult :=
  match fuel with
  | O => None
  | S fuel' =>
      let w := world n in
      match au_bearer (at_auth w) with
      | None => Some (mkPushResult [] 0 (Ok AuthExpired))
      | Some bearer =>
          let req := (bearer, key, body) in
          let stop r := Some (mkPushResult [req] 0 r) in
          let attempt' := (attempt + 1)%N in
          match classify (at_response w) with
          | AOk accepted => stop (Ok (Accepted accepted))
          | ADropped => stop (Ok Dropped)
          | AAuthExpired =>
              if try_refresh (at_refresh w) then
                if (MAX_RETRIES <=? attempt')%N then stop (Ok AuthExpired)
                else sent req 0 <$> push_loop fuel' world key body (S n) attempt'
              else stop (Ok AuthExpired)
          | ARetry =>
              if (MAX_RETRIES <=? attempt')%N then stop (Err PushFailed)
              else sent req (default 30%N (BACKOFF_STEPS !! N.to_nat attempt))
                     <$> push_loop fuel' world key body (S n) attempt'
          | ARetryAfter secs =>
              if (MAX_RETRIES <=? attempt')%N then stop (Err RetryAfterLimit)
              else sent req secs <$> push_loop fuel' world key body (S n) attempt'
          end
      end
  end.

Definition push_batch `{!JsonText} (world : nat → Attempt) (key : str) (b : Batch)
    : option PushResult :=
  if is_empty (b_lines b) then Some (mkPushResult [] 0 (Ok (Accepted 0)))
  else push_loop (N.to_nat MAX_RETRIES) world key (to_ndjson b) 0 0.

(** ** The cursor *)

Record ChainCursor := mkChainCursor { cc_chain_id : str; cc_offset : N; cc_last_hash : str }.

#[export] Instance ChainCursor_eq_dec : EqDecision ChainCursor.
Proof. solve_decision. Defined.

Abbreviation SealCursor := (gmap str ChainCursor) (only parsing).

Definition cursor_set (chain_id : str) (offset : N) (last_hash : str) (c : SealCursor) : SealCursor :=
  <[chain_id := mkChainCursor chain_id offset last_hash]> c.

Definition advance_all (advs : list SealAdvance) (c : SealCursor) : SealCursor :=
  foldl (λ c a, cursor_set (sa_chain_id a) (sa_byte_end a) (sa_last_hash a) c) c advs.

Definition cursor_advance (b : Batch) (c : SealCursor) : SealCursor :=
  advance_all (b_seal_advances b) c.

Definition SEAL_CURSOR_FILE : str := #"seal.cursor".

Definition cursor_path (state_dir : path) : path := state_dir ++ [SEAL_CURSOR_FILE].

Definition cursor_tmp_path (state_dir : path) : path := state_dir ++ [SEAL_CURSOR_FILE ++ #".tmp"].

Section cursor.
Context `{!Serde ChainCursor}.

Definition load_line (c : SealCursor) (line : str) : SealCursor :=
  let line := trim line in
  if is_empty line then c
  else match de line with
       | Ok cc => <[cc_chain_id cc := cc]> c
       | Err _ => c
       end.

Definition load_or_default (state_dir : path) (s : Fs) : SealCursor * Fs :=
  match read_to_string (cursor_path state_dir) s with
  | (Ok text, s') => (foldl load_line ∅ (lines text), s')
  | (Err _, s') => (∅, s')
  end.

(** [for c in self.chains.values()]; the table's order is that of [map_to_list]. *)
Fixpoint write_cursors (p : path) (cs : list ChainCursor) : M Fs io_error unit :=
  match cs with
  | [] => mret ()
  | c :: cs' =>
      match ser c with
      | Ok line => write_all p (line ++ [chr_nl]);; write_cursors p cs'
      | Err e => throw (OtherIo e)
      end
  end.

Definition persist_inner (state_dir : path) (c : SealCursor) : M Fs io_error unit :=
  create_dir_all;;
  file_create (cursor_tmp_path state_dir);;
  write_cursors (cursor_tmp_path state_dir) (map snd (map_to_list c));;
  sync_all;;
  rename (cursor_tmp_path state_dir) (cursor_path state_dir).

(** A failure is logged. *)
Definition persist (state_dir : path) (c : SealCursor) (s : Fs) : Fs := (persist_inner state_dir c s).2.

End cursor.

(** ** The source *)

Record SealEvent := mkSealEvent { se_chain_id : str; se_record : SealRecord; se_byte_end : N }.

Record ChainState := mkChainState {
  cs_chain_id : str;
  cs_path : path;
  cs_offset : N;
  cs_last_hash : str;
}.

Record SealSource := mkSealSource {
  so_root : path;
  so_chains : gmap str ChainState;
  so_last_rescan : option N;
  so_rescan_interval : N;
  so_rescan_pending : bool;
}.

(** The directories inside a directory that have something below them. *)
Definition subdirs (dir : path) (m : gmap path str) : list str :=
  remove_dups (omap (λ p, if bool_decide (take (length dir) p = dir) then
                            match drop (length dir) p with name :: _ :: _ => Some name | _ => None end
                          else None) (map fst (map_to_list m))).

(** [read_dir] of a directory that cannot be read yields nothing. *)
Definition read_subdirs (dir : path) (s : Fs) : list str * Fs :=
  match syscall (λ s, (Ok (subdirs dir (fs_files s)), s)) s with
  | (Ok names, s') => (names, s')
  | (Err _, s') => ([], s')
  end.

Definition SEAL_FILE : str := #"seal.jsonl".

(** The chain of a directory, if its file is there. *)
Definition chain_in (id : str) (dir : path) (s : Fs) : list (str * path) :=
  let file := dir ++ [SEAL_FILE] in
  if bool_decide (is_Some (fs_files s !! file)) then [(id, file)] else [].

Fixpoint discover_jobs (root : path) (agents : list str) (s : Fs) : list (str * path) * Fs :=
  match agents with
  | [] => ([], s)
  | agent :: agents' =>
      let jobs_dir := root ++ [ #"agents"; agent; #"jobs"] in
      let '(jobs, s1) := read_subdirs jobs_dir s in
      let found := jobs ≫= λ job, chain_in (#"job:" ++ agent ++ #"/" ++ job) (jobs_dir ++ [job]) s1 in
      let '(rest, s2) := discover_jobs root agents' s1 in
      (found ++ rest, s2)
  end.

Definition discover_chains (root : path) (s : Fs) : list (str * path) * Fs :=
  let workspace := chain_in #"workspace" (root ++ [ #"workspace"]) s in
  let '(names, s1) := read_subdirs (root ++ [ #"projects"]) s in
  let projects := names ≫= λ name, chain_in name (root ++ [ #"projects"; name]) s1 in
  let '(agents, s2) := read_subdirs (root ++ [ #"agents"]) s1 in
  let '(jobs, s3) := discover_jobs root agents s2 in
  (workspace ++ projects ++ jobs, s3).

(** A chain the cursor knows starts where the cursor is; later ones win. *)
Definition seed_from_cursor (cursor : SealCursor) (found : list (str * path)) : gmap str ChainState :=
  foldl (λ m '(id, p),
           let '(offset, hash) := match cursor !! id with
                                  | Some c => (cc_offset c, cc_last_hash c)
                                  | None => (0%N, [])
                                  end in
           <[id := mkChainState id p offset hash]> m) ∅ found.

(** A chain found later starts at its first byte; known ones stay. *)
Definition add_found (found : list (str * path)) (chains : gmap str ChainState) : gmap str ChainState :=
  foldl (λ m '(id, p), match m !! id with
                       | Some _ => m
                       | None => <[id := mkChainState id p 0 []]> m
                       end) chains found.

Definition source_new (root : path) (cursor : SealCursor) (s : Fs) : SealSource * Fs :=
  let '(found, s') := discover_chains root s in
  (mkSealSource root (seed_from_cursor cursor found) None 1000 true, s').

Definition initial_scan (src : SealSource) (s : Fs) : SealSource * Fs :=
  if bool_decide (so_chains src = ∅) then
    let '(found, s') := discover_chains (so_root src) s in
    (mkSealSource (so_root src) (add_found found ∅) (so_last_rescan src) (so_rescan_interval src)
       (so_rescan_pending src), s')
  else (src, s).

(** [seek] to a byte: the bytes of a character that is cut, and the text after it. *)
Fixpoint seek_text (off : N) (s : str) : N * str :=
  match s with
  | [] => (0%N, [])
  | c :: s' =>
      if (off =? 0)%N then (0%N, s)
      else if (off <? utf8_len c)%N then ((utf8_len c - off)%N, s')
      else seek_text (off - utf8_len c) s'
  end.

(** The lines that end in a line break. *)
Fixpoint complete_lines (cur s : str) : list str :=
  match s with
  | [] => []
  | c :: s' => if (c =? chr_nl)%N then cur :: complete_lines [] s' else complete_lines (cur ++ [c]) s'
  end.

Section source.
Context `{!Serde SealRecord}.

Definition set_offset (off : N) (st : ChainState) : ChainState :=
  mkChainState (cs_chain_id st) (cs_path st) off (cs_last_hash st).

Definition set_hash (h : str) (st : ChainState) : ChainState :=
  mkChainState (cs_chain_id st) (cs_path st) (cs_offset st) h.

(** One line, ending at byte [consumed]. A blank or malformed one is skipped. *)
Definition tail_line (line : str) (consumed : N) (st : ChainState) : ChainState * list SealEvent :=
  let text := trim line in
  if is_empty text then (st, [])
  else match de text with
       | Ok r => (set_hash (sr_hash r) st, [mkSealEvent (cs_chain_id st) r consumed])
       | Err _ => (st, [])
       end.

(** The loop over the lines; [cut] bytes of a cut character make the first one
    malformed. A failing read ends it. *)
Fixpoint tail_loop (cut : N) (ls : list str) (consumed : N) (st : ChainState) (s : Fs)
    : ChainState * list SealEvent * Fs :=
  match ls with
  | [] => (set_offset consumed st, [], s)
  | line :: ls' =>
      match next_fault s with
      | (Fault _ _, s') => (set_offset consumed st, [], s')
      | (NoFault, s') =>
          let consumed' := (consumed + cut + byte_len line + 1)%N in
          let '(st1, evs) := if (0 <? cut)%N then (st, []) else tail_line line consumed' st in
          let '(st2, evs', s2) := tail_loop 0 ls' consumed' st1 s' in
          (st2, evs ++ evs', s2)
      end
  end.

Definition seek_call : M Fs io_error unit := syscall (mret ()).

Definition tail_chain (st : ChainState) (s : Fs) : ChainState * list SealEvent * Fs :=
  match file_open (cs_path st) s with
  | (Err _, s1) => (st, [], s1)
  | (Ok _, s1) =>
      match file_len (cs_path st) s1 with
      | (Err _, s2) => (st, [], s2)
      | (Ok len, s2) =>
          if (len <=? cs_offset st)%N then (st, [], s2)
          else match seek_call s2 with
               | (Err _, s3) => (st, [], s3)
               | (Ok _, s3) =>
                   let '(cut, rest) := seek_text (cs_offset st)
                                         (default [] (fs_files s3 !! cs_path st)) in
                   tail_loop cut (complete_lines [] rest) (cs_offset st) st s3
               end
      end
  end.

Fixpoint tail_all (ids : list (str * ChainState)) (chains : gmap str ChainState) (s : Fs)
    : gmap str ChainState * list SealEvent * Fs :=
  match ids with
  | [] => (chains, [], s)
  | (id, st) :: ids' =>
      let '(st', evs, s1) := tail_chain st s in
      let '(chains', evs', s2) := tail_all ids' (<[id := st']> chains) s1 in
      (chains', evs ++ evs', s2)
  end.

(** [poll] at [now]; [signalled] when the watcher reported a change. *)
Definition poll (now : N) (signalled : bool) (src : SealSource) (s : Fs)
    : SealSource * list SealEvent * Fs :=
  let due := match so_last_rescan src with
             | Some t => (so_rescan_interval src <=? now - t)%N
             | None => true
             end in
  let rescan := so_rescan_pending src || signalled || due in
  let '(chains, last, s1) :=
    if rescan then
      let '(found, s1) := discover_chains (so_root src) s in
      (add_found found (so_chains src), Some now, s1)
    else (so_chains src, so_last_rescan src, s) in
  let '(chains', evs, s2) := tail_all (map_to_list chains) chains s1 in
  (mkSealSource (so_root src) chains' last (so_rescan_interval src) false, evs, s2).

End source.

(** ** The gate *)

(** What the table of [scope.rs] lets out. *)
Definition may_leave (auth : AuthContext) (scope : option str) : Prop :=
  is_Some (au_bearer auth)
  ∧ (scope = Some #"public" ∨ (scope = Some #"team" ∧ au_team_probe auth = Some true)).

#[export] Instance may_leave_dec auth scope : Decision (may_leave auth scope).
Proof. unfold may_leave. apply _. Defined.

Lemma scope_parse_inv s sc :
  scope_parse s = Some sc →
  s = match sc with Private => #"private" | Team => #"team" | Public => #"public" end.
Proof. unfold scope_parse. repeat case_decide; by intros [= <-]. Qed.

Lemma gate_publish auth raw ev art w :
  d_publish (gate_decide auth raw ev art w).1 = bool_decide (may_leave auth raw).
Proof.
  symmetry. unfold gate_decide. destruct raw as [s|]; cbn [mbind option_bind].
  2: { apply bool_decide_eq_false. intros [_ [?|[? _]]]; done. }
  destruct (scope_parse s) as [sc|] eqn:E.
  - apply scope_parse_inv in E as ->. destruct sc; cbn [default from_option id].
    + apply bool_decide_eq_false. by intros [_ [[=]|[[=] _]]].
    + unfold decide_team, snapshot. simpl. destruct (au_bearer auth) as [b|] eqn:Eb; simpl.
      * destruct (au_team_probe auth) as [[]|] eqn:Et; simpl.
        { apply bool_decide_eq_true. split; [by rewrite Eb|right; done]. }
        all: apply bool_decide_eq_false; intros [_ [[=]|[_ ?]]]; congruence.
      * apply bool_decide_eq_false. intros [[? ?] _]. congruence.
    + unfold decide_public, snapshot. simpl. destruct (au_bearer auth) as [b|] eqn:Eb; simpl.
      * apply bool_decide_eq_true. split; [by rewrite Eb|by left].
      * apply bool_decide_eq_false. intros [[? ?] _]. congruence.
  - apply bool_decide_eq_false. intros [_ [[= ->]|[[= ->] _]]]; done.
Qed.

Lemma gate_label auth raw ev art w :
  d_publish (gate_decide auth raw ev art w).1 = true →
  raw = Some (scope_label (gate_decide auth raw ev art w).1).
Proof.
  unfold gate_decide. destruct raw as [s|]; [|done]. cbn [mbind option_bind].
  destruct (scope_parse s) as [sc|] eqn:E; [|done]. apply scope_parse_inv in E as ->.
  destruct sc; cbn [default from_option id]; [done|unfold decide_team|unfold decide_public];
    by repeat case_match.
Qed.

(** A reason is given once per artifact. *)
Lemma warn_once_spec art reason msg w :
  let '(r, w') := warn_once art reason msg w in
  (is_Some r ↔ art ++ #":" ++ reason ∉ w) ∧ w' = {[art ++ #":" ++ reason]} ∪ w.
Proof.
  unfold warn_once. case_decide as E; (split; [|set_solver]); split; try done; by intros [? ?].
Qed.

(** ** Retries *)

Definition retryable (r : Response) : bool :=
  match classify r with AOk _ | ADropped => false | _ => true end.

(** From attempt [n] on, at most [max] requests; every one but the last is
    repeated for a reason, and only a success is accepted. *)
Record push_ok (world : nat → Attempt) (key body : str) (max n : nat) (r : PushResult) : Prop := {
  push_max : length (pr_requests r) ≤ max;
  push_same : Forall (λ q, q.1.2 = key ∧ q.2 = body) (pr_requests r);
  push_retried i : S i < length (pr_requests r) → retryable (at_response (world (n + i))) = true;
  push_accepted k : pr_outcome r = Ok (Accepted k) →
    ∃ i, length (pr_requests r) = S i ∧ classify (at_response (world (n + i))) = AOk k;
}.

Lemma push_ok_stop world key body max n bearer o :
  (∀ k, o = Ok (Accepted k) → classify (at_response (world n)) = AOk k) →
  push_ok world key body (S max) n (mkPushResult [(bearer, key, body)] 0 o).
Proof.
  intros Ho. split; simpl; [lia|by repeat constructor|intros; lia|].
  intros k Hk. exists 0. split; [done|]. rewrite Nat.add_0_r. by apply Ho.
Qed.

Lemma push_ok_sent world key body max n bearer secs r :
  retryable (at_response (world n)) = true → push_ok world key body max (S n) r →
  push_ok world key body (S max) n (sent (bearer, key, body) secs r).
Proof.
  intros Hr [Hl Hs Hre Hacc]. split; simpl.
  - lia.
  - by constructor.
  - intros i Hi. destruct i as [|i]; [by rewrite Nat.add_0_r|].
    replace (n + S i) with (S n + i) by lia. apply Hre. lia.
  - intros k Ho. destruct (Hacc k Ho) as (i & Hi & Hc). exists (S i). split; [by f_equal|].
    by replace (n + S i) with (S n + i) by lia.
Qed.

Lemma push_loop_spec fuel world key body n attempt :
  (N.of_nat fuel + attempt = MAX_RETRIES)%N → (0 < fuel) →
  ∃ r, push_loop fuel world key body n attempt = Some r ∧ push_ok world key body fuel n r.
Proof.
  revert n attempt. induction fuel as [|fuel IH]; intros n attempt Hf Hpos; [lia|]. cbn [push_loop].
  destruct (au_bearer (at_auth (world n))) as [bearer|].
  2: { eexists. split; [done|]. split; simpl; [lia|constructor|intros; lia|done]. }
  assert (retryable (at_response (world n)) = true → (MAX_RETRIES <=? attempt + 1)%N = false →
    ∀ secs, ∃ r, sent (bearer, key, body) secs <$> push_loop fuel world key body (S n) (attempt + 1) = Some r
                 ∧ push_ok world key body (S fuel) n r) as Hgo.
  { intros Hr Hm secs. apply N.leb_gt in Hm.
    destruct (IH (S n) (attempt + 1)%N) as (r & -> & Hok); [lia|lia|].
    eexists. split; [done|]. by apply push_ok_sent. }
  unfold retryable in Hgo.
  destruct (classify (at_response (world n))) eqn:Ec; simpl; repeat case_match;
    try (by apply Hgo); eexists; (split; [done|]); apply push_ok_stop; congruence.
Qed.

Lemma push_spec `{!JsonText} world key b :
  ∃ r, push_batch world key b = Some r
  ∧ (b_lines b = [] ∧ pr_requests r = [] ∨ push_ok world key (to_ndjson b) 6 0 r).
Proof.
  unfold push_batch. destruct (b_lines b) as [|l ls] eqn:El; [by eexists; split; [done|left]|].
  cbn [is_empty]. destruct (push_loop_spec (N.to_nat MAX_RETRIES) world key (to_ndjson b) 0 0)
    as (r & Hr & Hok); [done|vm_compute; lia|]. exists r. by split; [|right].
Qed.

Lemma push_total `{!JsonText} world key b : is_Some (push_batch world key b).
Proof. destruct (push_spec world key b) as (r & -> & _). by eexists. Qed.

Lemma push_body `{!JsonText} world key b r :
  push_batch world key b = Some r → Forall (λ q, q.2 = to_ndjson b) (pr_requests r).
Proof.
  intros Hr. destruct (push_spec world key b) as (r' & Hr' & Hok). rewrite Hr in Hr'. injection Hr' as <-.
  destruct Hok as [[_ ->]|[_ Hs _ _]]; [constructor|]. eapply list.Forall_impl; [done|]. by intros q [_ ?].
Qed.

(** pushing a batch ends, whatever the session store and the server answer: after
    at most six requests, all with the same idempotency key and the whole batch
    as body; only a request answered by an expired session, a transport error or
    a server error is repeated, and the batch counts as accepted only when the
    last request was answered by a success, or the batch has no line. *)
Theorem push_batch_bounded `{!JsonText} world key b :
  ∃ r, push_batch world key b = Some r
  ∧ length (pr_requests r) ≤ 6
  ∧ Forall (λ q, q.1.2 = key ∧ q.2 = to_ndjson b) (pr_requests r)
  ∧ (∀ i, S i < length (pr_requests r) → retryable (at_response (world i)) = true)
  ∧ (∀ k, pr_outcome r = Ok (Accepted k) →
       b_lines b = [] ∨ ∃ i, length (pr_requests r) = S i ∧ classify (at_response (world i)) = AOk k).
Proof.
  destruct (push_spec world key b) as (r & Hr & Hok). exists r. split; [done|].
  destruct Hok as [[Hb Hq]|[Hl Hk Hre Hacc]].
  - rewrite Hq. split_and!; simpl; [lia|constructor|intros; lia|by left].
  - split_and!; [done|done|done|]. intros k Ho. right. by apply Hacc.
Qed.

(** ** The cursor *)

(** Coalescing the advances of a chain does not change what a batch does to the cursor. *)
Lemma advance_all_agree advs c1 c2 id :
  (∀ k, k ≠ id → c1 !! k = c2 !! k) →
  ∀ k, k ≠ id → advance_all (filter (λ x, sa_chain_id x ≠ id) advs) c1 !! k = advance_all advs c2 !! k.
Proof.
  revert c1 c2. induction advs as [|a advs IH]; intros c1 c2 Hc k Hk; [by apply Hc|].
  rewrite filter_cons. unfold advance_all in *. case_decide as Ha; cbn [foldl].
  - apply IH; [|done]. intros k' Hk'. unfold cursor_set.
    destruct (decide (k' = sa_chain_id a)) as [->|]; [by rewrite !lookup_insert_eq|].
    rewrite !lookup_insert_ne by done. by apply Hc.
  - apply IH; [|done]. intros k' Hk'. unfold cursor_set. rewrite lookup_insert_ne; [by apply Hc|].
    congruence.
Qed.

Lemma advance_coalesced advs a c :
  advance_all (filter (λ x, sa_chain_id x ≠ sa_chain_id a) advs ++ [a]) c = advance_all (advs ++ [a]) c.
Proof.
  unfold advance_all at 1 2. rewrite !foldl_app. cbn [foldl]. apply map_eq. intros k. unfold cursor_set.
  destruct (decide (k = sa_chain_id a)) as [->|Hk]; [by rewrite !lookup_insert_eq|].
  rewrite !lookup_insert_ne by done. by apply (advance_all_agree advs c c (sa_chain_id a)).
Qed.

(** Every entry is filed under its own chain. *)
Definition keyed (c : SealCursor) : Prop := map_Forall (λ id cc, cc_chain_id cc = id) c.

Section cursor_proofs.
Context `{!Serde ChainCursor, !SerdeLaws ChainCursor}
  (ser_tight : ∀ (c : ChainCursor) t, ser c = Ok t → trim t = t).

Lemma load_line_ser c cc t : ser cc = Ok t → load_line c t = <[cc_chain_id cc := cc]> c.
Proof.
  intros Ht. unfold load_line. rewrite (ser_tight _ _ Ht).
  pose proof (ser_not_blank _ _ Ht) as Hb. rewrite (ser_tight _ _ Ht) in Hb.
  destruct t as [|x t]; [done|]. simpl. by rewrite (de_ser _ _ Ht).
Qed.

Lemma load_lines_ser l texts c :
  NoDup l.*1 → (∀ id cc, (id, cc) ∈ l → cc_chain_id cc = id) →
  Forall2 (λ cc t, ser cc = Ok t) l.*2 texts →
  foldl load_line c texts = list_to_map l ∪ c.
Proof.
  revert c texts. induction l as [|[id cc] l IH]; intros c texts Hnd Hk Hf; simpl in Hf.
  - apply Forall2_nil_inv_l in Hf as ->. simpl. by rewrite (left_id_L ∅ (∪)).
  - apply Forall2_cons_inv_l in Hf as (t & texts' & Ht & Hf & ->).
    apply list.NoDup_cons in Hnd as [Hid Hnd]. cbn [foldl]. rewrite (load_line_ser _ _ _ Ht).
    rewrite (Hk id cc) by by left. rewrite (IH _ _ Hnd); [|intros ? ? ?; apply Hk; by right|done].
    cbn [list_to_map foldr]. simpl. rewrite <- insert_union_r; [by rewrite insert_union_l|].
    by apply not_elem_of_list_to_map_1.
Qed.

(** The text of the temporary file, while the old cursor stays in place. *)
Lemma write_cursors_spec p q old cs :
  p ≠ q → ∀ t,
  hoare (λ s, fs_files s !! p = Some t ∧ fs_files s !! q = old) (write_cursors p cs)
    (λ _ s, ∃ texts, Forall2 (λ cc x, ser cc = Ok x) cs texts
       ∧ fs_files s !! p = Some (t ++ unlines texts) ∧ fs_files s !! q = old)
    (λ s, fs_files s !! q = old).
Proof.
  intros Hpq. induction cs as [|c cs IH]; intros t; cbn [write_cursors].
  - apply hoare_ret. intros s [Hp Hq]. exists []. simpl. rewrite app_nil_r. done.
  - destruct (ser c) as [line|e] eqn:Es; [|apply hoare_throw; by intros s [_ ?]].
    eapply (hoare_bind _ _ _ (λ _ s, fs_files s !! p = Some (t ++ line ++ [chr_nl])
                                    ∧ fs_files s !! q = old));
      [|intros []; eapply hoare_conseq; [apply (IH (t ++ line ++ [chr_nl]))|done| |done]].
    + intros s [Hp Hq]. unfold write_all. destruct (next_fault s) as [[|k msg] s1] eqn:E;
        apply next_fault_files in E; simpl; unfold append_text; rewrite E, Hp; simpl;
        rewrite ?lookup_insert_eq, ?lookup_insert_ne by done; done.
    + intros _ s (texts & Hf & Hp & Hq). exists (line :: texts).
      split_and!; [by constructor| |done]. rewrite Hp. unfold unlines. simpl. by rewrite <- !app_assoc.
Qed.

Lemma cursor_paths dir : cursor_tmp_path dir ≠ cursor_path dir.
Proof. unfold cursor_tmp_path, cursor_path. intros H%app_inv_head. done. Qed.

(** The lines of a cursor. *)
Definition cursor_texts (c : SealCursor) (texts : list str) : Prop :=
  Forall2 (λ cc x, ser cc = Ok x) (map snd (map_to_list c)) texts.

(** Written, not renamed yet. *)
Definition staged (dir : path) (c : SealCursor) (old : option str) (m : gmap path str) : Prop :=
  ∃ texts, cursor_texts c texts ∧ m !! cursor_tmp_path dir = Some (unlines texts)
           ∧ m !! cursor_path dir = old.

Lemma persist_inner_spec dir c old :
  hoare (λ s, fs_files s !! cursor_path dir = old) (persist_inner dir c)
    (λ _ s, ∃ texts, cursor_texts c texts ∧ fs_files s !! cursor_path dir = Some (unlines texts))
    (λ s, fs_files s !! cursor_path dir = old).
Proof.
  unfold persist_inner. pose proof (cursor_paths dir) as Hne.
  eapply (hoare_bind _ _ _ (λ _ s, fs_files s !! cursor_path dir = old));
    [apply (hoare_syscall _ (λ m, m !! cursor_path dir = old)); [by apply hoare_ret|done]|].
  intros _. cbn beta.
  eapply (hoare_bind _ _ _
            (λ _ s, fs_files s !! cursor_tmp_path dir = Some [] ∧ fs_files s !! cursor_path dir = old)).
  { apply (hoare_syscall _ (λ m, m !! cursor_path dir = old)); [|done]. apply hoare_modify.
    intros s Hs. simpl. by rewrite lookup_insert_eq, lookup_insert_ne. }
  intros _. eapply (hoare_bind _ _ _ (λ _ s, staged dir c old (fs_files s)));
    [apply (write_cursors_spec _ _ old _ Hne [])|].
  intros _. cbn beta.
  assert (∀ s, staged dir c old (fs_files s) → fs_files s !! cursor_path dir = old) as Hold
    by (by intros s (? & _ & _ & ?)).
  eapply (hoare_bind _ _ _ (λ _ s, staged dir c old (fs_files s)));
    [apply (hoare_syscall _ (staged dir c old)); [by apply hoare_ret|done]|].
  intros _. cbn beta. apply (hoare_syscall _ (staged dir c old)); [|done].
  intros s (texts & Hf & Hp & Hq). rewrite Hp. simpl. exists texts. by rewrite lookup_insert_eq.
Qed.

(** the cursor survives a crash: whichever system call of [persist] fails, and however
    much of a write has landed, the cursor file afterwards is the old one, or it is
    complete and loading it gives back the cursor that was persisted. *)
Theorem persist_crash_safe dir c s :
  keyed c →
  let s' := persist dir c s in
  fs_files s' !! cursor_path dir = fs_files s !! cursor_path dir
  ∨ (load_or_default dir (mkFs (fs_files s') [])).1 = c.
Proof.
  intros Hk. pose proof (persist_inner_spec dir c _ s eq_refl) as Hh. unfold persist.
  destruct (persist_inner dir c s) as [[[]|e] s']; [right|by left].
  destruct Hh as (texts & Hf & Hq). unfold load_or_default, read_to_string.
  rewrite syscall_no_fault. simpl. rewrite Hq. simpl. rewrite lines_unlines.
  2: { clear Hq. unfold cursor_texts in Hf. induction Hf; constructor; eauto using ser_one_line. }
  rewrite (load_lines_ser (map_to_list c) texts ∅); [|apply NoDup_fst_map_to_list| |done].
  - by rewrite (right_id_L ∅ (∪)), list_to_map_to_list.
  - intros id cc Hin. apply elem_of_map_to_list in Hin. by apply Hk in Hin.
Qed.

End cursor_proofs.

(** ** The source reads every complete line once *)

Lemma byte_len_app a b : byte_len (a ++ b) = (byte_len a + byte_len b)%N.
Proof. induction a as [|c a IH]; [done|]. change (utf8_len c + byte_len (a ++ b) = utf8_len c + byte_len a + byte_len b)%N. lia. Qed.

Lemma utf8_len_pos c : (0 < utf8_len c)%N.
Proof. unfold utf8_len. repeat case_match; lia. Qed.

Lemma seek_text_app a b : seek_text (byte_len a) (a ++ b) = (0%N, b).
Proof.
  induction a as [|c a IH]; [by destruct b|].
  change (byte_len (c :: a)) with (utf8_len c + byte_len a)%N.
  pose proof (utf8_len_pos c). cbn [seek_text app].
  destruct (N.eqb_spec (utf8_len c + byte_len a) 0); [lia|].
  destruct (N.ltb_spec (utf8_len c + byte_len a) (utf8_len c)); [lia|].
  by replace (utf8_len c + byte_len a - utf8_len c)%N with (byte_len a) by lia.
Qed.

(** What follows the last line break. *)
Fixpoint partial_line (cur s : str) : str :=
  match s with
  | [] => cur
  | c :: s' => if (c =? chr_nl)%N then partial_line [] s' else partial_line (cur ++ [c]) s'
  end.

Lemma complete_partial cur s : unlines (complete_lines cur s) ++ partial_line cur s = cur ++ s.
Proof.
  revert cur. induction s as [|c s IH]; intros cur; [simpl; by rewrite app_nil_r|].
  cbn [complete_lines partial_line]. destruct (N.eqb_spec c chr_nl) as [->|].
  - change (unlines (cur :: complete_lines [] s)) with ((cur ++ [chr_nl]) ++ unlines (complete_lines [] s)).
    rewrite <- app_assoc, (IH []). simpl. by rewrite <- app_assoc.
  - rewrite IH. by rewrite <- app_assoc.
Qed.

Lemma complete_lines_app cur a b :
  complete_lines cur (a ++ b) = complete_lines cur a ++ complete_lines (partial_line cur a) b.
Proof.
  revert cur. induction a as [|c a IH]; intros cur; [done|]. cbn [app complete_lines partial_line].
  destruct (c =? chr_nl)%N; rewrite IH; done.
Qed.

Lemma partial_line_no_nl cur s : chr_nl ∉ cur → chr_nl ∉ partial_line cur s.
Proof.
  revert cur. induction s as [|c s IH]; intros cur Hc; [done|]. cbn [partial_line].
  destruct (N.eqb_spec c chr_nl); [apply IH; set_solver|]. apply IH. set_solver.
Qed.

Lemma complete_lines_cur cur s :
  chr_nl ∉ cur → complete_lines [] (cur ++ s) = complete_lines cur s.
Proof.
  intros Hc. rewrite complete_lines_app.
  assert (∀ p, complete_lines p cur = [] ∧ partial_line p cur = p ++ cur) as Hp.
  { clear s. induction cur as [|c cur IH]; intros p; [by rewrite app_nil_r|].
    cbn [complete_lines partial_line].
    destruct (N.eqb_spec c chr_nl) as [->|]; [set_solver|].
    destruct (IH ltac:(set_solver) (p ++ [c])) as [H1 H2]. by rewrite H1, H2, <- app_assoc. }
  destruct (Hp []) as [H1 H2]. by rewrite H1, H2.
Qed.

Section source_proofs.
Context `{!Serde SealRecord}.

(** The events of a list of lines, without read errors. *)
Fixpoint line_events (id : str) (ls : list str) (consumed : N) : list SealEvent :=
  match ls with
  | [] => []
  | line :: ls' =>
      let consumed' := (consumed + byte_len line + 1)%N in
      (if is_empty (trim line) then []
       else match de (trim line) with
            | Ok r => [mkSealEvent id r consumed']
            | Err _ => []
            end) ++ line_events id ls' consumed'
  end.

Definition lines_bytes (ls : list str) : N := byte_len (unlines ls).

Lemma lines_bytes_cons l ls : lines_bytes (l :: ls) = (byte_len l + 1 + lines_bytes ls)%N.
Proof.
  unfold lines_bytes. change (unlines (l :: ls)) with ((l ++ [chr_nl]) ++ unlines ls).
  by rewrite !byte_len_app.
Qed.

Lemma line_events_app id a b n :
  line_events id (a ++ b) n = line_events id a n ++ line_events id b (n + lines_bytes a).
Proof.
  revert n. induction a as [|l a IH]; intros n; cbn [app line_events].
  - by rewrite N.add_0_r.
  - rewrite IH, lines_bytes_cons, app_assoc. do 2 f_equal. lia.
Qed.

Lemma lines_bytes_app a b : lines_bytes (a ++ b) = (lines_bytes a + lines_bytes b)%N.
Proof. unfold lines_bytes. by rewrite unlines_app, byte_len_app. Qed.

(** A call that succeeds leaves the files and a script without faults. *)
Lemma next_fault_inv s f s' :
  next_fault s = (f, s') →
  fs_files s' = fs_files s ∧ (fs_faults s = [] → f = NoFault ∧ fs_faults s' = []).
Proof.
  intros E. split; [by eapply next_fault_files|]. intros Hn. unfold next_fault in E.
  rewrite Hn in E. by injection E as <- <-.
Qed.

(** A read error ends the loop after some of the lines. *)
Lemma tail_loop_any ls n st s :
  ∃ k h s', tail_loop 0 ls n st s
    = (mkChainState (cs_chain_id st) (cs_path st) (n + lines_bytes (take k ls)) h,
       line_events (cs_chain_id st) (take k ls) n, s')
    ∧ (fs_faults s = [] → take k ls = ls).
Proof.
  revert n st s. induction ls as [|l ls IH]; intros n st s.
  - exists 0, (cs_last_hash st), s. cbn. by rewrite N.add_0_r.
  - cbn [tail_loop]. destruct (next_fault s) as [f s1] eqn:Ef.
    apply next_fault_inv in Ef as [_ Hff]. destruct f as [|x msg].
    2: { exists 0, (cs_last_hash st), s1. cbn. rewrite N.add_0_r. split; [done|].
         by intros [? _]%Hff. }
    rewrite N.add_0_r. unfold tail_line. cbn [N.ltb N.compare].
    destruct (is_empty (trim l)) eqn:Ee; [|destruct (de (trim l)) as [r|e] eqn:Ed];
      edestruct IH as (k & h & s' & -> & Hk); exists (S k), h, s'; cbn [take];
      rewrite lines_bytes_cons; cbn [line_events]; rewrite Ee; rewrite ?Ed; cbn;
      (split; [by rewrite <- !N.add_assoc|]); intros [_ Hn]%Hff; f_equal; auto.
Qed.

(** The outcome of one poll of a file of which [done] has been consumed and [rest]
    follows: some of the complete lines of [rest], all if no call fails. *)
Definition tailed (st : ChainState) (done : list str) (rest : str) (faulty : Prop)
    (out : ChainState * list SealEvent * Fs) : Prop :=
  ∃ k, cs_chain_id out.1.1 = cs_chain_id st ∧ cs_path out.1.1 = cs_path st
    ∧ cs_offset out.1.1 = lines_bytes (done ++ take k (complete_lines [] rest))
    ∧ out.1.2 = line_events (cs_chain_id st) (take k (complete_lines [] rest)) (lines_bytes done)
    ∧ (faulty ∨ take k (complete_lines [] rest) = complete_lines [] rest).

Lemma tailed_none st done rest faulty s :
  cs_offset st = lines_bytes done → faulty ∨ complete_lines [] rest = [] →
  tailed st done rest faulty (st, [], s).
Proof.
  intros Ho Hf. exists 0. cbn. rewrite app_nil_r. split_and!; try done.
  destruct Hf as [?| ->]; [by left|by right].
Qed.

Lemma tail_chain_any st s done rest :
  fs_files s !! cs_path st = Some (unlines done ++ rest) → cs_offset st = lines_bytes done →
  tailed st done rest (fs_faults s ≠ []) (tail_chain st s).
Proof.
  intros Hf Ho. unfold tail_chain, file_open, file_len, seek_call, syscall.
  destruct (next_fault s) as [f1 s1] eqn:E1. apply next_fault_inv in E1 as [F1 N1].
  destruct f1; [|apply tailed_none; [done|]; left; by intros [? _]%N1].
  rewrite F1, Hf. simpl.
  destruct (next_fault s1) as [f2 s2] eqn:E2. apply next_fault_inv in E2 as [F2 N2].
  destruct f2; [|apply tailed_none; [done|]; left; by intros [_ [? _]%N2]%N1].
  rewrite F2, F1, Hf. simpl.
  destruct (N.leb_spec (byte_len (unlines done ++ rest)) (cs_offset st)) as [Hle|Hgt].
  { apply tailed_none; [done|]. right. rewrite Ho, byte_len_app in Hle. unfold lines_bytes in Hle.
    destruct rest as [|c rest]; [done|]. pose proof (utf8_len_pos c).
    change (byte_len (c :: rest)) with (utf8_len c + byte_len rest)%N in Hle. lia. }
  destruct (next_fault s2) as [f3 s3] eqn:E3. apply next_fault_inv in E3 as [F3 N3].
  destruct f3; [|apply tailed_none; [done|]; left; by intros [_ [_ [? _]%N3]%N2]%N1].
  simpl. rewrite F3, F2, F1, Hf. simpl. rewrite Ho. unfold lines_bytes at 1. rewrite seek_text_app.
  destruct (tail_loop_any (complete_lines [] rest) (lines_bytes done) st s3) as (k & h & s' & -> & Hk).
  exists k. cbn. split_and!; try done; [by rewrite lines_bytes_app|].
  destruct (fs_faults s); [right|by left].
  apply Hk. by destruct (N1 eq_refl) as [_ [_ [_ ?]%N3]%N2].
Qed.

(** *** Many polls of a growing file *)

Fixpoint tails (st : ChainState) (ss : list Fs) : ChainState * list SealEvent :=
  match ss with
  | [] => (st, [])
  | s :: ss' =>
      let '(st1, evs, _) := tail_chain st s in
      let '(st2, evs') := tails st1 ss' in
      (st2, evs ++ evs')
  end.

(** The file at each poll extends what it was at the one before. *)
Fixpoint growing (p : path) (text : str) (ss : list Fs) : Prop :=
  match ss with
  | [] => True
  | s :: ss' => ∃ more, fs_files s !! p = Some (text ++ more) ∧ growing p (text ++ more) ss'
  end.

Lemma complete_lines_no_nl cur s : chr_nl ∉ cur → Forall (λ l, chr_nl ∉ l) (complete_lines cur s).
Proof.
  revert cur. induction s as [|c s IH]; intros cur Hc; [constructor|]. cbn [complete_lines].
  destruct (N.eqb_spec c chr_nl); [constructor; [done|apply IH; set_solver]|]. apply IH. set_solver.
Qed.

Lemma complete_lines_unlines ls s :
  Forall (λ l, chr_nl ∉ l) ls → complete_lines [] (unlines ls ++ s) = ls ++ complete_lines [] s.
Proof.
  induction 1 as [|l ls Hl _ IH]; [done|].
  change (unlines (l :: ls)) with ((l ++ [chr_nl]) ++ unlines ls).
  rewrite <- !app_assoc, complete_lines_cur by done. cbn [app complete_lines]. by rewrite N.eqb_refl, IH.
Qed.

(** A file of which [done] has been consumed. *)
Lemma consumed_split text done :
  done `prefix_of` complete_lines [] text →
  ∃ rest, text = unlines done ++ rest ∧ complete_lines [] text = done ++ complete_lines [] rest.
Proof.
  intros [more Hm]. exists (unlines more ++ partial_line [] text).
  pose proof (complete_partial [] text) as Ht. rewrite Hm, unlines_app, <- app_assoc in Ht.
  split; [done|]. rewrite <- Ht at 1. apply complete_lines_unlines.
  pose proof (complete_lines_no_nl [] text ltac:(set_solver)) as Hf. rewrite Hm in Hf.
  by apply Forall_app in Hf as [? _].
Qed.

Lemma tails_spec p ss : ∀ st text done,
  cs_path st = p → cs_offset st = lines_bytes done → done `prefix_of` complete_lines [] text →
  growing p text ss →
  ∃ done' text', done `prefix_of` done'
  ∧ cs_offset (tails st ss).1 = lines_bytes done'
  ∧ line_events (cs_chain_id st) done 0 ++ (tails st ss).2 = line_events (cs_chain_id st) done' 0
  ∧ (∀ s, last ss = Some s → fs_files s !! p = Some text'
       ∧ done' `prefix_of` complete_lines [] text'
       ∧ (fs_faults s = [] → done' = complete_lines [] text')).
Proof.
  induction ss as [|s ss IH]; intros st text done Hp Ho Hd Hg.
  { exists done, text. cbn. by rewrite app_nil_r. }
  destruct Hg as (more & Hf & Hg).
  assert (done `prefix_of` complete_lines [] (text ++ more)) as Hd'.
  { rewrite complete_lines_app. etrans; [done|]. by eexists. }
  destruct (consumed_split _ _ Hd') as (rest & Ht & Hc). rewrite Ht in Hf. rewrite <- Hp in Hf.
  destruct (tail_chain_any st s done rest Hf Ho) as (k & Hid & Hpath & Hoff & Hev & Hk).
  cbn [tails]. destruct (tail_chain st s) as [[st1 evs] s1]. cbn in *.
  set (done1 := done ++ take k (complete_lines [] rest)) in *.
  destruct (IH st1 (text ++ more) done1) as (done' & text' & Hpre & Hoff' & Hev' & Hlast);
    [congruence|done| |done|].
  { rewrite Hc. apply prefix_app. exists (drop k (complete_lines [] rest)). by rewrite take_drop. }
  destruct (tails st1 ss) as [st2 evs'] eqn:Et. cbn in *.
  assert (line_events (cs_chain_id st) done 0 ++ evs = line_events (cs_chain_id st) done1 0) as He.
  { unfold done1. by rewrite line_events_app, Hev, N.add_0_l. }
  destruct ss as [|s' ss].
  - cbn in Et. injection Et as <- <-. exists done1, (text ++ more).
    split_and!; [by eexists|done|by rewrite app_nil_r|]. intros s' [= <-].
    split_and!; [by rewrite Ht, <- Hp| |].
    + rewrite Hc. apply prefix_app. exists (drop k (complete_lines [] rest)). by rewrite take_drop.
    + intros Hn. destruct Hk as [|Hk]; [done|]. unfold done1. by rewrite Hk, Hc.
  - exists done', text'. split_and!; [transitivity done1; [by eexists|done]|done| |by apply Hlast].
    rewrite app_assoc, He, <- Hid. done.
Qed.

Lemma line_events_texts `{!SerdeLaws SealRecord} id rs texts n :
  (∀ r t, ser r = Ok t → trim t = t) → Forall2 (λ r t, ser r = Ok t) rs texts →
  map se_record (line_events id texts n) = rs.
Proof.
  intros Htight Hf. revert n. induction Hf as [|r t rs texts Ht _ IH]; intros n; [done|].
  cbn [line_events]. rewrite (Htight _ _ Ht). pose proof (ser_not_blank _ _ Ht) as Hb.
  rewrite (Htight _ _ Ht) in Hb. destruct t as [|x t]; [done|]. cbn [is_empty].
  rewrite (de_ser _ _ Ht). cbn. by f_equal.
Qed.

Lemma line_events_records `{!SerdeLaws SealRecord} id rs texts k n :
  (∀ r t, ser r = Ok t → trim t = t) → Forall2 (λ r t, ser r = Ok t) rs texts →
  map se_record (line_events id (take k texts) n) = take k rs.
Proof. intros Htight Hf. apply line_events_texts; [done..|]. by apply Forall2_take. Qed.

(** records are picked up exactly once, in order, however appends and polls
    interleave: polling a chain's file at any moments while it grows to the lines of
    the records [rs] (with a line half written, with reads failing) reports a
    prefix of [rs], and all of [rs] if the calls of the last poll succeed; the
    offset is then the end of the file. *)
Theorem tail_once `{!SerdeLaws SealRecord} id p rs texts ss s :
  (∀ (r : SealRecord) t, ser r = Ok t → trim t = t) →
  Forall2 (λ r t, ser r = Ok t) rs texts →
  growing p [] (ss ++ [s]) → fs_files s !! p = Some (unlines texts) →
  let '(st, evs) := tails (mkChainState id p 0 []) (ss ++ [s]) in
  map se_record evs `prefix_of` rs
  ∧ (fs_faults s = [] → map se_record evs = rs ∧ cs_offset st = byte_len (unlines texts)).
Proof.
  intros Htight Hf Hg Hfile.
  destruct (tails_spec p (ss ++ [s]) (mkChainState id p 0 []) [] []) as
    (past & text & _ & Hoff & Hev & Hlast); [done|done|apply prefix_nil|done|].
  destruct (Hlast s) as (Ht & Hpre & Hall); [by rewrite last_snoc|].
  destruct (tails _ _) as [st evs]. cbn in *. rewrite Hfile in Ht. injection Ht as <-.
  assert (complete_lines [] (unlines texts) = texts) as Hc.
  { rewrite <- (app_nil_r (unlines texts)), complete_lines_unlines; [by rewrite app_nil_r|].
    clear -Hf SerdeLaws0. induction Hf; constructor; [by eapply ser_one_line|done]. }
  rewrite Hc in *. rewrite Hev. destruct Hpre as [more Hm]. split.
  - exists (drop (length past) rs). rewrite <- (take_drop (length past) rs) at 1. f_equal. symmetry.
    rewrite <- (line_events_records id rs texts (length past) 0) by done. by rewrite Hm, take_app_length.
  - intros Hn. rewrite (Hall Hn) in *. split; [by apply line_events_texts|done].
Qed.

End source_proofs.

(** ** Examples *)

Section examples.

Definition record_of (scope : str) (h : str) : SealRecord :=
  mkSealRecord 0 #"t" #"rfc.create" (JObj [(#"scope", JStr scope)]) h ZERO_HASH None.

Definition public_record : SealRecord := record_of #"public" #"a".
Definition private_record : SealRecord := record_of #"private" #"b".

#[local] Instance record_serde : Serde SealRecord := table_serde [public_record; private_record].
#[local] Instance record_laws : SerdeLaws SealRecord := table_serde_laws _.

Definition sample_cursor : ChainCursor := mkChainCursor #"workspace" 5 #"b".

#[local] Instance cursor_serde : Serde ChainCursor := table_serde [sample_cursor].
#[local] Instance cursor_laws : SerdeLaws ChainCursor := table_serde_laws _.

Lemma trim_replicate n : trim (replicate n 48%N) = replicate n 48%N.
Proof.
  assert (∀ m, trim_start (replicate m 48%N) = replicate m 48%N) as Ht by (by intros []).
  unfold trim, trim_end. rewrite Ht, reverse_replicate, Ht. apply reverse_replicate.
Qed.

Lemma table_tight {A} `{EqDecision A} (l : list A) x t : table_text l x = Ok t → trim t = t.
Proof.
  unfold table_text. destruct (list_find _ l) as [[i y]|]; [|done]. intros [= <-].
  apply (trim_replicate (S i)).
Qed.

Definition home : path := [ #"home"].

Definition chain_file : path := home ++ [ #"workspace"; SEAL_FILE].

(** A public and a private record. *)
Definition chain_text : str := unlines [[48%N]; [48%N; 48%N]].

Definition sample_fs : Fs := mkFs {[chain_file := chain_text]} [].

Definition sample_cursors : gmap str ChainCursor := {[ #"workspace" := sample_cursor]}.

Lemma persist_crash_safe_witness :
  let s' := persist home sample_cursors (mkFs ∅ []) in
  fs_files s' !! cursor_path home = (∅ : gmap path str) !! cursor_path home
  ∨ (load_or_default home (mkFs (fs_files s') [])).1 = sample_cursors.
Proof.
  apply (@persist_crash_safe cursor_serde cursor_laws (table_tight [sample_cursor]) home sample_cursors (mkFs ∅ [])).
  apply (bool_decide_unpack _). by vm_compute.
Defined.

(** Polled with the second line half written, then complete. *)
Definition half_fs : Fs := mkFs {[chain_file := take 3 chain_text]} [].

Lemma tail_once_witness :
  let '(st, evs) := tails (mkChainState #"workspace" chain_file 0 []) ([half_fs] ++ [sample_fs]) in
  map se_record evs `prefix_of` [public_record; private_record]
  ∧ (fs_faults sample_fs = [] →
     map se_record evs = [public_record; private_record]
     ∧ cs_offset st = byte_len (unlines [[48%N]; [48%N; 48%N]])).
Proof.
  apply (@tail_once record_serde record_laws #"workspace" chain_file [public_record; private_record] [[48%N]; [48%N; 48%N]]
           [half_fs] sample_fs (table_tight [public_record; private_record])).
  - repeat constructor; by vm_compute.
  - exists (take 3 chain_text). split; [by vm_compute|]. exists (drop 3 chain_text). by vm_compute.
  - by vm_compute.
Defined.

End examples.
