(* ===== verification/StreamLoop.v ===== *)
(** * StreamLoop: the publisher's loop

    [crates/orkia-stream/src/lib.rs]: the task that polls the chains, drains the
    journal, gates and translates every event, and flushes batches to the
    server, with its handle ([start], [status], [pause], [resume], [shutdown]).
    The parts are those of [Stream].

    A run is a list of inputs: an envelope arrives on the bus, the user pauses
    or resumes, files change, and one iteration of the loop, which takes what the
    clock, the session store and the server answer during it. The trace records
    every event that was queued or gated, every batch that was pushed and every
    batch that is settled (accepted or rejected by the server). *)

From Stdlib Require Import NArith ZArith Lia.
From stdpp Require Import base gmap strings option numbers list list_basics.
From S2P Require Import Prelude Effects Json Fs Journal RfcCore Seal Stream.

(** ** State *)

Record StreamConfig := mkStreamConfig {
  sc_seal_root : path;
  sc_state_dir : path;
  sc_batch_max_events : N;
  sc_batch_max_bytes : N;
  sc_batch_flush_interval : N;
  sc_disabled : bool;
}.

Definition paused_flag_path (cfg : StreamConfig) : path := sc_state_dir cfg ++ [ #"paused.flag"].

Record StreamTask := mkStreamTask {
  sm_fs : Fs;
  sm_gate : gset str;
  sm_batcher : Batcher;
  sm_cursor : gmap str ChainCursor;
  sm_source : SealSource;
  sm_journal : list JournalEnvelope;
  sm_paused : bool;
  sm_no_auth : bool;
  sm_unreachable : bool;
  sm_events_published : N;
  sm_retry_count : N;
}.

Inductive StreamStatus := Running (events_published : N) | Paused | NoAuth | Unreachable (retry_count : N).

Definition status (s : StreamTask) : StreamStatus :=
  if sm_no_auth s then NoAuth
  else if sm_paused s then Paused
  else if sm_unreachable s then Unreachable (sm_retry_count s)
  else Running (sm_events_published s).

Definition set_sm_fs (fs : Fs) (s : StreamTask) : StreamTask :=
  mkStreamTask fs (sm_gate s) (sm_batcher s) (sm_cursor s) (sm_source s) (sm_journal s) (sm_paused s)
    (sm_no_auth s) (sm_unreachable s) (sm_events_published s) (sm_retry_count s).

Definition set_sm_queue (gate : gset str) (b : Batcher) (s : StreamTask) : StreamTask :=
  mkStreamTask (sm_fs s) gate b (sm_cursor s) (sm_source s) (sm_journal s) (sm_paused s)
    (sm_no_auth s) (sm_unreachable s) (sm_events_published s) (sm_retry_count s).

Definition set_sm_source (src : SealSource) (fs : Fs) (s : StreamTask) : StreamTask :=
  mkStreamTask fs (sm_gate s) (sm_batcher s) (sm_cursor s) src (sm_journal s) (sm_paused s)
    (sm_no_auth s) (sm_unreachable s) (sm_events_published s) (sm_retry_count s).

Definition set_sm_journal (q : list JournalEnvelope) (s : StreamTask) : StreamTask :=
  mkStreamTask (sm_fs s) (sm_gate s) (sm_batcher s) (sm_cursor s) (sm_source s) q (sm_paused s)
    (sm_no_auth s) (sm_unreachable s) (sm_events_published s) (sm_retry_count s).

Definition set_sm_paused (p : bool) (s : StreamTask) : StreamTask :=
  mkStreamTask (sm_fs s) (sm_gate s) (sm_batcher s) (sm_cursor s) (sm_source s) (sm_journal s) p
    (sm_no_auth s) (sm_unreachable s) (sm_events_published s) (sm_retry_count s).

(** ** Trace *)

(** Where a line comes from, and the session at the moment of the decision. *)
Inductive origin := FromSeal (ev : SealEvent) (auth : AuthContext) | FromJournal (e : JournalEnvelope) (auth : AuthContext).

Record entry := mkEntry {
  en_origin : origin;
  en_advance : option SealAdvance;
  en_line : option PushLine;
}.

Inductive obs := OQueued (e : entry) | OPushed (b : Batch) (r : PushResult) | OSettled (b : Batch).

Section loop.
Context `{!JsonText, !Serde SealRecord, !Serde ChainCursor}
  (parse_uuid parse_rfc3339 : str → option str) (as_f32 : json → option json)
  (cfg : StreamConfig).

Definition event_advance (ev : SealEvent) : SealAdvance :=
  mkSealAdvance (se_chain_id ev) (sr_seq (se_record ev)) (sr_hash (se_record ev)) (se_byte_end ev).

Definition process_seal (now : N) (id : str) (auth : AuthContext) (ev : SealEvent) (s : StreamTask)
    : StreamTask * list obs :=
  let '(d, gate) := evaluate_seal auth (se_record ev) (se_chain_id ev) (sm_gate s) in
  let adv := event_advance ev in
  if negb (d_publish d) then
    (set_sm_queue gate (note_dropped_seal adv (sm_batcher s)) s,
     [OQueued (mkEntry (FromSeal ev auth) (Some adv) None)])
  else match identity parse_uuid auth with
       | None => (set_sm_queue gate (sm_batcher s) s, [])
       | Some (ws, acc, team) =>
           let line := to_local_seal_push id (se_chain_id ev) (se_record ev) ws acc team (scope_label d) in
           (set_sm_queue gate (push_seal now adv line (sm_batcher s)) s,
            [OQueued (mkEntry (FromSeal ev auth) (Some adv) (Some line))])
       end.

Definition artifact_of (e : JournalEnvelope) : str :=
  match je_target e, je_source e with
  | Some t, _ => t
  | None, Some src => src
  | None, None => #"journal"
  end.

Definition journal_line (now_text id : str) (e : JournalEnvelope) (ws acc : str)
    (team : option str) (d : ScopeDecision) : option PushLine :=
  if bool_decide (je_event e = Some #"job.spawned") || bool_decide (je_event e = Some #"job.complete")
  then to_public_job_push parse_uuid parse_rfc3339 now_text e ws
  else if bool_decide (je_event e = Some #"routing.decided")
  then to_public_routing_push parse_uuid parse_rfc3339 as_f32 now_text e ws
  else Some (to_journal_push parse_rfc3339 id now_text e ws acc team (scope_label d)).

Definition process_journal (now : N) (now_text id : str) (auth : AuthContext) (e : JournalEnvelope)
    (s : StreamTask) : StreamTask * list obs :=
  let '(d, gate) := evaluate_journal auth e (artifact_of e) (sm_gate s) in
  if negb (d_publish d) then (set_sm_queue gate (sm_batcher s) s, [])
  else match identity parse_uuid auth with
       | None => (set_sm_queue gate (sm_batcher s) s, [])
       | Some (ws, acc, team) =>
           match journal_line now_text id e ws acc team d with
           | Some line =>
               (set_sm_queue gate (push_journal now line (sm_batcher s)) s,
                [OQueued (mkEntry (FromJournal e auth) None (Some line))])
           | None => (set_sm_queue gate (sm_batcher s) s, [])
           end
       end.

Definition JOURNAL_QUEUE_CAP : nat := 4096.

(** One envelope of the bus; it is dropped when the queue is full. *)
Definition journal_pump (e : JournalEnvelope) (s : StreamTask) : StreamTask :=
  if JOURNAL_QUEUE_CAP <=? length (sm_journal s) then s
  else set_sm_journal (sm_journal s ++ [e]) s.

(** One buffered envelope; while paused it is taken and discarded. *)
Definition drain_journal (now : N) (now_text id : str) (auth : AuthContext) (s : StreamTask)
    : StreamTask * list obs :=
  match sm_journal s with
  | [] => (s, [])
  | e :: rest =>
      let s := set_sm_journal rest s in
      if sm_paused s then (s, []) else process_journal now now_text id auth e s
  end.

(** Counters are [u64] and [u32]. *)
Definition settle (b : Batch) (fs : Fs) (published : N) (s : StreamTask) : StreamTask :=
  let cursor := cursor_advance b (sm_cursor s) in
  mkStreamTask (persist (sc_state_dir cfg) cursor fs) (sm_gate s) (sm_batcher s) cursor (sm_source s)
    (sm_journal s) (sm_paused s) (sm_no_auth s) (sm_unreachable s) published (sm_retry_count s).

Definition flush_batch (world : nat → Attempt) (key : str) (s : StreamTask)
    : option (StreamTask * list obs) :=
  let '(batch, b) := batcher_take (sm_batcher s) in
  let s := set_sm_queue (sm_gate s) b s in
  r ← push_batch world key batch;
  Some match pr_outcome r with
       | Ok (Accepted accepted) =>
           let s := mkStreamTask (sm_fs s) (sm_gate s) (sm_batcher s) (sm_cursor s) (sm_source s)
                      (sm_journal s) (sm_paused s) (sm_no_auth s) false (sm_events_published s) 0 in
           (settle batch (sm_fs s) ((sm_events_published s + accepted) mod 2 ^ 64)%N s,
            [OPushed batch r; OSettled batch])
       | Ok Dropped =>
           (settle batch (sm_fs s) (sm_events_published s) s, [OPushed batch r; OSettled batch])
       | Ok AuthExpired =>
           (mkStreamTask (sm_fs s) (sm_gate s) (requeue batch (sm_batcher s)) (sm_cursor s)
              (sm_source s) (sm_journal s) true true (sm_unreachable s) (sm_events_published s)
              (sm_retry_count s), [OPushed batch r])
       | Err _ =>
           (mkStreamTask (sm_fs s) (sm_gate s) (requeue batch (sm_batcher s)) (sm_cursor s)
              (sm_source s) (sm_journal s) (sm_paused s) (sm_no_auth s) true (sm_events_published s)
              (u32_succ (sm_retry_count s)), [OPushed batch r])
       end.

(** What one iteration reads: the clock, the watcher, a session and a fresh
    identifier per event, and the server. *)
Record Iteration := mkIteration {
  it_now : N;
  it_now_text : str;
  it_signalled : bool;
  it_auth : nat → AuthContext;
  it_id : nat → str;
  it_world : nat → Attempt;
  it_key : str;
}.

Fixpoint process_all (it : Iteration) (n : nat) (evs : list SealEvent) (s : StreamTask)
    : StreamTask * list obs :=
  match evs with
  | [] => (s, [])
  | ev :: evs' =>
      let '(s1, o1) := process_seal (it_now it) (it_id it n) (it_auth it n) ev s in
      let '(s2, o2) := process_all it (S n) evs' s1 in
      (s2, o1 ++ o2)
  end.

Definition poll_chains (it : Iteration) (s : StreamTask) : StreamTask * list obs :=
  if sm_paused s then (s, [])
  else
    let '(src, evs, fs) := poll (it_now it) (it_signalled it) (sm_source s) (sm_fs s) in
    process_all it 1 evs (set_sm_source src fs s).

Definition iterate (it : Iteration) (s : StreamTask) : option (StreamTask * list obs) :=
  let '(s1, o1) := poll_chains it s in
  let '(s2, o2) := drain_journal (it_now it) (it_now_text it) (it_id it 0) (it_auth it 0) s1 in
  if should_flush (it_now it) (sm_batcher s2) then
    '(s3, o3) ← flush_batch (it_world it) (it_key it) s2;
    Some (s3, o1 ++ o2 ++ o3)
  else Some (s2, o1 ++ o2).

(** ** The handle *)

Definition start (auth : AuthContext) (fs : Fs) : option StreamTask :=
  if sc_disabled cfg then None
  else match au_bearer auth with
       | None => None
       | Some _ =>
           let paused := bool_decide (is_Some (fs_files fs !! paused_flag_path cfg)) in
           let '(cursor, fs1) := load_or_default (sc_state_dir cfg) fs in
           let '(src, fs2) := source_new (sc_seal_root cfg) cursor fs1 in
           let '(src', fs3) := initial_scan src fs2 in
           Some (mkStreamTask fs3 ∅
                   (batcher_new (sc_batch_max_events cfg) (sc_batch_max_bytes cfg)
                      (sc_batch_flush_interval cfg))
                   cursor src' [] paused false false 0 0)
       end.

Definition pause (s : StreamTask) : StreamTask * bool :=
  match (create_dir_all;; fs_write (paused_flag_path cfg) (#"paused" ++ [chr_nl])) (sm_fs s) with
  | (Ok _, fs) => (set_sm_paused true (set_sm_fs fs s), true)
  | (Err _, fs) => (set_sm_fs fs s, false)
  end.

Definition resume (s : StreamTask) : StreamTask :=
  set_sm_paused false (set_sm_fs (remove_file (paused_flag_path cfg) (sm_fs s)).2 s).

(** The end of the task: one batch is pushed, the cursor stays. *)
Definition final_flush (world : nat → Attempt) (key : str) (s : StreamTask) : option (list obs) :=
  if has_pending (sm_batcher s) then
    let '(batch, _) := batcher_take (sm_batcher s) in
    r ← push_batch world key batch; Some [OPushed batch r]
  else Some [].

Inductive input :=
| IPump (e : JournalEnvelope)
| IFiles (fs : Fs)
| IPause
| IResume
| ITick (it : Iteration).

Definition stream_step (i : input) (s : StreamTask) : option (StreamTask * list obs) :=
  match i with
  | IPump e => Some (journal_pump e s, [])
  | IFiles fs => Some (set_sm_fs fs s, [])
  | IPause => Some ((pause s).1, [])
  | IResume => Some (resume s, [])
  | ITick it => iterate it s
  end.

Fixpoint stream_run (ins : list input) (s : StreamTask) : option (StreamTask * list obs) :=
  match ins with
  | [] => Some (s, [])
  | i :: ins' =>
      '(s1, o1) ← stream_step i s;
      '(s2, o2) ← stream_run ins' s1;
      Some (s2, o1 ++ o2)
  end.

(** ** Batches in order *)

Definition lines_of (es : list entry) : list PushLine := omap en_line es.

Definition advances_of (es : list entry) : list SealAdvance := omap en_advance es.

Definition queued (tr : list obs) : list entry :=
  omap (λ o, match o with OQueued e => Some e | _ => None end) tr.

Definition settled (tr : list obs) : list Batch :=
  omap (λ o, match o with OSettled b => Some b | _ => None end) tr.

(** The batch holds these events: their lines in order, and advances with the same
    effect on every cursor. *)
Definition holds (b : Batch) (es : list entry) : Prop :=
  b_lines b = lines_of es ∧ ∀ c, advance_all (b_seal_advances b) c = advance_all (advances_of es) c.

(** The batcher holds these events, oldest first; at most one batch is held back. *)
Definition waiting (b : Batcher) (es : list entry) : Prop :=
  ∃ held p, es = held ++ p ∧ holds (ba_pending b) p ∧ ba_held_cap b = 32%N
  ∧ match ba_held b with
    | [] => held = []
    | [h] => holds h held
    | _ => False
    end.

Lemma holds_empty : holds batch_default [].
Proof. done. Qed.

Lemma holds_queue b es o a l :
  holds b es →
  holds (add_seal_advance a l b) (es ++ [mkEntry o (Some a) l]).
Proof.
  intros [Hl Ha]. unfold holds, lines_of, advances_of, add_seal_advance. rewrite !omap_app. simpl. split.
  - destruct l; simpl; rewrite ?Hl; [done|by rewrite app_nil_r].
  - intros c. rewrite advance_coalesced. unfold advance_all. rewrite !foldl_app.
    change (foldl _ c (b_seal_advances ?x)) with (advance_all (b_seal_advances x) c).
    assert (b_seal_advances (match l with Some l0 => add_journal l0 b | None => b end) = b_seal_advances b)
      as -> by (by destruct l).
    by rewrite Ha.
Qed.

Lemma holds_journal b es o l :
  holds b es → holds (add_journal l b) (es ++ [mkEntry o None (Some l)]).
Proof.
  intros [Hl Ha]. unfold holds, lines_of, advances_of. rewrite !omap_app. simpl.
  rewrite Hl, app_nil_r. done.
Qed.

Lemma waiting_pending b es e p' first :
  waiting b es → (∀ p, holds (ba_pending b) p → holds p' (p ++ [e])) →
  waiting (set_pending p' first b) (es ++ [e]).
Proof.
  intros (held & p & -> & Hp & Hcap & Hh) Hq. exists held, (p ++ [e]). simpl.
  rewrite app_assoc. auto.
Qed.

Lemma waiting_take b es batch b' :
  waiting b es → batcher_take b = (batch, b') →
  ∃ done rest, es = done ++ rest ∧ holds batch done ∧ waiting b' rest ∧ ba_held b' = [].
Proof.
  intros (held & p & -> & Hp & Hcap & Hh). unfold batcher_take.
  destruct (ba_held b) as [|h [|]] eqn:Eh; [| |done]; intros [= <- <-].
  - subst held. exists p, []. rewrite app_nil_r. split_and!; [done|done| |done].
    exists [], []. simpl. by rewrite Eh.
  - exists held, p. split_and!; [done|done| |done]. by exists [], p.
Qed.

Lemma waiting_requeue b batch done rest :
  waiting b rest → ba_held b = [] → holds batch done → waiting (requeue batch b) (done ++ rest).
Proof.
  intros (held & p & -> & Hp & Hcap & Hh) Hb Hbatch. rewrite Hb in Hh. subst held.
  exists done, p. unfold requeue. rewrite Hb, Hcap. simpl. done.
Qed.

(** ** The invariant of the loop *)

(** The line was made from the record or envelope of that origin, whose own scope
    and the session at that moment let it leave; it is labelled with that scope. *)
Definition published (o : origin) (l : PushLine) : Prop :=
  match o with
  | FromSeal ev auth =>
      may_leave auth (seal_scope (se_record ev))
      ∧ ∃ id ws acc team scope, identity parse_uuid auth = Some (ws, acc, team)
          ∧ seal_scope (se_record ev) = Some scope
          ∧ l = to_local_seal_push id (se_chain_id ev) (se_record ev) ws acc team scope
  | FromJournal e auth =>
      may_leave auth (envelope_scope e)
      ∧ ∃ text id ws acc team d, identity parse_uuid auth = Some (ws, acc, team)
          ∧ envelope_scope e = Some (scope_label d)
          ∧ journal_line text id e ws acc team d = Some l
  end.

Record good_at (c0 : gmap str ChainCursor) (s : StreamTask) (tr : list obs) (fin wait : list entry)
    : Prop := {
  good_queue : queued tr = fin ++ wait;
  good_settled : concat (map b_lines (settled tr)) = lines_of fin;
  good_cursor : sm_cursor s = advance_all (advances_of fin) c0;
  good_waiting : waiting (sm_batcher s) wait;
  good_gate e l : e ∈ queued tr → en_line e = Some l → published (en_origin e) l;
  good_pushed b r : OPushed b r ∈ tr →
    (∃ world key, push_batch world key b = Some r) ∧ ∀ l, l ∈ b_lines b → l ∈ lines_of (queued tr);
}.

Definition good c0 s tr : Prop := ∃ fin wait, good_at c0 s tr fin wait.

Lemma queued_app a b : queued (a ++ b) = queued a ++ queued b.
Proof. apply omap_app. Qed.

Lemma lines_of_app a b : lines_of (a ++ b) = lines_of a ++ lines_of b.
Proof. apply omap_app. Qed.

Lemma good_same c0 s s' tr :
  sm_cursor s' = sm_cursor s → sm_batcher s' = sm_batcher s → good c0 s tr → good c0 s' (tr ++ []).
Proof.
  intros Hc Hb (fin & wait & []). exists fin, wait. rewrite app_nil_r. split; try done; congruence.
Qed.

(** One more event. *)
Lemma good_enqueue c0 s s' tr e :
  good c0 s tr → sm_cursor s' = sm_cursor s →
  (∀ w, waiting (sm_batcher s) w → waiting (sm_batcher s') (w ++ [e])) →
  (∀ l, en_line e = Some l → published (en_origin e) l) →
  good c0 s' (tr ++ [OQueued e]).
Proof.
  intros (fin & wait & []) Hc Hw Ha. exists fin, (wait ++ [e]).
  assert (queued (tr ++ [OQueued e]) = queued tr ++ [e]) as Hq by by rewrite queued_app.
  split; rewrite ?Hq.
  - by rewrite good_queue0, app_assoc.
  - unfold settled in *. rewrite omap_app. simpl. by rewrite app_nil_r.
  - congruence.
  - auto.
  - intros e' l [He|He%list_elem_of_singleton]%elem_of_app; [auto|]. subst. auto.
  - intros b r [Hb|Hb]%elem_of_app; [|by apply list_elem_of_singleton in Hb].
    destruct (good_pushed0 b r Hb) as [Hr Hl]. split; [done|]. intros l Hin%Hl.
    rewrite lines_of_app. apply elem_of_app. by left.
Qed.

Lemma process_seal_good c0 now id auth ev s tr :
  good c0 s tr →
  good c0 (process_seal now id auth ev s).1 (tr ++ (process_seal now id auth ev s).2).
Proof.
  intros Hg. unfold process_seal.
  pose proof (gate_publish auth (seal_scope (se_record ev)) (sr_event_type (se_record ev))
                (se_chain_id ev) (sm_gate s)) as Hp. unfold evaluate_seal.
  match goal with |- context [gate_decide ?a ?b ?c ?d ?w] => pose proof (gate_label a b c d w) as Hlab end.
  destruct (gate_decide _ _ _ _ _) as [d gate]. cbn [fst] in Hp, Hlab. destruct (d_publish d).
  - specialize (Hlab eq_refl). cbn [negb]. destruct (identity parse_uuid auth) as [[[ws acc] team]|] eqn:Ei; [|by apply (good_same c0 s)].
    apply (good_enqueue c0 s); [done|done| |].
    + intros w Hw. simpl. apply waiting_pending; [done|]. intros p Hh. by apply holds_queue.
    + intros l [= <-]. symmetry in Hp. apply bool_decide_eq_true in Hp. split; [done|].
      by exists id, ws, acc, team, (scope_label d).
  - cbn [negb]. apply (good_enqueue c0 s); [done|done| |done].
    intros w Hw. simpl. apply waiting_pending; [done|]. intros p Hh. by apply holds_queue.
Qed.

Lemma process_journal_good c0 now text id auth e s tr :
  good c0 s tr →
  good c0 (process_journal now text id auth e s).1 (tr ++ (process_journal now text id auth e s).2).
Proof.
  intros Hg. unfold process_journal, evaluate_journal.
  match goal with |- context [gate_decide ?a ?b ?c ?d ?w] => pose proof (gate_publish a b c d w) as Hp; pose proof (gate_label a b c d w) as Hlab end.
  destruct (gate_decide _ _ _ _ _) as [d gate]. cbn [fst] in Hp, Hlab. destruct (d_publish d);
    cbn [negb]; [specialize (Hlab eq_refl)|by apply (good_same c0 s)].
  destruct (identity parse_uuid auth) as [[[ws acc] team]|] eqn:Ei; [|by apply (good_same c0 s)].
  destruct (journal_line _ _ _ _ _ _ _) as [line|] eqn:El; [|by apply (good_same c0 s)].
  apply (good_enqueue c0 s); [done|done| |].
  - intros w Hw. simpl. apply waiting_pending; [done|]. intros p Hh. by apply holds_journal.
  - intros l [= <-]. symmetry in Hp. apply bool_decide_eq_true in Hp. split; [done|].
    by exists text, id, ws, acc, team, d.
Qed.

Lemma process_all_good c0 it n evs s tr :
  good c0 s tr → good c0 (process_all it n evs s).1 (tr ++ (process_all it n evs s).2).
Proof.
  revert n s tr. induction evs as [|ev evs IH]; intros n s tr Hg; [by apply (good_same c0 s)|].
  cbn [process_all].
  pose proof (process_seal_good c0 (it_now it) (it_id it n) (it_auth it n) ev s tr Hg) as H1.
  destruct (process_seal _ _ _ _ _) as [s1 o1]. specialize (IH (S n) s1 _ H1).
  destruct (process_all _ _ _ _) as [s2 o2]. cbn in *. by rewrite app_assoc.
Qed.

(** The taken batch is settled, or it goes back to the front. *)
Lemma flush_batch_good c0 world key s tr s' o :
  good c0 s tr → flush_batch world key s = Some (s', o) → good c0 s' (tr ++ o).
Proof.
  intros (fin & wait & [Hq Hst Hc Hw Hga Hpu]). unfold flush_batch.
  destruct (batcher_take (sm_batcher s)) as [batch b] eqn:Et.
  destruct (waiting_take _ _ _ _ Hw Et) as (now & rest & -> & Hh & Hw' & Hb).
  destruct (push_batch world key batch) as [r|] eqn:Ep; [|done]. cbn [mbind option_bind].
  assert (∀ o, Forall (λ x, match x with OQueued _ => False | OPushed b r' => b = batch ∧ r' = r
                                       | OSettled _ => True end) o →
            queued (tr ++ o) = queued tr
            ∧ ∀ b r, OPushed b r ∈ tr ++ o →
                (∃ world key, push_batch world key b = Some r)
                ∧ ∀ l, l ∈ b_lines b → l ∈ lines_of (queued (tr ++ o))) as Hobs.
  { intros o' Ho. assert (queued (tr ++ o') = queued tr) as Hqo.
    { rewrite queued_app. assert (queued o' = []) as ->; [|by rewrite app_nil_r].
      induction Ho as [|[] o' Hx _ IH]; [done|done|done|done]. }
    split; [done|]. rewrite Hqo. intros b0 r0 [Hin|Hin]%elem_of_app; [by apply Hpu|].
    rewrite list.Forall_forall in Ho. apply Ho in Hin as [-> ->]. split; [by eauto|].
    intros l. destruct Hh as [-> _]. rewrite Hq, !lines_of_app. set_solver. }
  assert (∀ s1 o', sm_cursor s1 = cursor_advance batch (sm_cursor s) → sm_batcher s1 = b →
            o' = [OPushed batch r; OSettled batch] → good c0 s1 (tr ++ o')) as Hsettle.
  { intros s1 o' Hc1 Hb1 ->. destruct (Hobs [OPushed batch r; OSettled batch]) as [Hqo Hpo];
      [by repeat constructor|]. exists (fin ++ now), rest. split; rewrite ?Hqo.
    - by rewrite Hq, app_assoc.
    - unfold settled in *. rewrite omap_app, map_app, concat_app, Hst, lines_of_app. simpl.
      rewrite app_nil_r. by destruct Hh as [-> _].
    - rewrite Hc1, Hc. unfold cursor_advance. destruct Hh as [_ ->].
      unfold advances_of, advance_all. by rewrite omap_app, foldl_app.
    - by rewrite Hb1.
    - done.
    - by rewrite <- Hqo. }
  assert (∀ s1, sm_cursor s1 = sm_cursor s → sm_batcher s1 = requeue batch b →
            good c0 s1 (tr ++ [OPushed batch r])) as Hback.
  { intros s1 Hc1 Hb1. destruct (Hobs [OPushed batch r]) as [Hqo Hpo]; [by repeat constructor|].
    exists fin, (now ++ rest). split; rewrite ?Hqo; [done| |congruence| |done|by rewrite <- Hqo].
    - unfold settled in *. rewrite omap_app. simpl. by rewrite app_nil_r.
    - rewrite Hb1. by apply waiting_requeue. }
  intros [= Hs]. destruct (pr_outcome r) as [[k| |]|e]; injection Hs as <- <-;
    first [by apply Hsettle|by apply Hback].
Qed.

Lemma iterate_good c0 it s tr s' o :
  good c0 s tr → iterate it s = Some (s', o) → good c0 s' (tr ++ o).
Proof.
  intros Hg. unfold iterate.
  assert (good c0 (poll_chains it s).1 (tr ++ (poll_chains it s).2)) as H1.
  { unfold poll_chains. destruct (sm_paused s); [by apply (good_same c0 s)|].
    destruct (poll _ _ _ _) as [[src evs] fs]. apply process_all_good.
    rewrite <- (app_nil_r tr). by apply (good_same c0 s). }
  destruct (poll_chains it s) as [s1 o1]. cbn in H1.
  match goal with |- context [drain_journal ?a ?b ?c ?d s1] =>
    assert (good c0 (drain_journal a b c d s1).1 ((tr ++ o1) ++ (drain_journal a b c d s1).2)) as H2;
      [|destruct (drain_journal a b c d s1) as [s2 o2]] end.
  { unfold drain_journal. destruct (sm_journal s1) as [|e rest]; [by apply (good_same c0 s1)|].
    destruct (sm_paused _); [by apply (good_same c0 s1)|]. apply process_journal_good.
    rewrite <- (app_nil_r (tr ++ o1)). by apply (good_same c0 s1). }
  cbn in H2. rewrite <- app_assoc in H2. destruct (should_flush _ _).
  - destruct (flush_batch _ _ s2) as [[s3 o3]|] eqn:Ef; [|done]. intros [= <- <-].
    rewrite !app_assoc. rewrite app_assoc in H2. by eapply flush_batch_good.
  - by intros [= <- <-].
Qed.

Lemma stream_run_good c0 ins s tr s' o :
  good c0 s tr → stream_run ins s = Some (s', o) → good c0 s' (tr ++ o).
Proof.
  revert s tr o. induction ins as [|i ins IH]; intros s tr o Hg; cbn [stream_run].
  { intros [= <- <-]. by apply (good_same c0 s). }
  destruct (stream_step i s) as [[s1 o1]|] eqn:E1; [|done]. cbn [mbind option_bind].
  assert (good c0 s1 (tr ++ o1)) as H1.
  { destruct i; simpl in E1; try (injection E1 as <- <-; apply (good_same c0 s); [..|done]; done).
    - injection E1 as <- <-. apply (good_same c0 s); [..|done]; unfold journal_pump; by case_match.
    - injection E1 as <- <-. unfold pause. apply (good_same c0 s); [..|done]; by repeat case_match.
    - by eapply iterate_good. }
  destruct (stream_run ins s1) as [[s2 o2]|] eqn:E2; [|done]. intros [= <- <-].
  rewrite app_assoc. by eapply IH.
Qed.

(** ** What the loop promises *)

Lemma start_good auth fs s : start auth fs = Some s → good (sm_cursor s) s [].
Proof.
  unfold start. destruct (sc_disabled cfg); [done|]. destruct (au_bearer auth); [|done].
  destruct (load_or_default _ _) as [cursor fs1]. destruct (source_new _ _ _) as [src fs2].
  destruct (initial_scan _ _) as [src' fs3]. intros [= <-]. exists [], [].
  split; try done; [|by intros e x ?%not_elem_of_nil|by intros b r ?%not_elem_of_nil].
  by exists [], [].
Qed.

Lemma waiting_lines b es :
  waiting b es → length (ba_held b) ≤ 1 ∧ concat (map b_lines (ba_held b ++ [ba_pending b])) = lines_of es.
Proof.
  intros (held & p & -> & [Hp _] & _ & Hh). rewrite lines_of_app, <- Hp.
  destruct (ba_held b) as [|h [|]]; [subst held| |done]; simpl; rewrite app_nil_r; split; try lia; try done.
  by destruct Hh as [-> _].
Qed.

Lemma stream_run_total ins s : is_Some (stream_run ins s).
Proof.
  revert s. induction ins as [|i ins IH]; intros s; [by eexists|]. cbn [stream_run].
  assert (is_Some (stream_step i s)) as [[s1 o1] ->].
  { destruct i as [| | | |it]; simpl; try by eexists. unfold iterate.
    destruct (poll_chains it s) as [s1 o1]. destruct (drain_journal _ _ _ _ _) as [s2 o2].
    destruct (should_flush _ _); [|by eexists]. unfold flush_batch.
    destruct (batcher_take _) as [batch b].
    destruct (push_total (it_world it) (it_key it) batch) as [r ->]. simpl. case_match. by eexists. }
  cbn [mbind option_bind]. destruct (IH s1) as [[s2 o2] ->]. by eexists.
Qed.

(** C9: nothing private leaves the machine: in every run of the publisher, and in its
    last flush, the body of every request is the text of lines each of which
    was made from one record or envelope whose own scope is public, or team with
    the session in a team, decided while a session was there; a record without
    a scope, with a private or with a malformed one is in no request. *)
Theorem stream_no_leak auth fs s0 ins s tr world key last :
  start auth fs = Some s0 → stream_run ins s0 = Some (s, tr) →
  final_flush world key s = Some last →
  ∀ b r, OPushed b r ∈ tr ++ last →
    Forall (λ q, q.2 = to_ndjson b) (pr_requests r)
    ∧ ∀ l, l ∈ b_lines b → ∃ e, OQueued e ∈ tr ∧ en_line e = Some l ∧ published (en_origin e) l.
Proof.
  intros Hs Hr Hf b r Hin.
  assert (good (sm_cursor s0) s tr) as (fin & wait & Hg)
    by exact (stream_run_good _ ins s0 [] s tr (start_good _ _ _ Hs) Hr).
  assert ((∃ world key, push_batch world key b = Some r)
          ∧ ∀ l, l ∈ b_lines b → l ∈ lines_of (queued tr)) as [(w & k & Hp) Hl].
  { apply elem_of_app in Hin as [Hin|Hin]; [by apply (good_pushed _ _ _ _ _ Hg)|].
    unfold final_flush in Hf. destruct (has_pending _); [|injection Hf as <-; by apply not_elem_of_nil in Hin].
    destruct (batcher_take (sm_batcher s)) as [batch b'] eqn:Et.
    destruct (push_batch world key batch) as [r'|] eqn:Ep; [|done]. injection Hf as <-.
    apply list_elem_of_singleton in Hin. injection Hin as -> ->. split; [by eauto|].
    destruct (waiting_take _ _ _ _ (good_waiting _ _ _ _ _ Hg) Et) as (now & rest & Hw & [-> _] & _).
    rewrite (good_queue _ _ _ _ _ Hg), Hw, !lines_of_app. set_solver. }
  split; [by eapply push_body|]. intros l (e & He & Hel)%Hl%list_elem_of_omap. exists e.
  split_and!; [|done|by eapply (good_gate _ _ _ _ _ Hg)].
  apply list_elem_of_omap in He as ([] & Ho & He); try done. by injection He as ->.
Qed.

(** C28: the publisher refines a queue: its runs never block, and in each the events that
    were queued split into a settled part and a waiting part, oldest first: the
    lines of the batches the server has answered for good are those of the
    settled part, in order and once each; the cursor is the one it was started
    with, advanced over exactly the settled part; the lines it still holds, with
    at most one batch held back for a retry, are those of the waiting part. *)
Theorem stream_refines_queue auth fs s0 ins :
  start auth fs = Some s0 →
  ∃ s tr, stream_run ins s0 = Some (s, tr)
  ∧ ∃ fin wait, queued tr = fin ++ wait
    ∧ concat (map b_lines (settled tr)) = lines_of fin
    ∧ sm_cursor s = advance_all (advances_of fin) (sm_cursor s0)
    ∧ length (ba_held (sm_batcher s)) ≤ 1
    ∧ concat (map b_lines (ba_held (sm_batcher s) ++ [ba_pending (sm_batcher s)])) = lines_of wait.
Proof.
  intros Hs. destruct (stream_run_total ins s0) as [[s tr] Hr]. exists s, tr. split; [done|].
  assert (good (sm_cursor s0) s tr) as (fin & wait & [])
    by exact (stream_run_good _ ins s0 [] s tr (start_good _ _ _ Hs) Hr).
  exists fin, wait. destruct (waiting_lines _ _ good_waiting0). by split_and!.
Qed.

Lemma process_seal_queues now id auth ev s :
  (¬ may_leave auth (seal_scope (se_record ev)) ∨ is_Some (identity parse_uuid auth)) →
  ∃ s' e first line, process_seal now id auth ev s = (s', [OQueued e])
  ∧ en_advance e = Some (event_advance ev)
  ∧ sm_batcher s' = set_pending (add_seal_advance (event_advance ev) line (ba_pending (sm_batcher s)))
                      first (sm_batcher s).
Proof.
  intros Hi. unfold process_seal, evaluate_seal.
  match goal with |- context [gate_decide ?a ?b ?c ?d ?w] => pose proof (gate_publish a b c d w) as Hp end.
  destruct (gate_decide _ _ _ _ _) as [d gate]. cbn [fst] in Hp. rewrite Hp.
  destruct (decide (may_leave auth (seal_scope (se_record ev)))) as [Hm|Hm].
  - rewrite bool_decide_eq_true_2 by done. cbn [negb]. destruct Hi as [|[[[ws acc] team] ->]]; [done|].
    by repeat eexists.
  - rewrite bool_decide_eq_false_2 by done. cbn [negb]. by repeat eexists.
Qed.

(** a public record can be skipped for good: when it is read while the session has a
    bearer but no workspace or account (no identity), it is neither queued nor
    noted; the next record of its chain, published or gated, carries the
    advance, and once that batch settles the chain's cursor is past both. *)
Theorem no_identity_skips now id id' auth auth' ev ev' s :
  may_leave auth (seal_scope (se_record ev)) → identity parse_uuid auth = None →
  se_chain_id ev' = se_chain_id ev →
  (¬ may_leave auth' (seal_scope (se_record ev')) ∨ is_Some (identity parse_uuid auth')) →
  let '(s1, o1) := process_seal now id auth ev s in
  let '(s2, o2) := process_seal now id' auth' ev' s1 in
  o1 = [] ∧ sm_batcher s1 = sm_batcher s
  ∧ (∃ e, o2 = [OQueued e] ∧ en_advance e = Some (event_advance ev'))
  ∧ ∀ c, cc_offset <$> cursor_advance (ba_pending (sm_batcher s2)) c !! se_chain_id ev
         = Some (se_byte_end ev').
Proof.
  intros Hm Hid Hch Hi.
  assert (∃ gate, process_seal now id auth ev s = (set_sm_queue gate (sm_batcher s) s, [])) as [gate ->].
  { unfold process_seal, evaluate_seal.
    match goal with |- context [gate_decide ?a ?b ?c ?d ?w] => pose proof (gate_publish a b c d w) as Hp end.
    destruct (gate_decide _ _ _ _ _) as [d gate]. cbn [fst] in Hp.
    rewrite Hp, bool_decide_eq_true_2 by done. cbn [negb]. rewrite Hid. by eexists. }
  destruct (process_seal_queues now id' auth' ev' (set_sm_queue gate (sm_batcher s) s) Hi)
    as (s2 & e & first & line & -> & He & Hb).
  split_and!; [done|done|by exists e|]. intros c. rewrite Hb. unfold cursor_advance.
  cbn [ba_pending set_pending]. unfold add_seal_advance. cbn [b_seal_advances].
  rewrite advance_coalesced. unfold advance_all. rewrite foldl_app. simpl. unfold cursor_set.
  rewrite Hch, lookup_insert_eq. done.
Qed.

(** Once the session has expired the status says so for the rest of the run, also
    after a login and [resume]. *)
Lemma flush_no_auth world key s s' o :
  flush_batch world key s = Some (s', o) → sm_no_auth s = true → sm_no_auth s' = true.
Proof.
  unfold flush_batch. destruct (batcher_take _) as [batch b]. destruct (push_batch _ _ _) as [r|]; [|done].
  cbn [mbind option_bind]. intros [= Hs]. destruct (pr_outcome r) as [[]|]; by injection Hs as <- <-.
Qed.

Lemma process_seal_no_auth now id auth ev s :
  sm_no_auth (process_seal now id auth ev s).1 = sm_no_auth s.
Proof. unfold process_seal. by repeat case_match. Qed.

Lemma process_all_no_auth it n evs s : sm_no_auth (process_all it n evs s).1 = sm_no_auth s.
Proof.
  revert n s. induction evs as [|ev evs IH]; intros n s; [done|]. cbn [process_all].
  pose proof (process_seal_no_auth (it_now it) (it_id it n) (it_auth it n) ev s) as H1.
  destruct (process_seal _ _ _ _ _) as [s1 o1]. specialize (IH (S n) s1).
  destruct (process_all _ _ _ _) as [s2 o2]. cbn in *. congruence.
Qed.

Lemma no_auth_sticky ins s s' o :
  stream_run ins s = Some (s', o) → sm_no_auth s = true → status s' = NoAuth.
Proof.
  intros Hr Hn. enough (sm_no_auth s' = true) as Hn' by (unfold status; by rewrite Hn').
  revert s s' o Hr Hn. induction ins as [|i ins IH]; intros s s' o Hr Hn; cbn [stream_run] in Hr;
    [by injection Hr as <- <-|].
  destruct (stream_step i s) as [[s1 o1]|] eqn:E1; [|done]. cbn [mbind option_bind] in Hr.
  destruct (stream_run ins s1) as [[s2 o2]|] eqn:E2; [|done]. injection Hr as <- <-.
  eapply (IH s1); [done|]. destruct i as [e| | | |it]; simpl in E1.
  - injection E1 as <- <-. unfold journal_pump. by case_match.
  - by injection E1 as <- <-.
  - injection E1 as <- <-. unfold pause. by repeat case_match.
  - by injection E1 as <- <-.
  - unfold iterate in E1.
    assert (sm_no_auth (poll_chains it s).1 = true) as H1.
    { unfold poll_chains. destruct (sm_paused s); [done|]. destruct (poll _ _ _ _) as [[src evs] fs].
      by rewrite process_all_no_auth. }
    destruct (poll_chains it s) as [t1 p1]. cbn in H1.
    match type of E1 with context [drain_journal ?a ?b ?c ?d t1] =>
      assert (sm_no_auth (drain_journal a b c d t1).1 = true) as H2;
        [|destruct (drain_journal a b c d t1) as [t2 p2]] end.
    { unfold drain_journal, process_journal. by repeat case_match. }
    cbn in H2. destruct (should_flush _ _); [|by injection E1 as <- <-].
    destruct (flush_batch _ _ t2) as [[t3 p3]|] eqn:Ef; [|done]. injection E1 as <- <-.
    by eapply flush_no_auth.
Qed.

End loop.

(** ** Examples *)

Section examples.

#[local] Instance line_text : JsonText := λ _, #"{}".

#[local] Instance record_serde : Serde SealRecord := table_serde [public_record; private_record].

#[local] Instance cursor_serde : Serde ChainCursor := table_serde [sample_cursor].

Definition config : StreamConfig := mkStreamConfig home (home ++ [ #"state"]) 1 262144 5000 false.

Definition session : AuthContext := mkAuthContext (Some #"bearer") (Some (mkSession (Some #"w") (Some #"a"))) None.

Definition sample_iteration : Iteration :=
  mkIteration 0 #"now" false (λ _, session) (λ _, #"id")
    (λ _, mkAttempt session (HttpResponse 200 (Some 1%N) None) session) #"key".

Definition sample_start : StreamTask :=
  default (mkStreamTask sample_fs ∅ (batcher_new 0 0 0) ∅ (mkSealSource [] ∅ None 0 false) [] false false
             false 0 0) (start config session sample_fs).

Definition sample_run : StreamTask * list obs :=
  default (sample_start, [])
    (stream_run Some Some (λ _, None) config [ITick sample_iteration] sample_start).

Lemma sample_started : start config session sample_fs = Some sample_start.
Proof. by vm_compute. Qed.

Lemma sample_ran :
  stream_run Some Some (λ _, None) config [ITick sample_iteration] sample_start
  = Some (sample_run.1, sample_run.2).
Proof. by vm_compute. Qed.

(** The public record is in the one request, the private one is not. *)
Example sample_sent :
  map (λ o, match o with
            | OQueued e => (0, length (lines_of [e]))
            | OPushed b r => (1, length (b_lines b))
            | OSettled b => (2, length (b_lines b))
            end) sample_run.2 = [(0, 1); (0, 0); (1, 1); (2, 1)].
Proof. by vm_compute. Qed.

Lemma stream_no_leak_witness :
  length sample_run.2 = 4
  ∧ ∀ b r, OPushed b r ∈ sample_run.2 ++ [] →
      Forall (λ q, q.2 = to_ndjson b) (pr_requests r)
      ∧ ∀ l, l ∈ b_lines b →
          ∃ e, OQueued e ∈ sample_run.2 ∧ en_line e = Some l
               ∧ published Some Some (λ _, None) (en_origin e) l.
Proof.
  split; [by vm_compute|].
  apply (stream_no_leak Some Some (λ _, None) config session sample_fs sample_start
           [ITick sample_iteration] sample_run.1 sample_run.2
           (λ _, mkAttempt session TransportError session) #"key" []).
  - apply sample_started.
  - apply sample_ran.
  - by vm_compute.
Defined.

Lemma stream_refines_queue_witness :
  ∃ s tr, stream_run Some Some (λ _, None) config [ITick sample_iteration] sample_start = Some (s, tr)
  ∧ ∃ fin wait, queued tr = fin ++ wait
    ∧ concat (map b_lines (settled tr)) = lines_of fin
    ∧ sm_cursor s = advance_all (advances_of fin) (sm_cursor sample_start)
    ∧ length (ba_held (sm_batcher s)) ≤ 1
    ∧ concat (map b_lines (ba_held (sm_batcher s) ++ [ba_pending (sm_batcher s)])) = lines_of wait.
Proof.
  apply (stream_refines_queue Some Some (λ _, None) config session sample_fs sample_start
           [ITick sample_iteration] sample_started).
Defined.

Definition no_session : AuthContext := mkAuthContext (Some #"bearer") None None.

Definition event (r : SealRecord) (n : N) : SealEvent := mkSealEvent #"workspace" r n.

Lemma no_identity_skips_witness :
  let '(s1, o1) := process_seal Some 0 #"i" no_session (event public_record 2) sample_start in
  let '(s2, o2) := process_seal Some 0 #"j" session (event private_record 5) s1 in
  o1 = [] ∧ sm_batcher s1 = sm_batcher sample_start
  ∧ (∃ e, o2 = [OQueued e] ∧ en_advance e = Some (event_advance (event private_record 5)))
  ∧ ∀ c, cc_offset <$> cursor_advance (ba_pending (sm_batcher s2)) c !! #"workspace" = Some 5%N.
Proof.
  apply (no_identity_skips Some 0 #"i" #"j" no_session session (event public_record 2)
           (event private_record 5) sample_start).
  - apply (bool_decide_unpack _). by vm_compute.
  - reflexivity.
  - reflexivity.
  - left. apply (bool_decide_unpack _). by vm_compute.
Defined.

End examples.
