(* ===== verification/Terminal.v ===== *)
(** * Terminal: what the prompt detector sees

    [crates/orkia-shell/src/terminal_state], without its threads: the signals
    taken from an agent's terminal stream ([vte_interceptor.rs]), the operating
    system's view of the agent's process ([process_state.rs]), the score that says
    that an agent waits for input ([prompt_detector.rs]), the guess at the kind of
    prompt ([classifier.rs]), and the queue of bodies that wait for their agent
    ([pending_prompt.rs]).

    Instants and durations are nanoseconds; [duration_since] saturates at zero. An
    [f32] is a binary32 number of the standard library's [SpecFloat], with the
    rounding of its operations. *)

From Stdlib Require Import NArith ZArith Lia SpecFloat.
From stdpp Require Import base gmap strings option numbers list list_basics.
From S2P Require Import Prelude Text.

(** ** Time and [f32] *)

Definition millis (n : N) : N := (n * 1000000)%N.
Definition secs (n : N) : N := (n * 1000000000)%N.

(** [now.duration_since(t)] *)
Definition since (now t : N) : N := (now - t)%N.

Abbreviation f32 := spec_float (only parsing).

Definition f32_add : f32 → f32 → f32 := SFadd 24 128.
Definition f32_mul : f32 → f32 → f32 := SFmul 24 128.

(** [a >= b] and [a < b]; both are false when one of them is not a number. *)
Definition f32_geb (a b : f32) : bool := SFleb b a.

(** [f32::min], when neither is a NaN. *)
Definition f32_min (a b : f32) : f32 := if SFleb a b then a else b.

Definition f32_of_pos (p : positive) : f32 := binary_normalize 24 128 (Zpos p) 0 false.

(** The literal [n/d]: a quotient of exact numbers is rounded once. *)
Definition f32_lit (n d : positive) : f32 := SFdiv 24 128 (f32_of_pos n) (f32_of_pos d).

Definition f32_zero : f32 := S754_zero false.

(** ** Kinds of prompt *)

Inductive PromptType :=
| YesNo | MultipleChoice | Password | ShellPrompt | Continuation | AltScreenProgram | Generic.

#[export] Instance PromptType_eq_dec : EqDecision PromptType.
Proof. solve_decision. Defined.

Definition is_password_prompt (lower_trimmed : str) : bool :=
  ends_with #"password:" lower_trimmed || ends_with #"passphrase:" lower_trimmed
  || ends_with #"secret:" lower_trimmed || ends_with #"token:" lower_trimmed
  || contains #"password for " lower_trimmed || contains #"[sudo] password" lower_trimmed.

Definition recent_password_hint (recent : list str) : bool :=
  existsb (λ l, let l := to_ascii_lowercase l in
                contains #"password:" l || contains #"passphrase:" l || contains #"[sudo] password" l)
          recent.

Definition YN_PATTERNS : list str :=
  [ #"[Y/n]"; #"[y/N]"; #"[y/n]"; #"[Y/N]"; #"(yes/no)"; #"(y/n)"; #"(Y/N)"; #"(Y/n)"; #"(y/N)"; #"yes/no"].

Definition has_yn_pattern (line : str) : bool := existsb (λ p, contains p line) YN_PATTERNS.

Definition has_char (c : char) (s : str) : bool := existsb (N.eqb c) s.

(** [U+25CF], [U+25CB], [U+25EF], [U+276F], [U+2192], [U+279C] *)
Definition has_choice_in_line (l : str) : bool :=
  let t := trim_start l in
  has_char 9679 l || has_char 9675 l || has_char 9711 l
  || contains #"[ ]" l || contains #"[x]" l || contains #"[X]" l
  || (starts_with [10095; 32]%N t && (3 <? byte_len t)%N)
  || (starts_with #">" t && (2 <? byte_len t)%N && negb (ends_with #">" t))
  || starts_with [8594; 32]%N t || starts_with [10140; 32]%N t
  || starts_with #"1." t || starts_with #"1)" t.

Definition has_choice_indicators (current : str) (recent : list str) : bool :=
  has_choice_in_line current || existsb has_choice_in_line recent.

Definition is_continuation (lower : str) : bool :=
  contains #"press enter" lower || contains #"press any key" lower || contains #"press [enter]" lower
  || contains #"to continue" lower || contains #"--more--" lower.

Definition is_shell_prompt (line : str) : bool :=
  match last (trim_end line) with
  | Some c => ((c =? 36) || (c =? 62) || (c =? 10095) || (c =? 35) || (c =? 37))%N
  | None => false
  end.

(** Every way out of this function gives the same answer. *)
Definition classify_alt_screen (recent : list str) : PromptType := AltScreenProgram.

Definition classify (current_line : str) (recent_lines : list str) (alt_screen : bool) : PromptType :=
  if alt_screen then classify_alt_screen recent_lines
  else
    let trimmed := trim current_line in
    let lower := to_ascii_lowercase trimmed in
    if is_password_prompt lower || recent_password_hint recent_lines then Password
    else if has_yn_pattern trimmed || existsb has_yn_pattern recent_lines then YesNo
    else if has_choice_indicators trimmed recent_lines then MultipleChoice
    else if is_continuation lower || existsb (λ l, is_continuation (to_ascii_lowercase l)) recent_lines
    then Continuation
    else if is_shell_prompt trimmed then ShellPrompt
    else Generic.

(** ** Signals of the terminal stream *)

Definition CURRENT_LINE_CAP : N := 4096.
Definition RECENT_LINES_CAP : nat := 16.

Record VteSignals := mkSignals {
  last_write_at : N;
  write_count_since_reset : N;
  cursor_positioned_after_text : bool;
  cursor_row : N;
  cursor_col : N;
  sig_alt_screen : bool;
  current_line : str;
  recent_lines : list str;
}.

Definition signals_new (now : N) : VteSignals := mkSignals now 0 false 1 1 false [] [].

Definition idle_duration (now : N) (s : VteSignals) : N := since now (last_write_at s).

Definition u64_max : N := 18446744073709551615.

Definition push_char (now : N) (c : char) (s : VteSignals) : VteSignals :=
  mkSignals now (N.min u64_max (write_count_since_reset s + 1)) false (cursor_row s) (cursor_col s)
            (sig_alt_screen s)
            (if (byte_len (current_line s) <? CURRENT_LINE_CAP)%N then current_line s ++ [c]
             else current_line s)
            (recent_lines s).

Definition newline (now : N) (s : VteSignals) : VteSignals :=
  let kept := if (RECENT_LINES_CAP <=? length (recent_lines s))%nat then tail (recent_lines s)
              else recent_lines s in
  mkSignals now (write_count_since_reset s) (cursor_positioned_after_text s) (cursor_row s)
            (cursor_col s) (sig_alt_screen s) [] (kept ++ [current_line s]).

Definition cursor_move (now : N) (row col : option N) (s : VteSignals) : VteSignals :=
  mkSignals now (write_count_since_reset s) true (default (cursor_row s) row)
            (default (cursor_col s) col) (sig_alt_screen s) (current_line s) (recent_lines s).

Definition activity (now : N) (s : VteSignals) : VteSignals :=
  mkSignals now (write_count_since_reset s) (cursor_positioned_after_text s) (cursor_row s)
            (cursor_col s) (sig_alt_screen s) (current_line s) (recent_lines s).

Definition set_alt (b : bool) (s : VteSignals) : VteSignals :=
  mkSignals (last_write_at s) (write_count_since_reset s) (cursor_positioned_after_text s)
            (cursor_row s) (cursor_col s) b (current_line s) (recent_lines s).

(** The calls of the terminal parser on its handler that the detector answers; a
    private mode is the alternate screen or another one, and [VActivity] is any of
    the calls that only count as a sign of life (carriage return, relative cursor
    moves, title, cursor style and shape, bell). *)
Inductive VteCall :=
| VInput (c : char)
| VLinefeed
| VNewline
| VGoto (line : Z) (col : N)
| VGotoLine (line : Z)
| VGotoCol (col : N)
| VSetPrivateMode (alternate : bool)
| VUnsetPrivateMode (alternate : bool)
| VActivity.

(** [u32::try_from(x).unwrap_or(0).saturating_add(1)] *)
Definition cell (n : N) : N := if (n <=? u32_max)%N then N.min u32_max (n + 1) else 1%N.

Definition handle_call (now : N) (s : VteSignals) (call : VteCall) : VteSignals :=
  match call with
  | VInput c => push_char now c s
  | VLinefeed | VNewline => newline now s
  | VGoto line col => cursor_move now (Some (cell (Z.to_N (Z.max line 0)))) (Some (cell col)) s
  | VGotoLine line => cursor_move now (Some (cell (Z.to_N (Z.max line 0)))) None s
  | VGotoCol col => cursor_move now None (Some (cell col)) s
  | VSetPrivateMode a => activity now (if a then set_alt true s else s)
  | VUnsetPrivateMode a => activity now (if a then set_alt false s else s)
  | VActivity => activity now s
  end.

Definition handle_calls (now : N) (calls : list VteCall) (s : VteSignals) : VteSignals :=
  foldl (handle_call now) s calls.

(** ** The agent's process *)

Section process.
(** [/proc/<pid>/task/<pid>/children], [kill(pid, 0)], and the two files the
    probe reads. *)
Context (first_child : N → option N) (is_pid_alive : N → bool).

Fixpoint find_leaf (hops : nat) (current : N) : N :=
  match hops with
  | O => current
  | S h => match first_child current with
           | Some child => if (child =? current)%N then current else find_leaf h child
           | None => current
           end
  end.

Definition find_leaf_child (pid : N) : N := find_leaf 5 pid.

(** The leaf, and the cache after the call. *)
Definition resolve_leaf (pid : N) (cached_leaf : option N) : N * option N :=
  let walk := (find_leaf_child pid, Some (find_leaf_child pid)) in
  match cached_leaf with
  | Some leaf => if is_pid_alive leaf then (leaf, cached_leaf) else walk
  | None => walk
  end.
End process.

Definition WAIT_STRONG : f32 := f32_lit 1 1.
Definition WAIT_POLL : f32 := f32_lit 7 10.
Definition WAIT_READ : f32 := f32_lit 6 10.
Definition WAIT_UNKNOWN : f32 := f32_lit 5 10.
Definition WAIT_RUNNING : f32 := f32_lit 2 10.

(** The second half of [linux_check]: the system call the process is in. *)
Definition syscall_check (syscall : option str) : f32 :=
  match syscall with
  | Some s =>
      match split_whitespace s with
      | nr :: args =>
          if decide (nr = #"0") then
            if decide (head args = Some #"0x0") then WAIT_STRONG else WAIT_READ
          else if decide (nr ∈ [ #"7"; #"23"; #"270"; #"281"]) then WAIT_POLL else WAIT_UNKNOWN
      | [] => WAIT_UNKNOWN
      end
  | None => WAIT_UNKNOWN
  end.

Definition linux_check (wchan syscall : option str) : f32 :=
  match wchan with
  | Some text =>
      let w := trim text in
      if contains #"tty_read" w || contains #"n_tty_read" w then WAIT_STRONG
      else if contains #"poll" w || contains #"select" w || contains #"epoll" w then WAIT_POLL
      else if bool_decide (w = #"0") || is_empty w then WAIT_RUNNING
      else syscall_check syscall
  | None => syscall_check syscall
  end.

(** [ps -o state=], when it ran. *)
Definition macos_check (ps : option str) : f32 :=
  match ps with
  | Some out =>
      let state := trim out in
      if starts_with #"S" state then f32_lit 85 100
      else if starts_with #"I" state then f32_lit 8 10
      else if starts_with #"R" state then WAIT_RUNNING
      else WAIT_UNKNOWN
  | None => WAIT_UNKNOWN
  end.

(** ** The score *)

Record PromptReadiness := mkReadiness {
  prompt_detected : bool;
  confidence : f32;
  pr_idle : N;
}.

Definition IDLE_THRESHOLD_STRONG : N := millis 800.
Definition IDLE_THRESHOLD_DEFAULT : N := millis 1500.
Definition CONFIDENCE_THRESHOLD : f32 := f32_lit 55 100.

(** [if cond { confidence += w }] *)
Definition bump (cond : bool) (w : f32) (c : f32) : f32 := if cond then f32_add c w else c.

Definition score (idle : N) (cursor_ready alt_screen process_in_read strong : bool) : f32 :=
  let c := f32_lit 20 100 in
  let c := bump (secs 2 <=? idle)%N (f32_lit 10 100) c in
  let c := bump (secs 5 <=? idle)%N (f32_lit 5 100) c in
  let c := bump (secs 10 <=? idle)%N (f32_lit 5 100) c in
  let c := bump cursor_ready (f32_lit 10 100) c in
  let c := if process_in_read then bump strong (f32_lit 5 100) (f32_add c (f32_lit 30 100)) else c in
  let c := if alt_screen && negb process_in_read then f32_mul c (f32_lit 3 10) else c in
  f32_min c (f32_lit 99 100).

Definition detect_prompt (now : N) (vte : VteSignals) (process_waiting : f32) : PromptReadiness :=
  let idle := idle_duration now vte in
  let no_detection := mkReadiness false f32_zero idle in
  let strong := f32_geb process_waiting (f32_lit 9 10) in
  if (write_count_since_reset vte =? 0)%N then no_detection
  else
    let idle_required := if strong then IDLE_THRESHOLD_STRONG else IDLE_THRESHOLD_DEFAULT in
    if (idle <? idle_required)%N then no_detection
    else
      let c := score idle (cursor_positioned_after_text vte) (sig_alt_screen vte)
                     (f32_geb process_waiting (f32_lit 7 10)) strong in
      mkReadiness (f32_geb c CONFIDENCE_THRESHOLD) c idle.

(** ** Bodies that wait for their agent *)

Inductive PendingState :=
| WaitingForBoot | WaitingForApproval | WaitingForReady | ReadyToInject | Idle.

#[export] Instance PendingState_eq_dec : EqDecision PendingState.
Proof. solve_decision. Defined.

Record PendingPrompt := mkPending {
  bodies : list str;
  pp_agent_name : str;
  created_at : N;
  pp_state : PendingState;
  ready_since : option N;
  boot_prompts_resolved : N;
}.

Record DroppedPrompt := mkDropped {
  dp_job_id : N;
  dp_agent_name : str;
  dp_bodies : list str;
  state_at_drop : PendingState;
}.

Abbreviation PendingPromptQueue := (gmap N PendingPrompt) (only parsing).

Definition set_bodies (b : list str) (e : PendingPrompt) : PendingPrompt :=
  mkPending b (pp_agent_name e) (created_at e) (pp_state e) (ready_since e) (boot_prompts_resolved e).

(** A new state, and [ready_since] with it where one is given. *)
Definition go_to (st : PendingState) (ready : option (option N)) (e : PendingPrompt) : PendingPrompt :=
  mkPending (bodies e) (pp_agent_name e) (created_at e) st (default (ready_since e) ready)
            (boot_prompts_resolved e).

Definition enqueue (now job_id : N) (body : option str) (agent_name : str) (q : PendingPromptQueue)
  : PendingPromptQueue :=
  <[job_id := mkPending (option_list body) agent_name now WaitingForBoot None 0]> q.

Definition append_entry (now : N) (body : str) (e : PendingPrompt) : PendingPrompt :=
  let e := set_bodies (bodies e ++ [body]) e in
  if decide (pp_state e = Idle) then go_to WaitingForReady (Some (Some now)) e else e.

Definition append_body (now job_id : N) (body : str) (q : PendingPromptQueue)
  : bool * PendingPromptQueue :=
  match q !! job_id with
  | None => (false, q)
  | Some e => (true, <[job_id := append_entry now body e]> q)
  end.

Definition pending_count (job_id : N) (q : PendingPromptQueue) : nat :=
  default 0 (length ∘ bodies <$> q !! job_id).

Definition waiting (st : PendingState) : bool :=
  match st with WaitingForBoot | WaitingForReady => true | _ => false end.

Definition on_boot_prompt_detected (job_id : N) (q : PendingPromptQueue) : PendingPromptQueue :=
  alter (λ e, if waiting (pp_state e) then go_to WaitingForApproval (Some None) e else e) job_id q.

Definition on_boot_prompt_resolved (now job_id : N) (q : PendingPromptQueue) : PendingPromptQueue :=
  alter (λ e, if decide (pp_state e = WaitingForApproval) then
                mkPending (bodies e) (pp_agent_name e) (created_at e) WaitingForReady (Some now)
                          (N.min u32_max (boot_prompts_resolved e + 1))
              else e) job_id q.

Definition on_agent_ready (job_id : N) (q : PendingPromptQueue) : PendingPromptQueue :=
  alter (λ e, if waiting (pp_state e) then
                go_to (if is_empty (bodies e) then Idle else ReadyToInject) None e
              else e) job_id q.

Definition force_inject_if_idle (now job_id idle : N) (q : PendingPromptQueue)
  : bool * PendingPromptQueue :=
  match q !! job_id with
  | None => (false, q)
  | Some e =>
      if decide (pp_state e ≠ WaitingForReady) then (false, q)
      else if is_empty (bodies e) then (false, <[job_id := go_to Idle None e]> q)
      else match ready_since e with
           | None => (false, q)
           | Some t =>
               if (since now t <? secs 1)%N then (false, q)
               else if (idle <? millis 1500)%N then (false, q)
               else (true, <[job_id := go_to ReadyToInject None e]> q)
           end
  end.

Definition boot_inject_if_idle (now job_id idle : N) (q : PendingPromptQueue)
  : bool * PendingPromptQueue :=
  match q !! job_id with
  | None => (false, q)
  | Some e =>
      if bool_decide (pp_state e ≠ WaitingForBoot) || is_empty (bodies e) then (false, q)
      else if (since now (created_at e) <? secs 2)%N then (false, q)
      else if (idle <? millis 1500)%N then (false, q)
      else (true, <[job_id := go_to ReadyToInject None e]> q)
  end.

Definition take_ready (now job_id : N) (q : PendingPromptQueue) : option str * PendingPromptQueue :=
  match q !! job_id with
  | None => (None, q)
  | Some e =>
      if decide (pp_state e ≠ ReadyToInject) then (None, q)
      else match bodies e with
           | [] => (None, q)
           | body :: rest =>
               let e := set_bodies rest e in
               (Some body,
                <[job_id := if is_empty rest then go_to Idle (Some None) e
                            else go_to WaitingForReady (Some (Some now)) e]> q)
           end
  end.

Definition has_pending (job_id : N) (q : PendingPromptQueue) : bool :=
  default false (negb ∘ is_empty ∘ bodies <$> q !! job_id).

Definition pending_body (job_id : N) (q : PendingPromptQueue) : option str :=
  q !! job_id ≫= (λ e, head (bodies e)).

Definition queue_state (job_id : N) (q : PendingPromptQueue) : option PendingState :=
  pp_state <$> q !! job_id.

Definition cleanup (job_id : N) (q : PendingPromptQueue) : option DroppedPrompt * PendingPromptQueue :=
  match q !! job_id with
  | None => (None, q)
  | Some e =>
      (if is_empty (bodies e) then None
       else Some (mkDropped job_id (pp_agent_name e) (bodies e) (pp_state e)),
       delete job_id q)
  end.

(** The listings follow the order of the map. *)
Definition entries_internal (q : PendingPromptQueue) : list (N * str * str * PendingState) :=
  (λ kv : N * PendingPrompt,
     (kv.1, pp_agent_name kv.2, default [] (head (bodies kv.2)), pp_state kv.2)) <$> map_to_list q.

Definition check_timeouts (now : N) (q : PendingPromptQueue) : list (N * N) :=
  omap (λ kv : N * PendingPrompt,
          let age := since now (created_at kv.2) in
          if is_empty (bodies kv.2) then None
          else if (secs 60 <? age)%N then Some (kv.1, age) else None) (map_to_list q).

(** ** Correctness of the score *)

(** Whatever else is true, the score reaches the threshold exactly when the process
    is seen waiting and one more signal speaks for a prompt. *)
Lemma score_detects idle cursor alt inread strong :
  f32_geb (score idle cursor alt inread strong) CONFIDENCE_THRESHOLD
  = inread && (strong || (secs 2 <=? idle)%N || cursor).
Proof.
  unfold score.
  assert ((secs 2 <=? idle)%N = false → (secs 5 <=? idle)%N = false ∧ (secs 10 <=? idle)%N = false) as Hm
    by (rewrite !N.leb_gt; unfold secs; lia).
  destruct (secs 2 <=? idle)%N; [clear Hm|by destruct (Hm eq_refl) as [-> ->]; destruct cursor, alt, inread, strong].
  destruct (secs 5 <=? idle)%N, (secs 10 <=? idle)%N, cursor, alt, inread, strong; done.
Qed.

(** What is at least 0.9 is at least 0.7. *)
Lemma strong_waits x : f32_geb x (f32_lit 9 10) = true → f32_geb x (f32_lit 7 10) = true.
Proof.
  unfold f32_geb, SFleb.
  change (f32_lit 9 10) with (S754_finite false 15099494 (-24)).
  change (f32_lit 7 10) with (S754_finite false 11744051 (-24)).
  destruct x as [[]|[]| |[] m e]; try done. unfold SFcompare.
  destruct (-24 ?= e)%Z; try done. fold (Pos.compare 15099494 m) (Pos.compare 11744051 m).
  assert ((15099494 ≤ m)%positive → (11744051 ≤ m)%positive) as Hle by lia. unfold Pos.le in Hle.
  destruct (15099494 ?= m)%positive; [| |discriminate];
    destruct (11744051 ?= m)%positive; intros; (reflexivity || (exfalso; apply Hle; discriminate || reflexivity)).
Qed.

Lemma score_capped idle cursor alt inread strong :
  SFleb (score idle cursor alt inread strong) (f32_lit 99 100) = true.
Proof.
  unfold score. by destruct (secs 2 <=? idle)%N, (secs 5 <=? idle)%N, (secs 10 <=? idle)%N, cursor,
    alt, inread, strong.
Qed.

(** A prompt is reported exactly when the agent has written something and the
    operating system shows its process waiting: either surely, for 800 ms, or
    possibly, for 1.5 s with the cursor placed after text, or for 2 s. Without that
    signal no amount of silence is a prompt, on the alternate screen or off it, and
    the confidence is never above 0.99. *)
Theorem detect_prompt_table now vte waiting :
  let r := detect_prompt now vte waiting in
  let idle := idle_duration now vte in
  (prompt_detected r = true ↔
     write_count_since_reset vte ≠ 0%N ∧
     f32_geb waiting (f32_lit 7 10) = true ∧
     (f32_geb waiting (f32_lit 9 10) = true ∧ (millis 800 ≤ idle)%N ∨
      (millis 1500 ≤ idle)%N ∧ (cursor_positioned_after_text vte = true ∨ (secs 2 ≤ idle)%N))) ∧
  SFleb (confidence r) (f32_lit 99 100) = true.
Proof.
  unfold detect_prompt. set (idle := idle_duration now vte).
  pose proof (strong_waits waiting) as Hsi.
  destruct (f32_geb waiting (f32_lit 9 10)) eqn:Es, (N.eqb_spec (write_count_since_reset vte) 0) as [Hw|Hw];
    try (split; [split; [done|by intros [? _]]|done]).
  all: unfold IDLE_THRESHOLD_STRONG, IDLE_THRESHOLD_DEFAULT.
  1: destruct (N.ltb_spec idle (millis 800)) as [Hi|Hi].
  3: destruct (N.ltb_spec idle (millis 1500)) as [Hi|Hi].
  all: cbn [prompt_detected confidence]; rewrite ?score_detects, ?score_capped, ?Hsi by done.
  all: split; [|done].
  all: rewrite ?andb_true_iff, ?orb_true_iff, ?N.leb_le; unfold millis in *; intuition (done || lia).
Qed.

(** ** Bounds of the signals *)

(** What a line can hold: the cap, plus what is left of the character that crosses
    it; what the counters and the cursor can hold. *)
Record signals_bounded (s : VteSignals) : Prop := {
  sb_line : (byte_len (current_line s) ≤ CURRENT_LINE_CAP + 3)%N;
  sb_recent : length (recent_lines s) ≤ RECENT_LINES_CAP;
  sb_lines : Forall (λ l, byte_len l ≤ CURRENT_LINE_CAP + 3)%N (recent_lines s);
  sb_count : (write_count_since_reset s ≤ u64_max)%N;
  sb_row : (1 ≤ cursor_row s ≤ u32_max)%N;
  sb_col : (1 ≤ cursor_col s ≤ u32_max)%N;
}.

Lemma byte_len_snoc l c : byte_len (l ++ [c]) = (byte_len l + utf8_len c)%N.
Proof.
  induction l as [|d l IH]; [simpl; lia|].
  change (byte_len ((d :: l) ++ [c])) with (utf8_len d + byte_len (l ++ [c]))%N.
  change (byte_len (d :: l)) with (utf8_len d + byte_len l)%N. lia.
Qed.

Lemma cell_bounds n : (1 ≤ cell n ≤ u32_max)%N.
Proof. unfold cell, u32_max. case_match; lia. Qed.

Lemma capped_snoc {A} cap (l : list A) x : 0 < cap → length l ≤ cap →
  length ((if cap <=? length l then tail l else l) ++ [x]) ≤ cap.
Proof.
  intros Hc Hl. rewrite length_app. simpl. destruct (Nat.leb_spec cap (length l)); [|lia].
  destruct l; simpl in *; lia.
Qed.

Lemma newline_bounded now s : signals_bounded s → signals_bounded (newline now s).
Proof.
  intros [Hl Hr Hls Hc Hrow Hcol]. split; unfold newline; cbn [current_line recent_lines]; try done.
  - apply capped_snoc; [unfold RECENT_LINES_CAP; lia|done].
  - apply Forall_app_2; [|by repeat constructor]. case_match; [|done]. by apply Forall_tail.
Qed.

Lemma handle_call_bounded now s call : signals_bounded s → signals_bounded (handle_call now s call).
Proof.
  intros Hs. destruct call; cbn [handle_call]; try by apply newline_bounded.
  all: destruct Hs as [Hl Hr Hls Hc Hrow Hcol].
  all: split; cbn; try done; try apply cell_bounds; try (by case_match).
  - destruct (N.ltb_spec (byte_len (current_line s)) CURRENT_LINE_CAP); [|done].
    rewrite byte_len_snoc. unfold utf8_len. repeat case_match; lia.
  - lia.
Qed.

(** However an agent draws, what the detector keeps of its terminal is bounded: a
    line exceeds its cap by at most three bytes, sixteen lines are kept, and
    counters and cursor positions stay in their types. *)
Theorem vte_bounded t0 (runs : list (N * list VteCall)) :
  signals_bounded (foldl (λ s r, handle_calls r.1 r.2 s) (signals_new t0) runs).
Proof.
  assert (∀ s, signals_bounded s → signals_bounded (foldl (λ s r, handle_calls r.1 r.2 s) s runs)) as Hind.
  { induction runs as [|[now calls] runs IH]; intros s Hs; [done|]. simpl. apply IH.
    unfold handle_calls. revert s Hs. induction calls as [|c calls IHc]; intros s Hs; [done|].
    simpl. by apply IHc, handle_call_bounded. }
  apply Hind. by split; simpl; try done; try lia; unfold RECENT_LINES_CAP; try lia.
Qed.

(** What the terminal draws after a line has reached its cap, without a line feed,
    is not seen: the line the classifier reads stays as it is. *)
Lemma full_line_frozen now calls s :
  (CURRENT_LINE_CAP ≤ byte_len (current_line s))%N →
  Forall (λ c, c ≠ VLinefeed ∧ c ≠ VNewline) calls →
  current_line (handle_calls now calls s) = current_line s ∧
  recent_lines (handle_calls now calls s) = recent_lines s.
Proof.
  intros Hs Hc. revert s Hs. unfold handle_calls.
  induction Hc as [|c calls [Hl Hn] Hc IH]; intros s Hs; [done|].
  cbn [foldl].
  assert (current_line (handle_call now s c) = current_line s ∧
          recent_lines (handle_call now s c) = recent_lines s) as [E1 E2].
  { destruct c; try done; cbn -[byte_len CURRENT_LINE_CAP]; try (by case_match).
    by apply N.ltb_ge in Hs as ->. }
  destruct (IH (handle_call now s c)) as [F1 F2]; [by rewrite E1|]. by rewrite F1, F2.
Qed.
