(* ===== verification/Detector.v ===== *)
(** * Detector: delivering queued bodies to agents

    The threads of [crates/orkia-shell/src/terminal_state]: one detector per job
    ([worker.rs]), the handle the shell calls ([TerminalStateMachine] of
    [mod.rs]), and the worker of [repl/state_machine.rs] that acts on what the
    detectors report.

    A run is a list of labels, one for each stretch of code that no other thread
    can cut: a critical section on the queue, or one access to an atomic flag. A
    detector's tick is four of them ([phase]); a call of the shell that takes the
    queue's lock and then sets a flag is two. What the terminal parser makes of the
    bytes, the clock and the files under [/proc] come with the label. The channel's
    receiver is alive. *)

From Stdlib Require Import NArith ZArith Lia SpecFloat.
From stdpp Require Import base gmap strings option numbers list list_basics.
From S2P Require Import Prelude Text Terminal.

(** ** Reports *)

Record JobAttention := mkAttention {
  ja_job_id : N;
  ja_agent_name : str;
  ja_confidence : f32;
  ja_prompt_type : PromptType;
  ja_last_line : str;
  has_pending_body : bool;
  pending_body_preview : option str;
}.

Inductive DetectorEvent :=
| Attention (att : JobAttention)
| Injected (job_id : N) (agent_name body : str)
| Delivered (job_id : N) (agent_name body : str)
| Closed (job_id : N) (exit_code : option Z).

(** U+2026 *)
Definition truncate (s : str) (max : nat) : str :=
  if (length s <=? max)%nat then s else take max s ++ [8230%N].

Definition build_attention (q : PendingPromptQueue) (job_id : N) (pt : PromptType)
    (det : PromptReadiness) (agent_name last_line : str) : JobAttention :=
  mkAttention job_id agent_name (confidence det) pt last_line (has_pending job_id q)
              ((λ b, truncate b 60) <$> pending_body job_id q).

(** ** One tick *)

Definition is_interactive_prompt (p : PromptType) : bool :=
  match p with YesNo | MultipleChoice | Password | Continuation => true | _ => false end.

(** What a tick leaves: the queue, the latch [already_notified], and what it sent. *)
Record tick_result := mkTick {
  tk_queue : PendingPromptQueue;
  tk_notified : bool;
  tk_events : list DetectorEvent;
}.

Definition hold_interactive (q : PendingPromptQueue) (job_id : N) (pt : PromptType)
    (det : PromptReadiness) (agent_name last_line : str) (is_muted : bool) : tick_result :=
  let q := if has_pending job_id q then on_boot_prompt_detected job_id q else q in
  mkTick q true
    (if is_muted then [] else [Attention (build_attention q job_id pt det agent_name last_line)]).

Inductive DeliverOutcome := DoInject | Hold | NoBody.

Definition deliver_outcome (job_id : N) (q : PendingPromptQueue) : DeliverOutcome :=
  if has_pending job_id q then DoInject else NoBody.

Definition deliver_or_hold (now job_id : N) (det : PromptReadiness) (q : PendingPromptQueue)
  : DeliverOutcome * PendingPromptQueue :=
  match queue_state job_id q with
  | Some WaitingForBoot =>
      let q := on_agent_ready job_id q in (deliver_outcome job_id q, q)
  | Some WaitingForReady =>
      let '(fired, q) := force_inject_if_idle now job_id (pr_idle det) q in
      if fired then (deliver_outcome job_id q, q) else (Hold, q)
  | _ => (deliver_outcome job_id q, q)
  end.

Definition maybe_fyi_attention (q : PendingPromptQueue) (job_id : N) (pt : PromptType)
    (det : PromptReadiness) (agent_name last_line : str) (is_muted : bool) : tick_result :=
  mkTick q true
    (if negb is_muted && (secs 10 <=? pr_idle det)%N
     then [Attention (build_attention q job_id pt det agent_name last_line)] else []).

Definition handle_detection (now job_id : N) (agent_name : str) (signals : VteSignals)
    (det : PromptReadiness) (is_muted : bool) (notified : bool) (q : PendingPromptQueue) : tick_result :=
  let pt := classify (current_line signals) (recent_lines signals) (sig_alt_screen signals) in
  if is_interactive_prompt pt then
    hold_interactive q job_id pt det agent_name (current_line signals) is_muted
  else if decide (pt = AltScreenProgram) then
    let '(fired, q) := boot_inject_if_idle now job_id (pr_idle det) q in
    if fired then
      match take_ready now job_id q with
      | (Some body, q) => mkTick q true [Injected job_id agent_name body]
      | (None, q) => mkTick q notified []
      end
    else mkTick q notified []
  else
    let fyi q := maybe_fyi_attention q job_id pt det agent_name (current_line signals) is_muted in
    match deliver_or_hold now job_id det q with
    | (Hold, q) => mkTick q notified []
    | (DoInject, q) =>
        match take_ready now job_id q with
        | (Some body, q) => mkTick q true [Injected job_id agent_name body]
        | (None, q) => fyi q
        end
    | (NoBody, q) => fyi q
    end.

Definition try_force_inject (now job_id : N) (agent_name : str) (det : PromptReadiness)
    (notified : bool) (q : PendingPromptQueue) : tick_result :=
  let '(forced, q) := force_inject_if_idle now job_id (pr_idle det) q in
  let '(fired, q) := if forced then (true, q) else boot_inject_if_idle now job_id (pr_idle det) q in
  if fired then
    match take_ready now job_id q with
    | (Some body, q) => mkTick q true [Injected job_id agent_name body]
    | (None, q) => mkTick q notified []
    end
  else mkTick q notified [].

(** ** Threads *)

(** The operating system as a tick finds it. *)
Record Os := mkOs {
  os_first_child : N → option N;
  os_alive : N → bool;
  os_wchan : N → option str;
  os_syscall : N → option str;
}.

Definition is_waiting_for_input_cached (os : Os) (pid : N) (cached_leaf : option N) : f32 * option N :=
  let '(leaf, cached_leaf) := resolve_leaf (os_first_child os) (os_alive os) pid cached_leaf in
  (linux_check (os_wchan os leaf) (os_syscall os leaf), cached_leaf).

(** Where a detector is: waiting for bytes, after the latch was reset, after the
    mute flag was read, or past both early returns. *)
Inductive phase := PTop | PReset | PMuted (is_muted : bool) | PProbe (is_muted : bool).

Record Thread := mkThread {
  th_agent_name : str;
  th_pid : N;
  stop : bool;
  muted : bool;
  reset_notified : bool;
  signals : VteSignals;
  already_notified : bool;
  cached_leaf : option N;
  th_phase : phase;
}.

Record Tsm := mkTsm {
  pending : PendingPromptQueue;
  threads : gmap N Thread;
  handles : gset N;
  events : list DetectorEvent;
  dropped : list DroppedPrompt;
}.

Definition tsm_new : Tsm := mkTsm ∅ ∅ ∅ [] [].

Definition thread_new (now : N) (agent_name : str) (pid : N) : Thread :=
  mkThread agent_name pid false false false (signals_new now) false None PTop.

Definition set_phase (p : phase) (t : Thread) : Thread :=
  mkThread (th_agent_name t) (th_pid t) (stop t) (muted t) (reset_notified t) (signals t)
           (already_notified t) (cached_leaf t) p.

Definition set_stop (t : Thread) : Thread :=
  mkThread (th_agent_name t) (th_pid t) true (muted t) (reset_notified t) (signals t)
           (already_notified t) (cached_leaf t) (th_phase t).

Definition set_muted (b : bool) (t : Thread) : Thread :=
  mkThread (th_agent_name t) (th_pid t) (stop t) b (reset_notified t) (signals t)
           (already_notified t) (cached_leaf t) (th_phase t).

Definition set_reset (b : bool) (t : Thread) : Thread :=
  mkThread (th_agent_name t) (th_pid t) (stop t) (muted t) b (signals t)
           (already_notified t) (cached_leaf t) (th_phase t).

Definition set_latch (b : bool) (t : Thread) : Thread :=
  mkThread (th_agent_name t) (th_pid t) (stop t) (muted t) (reset_notified t) (signals t)
           b (cached_leaf t) (th_phase t).

Definition set_leaf (l : option N) (t : Thread) : Thread :=
  mkThread (th_agent_name t) (th_pid t) (stop t) (muted t) (reset_notified t) (signals t)
           (already_notified t) l (th_phase t).

Definition on_recv_bytes (now : N) (calls : list VteCall) (t : Thread) : Thread :=
  mkThread (th_agent_name t) (th_pid t) (stop t) (muted t) (reset_notified t)
           (handle_calls now calls (signals t)) false (cached_leaf t) (th_phase t).

Definition set_pending (q : PendingPromptQueue) (st : Tsm) : Tsm :=
  mkTsm q (threads st) (handles st) (events st) (dropped st).

Definition set_thread (j : N) (t : Thread) (st : Tsm) : Tsm :=
  mkTsm (pending st) (<[j := t]> (threads st)) (handles st) (events st) (dropped st).

Definition emit (evs : list DetectorEvent) (st : Tsm) : Tsm :=
  mkTsm (pending st) (threads st) (handles st) (events st ++ evs) (dropped st).

(** The body of a tick past its early returns: probe, score, deliver. *)
Definition tick_body (now : N) (os : Os) (is_muted : bool) (j : N) (t : Thread) (st : Tsm) : Tsm :=
  let '(process_waiting, leaf) := is_waiting_for_input_cached os (th_pid t) (cached_leaf t) in
  let det := detect_prompt now (signals t) process_waiting in
  let r := if prompt_detected det
           then handle_detection now j (th_agent_name t) (signals t) det is_muted
                                 (already_notified t) (pending st)
           else try_force_inject now j (th_agent_name t) det (already_notified t) (pending st) in
  emit (tk_events r)
    (set_pending (tk_queue r)
       (set_thread j (set_phase PTop (set_latch (tk_notified r) (set_leaf leaf t))) st)).

(** One step of [on_recv_timeout]. *)
Definition tick_step (now : N) (os : Os) (j : N) (t : Thread) (st : Tsm) : Tsm :=
  match th_phase t with
  | PTop =>
      let t' := if reset_notified t then set_latch false (set_reset false t) else t in
      set_thread j (set_phase PReset t') st
  | PReset => set_thread j (set_phase (PMuted (muted t)) t) st
  | PMuted m =>
      if m && (pending_count j (pending st) =? 0)%nat then set_thread j (set_phase PTop t) st
      else if already_notified t then set_thread j (set_phase PTop t) st
      else set_thread j (set_phase (PProbe m) t) st
  | PProbe m => tick_body now os m j t st
  end.

(** ** Labels *)

Inductive label :=
| LRegister (now j : N) (agent_name : str) (pid : N) (body : option str) (spawned : bool)
| LAppend (now j : N) (body : str)
| LResolve (now j : N)
| LWake (j : N)
| LMute (j : N) (b : bool)
| LStop (j : N)
| LCleanup (j : N)
| LBytes (now j : N) (calls : list VteCall)
| LTick (now j : N) (os : Os)
| LExit (j : N)
| LClosed (j : N) (exit_code : option Z).

Definition register_agent_job (now j : N) (agent_name : str) (pid : N) (body : option str)
    (spawned : bool) (st : Tsm) : Tsm :=
  let q := enqueue now j body agent_name (pending st) in
  if spawned then
    mkTsm q (<[j := thread_new now agent_name pid]> (threads st)) ({[j]} ∪ handles st)
          (events st) (dropped st)
  else mkTsm (cleanup j q).2 (threads st) (handles st) (events st) (dropped st).

(** Sets a flag through the handle, when the job has one. *)
Definition with_handle (j : N) (f : Thread → Thread) (st : Tsm) : Tsm :=
  if decide (j ∈ handles st) then
    mkTsm (pending st) (alter f j (threads st)) (handles st) (events st) (dropped st)
  else st.

Definition remove_stop (j : N) (st : Tsm) : Tsm :=
  if decide (j ∈ handles st) then
    mkTsm (pending st) (alter set_stop j (threads st)) (handles st ∖ {[j]}) (events st) (dropped st)
  else st.

Definition remove_cleanup (j : N) (st : Tsm) : Tsm :=
  let '(d, q) := cleanup j (pending st) in
  mkTsm q (threads st) (handles st) (events st) (dropped st ++ option_list d).

Definition at_top (t : Thread) : bool := match th_phase t with PTop => true | _ => false end.

Definition end_thread (j : N) (evs : list DetectorEvent) (st : Tsm) : Tsm :=
  mkTsm (pending st) (delete j (threads st)) (handles st) (events st ++ evs) (dropped st).

(** [None]: the label is not enabled. A job is registered once at a time, its entry
    is cleaned up after its thread was joined, and a thread looks at its stop flag
    and at its channel only between ticks. *)
Definition step (st : Tsm) (l : label) : option Tsm :=
  match l with
  | LRegister now j name pid body spawned =>
      if decide (is_Some (threads st !! j)) then None
      else Some (register_agent_job now j name pid body spawned st)
  | LAppend now j body => Some (set_pending (append_body now j body (pending st)).2 st)
  | LResolve now j => Some (set_pending (on_boot_prompt_resolved now j (pending st)) st)
  | LWake j => Some (with_handle j (set_reset true) st)
  | LMute j b => Some (with_handle j (set_muted b) st)
  | LStop j => Some (remove_stop j st)
  | LCleanup j => if decide (is_Some (threads st !! j)) then None else Some (remove_cleanup j st)
  | LBytes now j calls =>
      t ← threads st !! j;
      if at_top t && negb (stop t) then Some (set_thread j (on_recv_bytes now calls t) st) else None
  | LTick now j os =>
      t ← threads st !! j;
      if at_top t && stop t then None else Some (tick_step now os j t st)
  | LExit j =>
      t ← threads st !! j;
      if at_top t && stop t then Some (end_thread j [] st) else None
  | LClosed j code =>
      t ← threads st !! j;
      if at_top t then Some (end_thread j [Closed j code] st) else None
  end.

Fixpoint run (st : Tsm) (ls : list label) : option Tsm :=
  match ls with
  | [] => Some st
  | l :: ls => st' ← step st l; run st' ls
  end.

(** The calls of the shell, as the sections they are made of. *)
Definition on_user_attached (j : N) : list label := [LMute j true].
Definition on_user_detached (j : N) : list label := [LMute j false; LWake j].
Definition on_prompt_resolved (now j : N) : list label := [LResolve now j; LWake j].
Definition tsm_append_body (now j : N) (body : str) : list label := [LAppend now j body; LWake j].
Definition remove_job (j : N) : list label := [LStop j; LExit j; LCleanup j].

(** A tick that nothing interrupts. *)
Definition whole_tick (now j : N) (os : Os) : list label :=
  [LTick now j os; LTick now j os; LTick now j os; LTick now j os].

(** [attention list] *)
Definition pending_snapshot (state_text : PendingState → str) (q : PendingPromptQueue) : list JobAttention :=
  omap (λ x : N * str * str * PendingState,
          let '(j, name, body, s) := x in
          if decide (s = Idle) then None
          else Some (mkAttention j name f32_zero (if decide (s = ReadyToInject) then ShellPrompt else Generic)
                                 (state_text s) true (Some (truncate body 60))))
       (entries_internal q).

(** ** The worker of the shell *)

Inductive WorkerOut :=
| WInject (job_id : N) (agent_name body : str)
| WKeys (job_id : N) (bytes : list N)
| WNotice (line : str)
| WForward (event : DetectorEvent).

Record Worker := mkWorker { job_names : gmap N str; announced_done : gset N }.

Definition learn_job_name (event : DetectorEvent) (names : gmap N str) : gmap N str :=
  match event with
  | Attention att => <[ja_job_id att := ja_agent_name att]> names
  | Injected j name _ | Delivered j name _ => <[j := name]> names
  | Closed _ _ => names
  end.

Definition ESC : str := [27%N].
Definition NOTICE_GAP : str := replicate 17 chr_space.

Definition fmt_i32 (z : Z) : str :=
  if (z <? 0)%Z then #"-" ++ fmt_dec (Z.to_N (- z)) else fmt_dec (Z.to_N z).

Definition done_line (j : N) (name : str) (exit_code : option Z) : str :=
  match exit_code with
  | Some 0%Z => #"  " ++ ESC ++ #"[32m[" ++ fmt_dec j ++ #"]+ Done" ++ ESC ++ #"[0m" ++ NOTICE_GAP ++ name
  | Some code => #"  " ++ ESC ++ #"[31m[" ++ fmt_dec j ++ #"]+ Exit " ++ fmt_i32 code ++ ESC ++ #"[0m"
                 ++ NOTICE_GAP ++ name
  | None => #"  " ++ ESC ++ #"[90m[" ++ fmt_dec j ++ #"]+ " ++ name ++ #" exited" ++ ESC ++ #"[0m"
  end.

Definition maybe_print_done_notice (event : DetectorEvent) (attach_active printer : bool) (w : Worker)
  : list WorkerOut * Worker :=
  match event with
  | Closed j code =>
      match job_names w !! j with
      | None => ([], w)
      | Some name =>
          let w := mkWorker (delete j (job_names w)) (announced_done w) in
          if attach_active || negb printer then ([], w)
          else ([WNotice (done_line j name code)],
                mkWorker (job_names w)
                         (match code with Some _ => {[j]} ∪ announced_done w | None => announced_done w end))
      end
  | _ => ([], w)
  end.

Definition maybe_inject (event : DetectorEvent) : list WorkerOut :=
  match event with Injected j name body => [WInject j name body] | _ => [] end.

Definition answerable (p : PromptType) : bool :=
  match p with YesNo | MultipleChoice | Continuation => true | _ => false end.

(** The keys to send and the calls to make, when the worker answers by itself. *)
Definition maybe_auto_answer_trust (now : N) (event : DetectorEvent) (st : Tsm)
  : option (list WorkerOut * list label) :=
  match event with
  | Attention att =>
      if answerable (ja_prompt_type att)
         && bool_decide (queue_state (ja_job_id att) (pending st) = Some WaitingForApproval)
      then Some ([WKeys (ja_job_id att) [13%N]], on_prompt_resolved now (ja_job_id att))
      else None
  | _ => None
  end.

(** One event: what the worker emits, its state, and the calls it makes. The event
    also goes to the router and to the toast when it is forwarded. *)
Definition worker_event (now : N) (attach_active printer : bool) (event : DetectorEvent) (st : Tsm)
    (w : Worker) : list WorkerOut * Worker * list label :=
  let w := mkWorker (learn_job_name event (job_names w)) (announced_done w) in
  let '(notice, w) := maybe_print_done_notice event attach_active printer w in
  let inject := maybe_inject event in
  match maybe_auto_answer_trust now event st with
  | Some (keys, calls) => (notice ++ inject ++ keys, w, calls)
  | None => (notice ++ inject ++ [WForward event], w, [])
  end.

(** ** The queue across a tick *)

(** Between two critical sections no entry is about to be served, an idle one has
    nothing to deliver, and one that waits knows since when. *)
Definition entry_wf (e : PendingPrompt) : Prop :=
  pp_state e ≠ ReadyToInject ∧
  (pp_state e = Idle → bodies e = []) ∧
  (pp_state e = WaitingForReady → is_Some (ready_since e)).

Definition queue_wf (q : PendingPromptQueue) : Prop := map_Forall (λ _ e, entry_wf e) q.

Definition bodies_of (j : N) (q : PendingPromptQueue) : list str := default [] (bodies <$> q !! j).

(** The bodies delivered to a job by a list of events. *)
Definition injected (j : N) (evs : list DetectorEvent) : list str :=
  omap (λ ev, match ev with
              | Injected k _ b => if decide (k = j) then Some b else None
              | _ => None
              end) evs.

(** A section of job [j] that turns [q] into [q'] and emits [evs]: other jobs are not
    touched, and what is emitted is what the queue loses, from its front. *)
Record serves (j : N) (q : PendingPromptQueue) (evs : list DetectorEvent) (q' : PendingPromptQueue) : Prop := {
  sv_others k : k ≠ j → q' !! k = q !! k;
  sv_dom : is_Some (q' !! j) ↔ is_Some (q !! j);
  sv_fifo : bodies_of j q = injected j evs ++ bodies_of j q';
  sv_silent k : k ≠ j → injected k evs = [];
  sv_wf : queue_wf q → queue_wf q';
}.

Lemma queue_wf_insert j e q : queue_wf q → entry_wf e → queue_wf (<[j := e]> q).
Proof. intros. by apply map_Forall_insert_2. Qed.

Lemma queue_wf_entry j e q : queue_wf q → q !! j = Some e → entry_wf e.
Proof. intros Hq. apply Hq. Qed.

Lemma serves_refl j q evs : (∀ k, injected k evs = []) → serves j q evs q.
Proof. intros H. split; [done|done|by rewrite H|by intros; apply H|done]. Qed.

Lemma serves_insert j q e e' evs :
  q !! j = Some e → bodies e = injected j evs ++ bodies e' →
  (∀ k, k ≠ j → injected k evs = []) → (entry_wf e → entry_wf e') →
  serves j q evs (<[j := e']> q).
Proof.
  intros He Hb Hs Hw. split.
  - intros k Hk. by rewrite lookup_insert_ne.
  - rewrite lookup_insert_eq, He. split; eauto.
  - unfold bodies_of. by rewrite lookup_insert_eq, He.
  - done.
  - intros Hq. apply queue_wf_insert; [done|]. by apply Hw, (queue_wf_entry j e q).
Qed.

Lemma injected_here j name b : injected j [Injected j name b] = [b].
Proof. unfold injected. simpl. by rewrite decide_True. Qed.

Lemma injected_elsewhere j k name b : k ≠ j → injected k [Injected j name b] = [].
Proof. intros. unfold injected. simpl. by rewrite decide_False. Qed.

Lemma injected_attention j att : injected j [Attention att] = [].
Proof. done. Qed.

Lemma injected_app j a b : injected j (a ++ b) = injected j a ++ injected j b.
Proof. apply omap_app. Qed.

(** What [take_ready] does to an entry that has just been made ready. *)
Lemma take_ready_fresh now j e b rest q ready :
  bodies e = b :: rest →
  take_ready now j (<[j := go_to ReadyToInject ready e]> q) =
  (Some b, <[j := if is_empty rest then go_to Idle (Some None) (set_bodies rest e)
                  else go_to WaitingForReady (Some (Some now)) (set_bodies rest e)]> q).
Proof.
  intros Hb. unfold take_ready. rewrite lookup_insert_eq.
  rewrite decide_False by (simpl; congruence). simpl. rewrite Hb, insert_insert_eq.
  by destruct rest.
Qed.

Lemma take_serves now j name e b rest q :
  q !! j = Some e → bodies e = b :: rest →
  serves j q [Injected j name b]
    (<[j := if is_empty rest then go_to Idle (Some None) (set_bodies rest e)
            else go_to WaitingForReady (Some (Some now)) (set_bodies rest e)]> q).
Proof.
  intros He Hb. apply (serves_insert _ _ e); [done|..].
  - rewrite injected_here, Hb. by destruct rest.
  - intros. by apply injected_elsewhere.
  - intros _. destruct rest; by split_and!.
Qed.

(** Going idle with nothing queued, and being put on hold. *)
Lemma idle_serves j e q : q !! j = Some e → bodies e = [] → serves j q [] (<[j := go_to Idle None e]> q).
Proof. intros He Hb. by apply (serves_insert _ _ e). Qed.

Lemma alter_as_insert {A} (f : A → A) j x (m : gmap N A) : m !! j = Some x → alter f j m = <[j := f x]> m.
Proof.
  intros E. apply map_eq. intros k. destruct (decide (k = j)) as [->|].
  - by rewrite lookup_insert_eq, lookup_alter_eq, E.
  - by rewrite lookup_insert_ne, lookup_alter_ne.
Qed.

Lemma hold_serves j q : serves j q [] (on_boot_prompt_detected j q).
Proof.
  unfold on_boot_prompt_detected. destruct (q !! j) as [e|] eqn:E.
  - rewrite (alter_as_insert _ _ e) by done.
    apply (serves_insert _ _ e); [done|by destruct (waiting _)|done|]. by destruct (waiting _).
  - rewrite alter_id; [by apply serves_refl|]. intros e. by rewrite E.
Qed.

Lemma serves_more j q evs evs' q' :
  serves j q evs q' → (∀ k, injected k evs' = injected k evs) → serves j q evs' q'.
Proof. intros [A B C D E] H. split; [done|done|by rewrite H|by intros; rewrite H; apply D|done]. Qed.

Lemma force_inject_true now j idle q q' :
  force_inject_if_idle now j idle q = (true, q') →
  ∃ e b rest t, q !! j = Some e ∧ pp_state e = WaitingForReady ∧ bodies e = b :: rest ∧
    ready_since e = Some t ∧ (secs 1 ≤ since now t)%N ∧ (millis 1500 ≤ idle)%N ∧
    q' = <[j := go_to ReadyToInject None e]> q.
Proof.
  unfold force_inject_if_idle. destruct (q !! j) as [e|] eqn:He; [|done].
  case_decide as Hs; [done|]. destruct (bodies e) as [|b rest] eqn:Hb; [done|]. simpl.
  destruct (ready_since e) as [t|] eqn:Ht; [|done].
  destruct (N.ltb_spec (since now t) (secs 1)); [done|].
  destruct (N.ltb_spec idle (millis 1500)); [done|]. intros [= <-].
  by exists e, b, rest, t.
Qed.

Lemma force_inject_false now j idle q q' :
  force_inject_if_idle now j idle q = (false, q') → serves j q [] q'.
Proof.
  unfold force_inject_if_idle. destruct (q !! j) as [e|] eqn:He; [|intros [= <-]; by apply serves_refl].
  repeat case_match; intros [= <-]; try (by apply serves_refl).
  apply idle_serves; [done|]. by destruct (bodies e).
Qed.

Lemma boot_inject_true now j idle q q' :
  boot_inject_if_idle now j idle q = (true, q') →
  ∃ e b rest, q !! j = Some e ∧ pp_state e = WaitingForBoot ∧ bodies e = b :: rest ∧
    (secs 2 ≤ since now (created_at e))%N ∧ (millis 1500 ≤ idle)%N ∧
    q' = <[j := go_to ReadyToInject None e]> q.
Proof.
  unfold boot_inject_if_idle. destruct (q !! j) as [e|] eqn:He; [|done].
  case_bool_decide as Hs; [done|]. destruct (bodies e) as [|b rest] eqn:Hb; [done|]. simpl.
  destruct (N.ltb_spec (since now (created_at e)) (secs 2)); [done|].
  destruct (N.ltb_spec idle (millis 1500)); [done|]. intros [= <-].
  by exists e, b, rest.
Qed.

Lemma boot_inject_false now j idle q q' : boot_inject_if_idle now j idle q = (false, q') → q' = q.
Proof. unfold boot_inject_if_idle. repeat case_match; by intros [= <-]. Qed.

Lemma try_force_inject_serves now j name det n q :
  let r := try_force_inject now j name det n q in serves j q (tk_events r) (tk_queue r).
Proof.
  unfold try_force_inject.
  destruct (force_inject_if_idle now j (pr_idle det) q) as [[] q1] eqn:E1.
  - apply force_inject_true in E1 as (e & b & rest & t & He & _ & Hb & _ & _ & _ & ->).
    rewrite (take_ready_fresh _ _ _ b rest) by done. by apply take_serves.
  - apply force_inject_false in E1 as Hs.
    destruct (boot_inject_if_idle now j (pr_idle det) q1) as [[] q2] eqn:E2.
    + assert (q1 = q) as ->.
      { apply boot_inject_true in E2 as (e & b & rest & He & Hst & Hb & _).
        revert E1. unfold force_inject_if_idle. destruct (q !! j) as [e0|] eqn:He0; [|congruence].
        repeat case_match; intros [= <-]; try done.
        rewrite lookup_insert_eq in He. by injection He as <-. }
      apply boot_inject_true in E2 as (e & b & rest & He & _ & Hb & _ & _ & ->).
      rewrite (take_ready_fresh _ _ _ b rest) by done. by apply take_serves.
    + apply boot_inject_false in E2 as ->. done.
Qed.

(** On the path of a detected prompt, a body goes out only at a prompt that is not one
    for the user, and on the alternate screen only to an agent that has had none. *)
Definition delivers_safely (q : PendingPromptQueue) (j : N) (pt : PromptType) : Prop :=
  is_interactive_prompt pt = false ∧
  (pt = AltScreenProgram → queue_state j q = Some WaitingForBoot).

Lemma deliver_inject now j det q q' :
  queue_wf q → deliver_or_hold now j det q = (DoInject, q') →
  (take_ready now j q' = (None, q') ∧ q' = q) ∨
  ∃ e b rest, q !! j = Some e ∧ bodies e = b :: rest ∧ q' = <[j := go_to ReadyToInject None e]> q.
Proof.
  intros Hwf. unfold deliver_or_hold, queue_state. destruct (q !! j) as [e|] eqn:He; simpl.
  2: { unfold deliver_outcome, has_pending. by rewrite He. }
  destruct (queue_wf_entry _ _ _ Hwf He) as (Hr & Hi & _).
  destruct (pp_state e) eqn:Hs; try done.
  - unfold on_agent_ready. rewrite (alter_as_insert _ _ e) by done.
    unfold deliver_outcome, has_pending. rewrite lookup_insert_eq, Hs. simpl.
    destruct (bodies e) as [|b rest] eqn:Hb; simpl; rewrite ?Hb; [done|].
    intros [= <-]. right. by exists e, b, rest.
  - intros [= _ <-]. left. split; [|done]. unfold take_ready. rewrite He, Hs. by rewrite decide_True.
  - destruct (force_inject_if_idle _ _ _ _) as [[] q1] eqn:E; [|done]. intros [= _ <-].
    apply force_inject_true in E as (e' & b & rest & t & He' & _ & Hb & _ & _ & _ & ->).
    right. rewrite He in He'. injection He' as <-. eauto 10.
  - unfold deliver_outcome, has_pending. rewrite He. simpl. by rewrite Hi.
Qed.

Lemma deliver_other now j det q q' o :
  queue_wf q → deliver_or_hold now j det q = (o, q') → o ≠ DoInject → serves j q [] q'.
Proof.
  intros Hwf. unfold deliver_or_hold, queue_state. destruct (q !! j) as [e|] eqn:He; simpl.
  2: { intros [= <- <-] _. by apply serves_refl. }
  destruct (pp_state e) eqn:Hs; try (intros [= <- <-] _; by apply serves_refl).
  - unfold on_agent_ready. rewrite (alter_as_insert _ _ e) by done.
    unfold deliver_outcome, has_pending. rewrite lookup_insert_eq, Hs. simpl.
    destruct (bodies e) as [|b rest] eqn:Hb; simpl; rewrite ?Hb; [|by intros [= <- <-]].
    intros [= <- <-] _. by apply idle_serves.
  - destruct (force_inject_if_idle _ _ _ _) as [[] q1] eqn:E.
    + apply force_inject_true in E as (e' & b & rest & t & He' & _ & Hb & _ & _ & _ & ->).
      unfold deliver_outcome, has_pending. rewrite lookup_insert_eq. simpl. rewrite Hb. simpl.
      by intros [= <- <-].
    + intros [= <- <-] _. by eapply force_inject_false.
Qed.

Lemma handle_detection_serves now j name sg det m n q :
  queue_wf q →
  let pt := classify (current_line sg) (recent_lines sg) (sig_alt_screen sg) in
  let r := handle_detection now j name sg det m n q in
  serves j q (tk_events r) (tk_queue r) ∧
  (injected j (tk_events r) ≠ [] → delivers_safely q j pt).
Proof.
  intros Hwf. unfold handle_detection. simpl. set (pt := classify _ _ _).
  destruct (is_interactive_prompt pt) eqn:Hi.
  { unfold hold_interactive. simpl. split; [|by destruct m].
    eapply serves_more; [|by destruct m]. destruct (has_pending j q); [apply hold_serves|by apply serves_refl]. }
  destruct (decide (pt = AltScreenProgram)) as [Hp|Hp].
  - destruct (boot_inject_if_idle _ _ _ _) as [[] q1] eqn:E.
    + apply boot_inject_true in E as (e & b & rest & He & Hst & Hb & _ & _ & ->).
      rewrite (take_ready_fresh _ _ _ b rest) by done. split; [by apply take_serves|].
      intros _. split; [done|]. intros _. unfold queue_state. rewrite He. simpl. by rewrite Hst.
    + apply boot_inject_false in E as ->. by split; [apply serves_refl|].
  - assert (delivers_safely q j pt) as Hsafe by (split; [done|by intros ?]).
    destruct (deliver_or_hold now j det q) as [[] q1] eqn:E.
    + apply deliver_inject in E as [[E ->]|(e & b & rest & He & Hb & ->)]; [| |done].
      * rewrite E. simpl. split; [|by case_match]. apply serves_refl. intros k. by case_match.
      * rewrite (take_ready_fresh _ _ _ b rest) by done. split; [by apply take_serves|done].
    + split; [|done]. by eapply deliver_other.
    + split; [|by simpl; case_match]. eapply serves_more; [by eapply deliver_other|]. simpl. intros k. by case_match.
Qed.

Lemma tick_body_serves now os m j t st :
  queue_wf (pending st) →
  ∃ evs, events (tick_body now os m j t st) = events st ++ evs ∧
         serves j (pending st) evs (pending (tick_body now os m j t st)).
Proof.
  intros Hwf. unfold tick_body. destruct (is_waiting_for_input_cached _ _ _) as [w l]. simpl.
  eexists. split; [done|]. case_match; [by apply handle_detection_serves|apply try_force_inject_serves].
Qed.

(** ** Runs *)

(** The bodies the shell queues for a job in a list of labels. *)
Definition told (j : N) (ls : list label) : list str :=
  omap (λ l, match l with LAppend _ k b => if decide (k = j) then Some b else None | _ => None end) ls.

(** Labels between the registration of a job and the cleanup of its entry. *)
Definition keeps_job (j : N) (l : label) : Prop :=
  match l with
  | LRegister _ k _ _ _ _ | LCleanup k => k ≠ j
  | _ => True
  end.

Lemma append_entry_wf now b e : entry_wf e → entry_wf (append_entry now b e).
Proof.
  intros (Hr & Hi & Hw). unfold append_entry. case_decide as Hs; simpl in Hs.
  - split_and!; simpl; [done|done|]. intros _. by eexists.
  - split_and!; simpl; [done| |done]. by intros ?.
Qed.

Lemma resolve_wf now j q : queue_wf q → queue_wf (on_boot_prompt_resolved now j q).
Proof.
  intros Hq. unfold on_boot_prompt_resolved. destruct (q !! j) as [e|] eqn:E.
  - rewrite (alter_as_insert _ _ e) by done. apply queue_wf_insert; [done|].
    case_decide; [|by apply (Hq j)]. split_and!; [done|done|]. intros _. by eexists.
  - rewrite alter_id; [done|]. intros e. by rewrite E.
Qed.

Lemma cleanup_queue j q : (cleanup j q).2 = delete j q.
Proof. unfold cleanup. destruct (q !! j) eqn:E; [done|]. by rewrite delete_id. Qed.

Lemma enqueue_wf now j body name q : queue_wf q → queue_wf (enqueue now j body name q).
Proof. intros Hq. apply queue_wf_insert; [done|]. by split_and!. Qed.

Lemma with_handle_same j f st :
  pending (with_handle j f st) = pending st ∧ events (with_handle j f st) = events st ∧
  dropped (with_handle j f st) = dropped st.
Proof. unfold with_handle. by case_decide. Qed.

Lemma remove_stop_same j st :
  pending (remove_stop j st) = pending st ∧ events (remove_stop j st) = events st ∧
  dropped (remove_stop j st) = dropped st.
Proof. unfold remove_stop. by case_decide. Qed.

(** A tick's other steps leave the queue and the reports alone. *)
Lemma tick_step_serves now os j t st :
  queue_wf (pending st) →
  ∃ evs, events (tick_step now os j t st) = events st ++ evs ∧
         serves j (pending st) evs (pending (tick_step now os j t st)) ∧
         dropped (tick_step now os j t st) = dropped st.
Proof.
  intros Hwf. unfold tick_step.
  assert (∀ t', ∃ evs, events (set_thread j t' st) = events st ++ evs ∧
    serves j (pending st) evs (pending (set_thread j t' st)) ∧ dropped (set_thread j t' st) = dropped st) as Hq.
  { intros t'. exists []. rewrite app_nil_r. split_and!; [done|by apply serves_refl|done]. }
  destruct (th_phase t) as [| |m|m]; [apply Hq..| |].
  - repeat case_match; apply Hq.
  - destruct (tick_body_serves now os m j t st Hwf) as (evs & He & Hs). exists evs. split_and!; [done..|].
    unfold tick_body. by destruct (is_waiting_for_input_cached _ _ _).
Qed.

(** One step: the queue stays well formed, and a living job's queue loses at its
    front what is delivered and gains at its end what it is told. *)
Definition step_ok (st : Tsm) (l : label) (st' : Tsm) : Prop :=
  queue_wf (pending st') ∧
  ∃ evs, events st' = events st ++ evs ∧
    ∀ j, keeps_job j l → is_Some (pending st !! j) →
      is_Some (pending st' !! j) ∧
      bodies_of j (pending st) ++ told j [l] = injected j evs ++ bodies_of j (pending st').

(** Steps that deliver nothing: for a living job, the entry may change but gains
    exactly what it is told. *)
Lemma quiet_ok st l st' evs :
  queue_wf (pending st') → events st' = events st ++ evs → (∀ j, injected j evs = []) →
  (∀ j e, keeps_job j l → pending st !! j = Some e →
     ∃ e', pending st' !! j = Some e' ∧ bodies e' = bodies e ++ told j [l]) →
  step_ok st l st'.
Proof.
  intros Hwf He Hi Hl. split; [done|]. exists evs. split; [done|]. intros j Hk [e Hj].
  destruct (Hl j e Hk Hj) as (e' & Hj' & Hb). unfold bodies_of. rewrite Hj, Hj', Hi. simpl. eauto.
Qed.

Lemma same_queue_ok st l st' evs :
  queue_wf (pending st) → pending st' = pending st → events st' = events st ++ evs →
  (∀ j, injected j evs = []) → (∀ j, told j [l] = []) → step_ok st l st'.
Proof.
  intros Hwf Hp He Hi Ht. apply (quiet_ok _ _ _ evs); rewrite ?Hp; try done.
  intros j e _ Hj. exists e. by rewrite Ht, app_nil_r.
Qed.

Lemma register_ok now k name pid body spawned st :
  queue_wf (pending st) →
  step_ok st (LRegister now k name pid body spawned) (register_agent_job now k name pid body spawned st).
Proof.
  intros Hwf. apply (quiet_ok _ _ _ []); unfold register_agent_job.
  - case_match; simpl; [by apply enqueue_wf|]. rewrite cleanup_queue. by apply map_Forall_delete, enqueue_wf.
  - rewrite app_nil_r. by case_match.
  - done.
  - intros j e Hk Hj. exists e. simpl in Hk. rewrite app_nil_r. split; [|done]. unfold enqueue.
    case_match; simpl; rewrite ?cleanup_queue, ?lookup_delete_ne by done; by rewrite lookup_insert_ne.
Qed.

Lemma append_ok now k b st :
  queue_wf (pending st) →
  step_ok st (LAppend now k b) (set_pending (append_body now k b (pending st)).2 st).
Proof.
  intros Hwf. apply (quiet_ok _ _ _ []); [..|done|]; unfold append_body.
  - case_match eqn:E; simpl; [|done]. apply queue_wf_insert; [done|]. by eapply append_entry_wf, Hwf.
  - by rewrite app_nil_r.
  - intros j e _ Hj. unfold told. simpl. destruct (decide (k = j)) as [->|Hne].
    + rewrite Hj. simpl. rewrite lookup_insert_eq. eexists. split; [done|].
      unfold append_entry. by case_decide.
    + exists e. rewrite app_nil_r. split; [|done].
      case_match; simpl; by rewrite ?lookup_insert_ne.
Qed.

Lemma resolve_ok now k st :
  queue_wf (pending st) →
  step_ok st (LResolve now k) (set_pending (on_boot_prompt_resolved now k (pending st)) st).
Proof.
  intros Hwf. apply (quiet_ok _ _ _ []); [by apply resolve_wf|by rewrite app_nil_r|done|].
  intros j e _ Hj. rewrite app_nil_r. simpl. unfold on_boot_prompt_resolved.
  destruct (decide (k = j)) as [->|Hne].
  - rewrite lookup_alter_eq, Hj. eexists. split; [done|]. by case_decide.
  - rewrite lookup_alter_ne by done. by exists e.
Qed.

Lemma cleanup_ok k st : queue_wf (pending st) → step_ok st (LCleanup k) (remove_cleanup k st).
Proof.
  intros Hwf. unfold remove_cleanup. pose proof (cleanup_queue k (pending st)) as Hc.
  destruct (cleanup k (pending st)) as [d q]. simpl in *. subst q.
  apply (quiet_ok _ _ _ []); [by apply map_Forall_delete|by rewrite app_nil_r|done|].
  intros j e Hk Hj. exists e. simpl in *. by rewrite lookup_delete_ne, app_nil_r.
Qed.

Lemma tick_ok now k os t st :
  queue_wf (pending st) → step_ok st (LTick now k os) (tick_step now os k t st).
Proof.
  intros Hwf. destruct (tick_step_serves now os k t st Hwf) as (evs & He & [Ho Hd Hf Hs Hw] & _).
  split; [by apply Hw|]. exists evs. split; [done|]. intros j _ Hj. rewrite app_nil_r.
  destruct (decide (k = j)) as [->|Hne]; [by rewrite Hd|].
  rewrite Hs by done. unfold bodies_of. by rewrite Ho.
Qed.

Lemma step_serves st l st' : queue_wf (pending st) → step st l = Some st' → step_ok st l st'.
Proof.
  intros Hwf. destruct l as [now k name pid body spawned|now k b|now k|k|k b|k|k|now k calls|now k os|k|k code];
    cbn [step].
  - case_decide; [done|]. intros [= <-]. by apply register_ok.
  - intros [= <-]. by apply append_ok.
  - intros [= <-]. by apply resolve_ok.
  - intros [= <-]. destruct (with_handle_same k (set_reset true) st) as (? & He & _).
    by apply (same_queue_ok _ _ _ []); rewrite ?app_nil_r.
  - intros [= <-]. destruct (with_handle_same k (set_muted b) st) as (? & He & _).
    by apply (same_queue_ok _ _ _ []); rewrite ?app_nil_r.
  - intros [= <-]. destruct (remove_stop_same k st) as (? & He & _).
    by apply (same_queue_ok _ _ _ []); rewrite ?app_nil_r.
  - case_decide; [done|]. intros [= <-]. by apply cleanup_ok.
  - intros (t & Ht & E)%bind_Some. case_match; [|done]. injection E as <-.
    by apply (same_queue_ok _ _ _ []); rewrite ?app_nil_r.
  - intros (t & Ht & E)%bind_Some. case_match; [done|]. injection E as <-. by apply tick_ok.
  - intros (t & Ht & E)%bind_Some. case_match; [|done]. injection E as <-.
    by apply (same_queue_ok _ _ _ []).
  - intros (t & Ht & E)%bind_Some. case_match; [|done]. injection E as <-.
    by apply (same_queue_ok _ _ _ [Closed k code]).
Qed.

Lemma told_cons j l ls : told j (l :: ls) = told j [l] ++ told j ls.
Proof. unfold told. destruct l; try done. simpl. by case_decide. Qed.

Lemma run_serves st ls st' :
  queue_wf (pending st) → run st ls = Some st' →
  queue_wf (pending st') ∧
  ∃ evs, events st' = events st ++ evs ∧
    ∀ j, Forall (keeps_job j) ls → is_Some (pending st !! j) →
      is_Some (pending st' !! j) ∧
      bodies_of j (pending st) ++ told j ls = injected j evs ++ bodies_of j (pending st').
Proof.
  revert st. induction ls as [|l ls IH]; intros st Hwf; cbn [run].
  - intros [= <-]. split; [done|]. exists []. rewrite app_nil_r. split; [done|].
    intros j _ Hj. by rewrite app_nil_r.
  - intros (s1 & E1 & E2)%bind_Some. destruct (step_serves st l s1 Hwf E1) as (Hw1 & evs1 & He1 & H1).
    destruct (IH s1 Hw1 E2) as (Hw & evs2 & He2 & H2). split; [done|]. exists (evs1 ++ evs2).
    split; [by rewrite He2, He1, app_assoc|]. intros j [Hk Hks]%Forall_cons_1 Hj.
    destruct (H1 j Hk Hj) as [Hj1 F1]. destruct (H2 j Hks Hj1) as [Hj2 F2]. split; [done|].
    rewrite injected_app, told_cons, app_assoc, F1, <- app_assoc, F2. by rewrite app_assoc.
Qed.

Lemma run_app st a b : run st (a ++ b) = (s ← run st a; run s b).
Proof.
  revert st. induction a as [|l a IH]; intros st; [done|]. simpl.
  destruct (step st l) as [s|]; [apply IH|done].
Qed.

(** States the program can be in. *)
Definition reachable (st : Tsm) : Prop := ∃ ls, run tsm_new ls = Some st.

Lemma reachable_wf st : reachable st → queue_wf (pending st).
Proof. intros [ls Hr]. exact (proj1 (run_serves tsm_new ls st (map_Forall_empty _) Hr)). Qed.

(** C11: Every body given to a job, with its registration or later, is delivered once and
    in order, in any interleaving of the shell, the detectors and the agents; what
    was not delivered when the job goes away is handed back, whole and in order. *)
Theorem job_bodies_fifo pre s0 now j name pid body ls s1 s2 :
  run tsm_new pre = Some s0 →
  run s0 (LRegister now j name pid body true :: ls) = Some s1 → Forall (keeps_job j) ls →
  step s1 (LCleanup j) = Some s2 →
  ∃ evs rest, events s2 = events s0 ++ evs ∧
    option_list body ++ told j ls = injected j evs ++ rest ∧
    (rest = [] ∧ dropped s2 = dropped s1 ∨
     ∃ d, dropped s2 = dropped s1 ++ [d] ∧ dp_job_id d = j ∧ dp_bodies d = rest).
Proof.
  intros H0 (sr & E1 & E2)%bind_Some Hk E3.
  assert (queue_wf (pending s0)) as Hw by (by apply reachable_wf; exists pre).
  simpl in E1. case_decide; [done|]. injection E1 as <-.
  destruct (register_ok now j name pid body true s0 Hw) as [Hwr _].
  set (sr := register_agent_job now j name pid body true s0) in *.
  assert (pending sr !! j = Some (mkPending (option_list body) name now WaitingForBoot None 0)) as Hj
    by apply lookup_insert_eq.
  destruct (run_serves sr ls s1 Hwr E2) as (Hw1 & evs & He & Hf).
  destruct (Hf j Hk ltac:(by eexists)) as [[e Hj1] Hb]. unfold bodies_of in Hb. rewrite Hj, Hj1 in Hb.
  simpl in E3. case_decide; [done|]. injection E3 as <-. unfold remove_cleanup, cleanup. rewrite Hj1.
  exists evs, (bodies e). split_and!; [done|done|]. simpl.
  destruct (bodies e) as [|b rest] eqn:E; simpl.
  - left. by rewrite app_nil_r.
  - right. by eexists.
Qed.

(** ** A body told to an idle agent *)

(** What a tick of the detector sees. *)
Definition readiness (now : N) (os : Os) (t : Thread) : PromptReadiness :=
  detect_prompt now (signals t) (is_waiting_for_input_cached os (th_pid t) (cached_leaf t)).1.

Definition shown (t : Thread) : PromptType :=
  classify (current_line (signals t)) (recent_lines (signals t)) (sig_alt_screen (signals t)).

Lemma run_tick now j os t st ls :
  threads st !! j = Some t → at_top t && stop t = false →
  run st (LTick now j os :: ls) = run (tick_step now os j t st) ls.
Proof. intros Ht Hs. simpl. rewrite Ht. simpl. by rewrite Hs. Qed.

Lemma whole_tick_run now os j t st n :
  threads st !! j = Some t → th_phase t = PTop → stop t = false → reset_notified t = true →
  pending_count j (pending st) = S n →
  ∃ t', run st (whole_tick now j os) = Some (tick_body now os (muted t) j t' (set_thread j t' st)) ∧
        th_agent_name t' = th_agent_name t ∧ signals t' = signals t ∧ th_pid t' = th_pid t ∧
        cached_leaf t' = cached_leaf t.
Proof.
  intros Ht Hp Hs Hr Hn. unfold whole_tick.
  rewrite (run_tick _ _ _ t) by (try done; rewrite Hs; apply andb_false_r).
  unfold tick_step. rewrite Hp, Hr. set (t1 := set_phase PReset _).
  rewrite (run_tick _ _ _ t1) by (try done; apply lookup_insert_eq). unfold tick_step. cbn [th_phase t1 set_phase].
  set (t2 := set_phase (PMuted _) _).
  rewrite (run_tick _ _ _ t2) by (try done; apply lookup_insert_eq). unfold tick_step. cbn [th_phase t2 set_phase].
  cbn [pending set_thread]. rewrite Hn, andb_false_r. cbn [already_notified t2 t1 set_phase set_latch].
  set (t3 := set_phase (PProbe _) _).
  rewrite (run_tick _ _ _ t3) by (try done; apply lookup_insert_eq). unfold tick_step. cbn [th_phase t3 set_phase].
  exists t3. split; [|done]. cbn [run]. unfold set_thread. simpl. by rewrite !insert_insert_eq.
Qed.

Lemma detect_prompt_idle now vte w : pr_idle (detect_prompt now vte w) = idle_duration now vte.
Proof. unfold detect_prompt. by repeat case_match. Qed.

Lemma force_inject_fires now j idle q e b rest t :
  q !! j = Some e → pp_state e = WaitingForReady → bodies e = b :: rest → ready_since e = Some t →
  (secs 1 ≤ since now t)%N → (millis 1500 ≤ idle)%N →
  force_inject_if_idle now j idle q = (true, <[j := go_to ReadyToInject None e]> q).
Proof.
  intros He Hs Hb Ht H1 H2. unfold force_inject_if_idle. rewrite He, decide_False by (by intros ?).
  rewrite Hb, Ht. simpl. apply N.ltb_ge in H1 as ->. by apply N.ltb_ge in H2 as ->.
Qed.

Lemma tick_body_delivers now os m j t st e b rest t0 :
  pending st !! j = Some e → pp_state e = WaitingForReady → bodies e = b :: rest →
  ready_since e = Some t0 → (secs 1 ≤ since now t0)%N →
  (millis 1500 ≤ idle_duration now (signals t))%N →
  (prompt_detected (readiness now os t) = true →
   is_interactive_prompt (shown t) = false ∧ shown t ≠ AltScreenProgram) →
  let st' := tick_body now os m j t st in
  events st' = events st ++ [Injected j (th_agent_name t) b] ∧ bodies_of j (pending st') = rest.
Proof.
  intros He Hs Hb Ht H1 H2 Hsafe. unfold tick_body. unfold readiness in Hsafe.
  destruct (is_waiting_for_input_cached _ _ _) as [w leaf]. cbn [fst] in Hsafe.
  set (det := detect_prompt now (signals t) w) in *.
  assert (force_inject_if_idle now j (pr_idle det) (pending st)
          = (true, <[j := go_to ReadyToInject None e]> (pending st))) as Hf.
  { unfold det. rewrite detect_prompt_idle. by eapply force_inject_fires. }
  assert (∀ q', bodies_of j (<[j := if is_empty rest then go_to Idle (Some None) (set_bodies rest e)
     else go_to WaitingForReady (Some (Some now)) (set_bodies rest e)]> q') = rest) as Hrest.
  { intros q'. unfold bodies_of. rewrite lookup_insert_eq. by destruct rest. }
  destruct (prompt_detected det).
  - destruct (Hsafe eq_refl) as [Hi Ha]. unfold shown in Hi, Ha. unfold handle_detection.
    rewrite Hi, decide_False by done. unfold deliver_or_hold, queue_state. rewrite He. cbn [fmap option_fmap option_map].
    rewrite Hs, Hf. unfold deliver_outcome, has_pending. rewrite lookup_insert_eq. simpl. rewrite Hb. simpl.
    rewrite (take_ready_fresh _ _ _ b rest) by done. by split; [|apply Hrest].
  - unfold try_force_inject. rewrite Hf, (take_ready_fresh _ _ _ b rest) by done. by split; [|apply Hrest].
Qed.


(** ** What a tick reports *)

Lemma handle_detection_events now j name sg det m n q :
  let r := handle_detection now j name sg det m n q in
  length (tk_events r) ≤ 1 ∧ (∀ att, Attention att ∈ tk_events r → m = false).
Proof.
  unfold handle_detection, hold_interactive, maybe_fyi_attention.
  repeat case_match; simpl; (split; [lia|]); intros att Hatt; destruct m; try done;
    rewrite ?elem_of_cons, ?elem_of_nil in Hatt; destruct_or? Hatt; done.
Qed.

Lemma try_force_inject_events now j name det n q :
  let r := try_force_inject now j name det n q in
  length (tk_events r) ≤ 1 ∧ (∀ att, Attention att ∈ tk_events r → False).
Proof.
  unfold try_force_inject. repeat case_match; simpl; (split; [lia|]); intros att Hatt;
    rewrite ?elem_of_cons, ?elem_of_nil in Hatt; destruct_or? Hatt; done.
Qed.

(** A tick reports at most one thing. While the user is attached it asks for no
    attention. When it has recognised a prompt it delivers a body only if the prompt
    is not one that asks the user something, and into a full-screen program only as
    the first body of its agent. *)
Theorem detected_delivery_safe st j t m now os st' :
  reachable st → threads st !! j = Some t → th_phase t = PProbe m →
  step st (LTick now j os) = Some st' →
  ∃ evs, events st' = events st ++ evs ∧ length evs ≤ 1 ∧
    (∀ att, Attention att ∈ evs → m = false ∧ prompt_detected (readiness now os t) = true) ∧
    (injected j evs ≠ [] → prompt_detected (readiness now os t) = true →
     delivers_safely (pending st) j (shown t)).
Proof.
  intros Hr Ht Hp. simpl. rewrite Ht. simpl. unfold at_top. rewrite Hp. simpl. intros [= <-].
  unfold tick_step. rewrite Hp. unfold tick_body, readiness.
  destruct (is_waiting_for_input_cached _ _ _) as [w leaf]. cbn [fst].
  destruct (prompt_detected _) eqn:Hd; simpl; eexists; (split; [done|]).
  - match goal with |- context [handle_detection ?a ?b ?c ?d ?e ?f ?g ?h] =>
      pose proof (handle_detection_events a b c d e f g h) as [Hl Ha];
      pose proof (handle_detection_serves a b c d e f g h (reachable_wf st Hr)) as [_ Hs] end.
    split_and!; [done| |].
    + intros att Hatt. split; [by eapply Ha|done].
    + intros Hi _. by apply Hs.
  - match goal with |- context [try_force_inject ?a ?b ?c ?d ?e ?f] =>
      pose proof (try_force_inject_events a b c d e f) as [Hl Ha] end.
    split_and!; [done| |done]. intros att Hatt. by apply Ha in Hatt.
Qed.

(** ** Limits *)

Lemma step_probe st j t m now os :
  threads st !! j = Some t → th_phase t = PProbe m →
  step st (LTick now j os) = Some (tick_body now os m j t st).
Proof.
  intros Ht Hp. simpl. rewrite Ht. simpl. unfold at_top. rewrite Hp. simpl.
  unfold tick_step. by rewrite Hp.
Qed.

(** When the operating system does not show the process waiting, the screen is not
    looked at: a body that has waited a second goes to an agent quiet for 1.5 s even
    if a question to the user or a full-screen program is what it will be typed
    into. *)
Theorem undetected_prompt_gets_body st j t m now os e b rest t0 :
  threads st !! j = Some t → th_phase t = PProbe m →
  pending st !! j = Some e → pp_state e = WaitingForReady → bodies e = b :: rest →
  ready_since e = Some t0 → (t0 + secs 1 ≤ now)%N → (millis 1500 ≤ idle_duration now (signals t))%N →
  f32_geb (is_waiting_for_input_cached os (th_pid t) (cached_leaf t)).1 (f32_lit 7 10) = false →
  is_interactive_prompt (shown t) = true ∨ shown t = AltScreenProgram →
  ∃ st', step st (LTick now j os) = Some st' ∧
         events st' = events st ++ [Injected j (th_agent_name t) b].
Proof.
  intros Ht Hp He Hs Hb Hr H1 H2 Hw _. exists (tick_body now os m j t st). split; [by apply step_probe|].
  eapply tick_body_delivers; try done; [unfold since, secs in *; lia|]. intros Hd. exfalso.
  unfold readiness, detect_prompt in Hd. revert Hd.
  case_match; [done|]. case_match; [done|]. cbn [prompt_detected]. rewrite score_detects, Hw. done.
Qed.

Lemma hold_follow_up now j name sg det n q e b rest :
  q !! j = Some e → waiting (pp_state e) = true → bodies e = b :: rest →
  let pt := classify (current_line sg) (recent_lines sg) (sig_alt_screen sg) in
  is_interactive_prompt pt = true →
  let r := handle_detection now j name sg det false n q in
  (∃ att, tk_events r = [Attention att] ∧ ja_job_id att = j ∧ ja_prompt_type att = pt) ∧
  queue_state j (tk_queue r) = Some WaitingForApproval.
Proof.
  intros He Hs Hb pt Hpt. unfold handle_detection. fold pt. rewrite Hpt.
  unfold hold_interactive, has_pending. rewrite He. simpl. rewrite Hb. simpl.
  split; [by eexists|]. unfold queue_state, on_boot_prompt_detected.
  rewrite lookup_alter_eq, He. simpl. by rewrite Hs.
Qed.

(** The worker answers for the user. If a body is queued for an agent that booted
    long ago and the agent asks a yes/no question, shows a menu or asks to continue,
    the tick that recognises the prompt makes the worker press Enter in it, and the
    report goes no further: nobody is asked. *)
Theorem follow_up_answers_prompt st j t now os e b rest w attached printer :
  threads st !! j = Some t → th_phase t = PProbe false →
  pending st !! j = Some e → pp_state e = WaitingForReady → bodies e = b :: rest →
  prompt_detected (readiness now os t) = true → answerable (shown t) = true →
  ∃ st' att outs w' calls, step st (LTick now j os) = Some st' ∧
    events st' = events st ++ [Attention att] ∧ ja_job_id att = j ∧
    worker_event now attached printer (Attention att) st' w = (outs, w', calls) ∧
    outs = [WKeys j [13%N]] ∧ calls = on_prompt_resolved now j.
Proof.
  intros Ht Hp He Hs Hb Hd Ha. eexists (tick_body now os false j t st).
  assert (is_interactive_prompt (shown t) = true) as Hi by (by destruct (shown t)).
  revert Hd. unfold readiness, tick_body.
  destruct (is_waiting_for_input_cached _ _ _) as [wt leaf] eqn:Ew. cbn [fst]. intros Hd.
  set (det := detect_prompt now (signals t) wt) in *. rewrite Hd.
  destruct (hold_follow_up now j (th_agent_name t) (signals t) det (already_notified t) (pending st) e b rest)
    as [(att & Hatt & Hj & Hpt) Hq]; [done|by rewrite Hs|done|done|].
  exists att. unfold worker_event, maybe_print_done_notice, maybe_inject, maybe_auto_answer_trust.
  rewrite Hj, Hpt. fold (shown t). rewrite Ha. cbn [andb]. rewrite bool_decide_true by exact Hq.
  eexists _, _, _. split_and!; try done.
  - rewrite (step_probe st j t false) by done. unfold tick_body. rewrite Ew. fold det. by rewrite Hd.
  - simpl. by rewrite Hatt.
Qed.

(** ** The theorems at work *)

(** An operating system where every process reads its terminal, and one where it runs. *)
Definition reading_os : Os := mkOs (λ _, None) (λ _, true) (λ _, Some #"n_tty_read") (λ _, None).
Definition busy_os : Os := mkOs (λ _, None) (λ _, true) (λ _, Some #"0") (λ _, None).

Definition state_after (ls : list label) : Tsm := default tsm_new (run tsm_new ls).

(** Job 1 starts with a task, draws its prompt, and gets the task. *)
Definition boot_labels : list label :=
  [LRegister 0 1 #"faye" 7 (Some #"task") true; LBytes (secs 1) 1 (map VInput #"ready >")]
  ++ whole_tick (secs 4) 1 reading_os.

Definition booted : Tsm := state_after boot_labels.

Definition fifo_labels : list label :=
  [LBytes (secs 1) 1 (map VInput #"ready >")] ++ whole_tick (secs 4) 1 reading_os
  ++ tsm_append_body (secs 5) 1 #"second" ++ tsm_append_body (secs 6) 1 #"third"
  ++ whole_tick (secs 9) 1 busy_os ++ [LStop 1; LExit 1].

Definition fifo_live : Tsm :=
  state_after (LRegister 0 1 #"faye" 7 (Some #"task") true :: fifo_labels).

Definition fifo_end : Tsm := remove_cleanup 1 fifo_live.

Lemma job_bodies_fifo_witness :
  (∃ evs rest, events fifo_end = events tsm_new ++ evs ∧
    option_list (Some #"task") ++ told 1 fifo_labels = injected 1 evs ++ rest ∧
    (rest = [] ∧ dropped fifo_end = dropped fifo_live ∨
     ∃ d, dropped fifo_end = dropped fifo_live ++ [d] ∧ dp_job_id d = 1%N ∧ dp_bodies d = rest)) ∧
  injected 1 (events fifo_end) = [ #"task"; #"second"].
Proof.
  split; [|vm_compute; reflexivity].
  apply (job_bodies_fifo [] tsm_new 0 1 #"faye" 7 (Some #"task") fifo_labels fifo_live fifo_end).
  - reflexivity.
  - vm_compute. reflexivity.
  - repeat (constructor; [exact I|]). constructor.
  - vm_compute. reflexivity.
Defined.

Definition faye : Thread := default (thread_new 0 [] 0) (threads booted !! 1%N).
Definition faye_entry : PendingPrompt := default (mkPending [] [] 0 Idle None 0) (pending booted !! 1%N).


(** The same job with a follow-up queued and another screen: a question, or an editor. *)
Definition asking_labels (draw : list VteCall) : list label :=
  boot_labels ++ tsm_append_body (secs 5) 1 #"second" ++ [LBytes (secs 6) 1 draw]
  ++ take 3 (whole_tick (secs 9) 1 reading_os).

Definition asking (draw : list VteCall) : Tsm := state_after (asking_labels draw).

Definition question : list VteCall := VLinefeed :: map VInput #"Delete every file? [y/N]".
Definition editor : list VteCall := [VSetPrivateMode true; VInput 126].

Definition thread_of (st : Tsm) : Thread := default (thread_new 0 [] 0) (threads st !! 1%N).
Definition entry_of (st : Tsm) : PendingPrompt :=
  default (mkPending [] [] 0 Idle None 0) (pending st !! 1%N).

(** In front of the first one, with the process seen reading, the body is held. *)
Lemma detected_delivery_safe_witness :
  ∃ evs, events (default tsm_new (step (asking question) (LTick (secs 9) 1 reading_os)))
           = events (asking question) ++ evs ∧ length evs ≤ 1 ∧
    (∀ att, Attention att ∈ evs →
       false = false ∧ prompt_detected (readiness (secs 9) reading_os (thread_of (asking question))) = true) ∧
    (injected 1 evs ≠ [] →
     prompt_detected (readiness (secs 9) reading_os (thread_of (asking question))) = true →
     delivers_safely (pending (asking question)) 1 (shown (thread_of (asking question)))).
Proof.
  apply (detected_delivery_safe (asking question) 1 (thread_of (asking question)) false).
  - exists (asking_labels question). vm_compute. reflexivity.
  - vm_compute. reflexivity.
  - vm_compute. reflexivity.
  - vm_compute. reflexivity.
Defined.

Lemma undetected_prompt_gets_body_witness :
  shown (thread_of (asking question)) = YesNo ∧ shown (thread_of (asking editor)) = AltScreenProgram ∧
  (∃ st', step (asking question) (LTick (secs 9) 1 busy_os) = Some st' ∧
          events st' = events (asking question) ++ [Injected 1 (th_agent_name (thread_of (asking question))) #"second"]) ∧
  (∃ st', step (asking editor) (LTick (secs 9) 1 busy_os) = Some st' ∧
          events st' = events (asking editor) ++ [Injected 1 (th_agent_name (thread_of (asking editor))) #"second"]).
Proof.
  split; [vm_compute; reflexivity|]. split; [vm_compute; reflexivity|]. split.
  - apply (undetected_prompt_gets_body (asking question) 1 (thread_of (asking question)) false (secs 9) busy_os
             (entry_of (asking question)) #"second" [] (secs 5));
      [vm_compute; reflexivity..|vm_compute; discriminate|vm_compute; discriminate|vm_compute; reflexivity|].
    left. vm_compute. reflexivity.
  - apply (undetected_prompt_gets_body (asking editor) 1 (thread_of (asking editor)) false (secs 9) busy_os
             (entry_of (asking editor)) #"second" [] (secs 5));
      [vm_compute; reflexivity..|vm_compute; discriminate|vm_compute; discriminate|vm_compute; reflexivity|].
    right. vm_compute. reflexivity.
Defined.

Lemma follow_up_answers_prompt_witness :
  ∃ st' att outs w' calls, step (asking question) (LTick (secs 9) 1 reading_os) = Some st' ∧
    events st' = events (asking question) ++ [Attention att] ∧ ja_job_id att = 1%N ∧
    worker_event (secs 9) false true (Attention att) st' (mkWorker ∅ ∅) = (outs, w', calls) ∧
    outs = [WKeys 1 [13%N]] ∧ calls = on_prompt_resolved (secs 9) 1.
Proof.
  apply (follow_up_answers_prompt (asking question) 1 (thread_of (asking question)) (secs 9) reading_os
           (entry_of (asking question)) #"second" []); vm_compute; reflexivity.
Defined.
