(* ===== verification/Injection.v ===== *)
(** * Injection: typing bodies into agents

    [crates/orkia-shell/src/injection_executor.rs]: the thread that types the bodies
    the detectors hand over ([Detector]) into the agents' terminals, looks for
    them on the agent's screen, and presses Enter.

    What the executor does is a trace: bytes typed into a job's terminal, looks at
    its screen, and announcements of landed bodies. The environment says what each
    look shows, which byte a terminal refuses, and how much longer than asked each
    pause lasts. [char::to_lowercase] is the Unicode table, an argument. *)

From Stdlib Require Import NArith ZArith Lia.
From stdpp Require Import base gmap strings option numbers list list_basics.
From S2P Require Import Prelude Text Terminal Detector.

(** ** Screens *)

(** Where a scan of terminal bytes is. *)
Inductive ansi_mode := Plain | AfterEsc | InCsi | InOsc.

Fixpoint strip_go (m : ansi_mode) (bs : list N) : list N :=
  match m, bs with
  | _, [] => []
  | Plain, b :: r => if (b =? 27)%N then strip_go AfterEsc r else b :: strip_go Plain r
  | AfterEsc, b :: r =>
      if (b =? 91)%N then strip_go InCsi r
      else if (b =? 93)%N then strip_go InOsc r
      else strip_go Plain r
  | InCsi, b :: r => if in_range 64 126 b then strip_go Plain r else strip_go InCsi r
  | InOsc, b :: r =>
      if (b =? 7)%N then strip_go Plain r
      else match r with
           | c :: r' => if ((b =? 27) && (c =? 92))%N then strip_go Plain r' else strip_go InOsc r
           | [] => []
           end
  end.

Definition strip_ansi (bs : list N) : str := from_utf8_lossy (strip_go Plain bs).

Definition MENU_MARKERS : list str :=
  [ #"esctocancel"; #"entertoconfirm"; #"entertoselect"; #"trustthisfolder"; #"trustthefiles";
    #"doyoutrust"; #"doyoutrustthe"; #"1.yes"; #"2.no"; #"[y/n]"; #"(y/n)"].

Section executor.
Context (to_lowercase : char → list char).

Definition normalize (bs : list N) : str :=
  filter (λ c, is_whitespace c = false) (strip_ansi bs) ≫= to_lowercase.

(** [grid_shows_confirm_menu], on what the screen shows. *)
Definition shows_menu (grid : list N) : bool :=
  existsb (λ m, contains m (normalize grid)) MENU_MARKERS.

(** The test of [confirm_in_grid], on what the screen shows. *)
Definition shows_body (body : str) (grid : list N) : bool :=
  contains (normalize (utf8 body)) (normalize grid)
  || (contains [chr_nl] body && contains #"pastedtext" (normalize grid)).

(** ** The environment and the trace *)

Inductive effect :=
| Typed (job_id : N) (bytes : list N)
| Looked (job_id : N) (grid : list N)
| Announced (event : DetectorEvent).

Record env := mkEnv {
  grid_at : N → nat → list N;
  refuses : nat → bool;
  overrun : nat → N;
}.

Context (w : env).

Record exec := mkExec {
  clock : N;
  looks : nat;
  typed : nat;
  pauses : nat;
  trace : list effect;
}.

Definition sleep (d : N) (x : exec) : exec :=
  mkExec (clock x + d + overrun w (pauses x)) (looks x) (typed x) (S (pauses x)) (trace x).

Definition log (e : effect) (x : exec) : exec :=
  mkExec (clock x) (looks x) (typed x) (pauses x) (trace x ++ [e]).

(** [probe()] *)
Definition look (j : N) (x : exec) : list N * exec :=
  let g := grid_at w j (looks x) in
  (g, mkExec (clock x) (S (looks x)) (typed x) (pauses x) (trace x ++ [Looked j g])).

Definition BYTE_GAP : N := millis 5.
Definition CONFIRM_TIMEOUT : N := millis 6000.
Definition CONFIRM_POLL : N := millis 50.
Definition SUBMIT_AFTER_CONFIRM_DELAY : N := millis 1000.
Definition MAX_ATTEMPTS : nat := 2.
Definition CLEAR_LINE : N := 21.
Definition MAX_MODALS : nat := 3.
Definition PASTE_BEGIN : list N := 27%N :: #"[200~".
Definition PASTE_END : list N := 27%N :: #"[201~".

(** The bytes written and whether all were, one at a time. *)
Fixpoint write_bytes (bytes : list N) (x : exec) : list N * bool * exec :=
  match bytes with
  | [] => ([], true, x)
  | b :: bs =>
      let x1 := mkExec (clock x) (looks x) (S (typed x)) (pauses x) (trace x) in
      if refuses w (typed x) then ([], false, x1)
      else let '(done, ok, x2) := write_bytes bs (sleep BYTE_GAP x1) in (b :: done, ok, x2)
  end.

Definition type_bytes (j : N) (bytes : list N) (x : exec) : bool * exec :=
  let '(done, ok, x) := write_bytes bytes x in (ok, log (Typed j done) x).

Definition type_body_pasted (j : N) (body : str) (x : exec) : bool * exec :=
  let '(ok, x) := type_bytes j PASTE_BEGIN x in
  if ok then
    let '(ok, x) := type_bytes j (utf8 body) x in
    if ok then type_bytes j PASTE_END x else (false, x)
  else (false, x).

Definition submit_sequence (agent_name : str) : list N := [13%N].

Definition submit_input (j : N) (agent_name : str) (x : exec) : bool * exec :=
  type_bytes j (submit_sequence agent_name) x.

(** The loops that poll pause at least [CONFIRM_POLL] each time round. *)
Definition POLL_FUEL : nat := 121.

Fixpoint confirm_loop (fuel : nat) (j : N) (body : str) (start : N) (x : exec) : bool * exec :=
  match fuel with
  | O => (false, x)
  | S fuel =>
      let '(g, x) := look j x in
      if shows_body body g then (true, x)
      else if (CONFIRM_TIMEOUT <=? since (clock x) start)%N then (false, x)
      else confirm_loop fuel j body start (sleep CONFIRM_POLL x)
  end.

Definition confirm_in_grid (j : N) (body : str) (x : exec) : bool * exec :=
  if is_empty (normalize (utf8 body)) then (true, x)
  else confirm_loop POLL_FUEL j body (clock x) x.

Fixpoint clear_loop (fuel : nat) (j : N) (start : N) (x : exec) : exec :=
  match fuel with
  | O => x
  | S fuel =>
      let '(g, x) := look j x in
      if shows_menu g && (since (clock x) start <? CONFIRM_TIMEOUT)%N
      then clear_loop fuel j start (sleep CONFIRM_POLL x) else x
  end.

Definition accept_modal (j : N) (x : exec) : bool * exec :=
  let '(g, x) := look j x in
  if shows_menu g then
    let '(_, x) := type_bytes j [13%N] x in
    (true, clear_loop POLL_FUEL j (clock x) x)
  else (false, x).

Fixpoint accept_modals (n : nat) (j : N) (x : exec) : exec :=
  match n with
  | O => x
  | S n => let '(accepted, x) := accept_modal j x in if accepted then accept_modals n j x else x
  end.

(** ** One injection *)

Record InjectJob := mkInject { ij_job_id : N; ij_agent_name : str; ij_body : str }.

(** [done_log], with or without a channel to announce the landing on. *)
Definition done_log (announce : bool) (job : InjectJob) (x : exec) : exec :=
  if announce then log (Announced (Delivered (ij_job_id job) (ij_agent_name job) (ij_body job))) x else x.

(** The attempts that are left; [retry] says that this is not the first. *)
Fixpoint attempts (announce : bool) (n : nat) (retry : bool) (job : InjectJob) (x : exec) : exec :=
  let j := ij_job_id job in
  match n with
  | O => (look j x).2
  | S n =>
      let x := if retry then (type_bytes j [CLEAR_LINE] x).2 else x in
      let '(ok, x) := type_body_pasted j (ij_body job) x in
      if ok then
        let '(confirmed, x) := confirm_in_grid j (ij_body job) x in
        if confirmed then
          let '(ok, x) := submit_input j (ij_agent_name job) (sleep SUBMIT_AFTER_CONFIRM_DELAY x) in
          if ok then done_log announce job x else x
        else attempts announce n true job (accept_modal j x).2
      else x
  end.

Definition deliver_confirmed (announce : bool) (job : InjectJob) (x : exec) : exec :=
  attempts announce MAX_ATTEMPTS false job (accept_modals MAX_MODALS (ij_job_id job) x).

Definition do_inject (announce : bool) (job : InjectJob) (probe : bool) (x : exec) : exec :=
  if probe then deliver_confirmed announce job x
  else
    let '(ok, x) := type_body_pasted (ij_job_id job) (ij_body job) x in
    let x := if ok then (submit_input (ij_job_id job) (ij_agent_name job) x).2 else x in
    done_log announce job x.

(** ** The thread *)

Inductive Command :=
| Register (job_id : N) (probe : bool)
| Unregister (job_id : N)
| Inject (job : InjectJob)
| HoldCmd (job_id : N)
| Release (job_id : N)
| SendKeys (job_id : N) (bytes : list N).

Record Executor := mkExecutor {
  writers : gset N;
  probes : gset N;
  held : gset N;
  deferred : gmap N (list InjectJob);
  io : exec;
}.

Definition set_io (x : exec) (s : Executor) : Executor :=
  mkExecutor (writers s) (probes s) (held s) (deferred s) x.

Definition deliver_deferred (announce : bool) (job : InjectJob) (s : Executor) : Executor :=
  if decide (ij_job_id job ∈ writers s) then
    set_io (do_inject announce job (bool_decide (ij_job_id job ∈ probes s)) (io s)) s
  else s.

Definition on_command (announce : bool) (s : Executor) (c : Command) : Executor :=
  match c with
  | Register j probe =>
      mkExecutor ({[j]} ∪ writers s) (if probe then {[j]} ∪ probes s else probes s) (held s)
                 (deferred s) (io s)
  | Unregister j =>
      mkExecutor (writers s ∖ {[j]}) (probes s ∖ {[j]}) (held s ∖ {[j]}) (delete j (deferred s)) (io s)
  | Inject job =>
      if decide (ij_job_id job ∈ held s) then
        mkExecutor (writers s) (probes s) (held s)
                   (<[ij_job_id job := default [] (deferred s !! ij_job_id job) ++ [job]]> (deferred s)) (io s)
      else deliver_deferred announce job s
  | HoldCmd j => mkExecutor (writers s) (probes s) ({[j]} ∪ held s) (deferred s) (io s)
  | Release j =>
      let pending := default [] (deferred s !! j) in
      let s := mkExecutor (writers s) (probes s) (held s ∖ {[j]}) (delete j (deferred s)) (io s) in
      foldl (λ s job, deliver_deferred announce job s) s pending
  | SendKeys j bytes =>
      if decide (j ∈ writers s) then set_io (type_bytes j bytes (io s)).2 s else s
  end.

Definition run_loop (announce : bool) (s : Executor) (cmds : list Command) : Executor :=
  foldl (on_command announce) s cmds.

(** ** The polling loops end *)

(** With a unit of fuel for each pause that fits before the timeout, and one more, the
    fuel does not show. *)
Lemma confirm_loop_fuel n m j body start x :
  (start ≤ clock x)%N →
  (CONFIRM_TIMEOUT ≤ since (clock x) start + N.of_nat n * CONFIRM_POLL)%N →
  (CONFIRM_TIMEOUT ≤ since (clock x) start + N.of_nat m * CONFIRM_POLL)%N →
  confirm_loop (S n) j body start x = confirm_loop (S m) j body start x.
Proof.
  revert m x. induction n as [|n IH]; intros m x Hs Hn Hm; cbn [confirm_loop]; cbn [look fst snd];
    (destruct (shows_body body _); [done|]); cbn [clock];
    (destruct (N.leb_spec CONFIRM_TIMEOUT (since (clock x) start)); [done|]).
  - exfalso. lia.
  - destruct m as [|m]; [exfalso; lia|]. apply IH; cbn [sleep clock]; unfold since, CONFIRM_POLL, millis in *; lia.
Qed.

Lemma clear_loop_fuel n m j start x :
  (start ≤ clock x)%N →
  (CONFIRM_TIMEOUT ≤ since (clock x) start + N.of_nat n * CONFIRM_POLL)%N →
  (CONFIRM_TIMEOUT ≤ since (clock x) start + N.of_nat m * CONFIRM_POLL)%N →
  clear_loop (S n) j start x = clear_loop (S m) j start x.
Proof.
  revert m x. induction n as [|n IH]; intros m x Hs Hn Hm; cbn [clear_loop]; cbn [look fst snd];
    (destruct (shows_menu _); [|done]); cbn [clock andb];
    (destruct (N.ltb_spec (since (clock x) start) CONFIRM_TIMEOUT); [|done]).
  - exfalso. lia.
  - destruct m as [|m]; [exfalso; lia|]. apply IH; cbn [sleep clock]; unfold since, CONFIRM_POLL, millis in *; lia.
Qed.

(** ** What is typed, and when *)

(** What the executor may do next, delivering [body] to job [j], after the effects [tr]:
    Enter follows a look at the screen that showed a menu or the body, or is the
    first byte of a paste; a landing is announced right after such an Enter. A body
    that leaves nothing to look for is submitted unseen. *)
Definition allowed (j : N) (body : str) (tr : list effect) (e : effect) : Prop :=
  match e with
  | Looked k _ => k = j
  | Typed k bs =>
      k = j ∧
      (normalize (utf8 body) ≠ [] → bs = [13%N] →
       (∃ pre g, tr = pre ++ [Looked j g] ∧ (shows_menu g = true ∨ shows_body body g = true)) ∨
       (∃ pre, tr = pre ++ [Typed j PASTE_BEGIN]))
  | Announced ev =>
      (∃ name, ev = Delivered j name body) ∧
      (normalize (utf8 body) ≠ [] →
       ∃ pre g, tr = pre ++ [Looked j g; Typed j [13%N]] ∧ shows_body body g = true)
  end.

(** [tr'] goes on from [tr] with allowed effects. *)
Inductive extends (j : N) (body : str) (tr : list effect) : list effect → Prop :=
| ext_refl : extends j body tr tr
| ext_step tr' e : extends j body tr tr' → allowed j body tr' e → extends j body tr (tr' ++ [e]).

Lemma typing_ext_trans j body a b c : extends j body a b → extends j body b c → extends j body a c.
Proof. intros Hab Hbc. induction Hbc; [done|]. by apply ext_step. Qed.

Lemma ext_prefix j body a b : extends j body a b → ∃ s, b = a ++ s.
Proof.
  induction 1 as [|tr' e _ [s ->] _]; [exists []; by rewrite app_nil_r|].
  exists (s ++ [e]). by rewrite app_assoc.
Qed.

Lemma write_bytes_spec bs x done ok x' :
  write_bytes bs x = (done, ok, x') →
  trace x' = trace x ∧ (ok = true → done = bs) ∧ (∃ r, bs = done ++ r) ∧ (clock x ≤ clock x')%N.
Proof.
  revert x done. induction bs as [|b bs IH]; intros x done; simpl.
  - intros [= <- <- <-]. split_and!; [done..|by exists []|lia].
  - case_match; [intros [= <- <- <-]; split_and!; [done..|by eexists|simpl; lia]|].
    destruct (write_bytes bs _) as [[d o] x2] eqn:E. intros [= <- <- <-].
    apply IH in E as (Ht & Ho & [r Hr] & Hc). split_and!; [done| | |].
    + intros ->. by rewrite Ho.
    + exists r. by rewrite Hr.
    + revert Hc. unfold sleep. simpl. lia.
Qed.

Lemma type_bytes_spec j bs x ok x' :
  type_bytes j bs x = (ok, x') →
  ∃ done, trace x' = trace x ++ [Typed j done] ∧ (ok = true → done = bs) ∧ ∃ r, bs = done ++ r.
Proof.
  unfold type_bytes. destruct (write_bytes bs x) as [[d o] x2] eqn:E. intros [= <- <-].
  apply write_bytes_spec in E as (Ht & Ho & Hr & _). exists d. simpl. by rewrite Ht.
Qed.

Lemma type_ext j body bs x :
  (∀ r, bs ≠ 13%N :: r) → extends j body (trace x) (trace (type_bytes j bs x).2).
Proof.
  intros Hb. destruct (type_bytes j bs x) as [ok x'] eqn:E.
  apply type_bytes_spec in E as (d & Ht & _ & r & Hr). cbn [snd]. rewrite Ht.
  apply ext_step; [apply ext_refl|]. split; [done|]. intros _ ->. by destruct (Hb r).
Qed.

Lemma enter_ext j body x pre g :
  trace x = pre ++ [Looked j g] → (shows_menu g = true ∨ shows_body body g = true) →
  extends j body (trace x) (trace (type_bytes j [13%N] x).2).
Proof.
  intros Ht Hg. destruct (type_bytes j [13%N] x) as [ok x'] eqn:E.
  apply type_bytes_spec in E as (d & Ht' & _ & _). cbn [snd]. rewrite Ht'.
  apply ext_step; [apply ext_refl|]. split; [done|]. intros _ _. left. by exists pre, g.
Qed.

Lemma type_body_ext j body x : extends j body (trace x) (trace (type_body_pasted j body x).2).
Proof.
  unfold type_body_pasted. destruct (type_bytes j PASTE_BEGIN x) as [ok1 x1] eqn:E1.
  pose proof (type_ext j body PASTE_BEGIN x ltac:(by intros)) as H1. rewrite E1 in H1. simpl in H1.
  apply type_bytes_spec in E1 as (d1 & T1 & O1 & _).
  destruct ok1; [|done]. rewrite (O1 eq_refl) in T1.
  destruct (type_bytes j (utf8 body) x1) as [ok2 x2] eqn:E2.
  apply type_bytes_spec in E2 as (d2 & T2 & _ & _).
  assert (extends j body (trace x) (trace x2)) as H2.
  { rewrite T2. apply ext_step; [done|]. split; [done|]. intros _ _. right. by exists (trace x). }
  destruct ok2; [|done]. eapply typing_ext_trans; [done|]. by apply type_ext.
Qed.

Lemma look_ext j body x : extends j body (trace x) (trace (look j x).2).
Proof. simpl. apply ext_step; [apply ext_refl|done]. Qed.

Lemma confirm_loop_ext fuel j body start x ok x' :
  confirm_loop fuel j body start x = (ok, x') →
  extends j body (trace x) (trace x') ∧
  (ok = true → ∃ pre g, trace x' = pre ++ [Looked j g] ∧ shows_body body g = true).
Proof.
  revert x. induction fuel as [|fuel IH]; intros x; cbn [confirm_loop].
  - intros [= <- <-]. split; [apply ext_refl|done].
  - pose proof (look_ext j body x) as Hl. cbn [look snd] in *.
    destruct (shows_body body _) eqn:Hg.
    { intros [= <- <-]. split; [done|]. intros _. simpl. eauto. }
    case_match; [intros [= <- <-]; done|]. intros E. apply IH in E as [He Hok].
    split; [|done]. eapply typing_ext_trans; [exact Hl|exact He].
Qed.

Lemma clear_loop_ext fuel j body start x : extends j body (trace x) (trace (clear_loop fuel j start x)).
Proof.
  revert x. induction fuel as [|fuel IH]; intros x; cbn [clear_loop]; [apply ext_refl|].
  pose proof (look_ext j body x) as Hl. cbn [look snd] in *. case_match; [|done].
  eapply typing_ext_trans; [exact Hl|]. match goal with |- context [sleep CONFIRM_POLL ?y] => exact (IH (sleep CONFIRM_POLL y)) end.
Qed.

Lemma accept_modal_ext j body x : extends j body (trace x) (trace (accept_modal j x).2).
Proof.
  unfold accept_modal. pose proof (look_ext j body x) as Hl. cbn [look snd] in *.
  destruct (shows_menu _) eqn:Hg; [|done].
  match goal with |- context [type_bytes j [13%N] ?y] =>
    pose proof (enter_ext j body y (trace x) _ eq_refl (or_introl Hg)) as He;
    destruct (type_bytes j [13%N] y) as [ok x2] end.
  cbn [snd] in *. eapply typing_ext_trans; [exact Hl|]. eapply typing_ext_trans; [exact He|]. apply clear_loop_ext.
Qed.

Lemma accept_modals_ext n j body x : extends j body (trace x) (trace (accept_modals n j x)).
Proof.
  revert x. induction n as [|n IH]; intros x; cbn [accept_modals]; [apply ext_refl|].
  pose proof (accept_modal_ext j body x) as Ha. destruct (accept_modal j x) as [[] x']; [|done].
  eapply typing_ext_trans; [exact Ha|apply IH].
Qed.

Lemma confirm_ext j body x ok x' :
  confirm_in_grid j body x = (ok, x') →
  extends j body (trace x) (trace x') ∧
  (ok = true → normalize (utf8 body) ≠ [] →
   ∃ pre g, trace x' = pre ++ [Looked j g] ∧ shows_body body g = true).
Proof.
  unfold confirm_in_grid. destruct (normalize (utf8 body)) eqn:En; cbn [is_empty].
  - intros [= <- <-]. split; [apply ext_refl|done].
  - intros E. apply confirm_loop_ext in E as [He Hok]. split; [done|]. intros Ht _. by apply Hok.
Qed.

(** Enter and the announcement, once a body counts as confirmed. *)
Lemma submit_ext announce job x0 x :
  let j := ij_job_id job in let body := ij_body job in
  extends j body x0 (trace x) →
  (normalize (utf8 body) ≠ [] → ∃ pre g, trace x = pre ++ [Looked j g] ∧ shows_body body g = true) →
  extends j body x0
    (trace (let '(ok, y) := submit_input j (ij_agent_name job) x in if ok then done_log announce job y else y)).
Proof.
  intros j body Hx Hc. unfold submit_input, submit_sequence.
  destruct (type_bytes j [13%N] x) as [ok y] eqn:E. apply type_bytes_spec in E as (d & Ht & Hok & _).
  assert (extends j body x0 (trace y)) as Hy.
  { rewrite Ht. apply ext_step; [done|]. split; [done|]. intros Hne _. left.
    destruct (Hc Hne) as (pre & g & ? & ?). eauto. }
  destruct ok; [|done]. rewrite (Hok eq_refl) in Ht. unfold done_log. destruct announce; [|done].
  simpl. apply ext_step; [done|]. split; [by eexists|]. intros Hne.
  destruct (Hc Hne) as (pre & g & Hpre & Hg). exists pre, g. split; [|done].
  by rewrite Ht, Hpre, <- app_assoc.
Qed.

Lemma attempts_ext announce n retry job x :
  extends (ij_job_id job) (ij_body job) (trace x) (trace (attempts announce n retry job x)).
Proof.
  revert retry x. induction n as [|n IH]; intros retry x; cbn [attempts]; [apply look_ext|].
  set (x0 := if retry then _ else x).
  assert (extends (ij_job_id job) (ij_body job) (trace x) (trace x0)) as H0.
  { unfold x0. destruct retry; [by apply type_ext|apply ext_refl]. }
  pose proof (type_body_ext (ij_job_id job) (ij_body job) x0) as H1.
  destruct (type_body_pasted _ _ x0) as [ok x1]. simpl in H1.
  pose proof (typing_ext_trans _ _ _ _ _ H0 H1) as H01. destruct ok; [|done].
  destruct (confirm_in_grid _ _ x1) as [c x2] eqn:E. apply confirm_ext in E as [H2 Hc].
  pose proof (typing_ext_trans _ _ _ _ _ H01 H2) as H02. destruct c.
  - by apply (submit_ext announce job _ (sleep SUBMIT_AFTER_CONFIRM_DELAY x2)); [|apply Hc].
  - eapply typing_ext_trans; [exact H02|]. eapply typing_ext_trans; [apply accept_modal_ext|]. apply IH.
Qed.

Lemma deliver_confirmed_ext announce job x :
  extends (ij_job_id job) (ij_body job) (trace x) (trace (deliver_confirmed announce job x)).
Proof. unfold deliver_confirmed. eapply typing_ext_trans; [apply accept_modals_ext|apply attempts_ext]. Qed.

Lemma ext_allowed j body a b : extends j body a b →
  ∀ pre e post, b = a ++ pre ++ e :: post → allowed j body (a ++ pre) e.
Proof.
  induction 1 as [|tr' e' Hx IH Ha]; intros pre e post Hb.
  - apply (f_equal length) in Hb. rewrite !length_app in Hb. simpl in Hb. lia.
  - destruct (ext_prefix _ _ _ _ Hx) as [s ->].
    rewrite <- app_assoc in Hb. apply app_inv_head in Hb.
    destruct post as [|p post] using rev_ind; [|clear IHpost].
    + apply app_inj_tail in Hb as [-> ->]. done.
    + rewrite app_comm_cons, app_assoc in Hb. apply app_inj_tail in Hb as [-> _]. by eapply IH.
Qed.


(** ** Any menu is accepted *)

Lemma clear_loop_prefix fuel j start x : ∃ s, trace (clear_loop fuel j start x) = trace x ++ s.
Proof. eapply ext_prefix. by apply (clear_loop_ext fuel j []). Qed.

Lemma accept_modals_prefix n j x : ∃ s, trace (accept_modals n j x) = trace x ++ s.
Proof. eapply ext_prefix. by apply (accept_modals_ext n j []). Qed.

(** Whatever was delivered to a job before, an injection that finds a confirmation
    menu on its screen begins by pressing Enter in it. *)
Theorem any_menu_accepted announce s job g :
  ij_job_id job ∈ writers s → ij_job_id job ∈ probes s → ij_job_id job ∉ held s →
  grid_at w (ij_job_id job) (looks (io s)) = g → shows_menu g = true → refuses w (typed (io s)) = false →
  ∃ rest, trace (io (on_command announce s (Inject job)))
          = trace (io s) ++ [Looked (ij_job_id job) g; Typed (ij_job_id job) [13%N]] ++ rest.
Proof.
  intros Hw Hp Hh Hg Hm Hr. cbn [on_command]. rewrite decide_False by done.
  unfold deliver_deferred. rewrite decide_True, bool_decide_true by done. cbn [io set_io do_inject].
  unfold deliver_confirmed, MAX_MODALS. cbn [accept_modals]. unfold accept_modal at 1. cbn [look].
  rewrite Hg, Hm. unfold type_bytes. cbn [write_bytes typed]. rewrite Hr.
  match goal with |- context [clear_loop POLL_FUEL ?j ?st ?y] =>
    destruct (clear_loop_prefix POLL_FUEL j st y) as [s1 H1]; set (y1 := clear_loop POLL_FUEL j st y) in * end.
  destruct (accept_modals_prefix 2 (ij_job_id job) y1) as [s2 H2]. cbn [accept_modals] in H2 |- *.
  set (y2 := let '(a, x) := accept_modal (ij_job_id job) y1 in _) in *.
  destruct (ext_prefix _ _ _ _ (attempts_ext announce MAX_ATTEMPTS false job y2)) as [s3 H3].
  rewrite H3, H2, H1. simpl. rewrite <- !app_assoc. by eexists.
Qed.

(** ** Pastes *)

(** The bytes typed into a terminal by a list of effects. *)
Definition typed_bytes (j : N) (tr : list effect) : list N :=
  tr ≫= (λ e, match e with Typed k bs => if decide (k = j) then bs else [] | _ => [] end).

(** How a terminal program reads a bracketed paste: what is between the first marker
    and the next closing one is text, what follows are keystrokes. *)
Definition paste_read (bs : list N) : option (list N * list N) :=
  r ← strip_prefix PASTE_BEGIN bs;
  n ← find_sub PASTE_END r;
  Some (take n r, drop (n + length PASTE_END) r).

Lemma write_bytes_all bs x :
  (∀ n, refuses w n = false) → ∃ x', write_bytes bs x = (bs, true, x') ∧ trace x' = trace x.
Proof.
  intros Hr. revert x. induction bs as [|b bs IH]; intros x; simpl; [by eexists|].
  rewrite Hr. destruct (IH (sleep BYTE_GAP (mkExec (clock x) (looks x) (S (typed x)) (pauses x) (trace x))))
    as (x' & -> & Ht). by eexists.
Qed.

Lemma type_bytes_all j bs x :
  (∀ n, refuses w n = false) → ∃ x', type_bytes j bs x = (true, x') ∧ trace x' = trace x ++ [Typed j bs].
Proof.
  intros Hr. unfold type_bytes. destruct (write_bytes_all bs x Hr) as (x' & -> & Ht).
  eexists. split; [done|]. simpl. by rewrite Ht.
Qed.

Lemma type_body_all j body x :
  (∀ n, refuses w n = false) →
  ∃ x', type_body_pasted j body x = (true, x') ∧
    trace x' = trace x ++ [Typed j PASTE_BEGIN; Typed j (utf8 body); Typed j PASTE_END].
Proof.
  intros Hr. unfold type_body_pasted.
  destruct (type_bytes_all j PASTE_BEGIN x Hr) as (x1 & -> & T1).
  destruct (type_bytes_all j (utf8 body) x1 Hr) as (x2 & -> & T2).
  destruct (type_bytes_all j PASTE_END x2 Hr) as (x3 & -> & T3).
  eexists. split; [done|]. by rewrite T3, T2, T1, <- !app_assoc.
Qed.

Lemma find_marker a r : 27%N ∉ a → find_sub PASTE_END (a ++ PASTE_END ++ r) = Some (length a).
Proof.
  intros Ha. unfold PASTE_END. apply find_sub_app; [set_solver|].
  induction a as [|c a IH]; [done|]. apply not_elem_of_cons in Ha as [Hc Ha].
  cbn [find_sub]. unfold starts_with at 1. cbn [strip_prefix].
  destruct (N.eqb_spec 27 c) as [<-|_]; [done|]. by rewrite IH.
Qed.

Lemma paste_read_first a r :
  27%N ∉ a → paste_read (PASTE_BEGIN ++ a ++ PASTE_END ++ r) = Some (a, r).
Proof.
  intros Ha. unfold paste_read. rewrite strip_prefix_app. cbn [mbind option_bind].
  rewrite find_marker by done. cbn [mbind option_bind]. rewrite take_app_length.
  by rewrite <- drop_drop, drop_app_length, drop_app_length.
Qed.

(** A body is typed as a paste, and a body without escape characters is read as
    exactly that. But a body that contains the closing marker ends the paste itself:
    its text up to there is pasted, and the rest arrives as keystrokes. *)
Theorem paste_boundary j body x :
  (∀ n, refuses w n = false) →
  ∃ x' s, type_body_pasted j body x = (true, x') ∧ trace x' = trace x ++ s ∧
    (27%N ∉ body → paste_read (typed_bytes j s) = Some (utf8 body, [])) ∧
    (∀ a keys, 27%N ∉ a → body = a ++ PASTE_END ++ keys →
       paste_read (typed_bytes j s) = Some (utf8 a, utf8 keys ++ PASTE_END)).
Proof.
  intros Hr. destruct (type_body_all j body x Hr) as (x' & Hx & Ht). eexists x', _.
  split; [done|]. split; [done|].
  assert (typed_bytes j [Typed j PASTE_BEGIN; Typed j (utf8 body); Typed j PASTE_END]
          = PASTE_BEGIN ++ utf8 body ++ PASTE_END) as ->.
  { unfold typed_bytes. simpl. rewrite !decide_True by done. by rewrite app_nil_r. }
  assert (∀ a, 27%N ∉ a → 27%N ∉ utf8 a) as Hu by (intros a; by rewrite elem_utf8_ascii).
  split.
  - intros Hb. rewrite <- (app_nil_r PASTE_END). by apply paste_read_first, Hu.
  - intros a keys Ha ->. rewrite !utf8_app, <- !app_assoc.
    change (utf8 PASTE_END) with PASTE_END. by apply paste_read_first, Hu.
Qed.

(** ** Holding a job *)

(** Commands that do not touch the hold on a job and send it no keys. *)
Definition respects_hold (j : N) (c : Command) : Prop :=
  match c with
  | Unregister k | Release k | SendKeys k _ => k ≠ j
  | _ => True
  end.

Definition asked (j : N) (cmds : list Command) : list InjectJob :=
  omap (λ c, match c with Inject job => if decide (ij_job_id job = j) then Some job else None | _ => None end) cmds.

(** The effects on a job's terminal. *)
Definition touches (j : N) (e : effect) : bool :=
  match e with Typed k _ | Looked k _ => bool_decide (k = j) | Announced _ => false end.

Lemma filter_touches_own k j body a b :
  extends k body a b → k ≠ j → filter (λ e, touches j e = true) b = filter (λ e, touches j e = true) a.
Proof.
  intros Hx Hne. induction Hx as [|tr e _ IH Ha]; [done|]. rewrite filter_app, IH.
  rewrite filter_cons_False; [by rewrite app_nil_r|].
  destruct e as [i bs|i g|ev]; simpl in *; rewrite ?bool_decide_eq_true; [|congruence|done].
  destruct Ha as [-> _]. done.
Qed.

(** Without a probe: the body, Enter, and the announcement. *)
Lemma legacy_own announce job x j :
  ij_job_id job ≠ j →
  filter (λ e, touches j e = true) (trace (do_inject announce job false x))
  = filter (λ e, touches j e = true) (trace x).
Proof.
  intros Hne. unfold do_inject. destruct (type_body_pasted _ _ x) as [ok x1] eqn:E1.
  assert (filter (λ e, touches j e = true) (trace x1) = filter (λ e, touches j e = true) (trace x)) as H1.
  { apply (filter_touches_own (ij_job_id job) j (ij_body job)); [|done].
    pose proof (type_body_ext (ij_job_id job) (ij_body job) x) as H. by rewrite E1 in H. }
  set (x2 := if ok then _ else x1).
  assert (filter (λ e, touches j e = true) (trace x2) = filter (λ e, touches j e = true) (trace x)) as H2.
  { unfold x2. destruct ok; [|done]. unfold submit_input.
    destruct (type_bytes _ _ x1) as [ok2 y] eqn:E2. apply type_bytes_spec in E2 as (d & Ht & _). simpl.
    rewrite Ht, filter_app, H1, filter_cons_False; [by rewrite app_nil_r|].
    simpl. by rewrite bool_decide_eq_true. }
  unfold done_log. destruct announce; [|done]. simpl. rewrite filter_app, H2, filter_cons_False by done.
  by rewrite app_nil_r.
Qed.

Lemma deliver_own announce job s j :
  ij_job_id job ≠ j →
  filter (λ e, touches j e = true) (trace (io (deliver_deferred announce job s)))
  = filter (λ e, touches j e = true) (trace (io s)).
Proof.
  intros Hne. unfold deliver_deferred. case_decide; [|done]. cbn [io set_io].
  destruct (bool_decide _); [|by apply legacy_own].
  eapply filter_touches_own; [apply deliver_confirmed_ext|done].
Qed.

Lemma deliver_same announce job s :
  held (deliver_deferred announce job s) = held s ∧ deferred (deliver_deferred announce job s) = deferred s.
Proof. unfold deliver_deferred. by case_decide. Qed.

(** What holds of a held job between two states. *)
Definition holding (j : N) (s : Executor) (jobs : list InjectJob) (s' : Executor) : Prop :=
  j ∈ held s' ∧
  default [] (deferred s' !! j) = default [] (deferred s !! j) ++ jobs ∧
  filter (λ e, touches j e = true) (trace (io s')) = filter (λ e, touches j e = true) (trace (io s)).

Lemma release_holding announce j pending s :
  j ∈ held s → Forall (λ job, ij_job_id job ≠ j) pending →
  holding j s [] (foldl (λ s job, deliver_deferred announce job s) s pending).
Proof.
  intros Hj Hp. revert s Hj. induction Hp as [|job pending Hne Hp IH]; intros s Hj; simpl.
  - split_and!; [done|by rewrite app_nil_r|done].
  - destruct (deliver_same announce job s) as [Hh Hd].
    destruct (IH (deliver_deferred announce job s)) as (A & B & C); [by rewrite Hh|].
    split_and!; [done|by rewrite B, Hd|]. rewrite C. by apply deliver_own.
Qed.

(** Deferred injections are filed under their own job. *)
Definition filed (s : Executor) : Prop :=
  map_Forall (λ k jobs, Forall (λ job, ij_job_id job = k) jobs) (deferred s).

Lemma release_filed announce pending s :
  filed s → filed (foldl (λ s job, deliver_deferred announce job s) s pending).
Proof.
  revert s. induction pending as [|job pending IH]; intros s Hs; [done|]. simpl. apply IH.
  unfold filed. by rewrite (proj2 (deliver_same announce job s)).
Qed.

Lemma command_filed announce c s : filed s → filed (on_command announce s c).
Proof.
  intros Hs. destruct c as [k p|k|job|k|k|k bs]; cbn [on_command]; try done.
  - by apply map_Forall_delete.
  - case_decide.
    + apply map_Forall_insert_2; [|done]. apply Forall_app_2; [|by repeat constructor].
      destruct (deferred s !! ij_job_id job) eqn:E; [by apply (Hs _ _ E)|done].
    + unfold filed. by rewrite (proj2 (deliver_same announce job s)).
  - apply release_filed. by apply map_Forall_delete.
  - by case_decide.
Qed.

Lemma command_holding announce j c s :
  filed s → j ∈ held s → respects_hold j c → holding j s (asked j [c]) (on_command announce s c).
Proof.
  intros Hf Hj Hr. destruct c as [k p|k|job|k|k|k bs]; cbn [on_command respects_hold] in *;
    unfold asked; cbn [omap list_omap].
  - split_and!; [done|by rewrite app_nil_r|done].
  - split_and!; simpl; [set_solver|by rewrite lookup_delete_ne, app_nil_r|done].
  - destruct (decide (ij_job_id job = j)) as [E|Hne].
    + rewrite decide_True by (by rewrite E). split_and!; simpl; [done| |done].
      rewrite E, lookup_insert_eq. done.
    + case_decide.
      * split_and!; simpl; [done| |done]. by rewrite lookup_insert_ne, app_nil_r.
      * destruct (deliver_same announce job s) as [Hh Hd]. unfold holding. rewrite Hh, Hd, app_nil_r.
        split_and!; [done..|]. by apply deliver_own.
  - split_and!; simpl; [set_solver|by rewrite app_nil_r|done].
  - match goal with |- holding _ _ _ (foldl _ ?s1 _) => set (s1' := s1) end.
    destruct (release_holding announce j (default [] (deferred s !! k)) s1') as (A & B & C).
    + simpl. set_solver.
    + destruct (deferred s !! k) eqn:E; [|constructor]. simpl.
      eapply list.Forall_impl; [exact (Hf _ _ E)|]. by intros ? ->.
    + split_and!; [done| |done]. rewrite B. simpl. by rewrite lookup_delete_ne.
  - case_decide; [|split_and!; [done|by rewrite app_nil_r|done]].
    split_and!; [done|by rewrite app_nil_r|]. cbn [io set_io].
    destruct (type_bytes k bs (io s)) as [ok y] eqn:E. apply type_bytes_spec in E as (d & Ht & _). simpl.
    rewrite Ht, filter_app, filter_cons_False; [by rewrite app_nil_r|]. simpl. by rewrite bool_decide_eq_true.
Qed.

Lemma asked_cons j c cmds : asked j (c :: cmds) = asked j [c] ++ asked j cmds.
Proof. unfold asked. destruct c; try done. simpl. by case_decide. Qed.

(** While a job is held its terminal is left alone, whatever is asked for it and for
    other jobs, and what is asked for it is kept, all of it and in order. *)
Theorem hold_defers announce j cmds s :
  filed s → j ∈ held s → Forall (respects_hold j) cmds →
  holding j s (asked j cmds) (run_loop announce s cmds) ∧ filed (run_loop announce s cmds).
Proof.
  intros Hf Hj Hc. unfold run_loop. revert s Hf Hj.
  induction Hc as [|c cmds Hr Hc IH]; intros s Hf Hj.
  - split; [|done]. split_and!; [done|by rewrite app_nil_r|done].
  - rewrite asked_cons. cbn [foldl].
    destruct (command_holding announce j c s Hf Hj Hr) as (A & B & C).
    destruct (IH (on_command announce s c)) as [(A' & B' & C') Hf']; [by apply command_filed|done|].
    split; [|done]. split_and!; [done| |by rewrite C', C]. by rewrite B', B, <- app_assoc.
Qed.
End executor.

(** ** The theorems at work *)

Definition ascii_lowercase (c : char) : list char := [ascii_lower c].

(** A screen with a permission menu until something was typed twice, then the body. *)
Definition menu_env : env :=
  mkEnv (λ _ n, if (n <=? 0)%nat then #"Run rm -rf build?  1. Yes  2. No" else #"> ship it")
        (λ _, false) (λ _, 0%N).

Definition idle_executor (held_jobs : gset N) : Executor :=
  mkExecutor {[1%N]} {[1%N]} held_jobs ∅ (mkExec 0 0 0 0 []).

Definition ship : InjectJob := mkInject 1 #"faye" #"ship it".

(** The whole delivery: the menu is accepted, the body pasted, seen, and submitted. *)
Example ship_trace :
  trace (io (on_command ascii_lowercase menu_env true (idle_executor ∅) (Inject ship))) =
  [Looked 1 #"Run rm -rf build?  1. Yes  2. No"; Typed 1 [13%N]; Looked 1 #"> ship it"; Looked 1 #"> ship it";
   Typed 1 PASTE_BEGIN; Typed 1 #"ship it"; Typed 1 PASTE_END; Looked 1 #"> ship it"; Typed 1 [13%N];
   Announced (Delivered 1 #"faye" #"ship it")].
Proof. vm_compute. reflexivity. Qed.

Lemma any_menu_accepted_witness :
  ∃ rest, trace (io (on_command ascii_lowercase menu_env true (idle_executor ∅) (Inject ship)))
          = trace (io (idle_executor ∅))
            ++ [Looked 1 #"Run rm -rf build?  1. Yes  2. No"; Typed 1 [13%N]] ++ rest.
Proof.
  apply (any_menu_accepted ascii_lowercase menu_env true (idle_executor ∅) ship).
  - apply (bool_decide_unpack _). vm_compute. exact I.
  - apply (bool_decide_unpack _). vm_compute. exact I.
  - apply (bool_decide_unpack _). vm_compute. exact I.
  - reflexivity.
  - vm_compute. reflexivity.
  - reflexivity.
Defined.

Definition escaping_body : str := #"hello" ++ PASTE_END ++ #"!rm -rf ." ++ [13%N].

Lemma paste_boundary_witness :
  ∃ x' s, type_body_pasted menu_env 1 escaping_body (mkExec 0 0 0 0 []) = (true, x') ∧
    trace x' = trace (mkExec 0 0 0 0 []) ++ s ∧
    (27%N ∉ escaping_body → paste_read (typed_bytes 1 s) = Some (utf8 escaping_body, [])) ∧
    (∀ a keys, 27%N ∉ a → escaping_body = a ++ PASTE_END ++ keys →
       paste_read (typed_bytes 1 s) = Some (utf8 a, utf8 keys ++ PASTE_END)).
Proof. apply (paste_boundary menu_env 1 escaping_body). reflexivity. Defined.

Definition held_commands : list Command :=
  [Inject ship; Register 2 true; Inject (mkInject 2 #"sage" #"ship it"); Inject (mkInject 1 #"faye" #"again")].

Lemma hold_defers_witness :
  holding 1 (idle_executor {[1%N]}) (asked 1 held_commands)
    (run_loop ascii_lowercase menu_env true (idle_executor {[1%N]}) held_commands) ∧
  filed (run_loop ascii_lowercase menu_env true (idle_executor {[1%N]}) held_commands) ∧
  asked 1 held_commands = [ship; mkInject 1 #"faye" #"again"].
Proof.
  apply and_assoc. split; [|vm_compute; reflexivity].
  apply (hold_defers ascii_lowercase menu_env true 1 held_commands (idle_executor {[1%N]})).
  - apply map_Forall_empty.
  - apply (bool_decide_unpack _). vm_compute. exact I.
  - repeat (constructor; [exact I|]). constructor.
Defined.
