(* ===== verification/Events.v ===== *)
(** * Events: the unified event stream

    [crates/orkia-shell/src/protocol]: what happens in a job reaches the shell by
    hooks ([hooks.rs]), by markers and messages in the terminal stream
    ([osc133.rs], [apc.rs]; the bytes are cut up by [BlockParser] of
    [crates/orkia-terminal-core/src/blocks.rs]), by the prompt detector
    ([state_machine.rs]) and from the shell itself. [EventRouter] ([converter.rs])
    turns all of it into [OrkiaEvent]s, drops what it takes for duplicates, and a
    fan-out stamps each event with the RFC of its job and copies it to the
    consumers. [emitter.rs] is the way back to the agent.

    JSON is the class [Serde]; the clock is an argument. A channel is the list of
    what was sent on it; its receiver is alive. *)

From Stdlib Require Import NArith ZArith Lia SpecFloat.
From stdpp Require Import base gmap strings option numbers list list_basics.
From S2P Require Import Prelude Text Effects Json Fs Journal RfcCore Terminal Detector.

(** ** Events *)

Inductive EventSource :=
| OrkiaProtocol | Osc133 | HookSource (provider : str) | StateMachine | Internal.

Definition priority (s : EventSource) : N :=
  match s with
  | Internal => 5
  | OrkiaProtocol => 4
  | Osc133 => 3
  | HookSource _ => 2
  | StateMachine => 1
  end.

Inductive EventPayload :=
| SessionStart (model : option str)
| SessionEnd (exit_code : option Z)
| PromptStart
| PromptReady
| CommandStart (command : str)
| OutputStart
| OutputFinished (exit_code : option Z)
| ToolUse (tool : str) (target input_summary : option str)
| ToolResult (tool : str) (target : option str) (exit_code : option Z) (output_summary : option str)
| PermissionRequest (tool : option str) (description : str) (risk : option str)
| PermissionResolved (approved : bool) (resolved_by : str)
| AttentionEvent (prompt_type : PromptType) (last_line : str)
| AgentMessage (text : str)
| UserMessage (text : str)
| StateReport (state : json)
| Request (action : str) (params : json)
| Custom (name : str) (data : json).

#[export] Instance EventPayload_eq_dec : EqDecision EventPayload.
Proof. solve_decision. Defined.

Definition tag (p : EventPayload) : str :=
  match p with
  | SessionStart _ => #"session_start"
  | SessionEnd _ => #"session_end"
  | PromptStart => #"prompt_start"
  | PromptReady => #"prompt_ready"
  | CommandStart _ => #"command_start"
  | OutputStart => #"output_start"
  | OutputFinished _ => #"output_finished"
  | ToolUse _ _ _ => #"tool_use"
  | ToolResult _ _ _ _ => #"tool_result"
  | PermissionRequest _ _ _ => #"permission_request"
  | PermissionResolved _ _ => #"permission_resolved"
  | AttentionEvent _ _ => #"attention"
  | AgentMessage _ => #"agent_message"
  | UserMessage _ => #"user_message"
  | StateReport _ => #"state_report"
  | Request _ _ => #"request"
  | Custom _ _ => #"custom"
  end.

Record OrkiaEvent := mkEvent {
  oe_source : EventSource;
  oe_event : EventPayload;
  oe_confidence : f32;
  oe_timestamp : N;
  oe_job_id : N;
  oe_agent_name : str;
  oe_rfc_id : option RfcId;
}.

Definition f32_one : f32 := f32_lit 1 1.

(** ** Hooks *)

Definition hook_payload (env : JournalEnvelope) (name : str) : EventPayload :=
  if decide (name ∈ [ #"SessionStart"; #"SessionStarted"]) then SessionStart (je_model env)
  else if decide (name = #"Stop") then SessionEnd (je_exit_code env)
  else if decide (name = #"PreToolUse") then
    ToolUse (default [] (je_tool env)) (je_target env) (je_description env)
  else if decide (name = #"PostToolUse") then
    ToolResult (default [] (je_tool env)) (je_target env) (je_exit_code env) (je_description env)
  else if decide (name = #"PermissionRequest") then
    PermissionRequest (je_tool env) (default [] (je_description env)) (je_risk env)
  else if decide (name = #"UserPromptSubmit") then CommandStart (default [] (je_prompt env))
  else if decide (name = #"Notification") then AgentMessage (default [] (je_message env))
  else Custom name (envelope_to_json env).

Definition convert_hook_with_rfc (now : N) (env : JournalEnvelope) (rfc_id : option RfcId)
  : option OrkiaEvent :=
  if decide (je_event_type env = ETHook) then
    name ← je_event env;
    Some (mkEvent (HookSource (default [] (je_source env))) (hook_payload env name) f32_one now
                  (default 0%N (je_job_id env)) (default [] (je_agent env)) rfc_id)
  else None.

Definition convert_hook (now : N) (env : JournalEnvelope) : option OrkiaEvent :=
  convert_hook_with_rfc now env None.

(** ** The prompt detector *)

Definition from_attention (now : N) (att : JobAttention) (agent_name : str) : OrkiaEvent :=
  let payload := if decide (ja_prompt_type att = ShellPrompt) then PromptReady
                 else AttentionEvent (ja_prompt_type att) (ja_last_line att) in
  mkEvent StateMachine payload (ja_confidence att) now (ja_job_id att)
          (if is_empty agent_name then ja_agent_name att else agent_name) None.

Definition convert_detector_event (now : N) (event : DetectorEvent) (agent_name : str)
  : option OrkiaEvent :=
  match event with
  | Attention att => Some (from_attention now att agent_name)
  | Injected _ _ _ => None
  | Delivered j name body => Some (mkEvent StateMachine (UserMessage body) f32_one now j name None)
  | Closed _ _ => None
  end.

(** ** Markers and messages in the terminal stream *)

Inductive Osc133Marker :=
| MPromptStart | MPromptReady | MOutputStart | MOutputFinished (exit_code : option Z).

Definition parse_osc133 (params : list (list N)) : option Osc133Marker :=
  match params with
  | (m :: _) :: rest =>
      (if m =? 65 then Some MPromptStart
       else if m =? 66 then Some MPromptReady
       else if m =? 67 then Some MOutputStart
       else if m =? 68 then
         Some (MOutputFinished (match rest with p :: _ => from_utf8 p ≫= parse_i32 | [] => None end))
       else None)%N
  | _ => None
  end.

Section apc.
Context `{!Serde EventPayload}.

Definition APC_PREFIX : str := #"Orkia;".

Definition parse_orkia_apc (payload : list N) : option EventPayload :=
  text ← from_utf8 payload;
  rest ← strip_prefix APC_PREFIX text;
  to_option (de rest).

Definition apc_frame (json : str) : list N := (27%N :: #"_Orkia;") ++ utf8 json ++ [27; 92]%N.

(** The bytes written to the agent, and the length reported; the terminal takes all of
    them or the call fails. *)
Definition emit_orkia_apc (write_ok : bool) (payload : EventPayload) : result str (list N * N) :=
  match ser payload with
  | Err e => Err (#"orkia APC: serialize: " ++ e)
  | Ok json => if write_ok then Ok (apc_frame json, byte_len json) else Err #"write"
  end.
End apc.

(** *** The parser of the terminal stream *)

Record BlockParser := mkParser {
  capturing : bool;
  esc_pending : bool;
  in_osc : bool;
  osc_esc : bool;
  osc : list N;
  in_apc : bool;
  apc_esc : bool;
  apc : list N;
}.

Definition parser_new : BlockParser := mkParser false false false false [] false false [].

(** What the parser does on the way: bytes for the block that is captured, a block
    ended with a code, and the two callbacks. *)
Inductive parser_out :=
| PText (bs : list N)
| PBlockDone (code : Z)
| PMarker (m : Osc133Marker)
| PApc (payload : list N).

Definition set_osc_state (i e : bool) (o : list N) (p : BlockParser) : BlockParser :=
  mkParser (capturing p) (esc_pending p) i e o (in_apc p) (apc_esc p) (apc p).

Definition set_apc_state (i e : bool) (a : list N) (p : BlockParser) : BlockParser :=
  mkParser (capturing p) (esc_pending p) (in_osc p) (osc_esc p) (osc p) i e a.

Definition set_esc (b : bool) (p : BlockParser) : BlockParser :=
  mkParser (capturing p) b (in_osc p) (osc_esc p) (osc p) (in_apc p) (apc_esc p) (apc p).

Definition set_capturing (b : bool) (p : BlockParser) : BlockParser :=
  mkParser b (esc_pending p) (in_osc p) (osc_esc p) (osc p) (in_apc p) (apc_esc p) (apc p).

Definition finish_osc (p : BlockParser) : BlockParser * list parser_out :=
  let payload := from_utf8_lossy (osc p) in
  let p := set_osc_state false (osc_esc p) [] p in
  match strip_prefix #"133;" payload with
  | None => (p, [])
  | Some rest =>
      match utf8 rest with
      | 65%N :: _ => (p, [PMarker MPromptStart])
      | 66%N :: _ => (p, [PMarker MPromptReady])
      | 67%N :: _ => (set_capturing true p, [PMarker MOutputStart])
      | 68%N :: _ =>
          let parsed := split_char chr_semi rest !! 1 ≫= (λ s, parse_i32 (trim s)) in
          (set_capturing false p, [PBlockDone (default 0%Z parsed); PMarker (MOutputFinished parsed)])
      | _ => (p, [])
      end
  end.

Definition finish_apc (p : BlockParser) : BlockParser * list parser_out :=
  (set_apc_state false false [] p, [PApc (apc p)]).

(** One byte inside an OSC string, past the test for its end. *)
Definition osc_byte (b : N) (p : BlockParser) : BlockParser * list parser_out :=
  if (b =? 7)%N then finish_osc p
  else if (b =? 27)%N then (set_osc_state (in_osc p) true (osc p) p, [])
  else (set_osc_state (in_osc p) (osc_esc p) (osc p ++ [b]) p, []).

Definition feed_byte (p : BlockParser) (b : N) : BlockParser * list parser_out :=
  if in_osc p then
    if osc_esc p then
      let p := set_osc_state (in_osc p) false (osc p) p in
      if (b =? 92)%N then finish_osc p else osc_byte b p
    else osc_byte b p
  else if in_apc p then
    if apc_esc p then
      let p := set_apc_state (in_apc p) false (apc p) p in
      if (b =? 92)%N then finish_apc p else (set_apc_state false false [] p, [])
    else if (b =? 156)%N then finish_apc p
    else if (b =? 27)%N then (set_apc_state (in_apc p) true (apc p) p, [])
    else (set_apc_state (in_apc p) (apc_esc p) (apc p ++ [b]) p, [])
  else if esc_pending p then
    let p := set_esc false p in
    if (b =? 93)%N then (set_osc_state true (osc_esc p) [] p, [])
    else if (b =? 95)%N then (set_apc_state true (apc_esc p) [] p, [])
    else (p, if capturing p then [PText [27%N; b]] else [])
  else if (b =? 27)%N then (set_esc true p, [])
  else (p, if capturing p then [PText [b]] else []).

Fixpoint feed (p : BlockParser) (bs : list N) : BlockParser * list parser_out :=
  match bs with
  | [] => (p, [])
  | b :: bs => let '(p1, o1) := feed_byte p b in
               let '(p2, o2) := feed p1 bs in (p2, o1 ++ o2)
  end.

(** ** The router *)

Definition DEDUP_WINDOW : N := secs 2.

Abbreviation dedup_key := (N * str)%type (only parsing).

Record EventRouter := mkRouter {
  recent : gmap dedup_key (N * N);
  channel : list OrkiaEvent;
}.

Definition router_new : EventRouter := mkRouter ∅ [].

Definition key_of (e : OrkiaEvent) : dedup_key := (oe_job_id e, tag (oe_event e)).

(** Whether the entry of a key is still in the window. *)
Definition in_window (now : N) (entry : N * N) : bool := (since now entry.2 <? DEDUP_WINDOW)%N.

Definition send_if_not_deduped (now : N) (e : OrkiaEvent) (r : EventRouter) : EventRouter :=
  let prio := priority (oe_source e) in
  let kept := filter (λ kv, in_window now kv.2 = true) (recent r) in
  let accept := mkRouter (<[key_of e := (prio, now)]> kept) (channel r ++ [e]) in
  match kept !! key_of e with
  | Some (seen_prio, when) =>
      if in_window now (seen_prio, when) && (prio <? seen_prio)%N then mkRouter kept (channel r) else accept
  | None => accept
  end.

Definition emit_event (now wall : N) (source : EventSource) (job_id : N) (agent_name : str)
    (event : EventPayload) (conf : f32) (r : EventRouter) : EventRouter :=
  send_if_not_deduped now (mkEvent source event conf wall job_id agent_name None) r.

Definition marker_payload (m : Osc133Marker) : EventPayload :=
  match m with
  | MPromptStart => PromptStart
  | MPromptReady => PromptReady
  | MOutputStart => OutputStart
  | MOutputFinished c => OutputFinished c
  end.

Definition on_osc133 (now wall job_id : N) (agent_name : str) (m : Osc133Marker) (r : EventRouter)
  : EventRouter := emit_event now wall Osc133 job_id agent_name (marker_payload m) f32_one r.

Definition on_hook_with_rfc (now wall : N) (env : JournalEnvelope) (rfc_id : option RfcId)
    (r : EventRouter) : bool * EventRouter :=
  match convert_hook_with_rfc wall env rfc_id with
  | Some e => (true, send_if_not_deduped now e r)
  | None => (false, r)
  end.

Definition on_hook (now wall : N) (env : JournalEnvelope) (r : EventRouter) : bool * EventRouter :=
  on_hook_with_rfc now wall env None r.

Definition on_state_machine (now wall : N) (event : DetectorEvent) (agent_name : str) (r : EventRouter)
  : bool * EventRouter :=
  match convert_detector_event wall event agent_name with
  | Some e => (true, send_if_not_deduped now e r)
  | None => (false, r)
  end.

Definition on_orkia_protocol (now wall job_id : N) (agent_name : str) (payload : EventPayload)
    (r : EventRouter) : EventRouter :=
  emit_event now wall OrkiaProtocol job_id agent_name payload f32_one r.

(** Events of the shell itself are not compared with anything. *)
Definition on_custom_with_rfc (wall job_id : N) (agent_name name : str) (data : json)
    (rfc_id : option RfcId) (r : EventRouter) : EventRouter :=
  mkRouter (recent r)
           (channel r ++ [mkEvent Internal (Custom name data) f32_one wall job_id agent_name rfc_id]).

Definition on_custom (wall job_id : N) (agent_name name : str) (data : json) (r : EventRouter)
  : EventRouter := on_custom_with_rfc wall job_id agent_name name data None r.

(** *** What a job's terminal sends to the router *)

(** The callbacks installed when a job is spawned ([job/spawn.rs]). *)
Definition on_parser_out `{!Serde EventPayload} (now wall job_id : N) (agent_name : str)
    (r : EventRouter) (o : parser_out) : EventRouter :=
  match o with
  | PMarker m => on_osc133 now wall job_id agent_name m r
  | PApc payload =>
      match parse_orkia_apc payload with
      | Some event => on_orkia_protocol now wall job_id agent_name event r
      | None => r
      end
  | _ => r
  end.

(** A chunk of terminal output of a job. *)
Definition on_output `{!Serde EventPayload} (now wall job_id : N) (agent_name : str) (bs : list N)
    (pr : BlockParser * EventRouter) : BlockParser * EventRouter :=
  let '(p, outs) := feed pr.1 bs in
  (p, foldl (on_parser_out now wall job_id agent_name) pr.2 outs).

(** ** The fan-out *)

Record JobScope := mkScope { scope_project_id : option str; scope_rfc_ref : option RfcId }.

(** A poisoned lock reads as no scope. *)
Definition scope_for (scopes : option (gmap N JobScope)) (job_id : N) : JobScope :=
  default (mkScope None None) (scopes ≫= (.!! job_id)).

Definition stamp (scopes : option (gmap N JobScope)) (e : OrkiaEvent) : OrkiaEvent :=
  match oe_rfc_id e with
  | Some _ => e
  | None => mkEvent (oe_source e) (oe_event e) (oe_confidence e) (oe_timestamp e) (oe_job_id e)
                    (oe_agent_name e) (scope_rfc_ref (scope_for scopes (oe_job_id e)))
  end.

(** One turn of the fan-out: every consumer gets the same event. *)
Definition fanout_event (scopes : option (gmap N JobScope)) (e : OrkiaEvent)
    (outputs : list (list OrkiaEvent)) : list (list OrkiaEvent) :=
  map (λ ch, ch ++ [stamp scopes e]) outputs.

(** ** The stream parser *)

Lemma feed_app p a b :
  feed p (a ++ b) = ((feed (feed p a).1 b).1, (feed p a).2 ++ (feed (feed p a).1 b).2).
Proof.
  revert p. induction a as [|x a IH]; intros p; cbn [feed app].
  - cbn [fst snd app]. by destruct (feed p b).
  - destruct (feed_byte p x) as [p1 o1]. rewrite IH. destruct (feed p1 a) as [p2 o2]. simpl.
    by rewrite app_assoc.
Qed.

(** Between sequences. *)
Definition ground (p : BlockParser) : Prop :=
  esc_pending p = false ∧ in_osc p = false ∧ in_apc p = false ∧ apc_esc p = false.

Definition collecting (a : list N) (p : BlockParser) : BlockParser := set_apc_state true false a p.

Lemma feed_apc_body p a bs :
  ground p → 27%N ∉ bs → 156%N ∉ bs → feed (collecting a p) bs = (collecting (a ++ bs) p, []).
Proof.
  intros (He & Ho & Ha & Hx). revert a. induction bs as [|b bs IH]; intros a H1 H2; cbn [feed].
  - by rewrite app_nil_r.
  - apply not_elem_of_cons in H1 as [H1 H1'], H2 as [H2 H2'].
    assert (feed_byte (collecting a p) b = (collecting (a ++ [b]) p, [])) as ->.
    { unfold feed_byte, collecting. simpl. rewrite Ho. simpl.
      destruct (N.eqb_spec b 156); [done|]. by destruct (N.eqb_spec b 27). }
    rewrite IH by done. simpl. by rewrite <- app_assoc.
Qed.

Lemma feed_apc_start p : ground p → feed p [27; 95]%N = (collecting [] (set_esc false (set_esc true p)), []).
Proof.
  intros (He & Ho & Ha & Hx). cbn [feed]. unfold feed_byte at 1. rewrite Ho, Ha, He. simpl.
  unfold feed_byte. simpl. rewrite Ho, Ha. simpl. unfold collecting, set_apc_state. simpl. by rewrite Hx.
Qed.

(** A whole application command, without the bytes that end one. *)
Lemma feed_apc p bs :
  ground p → 27%N ∉ bs → 156%N ∉ bs →
  ∃ p', feed p ([27; 95]%N ++ bs ++ [27; 92]%N) = (p', [PApc bs]) ∧ ground p' ∧ capturing p' = capturing p.
Proof.
  intros Hg H1 H2. rewrite feed_app, feed_apc_start by done. cbn [fst snd].
  set (p1 := set_esc false (set_esc true p)). assert (ground p1) as Hg1 by (destruct Hg as (?&?&?&?); by split_and!).
  rewrite feed_app, feed_apc_body by done. cbn [fst snd app]. cbn [feed].
  assert (feed_byte (collecting bs p1) 27 = (set_apc_state true true bs p1, [])) as ->.
  { destruct Hg1 as (He & Ho & Ha & Hx). unfold feed_byte, collecting. simpl in *. by rewrite Ho. }
  assert (feed_byte (set_apc_state true true bs p1) 92 = (set_apc_state false false [] p1, [PApc bs])) as ->.
  { destruct Hg1 as (He & Ho & Ha & Hx). unfold feed_byte. simpl in *. rewrite Ho. done. }
  eexists. split; [done|]. destruct Hg1 as (?&?&?&?). by split_and!.
Qed.

(** ** Messages to and from agents *)

Section apc_facts.
Context `{!Serde EventPayload, !SerdeLaws EventPayload}.

(** A message framed for the terminal and read back by the stream parser, in chunks of
    any size, is the message, provided its JSON text has no escape character and
    none of its UTF-8 bytes is 0x9c. *)
Theorem apc_roundtrip p payload json frame n chunks :
  ground p → ser payload = Ok json → emit_orkia_apc true payload = Ok (frame, n) →
  Forall (λ c, is_scalar c = true) json → 27%N ∉ json → 156%N ∉ utf8 json →
  concat chunks = frame →
  ∃ p' bs, foldl (λ po chunk, let r := feed po.1 chunk in (r.1, po.2 ++ r.2)) (p, []) chunks = (p', [PApc bs]) ∧
    parse_orkia_apc bs = Some payload ∧ ground p' ∧ n = byte_len json.
Proof.
  intros Hg Hs He Hsc H1 H2 Hc. unfold emit_orkia_apc in He. rewrite Hs in He. injection He as <- <-.
  assert (∀ cs q o, foldl (λ po chunk, let r := feed po.1 chunk in (r.1, po.2 ++ r.2)) (q, o) cs
          = ((feed q (concat cs)).1, o ++ (feed q (concat cs)).2)) as Hfold.
  { induction cs as [|c cs IH]; intros q o; simpl; [by rewrite app_nil_r|].
    rewrite IH, feed_app. simpl. by rewrite app_assoc. }
  rewrite Hfold, Hc. unfold apc_frame.
  assert (utf8 (APC_PREFIX ++ json) = #"Orkia;" ++ utf8 json) as Hu by (rewrite utf8_app; done).
  assert (27%N ∉ utf8 (APC_PREFIX ++ json)) as Hn1.
  { rewrite Hu, elem_of_app, elem_utf8_ascii by lia. intros [Hx|Hx]; [|done]. revert Hx. vm_compute. set_solver. }
  assert (156%N ∉ utf8 (APC_PREFIX ++ json)) as Hn2.
  { rewrite Hu, elem_of_app. intros [Hx|Hx]; [|done]. revert Hx. vm_compute. set_solver. }
  destruct (feed_apc p (utf8 (APC_PREFIX ++ json)) Hg Hn1 Hn2) as (p' & Hf & Hg' & _).
  replace ((27%N :: #"_Orkia;") ++ utf8 json ++ [27; 92]%N)
    with ([27; 95]%N ++ utf8 (APC_PREFIX ++ json) ++ [27; 92]%N)
    by (rewrite Hu, <- app_assoc; reflexivity).
  rewrite Hf. cbn [fst snd app]. eexists _, _. split; [done|]. split_and!; [|done|done].
  unfold parse_orkia_apc. rewrite from_utf8_utf8.
  - cbn [mbind option_bind]. rewrite strip_prefix_app. cbn [mbind option_bind]. by rewrite (de_ser _ _ Hs).
  - apply Forall_app_2; [|done]. repeat (constructor; [reflexivity|]). constructor.
Qed.
End apc_facts.

(** But a JSON text with a character whose UTF-8 bytes contain 0x9c, such as a left
    double quotation mark or a check mark, ends the message in the middle of that
    character: the stream parser hands on a prefix that does not decode, and the
    message is lost. *)
Theorem apc_cut_by_text `{!Serde EventPayload} p payload a c b pre post :
  ground p → ser payload = Ok (a ++ (c :: b)) → Forall (λ c, is_scalar c = true) a →
  27%N ∉ a → 156%N ∉ utf8 a →
  utf8_char c = pre ++ (156%N :: post) → 156%N ∉ pre → 27%N ∉ pre → pre ≠ [] →
  ∃ frame n bs rest p1, emit_orkia_apc true payload = Ok (frame, n) ∧
    frame = [27; 95]%N ++ bs ++ (156%N :: rest) ∧
    feed p ([27; 95]%N ++ bs ++ [156%N]) = (p1, [PApc bs]) ∧ ground p1 ∧
    parse_orkia_apc bs = None.
Proof.
  intros Hg Hs Ha Ha1 Ha2 Hc Hp1 Hp2 Hne.
  set (bs := utf8 (APC_PREFIX ++ a) ++ pre).
  assert (utf8 (APC_PREFIX ++ a) = #"Orkia;" ++ utf8 a) as Hu by (rewrite utf8_app; done).
  assert ((27%N ∉ bs) ∧ (156%N ∉ bs)) as [Hb1 Hb2].
  { unfold bs. rewrite Hu, !elem_of_app, (elem_utf8_ascii a 27) by lia.
    split; intros [[Hx|Hx]|Hx]; try done; revert Hx; vm_compute; set_solver. }
  exists (apc_frame (a ++ c :: b)), (byte_len (a ++ c :: b)), bs, (post ++ utf8 b ++ [27; 92]%N).
  set (p1 := set_esc false (set_esc true p)). assert (ground p1) as Hg1 by (destruct Hg as (?&?&?&?); by split_and!).
  exists (set_apc_state false false [] p1). split_and!.
  - unfold emit_orkia_apc. by rewrite Hs.
  - unfold apc_frame, bs. rewrite Hu, utf8_app, utf8_cons, Hc. simpl. by rewrite <- !app_assoc.
  - rewrite feed_app, feed_apc_start by done. cbn [fst snd]. fold p1.
    rewrite feed_app, feed_apc_body by done. cbn [fst snd app feed].
    destruct Hg1 as (He & Ho & Hi & Hx). unfold feed_byte, collecting. simpl in *. by rewrite Ho.
  - destruct Hg1 as (?&?&?&?). by split_and!.
  - unfold parse_orkia_apc, from_utf8, bs.
    assert (Forall (λ c, is_scalar c = true) (APC_PREFIX ++ a)) as Hsc.
    { apply Forall_app_2; [|done]. repeat (constructor; [reflexivity|]). constructor. }
    rewrite decode_utf8_app by done. destruct pre as [|b0 pre]; [done|]. rewrite decode_cons.
    rewrite (decode_cut_char c b0 pre (156%N :: post)); [|done|done|by destruct pre].
    destruct (mapM id _) as [t|] eqn:E; [|done]. exfalso.
    apply mapM_Some in E. apply Forall2_app_inv_l in E as (t1 & t2 & _ & E & _).
    inversion E; simplify_eq/=.
Qed.

(** ** The router's window *)

(** What has been let through: events with the time they were. *)
Abbreviation history := (list (N * OrkiaEvent)) (only parsing).

(** The rule, on the history: an event is dropped when the last one of its job and kind
    that was let through is less than two seconds old and of a stronger source. *)
Definition last_of (k : dedup_key) (h : history) : option (N * N) :=
  (λ te, (priority (oe_source te.2), te.1)) <$> last (filter (λ te, key_of te.2 = k) h).

Definition duplicate (now : N) (e : OrkiaEvent) (h : history) : bool :=
  match last_of (key_of e) h with
  | Some (seen, when) => (since now when <? DEDUP_WINDOW)%N && (priority (oe_source e) <? seen)%N
  | None => false
  end.

Definition let_through (h : history) (te : N * OrkiaEvent) : history :=
  if duplicate te.1 te.2 h then h else h ++ [te].

Definition send_all (r : EventRouter) (tes : list (N * OrkiaEvent)) : EventRouter :=
  foldl (λ r te, send_if_not_deduped te.1 te.2 r) r tes.

(** The table and the history agree on everything still in the window. *)
Definition tracks (now : N) (r : EventRouter) (h : history) : Prop :=
  channel r = map snd h ∧
  ∀ k, (∀ x, recent r !! k = Some x → last_of k h = Some x) ∧
       (∀ x, last_of k h = Some x → in_window now x = true → recent r !! k = Some x).

Lemma last_of_snoc k h te :
  last_of k (h ++ [te]) =
  if decide (key_of te.2 = k) then Some (priority (oe_source te.2), te.1) else last_of k h.
Proof.
  unfold last_of. rewrite filter_app. case_decide as E.
  - rewrite filter_cons_True by done. by rewrite last_app.
  - rewrite filter_cons_False by done. by rewrite app_nil_r.
Qed.

Lemma in_window_mono t t' x : (t ≤ t')%N → in_window t' x = true → in_window t x = true.
Proof. unfold in_window, since. rewrite !N.ltb_lt. lia. Qed.

Lemma send_tracks t now e r h :
  (t ≤ now)%N → tracks t r h → tracks now (send_if_not_deduped now e r) (let_through h (now, e)).
Proof.
  intros Ht [Hc Hk]. unfold let_through, duplicate. cbn [fst snd].
  unfold send_if_not_deduped. set (kept := filter _ (recent r)).
  assert (∀ k x, kept !! k = Some x ↔ last_of k h = Some x ∧ in_window now x = true) as Hkept.
  { intros k x. unfold kept. rewrite map_lookup_filter_Some. simpl. split.
    - intros [H1 H2]. split; [by apply Hk|done].
    - intros [H1 H2]. split; [|done]. apply Hk; [done|]. by eapply in_window_mono. }
  assert (tracks now (mkRouter (<[key_of e := (priority (oe_source e), now)]> kept) (channel r ++ [e]))
                 (h ++ [(now, e)])) as Haccept.
  { split; [simpl; by rewrite Hc, map_app|]. intros k. cbn [recent]. rewrite last_of_snoc. cbn [fst snd].
    destruct (decide (key_of e = k)) as [<-|Hne].
    - rewrite lookup_insert_eq. split; [by intros x [= <-]|by intros x [= <-] _].
    - rewrite lookup_insert_ne by done. split; intros x; rewrite Hkept; [by intros [? _]|done]. }
  destruct (kept !! key_of e) as [[seen when]|] eqn:E.
  - apply Hkept in E as [El Ew]. rewrite El, Ew. unfold in_window in Ew. cbn [snd] in Ew. rewrite Ew. cbn [andb].
    destruct (_ <? seen)%N; [|done]. split; [done|]. intros k. cbn [recent].
    split; intros x; rewrite Hkept; [by intros [? _]|done].
  - destruct (last_of (key_of e) h) as [[seen when]|] eqn:El; [|done].
    destruct (since now when <? DEDUP_WINDOW)%N eqn:Ew; [|done]. exfalso.
    assert (kept !! key_of e = Some (seen, when)) by (by apply Hkept). congruence.
Qed.

(** C22: The router's table with its garbage collection implements the rule on the history:
    of the events sent to it in the order of the clock, it delivers exactly those
    that are not preceded, within two seconds, by a delivered event of the same job
    and kind from a stronger source. *)
Theorem dedup_refines (tes : list (N * OrkiaEvent)) :
  Sorted.StronglySorted N.le (map fst tes) →
  channel (send_all router_new tes) = map snd (foldl let_through [] tes).
Proof.
  intros Hs. assert (∀ t r h, tracks t r h → Forall (λ te, (t ≤ te.1)%N) tes →
    channel (send_all r tes) = map snd (foldl let_through h tes)) as Hgen.
  { induction tes as [|[now e] tes IH]; intros t r h Htr Hall; [by destruct Htr|].
    apply Sorted.StronglySorted_inv in Hs as [Hs Hle]. apply Forall_cons_1 in Hall as [Hn Hall].
    cbn [send_all foldl]. apply (IH Hs now); [by eapply send_tracks|].
    exact (proj1 (Forall_fmap fst (N.le now) tes) Hle). }
  apply (Hgen 0%N router_new []); [|apply list.Forall_forall; intros; lia].
  split; [done|]. intros k. split; intros x; [|done]. intros Hx. by rewrite (lookup_empty k : recent router_new !! k = None) in Hx.
Qed.

(** An agent can hide what its hooks report. After a job's terminal has shown an
    application message of some kind, no hook event of that kind and job is
    delivered for two seconds, whatever tool, target or risk it carries. *)
Theorem apc_shadows_hook `{!Serde EventPayload} p r t wall j name bs p1 payload env e now :
  feed p bs = (p1, [PApc payload]) → parse_orkia_apc payload = Some e →
  recent r !! (j, tag e) = None →
  je_event_type env = ETHook → je_job_id env = Some j →
  (∀ hook, je_event env = Some hook → tag (hook_payload env hook) = tag e) →
  (t ≤ now)%N → (now < t + secs 2)%N →
  let r1 := (on_output t wall j name bs (p, r)).2 in
  channel r1 = channel r ++ [mkEvent OrkiaProtocol e f32_one wall j name None] ∧
  channel (on_hook now wall env r1).2 = channel r1.
Proof.
  intros Hf Hp Hr Ht Hj Htag Hle Hlt. unfold on_output. cbn [fst snd]. rewrite Hf. cbn [snd foldl on_parser_out].
  rewrite Hp. unfold on_orkia_protocol, emit_event.
  set (ev := mkEvent _ _ _ _ _ _ _).
  assert (send_if_not_deduped t ev r =
          mkRouter (<[key_of ev := (4%N, t)]> (filter (λ kv, in_window t kv.2 = true) (recent r)))
                   (channel r ++ [ev])) as ->.
  { unfold send_if_not_deduped. rewrite (map_lookup_filter_None_2 _ _ (key_of ev)); [done|].
    left. unfold key_of. simpl. by rewrite Hr. }
  split; [done|]. unfold on_hook, on_hook_with_rfc, convert_hook_with_rfc. rewrite decide_True by done.
  destruct (je_event env) as [hook|] eqn:Eh; [|done]. cbn [mbind option_bind].
  unfold send_if_not_deduped. cbn [recent channel]. unfold key_of at 1 2. cbn [oe_job_id oe_event].
  rewrite Hj, (Htag hook eq_refl). cbn [default].
  assert (in_window now (4%N, t) = true) as Hw.
  { unfold in_window, since, DEDUP_WINDOW. cbn [snd]. apply N.ltb_lt. lia. }
  rewrite (proj2 (map_lookup_filter_Some _ _ _ (4%N, t))).
  - rewrite Hw. done.
  - split; [|exact Hw]. unfold key_of. simpl. by rewrite lookup_insert_eq.
Qed.

(** ** The theorems at work *)

Definition harmless : EventPayload := ToolUse #"Read" (Some #"README.md") None.

#[local] Instance table_payload : Serde EventPayload := table_serde [harmless].
#[local] Instance table_payload_laws : SerdeLaws EventPayload := table_serde_laws _.

Lemma apc_roundtrip_witness :
  ∃ p' bs, foldl (λ po chunk, let r := feed po.1 chunk in (r.1, po.2 ++ r.2)) (parser_new, [])
             [take 4 (apc_frame [48%N]); drop 4 (apc_frame [48%N])] = (p', [PApc bs]) ∧
    parse_orkia_apc bs = Some harmless ∧ ground p' ∧ 1%N = byte_len [48%N].
Proof.
  apply (apc_roundtrip parser_new harmless [48%N] (apc_frame [48%N]) 1).
  - by split_and!.
  - reflexivity.
  - reflexivity.
  - repeat constructor.
  - set_solver.
  - apply (bool_decide_unpack _). vm_compute. exact I.
  - vm_compute. reflexivity.
Defined.

(** A serializer of messages that keeps their text, like JSON does: U+201C is the left
    double quotation mark. *)
Definition quoted_serde : Serde EventPayload := {|
  ser p := match p with AgentMessage t => Ok ([chr_dquote] ++ t ++ [chr_dquote]) | _ => Err [] end;
  de _ := Err [];
|}.

Lemma apc_cut_by_text_witness :
  ∃ frame n bs rest p1,
    @emit_orkia_apc quoted_serde true (AgentMessage (#"see " ++ [8220%N] ++ #"a")) = Ok (frame, n) ∧
    frame = [27; 95]%N ++ bs ++ (156%N :: rest) ∧
    feed parser_new ([27; 95]%N ++ bs ++ [156%N]) = (p1, [PApc bs]) ∧ ground p1 ∧
    @parse_orkia_apc quoted_serde bs = None.
Proof.
  apply (@apc_cut_by_text quoted_serde parser_new (AgentMessage (#"see " ++ [8220%N] ++ #"a"))
           (chr_dquote :: #"see ") 8220%N (#"a" ++ [chr_dquote]) [226; 128]%N []).
  - by split_and!.
  - reflexivity.
  - repeat constructor.
  - apply (bool_decide_unpack _). vm_compute. exact I.
  - apply (bool_decide_unpack _). vm_compute. exact I.
  - reflexivity.
  - set_solver.
  - set_solver.
  - discriminate.
Defined.

Definition hook_of (event tool target : str) : JournalEnvelope :=
  mkJournalEnvelope ETHook [] None (Some 1%N) None (Some #"claude") (Some #"faye") (Some event) (Some tool)
    (Some target) None None None None None None None None None None None None None [].

Definition hook_event (now : N) (env : JournalEnvelope) : OrkiaEvent :=
  default (mkEvent Internal PromptStart f32_zero 0 0 [] None) (convert_hook now env).

Definition sample_sends : list (N * OrkiaEvent) :=
  [(secs 1, mkEvent OrkiaProtocol harmless f32_one 0 1 #"faye" None);
   (secs 2, hook_event 0 (hook_of #"PreToolUse" #"Write" #"secrets"));
   (secs 3, hook_event 0 (hook_of #"PreToolUse" #"Bash" #"rm"))].

Lemma dedup_refines_witness :
  channel (send_all router_new sample_sends) = map snd (foldl let_through [] sample_sends) ∧
  length (channel (send_all router_new sample_sends)) = 2.
Proof.
  split; [|vm_compute; reflexivity]. apply (dedup_refines sample_sends).
  repeat (constructor; [|repeat (constructor; try (vm_compute; discriminate))]). constructor.
Defined.

Lemma apc_shadows_hook_witness :
  let r1 := (on_output (secs 1) 0 1 #"faye" (apc_frame [48%N]) (parser_new, router_new)).2 in
  channel r1 = channel router_new ++ [mkEvent OrkiaProtocol harmless f32_one 0 1 #"faye" None] ∧
  channel (on_hook (secs 2) 0 (hook_of #"PreToolUse" #"Write" #"secrets") r1).2 = channel r1.
Proof.
  apply (apc_shadows_hook parser_new router_new (secs 1) 0 1 #"faye" (apc_frame [48%N])
           (set_apc_state false false [] (set_esc false (set_esc true parser_new))) (#"Orkia;" ++ [48%N])
           (hook_of #"PreToolUse" #"Write" #"secrets") harmless (secs 2)).
  - vm_compute. reflexivity.
  - vm_compute. reflexivity.
  - reflexivity.
  - reflexivity.
  - reflexivity.
  - intros hook [= <-]. vm_compute. reflexivity.
  - vm_compute. discriminate.
  - vm_compute. reflexivity.
Defined.
