(* ===== verification/SealConsumer.v ===== *)
(** * SealConsumer: from events to audit chains

    [crates/orkia-shell/src/seal/consumer/mod.rs]: the task that takes the events of
    [Events] and appends each to the chain it belongs to, through the manager of
    [Seal]. Its state is the manager, the file system and the shared map from jobs
    to projects; the time of a record comes with the event. *)

From Stdlib Require Import NArith ZArith Lia SpecFloat.
From stdpp Require Import base gmap strings option numbers list list_basics.
From S2P Require Import Prelude Text Effects Json Fs Journal RfcCore Seal Terminal Detector Events.

(** ** Where an event goes *)

Inductive custom_route := RSpawn | RProject | RWorkspace | RJob.

(** The chain of [if]s on the name of a custom event. *)
Definition route_of (name : str) : custom_route :=
  if decide (name = #"agent.spawn") then RSpawn
  else if starts_with #"rfc." name then RProject
  else if starts_with #"issue." name then RProject
  else if starts_with #"project." name then RProject
  else if starts_with #"workspace." name then RWorkspace
  else if decide (name = #"event.redacted") then RWorkspace
  else if starts_with #"reasoning." name then RWorkspace
  else RJob.

Definition json_opt_code (o : option Z) : json := match o with Some z => JInt z | None => JNull end.

Section consumer.
Context `{!Sha256, !JsonText, !Serde SealRecord}.
Context (to_pretty to_line : json → result str str).

Record Consumer := mkConsumer {
  manager : SealManager;
  cfs : Fs;
  job_projects : gmap N str;
}.

Abbreviation RM := (M Consumer SealError).

(** An operation of the manager. *)
Definition on_manager (f : SealManager * Fs → result SealError unit * (SealManager * Fs)) : RM unit :=
  λ st, let '(r, (m, s)) := f (manager st, cfs st) in (r, mkConsumer m s (job_projects st)).

Definition seal_job (now : str) (j : N) (event_type : str) (detail : json) (rfc : option RfcId) : RM unit :=
  on_manager (seal_job_with_rfc now j event_type detail rfc).

Definition short_sha (text : str) : str := take 16 (sha256_hex text).

Definition seal_project_for (now : str) (j : N) (event_name : str) (data : json) (rfc : option RfcId)
  : RM unit := λ st,
  let project := match jget #"project" data ≫= as_str with
                 | Some p => Some p
                 | None => job_projects st !! j
                 end in
  match project with
  | Some p => on_manager (seal_project_with_rfc now p event_name data rfc) st
  | None => (Ok (), st)
  end.

(** The end of the chain, and the reference to its tip in the project. *)
Definition close_and_link (now : str) (j : N) (agent : str) (rfc : option RfcId) : RM unit := λ st,
  let '(tip, m) := close_job_chain j (manager st) in
  let st := mkConsumer m (cfs st) (job_projects st) in
  match tip, job_projects st !! j with
  | Some tip, Some project =>
      on_manager (seal_project_with_rfc now project #"job.reference"
        (json_obj [(#"job_id", JInt (Z.of_N j)); (#"agent", JStr agent); (#"job_chain_hash", JStr tip)]) rfc) st
  | _, _ => (Ok (), st)
  end.

Definition close_and_reference (now : str) (j : N) (agent : str) (exit_code : option Z)
    (rfc : option RfcId) : RM unit :=
  let code := default 0%Z exit_code in
  let terminal := if (code =? 0)%Z then #"agent.complete" else #"agent.failed" in
  seal_job now j terminal (json_obj [(#"exit_code", json_opt_code exit_code)]) rfc;;
  close_and_link now j agent rfc.

(** What a scheduled run leaves behind when it ends. *)
Definition scheduled_close (now : str) (cron : option str) (sched : ScheduledContext) (path_text : path → str)
    (j : N) (agent : str) (exit_code : option Z) (st : Consumer) : Consumer :=
  let dir := sm_data_dir (manager st) in
  let set s := mkConsumer (manager st) s (job_projects st) in
  if is_scheduled sched then
    if negb (default 0%Z exit_code =? 0)%Z then
      set (append_journal_event to_line now dir #"lifecycle" #"scheduled_failure" j agent
             (json_obj [(#"exit_code", json_opt_code exit_code)]) (cfs st))
    else if approval_required sched then
      match park_scheduled_result to_pretty now cron dir j agent exit_code (cfs st) with
      | (Ok p, s) =>
          set (append_journal_event to_line now dir #"approval" #"approval_pending" j agent
                 (json_obj [(#"pending_path", JStr (path_text p))]) s)
      | (Err _, s) => set s
      end
    else st
  else st.

Definition close_job_and_link (now : str) (cron : option str) (sched : ScheduledContext)
    (path_text : path → str) (j : N) (agent : str) (exit_code : option Z) (rfc : option RfcId)
  : RM unit := λ st,
  let '(r, st) := close_and_reference now j agent exit_code rfc st in
  let st := mkConsumer (evict_job_chain j (manager st)) (cfs st) (delete j (job_projects st)) in
  match r with
  | Err e => (Err e, st)
  | Ok _ => (Ok (), scheduled_close now cron sched path_text j agent exit_code st)
  end.

(** What the consumer knows of the run it is part of. *)
Record run_context := mkRun {
  rc_cron : option str;
  rc_sched : ScheduledContext;
  rc_path_text : path → str;
}.

Definition route_custom (now : str) (j : N) (agent name : str) (data : json) (rfc : option RfcId)
  : RM unit := λ st,
  match route_of name with
  | RSpawn =>
      let '(m, s) := create_job_chain j agent (manager st, cfs st) in
      seal_job now j #"agent.spawn" data rfc (mkConsumer m s (job_projects st))
  | RProject => seal_project_for now j name data rfc st
  | RWorkspace => on_manager (seal_workspace_with_rfc now name data rfc) st
  | RJob => seal_job now j name data rfc st
  end.

(** [serde_json::json!] of the payloads that are recorded as they are: the record's
    type and its detail. *)
Definition job_record (e : EventPayload) : option (str * json) :=
  match e with
  | SessionStart model => Some (#"hook.SessionStart", json_obj [(#"model", json_opt_str model)])
  | ToolUse tool target summary =>
      Some (#"hook.PreToolUse",
            json_obj [(#"tool", JStr tool); (#"target", json_opt_str target);
                      (#"input_summary", json_opt_str summary)])
  | ToolResult tool target code summary =>
      Some (#"hook.PostToolUse",
            json_obj [(#"tool", JStr tool); (#"target", json_opt_str target);
                      (#"exit_code", json_opt_code code); (#"output_summary", json_opt_str summary)])
  | PermissionRequest tool description risk =>
      Some (#"hook.PermissionRequest",
            json_obj [(#"tool", json_opt_str tool); (#"description", JStr description);
                      (#"risk", json_opt_str risk)])
  | PermissionResolved approved by_ =>
      Some (#"approval", json_obj [(#"approved", JBool approved); (#"resolved_by", JStr by_)])
  | _ => None
  end.

Definition route (rc : run_context) (now : str) (e : OrkiaEvent) : RM unit := λ st,
  let j := oe_job_id e in
  let rfc := oe_rfc_id e in
  match oe_event e with
  | Custom name data => route_custom now j (oe_agent_name e) name data rfc st
  | SessionEnd code =>
      close_job_and_link now (rc_cron rc) (rc_sched rc) (rc_path_text rc) j (oe_agent_name e) code rfc st
  | UserMessage text =>
      match oe_source e with
      | StateMachine =>
          seal_job now j #"prompt_injected"
            (json_obj [(#"message_hash", JStr (short_sha text)); (#"len", JInt (Z.of_N (byte_len text)))]) rfc st
      | _ => (Ok (), st)
      end
  | payload =>
      match job_record payload with
      | Some (event_type, detail) => seal_job now j event_type detail rfc st
      | None => (Ok (), st)
      end
  end.

(** The loop of the task: an error is logged and the next event taken. *)
Definition consume (rc : run_context) (st : Consumer) (tes : list (str * OrkiaEvent)) : Consumer :=
  foldl (λ st te, (route rc te.1 te.2 st).2) st tes.

(** ** Events that belong to their job's chain *)

Definition audits (j : N) (e : OrkiaEvent) : Prop :=
  oe_job_id e = j ∧
  match oe_event e with
  | SessionEnd _ => False
  | Custom name _ => route_of name = RJob
  | _ => True
  end.

(** Such an event is one append to that chain, or nothing at all. *)
Lemma route_audits rc now j e st :
  audits j e →
  (∃ event_type detail, route rc now e st = seal_job now j event_type detail (oe_rfc_id e) st) ∨
  route rc now e st = (Ok (), st).
Proof.
  intros [<- He]. unfold route. destruct (oe_event e); cbn [job_record]; eauto; try done.
  - destruct (oe_source e); eauto.
  - left. unfold route_custom. rewrite He. eauto.
Qed.

Lemma seal_job_no_chain now j ev d rfc st :
  sm_job_chains (manager st) !! j = None → seal_job now j ev d rfc st = (Ok (), st).
Proof.
  intros Hn. unfold seal_job, on_manager, seal_job_with_rfc. rewrite Hn. by destruct st.
Qed.

Lemma route_no_chain rc now j e st :
  sm_job_chains (manager st) !! j = None → audits j e → route rc now e st = (Ok (), st).
Proof.
  intros Hn Ha. destruct (route_audits rc now j e st Ha) as [(ev & d & ->)| ->]; [|done].
  by apply seal_job_no_chain.
Qed.

(** What [seal_job] may change. *)
Definition same_but_job (j : N) (st st' : Consumer) : Prop :=
  job_projects st' = job_projects st ∧
  (∀ k, k ≠ j → sm_job_chains (manager st') !! k = sm_job_chains (manager st) !! k) ∧
  sm_project_chains (manager st') = sm_project_chains (manager st) ∧
  sm_workspace_chain (manager st') = sm_workspace_chain (manager st) ∧
  ∀ p, (∀ c, sm_job_chains (manager st) !! j = Some c → ch_file_path c ≠ p) →
       fs_files (cfs st') !! p = fs_files (cfs st) !! p.

Lemma append_other_files ts ev d rfc c s p :
  p ≠ ch_file_path c → fs_files (append_with_rfc ts ev d rfc (c, s)).2.2 !! p = fs_files s !! p.
Proof.
  intros Hp. pose proof (append_cases ts ev d rfc c s) as Hc.
  destruct (append_with_rfc ts ev d rfc (c, s)) as [[rec|e] [c' s']]; cbn [fst snd].
  - destruct Hc as (_ & _ & _ & _ & ->). by rewrite lookup_insert_ne.
  - destruct Hc as (_ & Ht & _). by apply Ht.
Qed.

Lemma seal_job_same now j ev d rfc st : same_but_job j st (seal_job now j ev d rfc st).2.
Proof.
  destruct (sm_job_chains (manager st) !! j) as [c|] eqn:E.
  2: { rewrite seal_job_no_chain by done. by split_and!. }
  unfold seal_job, on_manager, seal_job_with_rfc. rewrite E.
  set (d' := tag_origin (manager st) d).
  pose proof (append_other_files now ev d' rfc c (cfs st)) as Hf.
  destruct (append_with_rfc now ev d' rfc (c, cfs st)) as [r [c' s']]. cbn [fst snd] in *.
  split_and!; simpl; [done| |done|done|].
  - intros k Hk. by rewrite lookup_insert_ne.
  - intros p Hp. apply Hf. intros ->. by apply (Hp c).
Qed.

Lemma same_refl j st : same_but_job j st st.
Proof. by split_and!. Qed.

(** Only a chain that has ended refuses a record as closed. *)
Lemma append_closed ts ev d rfc c s :
  (append_with_rfc ts ev d rfc (c, s)).1 = Err SealClosed → ch_closed c = true.
Proof.
  unfold append_with_rfc. cbn [fst]. destruct (ch_closed c); [done|].
  unfold mbind, M_bind, lift, seal_io. destruct (ser _) as [line|]; cbn [map_err]; [|done]. cbn [fst snd].
  destruct (open_append _ s) as [[[]|] s1]; cbn [map_err fst snd]; [|done].
  by destruct (write_all _ _ s1) as [[[]|] s2].
Qed.


(** ** The end of a job *)

Lemma session_end_evicts rc now e st code :
  oe_event e = SessionEnd code →
  sm_job_chains (manager (route rc now e st).2) !! oe_job_id e = None.
Proof.
  intros He. unfold route. rewrite He. unfold close_job_and_link.
  destruct (close_and_reference _ _ _ _ _ st) as [[[]|err] st1]; cbn [snd].
  - unfold scheduled_close. repeat case_match; simpl; apply lookup_delete_eq.
  - simpl. apply lookup_delete_eq.
Qed.

Lemma consume_no_chain rc j st tes :
  sm_job_chains (manager st) !! j = None → Forall (λ te, audits j te.2) tes →
  consume rc st tes = st ∧ Forall (λ te, (route rc te.1 te.2 st).1 = Ok ()) tes.
Proof.
  intros Hn Ht. unfold consume. induction Ht as [|[now e] tes Ha Ht [IH1 IH2]]; [done|].
  cbn [foldl fst snd]. rewrite (route_no_chain rc now j e st Hn Ha). cbn [snd]. split; [done|].
  constructor; [|done]. simpl. by rewrite (route_no_chain rc now j e st Hn Ha).
Qed.

(** The first [Stop] hook of a job ends its audit. The hook, which an agent sends after
    every turn, becomes the end of the session; from then on everything the job does
    is accepted without an error and recorded nowhere. *)
Theorem stop_hook_ends_audit rc now st env wall e scopes later :
  je_event_type env = ETHook → je_event env = Some #"Stop" → convert_hook wall env = Some e →
  Forall (λ te, audits (oe_job_id e) te.2) later →
  let st1 := (route rc now (stamp scopes e) st).2 in
  consume rc st1 later = st1 ∧ Forall (λ te, (route rc te.1 te.2 st1).1 = Ok ()) later.
Proof.
  intros Ht He Hc Hl. unfold convert_hook, convert_hook_with_rfc in Hc.
  rewrite decide_True, He in Hc by done. injection Hc as <-.
  apply (consume_no_chain _ (default 0%N (je_job_id env))); [|done].
  match goal with |- context [stamp scopes ?ev] => 
    pose proof (session_end_evicts rc now (stamp scopes ev) st (je_exit_code env)) as Hs end.
  unfold stamp in *. simpl in *. by apply Hs.
Qed.

(** The record does not tell who spoke. A message an agent prints to its own terminal
    is recorded exactly as the same event from the shell itself: an approval, the
    end of its session, or an entry of any project's chain. *)
Theorem apc_forges_record `{!Serde EventPayload} p r t wall j name bs p1 payload pl rc now st scopes source :
  feed p bs = (p1, [PApc payload]) → parse_orkia_apc payload = Some pl →
  recent r !! (j, tag pl) = None → (∀ text, pl ≠ UserMessage text) →
  ∃ ev, channel (on_output t wall j name bs (p, r)).2 = channel r ++ [ev] ∧
    oe_source ev = OrkiaProtocol ∧
    route rc now (stamp scopes ev) st
    = route rc now (stamp scopes (mkEvent source pl f32_one wall j name None)) st.
Proof.
  intros Hf Hp Hr Hu. exists (mkEvent OrkiaProtocol pl f32_one wall j name None).
  split_and!; [|done|].
  - unfold on_output. cbn [fst snd]. rewrite Hf. cbn [snd foldl on_parser_out]. rewrite Hp.
    unfold on_orkia_protocol, emit_event, send_if_not_deduped.
    rewrite (map_lookup_filter_None_2 _ _ (key_of _)); [done|]. left. unfold key_of. simpl. by rewrite Hr.
  - unfold route, stamp. simpl. destruct pl; try done. by destruct (Hu text).
Qed.
End consumer.

(** ** The theorems at work *)

#[local] Instance plain_sha : Sha256 := λ _, replicate 64 48%N.
#[local] Instance plain_text : JsonText := λ _, [].
#[local] Instance type_serde : Serde SealRecord := {| ser r := Ok (sr_event_type r); de _ := Err [] |}.
#[local] Instance one_payload (pl : EventPayload) : Serde EventPayload := table_serde [pl].

Definition plain_json (j : json) : result str str := Ok #"{}".

Definition plain_run : run_context := mkRun None (mkScheduledContext false false) (λ _, []).

Definition start_consumer : Consumer :=
  mkConsumer (manager_new [ #"home"] None) (mkFs ∅ []) {[1%N := #"orkia"]}.

Definition spawn_event : OrkiaEvent := mkEvent Internal (Custom #"agent.spawn" JNull) f32_one 0 1 #"faye" None.

(** Job 1 after its spawn. *)
Definition spawned : Consumer := consume plain_json plain_json plain_run start_consumer [(#"t0", spawn_event)].

Definition tool_hook (now : N) : OrkiaEvent := hook_event now (hook_of #"PreToolUse" #"Bash" #"rm -rf /").

Definition stop_hook : JournalEnvelope := hook_of #"Stop" [] [].

Definition stopped : Consumer :=
  (route plain_json plain_json plain_run #"t1" (stamp None (hook_event 0 stop_hook)) spawned).2.

Definition job_chain : SealChain := default (mkSealChain [] [] 0 false) (sm_job_chains (manager spawned) !! 1%N).


Lemma stop_hook_ends_audit_witness :
  (consume plain_json plain_json plain_run stopped [(#"t2", tool_hook 0); (#"t3", tool_hook 0)] = stopped ∧
   Forall (λ te, (route plain_json plain_json plain_run te.1 te.2 stopped).1 = Ok ())
          [(#"t2", tool_hook 0); (#"t3", tool_hook 0)]) ∧
  fs_files (cfs stopped) ≠ ∅.
Proof.
  split; [|vm_compute; discriminate].
  apply (stop_hook_ends_audit plain_json plain_json plain_run #"t1" spawned stop_hook 0 (hook_event 0 stop_hook) None).
  - reflexivity.
  - reflexivity.
  - reflexivity.
  - repeat (constructor; [split; [reflexivity|exact I]|]). constructor.
Defined.

Definition forged : EventPayload := PermissionResolved true #"operator".
Definition forged_text : list N := apc_frame [48%N].

Lemma apc_forges_record_witness :
  ∃ ev, channel (@on_output (one_payload forged) 0 0 1 #"faye" forged_text (parser_new, router_new)).2
        = channel router_new ++ [ev] ∧
    oe_source ev = OrkiaProtocol ∧
    route plain_json plain_json plain_run #"t1" (stamp None ev) spawned
    = route plain_json plain_json plain_run #"t1"
        (stamp None (mkEvent Internal forged f32_one 0 1 #"faye" None)) spawned.
Proof.
  apply (@apc_forges_record _ _ _ plain_json plain_json (one_payload forged) parser_new router_new 0 0 1 #"faye"
           forged_text (set_apc_state false false [] (set_esc false (set_esc true parser_new)))
           (#"Orkia;" ++ [48%N]) forged plain_run #"t1" spawned None Internal).
  - vm_compute. reflexivity.
  - vm_compute. reflexivity.
  - reflexivity.
  - discriminate.
Defined.
