(* ===== verification/Wildcard.v ===== *)
(** * Wildcard: the patterns of RFC constraints

    [pattern_match] and [wildcard_match] of [crates/orkia-shell/src/operator.rs]:
    the forbidden, allowed, watched and contract paths and the forbidden commands
    of an RFC are patterns in which [*] stands for any bytes. The matcher is a
    loop over two indices that goes back to the last star when it gets stuck; here
    the indices are the suffixes they point at. It is compared with the
    declarative meaning of a pattern, [glob]. *)

From Stdlib Require Import NArith ZArith Lia.
From stdpp Require Import base gmap strings option numbers list list_basics.
From S2P Require Import Prelude Text.

(** ** The matcher *)

Definition star : N := 42.

(** The second loop: only stars may be left. *)
Fixpoint only_stars (p : list N) : bool :=
  match p with
  | [] => true
  | c :: p' => if (c =? star)%N then only_stars p' else false
  end.

(** The first loop: [p] and [v] are what is left of the pattern and of the value,
    [back] what follows the last star in the pattern and the place in the value it
    was last tried at. *)
Fixpoint wildcard_loop (fuel : nat) (p v : list N) (back : option (list N * list N)) : bool :=
  match fuel with
  | O => false
  | S fuel =>
      match v with
      | [] => only_stars p
      | y :: v' =>
          let retry := match back with
                       | Some (sp, _ :: mv) => wildcard_loop fuel sp mv (Some (sp, mv))
                       | _ => false
                       end in
          match p with
          | x :: p' =>
              if (x =? y)%N then wildcard_loop fuel p' v' back
              else if (x =? star)%N then wildcard_loop fuel p' v (Some (p', v))
              else retry
          | [] => retry
          end
      end
  end.

(** Enough for every turn of the loop: at most one round per star and place. *)
Definition wildcard_fuel (p v : list N) : nat :=
  S ((length p + 1) * ((length v + 2) * (length v + 2)) + length v * (length v + 2) + length v).

Definition wildcard_match (p v : list N) : bool := wildcard_loop (wildcard_fuel p v) p v None.

Definition pattern_match (pattern value : str) : bool :=
  let pattern := trim pattern in
  if is_empty pattern then false
  else if bool_decide (pattern = #"*") || bool_decide (pattern = #"**") then true
  else wildcard_match (utf8 pattern) (utf8 value).

(** ** What a pattern means *)

Inductive glob : list N → list N → Prop :=
| glob_nil : glob [] []
| glob_char c p v : glob p v → glob (c :: p) (c :: v)
| glob_star p a b : glob p b → glob (star :: p) (a ++ b).

#[export] Hint Constructors glob : orkia.

Lemma glob_star_any p : glob [] [] → glob [star] p.
Proof. intros H. rewrite <- (app_nil_r p). by constructor. Qed.

Lemma glob_absorb p a v : glob (star :: p) v → star ∉ v → glob (star :: p) (a ++ v).
Proof.
  intros H Hv. inversion H as [|? ? v'|? x y]; subst.
  - exfalso. set_solver.
  - rewrite app_assoc. by constructor.
Qed.

Lemma glob_lit u p w : star ∉ u → glob (u ++ p) w → ∃ z, w = u ++ z ∧ glob p z.
Proof.
  revert w. induction u as [|c u IH]; intros w Hu Hg; [by exists w|].
  apply not_elem_of_cons in Hu as [Hc Hu]. simpl in Hg. inversion Hg; subst; [|done].
  destruct (IH v) as (z & -> & Hz); [done|done|]. by exists z.
Qed.

Lemma only_stars_glob p : only_stars p = true ↔ glob p [].
Proof.
  induction p as [|c p IH]; simpl.
  - split; [constructor|done].
  - destruct (N.eqb_spec c star) as [->|Hc].
    + rewrite IH. split.
      * intros H. change (@nil N) with (@nil N ++ []). by constructor.
      * inversion 1 as [| |? a b]; subst. destruct a, b; simplify_eq/=. done.
    + split; [done|]. inversion 1; subst; done.
Qed.

(** ** Why the loop ends *)

(** What is left to do: stars not yet met, places left for the last one, and bytes
    left, in base [V + 2]. *)
Definition back_len (p : list N) (back : option (list N * list N)) : nat :=
  match back with Some (sp, _) => length sp | None => length p + 1 end.

Definition places (V : nat) (back : option (list N * list N)) : nat :=
  match back with Some (_, mv) => length mv | None => V end.

Definition work (V : nat) (p v : list N) (back : option (list N * list N)) : nat :=
  back_len p back * ((V + 2) * (V + 2)) + places V back * (V + 2) + length v.

(** The pattern since the last star has been matched literally. *)
Definition lined_up (p v : list N) (back : option (list N * list N)) : Prop :=
  match back with Some (sp, mv) => ∃ u, sp = u ++ p ∧ mv = u ++ v | None => True end.

(** ** The loop computes the meaning *)

(** A match from here, or one that lets the last star take more. *)
Definition accepts (p v : list N) (back : option (list N * list N)) : Prop :=
  glob p v ∨
  match back with
  | Some (sp, mv) => ∃ x w, x ≠ [] ∧ mv = x ++ w ∧ glob sp w
  | None => False
  end.

(** Once the next star is reached, letting the previous one take more is no use. *)
Lemma star_reached u p v x w :
  star ∉ u ++ v → u ++ v = x ++ w → x ≠ [] → glob (u ++ star :: p) w → glob (star :: p) v.
Proof.
  intros Hs He Hx Hg. destruct (glob_lit u (star :: p) w) as (z & -> & Hz); [set_solver|done|].
  rewrite app_assoc in He. apply app_eq_inv in He as [(k & Hk & Hz')|(k & Hk & Hz')].
  - apply (f_equal length) in Hk. rewrite !length_app in Hk. destruct x; [done|]. simpl in Hk. lia.
  - subst v. apply glob_absorb; [done|]. set_solver.
Qed.

Lemma accepts_star u p v :
  star ∉ u ++ v → ∀ back, back = None ∨ back = Some (u ++ star :: p, u ++ v) →
  accepts (star :: p) v back ↔ accepts p v (Some (p, v)).
Proof.
  intros Hs back Hb. assert (glob (star :: p) v ↔ accepts p v (Some (p, v))) as Hm.
  { split.
    - inversion 1 as [|? ? v'|? a b]; subst; [set_solver|].
      destruct a as [|c a]; [by left|]. right. by exists (c :: a), b.
    - intros [Hg|(x & w & _ & -> & Hg)]; [|by constructor]. by apply (glob_star p [] v). }
  rewrite <- Hm. unfold accepts. destruct Hb as [->| ->]; [tauto|].
  split; [|tauto]. intros [?|(x & w & Hx & He & Hg)]; [done|]. by eapply star_reached.
Qed.

Lemma accepts_char u c p v back :
  c ≠ star → back = None ∨ back = Some (u ++ c :: p, u ++ c :: v) →
  accepts (c :: p) (c :: v) back ↔ accepts p v back.
Proof.
  intros Hc Hb. unfold accepts.
  assert (glob (c :: p) (c :: v) ↔ glob p v) as ->; [|done].
  split; [by inversion 1; subst|by constructor].
Qed.

Lemma accepts_retry p v sp y mv :
  ¬ glob p v → accepts p v (Some (sp, y :: mv)) ↔ accepts sp mv (Some (sp, mv)).
Proof.
  intros Hn. unfold accepts. split.
  - intros [?|(x & w & Hx & He & Hg)]; [done|]. destruct x as [|c x]; [done|]. injection He as -> ->.
    destruct x as [|c' x]; [by left|]. right. by exists (c' :: x), w.
  - intros [Hg|(x & w & Hx & -> & Hg)]; right; [by exists [y], mv|by exists (y :: x), w].
Qed.

Lemma accepts_end u p :
  star ∉ u → ∀ back, back = None ∨ back = Some (u ++ p, u ++ []) → accepts p [] back ↔ glob p [].
Proof.
  intros Hu back Hb. unfold accepts. destruct Hb as [->| ->]; [tauto|]. split; [|tauto].
  intros [?|(x & w & Hx & He & Hg)]; [done|]. destruct (glob_lit u p w) as (z & -> & _); [done|done|].
  apply (f_equal length) in He. rewrite !length_app in He. destruct x; [done|]. simpl in He. lia.
Qed.

Lemma wildcard_loop_spec V fuel p v back :
  work V p v back < fuel → length v ≤ V → places V back ≤ V →
  star ∉ v → lined_up p v back →
  (match back with Some (_, mv) => star ∉ mv | None => True end) →
  wildcard_loop fuel p v back = true ↔ accepts p v back.
Proof.
  revert p v back. induction fuel as [|fuel IH]; intros p v back Hf HV Hpl Hs Hl Hmv; [lia|].
  assert (∃ u, (star ∉ u ++ v) ∧ (back = None ∨ back = Some (u ++ p, u ++ v))) as (u & Hu & Hb).
  { destruct back as [[sp mv]|]; [|by exists []; auto].
    destruct Hl as (u & -> & ->). exists u. auto. }
  cbn [wildcard_loop]. destruct v as [|y v'].
  { rewrite (accepts_end u) by (done || set_solver). apply only_stars_glob. }
  assert (¬ glob p (y :: v') →
    (match back with Some (sp, _ :: mv) => wildcard_loop fuel sp mv (Some (sp, mv)) | _ => false end) = true
    ↔ accepts p (y :: v') back) as Hretry.
  { intros Hn. destruct back as [[sp [|m mv]]|].
    - destruct Hl as (u' & _ & He). by destruct u'.
    - rewrite accepts_retry by done. simpl in Hpl. apply IH; simpl.
      + revert Hf. unfold work, back_len, places. simpl. nia.
      + lia.
      + lia.
      + set_solver.
      + by exists [].
      + set_solver.
    - unfold accepts. split; [done|tauto]. }
  destruct p as [|x p']; [apply Hretry; by inversion 1|].
  destruct (N.eqb_spec x y) as [->|Hxy].
  - rewrite (accepts_char u) by (done || set_solver). apply IH; try done.
    + revert Hf. unfold work, back_len, places. destruct back as [[sp mv]|]; simpl; nia.
    + simpl in HV. lia.
    + set_solver.
    + destruct back as [[sp mv]|]; [|done]. destruct Hl as (u' & -> & ->). exists (u' ++ [y]).
      by rewrite <- !app_assoc.
  - destruct (N.eqb_spec x star) as [->|Hx].
    + rewrite (accepts_star u) by done. apply IH; try done.
      * revert Hf. unfold work, back_len, places.
        assert (length p' + 1 ≤ match back with Some (sp, _) => length sp | None => length (star :: p') + 1 end).
        { destruct back as [[sp mv]|]; [|simpl; lia]. destruct Hl as (u' & -> & _).
          rewrite length_app. simpl. lia. }
        destruct back as [[sp mv]|]; simpl in *; nia.
      * by exists [].
    + apply Hretry. inversion 1; subst; done.
Qed.

(** C27: On values without a star of their own, the matcher is the meaning of the pattern:
    it accepts exactly the values the pattern describes, for every pattern and value,
    and its loop ends. *)
Theorem pattern_match_glob pattern value :
  star ∉ value →
  pattern_match pattern value = true ↔ trim pattern ≠ [] ∧ glob (utf8 (trim pattern)) (utf8 value).
Proof.
  intros Hs. unfold pattern_match. destruct (trim pattern) as [|c p] eqn:E; cbn [is_empty].
  { split; [done|by intros [? _]]. }
  rewrite <- E. assert (trim pattern ≠ []) as Hne by (by rewrite E). clear E c p.
  assert (∀ v, glob [star] v) as Hone by (intros v; rewrite <- (app_nil_r v); repeat constructor).
  assert (star ∉ utf8 value) as Hu by (by rewrite elem_utf8_ascii).
  case_bool_decide as H1; cbn [orb].
  { rewrite H1. split; [|done]. intros _. split; [done|]. apply Hone. }
  case_bool_decide as H2.
  { rewrite H2. split; [|done]. intros _. split; [done|]. apply (glob_star [star] [] (utf8 value)), Hone. }
  unfold wildcard_match, wildcard_fuel.
  rewrite (wildcard_loop_spec (length (utf8 value))); [|unfold work, back_len, places; lia|done|done|done|done|done].
  unfold accepts. tauto.
Qed.

Lemma pattern_match_glob_witness :
  (pattern_match #"src/*/api*.rs" #"src/a/b/api.rs" = true ↔
   trim #"src/*/api*.rs" ≠ [] ∧ glob (utf8 (trim #"src/*/api*.rs")) (utf8 #"src/a/b/api.rs")) ∧
  pattern_match #"src/*/api*.rs" #"src/a/b/api.rs" = true ∧
  pattern_match #"src/*/api*.rs" #"src/api.rs" = false.
Proof.
  split; [|split; vm_compute; reflexivity]. apply (pattern_match_glob #"src/*/api*.rs" #"src/a/b/api.rs").
  apply (bool_decide_unpack _). vm_compute. exact I.
Defined.

(** ** A star in the value *)

Lemma only_prefix fuel u p v back :
  star ∉ u → length u < fuel →
  ∃ fuel', fuel = fuel' + length u ∧ wildcard_loop fuel (u ++ p) (u ++ v) back = wildcard_loop fuel' p v back.
Proof.
  revert fuel. induction u as [|c u IH]; intros fuel Hu Hf; simpl in *.
  { exists fuel. split; [lia|done]. }
  destruct fuel as [|fuel]; [lia|]. apply not_elem_of_cons in Hu as [_ Hu].
  destruct (IH fuel Hu ltac:(lia)) as (f' & -> & E). exists f'. split; [lia|].
  cbn [wildcard_loop]. by rewrite N.eqb_refl.
Qed.

(** A star in the value is taken for the star of the pattern. A pattern that ends in a
    star describes every value that starts with what precedes it, but the matcher
    refuses those that go on with a star and more text: a forbidden command escapes
    its constraint when its first argument is a star. *)
Theorem star_in_value_escapes u v :
  star ∉ u → v ≠ [] →
  glob (u ++ [star]) (u ++ star :: v) ∧ wildcard_match (u ++ [star]) (u ++ star :: v) = false.
Proof.
  intros Hu Hv. split.
  - clear Hu. induction u as [|c u IH]; simpl; [|by constructor].
    apply glob_star_any. constructor.
  - unfold wildcard_match. set (F := wildcard_fuel _ _).
    assert (length u + 2 < F) as HF.
    { unfold F, wildcard_fuel. rewrite !length_app. simpl. nia. }
    destruct (only_prefix F u [star] (star :: v) None) as (f' & Hf & ->); [done|lia|].
    destruct f' as [|[|f']]; [lia|lia|]. cbn [wildcard_loop]. rewrite N.eqb_refl.
    by destruct v.
Qed.

Lemma star_in_value_escapes_witness :
  (glob (#"rm " ++ [star]) (#"rm " ++ star :: #" .git") ∧
   wildcard_match (#"rm " ++ [star]) (#"rm " ++ star :: #" .git") = false) ∧
  pattern_match #"rm *" #"rm * .git" = false ∧ pattern_match #"rm *" #"rm -r .git" = true.
Proof.
  split; [|split; vm_compute; reflexivity]. apply (star_in_value_escapes #"rm " #" .git").
  - apply (bool_decide_unpack _). vm_compute. exact I.
  - discriminate.
Defined.
