(* ===== verification/Operator.v ===== *)
(** * Operator: drift detection over the event stream

    [crates/orkia-shell/src/operator.rs], [operator_context.rs] and
    [operator_reconcile.rs]: an actor that follows what agents do, compares it with
    the constraints of their RFCs and with what other sessions do, and reports what
    it finds as events and journal entries; and the reconciler that finds the same
    conflicts between sessions in the sealed chains.

    The files it reads are arguments of the context it loads; the nodes of the
    knowledge store, which is a database, are one too. *)

From Stdlib Require Import NArith ZArith Lia SpecFloat.
From stdpp Require Import base gmap strings option numbers list list_basics sorting.
From S2P Require Import Prelude Text Effects Json Fs Journal RfcCore RfcStore Seal Terminal Detector Events Wildcard.

(** ** Context of an RFC *)

Record KnowledgeRef := mkKnowledge { kr_id : str; kr_summary : str }.

Record OperatorContext := mkContext {
  ctx_constraints : option OperatorConstraints;
  ctx_rfc_body : option str;
  ctx_agents_rule : option str;
  ctx_kg_refs : list KnowledgeRef;
}.

(** What the loader finds: the project directories in the order they are listed, the
    records of their stores, the readable files, the nodes of an RFC when the
    knowledge store opens, and the working directory. *)
Record Sources := mkSources {
  src_projects : list path;
  src_record : path → RfcId → option RfcRecord;
  src_files : gmap path str;
  src_nodes : RfcId → option (list KnowledgeRef);
  src_cwd : option path;
}.

Definition RULE_NEEDLES : list str :=
  [ #"arc<mutex"; #"shared mutable"; #"message passing"; #"test"; #"coverage"; #"secret"; #"credential";
    #".env"; #"unwrap"; #"expect"; #"panic"; #"untrusted"].

Definition is_operator_relevant_rule (line : str) : bool :=
  existsb (λ needle, contains needle (to_ascii_lowercase line)) RULE_NEEDLES.

(** From a directory upwards; the list is the path from its last component. *)
Fixpoint climb (files : gmap path str) (rdir : list str) : option str :=
  match files !! (reverse rdir ++ [ #"AGENTS.md"]) ≫= (λ s, List.find is_operator_relevant_rule (lines s)) with
  | Some line => Some (trim line)
  | None => match rdir with [] => None | _ :: up => climb files up end
  end.

Definition nearest_agents_rule_from (files : gmap path str) (start : option path) : option str :=
  start ≫= (λ d, climb files (reverse d)).

Definition nearest_agents_rule (files : gmap path str) (project_dir : path) (target : option str)
  : option str :=
  let start := match target with
               | Some t => if is_empty t then project_dir
                           else match reverse (path_join project_dir t) with
                                | _ :: up => reverse up
                                | [] => project_dir
                                end
               | None => project_dir
               end in
  nearest_agents_rule_from files (Some start).

Fixpoint load_rfc_record (record : path → RfcId → option RfcRecord) (projects : list path) (id : RfcId)
  : option (path * RfcRecord) :=
  match projects with
  | [] => None
  | d :: ds => match record d id with Some r => Some (d, r) | None => load_rfc_record record ds id end
  end.

Definition load_kg_refs (s : Sources) (id : RfcId) : list KnowledgeRef := take 5 (default [] (src_nodes s id)).

Definition context_load (s : Sources) (id : RfcId) (target : option str) : OperatorContext :=
  match load_rfc_record (src_record s) (src_projects s) id with
  | None => mkContext None None (nearest_agents_rule_from (src_files s) (src_cwd s)) (load_kg_refs s id)
  | Some (dir, record) =>
      mkContext (fm_operator (rec_fm record) ≫= ob_constraints) (Some (rec_body record))
                (nearest_agents_rule (src_files s) dir target) (load_kg_refs s id)
  end.

Definition load_constraints (s : Sources) (id : RfcId) : option OperatorConstraints :=
  ctx_constraints (context_load s id None).

(** ** Sessions and verdicts *)

Record SessionState := mkSession {
  ss_agent : str;
  ss_rfc_id : option RfcId;
  ss_constraints : option OperatorConstraints;
  ss_touched : list str;
  missing_scope_reported : bool;
}.

Definition session_default : SessionState := mkSession [] None None [] false.

Record Verdict := mkVerdict {
  vd_event_type : str;
  vd_kind : str;
  vd_severity : str;
  vd_confidence : f32;
  vd_job_id : N;
  vd_agent : str;
  vd_rfc_id : option RfcId;
  vd_reason : str;
  vd_recommended_action : str;
  vd_observed_action : json;
  vd_source_refs : list json;
}.

(** A draft, dressed with the event it is about. *)
Definition verdict (e : OrkiaEvent) (event_type kind severity : str) (confidence : f32) (reason action : str)
    (observed : json) (refs : list json) : Verdict :=
  mkVerdict event_type kind severity confidence (oe_job_id e) (oe_agent_name e) (oe_rfc_id e) reason action
            observed refs.

Definition DRIFT : str := #"operator.drift_detected".
Definition CONFLICT : str := #"operator.cross_session_conflict".
Definition SUGGESTION : str := #"operator.suggestion_created".

Definition is_write_tool (tool : str) : bool :=
  bool_decide (to_ascii_lowercase tool ∈
    [ #"write"; #"writefile"; #"write_file"; #"edit"; #"multiedit"; #"multi_edit"; #"apply_patch"; #"bash";
      #"exec_command"; #"shell"; #"shell_command"]).

Definition is_permission_like (tool : str) : bool :=
  bool_decide (to_ascii_lowercase tool ∈ [ #"permission"; #"permissionrequest"; #"permission_request"]).

Definition is_contract_path (p : str) : bool :=
  existsb (λ needle, contains needle (to_ascii_lowercase p))
    [ #"contract"; #"schema"; #"protocol"; #"api"; #"migration"].

Definition risk_rank (risk : str) : N :=
  let r := to_ascii_lowercase risk in
  if decide (r = #"low") then 1 else if decide (r = #"medium") then 2
  else if decide (r = #"high") then 3 else if decide (r = #"critical") then 4 else 0.

(** *** Semantic rules *)

Record SemanticRule := mkRule {
  sr_kind : str;
  sr_reason : str;
  sr_confidence : f32;
  observed_needles : list str;
  source_needles : list str;
}.

Definition any_needle (needles : list str) (text : str) : bool :=
  existsb (λ needle, contains needle (to_ascii_lowercase text)) needles.

Definition matches_observed (r : SemanticRule) (observed : str) : bool := any_needle (observed_needles r) observed.
Definition matches_source (r : SemanticRule) (source : str) : bool := any_needle (source_needles r) source.

Definition semantic_rules : list SemanticRule :=
  [mkRule #"architecture_rule" #"change appears to introduce shared mutable state in an operator-visible path"
     (f32_lit 72 100) [ #"arc<mutex"; #"mutex<"; #"shared mutable"]
     [ #"arc<mutex"; #"mutex"; #"shared mutable"; #"message passing"];
   mkRule #"test_policy" #"change appears to skip or weaken expected test coverage"
     (f32_lit 66 100) [ #"skip test"; #"remove test"; #"delete test"; #"no test"]
     [ #"test"; #"coverage"; #"acceptance"];
   mkRule #"security_policy" #"change appears to touch secret or credential handling"
     (f32_lit 7 10) [ #"secret"; #"credential"; #".env"; #"token"; #"api key"]
     [ #"secret"; #"credential"; #".env"; #"token"; #"untrusted"];
   mkRule #"reliability_policy" #"change appears to add panic-prone handling in shell infrastructure"
     (f32_lit 64 100) [ #"unwrap()"; #"expect("; #"panic!"]
     [ #"unwrap"; #"expect"; #"panic"; #"never panic"; #"untrusted"]].

Definition semantic_rule (observed : str) : option SemanticRule :=
  List.find (λ r, matches_observed r observed) semantic_rules.

(** ** Conflicts between sessions *)

Record CrossSessionHit := mkHit {
  reason_tag : str;
  affected_job : N;
  affected_agent : str;
  affected_rfc : option RfcId;
  contract : bool;
}.

Definition hit_reason (h : CrossSessionHit) (target : str) : str :=
  #"write target '" ++ target ++ #"' intersects " ++ reason_tag h ++ #" for job "
  ++ fmt_dec (affected_job h) ++ #" (" ++ affected_agent h ++ #")".

Definition hit_observed (h : CrossSessionHit) (tool target : str) : json :=
  json_obj [(#"tool", JStr tool); (#"target", JStr target); (#"affected_job_id", JInt (Z.of_N (affected_job h)));
            (#"affected_agent", JStr (affected_agent h)); (#"affected_rfc_id", json_opt_str (affected_rfc h));
            (#"contract_surface", JBool (contract h))].

Definition any_pattern (patterns : list str) (value : str) : bool := existsb (λ p, pattern_match p value) patterns.

(** The verdict of one session on a target another one writes. *)
Definition hit_for (target : str) (job : N) (s : SessionState) : option CrossSessionHit :=
  c ← ss_constraints s;
  let contract_freeze := any_pattern (oc_contract_paths c) target in
  let tag :=
    if contract_freeze then Some #"contract_paths (frozen contract surface)"
    else if any_pattern (oc_watch_paths c) target then Some #"watch_paths"
    else if bool_decide (target ∈ ss_touched s) then Some #"same artifact touched by another session"
    else if is_contract_path target && any_pattern (oc_allowed_paths c) target
    then Some #"contract-like path overlaps another RFC scope"
    else None in
  t ← tag;
  Some (mkHit t job (ss_agent s) (ss_rfc_id s) contract_freeze).

Definition by_job (a b : CrossSessionHit) : Prop := (affected_job a ≤ affected_job b)%N.

#[export] Instance by_job_dec : RelDecision by_job.
Proof. intros a b. unfold by_job. apply _. Defined.

(** The sessions come in the order of the map; a stable sort by job follows. *)
Definition cross_session_hits (sessions : gmap N SessionState) (actor : N) (tool target : str)
  : list CrossSessionHit :=
  if is_empty target || negb (is_write_tool tool) then []
  else merge_sort by_job
         (omap (λ kv : N * SessionState, if decide (kv.1 = actor) then None else hit_for target kv.1 kv.2)
               (map_to_list sessions)).

(** ** The supervisor *)

Section supervisor.
Context (srcs : Sources).

Abbreviation graph := (gmap N SessionState) (only parsing).

Definition refresh_session (e : OrkiaEvent) (g : graph) : graph :=
  let constraints := oe_rfc_id e ≫= load_constraints srcs in
  let s := default session_default (g !! oe_job_id e) in
  <[oe_job_id e :=
      mkSession (if is_empty (oe_agent_name e) then ss_agent s else oe_agent_name e)
                (match oe_rfc_id e with Some r => Some r | None => ss_rfc_id s end)
                (match constraints with Some c => Some c | None => ss_constraints s end)
                (ss_touched s) (missing_scope_reported s)]> g.

Definition tool_target (tool target : str) : json := json_obj [(#"tool", JStr tool); (#"target", JStr target)].

Definition set_reported (s : SessionState) : SessionState :=
  mkSession (ss_agent s) (ss_rfc_id s) (ss_constraints s) (ss_touched s) true.

Definition touch (target : str) (s : SessionState) : SessionState :=
  mkSession (ss_agent s) (ss_rfc_id s) (ss_constraints s) (ss_touched s ++ [target]) (missing_scope_reported s).

Definition missing_scope_verdict (e : OrkiaEvent) (tool target : str) (g : graph) : option Verdict * graph :=
  if bool_decide (is_Some (oe_rfc_id e)) || (oe_job_id e =? 0)%N then (None, g)
  else if negb (is_write_tool tool) && negb (is_permission_like tool) then (None, g)
  else
    let s := default session_default (g !! oe_job_id e) in
    if missing_scope_reported s then (None, <[oe_job_id e := s]> g)
    else (Some (verdict e DRIFT #"hard_violation" #"warning" f32_one
                  #"operator cannot ground this agent action because the job has no rfc_id"
                  #"attach_rfc_scope" (tool_target tool target) []),
          <[oe_job_id e := set_reported s]> g).

Definition hard_path_verdict (e : OrkiaEvent) (tool target : str) (g : graph) : option Verdict :=
  if is_empty target then None
  else
    s ← g !! oe_job_id e;
    c ← ss_constraints s;
    if any_pattern (oc_forbidden_paths c) target then
      Some (verdict e DRIFT #"hard_violation" #"critical" f32_one
              (#"tool target '" ++ target ++ #"' matches forbidden_paths") #"review_scope"
              (tool_target tool target) [])
    else if is_write_tool tool && negb (is_empty (oc_allowed_paths c))
            && negb (any_pattern (oc_allowed_paths c) target) then
      Some (verdict e DRIFT #"hard_violation" #"warning" f32_one
              (#"write target '" ++ target ++ #"' is outside allowed_paths") #"review_scope"
              (tool_target tool target) [])
    else None.

Definition cross_session_verdicts (e : OrkiaEvent) (tool target : str) (g : graph) : list Verdict :=
  map (λ h, verdict e CONFLICT #"cross_session_conflict" #"warning" f32_one (hit_reason h target)
              #"notify_affected_session" (hit_observed h tool target) [])
      (cross_session_hits g (oe_job_id e) tool target).

Definition semantic_verdict (e : OrkiaEvent) (tool target : str) (summary : option str) (g : graph)
  : option Verdict :=
  let observed := tool ++ #" " ++ target ++ #" " ++ default [] summary in
  rule ← semantic_rule observed;
  rfc_id ← oe_rfc_id e;
  let ctx := context_load srcs rfc_id (Some target) in
  let agents := match ctx_agents_rule ctx with
                | Some r => if matches_source rule r then
                              [json_obj [(#"source", JStr #"AGENTS.md"); (#"kind", JStr (sr_kind rule));
                                         (#"text", JStr r)]]
                            else []
                | None => []
                end in
  let body := match ctx_rfc_body ctx ≫= (λ b, List.find (matches_source rule) (lines b)) with
              | Some line => [json_obj [(#"source", JStr #"RFC body"); (#"kind", JStr (sr_kind rule));
                                        (#"text", JStr (trim line))]]
              | None => []
              end in
  let nodes := map (λ n, json_obj [(#"source", JStr #"knowledge_node"); (#"id", JStr (kr_id n));
                                   (#"summary", JStr (kr_summary n))]) (ctx_kg_refs ctx) in
  let recent := take 5 (reverse (default [] (ss_touched <$> g !! oe_job_id e))) in
  let history := if is_empty recent then []
                 else [json_obj [(#"source", JStr #"recent_tool_history"); (#"targets", JArr (map JStr recent))]] in
  let refs := agents ++ body ++ nodes ++ history in
  if is_empty refs then None
  else Some (verdict e DRIFT #"semantic_drift" #"warning" (sr_confidence rule) (sr_reason rule)
               #"ask_human" (tool_target tool target) refs).

Definition evaluate_tool (e : OrkiaEvent) (tool : str) (target summary : option str) (g : graph)
  : list Verdict * graph :=
  let target := default [] target in
  let g := if is_empty target then g else alter (touch target) (oe_job_id e) g in
  let '(missing, g) := missing_scope_verdict e tool target g in
  (option_list missing ++ option_list (hard_path_verdict e tool target g)
   ++ option_list (semantic_verdict e tool target summary g)
   ++ cross_session_verdicts e tool target g, g).

Definition risk_verdict (e : OrkiaEvent) (tool : option str) (description : str) (risk : option str)
    (c : OperatorConstraints) : list Verdict :=
  match risk, oc_risk_ceiling c with
  | Some r, Some ceiling =>
      if (risk_rank ceiling <? risk_rank r)%N then
        [verdict e DRIFT #"hard_violation" #"warning" f32_one
           (#"permission risk '" ++ r ++ #"' exceeds RFC risk_ceiling '" ++ ceiling ++ #"'") #"review_scope"
           (json_obj [(#"tool", json_opt_str tool); (#"risk", JStr r); (#"description", JStr description)]) []]
      else []
  | _, _ => []
  end.

Definition command_verdict (e : OrkiaEvent) (tool : option str) (description : str)
    (c : OperatorConstraints) : list Verdict :=
  if any_pattern (oc_forbidden_commands c) description then
    [verdict e DRIFT #"hard_violation" #"critical" f32_one
       #"permission request matches forbidden command constraint" #"review_scope"
       (json_obj [(#"tool", json_opt_str tool); (#"description", JStr description)]) []]
  else [].

Definition evaluate_permission (e : OrkiaEvent) (tool : option str) (description : str) (risk : option str)
    (g : graph) : list Verdict * graph :=
  let '(missing, g) := missing_scope_verdict e (default #"permission" tool) description g in
  (option_list missing ++
   match g !! oe_job_id e ≫= ss_constraints with
   | Some c => risk_verdict e tool description risk c ++ command_verdict e tool description c
   | None => []
   end, g).

Definition evaluate (e : OrkiaEvent) (g : graph) : list Verdict * graph :=
  let ignored := match oe_event e with Custom name _ => starts_with #"operator." name | _ => false end in
  if ignored then ([], g)
  else
    let g := refresh_session e g in
    match oe_event e with
    | ToolUse tool target summary => evaluate_tool e tool target summary g
    | PermissionRequest tool description risk => evaluate_permission e tool description risk g
    | _ => ([], g)
    end.
End supervisor.

(** ** Reporting *)

Definition suggestion_text (action : str) : option str :=
  if decide (action = #"attach_rfc_scope") then
    Some #"Attach this job to an RFC scope before continuing, or accept that operator drift checks will stay advisory-only."
  else if decide (action = #"review_scope") then
    Some #"Pause the agent and review the RFC constraints. If the action is legitimate, update accepted constraints with `orkia rfc constraints accept`; otherwise steer the agent back inside scope."
  else if decide (action = #"notify_affected_session") then
    Some #"Notify the affected session owner before continuing; reconcile the shared contract or watched artifact in the RFCs."
  else if decide (action = #"ask_human") then
    Some #"Ask for human confirmation before proceeding; cite the RFC/AGENTS/KG sources shown in the operator event."
  else None.

Definition with_suggestion (text event_type : str) (observed : json) : json :=
  match observed with
  | JObj m => JObj (obj_insert #"source_event_type" (JStr event_type) (obj_insert #"suggestion_text" (JStr text) m))
  | other => other
  end.

Definition suggestion_for (v : Verdict) : option Verdict :=
  if decide (vd_event_type v = SUGGESTION) then None
  else
    text ← suggestion_text (vd_recommended_action v);
    Some (mkVerdict SUGGESTION #"suggestion" #"info" (vd_confidence v) (vd_job_id v) (vd_agent v) (vd_rfc_id v)
            text #"human_approval_required" (with_suggestion text (vd_event_type v) (vd_observed_action v))
            (vd_source_refs v)).

(** An [f32] in JSON: the bits of the same number as an [f64]. *)
Definition json_f32 (x : f32) : json :=
  match x with
  | S754_finite false m ex =>
      JFloat (Z.to_N ((ex + 23 + 1023) * 2 ^ 52 + (Zpos m - 2 ^ 23) * 2 ^ 29))
  | _ => JFloat 0
  end.

Definition verdict_detail (v : Verdict) : json :=
  json_obj [(#"kind", JStr (vd_kind v)); (#"severity", JStr (vd_severity v));
            (#"confidence", json_f32 (vd_confidence v)); (#"job_id", JInt (Z.of_N (vd_job_id v)));
            (#"agent", JStr (vd_agent v)); (#"rfc_id", json_opt_str (vd_rfc_id v));
            (#"source_refs", JArr (vd_source_refs v)); (#"observed_action", vd_observed_action v);
            (#"reason", JStr (vd_reason v)); (#"recommended_action", JStr (vd_recommended_action v))].

Definition set_je_message (v : option str) (e : JournalEnvelope) : JournalEnvelope :=
  mkJournalEnvelope (je_event_type e) (je_timestamp e) (je_hub_seq e) (je_job_id e) (je_session_id e)
    (je_source e) (je_agent e) (je_event e) (je_tool e) (je_target e) (je_exit_code e) (je_action e)
    (je_risk e) (je_description e) v (je_model e) (je_prompt e) (je_response_path e) (je_response_sha256 e)
    (je_response_bytes e) (je_response_preview e) (je_pipeline_id e) (je_stage_index e) (je_extra e).

Definition verdict_envelope (now : str) (v : Verdict) : JournalEnvelope :=
  let env := envelope_now ETHook now in
  let env := set_je_source (Some #"orkia-operator") env in
  let env := set_je_event (Some (vd_event_type v)) env in
  let env := set_je_job_id (Some (vd_job_id v)) env in
  let env := if is_empty (vd_agent v) then env else set_je_agent (Some (vd_agent v)) env in
  let env := set_je_message (Some (vd_reason v)) env in
  let env := extra_insert #"kind" (JStr (vd_kind v)) env in
  let env := extra_insert #"severity" (JStr (vd_severity v)) env in
  let env := extra_insert #"confidence" (json_f32 (vd_confidence v)) env in
  let env := extra_insert #"recommended_action" (JStr (vd_recommended_action v)) env in
  let env := extra_insert #"observed_action" (vd_observed_action v) env in
  let env := extra_insert #"source_refs" (JArr (vd_source_refs v)) env in
  match vd_rfc_id v with Some r => extra_insert #"rfc_id" (JStr r) env | None => env end.

(** The sinks: the router, and the journal when the actor has one. *)
Record Sinks := mkSinks { sk_router : EventRouter; sk_journal : option (list JournalEnvelope) }.

Definition emit_verdict (wall : N) (now : str) (v : Verdict) (k : Sinks) : Sinks :=
  mkSinks (on_custom_with_rfc wall (vd_job_id v) (vd_agent v) (vd_event_type v) (verdict_detail v) (vd_rfc_id v)
             (sk_router k))
          ((λ j, j ++ [verdict_envelope now v]) <$> sk_journal k).

Definition emit_all (wall : N) (now : str) (v : Verdict) (k : Sinks) : Sinks :=
  let k := emit_verdict wall now v k in
  match suggestion_for v with Some s => emit_verdict wall now s k | None => k end.

(** One turn of the actor. *)
Definition operator_step (srcs : Sources) (wall : N) (now : str) (e : OrkiaEvent)
    (gk : gmap N SessionState * Sinks) : gmap N SessionState * Sinks :=
  let '(vs, g) := evaluate srcs e gk.1 in
  (g, foldl (λ k v, emit_all wall now v k) gk.2 vs).

(** ** The reconciler *)

Record SealAnchor := mkAnchor { an_hash : str; an_seq : N }.
Record WriteAction := mkWrite { wa_tool : str; wa_target : str; wa_anchor : SealAnchor }.
Record ReconSession := mkRecon { rs_state : SessionState; rs_writes : list WriteAction; rs_real_job : N }.

Definition detail_str (k : str) (r : SealRecord) : str := default [] (jget k (sr_detail r) ≫= as_str).

(** One record of a chain. *)
Definition recon_record (acc : SessionState * list WriteAction) (r : SealRecord) : SessionState * list WriteAction :=
  let '(s, ws) := acc in
  if decide (sr_event_type r = #"hook.PreToolUse") then
    let tool := detail_str #"tool" r in
    let target := detail_str #"target" r in
    if is_empty target then acc
    else
      (mkSession (ss_agent s) (match ss_rfc_id s with Some i => Some i | None => sr_rfc_id r end)
                 (ss_constraints s) (ss_touched s ++ [target]) (missing_scope_reported s),
       if is_write_tool tool then ws ++ [mkWrite tool target (mkAnchor (sr_hash r) (sr_seq r))] else ws)
  else acc.

Definition recon_session (srcs : Sources) (agent : str) (job : N) (records : list SealRecord) : ReconSession :=
  let '(s, ws) := foldl recon_record (mkSession agent None None [] false, []) records in
  mkRecon (mkSession (ss_agent s) (ss_rfc_id s) (ss_rfc_id s ≫= load_constraints srcs) (ss_touched s)
                     (missing_scope_reported s)) ws job.

(** The chains that load, in the order they are listed, under keys of their own. *)
Definition build_recon_sessions (srcs : Sources) (chains : list (str * N * list SealRecord)) : gmap N ReconSession :=
  list_to_map (imap (λ i c, (N.of_nat (S i), recon_session srcs c.1.1 c.1.2 c.2)) chains).

Definition conflict_envelope (now : str) (actor_job : N) (actor : SessionState) (w : WriteAction)
    (h : CrossSessionHit) : JournalEnvelope :=
  let env := envelope_now ETHook now in
  let env := set_je_source (Some #"orkia-operator") env in
  let env := set_je_event (Some CONFLICT) env in
  let env := set_je_job_id (Some actor_job) env in
  let env := if is_empty (ss_agent actor) then env else set_je_agent (Some (ss_agent actor)) env in
  let env := set_je_message (Some (hit_reason h (wa_target w))) env in
  let env := extra_insert #"kind" (JStr #"cross_session_conflict") env in
  let env := extra_insert #"severity" (JStr #"warning") env in
  let env := extra_insert #"confidence" (json_f32 f32_one) env in
  let env := extra_insert #"recommended_action" (JStr #"notify_affected_session") env in
  let env := extra_insert #"observed_action" (hit_observed h (wa_tool w) (wa_target w)) env in
  let env := extra_insert #"source_refs" (JArr []) env in
  let env := extra_insert #"evidence"
               (json_obj [(#"seal_hash", JStr (an_hash (wa_anchor w)));
                          (#"seal_seq", JInt (Z.of_N (an_seq (wa_anchor w))))]) env in
  let env := extra_insert #"contract_surface" (JBool (contract h)) env in
  match ss_rfc_id actor with Some r => extra_insert #"rfc_id" (JStr r) env | None => env end.

(** A hit under the job number its agent uses. *)
Definition real_hit (sessions : gmap N ReconSession) (h : CrossSessionHit) : CrossSessionHit :=
  match sessions !! affected_job h with
  | Some r => mkHit (reason_tag h) (rs_real_job r) (affected_agent h) (affected_rfc h) (contract h)
  | None => h
  end.

Definition reconcile_cross_session (srcs : Sources) (now : str) (chains : list (str * N * list SealRecord))
  : list JournalEnvelope :=
  let sessions := build_recon_sessions srcs chains in
  let states := rs_state <$> sessions in
  map_to_list sessions ≫= (λ kr : N * ReconSession,
    rs_writes kr.2 ≫= (λ w,
      (λ h, conflict_envelope now (rs_real_job kr.2) (rs_state kr.2) w (real_hit sessions h))
        <$> cross_session_hits states kr.1 (wa_tool w) (wa_target w))).

(** ** What evaluation can report *)

(** The kinds of verdict an evaluation makes. *)
Definition reportable (v : Verdict) : Prop := vd_event_type v = DRIFT ∨ vd_event_type v = CONFLICT.

Lemma missing_scope_reportable e tool target g v g' :
  missing_scope_verdict e tool target g = (Some v, g') → reportable v ∧ vd_severity v = #"warning".
Proof. unfold missing_scope_verdict. repeat case_match; intros [= <- <-]; by split; [left|]. Qed.

Lemma hard_path_reportable e tool target g v : hard_path_verdict e tool target g = Some v → reportable v.
Proof.
  unfold hard_path_verdict. case_match; [done|]. intros (s & _ & Hb)%bind_Some.
  apply bind_Some in Hb as (c & _ & Hb). repeat case_match; simplify_eq; by left.
Qed.

Lemma semantic_reportable srcs e tool target summary g v :
  semantic_verdict srcs e tool target summary g = Some v → reportable v ∧ vd_severity v = #"warning".
Proof.
  unfold semantic_verdict. intros (r & _ & Hb)%bind_Some. apply bind_Some in Hb as (i & _ & Hb).
  case_match; simplify_eq. by split; [left|].
Qed.

Lemma cross_reportable e tool target g v :
  v ∈ cross_session_verdicts e tool target g → reportable v ∧ vd_severity v = #"warning".
Proof. unfold cross_session_verdicts. intros (h & -> & _)%list_elem_of_fmap. by split; [right|]. Qed.

Lemma elem_of_option_list {A} (x : A) o : x ∈ option_list o ↔ o = Some x.
Proof. destruct o as [y|]; simpl; [rewrite list_elem_of_singleton; naive_solver|set_solver]. Qed.

Lemma evaluate_reportable srcs e g v : v ∈ (evaluate srcs e g).1 → reportable v.
Proof.
  unfold evaluate. case_match; [simpl; set_solver|]. destruct (oe_event e); simpl; try set_solver.
  - unfold evaluate_tool. destruct (missing_scope_verdict _ _ _ _) as [m g1] eqn:Em. simpl.
    rewrite !elem_of_app, !elem_of_option_list. intros [->|[?|[?|?]]].
    + by apply missing_scope_reportable in Em as [? _].
    + by eapply hard_path_reportable.
    + by eapply semantic_reportable.
    + by eapply cross_reportable.
  - unfold evaluate_permission. destruct (missing_scope_verdict _ _ _ _) as [m g1] eqn:Em. simpl.
    rewrite elem_of_app, elem_of_option_list. intros [->|Hv].
    + by apply missing_scope_reportable in Em as [? _].
    + case_match; [|set_solver]. apply elem_of_app in Hv as [Hv|Hv].
      * unfold risk_verdict in Hv. repeat case_match; try set_solver.
        apply list_elem_of_singleton in Hv as ->. by left.
      * unfold command_verdict in Hv. case_match; [|set_solver].
        apply list_elem_of_singleton in Hv as ->. by left.
Qed.

(** ** No echo *)

(** An event the actor does not look at. *)
Definition unheard (srcs : Sources) (e : OrkiaEvent) : Prop := ∀ g, evaluate srcs e g = ([], g).

Lemma emit_verdict_unheard srcs wall now v k :
  vd_event_type v = DRIFT ∨ vd_event_type v = CONFLICT ∨ vd_event_type v = SUGGESTION →
  ∃ e, channel (sk_router (emit_verdict wall now v k)) = channel (sk_router k) ++ [e] ∧ unheard srcs e.
Proof.
  intros Hv. eexists. split; [done|]. intros g. unfold evaluate. simpl.
  by destruct Hv as [->|[->| ->]].
Qed.

Lemma emit_all_unheard srcs wall now v k :
  reportable v →
  ∃ es, channel (sk_router (emit_all wall now v k)) = channel (sk_router k) ++ es ∧
        1 ≤ length es ≤ 2 ∧ Forall (unheard srcs) es.
Proof.
  intros Hv. unfold emit_all.
  destruct (emit_verdict_unheard srcs wall now v k) as (e1 & E1 & U1); [by destruct Hv; auto|].
  destruct (suggestion_for v) as [s|] eqn:Es.
  - assert (vd_event_type s = SUGGESTION) as Ht.
    { unfold suggestion_for in Es. case_decide; [done|]. apply bind_Some in Es as (t & _ & Es).
      by injection Es as <-. }
    destruct (emit_verdict_unheard srcs wall now s (emit_verdict wall now v k)) as (e2 & E2 & U2); [by auto|].
    exists [e1; e2]. rewrite E2, E1, <- app_assoc. split; [done|]. split; [simpl; lia|]. by repeat constructor.
  - exists [e1]. split; [done|]. split; [simpl; lia|]. by repeat constructor.
Qed.

(** The operator does not hear itself. What it reports about an event goes back into
    the stream it reads, but each verdict adds at most two events, and none of them
    changes its state or makes it report anything. *)
Theorem operator_no_echo srcs wall now e g k :
  let n := length (evaluate srcs e g).1 in
  ∃ es, channel (sk_router (operator_step srcs wall now e (g, k)).2) = channel (sk_router k) ++ es ∧
        n ≤ length es ≤ 2 * n ∧ Forall (unheard srcs) es ∧
        ∀ wall' now' k', foldl (λ gk e, operator_step srcs wall' now' e gk)
                            ((operator_step srcs wall now e (g, k)).1, k') es
                         = ((operator_step srcs wall now e (g, k)).1, k').
Proof.
  unfold operator_step. cbn [fst snd]. pose proof (evaluate_reportable srcs e g) as Hv.
  destruct (evaluate srcs e g) as [vs g']. cbn [fst snd] in *.
  assert (∃ es, channel (sk_router (foldl (λ k v, emit_all wall now v k) k vs)) = channel (sk_router k) ++ es ∧
            length vs ≤ length es ≤ 2 * length vs ∧ Forall (unheard srcs) es) as (es & He & Hn & Hu).
  { clear g'. revert k. induction vs as [|v vs IH]; intros k; cbn [foldl].
    - exists []. rewrite app_nil_r. by split_and!; simpl; try lia.
    - destruct (emit_all_unheard srcs wall now v k) as (e1 & E1 & L1 & U1); [apply Hv; left|].
      destruct (IH ltac:(intros; apply Hv; by right) (emit_all wall now v k)) as (e2 & E2 & L2 & U2).
      exists (e1 ++ e2). rewrite E2, E1, <- app_assoc, length_app. simpl.
      split_and!; [done|lia|lia|by apply Forall_app_2]. }
  exists es. split_and!; [done|lia|lia|done|]. intros wall' now' k'. clear He Hn.
  induction Hu as [|x es Hx Hu IH]; [done|]. cbn [foldl]. by rewrite Hx.
Qed.

(** ** Forbidden paths *)

(** The constraints an event is judged by: those of its RFC, or the last ones seen. *)
Definition constraints_of (srcs : Sources) (e : OrkiaEvent) (g : gmap N SessionState) : option OperatorConstraints :=
  match oe_rfc_id e ≫= load_constraints srcs with
  | Some c => Some c
  | None => g !! oe_job_id e ≫= ss_constraints
  end.

Lemma refresh_constraints srcs e g :
  refresh_session srcs e g !! oe_job_id e ≫= ss_constraints = constraints_of srcs e g.
Proof.
  unfold refresh_session, constraints_of. rewrite lookup_insert_eq. simpl.
  destruct (oe_rfc_id e ≫= _); [done|]. by destruct (g !! oe_job_id e).
Qed.

Lemma missing_scope_constraints e tool target g :
  (missing_scope_verdict e tool target g).2 !! oe_job_id e ≫= ss_constraints
  = g !! oe_job_id e ≫= ss_constraints.
Proof.
  unfold missing_scope_verdict. repeat case_match; simpl; rewrite ?lookup_insert_eq; try done;
    by destruct (g !! oe_job_id e).
Qed.

Lemma touch_constraints t j (g : gmap N SessionState) :
  alter (touch t) j g !! j ≫= ss_constraints = g !! j ≫= ss_constraints.
Proof. rewrite lookup_alter_eq. by destruct (g !! j). Qed.

Lemma any_pattern_true ps v : any_pattern ps v = true ↔ ∃ p, p ∈ ps ∧ pattern_match p v = true.
Proof.
  unfold any_pattern. rewrite existsb_exists. split; intros (p & Hp & Hm); exists p; split; try done;
    by apply list_elem_of_In.
Qed.

Lemma hard_path_critical e tool target g c :
  g !! oe_job_id e ≫= ss_constraints = Some c →
  (∃ v, hard_path_verdict e tool target g = Some v ∧ vd_severity v = #"critical") ↔
  target ≠ [] ∧ any_pattern (oc_forbidden_paths c) target = true.
Proof.
  intros (s & Hs & Hc)%bind_Some. unfold hard_path_verdict. destruct target as [|x target]; cbn [is_empty].
  { split; [by intros (v & ? & _)|by intros [? _]]. }
  rewrite Hs. cbn [mbind option_bind]. rewrite Hc. cbn [mbind option_bind].
  destruct (any_pattern (oc_forbidden_paths c) _).
  - split; [done|]. intros _. eexists. by split.
  - split; [|by intros [_ ?]]. intros (v & H & Hv). exfalso. case_match; simplify_eq/=.
Qed.

(** A tool's use of a path is reported as critical exactly when a forbidden pattern of
    the RFC in force for the job matches the path. *)
Theorem forbidden_path_exact srcs e g tool target summary c :
  oe_event e = ToolUse tool (Some target) summary → constraints_of srcs e g = Some c →
  (∃ v, v ∈ (evaluate srcs e g).1 ∧ vd_severity v = #"critical") ↔
  target ≠ [] ∧ ∃ p, p ∈ oc_forbidden_paths c ∧ pattern_match p target = true.
Proof.
  intros He Hc. rewrite <- any_pattern_true. unfold evaluate. rewrite He. cbn [default].
  set (g0 := refresh_session srcs e g). assert (g0 !! oe_job_id e ≫= ss_constraints = Some c) as H0
    by (unfold g0; by rewrite refresh_constraints).
  unfold evaluate_tool. cbn [default from_option id].
  set (g1 := if is_empty target then g0 else alter (touch target) (oe_job_id e) g0).
  assert (g1 !! oe_job_id e ≫= ss_constraints = Some c) as H1
    by (unfold g1; case_match; [done|by rewrite touch_constraints]).
  destruct (missing_scope_verdict e tool target g1) as [m g2] eqn:Em.
  pose proof (missing_scope_constraints e tool target g1) as H2. rewrite Em, H1 in H2. cbn [snd] in H2.
  rewrite <- (hard_path_critical e tool target g2 c H2). cbn [fst]. split.
  - intros (v & Hv & Hs). rewrite !elem_of_app, !elem_of_option_list in Hv. destruct Hv as [->|[Hv|[Hv|Hv]]].
    + apply missing_scope_reportable in Em as [_ Hw]. by rewrite Hw in Hs.
    + by exists v.
    + apply semantic_reportable in Hv as [_ Hw]. by rewrite Hw in Hs.
    + apply cross_reportable in Hv as [_ Hw]. by rewrite Hw in Hs.
  - intros (v & Hv & Hs). exists v. split; [|done]. rewrite !elem_of_app, !elem_of_option_list. auto.
Qed.

Lemma forbidden_path_exact_witness :
  let srcs := mkSources [] (λ _ _, None) ∅ (λ _, None) None in
  let c := mkOperatorConstraints [] [ #"infra/*"] [] None [] [] in
  let g : gmap N SessionState := {[3%N := mkSession #"faye" None (Some c) [] true]} in
  let e t := mkEvent Internal (ToolUse #"Edit" (Some t) None) f32_one 0 3 #"faye" None in
  ((∃ v, v ∈ (evaluate srcs (e #"infra/prod.tf") g).1 ∧ vd_severity v = #"critical") ↔
   #"infra/prod.tf" ≠ [] ∧ ∃ p, p ∈ oc_forbidden_paths c ∧ pattern_match p #"infra/prod.tf" = true) ∧
  map vd_severity (evaluate srcs (e #"infra/prod.tf") g).1 = [ #"critical"] ∧
  (evaluate srcs (e #"src/lib.rs") g).1 = [].
Proof.
  cbv zeta. split; [|split; vm_compute; reflexivity].
  exact (forbidden_path_exact (mkSources [] (λ _ _, None) ∅ (λ _, None) None)
    (mkEvent Internal (ToolUse #"Edit" (Some #"infra/prod.tf") None) f32_one 0 3 #"faye" None)
    {[3%N := mkSession #"faye" None (Some (mkOperatorConstraints [] [ #"infra/*"] [] None [] [])) [] true]}
    #"Edit" #"infra/prod.tf" None (mkOperatorConstraints [] [ #"infra/*"] [] None [] [])
    eq_refl eq_refl).
Defined.

(** ** Conflicts *)

#[local] Instance by_job_total : Total by_job.
Proof. intros a b. unfold by_job. lia. Qed.
#[local] Instance by_job_trans : Transitive by_job.
Proof. intros a b c. unfold by_job. lia. Qed.

Lemma hit_for_job target j s h : hit_for target j s = Some h → affected_job h = j.
Proof.
  unfold hit_for. intros (c & _ & H)%bind_Some. apply bind_Some in H as (t & _ & H). by injection H as <-.
Qed.

Lemma hits_NoDup target actor (l : list (N * SessionState)) :
  NoDup l.*1 →
  NoDup (affected_job <$>
    omap (λ kv : N * SessionState, if decide (kv.1 = actor) then None else hit_for target kv.1 kv.2) l).
Proof.
  induction l as [|[j s] l IH]; intros Hn; [constructor|]. apply NoDup_cons in Hn as [Hj Hn].
  specialize (IH Hn). cbn [omap list_omap fst snd]. case_decide; [done|].
  destruct (hit_for target j s) as [h|] eqn:Eh; [|done].
  apply NoDup_cons. split; [|done]. apply hit_for_job in Eh as ->. contradict Hj.
  apply list_elem_of_fmap in Hj as (h' & -> & ([k sk] & Hk & Eh')%list_elem_of_omap).
  cbn [fst snd] in Eh'. case_decide; [done|]. apply hit_for_job in Eh' as ->.
  apply list_elem_of_fmap. by exists (k, sk).
Qed.

Lemma elem_of_cross_session_hits sessions actor tool target h :
  h ∈ cross_session_hits sessions actor tool target ↔
  target ≠ [] ∧ is_write_tool tool = true ∧
  ∃ j s, sessions !! j = Some s ∧ j ≠ actor ∧ hit_for target j s = Some h.
Proof.
  unfold cross_session_hits. destruct target as [|x target]; cbn [is_empty orb].
  { split; [set_solver|by intros [? _]]. }
  destruct (is_write_tool tool); cbn [negb]; [|split; [set_solver|by intros (_ & ? & _)]].
  rewrite merge_sort_Permutation, list_elem_of_omap. split.
  - intros ([j s] & Hk & Hh). apply elem_of_map_to_list in Hk. simpl in Hh. case_decide; [done|]. eauto 10.
  - intros (_ & _ & j & s & Hj & Hne & Hh). exists (j, s). split; [by apply elem_of_map_to_list|].
    simpl. by rewrite decide_False.
Qed.

(** The conflicts reported for a write are those of the other sessions it concerns, all
    of them, each once, in the order of their jobs. *)
Theorem conflicts_exact sessions actor tool target :
  let hits := cross_session_hits sessions actor tool target in
  (∀ h, h ∈ hits ↔ target ≠ [] ∧ is_write_tool tool = true ∧
     ∃ j s, sessions !! j = Some s ∧ j ≠ actor ∧ hit_for target j s = Some h) ∧
  NoDup (affected_job <$> hits) ∧ StronglySorted by_job hits.
Proof.
  cbv zeta. split; [intros h; apply elem_of_cross_session_hits|].
  unfold cross_session_hits. destruct (_ || _); [split; constructor|]. split.
  - rewrite merge_sort_Permutation. apply hits_NoDup, NoDup_fst_map_to_list.
  - apply StronglySorted_merge_sort; apply _.
Qed.

(** *** The reconciler *)

(** The write a record of a chain stands for. *)
Definition write_of (r : SealRecord) : option WriteAction :=
  let tool := detail_str #"tool" r in
  let target := detail_str #"target" r in
  if bool_decide (sr_event_type r = #"hook.PreToolUse") && negb (is_empty target) && is_write_tool tool
  then Some (mkWrite tool target (mkAnchor (sr_hash r) (sr_seq r)))
  else None.

Lemma recon_writes records s ws :
  (foldl recon_record (s, ws) records).2 = ws ++ omap write_of records.
Proof.
  revert s ws. induction records as [|r records IH]; intros s ws; [by rewrite app_nil_r|].
  cbn [foldl omap list_omap]. unfold recon_record at 2, write_of at 1.
  destruct (decide (sr_event_type r = _)) as [E|E].
  - rewrite bool_decide_eq_true_2 by done. destruct (is_empty (detail_str #"target" r)); cbn [andb negb].
    { apply IH. }
    destruct (is_write_tool _); rewrite IH; [by rewrite <- app_assoc|done].
  - rewrite bool_decide_eq_false_2 by done. apply IH.
Qed.

Lemma recon_session_writes srcs a j records : rs_writes (recon_session srcs a j records) = omap write_of records.
Proof.
  unfold recon_session. pose proof (recon_writes records (mkSession a None None [] false) []) as E.
  destruct (foldl _ _ _) as [s ws]. exact E.
Qed.

Lemma recon_session_job srcs a j records : rs_real_job (recon_session srcs a j records) = j.
Proof. unfold recon_session. by destruct (foldl _ _ _). Qed.

Lemma write_of_spec r w : write_of r = Some w → wa_target w ≠ [] ∧ is_write_tool (wa_tool w) = true.
Proof.
  unfold write_of. destruct (_ && _) eqn:E; [|done]. intros [= <-].
  apply andb_true_iff in E as [E ?]. apply andb_true_iff in E as [_ E]. simpl. split; [|done].
  by destruct (detail_str _ r).
Qed.

Lemma recon_lookup srcs chains k x :
  build_recon_sessions srcs chains !! k = Some x ↔
  ∃ i c, k = N.of_nat (S i) ∧ chains !! i = Some c ∧ x = recon_session srcs c.1.1 c.1.2 c.2.
Proof.
  unfold build_recon_sessions. rewrite <- elem_of_list_to_map.
  - rewrite elem_of_lookup_imap. naive_solver.
  - rewrite fmap_imap. apply NoDup_alt. intros i j y. rewrite !list_lookup_imap.
    intros (ci & Hi & Ei)%fmap_Some (cj & Hj & Ej)%fmap_Some. simpl in *. lia.
Qed.

(** Reconciliation reports exactly the conflicts of the sealed chains: an envelope for
    each write record of a chain and each other chain whose session it concerns, anchored
    to the hash and number of that record. *)
Theorem reconcile_exact srcs now chains env :
  let session c := recon_session srcs c.1.1 c.1.2 c.2 in
  env ∈ reconcile_cross_session srcs now chains ↔
  ∃ i j ci cj r w h, i ≠ j ∧ chains !! i = Some ci ∧ chains !! j = Some cj ∧ r ∈ ci.2 ∧ write_of r = Some w ∧
    hit_for (wa_target w) (N.of_nat (S j)) (rs_state (session cj)) = Some h ∧
    env = conflict_envelope now ci.1.2 (rs_state (session ci)) w
            (mkHit (reason_tag h) cj.1.2 (affected_agent h) (affected_rfc h) (contract h)).
Proof.
  cbv zeta. unfold reconcile_cross_session. rewrite list_elem_of_bind. split.
  - intros ([k rs] & Henv & Hk). apply elem_of_map_to_list, recon_lookup in Hk as (i & ci & -> & Hi & ->).
    cbn [fst snd] in Henv. apply list_elem_of_bind in Henv as (w & Henv & Hw).
    apply list_elem_of_fmap in Henv as (h & -> & Hh). rewrite recon_session_writes in Hw.
    apply list_elem_of_omap in Hw as (r & Hr & Hw).
    apply elem_of_cross_session_hits in Hh as (_ & _ & k & s & Hs & Hne & Hh).
    rewrite lookup_fmap in Hs. apply fmap_Some in Hs as (x & Hx & ->). pose proof Hx as Hx'.
    apply recon_lookup in Hx as (j & cj & -> & Hj & ->).
    exists i, j, ci, cj, r, w, h. split_and!; try done; [congruence|].
    unfold real_hit. rewrite (hit_for_job _ _ _ _ Hh), Hx'. by rewrite !recon_session_job.
  - intros (i & j & ci & cj & r & w & h & Hij & Hi & Hj & Hr & Hw & Hh & ->).
    exists (N.of_nat (S i), recon_session srcs ci.1.1 ci.1.2 ci.2). split.
    2: { apply elem_of_map_to_list, recon_lookup. by exists i, ci. }
    cbn [fst snd]. apply list_elem_of_bind. exists w. rewrite recon_session_writes. split.
    2: { apply list_elem_of_omap. by exists r. }
    assert (build_recon_sessions srcs chains !! N.of_nat (S j) = Some (recon_session srcs cj.1.1 cj.1.2 cj.2)) as Hx
      by (apply recon_lookup; by exists j, cj).
    apply list_elem_of_fmap. exists h. split.
    { unfold real_hit. rewrite (hit_for_job _ _ _ _ Hh), Hx. by rewrite !recon_session_job. }
    apply write_of_spec in Hw as [Ht Hw]. apply elem_of_cross_session_hits. split_and!; [done|done|].
    exists (N.of_nat (S j)), (rs_state (recon_session srcs cj.1.1 cj.1.2 cj.2)).
    rewrite lookup_fmap, Hx. split_and!; [done|lia|done].
Qed.
