(* ===== verification/CageProfile.v ===== *)
(** * CageProfile: the sandbox profile of a caged agent on macOS

    [bins/orkia-cage/src/sbpl.rs], the macOS half of [bins/orkia-cage/src/lib.rs] and
    the provider names of [crates/orkia-shell-types/src/provider.rs]: the paths an
    agent is given, the text of the Seatbelt profile built from them, and the command
    that starts the agent under it.

    A [PathBuf] is its text here, since the text is what the profile is made of. What
    the launcher asks of the machine (environment, working directory, existing files,
    resolved links) is the record [Machine]. The profile is read back by a reader for
    its syntax and judged as the comments of [sbpl.rs] describe Seatbelt: of the rules
    that apply to an access the last one decides. *)

From Stdlib Require Import NArith ZArith Lia.
From stdpp Require Import base gmap strings option numbers list list_basics.
From S2P Require Import Prelude Text Policy.

(** ** Providers *)

Inductive ProviderId := Claude | Codex | Gemini | Kimi | Generic.

#[export] Instance ProviderId_eq_dec : EqDecision ProviderId.
Proof. solve_decision. Defined.

Definition provider_parse (s : str) : ProviderId :=
  let s := to_ascii_lowercase (trim s) in
  if decide (s = #"claude") then Claude else if decide (s = #"codex") then Codex
  else if decide (s = #"gemini") then Gemini else if decide (s = #"kimi") then Kimi else Generic.

(** What follows the last separator. *)
Definition basename (s : str) : str :=
  foldl (λ cur c, if bool_decide (c = chr_slash) || bool_decide (c = chr_backslash) then [] else cur ++ [c]) [] s.

Definition from_command (command : str) : ProviderId := provider_parse (basename (trim command)).

(** ** The machine *)

Record Machine := mkMachine {
  vars : gmap str str;
  cwd : option str;
  canonicalize : str → option str;
  is_file : str → bool;
  exists_at : str → bool;
  uid : N;
  own_exe_dir : option str;
}.

Definition var (m : Machine) (name : str) : option str := vars m !! name.

(** [PathBuf::join], on texts. *)
Definition pb_join (base rel : str) : str :=
  if starts_with [chr_slash] rel then rel
  else if is_empty base || ends_with [chr_slash] base then base ++ rel
  else base ++ [chr_slash] ++ rel.

(** ** The profile *)

Record ProfileSpec := mkProfile {
  log_tag : str;
  ps_workspace : str;
  ps_workspace_read : bool;
  ps_workspace_write : bool;
  ps_read_only : list str;
  ps_read_write : list str;
  ps_deny_write : list str;
  ps_deny_exec : list str;
}.

Definition escape_char (c : char) : str :=
  if decide (c = chr_dquote) then [chr_backslash; chr_dquote]
  else if decide (c = chr_backslash) then [chr_backslash; chr_backslash]
  else [c].

Definition escape_sbpl (s : str) : str := [chr_dquote] ++ (s ≫= escape_char) ++ [chr_dquote].

Definition mandatory_workspace_denies (workspace : str) : list str :=
  map (pb_join workspace) [ #".git/hooks"; #".git/config"; #".env"; #".mcp.json"].

(** A text between double quotes, as the source writes it. *)
Definition quoted (s : str) : str := [chr_dquote] ++ s ++ [chr_dquote].

Definition PREAMBLE_RULES : list str :=
  [ #"(allow process-fork)"; #"(allow process-exec)"; #"(allow process-info* (target same-sandbox))";
    #"(allow signal (target same-sandbox))"; #"(allow mach-priv-task-port (target same-sandbox))";
    #"(allow sysctl-read)"; #"(allow ipc-posix-shm)"; #"(allow ipc-posix-sem)";
    #"(allow user-preference-read)"; #"(allow network*)"; #"(allow system-socket)"].

Definition MACH_NAMES : list str :=
  [ #"com.apple.system.logger"; #"com.apple.system.notification_center"; #"com.apple.logd";
    #"com.apple.lsd.mapdb"; #"com.apple.SecurityServer"; #"com.apple.CoreServices.coreservicesd";
    #"com.apple.dnssd.service"; #"com.apple.coreservices.launchservicesd"].

Definition DEVICES : list str :=
  [ #"/dev/null"; #"/dev/zero"; #"/dev/random"; #"/dev/urandom"; #"/dev/tty"].

Definition TTY_REGEX : str := #"^/dev/ttys[0-9]+$".

Definition DEVICE_OPS : str := #"(allow file-read* file-write-data file-ioctl ".

Definition emit_preamble (tag with_msg : str) : list str :=
  [ #"(version 1)"; #"(deny default " ++ with_msg ++ #")";
    #"; orkia-cage SBPL " ++ [8212%N] ++ #" tag " ++ tag]
  ++ PREAMBLE_RULES
  ++ [ #"(allow mach-lookup"]
  ++ map (λ name, #"  (global-name " ++ escape_sbpl name ++ #")") MACH_NAMES
  ++ [ #"  )"]
  ++ map (λ dev, DEVICE_OPS ++ #"(literal " ++ escape_sbpl dev ++ #"))") DEVICES
  ++ [DEVICE_OPS ++ #"(regex #" ++ quoted TTY_REGEX ++ #"))";
      DEVICE_OPS ++ #"(subpath " ++ quoted #"/dev/fd" ++ #"))"].

Definition RUNTIME_READ_ROOTS : list str :=
  [ #"/usr/lib"; #"/usr/share"; #"/Library/Developer"; #"/opt/homebrew"; #"/usr/local"].

Definition allow_read (p : str) : str := #"(allow file-read* (subpath " ++ escape_sbpl p ++ #"))".
Definition allow_write (p : str) : str := #"(allow file-write* (subpath " ++ escape_sbpl p ++ #"))".

Definition emit_read_rules (spec : ProfileSpec) : list str :=
  [ #"(allow file-read* (literal " ++ quoted #"/" ++ #"))";
    #"(allow file-read-metadata (vnode-type DIRECTORY))";
    #"(allow file-read-metadata (vnode-type SYMLINK))"]
  ++ map allow_read RUNTIME_READ_ROOTS
  ++ [ #"(allow file-read* (literal " ++ quoted #"/var/db/xcode_select_link" ++ #"))"]
  ++ map allow_read ((if ps_workspace_read spec then [ps_workspace spec] else []) ++ ps_read_only spec).

Definition emit_write_rules (spec : ProfileSpec) (with_msg : str) : list str :=
  (if ps_workspace_read spec && ps_workspace_write spec then [allow_write (ps_workspace spec)] else [])
  ++ (ps_read_write spec ≫= (λ rw, [allow_read rw; allow_write rw]))
  ++ map (λ p, #"(deny file-write* (subpath " ++ escape_sbpl p ++ #") " ++ with_msg ++ #")") (ps_deny_write spec)
  ++ map (λ b, #"(deny process-exec* (literal " ++ escape_sbpl b ++ #") " ++ with_msg ++ #")") (ps_deny_exec spec).

Definition build_profile (spec : ProfileSpec) : str :=
  let with_msg := #"(with message " ++ escape_sbpl (log_tag spec) ++ #")" in
  join [chr_nl] (emit_preamble (log_tag spec) with_msg ++ emit_read_rules spec ++ emit_write_rules spec with_msg).

(** ** What an agent is given *)

Definition corpus_for_agent (program : str) (home : option str) : list str * list str :=
  match home with
  | None => ([], [])
  | Some h =>
      match from_command program with
      | Claude => ([], map (pb_join h) [ #".claude"; #".claude.json"; #".mcp.json"; #".config/claude";
                                         #".local/state/claude"; #".local/share/claude"; #".cache/claude"])
      | Codex => ([], map (pb_join h) [ #".codex"; #".cache/codex"])
      | Gemini => ([], map (pb_join h) [ #".gemini"; #".cache/gemini"])
      | Kimi | Generic => ([], [])
      end
  end.

Section machine.
Context (m : Machine).

Definition resolve_workspace (root : str) : option str :=
  abs ← (if starts_with [chr_slash] root then Some root else (λ d, pb_join d root) <$> cwd m);
  Some (default abs (canonicalize m abs)).

Definition which (name : str) : option str :=
  if bool_decide (chr_slash ∈ name) then (if exists_at m name then Some name else None)
  else p ← var m #"PATH"; List.find (is_file m) (map (λ d, pb_join d name) (split_char 58%N p)).

(** The path and, first, what it resolves to. *)
Definition deny_exec_paths (c : Capability) : list str :=
  if negb (bool_decide (cap_verdict c = Deny)) || bool_decide (chr_dot ∈ cap_name c) then []
  else match which (cap_name c) with
       | None => []
       | Some p => match canonicalize m p with
                   | Some r => if bool_decide (r ≠ p) then [r; p] else [p]
                   | None => [p]
                   end
       end.

Definition derive_deny_exec (policy : Policy) : list str := capabilities policy ≫= deny_exec_paths.

Definition log_tag_of : str :=
  match var m #"ORKIA_JOB_ID" with
  | Some id => #"orkia-job-" ++ id
  | None => match var m #"ORKIA_AGENT_NAME" with
            | Some name => #"orkia-agent-" ++ name
            | None => #"orkia-cage"
            end
  end.

Definition SYSTEM_READ : list str :=
  [ #"/private/etc/hosts"; #"/private/etc/resolv.conf"; #"/private/etc/ssl"; #"/private/var/db/timezone";
    #"/usr/lib"; #"/usr/share"; #"/System/Library"].

Definition BINARY_DIRS : list str :=
  [ #"/bin"; #"/sbin"; #"/usr/bin"; #"/usr/sbin"; #"/opt/homebrew/bin"; #"/opt/homebrew/sbin"; #"/usr/local/bin"].

Definition home_read (h : str) : list str :=
  map (pb_join h) [ #"Library/Keychains"; #".gitconfig"; #".config/git"; #".local/bin"].

Definition home_write (h : str) : list str :=
  map (pb_join h) [ #".skills"; #".agents"; #"Library/Caches"]
  ++ [default (pb_join h #".orkia/run/orkia.sock") (var m #"ORKIA_SOCKET_PATH")].

Definition SENSITIVE : list str := [ #".ssh"; #".aws"; #".config/gcloud"; #".gnupg"].

Definition claude_scratch (program : str) : list str :=
  if decide (from_command program = Claude)
  then [ #"/tmp/claude-" ++ fmt_dec (uid m); #"/private/tmp/claude-" ++ fmt_dec (uid m)]
  else [].

Definition build_profile_spec (program : str) (policy : Policy) : option ProfileSpec :=
  workspace ← resolve_workspace (ws_root (workspace policy));
  let home := var m #"HOME" in
  let corpus := corpus_for_agent program home in
  Some (mkProfile log_tag_of workspace (cc_read (caps policy)) (cc_write (caps policy))
    (corpus.1 ++ SYSTEM_READ ++ BINARY_DIRS ++ match home with Some h => home_read h | None => [] end)
    (corpus.2 ++ match home with Some h => home_write h | None => [] end
       ++ option_list (var m #"TMPDIR") ++ claude_scratch program)
    (mandatory_workspace_denies workspace
       ++ match home with Some h => map (pb_join h) SENSITIVE | None => [] end)
    (derive_deny_exec policy)).

(** *** The environment and the command *)

Definition EXACT : list str :=
  [ #"HOME"; #"PATH"; #"USER"; #"LOGNAME"; #"SHELL"; #"TMPDIR"; #"TERM"; #"COLORTERM"; #"TERM_PROGRAM";
    #"TERM_PROGRAM_VERSION"; #"LANG"; #"TZ"; #"SSH_AUTH_SOCK"; #"NODE_EXTRA_CA_CERTS"; #"GIT_SSL_CAINFO"].

Definition PREFIX : list str :=
  [ #"ORKIA_"; #"ANTHROPIC_"; #"CLAUDE_"; #"LC_"; #"GEMINI_"; #"OPENAI_"; #"CODEX_"].

Definition env_allowed (k : str) : bool := bool_decide (k ∈ EXACT) || existsb (λ p, starts_with p k) PREFIX.

Definition allowed_env : gmap str str := filter (λ kv, env_allowed kv.1 = true) (vars m).

Definition orkia_sh_path : option str :=
  let sibling := d ← own_exe_dir m;
                 let p := pb_join d #"orkia-sh" in if is_file m p then Some p else None in
  match var m #"ORKIA_SH_BIN" with
  | Some p => if is_file m p then Some p else sibling
  | None => sibling
  end.

(** [Path::parent], on texts: what precedes the last separators, or the root. *)
Fixpoint strip_slashes (rev : str) : str :=
  match rev with c :: up => if decide (c = chr_slash) then strip_slashes up else rev | [] => [] end.

Fixpoint strip_name (rev : str) : str :=
  match rev with c :: up => if decide (c = chr_slash) then rev else strip_name up | [] => [] end.

Definition parent_text (p : str) : str :=
  let up := strip_name (reverse p) in
  if negb (is_empty up) && is_empty (strip_slashes up) then [chr_slash] else reverse (strip_slashes up).

Definition apply_advisory_shell (env : gmap str str) : gmap str str :=
  match orkia_sh_path with
  | None => env
  | Some sh => <[ #"PATH" := parent_text sh ++ #":" ++ default [] (var m #"PATH")]> (<[ #"SHELL" := sh]> env)
  end.

Record Command := mkCommand { cmd_program : str; cmd_args : list str; cmd_env : gmap str str }.

(** How a launch ends: the profile is printed, the process is replaced, or neither. *)
Inductive MacLaunch := Printed (profile : str) | Replaced (c : Command) | NotLaunched.

Definition launch_macos (program : str) (args : list str) (policy : Policy) (policy_path : str) : MacLaunch :=
  match build_profile_spec program policy with
  | None => NotLaunched
  | Some spec =>
      let profile := build_profile spec in
      if bool_decide (is_Some (var m #"ORKIA_CAGE_DEBUG_PROFILE")) then Printed profile
      else Replaced (mkCommand #"/usr/bin/sandbox-exec" ([ #"-p"; profile; program] ++ args)
                       (<[ #"ORKIA_CAGE_POLICY" := policy_path]> (apply_advisory_shell allowed_env)))
  end.
End machine.

(** ** Reading a profile *)

Inductive token := TOpen | TClose | TAtom (s : str) | TStr (s : str) | TRegex (s : str).

(** Where the reader is: between tokens or in an atom, in a string, after a backslash
    in one, after a hash sign, in a regular expression, in a comment. *)
Inductive mode := MPlain (cur : str) | MStr (acc : str) | MEsc (acc : str) | MHash | MRegex (acc : str) | MComment.

Definition atom (cur : str) : list token := if is_empty cur then [] else [TAtom cur].

Definition is_blank (c : char) : bool := bool_decide (c ∈ [chr_space; chr_nl; chr_cr; 9%N]).

Definition lex_step (k : mode) (c : char) : option (mode * list token) :=
  match k with
  | MPlain cur =>
      if is_blank c then Some (MPlain [], atom cur)
      else if decide (c = 40%N) then Some (MPlain [], atom cur ++ [TOpen])
      else if decide (c = 41%N) then Some (MPlain [], atom cur ++ [TClose])
      else if decide (c = chr_semi) then Some (MComment, atom cur)
      else if is_empty cur then
        if decide (c = chr_dquote) then Some (MStr [], [])
        else if decide (c = 35%N) then Some (MHash, [])
        else Some (MPlain [c], [])
      else if decide (c = chr_dquote) then None
      else Some (MPlain (cur ++ [c]), [])
  | MStr acc =>
      if decide (c = chr_dquote) then Some (MPlain [], [TStr acc])
      else if decide (c = chr_backslash) then Some (MEsc acc, [])
      else Some (MStr (acc ++ [c]), [])
  | MEsc acc =>
      if decide (c = chr_dquote) then Some (MStr (acc ++ [chr_dquote]), [])
      else if decide (c = chr_backslash) then Some (MStr (acc ++ [chr_backslash]), [])
      else None
  | MHash => if decide (c = chr_dquote) then Some (MRegex [], []) else None
  | MRegex acc =>
      if decide (c = chr_dquote) then Some (MPlain [], [TRegex acc]) else Some (MRegex (acc ++ [c]), [])
  | MComment => if decide (c = chr_nl) then Some (MPlain [], []) else Some (MComment, [])
  end.

Fixpoint lex (k : mode) (s : str) : option (mode * list token) :=
  match s with
  | [] => Some (k, [])
  | c :: s => '(k1, t1) ← lex_step k c; '(k2, t2) ← lex k1 s; Some (k2, t1 ++ t2)
  end.

Definition tokens (s : str) : option (list token) :=
  '(k, ts) ← lex (MPlain []) s;
  match k with
  | MPlain cur => Some (ts ++ atom cur)
  | MComment => Some ts
  | _ => None
  end.

Inductive sx := SAtom (s : str) | SStr (s : str) | SRegex (s : str) | SList (l : list sx).

(** The lists still open, innermost first. *)
Fixpoint parse (stack : list (list sx)) (ts : list token) : option (list sx) :=
  match ts, stack with
  | [], [top] => Some top
  | TOpen :: ts, _ => parse ([] :: stack) ts
  | TClose :: ts, l :: top :: stack => parse ((top ++ [SList l]) :: stack) ts
  | TAtom s :: ts, top :: stack => parse ((top ++ [SAtom s]) :: stack) ts
  | TStr s :: ts, top :: stack => parse ((top ++ [SStr s]) :: stack) ts
  | TRegex s :: ts, top :: stack => parse ((top ++ [SRegex s]) :: stack) ts
  | _, _ => None
  end.

Definition read_profile (s : str) : option (list sx) := tokens s ≫= parse [[]].

(** ** The rules of a profile *)

Definition verb_path (verb op filter p : str) (msg : list sx) : sx :=
  SList ([SAtom verb; SAtom op; SList [SAtom filter; SStr p]] ++ msg).

Definition message (tag : str) : sx := SList [SAtom #"with"; SAtom #"message"; SStr tag].

Definition bare (verb op : str) : sx := SList [SAtom verb; SAtom op].
Definition same_sandbox (op : str) : sx :=
  SList [SAtom #"allow"; SAtom op; SList [SAtom #"target"; SAtom #"same-sandbox"]].
Definition device (filter : sx) : sx :=
  SList [SAtom #"allow"; SAtom #"file-read*"; SAtom #"file-write-data"; SAtom #"file-ioctl"; filter].
Definition metadata (kind : str) : sx :=
  SList [SAtom #"allow"; SAtom #"file-read-metadata"; SList [SAtom #"vnode-type"; SAtom kind]].

Definition header_rules (tag : str) : list sx :=
  [bare #"version" #"1"; SList [SAtom #"deny"; SAtom #"default"; message tag]].

Definition preamble_rules : list sx :=
  [bare #"allow" #"process-fork"; bare #"allow" #"process-exec"; same_sandbox #"process-info*";
   same_sandbox #"signal"; same_sandbox #"mach-priv-task-port"; bare #"allow" #"sysctl-read";
   bare #"allow" #"ipc-posix-shm"; bare #"allow" #"ipc-posix-sem"; bare #"allow" #"user-preference-read";
   bare #"allow" #"network*"; bare #"allow" #"system-socket";
   SList ([SAtom #"allow"; SAtom #"mach-lookup"] ++ map (λ n, SList [SAtom #"global-name"; SStr n]) MACH_NAMES)]
  ++ map (λ d, device (SList [SAtom #"literal"; SStr d])) DEVICES
  ++ [device (SList [SAtom #"regex"; SRegex TTY_REGEX]); device (SList [SAtom #"subpath"; SStr #"/dev/fd"])].

Definition may_read (p : str) : sx := verb_path #"allow" #"file-read*" #"subpath" p [].
Definition may_write (p : str) : sx := verb_path #"allow" #"file-write*" #"subpath" p [].

Definition read_rules (spec : ProfileSpec) : list sx :=
  [verb_path #"allow" #"file-read*" #"literal" #"/" []; metadata #"DIRECTORY"; metadata #"SYMLINK"]
  ++ map may_read RUNTIME_READ_ROOTS
  ++ [verb_path #"allow" #"file-read*" #"literal" #"/var/db/xcode_select_link" []]
  ++ map may_read ((if ps_workspace_read spec then [ps_workspace spec] else []) ++ ps_read_only spec).

Definition write_rules (spec : ProfileSpec) : list sx :=
  (if ps_workspace_read spec && ps_workspace_write spec then [may_write (ps_workspace spec)] else [])
  ++ (ps_read_write spec ≫= (λ rw, [may_read rw; may_write rw]))
  ++ map (λ p, verb_path #"deny" #"file-write*" #"subpath" p [message (log_tag spec)]) (ps_deny_write spec)
  ++ map (λ b, verb_path #"deny" #"process-exec*" #"literal" b [message (log_tag spec)]) (ps_deny_exec spec).

Definition profile_rules (spec : ProfileSpec) : list sx :=
  header_rules (log_tag spec) ++ preamble_rules ++ read_rules spec ++ write_rules spec.

(** ** The text is the rules *)

Section sx_ind.
Context (P : sx → Prop).
Hypothesis (Ha : ∀ s, P (SAtom s)) (Hs : ∀ s, P (SStr s)) (Hr : ∀ s, P (SRegex s)).
Hypothesis (Hl : ∀ l, Forall P l → P (SList l)).

Fixpoint sx_ind' (x : sx) : P x :=
  match x with
  | SAtom s => Ha s
  | SStr s => Hs s
  | SRegex s => Hr s
  | SList l => Hl l ((fix go l : Forall P l :=
                        match l with [] => Forall_nil_2 _ | x :: l => Forall_cons_2 _ _ _ (sx_ind' x) (go l) end) l)
  end.
End sx_ind.

Fixpoint flatten (x : sx) : list token :=
  match x with
  | SAtom s => [TAtom s]
  | SStr s => [TStr s]
  | SRegex s => [TRegex s]
  | SList l => TOpen :: foldr (λ x ts, flatten x ++ ts) [TClose] l
  end.

Definition flatten_all (l : list sx) : list token := l ≫= flatten.

Lemma flatten_list l : flatten (SList l) = TOpen :: flatten_all l ++ [TClose].
Proof.
  cbn [flatten]. f_equal. unfold flatten_all. induction l as [|x l IH]; [done|].
  cbn [foldr mbind list_bind]. by rewrite IH, <- app_assoc.
Qed.

Lemma flatten_all_app a b : flatten_all (a ++ b) = flatten_all a ++ flatten_all b.
Proof. apply bind_app. Qed.

Lemma parse_flatten_all l top stack ts :
  Forall (λ x, ∀ top stack ts, parse (top :: stack) (flatten x ++ ts) = parse ((top ++ [x]) :: stack) ts) l →
  parse (top :: stack) (flatten_all l ++ ts) = parse ((top ++ l) :: stack) ts.
Proof.
  intros Hl. revert top. induction Hl as [|x l Hx Hl IH]; intros top; [by rewrite app_nil_r|].
  unfold flatten_all. cbn [mbind list_bind]. rewrite <- app_assoc, Hx. fold (flatten_all l).
  rewrite IH, <- app_assoc. done.
Qed.

Lemma parse_flatten x top stack ts :
  parse (top :: stack) (flatten x ++ ts) = parse ((top ++ [x]) :: stack) ts.
Proof.
  revert top stack ts. induction x as [s|s|s|l Hl] using sx_ind'; intros; try done.
  rewrite flatten_list, <- app_comm_cons, <- app_assoc. cbn [parse].
  rewrite (parse_flatten_all l [] (top :: stack) _ Hl). done.
Qed.

Lemma parse_rules l : parse [[]] (flatten_all l) = Some l.
Proof.
  rewrite <- (app_nil_r (flatten_all l)), parse_flatten_all; [done|].
  apply list.Forall_forall. intros. apply parse_flatten.
Qed.

Lemma lex_app k a b : lex k (a ++ b) = ('(k1, t1) ← lex k a; '(k2, t2) ← lex k1 b; Some (k2, t1 ++ t2)).
Proof.
  revert k. induction a as [|c a IH]; intros k; cbn [app lex mbind option_bind].
  { by destruct (lex k b) as [[]|]. }
  destruct (lex_step k c) as [[k1 t1]|]; cbn [mbind option_bind]; [|done]. rewrite IH.
  destruct (lex k1 a) as [[k2 t2]|]; cbn [mbind option_bind]; [|done].
  destruct (lex k2 b) as [[k3 t3]|]; cbn [mbind option_bind]; [|done]. by rewrite <- app_assoc.
Qed.

Lemma lex_cat k a b k1 t1 k2 t2 :
  lex k a = Some (k1, t1) → lex k1 b = Some (k2, t2) → lex k (a ++ b) = Some (k2, t1 ++ t2).
Proof. intros Ha Hb. rewrite lex_app, Ha. cbn [mbind option_bind]. by rewrite Hb. Qed.

Lemma lex_chars acc s : lex (MStr acc) (s ≫= escape_char) = Some (MStr (acc ++ s), []).
Proof.
  revert acc. induction s as [|c s IH]; intros acc; [by rewrite app_nil_r|].
  cbn [mbind list_bind]. eapply (lex_cat _ _ _ (MStr (acc ++ [c])) []).
  2: { fold (mbind escape_char s). rewrite IH, <- app_assoc. done. }
  unfold escape_char. destruct (decide (c = chr_dquote)) as [->|Hq]; [done|].
  destruct (decide (c = chr_backslash)) as [->|Hb]; [done|]. cbn [lex lex_step].
  by rewrite !decide_False.
Qed.

Lemma lex_escaped s : lex (MPlain []) (escape_sbpl s) = Some (MPlain [], [TStr s]).
Proof.
  unfold escape_sbpl. eapply (lex_cat _ _ _ (MStr []) [] _ [TStr s]); [done|].
  eapply (lex_cat _ _ _ (MStr s) [] _ [TStr s]); [apply (lex_chars [])|]. done.
Qed.

(** A line that reads as some tokens, whatever follows it. *)
Definition reads (line : str) (ts : list token) : Prop := lex (MPlain []) (line ++ [chr_nl]) = Some (MPlain [], ts).

Lemma reads_around a k1 t1 s b t2 :
  lex (MPlain []) a = Some (k1, t1) → k1 = MPlain [] → lex (MPlain []) (b ++ [chr_nl]) = Some (MPlain [], t2) →
  reads (a ++ escape_sbpl s ++ b) (t1 ++ [TStr s] ++ t2).
Proof.
  intros Ha -> Hb. unfold reads. rewrite <- !app_assoc. eapply lex_cat; [done|]. eapply lex_cat; [|done].
  apply lex_escaped.
Qed.

Lemma reads_rest a t1 b t2 : lex (MPlain []) a = Some (MPlain [], t1) → reads b t2 → reads (a ++ b) (t1 ++ t2).
Proof. intros Ha Hb. unfold reads. rewrite <- app_assoc. by eapply lex_cat. Qed.

Lemma lex_comment s : (chr_nl ∉ s) → lex MComment s = Some (MComment, []).
Proof.
  induction s as [|c s IH]; intros Hn; [done|]. apply not_elem_of_cons in Hn as [Hc Hn].
  cbn [lex lex_step]. rewrite decide_False by done. cbn [mbind option_bind]. by rewrite IH.
Qed.

Lemma lex_lines ls tss :
  Forall2 reads ls tss → lex (MPlain []) (unlines ls) = Some (MPlain [], concat tss).
Proof.
  induction 1 as [|l ts ls tss Hl Hls IH]; [done|]. unfold unlines. cbn [mbind list_bind concat].
  by eapply lex_cat.
Qed.

Lemma tokens_line s ts : reads s ts → tokens s = Some ts.
Proof.
  unfold reads, tokens. rewrite lex_app. destruct (lex (MPlain []) s) as [[k t]|]; cbn [mbind option_bind]; [|done].
  destruct k; cbn [lex lex_step]; try done; cbn.
  - intros [= <-]. by rewrite app_nil_r.
  - intros [= <-]. by rewrite app_nil_r.
Qed.

Lemma tokens_lines l ls tss : Forall2 reads (l :: ls) tss → tokens (join [chr_nl] (l :: ls)) = Some (concat tss).
Proof. intros H. apply tokens_line. unfold reads. rewrite join_unlines. by apply lex_lines. Qed.

Lemma reads_string a s b ts :
  (∃ t1 t2, lex (MPlain []) a = Some (MPlain [], t1) ∧ reads b t2 ∧ ts = t1 ++ [TStr s] ++ t2) →
  reads (a ++ escape_sbpl s ++ b) ts.
Proof. intros (t1 & t2 & Ha & Hb & ->). by eapply reads_around. Qed.

Ltac read_line := apply reads_string; do 2 eexists; split_and!; reflexivity.

Lemma reads_may_read p : reads (allow_read p) (flatten (may_read p)).
Proof. read_line. Qed.

Lemma reads_may_write p : reads (allow_write p) (flatten (may_write p)).
Proof. read_line. Qed.

(** A line with the message of the denials at its end. *)
Lemma reads_denied a ts tag :
  lex (MPlain []) a = Some (MPlain [], ts) →
  reads (a ++ (#"(with message " ++ escape_sbpl tag ++ #")") ++ #")") (ts ++ flatten (message tag) ++ [TClose]).
Proof.
  intros Ha. apply reads_rest; [done|]. rewrite <- app_assoc, <- app_assoc. read_line.
Qed.

Lemma reads_deny_path a op filter p tag :
  lex (MPlain []) a = Some (MPlain [], [TOpen; TAtom #"deny"; TAtom op; TOpen; TAtom filter]) →
  reads (a ++ escape_sbpl p ++ #") " ++ (#"(with message " ++ escape_sbpl tag ++ #")") ++ #")")
        (flatten (verb_path #"deny" op filter p [message tag])).
Proof.
  intros Ha.
  replace (a ++ escape_sbpl p ++ #") " ++ (#"(with message " ++ escape_sbpl tag ++ #")") ++ #")")
    with ((a ++ escape_sbpl p ++ #") ") ++ (#"(with message " ++ escape_sbpl tag ++ #")") ++ #")")
    by (by rewrite <- !app_assoc).
  apply (reads_denied _ [TOpen; TAtom #"deny"; TAtom op; TOpen; TAtom filter; TStr p; TClose]).
  apply (lex_cat _ _ _ _ _ _ [TStr p; TClose] Ha).
  by apply (lex_cat _ _ _ _ [TStr p] _ [TClose] (lex_escaped p)).
Qed.

(** The tokens of lines without variable parts. *)
Definition line_tokens (l : str) : option (list token) :=
  match lex (MPlain []) (l ++ [chr_nl]) with Some (MPlain [], ts) => Some ts | _ => None end.

Lemma reads_fixed ls tss : mapM line_tokens ls = Some tss → Forall2 reads ls tss.
Proof.
  intros H%mapM_Some. induction H as [|l ts ls tss Hl Hls IH]; constructor; [|done].
  unfold line_tokens in Hl. unfold reads. by repeat (case_match; simplify_eq).
Qed.

Definition comment_line (tag : str) : str := #"; orkia-cage SBPL " ++ [8212%N] ++ #" tag " ++ tag.

Lemma preamble_reads tag extra :
  reads (comment_line tag) (flatten_all extra) →
  ∃ tss, Forall2 reads (emit_preamble tag (#"(with message " ++ escape_sbpl tag ++ #")")) tss ∧
         concat tss = flatten_all (header_rules tag ++ extra ++ preamble_rules).
Proof.
  intros Hx. unfold emit_preamble. rewrite !flatten_all_app. eexists. split.
  - apply Forall2_app; [|apply reads_fixed; vm_compute; reflexivity].
    constructor; [reflexivity|]. constructor.
    { apply (reads_denied #"(deny default " [TOpen; TAtom #"deny"; TAtom #"default"]). done. }
    constructor; [exact Hx|constructor].
  - rewrite concat_app, (app_assoc (flatten_all (header_rules tag))). apply (f_equal2 app); [|done]. cbn [concat].
    by rewrite (app_nil_r (flatten_all extra)).
Qed.

(** After the start of the comment line. *)
Lemma reads_comment s ts : lex MComment (s ++ [chr_nl]) = Some (MPlain [], ts) → reads (comment_line s) ts.
Proof.
  intros H. unfold reads, comment_line. rewrite <- !app_assoc. do 3 (apply (lex_cat _ _ _ MComment [] _ ts); [done|]). exact H.
Qed.

Lemma plain_comment tag : (chr_nl ∉ tag) → reads (comment_line tag) (flatten_all []).
Proof. intros Hn. apply reads_comment, (lex_cat _ _ _ MComment [] _ []); [by apply lex_comment|done]. Qed.

Lemma reads_map {A} (f : A → str) (g : A → sx) (l : list A) :
  (∀ x, reads (f x) (flatten (g x))) → Forall2 reads (map f l) (map (λ x, flatten (g x)) l).
Proof. intros H. induction l; constructor; auto. Qed.

Lemma concat_flatten {A} (g : A → sx) (l : list A) : concat (map (λ x, flatten (g x)) l) = flatten_all (map g l).
Proof. unfold flatten_all. induction l as [|x l IH]; [done|]. cbn [map concat mbind list_bind]. by rewrite IH. Qed.

(** Lines that read as rules, put together. *)
Definition lines_are (ls : list str) (rules : list sx) : Prop :=
  ∃ tss, Forall2 reads ls tss ∧ concat tss = flatten_all rules.

Lemma lines_are_app a ra b rb : lines_are a ra → lines_are b rb → lines_are (a ++ b) (ra ++ rb).
Proof.
  intros (ta & Ha & Ea) (tb & Hb & Eb). exists (ta ++ tb). split; [by apply Forall2_app|].
  by rewrite concat_app, flatten_all_app, Ea, Eb.
Qed.

Lemma lines_are_map {A} (f : A → str) (g : A → sx) (l : list A) :
  (∀ x, reads (f x) (flatten (g x))) → lines_are (map f l) (map g l).
Proof. intros H. eexists. split; [by apply reads_map|apply concat_flatten]. Qed.

Lemma lines_are_fixed ls rules tss : mapM line_tokens ls = Some tss → concat tss = flatten_all rules → lines_are ls rules.
Proof. intros H E. exists tss. split; [by apply reads_fixed|done]. Qed.

Lemma lines_are_nil : lines_are [] [].
Proof. by exists []. Qed.

Lemma read_lines_are spec : lines_are (emit_read_rules spec) (read_rules spec).
Proof.
  unfold emit_read_rules, read_rules. repeat apply lines_are_app;
    try (apply lines_are_map; apply reads_may_read);
    eapply lines_are_fixed; vm_compute; reflexivity.
Qed.

Lemma write_lines_are spec :
  lines_are (emit_write_rules spec (#"(with message " ++ escape_sbpl (log_tag spec) ++ #")")) (write_rules spec).
Proof.
  unfold emit_write_rules, write_rules. repeat apply lines_are_app.
  - destruct (_ && _); [|apply lines_are_nil]. apply (lines_are_map allow_write may_write [ps_workspace spec]), reads_may_write.
  - induction (ps_read_write spec) as [|p l IH]; [apply lines_are_nil|]. cbn [mbind list_bind].
    apply lines_are_app; [|done]. exists [flatten (may_read p); flatten (may_write p)]. split; [|done].
    repeat constructor; [apply reads_may_read|apply reads_may_write].
  - apply lines_are_map. intros p. by apply reads_deny_path.
  - apply lines_are_map. intros p. by apply reads_deny_path.
Qed.

(** Whatever characters the paths contain, reading the text gives the intended rules, and
    between them those of the line that shows the tag. *)
Lemma profile_text spec extra :
  reads (comment_line (log_tag spec)) (flatten_all extra) →
  read_profile (build_profile spec)
  = Some (header_rules (log_tag spec) ++ extra ++ preamble_rules ++ read_rules spec ++ write_rules spec).
Proof.
  intros Hx. unfold read_profile, build_profile.
  assert (lines_are (emit_preamble (log_tag spec) (#"(with message " ++ escape_sbpl (log_tag spec) ++ #")")
            ++ emit_read_rules spec ++ emit_write_rules spec (#"(with message " ++ escape_sbpl (log_tag spec) ++ #")"))
            ((header_rules (log_tag spec) ++ extra ++ preamble_rules) ++ read_rules spec ++ write_rules spec))
    as (tss & Ht & E).
  { apply lines_are_app; [by apply preamble_reads|].
    apply lines_are_app; [apply read_lines_are|apply write_lines_are]. }
  unfold emit_preamble in *. cbn [app] in Ht |- *. rewrite (tokens_lines _ _ _ Ht). cbn [mbind option_bind].
  rewrite E, <- !app_assoc. apply parse_rules.
Qed.

Lemma profile_text_rules spec :
  (chr_nl ∉ log_tag spec) → read_profile (build_profile spec) = Some (profile_rules spec).
Proof. intros Hn. by apply (profile_text spec []), plain_comment. Qed.

(** ** What a profile allows *)

(** A path is a directory or lies below it. *)
Definition under (d p : str) : bool :=
  bool_decide (p = d) || starts_with (if ends_with [chr_slash] d then d else d ++ [chr_slash]) p.

Record Access := mkAccess { a_op : str; a_path : str; a_vnode : str }.

(** An operation of a rule covers the one it names, those it is a wildcard for, or all. *)
Definition op_covers (op : str) (r : str) : bool :=
  bool_decide (r = #"default") || bool_decide (r = op)
  || match strip_suffix [chr_star] r with Some pre => starts_with pre op | None => false end.

Section seatbelt.
(** Whether a regular expression matches a path. *)
Context (rx : str → str → bool).

(** A filter on the path of an access; other parts of a rule are no filters. *)
Definition filter_matches (a : Access) (x : sx) : option bool :=
  match x with
  | SList [SAtom kind; SStr s] =>
      if decide (kind = #"subpath") then Some (under s (a_path a))
      else if decide (kind = #"literal") then Some (bool_decide (a_path a = s))
      else if decide (kind = #"global-name") then Some false
      else None
  | SList [SAtom kind; SRegex s] => if decide (kind = #"regex") then Some (rx s (a_path a)) else None
  | SList [SAtom kind; SAtom s] =>
      if decide (kind = #"vnode-type") then Some (bool_decide (a_vnode a = s))
      else if decide (kind = #"target") then Some false
      else None
  | _ => None
  end.

Definition rule_ops (parts : list sx) : list str := omap (λ x, match x with SAtom s => Some s | _ => None end) parts.

(** What a rule says of an access. *)
Definition applies (a : Access) (r : sx) : option bool :=
  match r with
  | SList (SAtom verb :: parts) =>
      let filters := omap (filter_matches a) parts in
      if existsb (op_covers (a_op a)) (rule_ops parts) && (is_empty filters || existsb id filters) then
        if decide (verb = #"allow") then Some true else if decide (verb = #"deny") then Some false else None
      else None
  | _ => None
  end.

(** The last rule that applies decides. *)
Definition judge (a : Access) (d : bool) (rules : list sx) : bool :=
  foldl (λ d r, default d (applies a r)) d rules.

Definition allowed (rules : list sx) (a : Access) : bool := judge a false rules.

Lemma judge_app a d r1 r2 : judge a d (r1 ++ r2) = judge a (judge a d r1) r2.
Proof. apply foldl_app. Qed.

Lemma judge_silent a d rules : Forall (λ r, applies a r = None) rules → judge a d rules = d.
Proof.
  unfold judge. intros H. revert d. induction H as [|r rules Hr H IH]; intros d; [done|]. cbn [foldl].
  by rewrite Hr, IH.
Qed.

Lemma judge_allows {A} a d (f : A → sx) (test : A → bool) l :
  (∀ x, applies a (f x) = if test x then Some true else None) →
  judge a d (map f l) = d || existsb test l.
Proof.
  intros Hf. revert d. induction l as [|x l IH]; intros d; cbn [map existsb]; [by rewrite orb_false_r|].
  unfold judge in *. cbn [foldl]. rewrite IH, Hf. by destruct (test x), d.
Qed.

Lemma judge_denies {A} a d (f : A → sx) (test : A → bool) l :
  (∀ x, applies a (f x) = if test x then Some false else None) →
  judge a d (map f l) = d && negb (existsb test l).
Proof.
  intros Hf. revert d. induction l as [|x l IH]; intros d; cbn [map existsb]; [by rewrite andb_true_r|].
  unfold judge in *. cbn [foldl]. rewrite IH, Hf. by destruct (test x), d.
Qed.

Lemma judge_pairs {A} a d (f g : A → sx) (test : A → bool) l :
  (∀ x d, judge a d [f x; g x] = d || test x) →
  judge a d (l ≫= (λ x, [f x; g x])) = d || existsb test l.
Proof.
  intros Hf. revert d. induction l as [|x l IH]; intros d; [by rewrite orb_false_r|].
  cbn [mbind list_bind]. rewrite judge_app, Hf. unfold mbind in IH. rewrite IH. cbn [existsb]. by rewrite orb_assoc.
Qed.

Definition WRITES : list str :=
  [ #"file-write-create"; #"file-write-data"; #"file-write-unlink"; #"file-write-mode"; #"file-write-owner";
    #"file-write-flags"; #"file-write-times"; #"file-write-xattr"].

Definition FILE_ACCESSES : list str := #"file-read-data" :: WRITES.

Lemma device_silent a f : filter_matches a f = Some false → applies a (device f) = None.
Proof.
  intros Hf. unfold device, applies, rule_ops. cbn [omap list_omap filter_matches]. rewrite Hf.
  cbn [is_empty existsb id orb]. by rewrite andb_false_r.
Qed.

(** The tty rule is about devices. *)
Hypothesis (tty_dev : ∀ p, rx TTY_REGEX p = true → under #"/dev" p = true).

Lemma not_dev_literal p d : under #"/dev" p = false → under #"/dev" d = true → bool_decide (p = d) = false.
Proof. intros Hp Hd. apply bool_decide_eq_false. intros ->. congruence. Qed.

Lemma starts_with_trans a b s : starts_with a b = true → starts_with b s = true → starts_with a s = true.
Proof.
  rewrite !starts_with_true. intros (r & ->) (r' & ->). exists (r ++ r'). by rewrite <- app_assoc.
Qed.

Lemma not_dev_fd p : under #"/dev" p = false → under #"/dev/fd" p = false.
Proof.
  unfold under. cbn. rewrite !orb_false_iff, !bool_decide_eq_false. intros [Hp Hs]. split.
  - intros ->. by vm_compute in Hs.
  - destruct (starts_with #"/dev/fd/" p) eqn:E; [|exact E].
    exfalso. apply not_true_iff_false in Hs. apply Hs.
    by apply (starts_with_trans _ #"/dev/fd/").
Qed.

(** The cases of an operation, one by one. *)
Ltac each_op H := repeat (apply elem_of_cons in H as [->|H]; [|]); [..|by apply elem_of_nil in H].

Lemma preamble_silent op p v :
  op ∈ FILE_ACCESSES → under #"/dev" p = false →
  Forall (λ r, applies (mkAccess op p v) r = None) preamble_rules.
Proof.
  intros Ho Hp. unfold preamble_rules. apply Forall_app. split.
  { each_op Ho; repeat constructor. }
  apply Forall_app. split.
  - apply list.Forall_forall. intros r (d & -> & Hd)%list_elem_of_fmap. apply device_silent. cbn.
    f_equal. apply not_dev_literal; [done|]. by each_op Hd.
  - repeat constructor; apply device_silent; cbn; f_equal; [|by apply not_dev_fd].
    destruct (rx TTY_REGEX p) eqn:E; [|done]. apply tty_dev in E. congruence.
Qed.

Lemma header_denies tag op p v d :
  op ∈ #"process-exec" :: FILE_ACCESSES → judge (mkAccess op p v) d (header_rules tag) = false.
Proof. intros Ho. by each_op Ho. Qed.

Lemma may_write_applies op p v d :
  op ∈ WRITES → applies (mkAccess op p v) (may_write d) = if under d p then Some true else None.
Proof. intros Ho. each_op Ho; unfold may_write, verb_path, applies; cbn; by destruct (under d p). Qed.

Lemma deny_write_applies op p v d tag :
  op ∈ WRITES →
  applies (mkAccess op p v) (verb_path #"deny" #"file-write*" #"subpath" d [message tag])
  = if under d p then Some false else None.
Proof. intros Ho. each_op Ho; unfold verb_path, applies; cbn; by destruct (under d p). Qed.

Lemma may_read_applies p v d :
  applies (mkAccess #"file-read-data" p v) (may_read d) = if under d p then Some true else None.
Proof. unfold may_read, verb_path, applies; cbn; by destruct (under d p). Qed.

(** Rules about other operations. *)
Lemma silent_map {A} a (f : A → sx) l : (∀ x, applies a (f x) = None) → Forall (λ r, applies a r = None) (map f l).
Proof. intros H. apply list.Forall_forall. by intros r (x & -> & _)%list_elem_of_fmap. Qed.

Lemma reads_silent spec op p v :
  op ∈ #"process-exec" :: WRITES → Forall (λ r, applies (mkAccess op p v) r = None) (read_rules spec).
Proof.
  intros Ho. unfold read_rules. each_op Ho; repeat apply Forall_app_2; try (apply silent_map; done);
    repeat constructor.
Qed.

Lemma judge_writes spec b op p v :
  op ∈ WRITES →
  judge (mkAccess op p v) b (write_rules spec)
  = (b || ps_workspace_read spec && ps_workspace_write spec && under (ps_workspace spec) p
     || existsb (λ d, under d p) (ps_read_write spec))
    && negb (existsb (λ d, under d p) (ps_deny_write spec)).
Proof.
  intros Ho. unfold write_rules. rewrite !judge_app.
  rewrite (judge_silent _ _ (map _ (ps_deny_exec spec))) by (apply silent_map; intros; by each_op Ho).
  rewrite (judge_denies _ _ _ (λ d, under d p)) by (intros; by apply deny_write_applies).
  rewrite (judge_pairs _ _ may_read may_write (λ d, under d p)).
  2: { intros d c. unfold judge. cbn [foldl]. rewrite may_write_applies by done.
       replace (applies _ (may_read d)) with (@None bool) by (by each_op Ho). by destruct c, (under d p). }
  f_equal. f_equal. destruct (ps_workspace_read spec && ps_workspace_write spec); [|by rewrite orb_false_r].
  unfold judge. cbn [foldl]. rewrite may_write_applies by done. by destruct (under _ p), b.
Qed.

Definition readable (spec : ProfileSpec) (p : str) : bool :=
  bool_decide (p = #"/") || existsb (λ d, under d p) RUNTIME_READ_ROOTS
  || bool_decide (p = #"/var/db/xcode_select_link")
  || existsb (λ d, under d p)
       ((if ps_workspace_read spec then [ps_workspace spec] else []) ++ ps_read_only spec)
  || existsb (λ d, under d p) (ps_read_write spec).

Lemma literal_applies p v d :
  applies (mkAccess #"file-read-data" p v) (verb_path #"allow" #"file-read*" #"literal" d [])
  = if bool_decide (p = d) then Some true else None.
Proof. unfold verb_path, applies; cbn; by destruct (bool_decide (p = d)). Qed.

Lemma judge_reads spec p v :
  judge (mkAccess #"file-read-data" p v) false (read_rules spec ++ write_rules spec) = readable spec p.
Proof.
  unfold read_rules, write_rules. rewrite !judge_app.
  rewrite (judge_silent _ _ (map _ (ps_deny_exec spec))), (judge_silent _ _ (map _ (ps_deny_write spec)))
    by (by apply silent_map).
  rewrite (judge_pairs _ _ may_read may_write (λ d, under d p)).
  2: { intros d b. unfold judge. cbn [foldl]. rewrite may_read_applies.
       replace (applies _ (may_write d)) with (@None bool) by done. by destruct b, (under d p). }
  rewrite (judge_silent _ _ (if ps_workspace_read spec && ps_workspace_write spec then _ else []))
    by (destruct (_ && _); repeat constructor).
  rewrite !(judge_allows _ _ may_read (λ d, under d p)) by (intros; apply may_read_applies).
  unfold readable. f_equal. f_equal. unfold judge. cbn [foldl]. rewrite !literal_applies.
  replace (applies _ (metadata #"DIRECTORY")) with (@None bool) by done.
  replace (applies _ (metadata #"SYMLINK")) with (@None bool) by done. cbn [default].
  by destruct (bool_decide (p = #"/")), (bool_decide (p = #"/var/db/xcode_select_link")), (existsb _ _).
Qed.

Lemma judge_execs spec p v :
  judge (mkAccess #"process-exec" p v) true (write_rules spec) = negb (bool_decide (p ∈ ps_deny_exec spec)).
Proof.
  unfold write_rules. rewrite !judge_app.
  rewrite (judge_denies _ _ _ (λ b, bool_decide (p = b))).
  2: { intros b. unfold verb_path, applies; cbn. by destruct (bool_decide (p = b)). }
  rewrite (judge_silent _ _ (map _ (ps_deny_write spec))) by (by apply silent_map).
  rewrite (judge_silent _ _ (ps_read_write spec ≫= _)).
  2: { induction (ps_read_write spec) as [|d l IH]; [constructor|]. cbn [mbind list_bind].
       apply Forall_app_2; [repeat constructor|exact IH]. }
  rewrite (judge_silent _ _ (if ps_workspace_read spec && ps_workspace_write spec then _ else []))
    by (destruct (_ && _); repeat constructor). cbn [andb].
  f_equal. induction (ps_deny_exec spec) as [|b l IH]; [done|]. cbn [existsb]. rewrite IH.
  apply eq_true_iff_eq. by rewrite orb_true_iff, !bool_decide_eq_true, elem_of_cons.
Qed.

Lemma preamble_execs p v : judge (mkAccess #"process-exec" p v) false preamble_rules = true.
Proof. unfold preamble_rules. rewrite judge_app, judge_app. done. Qed.

Lemma profile_confines_lemma spec p v :
  (chr_nl ∉ log_tag spec) → under #"/dev" p = false →
  ∃ rules, read_profile (build_profile spec) = Some rules ∧
    (∀ op, op ∈ WRITES →
       allowed rules (mkAccess op p v)
       = (ps_workspace_read spec && ps_workspace_write spec && under (ps_workspace spec) p
          || existsb (λ d, under d p) (ps_read_write spec))
         && negb (existsb (λ d, under d p) (ps_deny_write spec))) ∧
    allowed rules (mkAccess #"file-read-data" p v) = readable spec p ∧
    allowed rules (mkAccess #"process-exec" p v) = negb (bool_decide (p ∈ ps_deny_exec spec)).
Proof.
  intros Hn Hp. exists (profile_rules spec). split; [by apply profile_text_rules|].
  unfold allowed, profile_rules. split_and!.
  - intros op Ho. rewrite !judge_app, header_denies by (by do 2 right).
    rewrite (judge_silent _ _ preamble_rules) by (apply preamble_silent; [by right|done]).
    rewrite (judge_silent _ _ (read_rules spec)) by (apply reads_silent; by right). by apply judge_writes.
  - rewrite judge_app, header_denies, judge_app by (right; left).
    rewrite (judge_silent _ _ preamble_rules) by (apply preamble_silent; [by left|done]). apply judge_reads.
  - rewrite judge_app, header_denies, judge_app, preamble_execs, judge_app by left.
    rewrite (judge_silent _ _ (read_rules spec)) by (apply reads_silent; left). apply judge_execs.
Qed.


(** The tag of a job is written into the profile as it is. If it has a line break, what
    follows it is a rule of the profile: a job or agent named so that the rule allows
    everything can write every path that is not expressly protected. *)
Theorem tag_injects_rules spec a p v op :
  log_tag spec = a ++ [chr_nl] ++ #"(allow default)" → (chr_nl ∉ a) →
  op ∈ WRITES → under #"/dev" p = false →
  ∃ rules, read_profile (build_profile spec) = Some rules ∧
    allowed rules (mkAccess op p v) = negb (existsb (λ d, under d p) (ps_deny_write spec)).
Proof.
  intros Ht Hn Ho Hp. eexists. split.
  { apply (profile_text spec [bare #"allow" #"default"]). rewrite Ht. apply reads_comment. rewrite <- app_assoc.
    apply (lex_cat _ _ _ MComment [] _ _); [by apply lex_comment|]. reflexivity. }
  unfold allowed. rewrite !judge_app, header_denies by (by do 2 right).
  replace (judge _ false [bare #"allow" #"default"]) with true by (by each_op Ho).
  rewrite (judge_silent _ _ preamble_rules) by (apply preamble_silent; [by right|done]).
  rewrite (judge_silent _ _ (read_rules spec)) by (apply reads_silent; by right).
  rewrite judge_writes by done. done.
Qed.
End seatbelt.

(** ** A launch *)

(** The places a launch protects from its agent. *)
Definition protected (m : Machine) (policy : Policy) (p : str) : Prop :=
  (∃ ws rel, resolve_workspace m (ws_root (workspace policy)) = Some ws ∧
     rel ∈ [ #".git/hooks"; #".git/config"; #".env"; #".mcp.json"] ∧ under (pb_join ws rel) p = true) ∨
  (∃ h rel, var m #"HOME" = Some h ∧ rel ∈ SENSITIVE ∧ under (pb_join h rel) p = true).

Lemma protected_denied m program policy spec p :
  build_profile_spec m program policy = Some spec → protected m policy p →
  existsb (λ d, under d p) (ps_deny_write spec) = true.
Proof.
  unfold build_profile_spec. intros (ws & Hws & Hs)%bind_Some Hp.
  apply (inj Some) in Hs as <-. apply existsb_exists. cbn [ps_deny_write].
  destruct Hp as [(ws' & rel & Hws' & Hrel & Hu)|(h & rel & Hh & Hrel & Hu)].
  - simplify_eq. exists (pb_join ws rel). split; [|done]. apply list_elem_of_In, elem_of_app. left.
    apply list_elem_of_fmap. by exists rel.
  - exists (pb_join h rel). split; [|done]. apply list_elem_of_In, elem_of_app. right. rewrite Hh.
    apply list_elem_of_fmap. by exists rel.
Qed.

Lemma advisory_env m env k :
  (∀ k v, env !! k = Some v → env_allowed k = true) →
  is_Some (apply_advisory_shell m env !! k) → env_allowed k = true.
Proof.
  intros He [v Hv]. unfold apply_advisory_shell in Hv. case_match; [|by eapply He].
  apply lookup_insert_Some in Hv as [[<- _]|[_ Hv]]; [done|].
  apply lookup_insert_Some in Hv as [[<- _]|[_ Hv]]; [done|]. by eapply He.
Qed.

(** C25: A caged agent is started by the sandbox alone, with its own arguments and an
    environment of listed variables, under a profile by which it cannot write the hooks,
    configuration, secrets and tool servers of its workspace or the user's keys and cloud
    credentials, whatever the policy grants. *)
Theorem mac_launch_protects (rx : str → str → bool) m program args policy path c p v op :
  (∀ p, rx TTY_REGEX p = true → under #"/dev" p = true) →
  launch_macos m program args policy path = Replaced c → (chr_nl ∉ log_tag_of m) →
  op ∈ WRITES → under #"/dev" p = false → protected m policy p →
  cmd_program c = #"/usr/bin/sandbox-exec" ∧
  (∀ k, is_Some (cmd_env c !! k) → env_allowed k = true) ∧
  ∃ profile rules, cmd_args c = [ #"-p"; profile; program] ++ args ∧
    read_profile profile = Some rules ∧ allowed rx rules (mkAccess op p v) = false.
Proof.
  intros Hrx Hl Hn Ho Hd Hp. unfold launch_macos in Hl.
  destruct (build_profile_spec m program policy) as [spec|] eqn:Es; [|done]. case_bool_decide; [done|].
  injection Hl as <-. cbn [cmd_program cmd_env cmd_args]. split_and!; [done| |].
  - intros k [w Hw]. apply lookup_insert_Some in Hw as [[<- _]|[_ Hw]]; [done|].
    apply (advisory_env m (allowed_env m)); [|done].
    intros k' v' Hk. by apply map_lookup_filter_Some in Hk as [_ Hk].
  - assert (log_tag spec = log_tag_of m) as Htag
      by (unfold build_profile_spec in Es; apply bind_Some in Es as (ws & _ & [= <-]); done).
    destruct (profile_confines_lemma rx Hrx spec p v) as (rules & Hr & Hw & _); [by rewrite Htag|done|].
    exists (build_profile spec), rules. split_and!; [done|done|]. rewrite Hw by done.
    by rewrite (protected_denied m program policy spec p Es Hp), andb_false_r.
Qed.

Definition sample_machine : Machine :=
  mkMachine (list_to_map [(#"HOME", #"/Users/u"); (#"PATH", #"/usr/bin:/bin"); (#"ORKIA_JOB_ID", #"7");
                          (#"AWS_SECRET", #"x")])
    (Some #"/work/repo") (λ _, None) (λ p, bool_decide (p = #"/usr/bin/docker")) (λ _, false) 501 None.

Definition sample_policy : Policy :=
  mkPolicy Ask (mkClassCaps true true true) (mkWorkspaceScope #".")
    [mkCapability #"docker" [ #"docker*"] Deny Sensitive].

(** A stand-in for the expression of terminal devices. *)
Definition sample_rx (r p : str) : bool := starts_with #"/dev/ttys" p.

Lemma sample_rx_dev p : sample_rx TTY_REGEX p = true → under #"/dev" p = true.
Proof.
  unfold sample_rx, under. rewrite starts_with_true. intros (r & ->). done.
Qed.

Definition sample_spec : option ProfileSpec := build_profile_spec sample_machine #"claude" sample_policy.


Lemma mac_launch_protects_witness :
  ∃ c, launch_macos sample_machine #"claude" [ #"-p"] sample_policy #"/etc/policy.toml" = Replaced c ∧
    cmd_program c = #"/usr/bin/sandbox-exec" ∧
    (∀ k, is_Some (cmd_env c !! k) → env_allowed k = true) ∧
    ∃ profile rules, cmd_args c = [ #"-p"; profile; #"claude"; #"-p"] ∧ read_profile profile = Some rules ∧
      allowed sample_rx rules (mkAccess #"file-write-data" #"/work/repo/./.git/hooks/pre-commit" #"REGULAR-FILE") = false.
Proof.
  eexists. split; [reflexivity|].
  eapply (mac_launch_protects sample_rx sample_machine #"claude" [ #"-p"] sample_policy #"/etc/policy.toml" _
            #"/work/repo/./.git/hooks/pre-commit" #"REGULAR-FILE" #"file-write-data" sample_rx_dev);
    [reflexivity|apply (bool_decide_unpack _); vm_compute; exact I|apply (bool_decide_unpack _); vm_compute; exact I
    |reflexivity|].
  left. exists #"/work/repo/.", #".git/hooks". split_and!; [reflexivity| |reflexivity].
  apply (bool_decide_unpack _); vm_compute; exact I.
Defined.

Lemma tag_injects_rules_witness :
  let spec := mkProfile (#"orkia-agent-x" ++ [chr_nl] ++ #"(allow default)") #"/work/repo" false false [] []
                [ #"/work/repo/.env"] [] in
  (∃ rules, read_profile (build_profile spec) = Some rules ∧
     allowed sample_rx rules (mkAccess #"file-write-data" #"/Users/u/.zshrc" #"REGULAR-FILE") = true) ∧
  (∃ rules, read_profile (build_profile (mkProfile #"orkia-agent-x" #"/work/repo" false false [] []
                [ #"/work/repo/.env"] [])) = Some rules ∧
     allowed sample_rx rules (mkAccess #"file-write-data" #"/Users/u/.zshrc" #"REGULAR-FILE") = false).
Proof.
  cbv zeta. split.
  - apply (tag_injects_rules sample_rx sample_rx_dev
             (mkProfile (#"orkia-agent-x" ++ [chr_nl] ++ #"(allow default)") #"/work/repo" false false [] []
                [ #"/work/repo/.env"] []) #"orkia-agent-x" #"/Users/u/.zshrc" #"REGULAR-FILE" #"file-write-data");
      [reflexivity| | |reflexivity]; apply (bool_decide_unpack _); vm_compute; exact I.
  - eexists. split; vm_compute; reflexivity.
Defined.
