(* ===== verification/CageRootfs.v ===== *)
(** * CageRootfs: the root file system of a caged agent on Linux

    [bins/orkia-cage/src/linux_sb.rs] and [toolset.rs], and the Linux half of
    [bins/orkia-cage/src/lib.rs]: the tools an agent is given, the file system built for
    it out of bind mounts, and the launch.

    What the launcher asks of the machine is [Machine] of CageProfile (texts) and
    [Host] (resolved paths). The root under construction is a list of mounts, newest
    first, over a tmpfs whose nodes the launcher makes; a path belongs to the newest
    mount above it. Every mount, mapping, pivot and change of directory may be refused:
    the answers are a list of the state. Links inside bound trees are the host's: what a
    path of the host leads to is asked of [Host]. Mounts below a bound directory of the
    host are not modelled, and neither is the supervising parent, which only forwards
    signals. *)

From Stdlib Require Import NArith ZArith Lia.
From stdpp Require Import base gmap strings option numbers list list_basics sorting.
From S2P Require Import Prelude Effects Fs Policy Trust CageProfile.

(** ** The host *)

Inductive Lstat := IsLink (target : str) | IsDir | IsOther.

Record Host := mkHost {
  h_dir : path → option bool;
  h_canon : path → option path;
  h_lstat : path → option Lstat;
  h_writable : path → bool;
}.

Definition to_path (s : str) : path := path_join [] s.

Definition h_exists (h : Host) (p : path) : bool := bool_decide (is_Some (h_dir h p)).

(** ** Tools *)

Record ToolBind := mkTool { tb_link : path; tb_real : path }.

#[export] Instance ToolBind_eq_dec : EqDecision ToolBind.
Proof. solve_decision. Defined.

Definition BASE_TOOLS : list str :=
  [ #"sh"; #"bash"; #"dash"; #"env"; #"printenv"; #"ls"; #"cat"; #"cp"; #"mv"; #"rm"; #"mkdir"; #"rmdir";
    #"ln"; #"chmod"; #"chown"; #"chgrp"; #"touch"; #"pwd"; #"echo"; #"printf"; #"sed"; #"grep"; #"egrep";
    #"fgrep"; #"awk"; #"gawk"; #"cut"; #"tr"; #"head"; #"tail"; #"sort"; #"uniq"; #"wc"; #"find"; #"xargs";
    #"which"; #"basename"; #"dirname"; #"readlink"; #"realpath"; #"stat"; #"date"; #"sleep"; #"true";
    #"false"; #"test"; #"expr"; #"tee"; #"diff"; #"cmp"; #"less"; #"more"; #"tar"; #"gzip"; #"gunzip";
    #"zcat"; #"bzip2"; #"xz"; #"file"; #"id"; #"whoami"; #"groups"; #"uname"; #"hostname"; #"ps"; #"kill";
    #"md5sum"; #"sha256sum"; #"base64"; #"seq"; #"tac"; #"nl"; #"paste"; #"comm"; #"split"; #"du"; #"df";
    #"mktemp"; #"tty"; #"stty"].

Definition AGENT_COMMON : list str := [ #"git"; #"rg"; #"node"; #"python3"; #"jq"].

Definition BIN_SEARCH : list str :=
  [ #"/usr/bin"; #"/usr/local/bin"; #"/usr/sbin"; #"/usr/local/sbin"; #"/bin"; #"/sbin"].

Definition capability_binary (name : str) : str := default name (head (split_char chr_dot name)).

(** A [BTreeSet] of names, as the list of its elements in order. *)
Definition str_le (a b : str) : Prop := str_leb a b = true.

#[export] Instance str_le_dec : RelDecision str_le.
Proof. intros a b. unfold str_le. apply _. Defined.

Definition tool_names (capabilities extra : list str) : list str :=
  merge_sort str_le
    (remove_dups (BASE_TOOLS ++ AGENT_COMMON ++ map capability_binary capabilities
                  ++ List.filter (λ s, negb (is_empty s)) extra)).

(** [split] at colons and commas. *)
Definition split_list (s : str) : list str := split_char 58%N s ≫= split_char 44%N.

Definition extra_tools (m : Machine) : list str :=
  List.filter (λ s, negb (is_empty s)) (map trim (split_list (default [] (var m #"ORKIA_CAGE_EXTRA_TOOLS")))).

Section host.
Context (h : Host).

Definition tool_at (link : path) : ToolBind := mkTool link (default link (h_canon h link)).

Fixpoint search_tool (dirs : list str) (name : str) : option ToolBind :=
  match dirs with
  | [] => None
  | d :: dirs =>
      let link := path_join (to_path d) name in
      if h_exists h link then Some (tool_at link) else search_tool dirs name
  end.

Definition resolve_tool (name : str) : option ToolBind := search_tool BIN_SEARCH name.

Definition resolve_program (program : str) (home : option str) : option ToolBind :=
  if bool_decide (chr_slash ∈ program) then
    let link := to_path program in if h_exists h link then Some (tool_at link) else None
  else match resolve_tool program with
       | Some t => Some t
       | None => hd ← home;
                 let link := path_join (path_join (to_path hd) #".local/bin") program in
                 if h_exists h link then Some (tool_at link) else None
       end.

Definition resolve_tools (m : Machine) (program : str) (policy : Policy) (home : option str) : list ToolBind :=
  let tools := omap resolve_tool (tool_names (map cap_name (capabilities policy)) (extra_tools m)) in
  match resolve_program program home with
  | Some t => if existsb (λ u, bool_decide (tb_link u = tb_link t)) tools then tools else tools ++ [t]
  | None => tools
  end.

(** *** The layout of the system directories *)

Record Layout := mkLayout { coarse_ro : list path; bin_dirs : list path; lay_symlinks : list (path * str) }.

Definition classify (d : str) (acc : list path * list (path * str)) : list path * list (path * str) :=
  match h_lstat h (to_path d) with
  | Some (IsLink target) => (acc.1, acc.2 ++ [(to_path d, target)])
  | Some IsDir => (acc.1 ++ [to_path d], acc.2)
  | Some IsOther | None => acc
  end.

Definition BIN_DIRS : list str :=
  [ #"/usr/bin"; #"/usr/sbin"; #"/usr/local/bin"; #"/usr/local/sbin"; #"/bin"; #"/sbin"].

Definition LIB_DIRS : list str :=
  [ #"/usr/lib"; #"/usr/lib64"; #"/usr/lib32"; #"/usr/libx32"; #"/usr/libexec"; #"/usr/share"; #"/usr/local/lib";
    #"/usr/local/share"; #"/lib"; #"/lib64"; #"/lib32"; #"/libx32"; #"/etc"; #"/opt"].

Definition system_layout : Layout :=
  let '(bins, links) := foldl (λ acc d, classify d acc) ([], []) BIN_DIRS in
  let '(libs, links) := foldl (λ acc d, classify d acc) ([], links) LIB_DIRS in
  mkLayout libs bins links.
End host.

(** ** The specification of a root *)

Record RootfsSpec := mkRootfs {
  rf_workspace : path;
  rf_workspace_read : bool;
  rf_workspace_write : bool;
  rf_ro_binds : list path;
  rf_bin_dirs : list path;
  rf_bin_symlinks : list (path * str);
  rf_tools : list ToolBind;
  rf_rw_binds : list path;
  rf_deny_write : list path;
  rf_deny_read : list path;
  allow_unconfined : bool;
  rf_shim : option path;
  rf_real_shell : path;
  rf_shadow_shells : list path;
  rf_policy_toml : str;
}.

Definition SHIM_DIR : path := [ #".orkia-sh"].
Definition IN_CAGE_POLICY : path := [ #".orkia-sh"; #"policy.toml"].
Definition IN_CAGE_REAL_SH : path := [ #".orkia-sh"; #"real-sh"].

(** ** The root under construction *)

Inductive MountSource := FromHost (p : path) | FreshTmpfs | FreshProc.
Record Mount := mkMount { m_at : path; m_src : MountSource; m_ro : bool }.

Inductive Node := NDir | NFile (text : str) | NLink (target : str).

#[export] Instance Node_eq_dec : EqDecision Node.
Proof. solve_decision. Defined.

Record Root := mkRoot {
  mounts : list Mount;
  nodes : gmap path Node;
  host_files : gmap path str;
  answers : list bool;
}.

(** Where a path of the root leads. *)
Inductive Place := OnRoot | OnHost (p : path) (ro : bool) | OnTmpfs | OnProc.

#[export] Instance Place_eq_dec : EqDecision Place.
Proof. solve_decision. Defined.

Definition covers (p : path) (m : Mount) : bool := bool_decide (m_at m `prefix_of` p).

Definition top (r : Root) (p : path) : option Mount := List.find (covers p) (mounts r).

Definition place (r : Root) (p : path) : Place :=
  match top r p with
  | None => OnRoot
  | Some m => match m_src m with
              | FromHost q => OnHost (q ++ drop (length (m_at m)) p) (m_ro m)
              | FreshTmpfs => OnTmpfs
              | FreshProc => OnProc
              end
  end.

(** The first link on the way to a path: the directory it is in, its target and what
    remains of the path. *)
Fixpoint walk (r : Root) (done rest : path) : option (path * str * path) :=
  match rest with
  | [] => None
  | c :: rest =>
      let d := done ++ [c] in
      match place r d with
      | OnRoot => match nodes r !! d with Some (NLink t) => Some (done, t, rest) | _ => walk r d rest end
      | _ => None
      end
  end.

(** While the root is built, an absolute link leads back to the host. *)
Inductive Target := InCage (p : path) | OutOfCage (q : path) | TooManyLinks.

Fixpoint follow (fuel : nat) (r : Root) (p : path) : Target :=
  match fuel with
  | 0 => TooManyLinks
  | S fuel =>
      match walk r [] p with
      | None => InCage p
      | Some (d, t, rest) =>
          if starts_with [chr_slash] t then OutOfCage (to_path t ++ rest) else follow fuel r (path_join d t ++ rest)
      end
  end.

(** As many links as the system follows. *)
Definition target (r : Root) (p : path) : Target := follow 41 r p.

Section build.
Context (h : Host).

Definition target_exists (r : Root) (p : path) : bool :=
  match target r p with
  | InCage q =>
      match place r q with
      | OnRoot => bool_decide (q = []) || bool_decide (is_Some (nodes r !! q))
      | OnHost hp _ => h_exists h hp
      | OnTmpfs | OnProc => existsb (λ m, bool_decide (m_at m = q)) (mounts r)
      end
  | OutOfCage q => h_exists h q
  | TooManyLinks => false
  end.

(** *** Nodes *)

Definition set_nodes (f : gmap path Node → gmap path Node) (r : Root) : Root :=
  mkRoot (mounts r) (f (nodes r)) (host_files r) (answers r).

(** The directories a path needs, from the root down, those that are not there. *)
Fixpoint make_dirs (r : Root) (done rest : path) : Root :=
  match rest with
  | [] => r
  | c :: rest =>
      let d := done ++ [c] in
      match place r d with
      | OnRoot => match nodes r !! d with
                  | None => make_dirs (set_nodes <[d := NDir]> r) d rest
                  | Some NDir => make_dirs r d rest
                  | Some _ => r
                  end
      | _ => r
      end
  end.

Definition create_dirs (p : path) : M Root str unit :=
  modify (λ r, match target r p with InCage q => make_dirs r [] q | _ => r end).

Definition parent (p : path) : path := take (length p - 1) p.

Definition truncate_host (q : path) (r : Root) : Root :=
  if h_writable h q && negb (bool_decide (h_dir h q = Some true))
  then mkRoot (mounts r) (nodes r) (<[default q (h_canon h q) := []]> (host_files r)) (answers r)
  else r.

(** [File::create]: a new empty file, or an existing file made empty. *)
Definition create_file (p : path) : M Root str unit :=
  modify (λ r, match target r p with
               | InCage q =>
                   match place r q with
                   | OnRoot =>
                       let in_dir := bool_decide (parent q = []) || bool_decide (nodes r !! parent q = Some NDir) in
                       match nodes r !! q with
                       | Some NDir => r
                       | _ => if in_dir then set_nodes <[q := NFile []]> r else r
                       end
                   | OnHost hp false => truncate_host hp r
                   | _ => r
                   end
               | OutOfCage q => truncate_host q r
               | TooManyLinks => r
               end).

(** *** System calls *)

(** The next call that can be refused. *)
Definition call (what : str) : M Root str unit := λ r,
  match answers r with
  | true :: rest => (Ok (), mkRoot (mounts r) (nodes r) (host_files r) rest)
  | false :: rest => (Err what, mkRoot (mounts r) (nodes r) (host_files r) rest)
  | [] => (Ok (), r)
  end.

Definition push (mt : Mount) (r : Root) : Root := mkRoot (mt :: mounts r) (nodes r) (host_files r) (answers r).

Definition mount_at (src : MountSource) (ro : bool) (p : path) : M Root str unit :=
  there ← gets (λ r, target_exists r p);
  if negb there then throw #"mount: no target"
  else call #"mount";;
       modify (λ r, match target r p with InCage q => push (mkMount q src ro) r | _ => r end).

Definition mount_bind (src p : path) : M Root str unit :=
  match h_canon h src with
  | None => throw #"mount: no source"
  | Some real => mount_at (FromHost real) false p
  end.

Fixpoint set_ro (q : path) (ms : list Mount) : list Mount :=
  match ms with
  | [] => []
  | m :: ms => if decide (m_at m = q) then mkMount q (m_src m) true :: ms else m :: set_ro q ms
  end.

(** The second step of a read-only bind. Only a mount can be made read-only, at the path
    it is mounted on. *)
Definition remount_ro (p : path) : M Root str unit :=
  call #"ro-remount";;
  tgt ← gets (λ r, match target r p with
                   | InCage q => match top r q with
                                 | Some mt => if decide (m_at mt = q) then Some (InCage q) else None
                                 | None => None
                                 end
                   | TooManyLinks => None
                   | out => Some out
                   end);
  match tgt with
  | Some (InCage q) => modify (λ r, mkRoot (set_ro q (mounts r)) (nodes r) (host_files r) (answers r))
  | Some _ => mret ()
  | None => throw #"ro-remount: not a mount"
  end.

(** *** Binds *)

Definition bind_into (src : path) (ro : bool) : M Root str unit :=
  (if bool_decide (h_dir h src = Some true) then create_dirs src
   else create_dirs (parent src);; create_file src);;
  mount_bind src src;;
  if ro then remount_ro src else mret ().

Definition bind_file_ro (src p : path) : M Root str unit := mount_bind src p;; remount_ro p.

Definition bind_tool_ro (t : ToolBind) : M Root str unit :=
  if negb (h_exists h (tb_real t)) then mret ()
  else create_dirs (parent (tb_link t));; create_file (tb_link t);; bind_file_ro (tb_real t) (tb_link t).

Definition plan_network_bind (canon : path) (ro_binds : list path) : option path :=
  if existsb (λ b, bool_decide (b `prefix_of` canon)) ro_binds then None else Some canon.

Definition bind_network_file_ro (src : path) : M Root str unit :=
  create_dirs (parent src);; create_file src;; bind_file_ro src src.

Definition NETWORK_FILES : list str := [ #"/etc/resolv.conf"; #"/etc/hosts"; #"/etc/nsswitch.conf"].

Fixpoint each {A} (f : A → M Root str unit) (l : list A) : M Root str unit :=
  match l with [] => mret () | x :: l => f x;; each f l end.

Definition bind_network_files (ro_binds : list path) : M Root str unit :=
  each (λ f, match h_canon h (to_path f) with
             | None => mret ()
             | Some canon => match plan_network_bind canon ro_binds with
                             | None => mret ()
                             | Some file => bind_network_file_ro file
                             end
             end) NETWORK_FILES.

Definition make_link (lt : path * str) : M Root str unit :=
  create_dirs (parent lt.1);;
  modify (λ r, match target r (parent lt.1), last lt.1 with
               | InCage d, Some name =>
                   let q := d ++ [name] in
                   if bool_decide (place r q = OnRoot) && negb (bool_decide (is_Some (nodes r !! q)))
                   then set_nodes <[q := NLink lt.2]> r else r
               | _, _ => r
               end).

Definition install_tools (spec : RootfsSpec) : M Root str unit :=
  each make_link (rf_bin_symlinks spec);;
  each create_dirs (rf_bin_dirs spec);;
  each bind_tool_ro (rf_tools spec).

(** *** Masks *)

Inductive DenyMode := WriteDeny | ReadDeny.
Inductive MaskKind := RoSelf | DevNull | EmptyDir.

Definition plan_mask (real workspace : path) (is_dir : bool) (mode : DenyMode) : option MaskKind :=
  if negb (bool_decide (workspace `prefix_of` real)) then None
  else Some (match mode, is_dir with
             | WriteDeny, _ => RoSelf
             | ReadDeny, true => EmptyDir
             | ReadDeny, false => DevNull
             end).

Definition DEV_NULL : path := [ #"dev"; #"null"].

Definition mask_in_workspace (workspace : path) (mode : DenyMode) (p : path) : M Root str unit :=
  match h_canon h p with
  | None => mret ()
  | Some real =>
      let is_dir := bool_decide (h_dir h real = Some true) in
      match plan_mask real workspace is_dir mode with
      | None => mret ()
      | Some RoSelf => if is_dir then bind_into real true else bind_file_ro real real
      | Some DevNull => mount_bind DEV_NULL real
      | Some EmptyDir => mount_at FreshTmpfs true real
      end
  end.

(** *** The shim *)

Definition install_shim (shim real_shell : path) (shadow_shells : list path) : M Root str unit :=
  create_dirs SHIM_DIR;;
  create_file IN_CAGE_REAL_SH;;
  bind_file_ro real_shell IN_CAGE_REAL_SH;;
  each (λ sh, there ← gets (λ r, target_exists r sh); if there : bool then bind_file_ro shim sh else mret ()) shadow_shells.

(** [fs::write] into the root. *)
Definition write_in_cage_policy (toml : str) : M Root str unit :=
  create_dirs (parent IN_CAGE_POLICY);;
  there ← gets (λ r, bool_decide (place r IN_CAGE_POLICY = OnRoot) && bool_decide (nodes r !! SHIM_DIR = Some NDir)
                     && negb (bool_decide (nodes r !! IN_CAGE_POLICY = Some NDir)));
  if there : bool then modify (set_nodes <[IN_CAGE_POLICY := NFile toml]>) else throw #"write in-cage policy".

(** *** The root *)

Definition DEV_NODES : list str :=
  [ #"/dev/null"; #"/dev/zero"; #"/dev/full"; #"/dev/random"; #"/dev/urandom"; #"/dev/tty"; #"/dev/ptmx";
    #"/dev/pts"; #"/dev/shm"].

Definition PROC : path := [ #"proc"].

Definition mount_fresh_proc : M Root str unit :=
  create_dirs PROC;;
  res ← attempt (mount_at FreshProc false PROC);
  match res with Ok _ => mret () | Err _ => bind_into PROC false end.

Definition build_rootfs (spec : RootfsSpec) : M Root str unit :=
  call #"create newroot dir";;
  call #"mount tmpfs";;
  each (λ d, ignore (bind_into (to_path d) false)) DEV_NODES;;
  mount_fresh_proc;;
  each (λ src, if h_exists h src then bind_into src true else mret ()) (rf_ro_binds spec);;
  bind_network_files (rf_ro_binds spec);;
  install_tools spec;;
  (if rf_workspace_read spec then bind_into (rf_workspace spec) (negb (rf_workspace_write spec)) else mret ());;
  each (λ src, if h_exists h src then bind_into src false else mret ()) (rf_rw_binds spec);;
  (if rf_workspace_read spec then
     each (mask_in_workspace (rf_workspace spec) WriteDeny) (rf_deny_write spec);;
     each (mask_in_workspace (rf_workspace spec) ReadDeny) (rf_deny_read spec)
   else mret ());;
  match rf_shim spec with
  | Some shim => install_shim shim (rf_real_shell spec) (rf_shadow_shells spec);;
                 write_in_cage_policy (rf_policy_toml spec)
  | None => mret ()
  end.

Definition pivot_into : M Root str unit :=
  call #"create .oldroot";; call #"pivot_root";; call #"chdir / after pivot";; call #"detach old root".

(** *** The launch *)

(** What runs at the end, and where. *)
Inductive Running :=
| Caged (cwd : path) (program : str) (args : list str) (env : gmap str str)
| Unconfined (program : str) (args : list str) (env : gmap str str).

Definition child_enter_and_exec (spec : RootfsSpec) (program : str) (args : list str) (env : gmap str str)
  : M Root str Running :=
  call #"mount / private";;
  build_rootfs spec;;
  pivot_into;;
  let dir := if rf_workspace_read spec then rf_workspace spec else [] in
  call #"chdir";;
  call #"exec";;
  mret (Caged dir program args env).

Definition enter_and_exec (spec : RootfsSpec) (program : str) (args : list str) (env : gmap str str)
  : M Root str Running :=
  unshared ← attempt (call #"unshare");
  match unshared with
  | Err e =>
      if allow_unconfined spec then call #"exec";; mret (Unconfined program args env)
      else throw #"unprivileged user namespace unavailable"
  | Ok _ =>
      call #"setgroups deny";; call #"uid_map";; call #"gid_map";; call #"fork into PID namespace";;
      child_enter_and_exec spec program args env
  end.
End build.

(** ** What an agent is given on Linux *)

Section spec.
Context `{!Serde Policy} (m : Machine) (h : Host).

Definition real_shell_path : path :=
  let candidates := map to_path [ #"/bin/bash"; #"/usr/bin/bash"; #"/bin/sh"; #"/usr/bin/sh"] in
  default (to_path #"/bin/bash") (List.find (h_exists h) candidates).

Definition shadow_shell_paths : list path :=
  map to_path [ #"/bin/sh"; #"/bin/bash"; #"/bin/dash"; #"/usr/bin/sh"; #"/usr/bin/bash"; #"/usr/bin/dash"].

Definition build_rootfs_spec (program : str) (policy : Policy) : result str RootfsSpec :=
  match resolve_workspace m (ws_root (workspace policy)), ser policy with
  | None, _ => Err #"current directory"
  | Some _, Err e => Err (#"serialize policy for in-cage shim: " ++ e)
  | Some ws, Ok toml =>
      let home := var m #"HOME" in
      let layout := system_layout h in
      let workspace := to_path ws in
      Ok (mkRootfs workspace (cc_read (caps policy)) (cc_write (caps policy)) (coarse_ro layout)
            (bin_dirs layout) (lay_symlinks layout) (resolve_tools h m program policy home)
            (map to_path (corpus_for_agent program home).2
             ++ match home with Some d => [path_join (to_path d) #".orkia/run"] | None => [] end)
            (map (path_join workspace) [ #".git/config"; #".git/hooks"; #".mcp.json"])
            (map (path_join workspace) [ #".env"])
            (bool_decide (is_Some (var m #"ORKIA_CAGE_ALLOW_UNCONFINED")))
            (to_path <$> orkia_sh_path m) real_shell_path shadow_shell_paths toml)
  end.

Definition linux_agent_env (mediated : bool) : gmap str str :=
  if mediated then <[ #"ORKIA_SH_REAL" := #"/.orkia-sh/real-sh"]>
                     (<[ #"ORKIA_CAGE_POLICY" := #"/.orkia-sh/policy.toml"]> (allowed_env m))
  else allowed_env m.

Definition launch_linux (program : str) (args : list str) (policy : Policy) : M Root str Running :=
  spec ← lift (build_rootfs_spec program policy);
  enter_and_exec h spec program args (linux_agent_env (bool_decide (is_Some (rf_shim spec)))).
End spec.

(** ** Confinement *)

(** What a part of the construction adds to the mounts when it succeeds, and when it
    does not. *)
Definition adds {A} (P Q : Mount → Prop) (c : M Root str A) : Prop :=
  ∀ r, match c r with
       | (Ok _, r') => ∃ new, mounts r' = new ++ mounts r ∧ Forall P new
       | (Err _, r') => ∃ new, mounts r' = new ++ mounts r ∧ Forall Q new
       end.

Section adds.
Context (P Q : Mount → Prop).

Lemma adds_ret {A} (a : A) : adds P Q (mret a).
Proof. intros r. by exists []. Qed.

Lemma adds_throw {A} e : adds (A := A) P Q (throw e).
Proof. intros r. by exists []. Qed.

Lemma adds_gets {A} (f : Root → A) : adds P Q (gets f).
Proof. intros r. by exists []. Qed.

Lemma adds_lift {A} (x : result str A) : adds P Q (lift x).
Proof. intros r. unfold lift. destruct x; by exists []. Qed.

Lemma adds_bind {A B} (c : M Root str A) (k : A → M Root str B) :
  (∀ mt, P mt → Q mt) → adds P Q c → (∀ a, adds P Q (k a)) → adds P Q (c ≫= k).
Proof.
  intros HPQ Hc Hk r. specialize (Hc r). unfold mbind, M_bind. destruct (c r) as [[a|e] r1]; [|done].
  destruct Hc as (n1 & E1 & F1). specialize (Hk a r1). destruct (k a r1) as [[b|e] r2];
    destruct Hk as (n2 & E2 & F2); exists (n2 ++ n1); (split; [by rewrite E2, E1, app_assoc|]);
    apply Forall_app_2; try done. by eapply list.Forall_impl.
Qed.

Lemma adds_call what : adds P Q (call what).
Proof. intros r. unfold call. destruct (answers r) as [|[] ?]; by exists []. Qed.

Lemma adds_keep (f : Root → Root) : (∀ r, mounts (f r) = mounts r) → adds P Q (modify f).
Proof. intros Hf r. exists []. by rewrite Hf. Qed.

Lemma adds_each {A} (f : A → M Root str unit) l :
  (∀ mt, P mt → Q mt) → (∀ x, x ∈ l → adds P Q (f x)) → adds P Q (each f l).
Proof.
  intros HPQ. induction l as [|x l IH]; intros Hf; [apply adds_ret|]. cbn [each].
  apply adds_bind; [done|apply Hf; left|]. intros _. apply IH. intros y Hy. apply Hf. by right.
Qed.

Lemma adds_ignore {A} (c : M Root str A) : (∀ mt, Q mt → P mt) → adds P Q c → adds P Q (ignore c).
Proof.
  intros HQP Hc r. specialize (Hc r). unfold ignore. destruct (c r) as [[a|e] r1]; [done|].
  destruct Hc as (n & E & F). exists n. split; [done|]. by eapply list.Forall_impl.
Qed.

Lemma adds_attempt {A} (c : M Root str A) :
  (∀ mt, Q mt → P mt) → adds P Q c → adds P Q (attempt c : M Root str _).
Proof.
  intros HQP Hc r. specialize (Hc r). unfold attempt. destruct (c r) as [[a|e] r1]; [done|].
  destruct Hc as (n & E & F). exists n. split; [done|]. by eapply list.Forall_impl.
Qed.
End adds.

Lemma adds_weaken {A} (P P' Q Q' : Mount → Prop) (c : M Root str A) :
  (∀ mt, P mt → P' mt) → (∀ mt, Q mt → Q' mt) → adds P Q c → adds P' Q' c.
Proof.
  intros HP HQ Hc r. specialize (Hc r). destruct (c r) as [[a|e] r1]; destruct Hc as (n & E & F); exists n;
    (split; [done|]); by eapply list.Forall_impl.
Qed.

(** *** Mounting *)

Lemma make_dirs_mounts r d rest : mounts (make_dirs r d rest) = mounts r.
Proof.
  revert r d. induction rest as [|c rest IH]; intros r d; [done|]. cbn [make_dirs].
  destruct (place r (d ++ [c])); try done. destruct (nodes r !! _) as [[]|]; try done; by rewrite IH.
Qed.

Section mounting.
Context (h : Host).

Lemma adds_dirs P Q p : adds P Q (create_dirs p).
Proof. apply adds_keep. intros r. destruct (target r p); [apply make_dirs_mounts|done..]. Qed.

Lemma truncate_mounts q r : mounts (truncate_host h q r) = mounts r.
Proof. unfold truncate_host. by destruct (_ && _). Qed.

Lemma adds_file P Q p : adds P Q (create_file h p).
Proof.
  apply adds_keep. intros r. destruct (target r p) as [q|q|]; [|apply truncate_mounts|done].
  destruct (place r q) as [|hp []| |]; try done; [|apply truncate_mounts].
  destruct (nodes r !! q) as [[]|]; cbn zeta; try done; by destruct (_ || _).
Qed.

(** *** A mount keeps its target *)

Lemma find_push r mt p : top (push mt r) p = if covers p mt then Some mt else top r p.
Proof. done. Qed.

Lemma walk_push r mt d rest :
  walk (push mt r) d rest = walk r d rest ∨ (walk (push mt r) d rest = None ∧ m_at mt `prefix_of` (d ++ rest)).
Proof.
  revert d. induction rest as [|c rest IH]; intros d; [by left|]. cbn [walk].
  unfold place. rewrite find_push. destruct (covers (d ++ [c]) mt) eqn:Ec.
  - right. unfold covers in Ec. apply bool_decide_eq_true in Ec.
    split; [destruct (m_src mt); by cbn|]. replace (d ++ c :: rest) with ((d ++ [c]) ++ rest) by (by rewrite <- app_assoc).
    by apply prefix_app_r.
  - fold (place r (d ++ [c])). destruct (place r (d ++ [c])); try (by left).
    change (nodes (push mt r)) with (nodes r). specialize (IH (d ++ [c])).
    rewrite <- app_assoc in IH. destruct (nodes r !! (d ++ [c])) as [[]|]; try (by left); exact IH.
Qed.

Lemma follow_push fuel r mt p :
  follow fuel r p = InCage (m_at mt) →
  ∃ q, follow fuel (push mt r) p = InCage q ∧ m_at mt `prefix_of` q.
Proof.
  revert p. induction fuel as [|fuel IH]; intros p; [done|]. cbn [follow].
  destruct (walk_push r mt [] p) as [E|[E Hp]].
  - rewrite E. destruct (walk r [] p) as [[[d t] rest]|].
    + destruct (starts_with _ t); [done|]. apply IH.
    + intros [= ->]. eauto.
  - rewrite E. intros _. by exists p.
Qed.

Lemma follow_out_push fuel r a p :
  follow fuel (mkRoot (mounts r) (nodes r) (host_files r) a) p = follow fuel r p.
Proof.
  assert (∀ d rest, walk (mkRoot (mounts r) (nodes r) (host_files r) a) d rest = walk r d rest) as Hw.
  { intros d rest. revert d. induction rest as [|c rest IH]; intros d; [done|]. cbn [walk].
    change (place (mkRoot (mounts r) (nodes r) (host_files r) a)) with (place r).
    destruct (place r _); try done. change (nodes (mkRoot _ (nodes r) _ _)) with (nodes r). by rewrite IH. }
  revert p. induction fuel as [|fuel IH]; intros p; [done|]. cbn [follow]. rewrite Hw.
  destruct (walk r [] p) as [[[d t] rest]|]; [|done]. by rewrite IH.
Qed.

Definition with_answers (a : list bool) (r : Root) : Root := mkRoot (mounts r) (nodes r) (host_files r) a.

Lemma call_run what r : ∃ a, (call what r).2 = with_answers a r.
Proof. unfold call. destruct r as [ms ns hf [|[] a]]; eexists; by unfold with_answers. Qed.

Lemma mount_at_run src ro p r :
  match mount_at h src ro p r with
  | (Ok _, r') => ∃ a, r' = match target r p with
                            | InCage q => push (mkMount q src ro) (with_answers a r)
                            | _ => with_answers a r
                            end
  | (Err _, r') => mounts r' = mounts r
  end.
Proof.
  unfold mount_at, gets, modify, mbind, M_bind. destruct (target_exists h r p); [|done].
  destruct (call_run #"mount" r) as [a Ha]. cbn [negb]. destruct (call _ r) as [[]  r1]; cbn [snd] in Ha; subst r1.
  - exists a. unfold target. unfold with_answers at 1. by rewrite follow_out_push.
  - done.
Qed.

Lemma remount_run p r :
  match remount_ro p r with
  | (Ok _, r') => (∃ q mt, target r p = InCage q ∧ top r q = Some mt ∧ m_at mt = q ∧ mounts r' = set_ro q (mounts r))
                  ∨ (∃ q, target r p = OutOfCage q) ∧ mounts r' = mounts r
  | (Err _, r') => mounts r' = mounts r
  end.
Proof.
  unfold remount_ro, gets, modify, mbind, M_bind.
  destruct (call_run #"ro-remount" r) as [a Ha]. destruct (call _ r) as [[] r1]; cbn [snd] in Ha; subst r1; [|done].
  unfold target. unfold with_answers at 1. rewrite follow_out_push.
  destruct (follow 41 r p) as [q|q|]; [|by right; eauto|done].
  change (top (with_answers a r) q) with (top r q). destruct (top r q) as [mt|] eqn:Et; [|done].
  destruct (decide (m_at mt = q)); [|done]. left. exists q, mt. done.
Qed.

Lemma target_answers a r p : target (with_answers a r) p = target r p.
Proof. apply follow_out_push. Qed.

Lemma adds_mount_at P Q src ro p : (∀ q, P (mkMount q src ro)) → adds P Q (mount_at h src ro p).
Proof.
  intros HP r. pose proof (mount_at_run src ro p r) as Hm. destruct (mount_at h src ro p r) as [[u|e] r1]; [|by exists []].
  destruct Hm as [a ->]. destruct (target r p) as [q| |]; [|by exists []..].
  exists [mkMount q src ro]. by repeat constructor.
Qed.

Lemma adds_mount_bind P Q src p :
  (∀ q real, h_canon h src = Some real → P (mkMount q (FromHost real) false)) → adds P Q (mount_bind h src p).
Proof.
  intros HP. unfold mount_bind. destruct (h_canon h src) as [real|]; [|apply adds_throw].
  apply adds_mount_at. intros q. by apply HP.
Qed.

(** A bind that is made read-only is the one just made. *)
Lemma bind_ro_run src p r :
  match bind_file_ro h src p r with
  | (Ok _, r') => ∃ real, h_canon h src = Some real ∧
      match target r p with
      | InCage q => mounts r' = mkMount q (FromHost real) true :: mounts r
      | OutOfCage _ => mounts r' = mounts r
      | TooManyLinks => False
      end
  | (Err _, r') => mounts r' = mounts r ∨
      ∃ real q, h_canon h src = Some real ∧ mounts r' = mkMount q (FromHost real) false :: mounts r
  end.
Proof.
  unfold bind_file_ro, mount_bind. destruct (h_canon h src) as [real|] eqn:Ec; [|by left].
  pose proof (mount_at_run (FromHost real) false p r) as Hm. unfold mbind, M_bind.
  destruct (mount_at h (FromHost real) false p r) as [[[]|e] r1]; [|by left].
  destruct Hm as [a ->]. destruct (target r p) as [q| |] eqn:Et.
  - pose proof (remount_run p (push (mkMount q (FromHost real) false) (with_answers a r))) as Hr.
    destruct (remount_ro p _) as [[[]|e] r2]; [|right; by exists real, q]. exists real. split; [done|].
    assert (∃ q', target (push (mkMount q (FromHost real) false) (with_answers a r)) p = InCage q' ∧ q `prefix_of` q')
      as (q' & Hq' & Hpre).
    { apply (follow_push 41 (with_answers a r) (mkMount q (FromHost real) false)).
      unfold target in Et. cbn [m_at]. rewrite <- Et. apply follow_out_push. }
    destruct Hr as [(q2 & mt & Hq2 & Ht & Hat & Hms)|[[q2 Hq2] _]]; [|congruence].
    assert (q2 = q') as -> by congruence. rewrite find_push in Ht. unfold covers in Ht. cbn [m_at] in Ht.
    rewrite bool_decide_eq_true_2 in Ht by done. simplify_eq/=. by rewrite decide_True in Hms.
  - pose proof (remount_run p (with_answers a r)) as Hr. rewrite target_answers, Et in Hr.
    destruct (remount_ro p _) as [[[]|e] r2]; [|by left]. exists real. split; [done|].
    by destruct Hr as [(? & ? & ? & _)|[_ E]].
  - pose proof (remount_run p (with_answers a r)) as Hr. rewrite target_answers, Et in Hr.
    destruct (remount_ro p _) as [[[]|e] r2]; [|by left]. exists real. split; [done|].
    by destruct Hr as [(? & ? & ? & _)|[[? ?] _]].
Qed.

Lemma adds_bind_ro (P Q : Mount → Prop) src p :
  (∀ q real, h_canon h src = Some real →
     P (mkMount q (FromHost real) true) ∧ Q (mkMount q (FromHost real) false)) →
  adds P Q (bind_file_ro h src p).
Proof.
  intros HP r. pose proof (bind_ro_run src p r) as Hr. destruct (bind_file_ro h src p r) as [[u|e] r'].
  - destruct Hr as (real & Ec & Hr). destruct (target r p) as [q| |]; [|by exists []|done].
    exists [mkMount q (FromHost real) true]. split; [done|]. constructor; [by apply HP|constructor].
  - destruct Hr as [E|(real & q & Ec & E)]; [by exists []|].
    exists [mkMount q (FromHost real) false]. split; [done|]. constructor; [by apply HP|constructor].
Qed.

Lemma adds_bind_into (P Q : Mount → Prop) src ro :
  (∀ mt, P mt → Q mt) →
  (∀ q real, h_canon h src = Some real → P (mkMount q (FromHost real) ro) ∧ Q (mkMount q (FromHost real) false)) →
  adds P Q (bind_into h src ro).
Proof.
  intros HPQ HP. unfold bind_into. apply adds_bind; [done| |intros _].
  - destruct (bool_decide _); [apply adds_dirs|]. apply adds_bind; [done|apply adds_dirs|intros _; apply adds_file].
  - destruct ro; [by apply adds_bind_ro|]. apply adds_bind; [done| |intros _; apply adds_ret].
    apply adds_mount_bind. intros q real E. by apply HP.
Qed.

(** What a root shows of the host, and whether it can be written there. *)
Inductive grants (spec : RootfsSpec) : path → bool → Prop :=
| g_dev d q : d ∈ DEV_NODES → h_canon h (to_path d) = Some q → grants spec q false
| g_proc q : h_canon h PROC = Some q → grants spec q false
| g_lib d q : d ∈ rf_ro_binds spec → h_canon h d = Some q → grants spec q true
| g_network f p q : f ∈ NETWORK_FILES → h_canon h (to_path f) = Some p → h_canon h p = Some q → grants spec q true
| g_tool t q : t ∈ rf_tools spec → h_canon h (tb_real t) = Some q → grants spec q true
| g_workspace q : rf_workspace_read spec = true → h_canon h (rf_workspace spec) = Some q →
    grants spec q (negb (rf_workspace_write spec))
| g_corpus d q : d ∈ rf_rw_binds spec → h_canon h d = Some q → grants spec q false
| g_masked p real q : rf_workspace_read spec = true → p ∈ rf_deny_write spec → h_canon h p = Some real →
    rf_workspace spec `prefix_of` real → h_canon h real = Some q → grants spec q true
| g_null q : rf_workspace_read spec = true → h_canon h DEV_NULL = Some q → grants spec q false
| g_shell q : is_Some (rf_shim spec) → h_canon h (rf_real_shell spec) = Some q → grants spec q true
| g_shim s q : rf_shim spec = Some s → h_canon h s = Some q → grants spec q true.

Definition granted (spec : RootfsSpec) (mt : Mount) : Prop :=
  match m_src mt with
  | FromHost q => grants spec q (m_ro mt)
  | FreshTmpfs => m_ro mt = true
  | FreshProc => True
  end.

Let any (mt : Mount) : Prop := True.

Context (spec : RootfsSpec).

(** One step of a sequence, then the rest. *)
Ltac adds_step := apply adds_bind; [done| |intros _].

Lemma devices_grant : adds (granted spec) any (each (λ d, ignore (bind_into h (to_path d) false)) DEV_NODES).
Proof.
  apply adds_each; [done|]. intros d Hd. apply (adds_weaken (granted spec) _ (granted spec)); [done..|].
  apply adds_ignore; [done|]. apply adds_bind_into; [done|]. intros q real E. split; by eapply g_dev.
Qed.

Lemma proc_grant : adds (granted spec) any (mount_fresh_proc h).
Proof.
  apply (adds_weaken (granted spec) _ (granted spec)); [done..|]. adds_step; [apply adds_dirs|].
  apply adds_bind; [done| |].
  - apply adds_attempt; [done|]. by apply adds_mount_at.
  - intros []; [apply adds_ret|]. apply adds_bind_into; [done|]. intros q real E. split; by eapply g_proc.
Qed.

Lemma network_grant : adds (granted spec) any (bind_network_files h (rf_ro_binds spec)).
Proof.
  apply adds_each; [done|]. intros f Hf. destruct (h_canon h (to_path f)) as [p|] eqn:Ef; [|apply adds_ret].
  unfold plan_network_bind. destruct (existsb _ _); [apply adds_ret|].
  adds_step; [apply adds_dirs|]. adds_step; [apply adds_file|].
  apply adds_bind_ro. intros q real E. split; [by eapply g_network|done].
Qed.

Lemma tools_grant : adds (granted spec) any (install_tools h spec).
Proof.
  adds_step; [|adds_step]; (apply adds_each; [done|]).
  - intros lt _. adds_step; [apply adds_dirs|].
    apply adds_keep. intros r. destruct (target r _); [|done..]. destruct (last lt.1); [|done].
    cbn zeta. by destruct (_ && _).
  - intros d _. apply adds_dirs.
  - intros t Ht. unfold bind_tool_ro. destruct (negb _); [apply adds_ret|].
    adds_step; [apply adds_dirs|]. adds_step; [apply adds_file|].
    apply adds_bind_ro. intros q real E. split; [by eapply g_tool|done].
Qed.

Lemma binds_grant ds ro :
  (∀ d q, d ∈ ds → h_canon h d = Some q → grants spec q ro) →
  adds (granted spec) any (each (λ src, if h_exists h src then bind_into h src ro else mret ()) ds).
Proof.
  intros Hg. apply adds_each; [done|]. intros d Hd. destruct (h_exists h d); [|apply adds_ret].
  apply adds_bind_into; [done|]. intros q real E. split; [by eapply Hg|done].
Qed.

Lemma masks_grant :
  rf_workspace_read spec = true →
  adds (granted spec) any
    (each (mask_in_workspace h (rf_workspace spec) WriteDeny) (rf_deny_write spec);;
     each (mask_in_workspace h (rf_workspace spec) ReadDeny) (rf_deny_read spec)).
Proof.
  intros Er. adds_step; (apply adds_each; [done|]); intros p Hp; unfold mask_in_workspace, plan_mask;
    (destruct (h_canon h p) as [real|] eqn:Ep; [|apply adds_ret]);
    (destruct (negb _) eqn:En; [apply adds_ret|]); apply negb_false_iff, bool_decide_eq_true in En.
  - destruct (bool_decide _); [apply adds_bind_into; [done|]|apply adds_bind_ro];
      intros q real' E; (split; [by eapply g_masked|done]).
  - destruct (bool_decide _); [by apply adds_mount_at|]. apply adds_mount_bind. intros q real' E. by eapply g_null.
Qed.

Lemma shim_grant sh :
  rf_shim spec = Some sh →
  adds (granted spec) any (install_shim h sh (rf_real_shell spec) (rf_shadow_shells spec);;
                           write_in_cage_policy (rf_policy_toml spec)).
Proof.
  intros Es. adds_step.
  - adds_step; [apply adds_dirs|]. adds_step; [apply adds_file|]. adds_step.
    + apply adds_bind_ro. intros q real E. split; [by eapply g_shell|done].
    + apply adds_each; [done|]. intros s _. apply adds_bind; [done|apply adds_gets|intros []]; [|apply adds_ret].
      apply adds_bind_ro. intros q real E. split; [by eapply g_shim|done].
  - adds_step; [apply adds_dirs|].
    apply adds_bind; [done|apply adds_gets|intros []]; [by apply adds_keep|apply adds_throw].
Qed.

Lemma build_rootfs_grants : adds (granted spec) any (build_rootfs h spec).
Proof.
  unfold build_rootfs. do 2 (adds_step; [apply adds_call|]).
  adds_step; [apply devices_grant|]. adds_step; [apply proc_grant|].
  adds_step; [apply binds_grant; intros; by eapply g_lib|].
  adds_step; [apply network_grant|]. adds_step; [apply tools_grant|]. adds_step.
  { destruct (rf_workspace_read spec) eqn:Er; [|apply adds_ret]. apply adds_bind_into; [done|].
    intros q real E. split; [by eapply g_workspace|done]. }
  adds_step; [apply binds_grant; intros; by eapply g_corpus|].
  adds_step; [destruct (rf_workspace_read spec) eqn:Er; [by apply masks_grant|apply adds_ret]|].
  destruct (rf_shim spec) as [sh|] eqn:Es; [by apply shim_grant|apply adds_ret].
Qed.

Lemma child_grants program args env : adds (granted spec) any (child_enter_and_exec h spec program args env).
Proof.
  adds_step; [apply adds_call|]. adds_step; [apply build_rootfs_grants|]. adds_step.
  { unfold pivot_into. do 3 (adds_step; [apply adds_call|]). apply adds_call. }
  do 2 (adds_step; [apply adds_call|]). apply adds_ret.
Qed.

Lemma enter_grants program args env : adds (granted spec) any (enter_and_exec h spec program args env).
Proof.
  apply adds_bind; [done| |].
  - apply (adds_weaken (granted spec) _ (granted spec)); [done..|]. apply adds_attempt; [done|]. apply adds_call.
  - intros []; [do 4 (adds_step; [apply adds_call|]); apply child_grants|].
    destruct (allow_unconfined spec); [|apply adds_throw]. adds_step; [apply adds_call|apply adds_ret].
Qed.
End mounting.

Lemma place_granted h spec r p q ro :
  Forall (granted h spec) (mounts r) → place r p = OnHost q ro →
  ∃ root, grants h spec root ro ∧ root `prefix_of` q.
Proof.
  unfold place, top. intros Hg. destruct (List.find _ _) as [mt|] eqn:Et; [|done].
  apply List.find_some in Et as [Hin _]. apply list_elem_of_In in Hin.
  rewrite list.Forall_forall in Hg. apply Hg in Hin. unfold granted in Hin.
  destruct (m_src mt) as [root| |]; [|done..]. intros [= <- <-]. exists root. split; [done|]. by apply prefix_app_r.
Qed.

(** The value of a sequence is that of its last step. *)
Lemma bind_value {A B} (P : B → Prop) (c : M Root str A) (k : A → M Root str B) r b r' :
  (∀ a r1 r2 b, k a r1 = (Ok b, r2) → P b) → (c ≫= k) r = (Ok b, r') → P b.
Proof. intros Hk. unfold mbind, M_bind. destruct (c r) as [[a|e] r1]; [apply Hk|done]. Qed.

Lemma child_caged h spec program args env r x r' :
  child_enter_and_exec h spec program args env r = (Ok x, r') →
  x = Caged (if rf_workspace_read spec then rf_workspace spec else []) program args env.
Proof.
  unfold child_enter_and_exec. do 5 (apply (bind_value (λ x, x = _)); intros [] ? ? ?).
  by intros [= <- _].
Qed.

Lemma enter_unconfined h spec program args env r pr ar en r' :
  enter_and_exec h spec program args env r = (Ok (Unconfined pr ar en), r') → allow_unconfined spec = true.
Proof.
  unfold enter_and_exec.
  apply (bind_value (λ x, match x with Unconfined _ _ _ => allow_unconfined spec = true | _ => True end)).
  intros [u|e] r1 r2 b.
  - do 4 (apply (bind_value (λ x, match x with Unconfined _ _ _ => allow_unconfined spec = true | _ => True end));
          intros [] ? ? ?). by intros ->%child_caged.
  - destruct (allow_unconfined spec); [|done]. by destruct b.
Qed.

Definition runs_as (spec : RootfsSpec) (program : str) (args : list str) (env : gmap str str) (x : Running) : Prop :=
  x = Caged (if rf_workspace_read spec then rf_workspace spec else []) program args env ∨
  x = Unconfined program args env.

Lemma enter_runs h spec program args env r x r' :
  enter_and_exec h spec program args env r = (Ok x, r') → runs_as spec program args env x.
Proof.
  unfold enter_and_exec. apply (bind_value (runs_as spec program args env)). intros [u|e] r1 r2 b.
  - do 4 (apply (bind_value (runs_as spec program args env)); intros [] ? ? ?). intros ->%child_caged. by left.
  - destruct (allow_unconfined spec); [|done]. apply (bind_value (runs_as spec program args env)).
    intros [] ? ? ? [= <- _]. by right.
Qed.


(** ** Masks and shells *)

Definition keeps {A} (I : Root → Prop) (c : M Root str A) : Prop := ∀ r, I r → I (c r).2.

Section keeps.
Context (I : Root → Prop).

Lemma keeps_pure {A} (f : Root → result str A) : keeps I (λ r, (f r, r)).
Proof. by intros r Hr. Qed.

Lemma keeps_bind {A B} (c : M Root str A) (k : A → M Root str B) : keeps I c → (∀ a, keeps I (k a)) → keeps I (c ≫= k).
Proof.
  intros Hc Hk r Hr. specialize (Hc r Hr). unfold mbind, M_bind. destruct (c r) as [[a|e] r1]; [|done].
  by apply Hk.
Qed.

Lemma keeps_each {A} (f : A → M Root str unit) l : (∀ x, x ∈ l → keeps I (f x)) → keeps I (each f l).
Proof.
  induction l as [|x l IH]; intros Hf; [apply (keeps_pure (λ _, Ok ()))|]. cbn [each]. apply keeps_bind; [apply Hf; left|].
  intros _. apply IH. intros y Hy. apply Hf. by right.
Qed.

Lemma keeps_run {A B} (f : result str A → result str B) (c : M Root str A) :
  keeps I c → keeps I (λ r, (f (c r).1, (c r).2)).
Proof. intros Hc r Hr. by apply Hc. Qed.

(** A step of a sequence that succeeds: what it starts from, and what follows it adds. *)
Lemma each_reaches {A} (P : Mount → Prop) (f : A → M Root str unit) l x r r' :
  (∀ y, y ∈ l → adds P (λ _, True) (f y)) → (∀ y, y ∈ l → keeps I (f y)) →
  I r → each f l r = (Ok (), r') → x ∈ l →
  ∃ r1 r2 new, I r1 ∧ f x r1 = (Ok (), r2) ∧ mounts r' = new ++ mounts r2 ∧ Forall P new.
Proof.
  revert r. induction l as [|y l IH]; intros r Ha Hk Hi He Hx; [by apply elem_of_nil in Hx|].
  cbn [each] in He. apply M_bind_Ok in He as ([] & r1 & Hf & He). apply elem_of_cons in Hx as [->|Hx].
  - exists r, r1. pose proof (adds_each P (λ _, True) f l ltac:(done) ltac:(intros; apply Ha; by right) r1) as Hn.
    rewrite He in Hn. destruct Hn as (new & E & F). eauto.
  - apply (IH r1); try done; [intros; apply Ha; by right|intros; apply Hk; by right|].
    specialize (Hk y ltac:(left) r Hi). by rewrite Hf in Hk.
Qed.
End keeps.

(** *** Facts the construction keeps *)

(** A fact about a root that mounts, answers, new directories and files, and emptied files
    of the host leave true. *)
Class stable (h : Host) (I : Root → Prop) : Prop := {
  stable_same r ms hf a : hf = host_files r → I r → I (mkRoot ms (nodes r) hf a);
  stable_node r p n : (∀ t, n ≠ NLink t) → I r → I (set_nodes <[p := n]> r);
  stable_truncate r q : I r → I (truncate_host h q r);
}.

Section stable.
Context (h : Host) (I : Root → Prop) `{!stable h I}.

Lemma keeps_ok {A} (f : Root → A) : keeps I (λ r, (Ok (f r), r)).
Proof. by intros r Hr. Qed.

Lemma stable_make_dirs r d rest : I r → I (make_dirs r d rest).
Proof.
  revert r d. induction rest as [|c rest IH]; intros r d Hl; [done|]. cbn [make_dirs].
  destruct (place r (d ++ [c])); try done. destruct (nodes r !! _) as [[]|]; try done; apply IH; [done|].
  by apply (stable_node (h := h)).
Qed.

Lemma keeps_call what : keeps I (call what).
Proof. intros r. destruct (call_run what r) as [a ->]. by apply (stable_same (h := h)). Qed.

Lemma keeps_modify (f : Root → Root) : (∀ r, I r → I (f r)) → keeps I (modify f).
Proof. intros Hf r Hr. by apply Hf. Qed.

Lemma keeps_dirs p : keeps I (create_dirs p).
Proof. apply keeps_modify. intros r Hr. destruct (target r p); [by apply stable_make_dirs|done..]. Qed.

Lemma keeps_file p : keeps I (create_file h p).
Proof.
  apply keeps_modify. intros r Hr. destruct (target r p) as [q|q|]; [|by apply stable_truncate|done].
  destruct (place r q) as [|hp []| |]; try done; [|by apply stable_truncate].
  destruct (nodes r !! q) as [[]|]; cbn zeta; try done; destruct (_ || _); try done; by apply (stable_node (h := h)).
Qed.

Lemma keeps_mount_at src ro p : keeps I (mount_at h src ro p).
Proof.
  unfold mount_at. apply keeps_bind; [apply keeps_ok|]. intros there.
  destruct (negb there); [apply (keeps_pure _ (λ _, Err _))|]. apply keeps_bind; [apply keeps_call|]. intros _.
  apply keeps_modify. intros r Hr. destruct (target r p); try done. by apply (stable_same (h := h)).
Qed.

Lemma keeps_mount_bind src p : keeps I (mount_bind h src p).
Proof. unfold mount_bind. destruct (h_canon h src); [apply keeps_mount_at|apply (keeps_pure _ (λ _, Err _))]. Qed.

Lemma keeps_remount p : keeps I (remount_ro p).
Proof.
  unfold remount_ro. apply keeps_bind; [apply keeps_call|]. intros _. apply keeps_bind; [apply keeps_ok|].
  intros [[q|q|]|]; try apply keeps_ok; [|apply (keeps_pure _ (λ _, Err _))].
  apply keeps_modify. intros r Hr. by apply (stable_same (h := h)).
Qed.

Lemma keeps_bind_into src ro : keeps I (bind_into h src ro).
Proof.
  unfold bind_into. apply keeps_bind.
  { destruct (bool_decide _); [apply keeps_dirs|]. apply keeps_bind; [apply keeps_dirs|]. intros _. apply keeps_file. }
  intros _. apply keeps_bind; [apply keeps_mount_bind|]. intros _.
  destruct ro; [apply keeps_remount|apply keeps_ok].
Qed.

Lemma keeps_bind_ro src p : keeps I (bind_file_ro h src p).
Proof. apply keeps_bind; [apply keeps_mount_bind|]. intros _. apply keeps_remount. Qed.

Lemma keeps_binds ds ro : keeps I (each (λ src, if h_exists h src then bind_into h src ro else mret ()) ds).
Proof. apply keeps_each. intros d _. destruct (h_exists h d); [apply keeps_bind_into|apply keeps_ok]. Qed.

Lemma keeps_mask ws mode p : keeps I (mask_in_workspace h ws mode p).
Proof.
  unfold mask_in_workspace. destruct (h_canon h p) as [real|]; [|apply keeps_ok].
  destruct (plan_mask _ _ _ _) as [[]|]; [|apply keeps_mount_bind|apply keeps_mount_at|apply keeps_ok].
  destruct (bool_decide _); [apply keeps_bind_into|apply keeps_bind_ro].
Qed.

Lemma keeps_masks spec :
  keeps I (if rf_workspace_read spec then
             each (mask_in_workspace h (rf_workspace spec) WriteDeny) (rf_deny_write spec);;
             each (mask_in_workspace h (rf_workspace spec) ReadDeny) (rf_deny_read spec)
           else mret ()).
Proof.
  destruct (rf_workspace_read spec); [|apply keeps_ok].
  apply keeps_bind; [|intros _]; apply keeps_each; intros; apply keeps_mask.
Qed.

Lemma keeps_install shim shell shells : keeps I (install_shim h shim shell shells).
Proof.
  unfold install_shim. apply keeps_bind; [apply keeps_dirs|]. intros _. apply keeps_bind; [apply keeps_file|]. intros _.
  apply keeps_bind; [apply keeps_bind_ro|]. intros _. apply keeps_each. intros sh _.
  apply keeps_bind; [apply keeps_ok|]. intros []; [apply keeps_bind_ro|apply keeps_ok].
Qed.

Lemma keeps_policy toml : keeps I (write_in_cage_policy toml).
Proof.
  unfold write_in_cage_policy. apply keeps_bind; [apply keeps_dirs|]. intros _. apply keeps_bind; [apply keeps_ok|].
  intros []; [|apply (keeps_pure _ (λ _, Err _))]. apply keeps_modify. intros r. by apply (stable_node (h := h)).
Qed.
End stable.

(** *** Links *)

Section links.
Context (h : Host) (spec : RootfsSpec).

Definition link_paths : list path := map fst (rf_bin_symlinks spec).

(** The only links of the root are those of the system layout. *)
Definition links_known (r : Root) : Prop := ∀ l t, nodes r !! l = Some (NLink t) → l ∈ link_paths.

(** A path that passes through none of them. *)
Definition link_free (p : path) : Prop := ∀ l, l ∈ link_paths → ¬ l `prefix_of` p.

Lemma walk_free r d rest : links_known r → link_free (d ++ rest) → walk r d rest = None.
Proof.
  intros Hl. revert d. induction rest as [|c rest IH]; intros d Hf; [done|]. cbn [walk].
  assert (link_free ((d ++ [c]) ++ rest)) as Hf' by (by rewrite <- app_assoc).
  destruct (place r (d ++ [c])); try done.
  destruct (nodes r !! (d ++ [c])) as [[]|] eqn:En; try (by apply IH).
  exfalso. apply (Hf' (d ++ [c])); [by eapply Hl|by apply prefix_app_r].
Qed.

Lemma target_free r p : links_known r → link_free p → target r p = InCage p.
Proof. intros Hl Hf. unfold target. cbn [follow]. by rewrite (walk_free r [] p). Qed.

Lemma known_same r r' : nodes r' = nodes r → links_known r → links_known r'.
Proof. unfold links_known. by intros ->. Qed.

Lemma known_insert r p n : (∀ t, n ≠ NLink t) → links_known r → links_known (set_nodes <[p := n]> r).
Proof.
  intros Hn Hl l t. simpl. intros [[-> E]|[_ E]]%lookup_insert_Some; [by apply Hn in E|by eapply Hl].
Qed.

#[export] Instance links_stable : stable h links_known.
Proof.
  split; [intros; by eapply known_same|intros; by apply known_insert|].
  intros r q Hr. unfold truncate_host. destruct (_ && _); [by eapply known_same|done].
Qed.

(** Links are made in directories reached without links. *)
Definition layout_plain : Prop := ∀ lt, lt ∈ rf_bin_symlinks spec → lt.1 ≠ [] ∧ link_free (parent lt.1).

Lemma parent_last (p : path) name : last p = Some name → parent p ++ [name] = p.
Proof.
  destruct p as [|x p] using rev_ind; [done|]. rewrite last_snoc. intros [= ->]. unfold parent.
  rewrite length_app. simpl. replace (length p + 1 - 1) with (length p) by lia. by rewrite take_app_length.
Qed.

Lemma keeps_link lt : layout_plain → lt ∈ rf_bin_symlinks spec → keeps links_known (make_link lt).
Proof.
  intros Hp Hlt. destruct (Hp lt Hlt) as [_ Hf]. unfold make_link.
  apply keeps_bind; [apply (keeps_dirs h links_known)|]. intros _.
  apply keeps_modify. intros r Hr. rewrite (target_free r _ Hr Hf).
  destruct (last lt.1) as [name|] eqn:El; [|done]. cbn zeta. destruct (_ && _); [|done].
  intros l t. simpl. intros [[<- _]|[_ E]]%lookup_insert_Some; [|by eapply Hr].
  rewrite (parent_last _ _ El). apply list_elem_of_fmap. by exists lt.
Qed.
End links.

Lemma bind_keeps {A B} (I : Root → Prop) (c : M Root str A) (k : A → M Root str B) r b r' :
  keeps I c → I r → (c ≫= k) r = (Ok b, r') → ∃ a r1, I r1 ∧ k a r1 = (Ok b, r').
Proof.
  intros Hc Hr (a & r1 & H1 & H2)%M_bind_Ok. exists a, r1. split; [|done]. specialize (Hc r Hr). by rewrite H1 in Hc.
Qed.

Section masks.
Context (h : Host) (spec : RootfsSpec).
Hypothesis (Hplain : layout_plain spec).

Definition masks_then_shim : M Root str unit :=
  (if rf_workspace_read spec then
     each (mask_in_workspace h (rf_workspace spec) WriteDeny) (rf_deny_write spec);;
     each (mask_in_workspace h (rf_workspace spec) ReadDeny) (rf_deny_read spec)
   else mret ());;
  match rf_shim spec with
  | Some shim => install_shim h shim (rf_real_shell spec) (rf_shadow_shells spec);;
                 write_in_cage_policy (rf_policy_toml spec)
  | None => mret ()
  end.

(** One step before the masks. *)
Ltac known_step H := apply (bind_keeps (links_known spec)) in H as ([] & ? & ? & H); [| |done].

Lemma keeps_proc : keeps (links_known spec) (mount_fresh_proc h).
Proof.
  apply keeps_bind; [apply (keeps_dirs h (links_known spec))|]. intros _. apply keeps_bind.
  - intros r Hr. pose proof (keeps_mount_at h (links_known spec) FreshProc false PROC r Hr) as K. unfold attempt.
    by destruct (mount_at _ _ _ _ r).
  - intros []; [apply (keeps_pure _ (λ _, Ok _))|apply (keeps_bind_into h (links_known spec))].
Qed.

Lemma keeps_devices : keeps (links_known spec) (each (λ d, ignore (bind_into h (to_path d) false)) DEV_NODES).
Proof. apply keeps_each. intros d _ r Hr. by apply (keeps_bind_into h (links_known spec)). Qed.

Lemma keeps_network : keeps (links_known spec) (bind_network_files h (rf_ro_binds spec)).
Proof.
  apply keeps_each. intros f _. destruct (h_canon h (to_path f)); [|apply (keeps_pure _ (λ _, Ok _))].
  destruct (plan_network_bind _ _); [|apply (keeps_pure _ (λ _, Ok _))].
  apply keeps_bind; [apply (keeps_dirs h (links_known spec))|]. intros _. apply keeps_bind; [apply (keeps_file h (links_known spec))|]. intros _. apply (keeps_bind_ro h (links_known spec)).
Qed.

Lemma keeps_tools : keeps (links_known spec) (install_tools h spec).
Proof.
  apply keeps_bind; [apply keeps_each; intros; by apply (keeps_link h)|]. intros _.
  apply keeps_bind; [apply keeps_each; intros; apply (keeps_dirs h (links_known spec))|]. intros _.
  apply keeps_each. intros t _. unfold bind_tool_ro. destruct (negb _); [apply (keeps_pure _ (λ _, Ok _))|].
  apply keeps_bind; [apply (keeps_dirs h (links_known spec))|]. intros _. apply keeps_bind; [apply (keeps_file h (links_known spec))|]. intros _. apply (keeps_bind_ro h (links_known spec)).
Qed.

Lemma build_to_workspace r r' :
  links_known spec r → build_rootfs h spec r = (Ok (), r') →
  ∃ r1, links_known spec r1 ∧
    ((if rf_workspace_read spec then bind_into h (rf_workspace spec) (negb (rf_workspace_write spec)) else mret ());;
     each (λ src, if h_exists h src then bind_into h src false else mret ()) (rf_rw_binds spec);;
     masks_then_shim) r1 = (Ok (), r').
Proof.
  intros Hr H. unfold build_rootfs in H.
  do 2 (known_step H; [|apply (keeps_call h (links_known spec))]).
  known_step H; [|apply keeps_devices]. known_step H; [|apply keeps_proc].
  known_step H; [|apply (keeps_binds h (links_known spec))].
  known_step H; [|apply keeps_network]. known_step H; [|apply keeps_tools]. eauto.
Qed.

Lemma build_to_masks r r' :
  links_known spec r → build_rootfs h spec r = (Ok (), r') →
  ∃ r1, links_known spec r1 ∧ masks_then_shim r1 = (Ok (), r').
Proof.
  intros Hr H. apply build_to_workspace in H as (r1 & Hl & H); [|done].
  known_step H;
    [|destruct (rf_workspace_read spec); [apply (keeps_bind_into h (links_known spec))|apply (keeps_ok (links_known spec))]].
  known_step H; [|apply (keeps_binds h (links_known spec))]. eauto.
Qed.

(** Mounts that cannot be written through, and mounts that show nothing of a secret. *)
Definition unwritable (mt : Mount) : Prop :=
  match m_src mt with
  | FromHost q => m_ro mt = true ∨ h_canon h DEV_NULL = Some q
  | FreshTmpfs => m_ro mt = true
  | FreshProc => False
  end.

Definition blank (mt : Mount) : Prop :=
  match m_src mt with
  | FromHost q => h_canon h DEV_NULL = Some q ∨ h_canon h (rf_real_shell spec) = Some q ∨
                  ∃ s, rf_shim spec = Some s ∧ h_canon h s = Some q
  | FreshTmpfs => True
  | FreshProc => False
  end.

Let any (mt : Mount) : Prop := True.
Ltac adds_step := apply adds_bind; [done| |intros _].

Lemma adds_shim (P : Mount → Prop) :
  (∀ q at_, is_Some (rf_shim spec) → h_canon h (rf_real_shell spec) = Some q → P (mkMount at_ (FromHost q) true)) →
  (∀ s q at_, rf_shim spec = Some s → h_canon h s = Some q → P (mkMount at_ (FromHost q) true)) →
  adds P any (match rf_shim spec with
              | Some shim => install_shim h shim (rf_real_shell spec) (rf_shadow_shells spec);;
                             write_in_cage_policy (rf_policy_toml spec)
              | None => mret ()
              end).
Proof.
  intros Hsh Hs. destruct (rf_shim spec) as [sh|]; [|apply adds_ret]. adds_step.
  - adds_step; [apply adds_dirs|]. adds_step; [apply adds_file|]. adds_step.
    + apply adds_bind_ro. intros q real E. split; [by apply Hsh|done].
    + apply adds_each; [done|]. intros s _. apply adds_bind; [done|apply adds_gets|intros []]; [|apply adds_ret].
      apply adds_bind_ro. intros q real E. split; [by eapply Hs|done].
  - adds_step; [apply adds_dirs|].
    apply adds_bind; [done|apply adds_gets|intros []]; [by apply adds_keep|apply adds_throw].
Qed.

Lemma adds_mask_write p : adds unwritable any (mask_in_workspace h (rf_workspace spec) WriteDeny p).
Proof.
  unfold mask_in_workspace, plan_mask. destruct (h_canon h p) as [real|]; [|apply adds_ret].
  destruct (negb _); [apply adds_ret|]. destruct (bool_decide _); [apply adds_bind_into; [done|]|apply adds_bind_ro];
    intros q real' E; (split; [by left|done]).
Qed.

Definition hidden (mt : Mount) : Prop := unwritable mt ∧ blank mt.

Lemma adds_mask_read p : adds hidden any (mask_in_workspace h (rf_workspace spec) ReadDeny p).
Proof.
  unfold mask_in_workspace, plan_mask. destruct (h_canon h p) as [real|]; [|apply adds_ret].
  destruct (negb _); [apply adds_ret|]. destruct (bool_decide _); [by apply adds_mount_at|].
  apply adds_mount_bind. intros q real' E. split; [by right|by left].
Qed.

Lemma bind_ro_at src p r r' :
  links_known spec r → link_free spec p → bind_file_ro h src p r = (Ok (), r') →
  ∃ real, h_canon h src = Some real ∧ mounts r' = mkMount p (FromHost real) true :: mounts r.
Proof.
  intros Hl Hf Hb. pose proof (bind_ro_run h src p r) as Hr. rewrite Hb in Hr.
  by rewrite (target_free _ _ _ Hl Hf) in Hr.
Qed.

Lemma bind_into_ro_at src r r' :
  links_known spec r → link_free spec src → bind_into h src true r = (Ok (), r') →
  ∃ real, h_canon h src = Some real ∧ mounts r' = mkMount src (FromHost real) true :: mounts r.
Proof.
  intros Hl Hf Hb. unfold bind_into in Hb. apply M_bind_Ok in Hb as ([] & r1 & H1 & H2).
  set (c := if bool_decide _ then _ else _) in H1.
  assert (keeps (links_known spec) c) as Hk.
  { unfold c. destruct (bool_decide _); [apply (keeps_dirs h (links_known spec))|]. apply keeps_bind; [apply (keeps_dirs h (links_known spec))|]. intros _. apply (keeps_file h (links_known spec)). }
  assert (adds (λ _, False) any c) as Ha.
  { unfold c. destruct (bool_decide _); [apply adds_dirs|]. apply adds_bind; [done|apply adds_dirs|intros _; apply adds_file]. }
  specialize (Hk r Hl). specialize (Ha r). rewrite H1 in Hk, Ha. destruct Ha as ([|mt new] & E & F).
  - destruct (bind_ro_at src src r1 r' Hk Hf H2) as (real & Ec & Em). exists real. split; [done|]. by rewrite Em, E.
  - by apply Forall_inv in F.
Qed.

Lemma mount_at_at src ro p r r' :
  links_known spec r → link_free spec p → mount_at h src ro p r = (Ok (), r') → mounts r' = mkMount p src ro :: mounts r.
Proof.
  intros Hl Hf Hb. pose proof (mount_at_run h src ro p r) as Hr. rewrite Hb in Hr. destruct Hr as [a ->].
  by rewrite (target_free _ _ _ Hl Hf).
Qed.

(** A mask that is put lies on the path it is for. *)
Lemma mask_at mode p real r r' :
  links_known spec r → link_free spec real → h_canon h p = Some real → rf_workspace spec `prefix_of` real →
  mask_in_workspace h (rf_workspace spec) mode p r = (Ok (), r') →
  ∃ mt, mounts r' = mt :: mounts r ∧ m_at mt = real ∧ unwritable mt ∧ (mode = ReadDeny → blank mt).
Proof.
  intros Hl Hf Hc Hp. unfold mask_in_workspace, plan_mask. rewrite Hc, bool_decide_eq_true_2 by done. cbn [negb].
  destruct mode, (bool_decide (h_dir h real = Some true)); intros Hm.
  - apply (bind_into_ro_at real r r' Hl Hf) in Hm as (real' & Ec & ->). eexists. split_and!; [done..|by left|done].
  - apply (bind_ro_at real real r r' Hl Hf) in Hm as (real' & Ec & ->). eexists. split_and!; [done..|by left|done].
  - apply (mount_at_at FreshTmpfs true real r r' Hl Hf) in Hm as ->. eexists. by split_and!.
  - unfold mount_bind in Hm. destruct (h_canon h DEV_NULL) as [null|] eqn:En; [|done].
    apply (mount_at_at (FromHost null) false real r r' Hl Hf) in Hm as ->. eexists.
    split_and!; [done..|by right|intros _; by left].
Qed.

Lemma top_among (P : Mount → Prop) r new mt old p :
  mounts r = new ++ mt :: old → Forall P new → P mt → m_at mt = p → ∃ m, top r p = Some m ∧ P m.
Proof.
  unfold top. intros -> F Hm Hat. induction F as [|n new Hn F IH]; cbn [app List.find].
  - unfold covers at 1. rewrite Hat, bool_decide_eq_true_2 by done. eauto.
  - destruct (covers p n); [eauto|exact IH].
Qed.
End masks.

Definition same_root (r r' : Root) : Prop :=
  mounts r' = mounts r ∧ nodes r' = nodes r ∧ host_files r' = host_files r.

Lemma call_same what r b r' : call what r = (b, r') → same_root r r'.
Proof. intros E. destruct (call_run what r) as [a Ha]. rewrite E in Ha. cbn [snd] in Ha. by subst r'. Qed.

Lemma bind_call {A} what (k : unit → M Root str A) r x r' :
  (call what ≫= k) r = (Ok x, r') → ∃ r1, same_root r r1 ∧ k () r1 = (Ok x, r').
Proof. intros ([] & r1 & H1 & H2)%M_bind_Ok. exists r1. split; [by eapply call_same|done]. Qed.

Ltac next_call H := let r := fresh "r" in let S := fresh "S" in apply bind_call in H as (r & S & H).

Lemma same_trans a b c : same_root a b → same_root b c → same_root a c.
Proof. unfold same_root. intuition congruence. Qed.

(** A caged run is built from what it started from. *)
Lemma enter_builds h spec program args env r r' dir pr ar en :
  enter_and_exec h spec program args env r = (Ok (Caged dir pr ar en), r') →
  ∃ r1 r2, same_root r r1 ∧ build_rootfs h spec r1 = (Ok (), r2) ∧ same_root r2 r'.
Proof.
  unfold enter_and_exec. intros H. apply M_bind_Ok in H as (res & r1 & H1 & H).
  unfold attempt in H1. destruct (call #"unshare" r) as [[u|e] r0] eqn:E0; simplify_eq.
  2: { destruct (allow_unconfined spec); [|done]. next_call H. done. }
  apply call_same in E0. do 4 next_call H. unfold child_enter_and_exec in H. next_call H.
  apply M_bind_Ok in H as ([] & r7 & Hb & H). apply M_bind_Ok in H as ([] & r8 & Hp & H).
  unfold pivot_into in Hp. do 3 next_call Hp. apply call_same in Hp. do 2 next_call H. injection H as <- <- <- <- <-.
  exists r5, r7. split_and!; [repeat (eapply same_trans; [done|]); done|done|repeat (eapply same_trans; [done|]); done].
Qed.

(** From an empty start to the masks of a caged run. *)
Lemma caged_masks h spec program args env r r' dir pr ar en :
  mounts r = [] → nodes r = ∅ → layout_plain spec →
  enter_and_exec h spec program args env r = (Ok (Caged dir pr ar en), r') →
  ∃ r1 r2, links_known spec r1 ∧ masks_then_shim h spec r1 = (Ok (), r2) ∧ same_root r2 r'.
Proof.
  intros Hm Hn Hpl He. apply enter_builds in He as (r1 & r2 & S1 & Hb & S2).
  apply (build_to_masks h spec Hpl) in Hb as (r3 & Hl & Hb); [eauto|].
  destruct S1 as (_ & S1 & _). intros l t. rewrite S1, Hn. by rewrite lookup_empty.
Qed.

Lemma masked_write h spec r r' p real :
  links_known spec r → rf_workspace_read spec = true → masks_then_shim h spec r = (Ok (), r') →
  p ∈ rf_deny_write spec → h_canon h p = Some real → rf_workspace spec `prefix_of` real → link_free spec real →
  ∃ m, top r' real = Some m ∧ unwritable h m.
Proof.
  intros Hl Hr Hm Hp Hc Hpre Hf. unfold masks_then_shim in Hm. rewrite Hr in Hm.
  apply M_bind_Ok in Hm as ([] & r3 & Hm & Hs). apply M_bind_Ok in Hm as ([] & r2 & H1 & H2).
  destruct (each_reaches (links_known spec) (unwritable h) _ _ p _ _
              ltac:(intros; apply adds_mask_write) ltac:(intros; apply (keeps_mask h (links_known spec))) Hl H1 Hp)
    as (r4 & r5 & n1 & Hk & Hx & E1 & F1).
  destruct (mask_at h spec _ p real r4 r5 Hk Hf Hc Hpre Hx) as (mt & E & Hat & Hu & _).
  pose proof (adds_each (hidden h spec) (λ _, True) (mask_in_workspace h (rf_workspace spec) ReadDeny)
                (rf_deny_read spec) ltac:(done) ltac:(intros; apply adds_mask_read) r2) as A2.
  rewrite H2 in A2. destruct A2 as (n2 & E2 & F2).
  pose proof (adds_shim h spec (unwritable h) ltac:(intros; by left) ltac:(intros; by left) r3) as A3.
  rewrite Hs in A3. destruct A3 as (n3 & E3 & F3).
  apply (top_among (unwritable h) r' (n3 ++ n2 ++ n1) mt (mounts r4) real); [|repeat apply Forall_app_2| |]; try done.
  - by rewrite E3, E2, E1, E, <- !app_assoc.
  - eapply list.Forall_impl; [done|]. by intros m [].
Qed.

Lemma masked_read h spec r r' p real :
  layout_plain spec → links_known spec r → rf_workspace_read spec = true → masks_then_shim h spec r = (Ok (), r') →
  p ∈ rf_deny_read spec → h_canon h p = Some real → rf_workspace spec `prefix_of` real → link_free spec real →
  ∃ m, top r' real = Some m ∧ hidden h spec m.
Proof.
  intros Hpl Hl Hr Hm Hp Hc Hpre Hf. unfold masks_then_shim in Hm. rewrite Hr in Hm.
  apply M_bind_Ok in Hm as ([] & r3 & Hm & Hs). apply (bind_keeps (links_known spec)) in Hm as ([] & r2 & Hl2 & H2);
    [|apply keeps_each; intros; apply (keeps_mask h (links_known spec))|done].
  destruct (each_reaches (links_known spec) (hidden h spec) _ _ p _ _
              ltac:(intros; apply adds_mask_read) ltac:(intros; apply (keeps_mask h (links_known spec))) Hl2 H2 Hp)
    as (r4 & r5 & n1 & Hk & Hx & E1 & F1).
  destruct (mask_at h spec _ p real r4 r5 Hk Hf Hc Hpre Hx) as (mt & E & Hat & Hu & Hb).
  pose proof (adds_shim h spec (hidden h spec) ltac:(intros; split; [by left|by right; left])
                ltac:(intros s0 **; split; [by left|right; right; by exists s0]) r3) as A3.
  rewrite Hs in A3. destruct A3 as (n3 & E3 & F3).
  apply (top_among (hidden h spec) r' (n3 ++ n1) mt (mounts r4) real); [|by apply Forall_app_2|by split; auto|done].
  by rewrite E3, E1, E, <- !app_assoc.
Qed.

(** C7: In the workspace of a caged agent, the protected configuration that exists cannot be
    written, and the secrets that exist show nothing of their contents: a write goes to a
    read-only mount or the null device, and a secret's path shows the null device, an
    empty directory, or one of the two shells. *)
Theorem masks_hold h spec program args env r r' dir pr ar en p real :
  mounts r = [] → nodes r = ∅ → layout_plain spec →
  enter_and_exec h spec program args env r = (Ok (Caged dir pr ar en), r') →
  rf_workspace_read spec = true → h_canon h p = Some real → rf_workspace spec `prefix_of` real →
  link_free spec real →
  (p ∈ rf_deny_write spec ++ rf_deny_read spec →
     ∀ q, place r' real = OnHost q false → ∃ null, h_canon h DEV_NULL = Some null ∧ null `prefix_of` q) ∧
  (p ∈ rf_deny_read spec →
     ∀ q ro, place r' real = OnHost q ro →
       ∃ src, src `prefix_of` q ∧
         (h_canon h DEV_NULL = Some src ∨ h_canon h (rf_real_shell spec) = Some src ∨
          ∃ s, rf_shim spec = Some s ∧ h_canon h s = Some src)).
Proof.
  intros Hm Hn Hpl He Hr Hc Hpre Hf.
  destruct (caged_masks h spec program args env r r' dir pr ar en) as (r3 & r2 & Hl & Hb & (E1 & _)); [done..|].
  unfold place, top. rewrite E1. fold (top r2 real). split.
  - intros [Hp|Hp]%elem_of_app q.
    + destruct (masked_write h spec r3 r2 p real) as (m & -> & Hu); try done. unfold unwritable in Hu.
      destruct (m_src m) as [s| |]; try done. intros [= <- Ero]. rewrite Ero in Hu. destruct Hu as [?|Hu]; [done|].
      exists s. split; [done|by apply prefix_app_r].
    + destruct (masked_read h spec r3 r2 p real) as (m & -> & [Hu _]); try done. unfold unwritable in Hu.
      destruct (m_src m) as [s| |]; try done. intros [= <- Ero]. rewrite Ero in Hu. destruct Hu as [?|Hu]; [done|].
      exists s. split; [done|by apply prefix_app_r].
  - intros Hp q ro. destruct (masked_read h spec r3 r2 p real) as (m & -> & [_ Hbl]); try done. unfold blank in Hbl.
    destruct (m_src m) as [s| |]; try done. intros [= <- <-]. exists s. split; [by apply prefix_app_r|done].
Qed.

(** *** The shells *)

Lemma bind_ro_nodes h src p N : keeps (λ r, nodes r = N) (bind_file_ro h src p).
Proof.
  assert (∀ what, keeps (λ r, nodes r = N) (call what)) as Kc
    by (intros what r Hr; by destruct (call_run what r) as [a ->]).
  apply keeps_bind.
  - unfold mount_bind, mount_at. destruct (h_canon h src); [|apply (keeps_pure _ (λ _, Err _))].
    apply keeps_bind; [apply (keeps_pure _ (λ _, Ok _))|]. intros there.
    destruct (negb there); [apply (keeps_pure _ (λ _, Err _))|]. apply keeps_bind; [apply Kc|]. intros _ r Hr.
    unfold modify. cbn [snd]. by destruct (target r p).
  - intros _. unfold remount_ro. apply keeps_bind; [apply Kc|]. intros _.
    apply keeps_bind; [apply (keeps_pure _ (λ _, Ok _))|].
    intros [[q|q|]|]; try apply (keeps_pure _ (λ _, Ok _)); [|apply (keeps_pure _ (λ _, Err _))]. by intros r Hr.
Qed.

Definition shadow_shell (h : Host) (shim sh : path) : M Root str unit :=
  there ← gets (λ r, target_exists h r sh); if there : bool then bind_file_ro h shim sh else mret ().

Section shadow.
Context (h : Host) (spec : RootfsSpec) (shim sq : path).
Hypothesis (Hsq : h_canon h shim = Some sq).

Definition from_shim (mt : Mount) : Prop := m_src mt = FromHost sq.

Lemma adds_shadow sh : adds from_shim (λ _, True) (shadow_shell h shim sh).
Proof.
  apply adds_bind; [done|apply adds_gets|]. intros []; [|apply adds_ret]. apply adds_bind_ro. intros q real E.
  split; [|done]. unfold from_shim. simpl. congruence.
Qed.

Lemma keeps_shadow N sh : keeps (λ r, links_known spec r ∧ nodes r = N) (shadow_shell h shim sh).
Proof.
  apply keeps_bind; [apply (keeps_pure _ (λ _, Ok _))|]. intros []; [|apply (keeps_pure _ (λ _, Ok _))].
  intros r [Hl Hn]. split; [by apply (keeps_bind_ro h (links_known spec))|by apply bind_ro_nodes].
Qed.

(** Newer mounts of the shim do not uncover a path. *)
Lemma place_newer r r' new p :
  mounts r' = new ++ mounts r → Forall from_shim new →
  place r' p = place r p ∨ ∃ q ro, place r' p = OnHost q ro ∧ sq `prefix_of` q.
Proof.
  unfold place, top. intros -> F. induction F as [|m new Hm F IH]; [by left|]. cbn [app List.find].
  destruct (covers p m); [|done]. right. unfold from_shim in Hm. rewrite Hm. do 2 eexists. split; [done|].
  by apply prefix_app_r.
Qed.

Lemma shadows_all shells r r' sh :
  links_known spec r → link_free spec sh → each (shadow_shell h shim) shells r = (Ok (), r') → sh ∈ shells →
  nodes r' = nodes r ∧
  match place r' sh with
  | OnRoot => sh ≠ [] → nodes r !! sh = None
  | OnHost q _ => h_exists h q = true → sq `prefix_of` q
  | _ => True
  end.
Proof.
  intros Hl Hf He Hin.
  assert (nodes r' = nodes r) as En.
  { pose proof (keeps_each (λ r1, links_known spec r1 ∧ nodes r1 = nodes r) (shadow_shell h shim) shells
                  (λ x _, keeps_shadow (nodes r) x) r (conj Hl eq_refl)) as [_ K]. by rewrite He in K. }
  split; [done|].
  destruct (each_reaches (λ r1, links_known spec r1 ∧ nodes r1 = nodes r) from_shim (shadow_shell h shim) _ sh _ _
              (λ x _, adds_shadow x) (λ x _, keeps_shadow (nodes r) x) (conj Hl eq_refl) He Hin)
    as (r1 & r2 & new & [Hl1 Hn1] & Hx & E & F).
  unfold shadow_shell, gets, mbind, M_bind in Hx.
  destruct (place_newer r2 r' new sh E F) as [->|(q & ro & -> & Hq)]; [|done].
  unfold target_exists in Hx. rewrite (target_free _ _ _ Hl1 Hf) in Hx.
  destruct (target_exists h r1 sh) eqn:Ex; unfold target_exists in Ex; rewrite (target_free _ _ _ Hl1 Hf) in Ex;
    rewrite Ex in Hx.
  - destruct (bind_ro_at h spec shim sh r1 r2 Hl1 Hf Hx) as (real & Ec & Em).
    unfold place, top. rewrite Em. cbn [List.find]. unfold covers at 1. cbn [m_at].
    rewrite bool_decide_eq_true_2 by done. cbn [m_src]. intros _. assert (real = sq) as -> by congruence.
    by apply prefix_app_r.
  - injection Hx as <-. destruct (place r1 sh) as [|q ro| |]; try done.
    + intros Hne. apply orb_false_iff in Ex as [_ Ex]. apply bool_decide_eq_false in Ex.
      rewrite <- Hn1. by destruct (nodes r1 !! sh); [exfalso; eauto|].
    + intros Hx. congruence.
Qed.
End shadow.

Lemma dirs_elsewhere spec r p :
  links_known spec r → link_free spec SHIM_DIR → (p ≠ SHIM_DIR) →
  nodes (make_dirs r [] SHIM_DIR) !! p = nodes r !! p.
Proof.
  intros _ _ Hne. cbn [make_dirs app SHIM_DIR]. destruct (place r _); try done.
  destruct (nodes r !! _) as [[]|]; try done. cbn [make_dirs]. unfold set_nodes. cbn [nodes].
  by rewrite lookup_insert_ne.
Qed.

(** What writing the policy changes. *)
Lemma policy_written spec toml r r' :
  links_known spec r → link_free spec SHIM_DIR → write_in_cage_policy toml r = (Ok (), r') →
  mounts r' = mounts r ∧ place r' IN_CAGE_POLICY = OnRoot ∧ nodes r' !! IN_CAGE_POLICY = Some (NFile toml) ∧
  ∀ p, ¬ SHIM_DIR `prefix_of` p → nodes r' !! p = nodes r !! p.
Proof.
  intros Hl Hf Hw. unfold write_in_cage_policy in Hw. change (parent IN_CAGE_POLICY) with SHIM_DIR in Hw.
  apply M_bind_Ok in Hw as ([] & r1 & H1 & Hw). apply M_bind_Ok in Hw as (there & r2 & H2 & Hw).
  unfold create_dirs, modify in H1. rewrite (target_free _ _ _ Hl Hf) in H1. injection H1 as <-.
  injection H2 as <- <-. destruct (_ && _ && _) eqn:E in Hw; [|done]. injection Hw as <-.
  apply andb_true_iff in E as [[E _]%andb_true_iff _]. apply bool_decide_eq_true in E.
  assert (mounts (make_dirs r [] SHIM_DIR) = mounts r) as Em by apply make_dirs_mounts.
  split_and!; [exact Em|exact E|by cbn; rewrite lookup_insert_eq|].
  intros p Hp. cbn [set_nodes nodes]. rewrite lookup_insert_ne by (intros <-; apply Hp; by exists [ #"policy.toml"]).
  apply (dirs_elsewhere spec); [done..|]. by intros ->; apply Hp.
Qed.

(** The state between the masks and the shim. *)
Lemma masks_to_shim h spec r r' :
  links_known spec r → masks_then_shim h spec r = (Ok (), r') →
  ∃ r1, links_known spec r1 ∧
    match rf_shim spec with
    | Some shim => install_shim h shim (rf_real_shell spec) (rf_shadow_shells spec);;
                   write_in_cage_policy (rf_policy_toml spec)
    | None => mret ()
    end r1 = (Ok (), r').
Proof.
  intros Hl Hm. unfold masks_then_shim in Hm. apply (bind_keeps (links_known spec)) in Hm as ([] & r1 & ? & Hm); [eauto| |done].
  apply (keeps_masks h (links_known spec)).
Qed.

(** The parts of installing the shim. *)
Lemma install_parts h spec shim shell shells r r' :
  links_known spec r → install_shim h shim shell shells r = (Ok (), r') →
  ∃ r1 r2, links_known spec r1 ∧ bind_file_ro h shell IN_CAGE_REAL_SH r1 = (Ok (), r2) ∧ links_known spec r2 ∧
           each (shadow_shell h shim) shells r2 = (Ok (), r').
Proof.
  intros Hl H. unfold install_shim in H.
  apply (bind_keeps (links_known spec)) in H as ([] & r0 & H0 & H); [|apply (keeps_dirs h (links_known spec))|done].
  apply (bind_keeps (links_known spec)) in H as ([] & r1 & H1 & H); [|apply (keeps_file h (links_known spec))|done].
  apply M_bind_Ok in H as ([] & r2 & H2 & H). exists r1, r2. split_and!; [done..| |done].
  pose proof (keeps_bind_ro h (links_known spec) shell IN_CAGE_REAL_SH r1 H1) as K. by rewrite H2 in K.
Qed.

(** The last steps of a caged run with a shim. *)
Lemma caged_shim h spec program args env r r' dir pr ar en shim :
  mounts r = [] → nodes r = ∅ → layout_plain spec →
  enter_and_exec h spec program args env r = (Ok (Caged dir pr ar en), r') → rf_shim spec = Some shim →
  ∃ r1 r2 r3 r4, links_known spec r1 ∧
    bind_file_ro h (rf_real_shell spec) IN_CAGE_REAL_SH r1 = (Ok (), r2) ∧ links_known spec r2 ∧
    each (shadow_shell h shim) (rf_shadow_shells spec) r2 = (Ok (), r3) ∧ links_known spec r3 ∧
    write_in_cage_policy (rf_policy_toml spec) r3 = (Ok (), r4) ∧ same_root r4 r'.
Proof.
  intros Hm Hn Hpl He Hs.
  destruct (caged_masks h spec program args env r r' dir pr ar en) as (ra & rb & Hl & Hb & S2); [done..|].
  apply masks_to_shim in Hb as (rc & Hlc & Hb); [|done]. rewrite Hs in Hb.
  apply M_bind_Ok in Hb as ([] & r3 & Hi & Hw).
  pose proof (keeps_install h (links_known spec) shim (rf_real_shell spec) (rf_shadow_shells spec) rc Hlc) as Hl3.
  rewrite Hi in Hl3. apply (install_parts h spec) in Hi as (r1 & r2 & Hl1 & H1 & Hl2 & H2); [|done].
  by exists r1, r2, r3, rb.
Qed.


(** ** Limits *)

(** Whether the agent can write at a path of the finished root; the root itself is a
    writable tmpfs of its own user. *)
Definition writable (r : Root) (p : path) : bool :=
  match place r p with OnRoot => true | OnHost _ ro => negb ro | OnTmpfs | OnProc => false end.

(** C39: The shim is not the only shell. The shell it runs for allowed commands is in the cage
    at a fixed path that the agent's environment names, where running it is not mediated;
    and the policy the shim decides by is a file of the writable root, so that the agent
    can replace it. *)
Theorem mediation_bypassed `{!Serde Policy} m h spec program args r r' dir pr ar en shim sq :
  mounts r = [] → nodes r = ∅ → layout_plain spec → link_free spec IN_CAGE_REAL_SH →
  enter_and_exec h spec program args (linux_agent_env m true) r = (Ok (Caged dir pr ar en), r') →
  rf_shim spec = Some shim → h_canon h shim = Some sq →
  (∀ mt, mt ∈ mounts r' → m_src mt = FromHost sq → ¬ m_at mt `prefix_of` IN_CAGE_REAL_SH) →
  (∃ q, h_canon h (rf_real_shell spec) = Some q ∧ place r' IN_CAGE_REAL_SH = OnHost q true) ∧
  en !! #"ORKIA_SH_REAL" = Some (path_text IN_CAGE_REAL_SH) ∧
  nodes r' !! IN_CAGE_POLICY = Some (NFile (rf_policy_toml spec)) ∧ writable r' IN_CAGE_POLICY = true ∧
  en !! #"ORKIA_CAGE_POLICY" = Some (path_text IN_CAGE_POLICY).
Proof.
  intros Hm Hn Hpl Hf He Hs Hsq Hfree. pose proof (enter_runs _ _ _ _ _ _ _ _ He) as [Ev|]; [|done].
  injection Ev as _ -> -> ->.
  assert (link_free spec SHIM_DIR) as Hfd.
  { intros l Hl Hp. apply (Hf l Hl). etrans; [exact Hp|]. by exists [ #"real-sh"]. }
  destruct (caged_shim h spec program args (linux_agent_env m true) r r' dir program args (linux_agent_env m true) shim)
    as (r1 & r2 & r3 & r4 & Hl1 & Hb & Hl2 & Hx & Hl3 & Hw & (E1 & E2 & _)); [done..|].
  destruct (policy_written spec _ r3 r4 Hl3 Hfd Hw) as (Em & Hp & Hnp & _).
  destruct (bind_ro_at h spec _ _ r1 r2 Hl1 Hf Hb) as (q & Hq & Em2).
  pose proof (adds_each (from_shim sq) (λ _, True) (shadow_shell h shim) (rf_shadow_shells spec) ltac:(done)
                (λ x _, adds_shadow h shim sq Hsq x) r2) as A. rewrite Hx in A. destruct A as (new & E3 & F).
  assert (place r' IN_CAGE_POLICY = OnRoot) as Hpr by (unfold place, top in *; by rewrite E1).
  split_and!.
  - exists q. split; [done|]. unfold place, top. rewrite E1, Em, E3, Em2.
    assert (Forall (λ mt, covers IN_CAGE_REAL_SH mt = false) new) as Fn.
    { rewrite list.Forall_forall in F |- *. intros mt Hmt. apply bool_decide_eq_false, Hfree; [|by apply F].
      rewrite E1, Em, E3. apply elem_of_app. by left. }
    clear E3. induction Fn as [|mt new Hc Fn IH].
    + cbn [app List.find]. unfold covers at 1. cbn [m_at]. rewrite bool_decide_eq_true_2 by done. cbn [m_src m_ro].
      f_equal. by rewrite drop_ge, app_nil_r by done.
    + cbn [app List.find]. rewrite Hc. apply IH. by apply Forall_inv_tail in F.
  - unfold linux_agent_env. by rewrite lookup_insert_eq.
  - by rewrite E2.
  - unfold writable. by rewrite Hpr.
  - unfold linux_agent_env. by rewrite lookup_insert_ne, lookup_insert_eq.
Qed.

(** *** Files of the host *)

Section emptied.
Context (h : Host) (spec : RootfsSpec) (f : path).

Definition emptied (r : Root) : Prop := host_files r !! f = Some [].

#[export] Instance emptied_stable : stable h emptied.
Proof.
  unfold emptied. split; [by intros ? ? ? ? ->|done|]. intros r q Hr. unfold truncate_host. destruct (_ && _); [|done].
  cbn [host_files]. destruct (decide (default q (h_canon h q) = f)) as [->|Hne].
  - by rewrite lookup_insert_eq.
  - by rewrite lookup_insert_ne.
Qed.

Lemma each_establishes {A} (I J : Root → Prop) (g : A → M Root str unit) l x r r' :
  (∀ y r r', y ∈ l → I r → g y r = (Ok (), r') → I r') → (∀ y, y ∈ l → keeps J (g y)) →
  (∀ r r', I r → g x r = (Ok (), r') → J r') → I r → each g l r = (Ok (), r') → x ∈ l → J r'.
Proof.
  intros HI HJ Hx. revert r. induction l as [|y l IH]; intros r Hr He Hin; [by apply elem_of_nil in Hin|].
  cbn [each] in He. apply M_bind_Ok in He as ([] & r1 & Hg & He). apply elem_of_cons in Hin as [<-|Hin].
  - pose proof (keeps_each J g l ltac:(intros; apply HJ; by right) r1 (Hx r r1 Hr Hg)) as K. by rewrite He in K.
  - apply (IH ltac:(intros ? ? ? ?; apply HI; by right) ltac:(intros; apply HJ; by right) r1); try done.
    by apply (HI y r r1 ltac:(left)).
Qed.

(** The file is reached through a writable bind of the host. *)
Definition exposed (r : Root) : Prop := links_known spec r ∧ place r f = OnHost f false.

Lemma bind_into_rw_at src r r' :
  links_known spec r → link_free spec src → bind_into h src false r = (Ok (), r') →
  ∃ real, h_canon h src = Some real ∧ mounts r' = mkMount src (FromHost real) false :: mounts r.
Proof.
  intros Hl Hf Hb. unfold bind_into in Hb. apply M_bind_Ok in Hb as ([] & r1 & H1 & H2).
  set (c := if bool_decide _ then _ else _) in H1.
  assert (keeps (links_known spec) c) as Hk.
  { unfold c. destruct (bool_decide _); [apply (keeps_dirs h (links_known spec))|].
    apply keeps_bind; [apply (keeps_dirs h (links_known spec))|]. intros _. apply (keeps_file h (links_known spec)). }
  assert (adds (λ _, False) (λ _, True) c) as Ha.
  { unfold c. destruct (bool_decide _); [apply adds_dirs|]. apply adds_bind; [done|apply adds_dirs|intros _; apply adds_file]. }
  specialize (Hk r Hl). specialize (Ha r). rewrite H1 in Hk, Ha. destruct Ha as ([|mt new] & E & F).
  - apply M_bind_Ok in H2 as ([] & r2 & H2 & [= <-]). unfold mount_bind in H2.
    destruct (h_canon h src) as [real|] eqn:Ec; [|done]. exists real. split; [done|].
    rewrite (mount_at_at h spec (FromHost real) false src r1 r2 Hk Hf H2). by rewrite E.
  - by apply Forall_inv in F.
Qed.

(** A writable bind of a directory above the file keeps it exposed. *)
Lemma bind_exposes src r r' :
  links_known spec r → link_free spec src → h_canon h src = Some src → src `prefix_of` f →
  bind_into h src false r = (Ok (), r') → exposed r'.
Proof.
  intros Hl Hf Hc [rest Hp] Hb. split.
  - pose proof (keeps_bind_into h (links_known spec) src false r Hl) as K. by rewrite Hb in K.
  - apply (bind_into_rw_at src r r' Hl Hf) in Hb as (real & Ec & E). assert (real = src) as -> by congruence.
    unfold place, top. rewrite E. cbn [List.find]. unfold covers at 1. cbn [m_at].
    rewrite bool_decide_eq_true_2 by (by exists rest). cbn [m_src m_ro]. by rewrite Hp, drop_app_length.
Qed.

Lemma stays_exposed src r r' :
  link_free spec src → h_canon h src = Some src → exposed r → bind_into h src false r = (Ok (), r') → exposed r'.
Proof.
  intros Hf Hc [Hl Hp] Hb. destruct (decide (src `prefix_of` f)) as [Hpre|Hpre]; [by eapply bind_exposes|]. split.
  - pose proof (keeps_bind_into h (links_known spec) src false r Hl) as K. by rewrite Hb in K.
  - apply (bind_into_rw_at src r r' Hl Hf) in Hb as (real & Ec & E).
    unfold place, top. rewrite E. cbn [List.find]. unfold covers at 1. cbn [m_at].
    rewrite bool_decide_eq_false_2 by done. exact Hp.
Qed.

(** Binding a file that is exposed empties it. *)
Lemma bind_empties r x r' :
  exposed r → link_free spec f → h_dir h f = Some false → h_canon h f = Some f → h_writable h f = true →
  bind_into h f false r = (x, r') → emptied r'.
Proof.
  intros [Hl Hp] Hf Hd Hc Hw Hb. unfold bind_into in Hb. rewrite bool_decide_eq_false_2 in Hb by congruence.
  pose proof (adds_dirs (λ _, False) (λ _, False) (parent f) r) as Ha.
  pose proof (keeps_dirs h (links_known spec) (parent f) r Hl) as Hk.
  change (((create_dirs (parent f);; create_file h f);; mount_bind h f f;; mret ()) r = (x, r')) in Hb.
  destruct (create_dirs (parent f) r) as [res r1] eqn:E1. cbn [snd] in Hk.
  assert (mounts r1 = mounts r ∧ res = Ok ()) as [Em ->].
  { unfold create_dirs, modify in E1. injection E1 as <- <-. split; [|done].
    destruct (target r (parent f)); [apply make_dirs_mounts|done..]. }
  assert (emptied (create_file h f r1).2 ∧ (create_file h f r1).1 = Ok ()) as [He Hok].
  { unfold create_file, modify. cbn [snd fst]. split; [|done]. rewrite (target_free _ _ _ Hk Hf).
    assert (place r1 f = OnHost f false) as -> by (unfold place, top in *; by rewrite Em).
    unfold truncate_host. rewrite Hw, bool_decide_eq_false_2 by congruence. unfold emptied. cbn. rewrite Hc. cbn.
    by rewrite lookup_insert_eq. }
  unfold mbind, M_bind in Hb. rewrite E1 in Hb. destruct (create_file h f r1) as [[]  r2]; [|done]. cbn [snd] in He.
  pose proof (keeps_mount_bind h emptied f f r2 He) as K. destruct (mount_bind h f f r2) as [[] r3]; by injection Hb as <- <-.
Qed.
End emptied.

(** Launching can destroy files of the user. A file of the agent's own configuration that
    lies in a writable workspace is emptied on the host before it is bound: the launcher
    makes the mount point by creating the file again, through the workspace. *)
Theorem launch_empties_corpus h spec program args env r r' dir pr ar en f :
  mounts r = [] → nodes r = ∅ → layout_plain spec →
  enter_and_exec h spec program args env r = (Ok (Caged dir pr ar en), r') →
  rf_workspace_read spec = true → rf_workspace_write spec = true →
  f ∈ rf_rw_binds spec → rf_workspace spec `prefix_of` f → h_dir h f = Some false → h_writable h f = true →
  link_free spec (rf_workspace spec) → h_canon h (rf_workspace spec) = Some (rf_workspace spec) →
  Forall (λ d, h_exists h d = true → link_free spec d ∧ h_canon h d = Some d) (rf_rw_binds spec) →
  host_files r' !! f = Some [].
Proof.
  intros Hm Hn Hpl He Hr Hw Hin Hpre Hd Hwr Hfw Hcw HF. rewrite list.Forall_forall in HF.
  assert (h_exists h f = true) as Hex by (apply bool_decide_eq_true; rewrite Hd; eauto).
  apply enter_builds in He as (r1 & r2 & S1 & Hb & (_ & _ & E)). rewrite E.
  apply (build_to_workspace h spec Hpl) in Hb as (r3 & Hl & Hb).
  2: { destruct S1 as (_ & S1 & _). intros l t. rewrite S1, Hn. by rewrite lookup_empty. }
  rewrite Hr, Hw in Hb. apply M_bind_Ok in Hb as ([] & r4 & Hb1 & Hb). apply M_bind_Ok in Hb as ([] & r5 & Hb2 & Hb).
  assert (emptied f r5) as He5.
  { apply (each_establishes (exposed spec f) (emptied f)
             (λ src, if h_exists h src then bind_into h src false else mret ()) _ f _ _) in Hb2; try done.
    - intros d ra rb Hdin Hx. destruct (h_exists h d) eqn:Ed; [|by intros [= <-]].
      destruct (HF d Hdin Ed). by apply (stays_exposed h).
    - intros d _. destruct (h_exists h d); [apply (keeps_bind_into h (emptied f))|apply (keeps_ok (emptied f))].
    - intros ra rb Hx. rewrite Hex. destruct (HF f Hin Hex). by apply (bind_empties h spec f).
    - by apply (bind_exposes h spec f (rf_workspace spec) r3). }
  pose proof (keeps_masks h (emptied f) spec r5 He5) as K. apply M_bind_Ok in Hb as ([] & r6 & Hb3 & Hb).
  rewrite Hb3 in K. cbn [snd] in K. destruct (rf_shim spec) as [shim|]; [|by injection Hb as <-].
  apply M_bind_Ok in Hb as ([] & r7 & Hb4 & Hb).
  pose proof (keeps_install h (emptied f) shim (rf_real_shell spec) (rf_shadow_shells spec) r6 K) as K2.
  rewrite Hb4 in K2. pose proof (keeps_policy h (emptied f) (rf_policy_toml spec) r7 K2) as K3. by rewrite Hb in K3.
Qed.

(** *** Tools *)

Lemma tool_names_spec caps extra name :
  name ∈ tool_names caps extra ↔
  name ∈ BASE_TOOLS ∨ name ∈ AGENT_COMMON ∨ (∃ c, c ∈ caps ∧ name = capability_binary c) ∨ (name ∈ extra ∧ name ≠ []).
Proof.
  unfold tool_names. rewrite merge_sort_Permutation, elem_of_remove_dups, !elem_of_app.
  assert (name ∈ map capability_binary caps ↔ ∃ c, c ∈ caps ∧ name = capability_binary c) as ->.
  { rewrite list_elem_of_fmap. naive_solver. }
  assert (name ∈ List.filter (λ s, negb (is_empty s)) extra ↔ name ∈ extra ∧ name ≠ []) as ->.
  { rewrite !list_elem_of_In, List.filter_In. destruct name; naive_solver. }
  naive_solver.
Qed.

(** The tools of a cage are those of the lists, of the policy's capabilities and of the
    operator, where the host has them, and the agent's program. A capability brings in its
    binary whatever its verdict: a rule that denies a program is what puts it in the cage. *)
Theorem tools_exact h m program policy home t :
  t ∈ resolve_tools h m program policy home ↔
  (∃ name, (name ∈ BASE_TOOLS ∨ name ∈ AGENT_COMMON ∨
            (∃ c, c ∈ capabilities policy ∧ name = capability_binary (cap_name c)) ∨
            (name ∈ extra_tools m ∧ name ≠ [])) ∧ resolve_tool h name = Some t) ∨
  (resolve_program h program home = Some t ∧
   ∀ u, u ∈ omap (resolve_tool h) (tool_names (map cap_name (capabilities policy)) (extra_tools m)) →
        tb_link u ≠ tb_link t).
Proof.
  unfold resolve_tools. set (tools := omap _ _).
  assert (t ∈ tools ↔ ∃ name, (name ∈ BASE_TOOLS ∨ name ∈ AGENT_COMMON ∨
            (∃ c, c ∈ capabilities policy ∧ name = capability_binary (cap_name c)) ∨
            (name ∈ extra_tools m ∧ name ≠ [])) ∧ resolve_tool h name = Some t) as <-.
  { unfold tools. rewrite list_elem_of_omap. setoid_rewrite tool_names_spec. setoid_rewrite list_elem_of_fmap.
    split; intros (name & Hn & Ht); exists name; (split; [|done]); naive_solver. }
  destruct (resolve_program h program home) as [p|]; [|naive_solver].
  destruct (existsb _ tools) eqn:Ex.
  - apply existsb_exists in Ex as (u & Hu & E). apply list_elem_of_In in Hu. apply bool_decide_eq_true in E.
    split; [by left|]. intros [?|[[= ->] Hnone]]; [done|]. by apply Hnone in Hu.
  - rewrite elem_of_app, list_elem_of_singleton. split; (intros [Ht|Ht]; [by left|right]).
    + subst p. split; [done|]. intros u Hu E. apply not_true_iff_false in Ex. apply Ex, existsb_exists.
      exists u. split; [by apply list_elem_of_In|by apply bool_decide_eq_true].
    + by destruct Ht as [[= ->] _].
Qed.

(** ** A launch, computed *)

Definition sample_dirs : list path :=
  map to_path [ #"/usr/bin"; #"/usr/lib"; #"/etc"; #"/proc"; #"/dev/pts"; #"/home/u"; #"/home/u/.claude";
                #"/home/u/.git/hooks"; #"/home/u/.orkia/run"].

Definition sample_files : list path :=
  map to_path [ #"/usr/bin/bash"; #"/usr/bin/sh"; #"/usr/bin/docker"; #"/usr/bin/claude"; #"/etc/hosts"; #"/dev/null";
                #"/home/u/.claude.json"; #"/home/u/.env"; #"/home/u/.git/config"; #"/opt/orkia/orkia-sh"].

(** A host where [/bin] is a link to [usr/bin]. *)
Definition sample_real (p : path) : path := if starts_with #"/bin/" (path_text p) then #"usr" :: p else p.

Definition sample_host : Host := {|
  h_dir p := if decide (sample_real p ∈ sample_dirs) then Some true
             else if decide (sample_real p ∈ sample_files) then Some false else None;
  h_canon p := if decide (sample_real p ∈ sample_dirs ++ sample_files) then Some (sample_real p) else None;
  h_lstat p := if decide (p = [ #"bin"]) then Some (IsLink #"usr/bin")
               else if decide (p ∈ sample_dirs) then Some IsDir else None;
  h_writable p := bool_decide (to_path #"/home/u" `prefix_of` p);
|}.

Definition sample_linux : Machine :=
  mkMachine (list_to_map [(#"HOME", #"/home/u"); (#"ORKIA_SH_BIN", #"/opt/orkia/orkia-sh"); (#"ORKIA_JOB_ID", #"7")])
    (Some #"/home/u") (λ _, None) (λ p, bool_decide (p = #"/opt/orkia/orkia-sh")) (λ _, false) 1000 None.

Definition plain_policy : Serde Policy := {| ser _ := Ok #"policy"; de _ := Err #"unread" |}.

Definition sample_rootfs : RootfsSpec :=
  match @build_rootfs_spec plain_policy sample_linux sample_host #"claude" sample_policy with
  | Ok s => s
  | Err _ => mkRootfs [] false false [] [] [] [] [] [] [] false None [] [] []
  end.

Definition sample_start : Root :=
  mkRoot [] ∅ {[to_path #"/home/u/.claude.json" := #"token"]} [].

Definition sample_end : Root :=
  (enter_and_exec sample_host sample_rootfs #"claude" [ #"-p"] (linux_agent_env sample_linux true) sample_start).2.

Definition sample_running : Running :=
  Caged (to_path #"/home/u") #"claude" [ #"-p"] (linux_agent_env sample_linux true).

Lemma sample_runs :
  enter_and_exec sample_host sample_rootfs #"claude" [ #"-p"] (linux_agent_env sample_linux true) sample_start
  = (Ok sample_running, sample_end).
Proof. vm_compute. reflexivity. Qed.

Lemma sample_plain : layout_plain sample_rootfs.
Proof.
  intros lt Hlt. assert (rf_bin_symlinks sample_rootfs = [([ #"bin"], #"usr/bin")]) as E by (vm_compute; reflexivity).
  rewrite E in Hlt. apply list_elem_of_singleton in Hlt as ->. split; [done|]. intros l. unfold link_paths. rewrite E.
  simpl. intros ->%list_elem_of_singleton. by apply prefix_nil_not.
Qed.

Lemma sample_link_free p : bool_decide ([ #"bin"] `prefix_of` p) = false → link_free sample_rootfs p.
Proof.
  intros Hp%bool_decide_eq_false l. unfold link_paths.
  assert (rf_bin_symlinks sample_rootfs = [([ #"bin"], #"usr/bin")]) as -> by (vm_compute; reflexivity).
  simpl. by intros ->%list_elem_of_singleton.
Qed.


Lemma masks_hold_witness :
  ((to_path #"/home/u/.env") ∈ rf_deny_write sample_rootfs ++ rf_deny_read sample_rootfs →
     ∀ q, place sample_end (to_path #"/home/u/.env") = OnHost q false →
       ∃ null, h_canon sample_host DEV_NULL = Some null ∧ null `prefix_of` q) ∧
  place sample_end (to_path #"/home/u/.env") = OnHost DEV_NULL false ∧
  place sample_end (to_path #"/home/u/.git/hooks/post") = OnHost (to_path #"/home/u/.git/hooks/post") true.
Proof.
  split; [|split; vm_compute; reflexivity].
  apply (masks_hold sample_host sample_rootfs #"claude" [ #"-p"] (linux_agent_env sample_linux true) sample_start
           sample_end (to_path #"/home/u") #"claude" [ #"-p"] (linux_agent_env sample_linux true)
           (to_path #"/home/u/.env") (to_path #"/home/u/.env") eq_refl eq_refl sample_plain sample_runs);
    [vm_compute; reflexivity|vm_compute; reflexivity|apply (bool_decide_unpack _); vm_compute; exact I|].
  apply sample_link_free. vm_compute. reflexivity.
Defined.


Lemma mediation_bypassed_witness :
  (∃ q, h_canon sample_host (rf_real_shell sample_rootfs) = Some q ∧ place sample_end IN_CAGE_REAL_SH = OnHost q true) ∧
  linux_agent_env sample_linux true !! #"ORKIA_SH_REAL" = Some (path_text IN_CAGE_REAL_SH) ∧
  nodes sample_end !! IN_CAGE_POLICY = Some (NFile (rf_policy_toml sample_rootfs)) ∧
  writable sample_end IN_CAGE_POLICY = true ∧
  linux_agent_env sample_linux true !! #"ORKIA_CAGE_POLICY" = Some (path_text IN_CAGE_POLICY).
Proof.
  apply (@mediation_bypassed plain_policy sample_linux sample_host sample_rootfs #"claude" [ #"-p"] sample_start
           sample_end (to_path #"/home/u") #"claude" [ #"-p"] (linux_agent_env sample_linux true)
           (to_path #"/opt/orkia/orkia-sh") (to_path #"/opt/orkia/orkia-sh") eq_refl eq_refl sample_plain).
  - apply sample_link_free. vm_compute. reflexivity.
  - exact sample_runs.
  - vm_compute. reflexivity.
  - vm_compute. reflexivity.
  - intros mt Hmt Hsrc. apply list_elem_of_In in Hmt.
    assert (forallb (λ mt, match m_src mt with
                           | FromHost q => negb (bool_decide (q = to_path #"/opt/orkia/orkia-sh")
                                                 && covers IN_CAGE_REAL_SH mt)
                           | _ => true
                           end) (mounts sample_end) = true) as Hall by (vm_compute; reflexivity).
    apply (proj1 (List.forallb_forall _ _) Hall) in Hmt. rewrite Hsrc, bool_decide_eq_true_2 in Hmt by reflexivity.
    apply negb_true_iff in Hmt. by apply bool_decide_eq_false in Hmt.
Defined.

Lemma launch_empties_corpus_witness :
  host_files sample_end !! to_path #"/home/u/.claude.json" = Some [] ∧
  host_files sample_start !! to_path #"/home/u/.claude.json" = Some #"token".
Proof.
  split; [|vm_compute; reflexivity].
  apply (launch_empties_corpus sample_host sample_rootfs #"claude" [ #"-p"] (linux_agent_env sample_linux true)
           sample_start sample_end (to_path #"/home/u") #"claude" [ #"-p"] (linux_agent_env sample_linux true)
           (to_path #"/home/u/.claude.json") eq_refl eq_refl sample_plain sample_runs);
    [vm_compute; reflexivity|vm_compute; reflexivity|apply (bool_decide_unpack _); vm_compute; exact I
    |apply (bool_decide_unpack _); vm_compute; exact I|vm_compute; reflexivity|vm_compute; reflexivity
    |apply sample_link_free; vm_compute; reflexivity|vm_compute; reflexivity|].
  assert (forallb (λ d, negb (h_exists sample_host d) ||
                        (negb (bool_decide ([ #"bin"] `prefix_of` d)) && bool_decide (h_canon sample_host d = Some d)))
            (rf_rw_binds sample_rootfs) = true) as Hall by (vm_compute; reflexivity).
  apply list.Forall_forall. intros d Hd Hex. apply list_elem_of_In in Hd.
  apply (proj1 (List.forallb_forall _ _) Hall) in Hd. rewrite Hex in Hd. apply andb_true_iff in Hd as [H1 H2].
  split; [|by apply bool_decide_eq_true in H2]. apply sample_link_free. by apply negb_true_iff.
Defined.

(** The binary a rule denies is in the cage because of the rule. *)
Lemma denied_tool_present :
  let docker := mkTool (to_path #"/usr/bin/docker") (to_path #"/usr/bin/docker") in
  let without := mkPolicy Ask (mkClassCaps true true true) (mkWorkspaceScope #".") [] in
  map cap_verdict (capabilities sample_policy) = [Deny] ∧
  docker ∈ resolve_tools sample_host sample_linux #"claude" sample_policy (Some #"/home/u") ∧
  docker ∉ resolve_tools sample_host sample_linux #"claude" without (Some #"/home/u").
Proof. split_and!; [done|apply (bool_decide_unpack _); vm_compute; exact I..]. Qed.
