(* ===== verification/CageRun.v ===== *)
(** * CageRun: from the command line to the launch

    [run] of [bins/orkia-cage/src/lib.rs]: the agent's command, the policy file, the trust
    layer's adjustment with the unlocks and the review list, the policy file the hook
    re-reads, and the launch of the platform. The adjuster is the class of Trust, the
    files are those of Fs. *)

From Stdlib Require Import NArith ZArith Lia.
From stdpp Require Import base gmap strings option numbers list list_basics.
From S2P Require Import Prelude Effects Fs Policy Trust CageProfile CageRootfs.

#[export] Instance ClassCaps_eq_dec : EqDecision ClassCaps.
Proof. solve_decision. Defined.
#[export] Instance WorkspaceScope_eq_dec : EqDecision WorkspaceScope.
Proof. solve_decision. Defined.
#[export] Instance Capability_eq_dec : EqDecision Capability.
Proof. solve_decision. Defined.
#[export] Instance Policy_eq_dec : EqDecision Policy.
Proof. solve_decision. Defined.

Record Args := mkArgs { arg_policy : str; arg_agent : list str }.

Section run.
Context `{!Serde Policy, !Serde UnlockStore, !Serde PendingStore, !TrustAdjuster} (m : Machine).

Definition split_agent (agent : list str) : result str (str * list str) :=
  match agent with
  | program :: rest => Ok (program, rest)
  | [] => Err #"no agent command"
  end.

Definition in_fs {A} (what : str) (c : M Fs io_error A) : M Fs str A := λ s,
  match c s with (Ok a, s') => (Ok a, s') | (Err e, s') => (Err (what ++ io_error_text e), s') end.

Definition load_policy (p : path) : M Fs str Policy :=
  there ← file_exists p;
  if negb there then throw (#"policy file not found: " ++ path_text p)
  else raw ← in_fs #"reading policy file " (read_to_string p);
       lift (map_err (λ e, #"parsing policy file " ++ e) (de raw)).

Definition home_path (rel : str) : path := path_join (to_path (default [] (var m #"HOME"))) rel.

Definition unlock_store_path : path := home_path #".orkia/trust/unlocks.json".
Definition pending_store_path : path := home_path #".orkia/trust/pending.json".

Definition trust_scope : TrustScope :=
  mkTrustScope (default [] (var m #"ORKIA_AGENT_NAME"))
    (d ← cwd m; resolve_project_id (λ dir, exists_at m (path_text (dir ++ [ #".git"]))) (to_path d)).

Definition surface_eligibility (base : Policy) (scope : TrustScope) (us : UnlockStore) : M Fs str unit :=
  match tsc_project scope with
  | None => mret ()
  | Some project =>
      let agent := trim (tsc_agent scope) in
      if is_empty agent then mret ()
      else
        let eligible := eligibility base scope us in
        st ← in_fs [] (pending_load pending_store_path);
        let '(changed, st) := update_scope st agent project eligible in
        if changed : bool then ignore (pending_save st pending_store_path) else mret ()
  end.

(** The file of an adjusted policy: named after the job, or the process. *)
Definition promoted_path (pid : N) : path :=
  home_path #".orkia/run" ++ [ #"cage-policy." ++ default (fmt_dec pid) (var m #"ORKIA_JOB_ID") ++ #".toml"].

Definition effective_policy_path (pid : N) (canonical : path) (policy base : Policy) : M Fs str path :=
  if decide (policy = base) then mret canonical
  else
    in_fs #"create ~/.orkia/run for promoted policy" create_dir_all;;
    body ← lift (map_err (λ e, #"serialize promoted policy: " ++ e) (ser policy));
    in_fs #"write promoted policy " (fs_write (promoted_path pid) body);;
    mret (promoted_path pid).

(** What [run] hands to the launch of the platform. *)
Record Prepared := mkPrepared {
  pre_program : str;
  pre_args : list str;
  pre_policy : Policy;
  pre_path : path;
  pre_machine : Machine;
}.

Definition with_var (k v : str) : Machine :=
  mkMachine (<[k := v]> (vars m)) (cwd m) (canonicalize m) (is_file m) (exists_at m) (uid m) (own_exe_dir m).

Definition prepare (pid : N) (args : Args) : M Fs str Prepared :=
  '(program, agent_args) ← lift (split_agent (arg_agent args));
  let file := to_path (arg_policy args) in
  base ← load_policy file;
  let scope := trust_scope in
  let m' := match tsc_project scope with Some p => with_var #"ORKIA_PROJECT_ID" p | None => m end in
  us ← in_fs [] (unlock_load unlock_store_path);
  let policy := apply_trust base scope us in
  surface_eligibility base scope us;;
  let canonical := default file (to_path <$> canonicalize m (arg_policy args)) in
  p ← effective_policy_path pid canonical policy base;
  mret (mkPrepared program agent_args policy p m').

Definition run_macos (pid : N) (args : Args) (s : Fs) : result str MacLaunch * Fs :=
  match prepare pid args s with
  | (Ok pre, s') => (Ok (launch_macos (pre_machine pre) (pre_program pre) (pre_args pre) (pre_policy pre)
                           (path_text (pre_path pre))), s')
  | (Err e, s') => (Err e, s')
  end.

Definition run_linux (h : Host) (pid : N) (args : Args) (s : Fs) (r : Root) : result str Running * Fs * Root :=
  match prepare pid args s with
  | (Ok pre, s') => let '(res, r') := launch_linux (pre_machine pre) h (pre_program pre) (pre_args pre) (pre_policy pre) r in
                    (res, s', r')
  | (Err e, s') => (Err e, s', r)
  end.
End run.

(** ** The policy the hook reads *)

Section hook.
Context `{!Serde Policy, !Serde UnlockStore, !Serde PendingStore, !TrustAdjuster} (m : Machine).

Lemma touches_in_fs {A} T what (c : M Fs io_error A) : touches_only T c → touches_only T (in_fs what c).
Proof. intros Hc s q Hq. specialize (Hc s q Hq). unfold in_fs. by destruct (c s) as [[a|e] s']. Qed.

Lemma in_fs_Ok {A} what (c : M Fs io_error A) s a s' : in_fs what c s = (Ok a, s') → c s = (Ok a, s').
Proof. unfold in_fs. destruct (c s) as [[]]; naive_solver. Qed.

Lemma touches_fs_write p t : touches_only (λ q, q = p) (fs_write p t).
Proof. apply touches_bind; [apply touches_file_create|]. intros _. apply touches_write_all. Qed.

Lemma touches_surface base scope us : touches_only (λ q, q = pending_store_path m) (surface_eligibility m base scope us).
Proof.
  unfold surface_eligibility. destruct (tsc_project scope); [|done]. destruct (is_empty _); [done|].
  apply touches_bind.
  - apply touches_in_fs. intros s q Hq. unfold pending_load. pose proof (touches_read (λ _, False) (pending_store_path m) s q) as R.
    destruct (read_to_string _ s) as [[] ?]; apply R; tauto.
  - intros st. destruct (update_scope _ _ _ _) as [[] st']; [|done]. apply touches_ignore.
    apply touches_bind; [apply touches_create_dir_all|]. intros _.
    apply touches_bind; [apply touches_lift|]. intros raw. apply touches_fs_write.
Qed.

Lemma fs_write_Ok p t s s' : fs_write p t s = (Ok (), s') → fs_files s' !! p = Some t.
Proof.
  unfold fs_write. intros ([] & s1 & H1 & H2)%M_bind_Ok.
  assert (fs_files s1 !! p = Some []) as E1.
  { unfold file_create, syscall in H1. destruct (next_fault s) as [[] ?]; [|done]. injection H1 as <-. simpl.
    by rewrite lookup_insert_eq. }
  unfold write_all in H2. destruct (next_fault s1) as [[] s2] eqn:En; [|done]. injection H2 as <-. simpl.
  apply next_fault_files in En. unfold append_text. rewrite lookup_insert_eq, En, E1. done.
Qed.

(** Reading a policy without disturbance. *)
Lemma load_policy_still p raw (pol : Policy) files :
  files !! p = Some raw → de raw = Ok pol → load_policy p (mkFs files []) = (Ok pol, mkFs files []).
Proof.
  intros Hp Hd. unfold load_policy, file_exists, gets, in_fs, read_to_string, syscall, lift, mbind, M_bind. cbn.
  rewrite Hp. cbn. rewrite Hp. cbn. by rewrite Hd.
Qed.

Lemma load_policy_Ok p s (pol : Policy) s' :
  load_policy p s = (Ok pol, s') → fs_files s' = fs_files s ∧ ∃ raw, fs_files s !! p = Some raw ∧ de raw = Ok pol.
Proof.
  unfold load_policy. intros (there & s1 & [= <- <-] & Hl)%M_bind_Ok.
  case_bool_decide as Ht; [|done]. apply M_bind_Ok in Hl as (raw & s2 & H1%in_fs_Ok & H2).
  unfold read_to_string, syscall in H1. destruct (next_fault s) as [[] s3] eqn:En; [|done].
  apply next_fault_files in En. rewrite En in H1. destruct (fs_files s !! p) as [t|]; [|done]. injection H1 as <- <-.
  unfold lift in H2. destruct (de t) eqn:Ed; [|done]. injection H2 as <- <-. split; [done|]. eauto.
Qed.

(** C26: The hook that judges each command re-reads exactly the policy the sandbox profile was
    made from: the file as it is when the trust layer changed nothing, and otherwise the
    adjusted policy, written for this job. *)
Theorem hook_reads_profile_policy pid args s pre s' :
  (∀ (x : Policy) t, ser x = Ok t → de t = Ok x) →
  prepare m pid args s = (Ok pre, s') →
  let file := to_path (arg_policy args) in
  let canonical := default file (to_path <$> canonicalize m (arg_policy args)) in
  canonical ≠ pending_store_path m → fs_files s !! canonical = fs_files s !! file →
  load_policy (pre_path pre) (mkFs (fs_files s') []) = (Ok (pre_policy pre), mkFs (fs_files s') []) ∧
  ∃ base us, load_policy file (mkFs (fs_files s) []) = (Ok base, mkFs (fs_files s) []) ∧
             pre_policy pre = apply_trust base (trust_scope m) us.
Proof.
  intros Hlaw Hp file canonical Hne Hsame. unfold prepare in Hp.
  apply M_bind_Ok in Hp as ([program rest] & s0 & H0 & Hp). unfold lift in H0. injection H0 as _ <-.
  apply M_bind_Ok in Hp as (base & s1 & H1 & Hp). apply load_policy_Ok in H1 as (E1 & raw & Hraw & Hde).
  apply M_bind_Ok in Hp as (us & s2 & H2%in_fs_Ok & Hp).
  assert (fs_files s2 = fs_files s1) as E2.
  { unfold unlock_load in H2. destruct (read_to_string (unlock_store_path m) s1) as [res s3] eqn:Er.
    assert (s2 = s3) as -> by (by destruct res; injection H2). unfold read_to_string, syscall in Er.
    destruct (next_fault s1) as [[] s4] eqn:En; injection Er as _ <-; by apply next_fault_files in En. }
  apply M_bind_Ok in Hp as ([] & s3 & H3 & Hp). apply M_bind_Ok in Hp as (p & s4 & H4 & Hp). injection Hp as <- <-.
  cbn [pre_path pre_policy]. split.
  2: { exists base, us. split; [|done]. by eapply load_policy_still. }
  unfold effective_policy_path in H4. destruct (decide (apply_trust base (trust_scope m) us = base)) as [Eb|Eb].
  - injection H4 as <- <-. rewrite Eb. eapply load_policy_still; [|done].
    pose proof (touches_surface base (trust_scope m) us s2 canonical Hne) as T. rewrite H3 in T. cbn [snd] in T.
    fold file canonical. rewrite T, E2, E1, Hsame. exact Hraw.
  - apply M_bind_Ok in H4 as ([] & s5 & _ & H4). apply M_bind_Ok in H4 as (body & s6 & Hs & H4).
    apply M_bind_Ok in H4 as ([] & s7 & Hw%in_fs_Ok & H4). injection H4 as <- <-.
    unfold lift in Hs. destruct (ser _) as [t|] eqn:Es in Hs; [|done]. injection Hs as <- <-.
    eapply load_policy_still; [by eapply fs_write_Ok|by apply Hlaw].
Qed.
End hook.

(** ** An adjusted run, computed *)

Definition demo_base : Policy :=
  mkPolicy Ask (mkClassCaps true true true) (mkWorkspaceScope #".") [mkCapability #"git.push" [ #"git push*"] Ask Benign].
Definition demo_promoted : Policy :=
  mkPolicy Ask (mkClassCaps true true true) (mkWorkspaceScope #".") [mkCapability #"git.push" [ #"git push*"] Allow Benign].

Definition demo_policies : Serde Policy := table_serde [demo_base; demo_promoted].
Definition demo_unlocks : Serde UnlockStore := {| ser _ := Ok #"[]"; de _ := Ok UnlockStore_empty |}.
Definition demo_pending : Serde PendingStore := {| ser _ := Ok #"[]"; de _ := Ok PendingStore_empty |}.
Definition demo_scorer : TrustAdjuster := {| adjust _ _ := OAuto; eligibility _ _ _ := [] |}.

Definition demo_machine : Machine :=
  mkMachine (list_to_map [(#"HOME", #"/home/u"); (#"ORKIA_AGENT_NAME", #"faye"); (#"ORKIA_JOB_ID", #"7")])
    (Some #"/work") (λ _, None) (λ _, false) (λ p, bool_decide (p = #"/work/.git")) 1000 None.

Definition demo_args : Args := mkArgs #"/etc/policy.toml" [ #"claude"].
Definition demo_fs : Fs := mkFs {[to_path #"/etc/policy.toml" := #"0"]} [].

Lemma hook_reads_profile_policy_witness :
  ∃ pre s', @prepare demo_policies demo_unlocks demo_pending demo_scorer demo_machine 42 demo_args demo_fs = (Ok pre, s') ∧
    pre_policy pre = demo_promoted ∧ path_text (pre_path pre) = #"/home/u/.orkia/run/cage-policy.7.toml" ∧
    @load_policy demo_policies (pre_path pre) (mkFs (fs_files s') []) = (Ok (pre_policy pre), mkFs (fs_files s') []).
Proof.
  assert (∀ (x : Policy) t, @ser _ demo_policies x = Ok t → @de _ demo_policies t = Ok x) as Hlaw
    by (intros x t; apply table_text_value).
  destruct (@prepare demo_policies demo_unlocks demo_pending demo_scorer demo_machine 42 demo_args demo_fs)
    as [[pre|e] s'] eqn:E; [|exfalso; vm_compute in E; discriminate].
  exists pre, s'. split; [reflexivity|].
  destruct (@hook_reads_profile_policy demo_policies demo_unlocks demo_pending demo_scorer demo_machine 42 demo_args
              demo_fs pre s' Hlaw E) as [Hl _].
  - vm_compute. discriminate.
  - vm_compute. reflexivity.
  - split; [|split; [|exact Hl]]; vm_compute in E; injection E as <- <-; vm_compute; reflexivity.
Defined.
