(* ===== verification/Schedule.v ===== *)
(** * Schedules in words ([orkia-builtin/src/every/parse.rs])

    [orkia every "monday 9am" ...] takes a frequency in English and writes it as the five
    fields of a crontab line. This file holds the whole translation: normalisation, time
    tokens, the rule table in its order, and the errors. The specification is a type of
    frequencies with the moments at which each is due, and a reader of crontab fields;
    the theorems say that what is written is due exactly at the moments meant, that
    every frequency can be said, and that the numbers stay in the ranges of the fields. *)
From Stdlib Require Import NArith Lia.
From stdpp Require Import base gmap strings option numbers list list_basics.
From S2P Require Import Prelude Text Words Effects.

(** ** The translation *)

Record CronExpr := mkCron { minute : str; hour : str; dom : str; month : str; dow : str }.

#[export] Instance CronExpr_eq : EqDecision CronExpr.
Proof. solve_decision. Defined.

Definition to_line (c : CronExpr) : str :=
  minute c ++ #" " ++ hour c ++ #" " ++ dom c ++ #" " ++ month c ++ #" " ++ dow c.

Inductive ParseError := Unrecognised | InvalidValue (msg : str).

Definition parse_error_text (e : ParseError) : str :=
  match e with
  | Unrecognised =>
      #"Could not parse schedule. Try a simpler format like 'monday 9am' or 'every 2 hours'."
  | InvalidValue msg => #"Invalid schedule value: " ++ msg
  end.

Definition is_quote (c : char) : bool := ((c =? chr_dquote) || (c =? chr_squote))%N.

Definition normalise (input : str) : str :=
  let trimmed := trim_matches is_quote (trim input) in
  to_ascii_lowercase (join #" " (split_whitespace trimmed)).

(** *** Times: pairs of a minute and an hour *)

Definition clock24 (tok : str) : option (N * N) :=
  '(hh, mm) ← split_once chr_colon tok;
  if ends_with #"am" tok || ends_with #"pm" tok then None
  else
    h ← parse_u8 hh;
    m ← parse_u8 mm;
    if ((h <? 24) && (m <? 60))%N then Some (m, h) else None.

Definition half_day (tok : str) : option (str * bool) :=
  match strip_suffix #"pm" tok with
  | Some b => Some (b, true)
  | None => (λ b, (b, false)) <$> strip_suffix #"am" tok
  end.

Definition clock12 (tok : str) : option (N * N) :=
  '(body, is_pm) ← half_day tok;
  '(h, m) ← match split_once chr_colon body with
            | Some (hh, mm) => h ← parse_u8 hh; m ← parse_u8 mm; Some (h, m)
            | None => h ← parse_u8 body; Some (h, 0%N)
            end;
  if ((h =? 0) || (12 <? h) || (60 <=? m))%N then None
  else Some (m, (if h =? 12 then if is_pm : bool then 12 else 0 else if is_pm then h + 12 else h)%N).

Definition parse_time_token (tok : str) : option (N * N) :=
  if decide (tok = #"midnight") then Some (0, 0)%N
  else if decide (tok = #"noon") then Some (0, 12)%N
  else match clock24 tok with Some t => Some t | None => clock12 tok end.

Definition extract_trailing_time (input : str) : option (N * N * str) :=
  let '(head, tail) := default ([], input) (rsplit_once chr_space input) in
  '(m, h) ← parse_time_token tail; Some (m, h, trim head).

Definition time_or_default (input : str) : N * N * str :=
  default (0%N, 9%N, input) (extract_trailing_time input).

(** *** Days *)

Definition DAY_NAMES : list (str * str) :=
  [(#"mon", #"MON"); (#"monday", #"MON"); (#"tue", #"TUE"); (#"tues", #"TUE"); (#"tuesday", #"TUE");
   (#"wed", #"WED"); (#"wednesday", #"WED"); (#"thu", #"THU"); (#"thurs", #"THU"); (#"thursday", #"THU");
   (#"fri", #"FRI"); (#"friday", #"FRI"); (#"sat", #"SAT"); (#"saturday", #"SAT"); (#"sun", #"SUN");
   (#"sunday", #"SUN")].

Definition day_name (tok : str) : option str := snd <$> List.find (λ kv, bool_decide (kv.1 = tok)) DAY_NAMES.

(** *** Rules: [Ok None] means that the rule is not for this input *)

Definition rule := result ParseError (option CronExpr).

Definition strip_either (a b s : str) : option str :=
  match strip_suffix a s with Some t => Some t | None => strip_suffix b s end.

Definition rule_every_n (units unit : str) (max : N) (msg : str) (mk : N → CronExpr) (s : str) : rule :=
  match strip_prefix #"every " s with
  | None => Ok None
  | Some rest =>
      match strip_either units unit rest with
      | None => Ok None
      | Some n_str =>
          match parse_u8 n_str with
          | None => Err Unrecognised
          | Some n => if ((n =? 0) || (max <? n))%N then Err (InvalidValue msg) else Ok (Some (mk n))
          end
      end
  end.

Definition rule_every_n_minutes : str → rule :=
  rule_every_n #" minutes" #" minute" 59 #"minutes must be between 1 and 59"
    (λ n, mkCron (#"*/" ++ fmt_dec n) #"*" #"*" #"*" #"*").

Definition rule_every_n_hours : str → rule :=
  rule_every_n #" hours" #" hour" 23 #"hours must be between 1 and 23"
    (λ n, mkCron #"0" (#"*/" ++ fmt_dec n) #"*" #"*" #"*").

Definition rule_every_hour (s : str) : option CronExpr :=
  if decide (s = #"every hour" ∨ s = #"hourly") then Some (mkCron #"0" #"*" #"*" #"*" #"*") else None.

Definition rule_every_n_days : str → rule :=
  rule_every_n #" days" #" day" 31 #"days must be between 1 and 31"
    (λ n, mkCron #"0" #"0" (#"*/" ++ fmt_dec n) #"*" #"*").

Definition rule_twice_a_day (s : str) : option CronExpr :=
  if decide (s = #"twice a day" ∨ s = #"twice daily") then Some (mkCron #"0" #"9,18" #"*" #"*" #"*") else None.

(** The five fields of a time of day, on some days of the month and of the week. *)
Definition at_time (m h : N) (dom dow : str) : CronExpr := mkCron (fmt_dec m) (fmt_dec h) dom #"*" dow.

Definition rule_daily (s : str) : rule :=
  match (match strip_prefix #"daily" s with Some r => Some r | None => strip_prefix #"every day" s end) with
  | None => Ok None
  | Some rest =>
      let rest := trim rest in
      if is_empty rest then Ok (Some (at_time 0 9 #"*" #"*"))
      else match extract_trailing_time rest with
           | None => Err Unrecognised
           | Some (m, h, leftover) =>
               if is_empty leftover then Ok (Some (at_time m h #"*" #"*")) else Err Unrecognised
           end
  end.

(** The tail of the rules whose time is optional. *)
Definition at_optional_time (rest dom dow : str) : rule :=
  let '(m, h, leftover) := if is_empty rest then (0%N, 9%N, []) else time_or_default rest in
  if is_empty leftover then Ok (Some (at_time m h dom dow)) else Err Unrecognised.

Definition rule_weekdays (s : str) : rule :=
  match strip_prefix #"weekdays" s with
  | None => Ok None
  | Some rest => at_optional_time (trim rest) #"*" #"MON-FRI"
  end.

Definition rule_weekends (s : str) : rule :=
  match strip_prefix #"weekends" s with
  | None => Ok None
  | Some rest => at_optional_time (trim rest) #"*" #"SAT,SUN"
  end.

Definition is_ascii (s : str) : bool := forallb (λ c, (c <? 128)%N) s.

Definition after_month (parts : list str) : option (list str) :=
  match parts with
  | _ :: p1 :: p2 :: rest =>
      if decide (p1 = #"of") then
        if decide (p2 = #"month") then Some rest
        else if decide (p2 = #"the") then
          match rest with
          | p3 :: rest' => if decide (p3 = #"month") then Some rest' else None
          | [] => None
          end
        else None
      else None
  | _ => None
  end.

Definition rule_nth_of_month (s : str) : rule :=
  let parts := split_whitespace s in
  match parts with
  | ord :: _ :: _ :: _ =>
      if negb (is_ascii ord) then Ok None
      else
        let n := length ord - 2 in
        if decide (drop n ord ∈ [ #"st"; #"nd"; #"rd"; #"th"]) then
          match parse_u8 (take n ord) with
          | None => Ok None
          | Some day =>
              if ((1 <=? day) && (day <=? 31))%N then
                match after_month parts with
                | None => Ok None
                | Some tail => at_optional_time (join #" " tail) (fmt_dec day) #"*"
                end
              else Err (InvalidValue #"day of month must be between 1 and 31")
          end
        else Ok None
  | _ => Ok None
  end.

(** [str::split] of a comma or a space. *)
Definition split_list (s : str) : list str := split_char chr_comma s ≫= split_char chr_space.

(** The days of a list, each once; [None] when something else is in it. *)
Fixpoint named_days (days : list str) (raws : list str) : option (list str) :=
  match raws with
  | [] => Some days
  | raw :: raws' =>
      let tok := trim raw in
      if decide (tok ∈ [[]; #"and"; #"&"]) then named_days days raws'
      else match day_name tok with
           | Some d => named_days (if decide (d ∈ days) then days else days ++ [d]) raws'
           | None => None
           end
  end.

Definition rule_named_days (s : str) : rule :=
  let '(m, h, no_time) := time_or_default s in
  match named_days [] (split_list no_time) with
  | None | Some [] => Ok None
  | Some days => Ok (Some (at_time m h #"*" (join #"," days)))
  end.

Definition rule_bare_time (s : str) : rule :=
  if contains #" " s then Ok None
  else match parse_time_token s with
       | None => Ok None
       | Some (m, h) => Ok (Some (at_time m h #"*" #"*"))
       end.

(** The first rule that answers decides. *)
Fixpoint first_rule (rules : list (str → rule)) (s : str) : result ParseError CronExpr :=
  match rules with
  | [] => Err Unrecognised
  | r :: rules' =>
      match r s with
      | Err e => Err e
      | Ok (Some c) => Ok c
      | Ok None => first_rule rules' s
      end
  end.

Definition RULES : list (str → rule) :=
  [rule_every_n_minutes; rule_every_n_hours; λ s, Ok (rule_every_hour s); rule_every_n_days;
   λ s, Ok (rule_twice_a_day s); rule_daily; rule_weekdays; rule_weekends; rule_nth_of_month;
   rule_named_days; rule_bare_time].

Definition parse (input : str) : result ParseError CronExpr :=
  let norm := normalise input in
  if is_empty norm then Err Unrecognised else first_rule RULES norm.

(** ** Frequencies and the moments they are due *)

Inductive Day := Sun | Mon | Tue | Wed | Thu | Fri | Sat.

#[export] Instance Day_eq : EqDecision Day.
Proof. solve_decision. Defined.

Definition day_number (d : Day) : N :=
  match d with Sun => 0 | Mon => 1 | Tue => 2 | Wed => 3 | Thu => 4 | Fri => 5 | Sat => 6 end%N.

Definition day_code (d : Day) : str :=
  match d with
  | Sun => #"SUN" | Mon => #"MON" | Tue => #"TUE" | Wed => #"WED" | Thu => #"THU" | Fri => #"FRI" | Sat => #"SAT"
  end.

Definition days : list Day := [Sun; Mon; Tue; Wed; Thu; Fri; Sat].

Record Moment := mkMoment { mo_minute : N; mo_hour : N; mo_dom : N; mo_month : N; mo_day : Day }.

Definition moment_ok (t : Moment) : Prop :=
  (mo_minute t < 60 ∧ mo_hour t < 24 ∧ 1 ≤ mo_dom t ≤ 31 ∧ 1 ≤ mo_month t ≤ 12)%N.

Inductive Freq :=
| EveryMinutes (n : N) | EveryHours (n : N) | Hourly | EveryDays (n : N) | TwiceADay
| Daily (m h : N) | Weekdays (m h : N) | Weekends (m h : N) | Monthly (day m h : N)
| OnDays (ds : list Day) (m h : N).

Definition time_ok (m h : N) : Prop := (m < 60 ∧ h < 24)%N.

Definition freq_ok (f : Freq) : Prop :=
  match f with
  | EveryMinutes n => 1 ≤ n ≤ 59
  | EveryHours n => 1 ≤ n ≤ 23
  | EveryDays n => 1 ≤ n ≤ 31
  | Hourly | TwiceADay => True
  | Daily m h | Weekdays m h | Weekends m h => time_ok m h
  | Monthly day m h => 1 ≤ day ≤ 31 ∧ time_ok m h
  | OnDays ds m h => ds ≠ [] ∧ NoDup ds ∧ time_ok m h
  end%N.

Definition due (f : Freq) (t : Moment) : bool :=
  let at_clock m h := ((mo_minute t =? m) && (mo_hour t =? h))%N in
  match f with
  | EveryMinutes n => mo_minute t mod n =? 0
  | EveryHours n => (mo_minute t =? 0) && (mo_hour t mod n =? 0)
  | Hourly => mo_minute t =? 0
  | EveryDays n => at_clock 0 0 && ((mo_dom t - 1) mod n =? 0)
  | TwiceADay => at_clock 0 9 || at_clock 0 18
  | Daily m h => at_clock m h
  | Weekdays m h => at_clock m h && negb (bool_decide (mo_day t ∈ [Sat; Sun]))
  | Weekends m h => at_clock m h && bool_decide (mo_day t ∈ [Sat; Sun])
  | Monthly day m h => at_clock m h && (mo_dom t =? day)
  | OnDays ds m h => at_clock m h && bool_decide (mo_day t ∈ ds)
  end%N.

(** *** Crontab fields, as their manual describes them *)

Section field.
Context (names : list (str * N)) (lo hi : N).

Definition field_value (s : str) : option N :=
  n ← match List.find (λ kv, bool_decide (kv.1 = s)) names with
      | Some (_, n) => Some n
      | None => parse_u8 s
      end;
  if ((lo <=? n) && (n <=? hi))%N then Some n else None.

Definition item_matches (v : N) (item : str) : option bool :=
  if decide (item = #"*") then Some true
  else match strip_prefix #"*/" item with
       | Some step =>
           n ← parse_u8 step;
           if ((1 <=? n) && (n <=? hi))%N then Some ((v - lo) mod n =? 0)%N else None
       | None =>
           match split_once chr_minus item with
           | Some (a, b) => x ← field_value a; y ← field_value b; Some ((x <=? v) && (v <=? y))%N
           | None => x ← field_value item; Some (v =? x)%N
           end
       end.

Definition field_matches (v : N) (s : str) : option bool :=
  existsb id <$> mapM (item_matches v) (split_char chr_comma s).
End field.

Definition DAY_CODES : list (str * N) := map (λ d, (day_code d, day_number d)) days.

(** The days of the month and of the week are alternatives when both are restricted. *)
Definition cron_due (line : str) (t : Moment) : option bool :=
  match split_whitespace line with
  | [mi; ho; dm; mo; dw] =>
      a ← field_matches [] 0 59 (mo_minute t) mi;
      b ← field_matches [] 0 23 (mo_hour t) ho;
      c ← field_matches [] 1 31 (mo_dom t) dm;
      d ← field_matches [] 1 12 (mo_month t) mo;
      e ← field_matches DAY_CODES 0 6 (day_number (mo_day t)) dw;
      Some (a && b && d && (if starts_with #"*" dm || starts_with #"*" dw then c && e else c || e))
  | _ => None
  end.

Definition cron_of (f : Freq) : CronExpr :=
  match f with
  | EveryMinutes n => mkCron (#"*/" ++ fmt_dec n) #"*" #"*" #"*" #"*"
  | EveryHours n => mkCron #"0" (#"*/" ++ fmt_dec n) #"*" #"*" #"*"
  | Hourly => mkCron #"0" #"*" #"*" #"*" #"*"
  | EveryDays n => mkCron #"0" #"0" (#"*/" ++ fmt_dec n) #"*" #"*"
  | TwiceADay => mkCron #"0" #"9,18" #"*" #"*" #"*"
  | Daily m h => at_time m h #"*" #"*"
  | Weekdays m h => at_time m h #"*" #"MON-FRI"
  | Weekends m h => at_time m h #"*" #"SAT,SUN"
  | Monthly day m h => at_time m h (fmt_dec day) #"*"
  | OnDays ds m h => at_time m h #"*" (join #"," (map day_code ds))
  end.

(** ** Lemmas on the fields *)

Lemma digits_clock n : digits (fmt_dec n) ∧ (chr_comma ∉ fmt_dec n) ∧ (chr_minus ∉ fmt_dec n) ∧ (chr_star ∉ fmt_dec n).
Proof.
  pose proof (fmt_dec_digits n) as Hd. split_and!; [done|..]; apply digits_without; try done; unfold chr_comma, chr_minus, chr_star; lia.
Qed.

Lemma item_number names lo hi v n : (lo ≤ n ≤ hi)%N → (n ≤ 255)%N →
  List.find (λ kv, bool_decide (kv.1 = fmt_dec n)) names = None →
  item_matches names lo hi v (fmt_dec n) = Some (v =? n)%N.
Proof.
  intros Hr Hn Hf. destruct (digits_clock n) as (Hd & _ & Hm & Hs). unfold item_matches.
  rewrite decide_False by (intros E; apply Hs; rewrite E; by left).
  destruct (strip_prefix #"*/" (fmt_dec n)) eqn:E.
  { apply strip_prefix_Some in E. destruct Hs. rewrite E. by left. }
  rewrite split_once_None by done. unfold field_value. rewrite Hf. unfold parse_u8.
  rewrite parse_uint_fmt by done. simpl.
  destruct (N.leb_spec lo n), (N.leb_spec n hi); (done || lia).
Qed.

Lemma field_number lo hi v n : (lo ≤ n ≤ hi)%N → (n ≤ 255)%N →
  field_matches [] lo hi v (fmt_dec n) = Some (v =? n)%N.
Proof.
  intros Hr Hn. destruct (digits_clock n) as (_ & Hc & _). unfold field_matches, split_char.
  rewrite split_char_free by done. simpl. rewrite item_number by done. simpl. by rewrite orb_false_r.
Qed.

Lemma field_star names lo hi v : field_matches names lo hi v #"*" = Some true.
Proof. done. Qed.

Lemma field_step names lo hi v n : (1 ≤ n ≤ hi)%N → (n ≤ 255)%N →
  field_matches names lo hi v (#"*/" ++ fmt_dec n) = Some ((v - lo) mod n =? 0)%N.
Proof.
  intros Hr Hn. destruct (digits_clock n) as (_ & Hc & _). unfold field_matches, split_char.
  rewrite split_char_free by (rewrite not_elem_of_app; split; [by apply (bool_decide_unpack _); vm_compute|done]).
  simpl mapM. unfold item_matches.
  rewrite decide_False by (simpl; intros [= E]). change (42%N :: 47%N :: fmt_dec n) with (#"*/" ++ fmt_dec n). rewrite strip_prefix_app.
  unfold parse_u8. rewrite parse_uint_fmt by done. simpl.
  destruct (N.leb_spec 1 n), (N.leb_spec n hi); try lia. simpl. by rewrite orb_false_r.
Qed.

(** The part of a line that names the days of the week. *)
Lemma field_days ds v : ds ≠ [] →
  field_matches DAY_CODES 0 6 (day_number v) (join #"," (map day_code ds)) = Some (bool_decide (v ∈ ds)).
Proof.
  intros Hne. unfold field_matches. rewrite split_char_join.
  2: by destruct ds. 2: { apply list.Forall_fmap, list.Forall_true. by intros []; apply (bool_decide_unpack _); vm_compute. }
  assert (mapM (item_matches DAY_CODES 0 6 (day_number v)) (map day_code ds) = Some (map (λ d, bool_decide (v = d)) ds)) as ->.
  { clear Hne. induction ds as [|d ds IH]; [done|]. simpl map.
    change (mapM ?f (?x :: ?l)) with (y ← f x; k ← mapM f l; Some (y :: k)). rewrite IH. by destruct v, d. }
  simpl. f_equal. clear Hne. induction ds as [|d ds IH]; [done|]. simpl. rewrite IH. clear IH.
  destruct (decide (v = d)) as [->|Hvd].
  - rewrite bool_decide_eq_true_2 by done. symmetry. apply bool_decide_eq_true. by left.
  - rewrite (bool_decide_eq_false_2 (v = d)) by done. simpl. apply bool_decide_ext. set_solver.
Qed.

Lemma line_fields c : Forall word [minute c; hour c; dom c; month c; dow c] →
  split_whitespace (to_line c) = [minute c; hour c; dom c; month c; dow c].
Proof. apply split_whitespace_join. Qed.

Lemma cron_due_fields c t a b e d w :
  Forall word [minute c; hour c; dom c; month c; dow c] →
  field_matches [] 0 59 (mo_minute t) (minute c) = Some a →
  field_matches [] 0 23 (mo_hour t) (hour c) = Some b →
  field_matches [] 1 31 (mo_dom t) (dom c) = Some d →
  field_matches [] 1 12 (mo_month t) (month c) = Some e →
  field_matches DAY_CODES 0 6 (day_number (mo_day t)) (dow c) = Some w →
  starts_with #"*" (dom c) || starts_with #"*" (dow c) = true →
  cron_due (to_line c) t = Some (a && b && e && (d && w)).
Proof. intros HF Ha Hb Hd He Hw Hs. unfold cron_due. rewrite line_fields, Ha, Hb, Hd, He, Hw, Hs by done. done. Qed.

Lemma star_word : word #"*".
Proof. split; [done|]. by repeat constructor. Qed.

Lemma step_word n : word (#"*/" ++ fmt_dec n).
Proof. split; [done|]. apply list.Forall_app. split; [by repeat constructor|apply fmt_dec_word]. Qed.

Lemma codes_word ds : ds ≠ [] → word (join #"," (map day_code ds)).
Proof.
  intros Hne. assert (no_blank (join #"," (map day_code ds))) as Hb.
  { clear Hne. induction ds as [|d ds IH]; [constructor|]. destruct ds as [|d' ds]; [by destruct d; repeat constructor|].
    change (no_blank (day_code d ++ [chr_comma] ++ join #"," (map day_code (d' :: ds)))).
    apply list.Forall_app. split; [by destruct d; repeat constructor|]. by constructor. }
  split; [|done]. destruct ds as [|d [|d' ds]]; [done|by destruct d..].
Qed.

Lemma word_check w : negb (is_empty w) && forallb (λ c, negb (is_whitespace c)) w = true → word w.
Proof.
  intros [Hn Hb]%andb_true_iff. split; [by destruct w|]. apply list.Forall_forall. intros c Hc.
  rewrite forallb_forall in Hb. apply negb_true_iff, Hb. by apply list_elem_of_In.
Qed.

#[local] Create HintDb cron.

#[local] Hint Resolve star_word step_word codes_word fmt_dec_word : cron.

(** Each field by its lemma. *)
Ltac by_fields :=
  erewrite cron_due_fields; cbn [minute hour dom month dow];
  [ | apply list.Forall_forall; intros w Hw; repeat (apply elem_of_cons in Hw as [->|Hw]); first [by auto with cron | by apply word_check | by apply not_elem_of_nil in Hw]
    | first [apply field_step; lia | apply field_number; lia | reflexivity]
    | first [apply field_step; lia | apply field_number; lia | reflexivity]
    | first [apply field_step; lia | apply field_number; lia | reflexivity]
    | reflexivity
    | first [reflexivity | by apply field_days]
    | first [reflexivity | by rewrite orb_true_r] ].

(** A frequency's five fields are due at its moments. *)
Lemma cron_of_due f t : freq_ok f → moment_ok t → cron_due (to_line (cron_of f)) t = Some (due f t).
Proof.
  intros Hf (Hm & Hh & Hd & _).
  destruct f as [n|n| |n| |m h|m h|m h|day m h|ds m h]; cbn [freq_ok cron_of due] in *; unfold time_ok in *;
    unfold at_time; try destruct Hf as (? & ? & ?).
  all: by_fields; f_equal; rewrite ?N.sub_0_r; simpl; rewrite ?andb_true_r, ?orb_false_r; try done.
  - by rewrite <- andb_orb_distrib_r.
  - f_equal. by destruct (mo_day t).
  - f_equal. by destruct (mo_day t).
Qed.

(** ** Every schedule accepted is a frequency within the ranges *)

Lemma parse_u8_le s n : parse_u8 s = Some n → (n ≤ 255)%N.
Proof.
  unfold parse_u8, parse_uint. destruct (match s with [] => s | c :: s' => _ end); [done|].
  intros (d & _ & Hn)%bind_Some. destruct (N.leb_spec (N.of_uint d) 255); [by injection Hn as <-|done].
Qed.

Lemma time_token_ok tok m h : parse_time_token tok = Some (m, h) → time_ok m h.
Proof.
  unfold parse_time_token, time_ok. case_decide; [intros [= <- <-]; lia|].
  case_decide; [intros [= <- <-]; lia|]. destruct (clock24 tok) as [[m' h']|] eqn:E24.
  - intros [= -> ->]. unfold clock24 in E24. apply bind_Some in E24 as ([hh mm] & _ & E).
    destruct (_ || _); [done|]. apply bind_Some in E as (x & _ & E). apply bind_Some in E as (y & _ & E).
    destruct (N.ltb_spec x 24), (N.ltb_spec y 60); try done. injection E as <- <-. lia.
  - unfold clock12. intros ([body pm] & _ & E)%bind_Some. apply bind_Some in E as ([x y] & _ & E).
    destruct (N.eqb_spec x 0), (N.ltb_spec 12 x), (N.leb_spec 60 y); try done. injection E as <- <-.
    destruct (N.eqb_spec x 12), pm; lia.
Qed.

Lemma trailing_time_ok s m h r : extract_trailing_time s = Some (m, h, r) → time_ok m h.
Proof.
  unfold extract_trailing_time. destruct (default _ _) as [a b]. intros ([m' h'] & Ht & [= <- <- <-])%bind_Some.
  by apply time_token_ok in Ht.
Qed.

Lemma time_or_default_ok s m h r : time_or_default s = (m, h, r) → time_ok m h.
Proof.
  unfold time_or_default. destruct (extract_trailing_time s) as [[[m' h'] r']|] eqn:E; intros [= <- <- <-].
  - by apply trailing_time_ok in E.
  - unfold time_ok. lia.
Qed.

(** A rule only ever answers with the fields of a frequency. *)
Definition sound (r : rule) : Prop := ∀ c, r = Ok (Some c) → ∃ f, freq_ok f ∧ c = cron_of f.

Lemma sound_every_n units unit max msg mk s :
  (∀ n, (1 ≤ n ≤ max)%N → ∃ f, freq_ok f ∧ mk n = cron_of f) → sound (rule_every_n units unit max msg mk s).
Proof.
  intros Hmk c. unfold rule_every_n. destruct (strip_prefix _ s) as [rest|]; [|done].
  destruct (strip_either units unit rest); [|done]. destruct (parse_u8 _) as [n|]; [|done].
  destruct (N.eqb_spec n 0), (N.ltb_spec max n); try done. intros [= <-]. apply Hmk. lia.
Qed.

Lemma sound_optional_time rest dm dw :
  (∀ m h, time_ok m h → ∃ f, freq_ok f ∧ at_time m h dm dw = cron_of f) → sound (at_optional_time rest dm dw).
Proof.
  intros Hf c. unfold at_optional_time.
  destruct (if is_empty rest then _ else _) as [[m h] left] eqn:E. destruct (is_empty left); [|done].
  intros [= <-]. apply Hf. destruct (is_empty rest); [injection E as <- <- _; unfold time_ok; lia|].
  by apply time_or_default_ok in E.
Qed.

Lemma sound_daily s : sound (rule_daily s).
Proof.
  intros c. unfold rule_daily. destruct (match strip_prefix _ s with Some r => _ | None => _ end) as [rest|]; [|done].
  destruct (is_empty (trim rest)).
  - intros [= <-]. exists (Daily 0 9). split; [unfold freq_ok, time_ok; lia|done].
  - destruct (extract_trailing_time _) as [[[m h] r]|] eqn:E; [|done]. destruct (is_empty r); [|done].
    intros [= <-]. apply trailing_time_ok in E. by exists (Daily m h).
Qed.

Lemma sound_weekdays s : sound (rule_weekdays s).
Proof.
  unfold rule_weekdays. destruct (strip_prefix _ s); [|done]. apply sound_optional_time.
  intros m h Ht. by exists (Weekdays m h).
Qed.

Lemma sound_weekends s : sound (rule_weekends s).
Proof.
  unfold rule_weekends. destruct (strip_prefix _ s); [|done]. apply sound_optional_time.
  intros m h Ht. by exists (Weekends m h).
Qed.

Lemma sound_monthly s : sound (rule_nth_of_month s).
Proof.
  unfold rule_nth_of_month. set (after := after_month _). clearbody after.
  destruct (split_whitespace s) as [|ord [|a [|b rest]]]; try done.
  destruct (negb _); [done|]. case_decide; [|done]. destruct (parse_u8 _) as [day|]; [|done].
  destruct (N.leb_spec 1 day), (N.leb_spec day 31); try done. destruct after; [|done].
  apply sound_optional_time. intros m h Ht. exists (Monthly day m h). split; [by split|done].
Qed.

Lemma day_name_code tok d : day_name tok = Some d → ∃ day, d = day_code day.
Proof.
  unfold day_name. intros ([k v] & Hf & ->)%fmap_Some. apply List.find_some in Hf as [Hin _].
  change (List.In (k, v) DAY_NAMES) in Hin. unfold DAY_NAMES in Hin.
  repeat (destruct Hin as [[= <- <-]|Hin]; [first [by exists Mon|by exists Tue|by exists Wed|by exists Thu
    |by exists Fri|by exists Sat|by exists Sun]|]). done.
Qed.

Lemma named_days_codes raws ds out : NoDup ds → named_days (map day_code ds) raws = Some out →
  ∃ ds', NoDup ds' ∧ out = map day_code ds'.
Proof.
  revert ds. induction raws as [|raw raws IH]; intros ds Hnd; simpl; [intros [= <-]; by exists ds|].
  case_decide; [by apply IH|]. destruct (day_name (trim raw)) as [d|] eqn:E; [|done].
  apply day_name_code in E as [day ->]. case_decide as Hin; [by apply IH|].
  intros Hn. apply (IH (ds ++ [day])).
  - apply list.NoDup_app. split_and!; [done| |apply NoDup_singleton].
    intros x Hx ->%list_elem_of_singleton. by apply Hin, list_elem_of_fmap_2.
  - by rewrite map_app.
Qed.

Lemma sound_named_days s : sound (rule_named_days s).
Proof.
  intros c. unfold rule_named_days. destruct (time_or_default s) as [[m h] r] eqn:E. apply time_or_default_ok in E.
  destruct (named_days [] (split_list r)) as [out|] eqn:En; [|done].
  apply (named_days_codes _ []) in En as (ds & Hnd & ->); [|constructor]. destruct ds as [|d ds]; [done|].
  intros [= <-]. by exists (OnDays (d :: ds) m h).
Qed.

Lemma sound_bare_time s : sound (rule_bare_time s).
Proof.
  intros c. unfold rule_bare_time. destruct (contains _ s); [done|]. destruct (parse_time_token s) as [[m h]|] eqn:E; [|done].
  intros [= <-]. apply time_token_ok in E. by exists (Daily m h).
Qed.

Lemma first_rule_sound rules s c : Forall (λ r, sound (r s)) rules → first_rule rules s = Ok c →
  ∃ f, freq_ok f ∧ c = cron_of f.
Proof.
  induction 1 as [|r rules Hr HF IH]; [done|]. simpl. destruct (r s) as [[c'|]|e] eqn:E; try done.
  intros [= ->]. by apply Hr.
Qed.

Lemma RULES_sound s : Forall (λ r, sound (r s)) RULES.
Proof.
  repeat apply list.Forall_cons_2; [..|constructor].
  - apply sound_every_n. intros n Hn. by exists (EveryMinutes n).
  - apply sound_every_n. intros n Hn. by exists (EveryHours n).
  - intros c. unfold rule_every_hour. case_decide; [|done]. intros [= <-]. by exists Hourly.
  - apply sound_every_n. intros n Hn. by exists (EveryDays n).
  - intros c. unfold rule_twice_a_day. case_decide; [|done]. intros [= <-]. by exists TwiceADay.
  - apply sound_daily.
  - apply sound_weekdays.
  - apply sound_weekends.
  - apply sound_monthly.
  - apply sound_named_days.
  - apply sound_bare_time.
Qed.

Lemma parse_freq s c : parse s = Ok c → ∃ f, freq_ok f ∧ c = cron_of f.
Proof.
  unfold parse. destruct (is_empty _); [done|]. apply first_rule_sound, RULES_sound.
Qed.

(** C33: Whatever the words, an accepted schedule is a line of five fields within their
    ranges, and it is due exactly when one of the frequencies with its numbers in range
    is: never at a moment no frequency means, and never a line the scheduler rejects. *)
Theorem schedule_sound s c :
  parse s = Ok c →
  ∃ f, freq_ok f ∧ ∀ t, moment_ok t → cron_due (to_line c) t = Some (due f t).
Proof. intros (f & Hf & ->)%parse_freq. exists f. split; [done|]. intros t Ht. by apply cron_of_due. Qed.

Lemma schedule_sound_witness :
  parse #"weekdays 8:30am" = Ok (cron_of (Weekdays 30 8)) ∧
  ∃ f, freq_ok f ∧ ∀ t, moment_ok t → cron_due (to_line (cron_of (Weekdays 30 8))) t = Some (due f t).
Proof.
  assert (parse #"weekdays 8:30am" = Ok (cron_of (Weekdays 30 8))) as E by (vm_compute; reflexivity).
  split; [exact E|]. exact (schedule_sound _ _ E).
Defined.

(** ** Every frequency can be said *)

Definition clock (m h : N) : str := fmt_dec_pad 2 h ++ #":" ++ fmt_dec_pad 2 m.

Definition day_word (d : Day) : str :=
  match d with
  | Sun => #"sunday" | Mon => #"monday" | Tue => #"tuesday" | Wed => #"wednesday" | Thu => #"thursday"
  | Fri => #"friday" | Sat => #"saturday"
  end.

(** Days joined by [and]. *)
Fixpoint day_words (ds : list Day) : list str :=
  match ds with
  | [] => []
  | [d] => [day_word d]
  | d :: ds' => day_word d :: #"and" :: day_words ds'
  end.

Definition phrase_words (f : Freq) : list str :=
  match f with
  | EveryMinutes n => [ #"every"; fmt_dec n; #"minutes"]
  | EveryHours n => [ #"every"; fmt_dec n; #"hours"]
  | Hourly => [ #"hourly"]
  | EveryDays n => [ #"every"; fmt_dec n; #"days"]
  | TwiceADay => [ #"twice"; #"a"; #"day"]
  | Daily m h => [ #"daily"; clock m h]
  | Weekdays m h => [ #"weekdays"; clock m h]
  | Weekends m h => [ #"weekends"; clock m h]
  | Monthly day m h => [fmt_dec day ++ #"th"; #"of"; #"month"; clock m h]
  | OnDays ds m h => day_words ds ++ [clock m h]
  end.

Definition phrase (f : Freq) : str := join #" " (phrase_words f).

(** *** The rules with numbers, by checking every number *)

Definition upto (lo n : nat) : list N := map N.of_nat (seq lo n).

Lemma elem_upto lo k n : (N.of_nat lo ≤ n < N.of_nat (lo + k))%N → n ∈ upto lo k.
Proof.
  intros Hn. unfold upto. apply list_elem_of_fmap. exists (N.to_nat n). split; [by rewrite N2Nat.id|].
  apply elem_of_seq. lia.
Qed.

Definition says (f : Freq) : bool :=
  match parse (phrase f) with Ok c => bool_decide (c = cron_of f) | Err _ => false end.

Lemma says_parse f : says f = true → parse (phrase f) = Ok (cron_of f).
Proof. unfold says. destruct (parse (phrase f)); [|done]. intros ->%bool_decide_eq_true. done. Qed.

Lemma says_number (mk : N → Freq) k n :
  forallb (λ n, says (mk n)) (upto 1 k) = true → (1 ≤ n ≤ N.of_nat k)%N → parse (phrase (mk n)) = Ok (cron_of (mk n)).
Proof.
  rewrite forallb_forall. intros Hall Hn. apply says_parse, Hall, list_elem_of_In, elem_upto. lia.
Qed.

Lemma says_time (mk : N → N → Freq) m h :
  forallb (λ m, forallb (λ h, says (mk m h)) (upto 0 24)) (upto 0 60) = true → time_ok m h →
  parse (phrase (mk m h)) = Ok (cron_of (mk m h)).
Proof.
  rewrite forallb_forall. intros Hall [Hm Hh].
  assert (List.In m (upto 0 60)) as Hm' by (apply list_elem_of_In, elem_upto; lia).
  specialize (Hall _ Hm'). rewrite forallb_forall in Hall. apply says_parse, Hall, list_elem_of_In, elem_upto. lia.
Qed.

Lemma said_daily m h : time_ok m h → parse (phrase (Daily m h)) = Ok (cron_of (Daily m h)).
Proof. apply says_time. vm_compute. reflexivity. Qed.

Lemma said_weekdays m h : time_ok m h → parse (phrase (Weekdays m h)) = Ok (cron_of (Weekdays m h)).
Proof. apply says_time. vm_compute. reflexivity. Qed.

Lemma said_weekends m h : time_ok m h → parse (phrase (Weekends m h)) = Ok (cron_of (Weekends m h)).
Proof. apply says_time. vm_compute. reflexivity. Qed.

(** *** Times after any words *)

Lemma digits_pad w n : digits (fmt_dec_pad w n).
Proof. apply list.Forall_app. split; [apply list.Forall_replicate; lia|apply fmt_dec_digits]. Qed.

Lemma pad_nonempty w n : fmt_dec_pad w n ≠ [].
Proof. intros [_ E]%app_eq_nil. by apply fmt_dec_nonempty in E. Qed.

Lemma clock_plain m h c : c ∈ clock m h → (48 ≤ c ≤ 57 ∨ c = chr_colon)%N.
Proof.
  pose proof (digits_pad 2 h) as H1. pose proof (digits_pad 2 m) as H2. unfold digits in *.
  rewrite list.Forall_forall in H1, H2. unfold clock. intros [?|[Hc|?]%elem_of_app]%elem_of_app; [by left; apply H1| |by left; apply H2].
  apply list_elem_of_singleton in Hc. by right.
Qed.

Lemma clock_token m h : time_ok m h → parse_time_token (clock m h) = Some (m, h).
Proof.
  intros [Hm Hh].
  assert (forallb (λ m, forallb (λ h, bool_decide (parse_time_token (clock m h) = Some (m, h))) (upto 0 24)) (upto 0 60) = true)
    as Hall by (vm_compute; reflexivity).
  rewrite forallb_forall in Hall. assert (List.In m (upto 0 60)) as Hm' by (apply list_elem_of_In, elem_upto; lia).
  specialize (Hall _ Hm'). rewrite forallb_forall in Hall.
  apply (bool_decide_eq_true_1 _), Hall, list_elem_of_In, elem_upto. lia.
Qed.

Lemma clock_no_space m h : chr_space ∉ clock m h.
Proof. intros [Hc|Hc]%clock_plain; [unfold chr_space in Hc; lia|done]. Qed.

Lemma time_after head m h : time_ok m h → time_or_default (head ++ #" " ++ clock m h) = (m, h, trim head).
Proof.
  intros Ht. unfold time_or_default, extract_trailing_time.
  change (#" " ++ clock m h) with (chr_space :: clock m h). rewrite rsplit_once_app by apply clock_no_space.
  cbn [default from_option id]. by rewrite clock_token.
Qed.

Lemma time_alone m h : time_ok m h → time_or_default (clock m h) = (m, h, []).
Proof.
  intros Ht. unfold time_or_default, extract_trailing_time. rewrite rsplit_once_None by apply clock_no_space.
  cbn [default from_option id]. by rewrite clock_token.
Qed.

(** *** Words that normalisation leaves alone *)

Definition plain (c : char) : Prop := is_whitespace c = false ∧ is_quote c = false ∧ ascii_lower c = c.

Definition plain_word (w : str) : Prop := w ≠ [] ∧ Forall plain w.

Lemma plain_no_blank w : Forall plain w → no_blank w.
Proof. intros HF. eapply list.Forall_impl; [exact HF|]. by intros c (? & _). Qed.

(** A text that begins and ends with a plain character. *)
Definition framed (s : str) : Prop := (∃ c t, s = c :: t ∧ plain c) ∧ (∃ t c, s = t ++ [c] ∧ plain c).

Lemma join_framed ws : ws ≠ [] → Forall plain_word ws → framed (join #" " ws).
Proof.
  intros Hne HF. induction HF as [|w ws [Hw Hp] HF IH]; [done|].
  assert (∃ c t, w = c :: t ∧ plain c) as (c & t & -> & Hc).
  { destruct w as [|c t]; [done|]. apply list.Forall_cons in Hp as [? _]. eauto. }
  destruct ws as [|v ws].
  - split; [by exists c, t|]. destruct (exists_last Hw) as (t' & c' & E). change (join #" " [c :: t]) with (c :: t).
    exists t', c'. split; [done|]. rewrite E in Hp. apply list.Forall_app in Hp as [_ Hp]. by apply list.Forall_cons in Hp as [? _].
  - destruct IH as [_ (t' & c' & E & Hc')]; [done|].
    change (join #" " ((c :: t) :: v :: ws)) with ((c :: t) ++ #" " ++ join #" " (v :: ws)).
    split; [by eexists c, _|]. exists ((c :: t) ++ #" " ++ t'), c'. split; [|done]. rewrite E. by rewrite <- !app_assoc.
Qed.

Lemma drop_while_framed p s : (∀ c, plain c → p c = false) → framed s → trim_matches p s = s.
Proof.
  intros Hp [(c & t & E & Hc) (t' & c' & E' & Hc')]. unfold trim_matches.
  assert (drop_while p s = s) as ->. { rewrite E. simpl. by rewrite Hp. }
  assert (drop_while p (reverse s) = reverse s) as ->. { rewrite E', reverse_snoc. simpl. by rewrite Hp. }
  apply reverse_involutive.
Qed.

Lemma trim_framed s : framed s → trim s = s.
Proof.
  intros [(c & t & E & Hc & _) (t' & c' & E' & Hc' & _)]. unfold trim, trim_end.
  assert (trim_start s = s) as ->. { rewrite E. simpl. by rewrite Hc. }
  assert (trim_start (reverse s) = reverse s) as ->. { rewrite E', reverse_snoc. simpl. by rewrite Hc'. }
  apply reverse_involutive.
Qed.

Lemma lowercase_join ws : Forall plain_word ws → to_ascii_lowercase (join #" " ws) = join #" " ws.
Proof.
  assert (∀ w, Forall plain w → to_ascii_lowercase w = w) as Hl.
  { induction 1 as [|c w (_ & _ & Hc) HF IH]; [done|]. simpl. by rewrite Hc, IH. }
  induction 1 as [|w ws [Hw Hp] HF IH]; [done|]. destruct ws as [|v ws]; [by apply Hl|].
  change (join #" " (w :: v :: ws)) with (w ++ #" " ++ join #" " (v :: ws)).
  unfold to_ascii_lowercase in *. rewrite !map_app, IH, Hl by done. done.
Qed.

Lemma normalise_words ws : ws ≠ [] → Forall plain_word ws → normalise (join #" " ws) = join #" " ws.
Proof.
  intros Hne HF. pose proof (join_framed ws Hne HF) as Hfr. unfold normalise.
  rewrite trim_framed, drop_while_framed by (done || by intros c (_ & ? & _)). rewrite split_whitespace_join.
  - by apply lowercase_join.
  - eapply list.Forall_impl; [exact HF|]. intros w [? ?]. split; [done|by apply plain_no_blank].
Qed.

Lemma join_nonempty ws : ws ≠ [] → Forall plain_word ws → is_empty (join #" " ws) = false.
Proof. intros Hne HF. destruct (join_framed ws Hne HF) as [(c & t & -> & _) _]. done. Qed.

Lemma parse_words ws : ws ≠ [] → Forall plain_word ws → parse (join #" " ws) = first_rule RULES (join #" " ws).
Proof. intros Hne HF. unfold parse. by rewrite normalise_words, join_nonempty. Qed.

Lemma plain_digit c : (48 ≤ c ≤ 58)%N → plain c.
Proof.
  intros Hc. split_and!.
  - apply not_true_iff_false. unfold is_whitespace. rewrite !orb_true_iff, !andb_true_iff, !N.leb_le, !N.eqb_eq. lia.
  - apply not_true_iff_false. unfold is_quote, chr_dquote, chr_squote. rewrite orb_true_iff, !N.eqb_eq. lia.
  - unfold ascii_lower. replace (in_range 65 90 c) with false; [done|]. symmetry. apply in_range_false. lia.
Qed.

Lemma plain_clock m h : plain_word (clock m h).
Proof.
  split; [intros [E _]%app_eq_nil; by apply pad_nonempty in E|]. apply list.Forall_forall.
  intros c [Hc|Hc]%clock_plain; apply plain_digit; unfold chr_colon in *; lia.
Qed.

Definition plain_check (w : str) : bool :=
  negb (is_empty w) && forallb (λ c, negb (is_whitespace c) && negb (is_quote c) && (ascii_lower c =? c)%N) w.

Lemma plain_check_word w : plain_check w = true → plain_word w.
Proof.
  intros [Hn Hb]%andb_true_iff. split; [by destruct w|]. apply list.Forall_forall. intros c Hc.
  rewrite forallb_forall in Hb. apply list_elem_of_In in Hc. specialize (Hb _ Hc).
  rewrite !andb_true_iff, !negb_true_iff, N.eqb_eq in Hb. by destruct Hb as [[? ?] ?].
Qed.

Lemma plain_day_words ds : Forall plain_word (day_words ds).
Proof.
  induction ds as [|d ds IH]; [constructor|]. destruct ds as [|d' ds]; repeat apply list.Forall_cons_2; try done.
  - by destruct d; apply plain_check_word.
  - by destruct d; apply plain_check_word.
  - by apply plain_check_word.
Qed.

Lemma day_words_nonempty ds : ds ≠ [] → day_words ds ≠ [].
Proof. by destruct ds as [|d [|d' ds]]. Qed.

Lemma join_snoc sep ws w : ws ≠ [] → join sep (ws ++ [w]) = join sep ws ++ sep ++ w.
Proof.
  induction ws as [|v ws IH]; [done|]. intros _. destruct ws as [|u ws]; [done|].
  change (join sep ((v :: u :: ws) ++ [w])) with (v ++ sep ++ join sep ((u :: ws) ++ [w])).
  rewrite IH by done. change (join sep (v :: u :: ws)) with (v ++ sep ++ join sep (u :: ws)).
  by rewrite <- !app_assoc.
Qed.

(** *** The rules before the last three *)

Definition LATE_RULES : list (str → rule) := [rule_nth_of_month; rule_named_days; rule_bare_time].

Lemma skip_rules s :
  Forall (λ p, strip_prefix p s = None) [ #"every "; #"daily"; #"every day"; #"weekdays"; #"weekends"] →
  s ∉ [ #"every hour"; #"hourly"; #"twice a day"; #"twice daily"] →
  first_rule RULES s = first_rule LATE_RULES s.
Proof.
  intros HF Hs. repeat (apply list.Forall_cons in HF as [? HF]).
  unfold RULES, rule_every_n_minutes, rule_every_n_hours, rule_every_n_days. cbn [first_rule].
  unfold rule_every_n, rule_every_hour, rule_twice_a_day, rule_daily, rule_weekdays, rule_weekends.
  rewrite !decide_False by (intros [->| ->]; apply Hs; set_solver).
  repeat match goal with E : strip_prefix _ s = None |- _ => rewrite E; clear E end. done.
Qed.

Lemma strip_prefix_head a c p s : a ≠ c → strip_prefix (a :: p) (c :: s) = None.
Proof. intros Hac. cbn [strip_prefix]. by destruct (N.eqb_spec a c). Qed.

Lemma skip_digit c s : (48 ≤ c ≤ 57)%N → first_rule RULES (c :: s) = first_rule LATE_RULES (c :: s).
Proof.
  intros Hc. apply skip_rules.
  - repeat apply list.Forall_cons_2; try apply list.Forall_nil_2; apply strip_prefix_head; vm_compute; intros E; subst c; lia.
  - intros Hin. repeat (apply elem_of_cons in Hin as [E|Hin]); [injection E as -> _; lia..|by apply not_elem_of_nil in Hin].
Qed.

Lemma said_monthly day m h : (1 ≤ day ≤ 31)%N → time_ok m h →
  parse (phrase (Monthly day m h)) = Ok (cron_of (Monthly day m h)).
Proof.
  intros Hd Ht. unfold phrase.
  assert (Forall plain_word (phrase_words (Monthly day m h))) as HF.
  { repeat apply list.Forall_cons_2; [|by apply plain_check_word..|apply plain_clock|constructor].
    split; [by intros [_ [=]]%app_eq_nil|]. apply list.Forall_app. split; [|by apply (plain_check_word #"th")].
    eapply list.Forall_impl; [apply fmt_dec_digits|]. intros c Hc. apply plain_digit. cbv beta in Hc. lia. }
  rewrite parse_words by done.
  assert (∃ c t, join #" " (phrase_words (Monthly day m h)) = c :: t ∧ (48 ≤ c ≤ 57)%N) as (c & t & E & Hc).
  { pose proof (fmt_dec_digits day) as Hdd. pose proof (fmt_dec_nonempty day) as Hne. simpl.
    destruct (fmt_dec day) as [|c t]; [done|]. apply list.Forall_cons in Hdd as [? _]. by eexists c, _. }
  rewrite E, skip_digit, <- E by done. unfold LATE_RULES. cbn [first_rule]. unfold rule_nth_of_month.
  rewrite split_whitespace_join.
  2: { eapply list.Forall_impl; [exact HF|]. intros w [? ?]. split; [done|by apply plain_no_blank]. }
  cbn [phrase_words]. replace (is_ascii (fmt_dec day ++ #"th")) with true.
  2: { symmetry. unfold is_ascii. rewrite forallb_app, andb_true_r. apply forallb_forall.
    intros x Hx%list_elem_of_In. pose proof (fmt_dec_digits day) as Hdd. unfold digits in Hdd.
    rewrite list.Forall_forall in Hdd. specialize (Hdd _ Hx). cbv beta in Hdd. apply N.ltb_lt. lia. }
  cbn [negb]. replace (length (fmt_dec day ++ #"th") - 2) with (length (fmt_dec day)) by (rewrite length_app; simpl; lia).
  rewrite drop_app_length, take_app_length. rewrite decide_True by (by apply (bool_decide_unpack _); vm_compute).
  unfold parse_u8. rewrite parse_uint_fmt by lia.
  destruct (N.leb_spec 1 day), (N.leb_spec day 31); try lia. cbn [andb].
  change (after_month _) with (Some [clock m h]). cbv iota. unfold at_optional_time.
  change (join #" " [clock m h]) with (clock m h). rewrite time_alone by done.
  destruct (plain_clock m h) as [Hne _]. by destruct (clock m h).
Qed.

(** *** Lists of days *)

Lemma skip_day d s : s = [] ∨ (∃ t, s = chr_space :: t) →
  first_rule RULES (day_word d ++ s) = first_rule LATE_RULES (day_word d ++ s).
Proof.
  intros Hs. apply skip_rules.
  - by destruct d; repeat apply list.Forall_cons_2; try apply list.Forall_nil_2.
  - intros Hin. by destruct d; repeat (apply elem_of_cons in Hin as [Hin|Hin]); try done; apply not_elem_of_nil in Hin.
Qed.

Lemma named_day_words acc ds : NoDup (acc ++ ds) →
  named_days (map day_code acc) (day_words ds) = Some (map day_code (acc ++ ds)).
Proof.
  assert (∀ acc d rest, d ∉ acc →
    named_days (map day_code acc) (day_word d :: rest) = named_days (map day_code (acc ++ [d])) rest) as Hone.
  { intros a d rest Hd. simpl. replace (trim (day_word d)) with (day_word d) by (by destruct d).
    rewrite decide_False by (by destruct d; apply (bool_decide_unpack _); vm_compute).
    replace (day_name (day_word d)) with (Some (day_code d)) by (by destruct d).
    rewrite decide_False; [by rewrite map_app|].
    intros (d' & E & Hin)%list_elem_of_fmap. by destruct d, d'. }
  revert acc. induction ds as [|d ds IH]; intros acc Hnd; [by rewrite app_nil_r|].
  assert (d ∉ acc) as Hd. { apply list.NoDup_app in Hnd as (_ & Hnd & _). intros Hd. apply (Hnd d Hd). by left. }
  rewrite (cons_middle d acc ds), app_assoc in Hnd |- *. destruct ds as [|d' ds].
  - rewrite app_nil_r. change (day_words [d]) with [day_word d]. by rewrite Hone.
  - change (day_words (d :: d' :: ds)) with (day_word d :: #"and" :: day_words (d' :: ds)). rewrite Hone by done.
    change (named_days ?a (#"and" :: ?r)) with (named_days a r). by apply IH.
Qed.

Lemma day_words_free c ds : c ∈ [chr_comma; chr_space] → Forall (λ w, c ∉ w) (day_words ds).
Proof.
  intros Hc. induction ds as [|d ds IH]; [constructor|].
  assert ((c ∉ day_word d) ∧ (c ∉ #"and")) as [H1 H2].
  { repeat (apply elem_of_cons in Hc as [->|Hc]); [..|by apply not_elem_of_nil in Hc]; split; try destruct d;
      by apply (bool_decide_unpack _); vm_compute. }
  destruct ds as [|d' ds]; repeat apply list.Forall_cons_2; try done.
Qed.

Lemma split_day_words ds : ds ≠ [] → split_list (join #" " (day_words ds)) = day_words ds.
Proof.
  intros Hne. unfold split_list.
  assert (chr_comma ∉ join #" " (day_words ds)) as Hc.
  { pose proof (day_words_free chr_comma ds ltac:(by left)) as HF. clear Hne. induction HF as [|w ws Hw HF IH]; [by intros ?%not_elem_of_nil|].
    destruct ws as [|v ws]; [done|]. change (join #" " (w :: v :: ws)) with (w ++ #" " ++ join #" " (v :: ws)).
    rewrite !not_elem_of_app. split_and!; [done| |done]. by apply (bool_decide_unpack _); vm_compute. }
  unfold split_char at 2. rewrite split_char_free by done. cbn [mbind list_bind app]. rewrite app_nil_r.
  apply split_char_join; [by apply day_words_nonempty|]. apply day_words_free. right. by left.
Qed.

Lemma said_on_days ds m h : ds ≠ [] → NoDup ds → time_ok m h →
  parse (phrase (OnDays ds m h)) = Ok (cron_of (OnDays ds m h)).
Proof.
  intros Hne Hnd Ht. unfold phrase. cbn [phrase_words]. pose proof (day_words_nonempty ds Hne) as Hdw.
  assert (Forall plain_word (day_words ds ++ [clock m h])) as HF.
  { apply list.Forall_app. split; [apply plain_day_words|]. apply list.Forall_cons_2; [apply plain_clock|constructor]. }
  rewrite parse_words by (done || by destruct (day_words ds)).
  assert (∃ d t, join #" " (day_words ds ++ [clock m h]) = day_word d ++ chr_space :: t ∧
                 ∃ rest, day_words ds ++ [clock m h] = day_word d :: rest) as (d & t & E & rest & Er).
  { destruct ds as [|d [|d' ds]]; [done|by eexists d, _; split; [|eexists]..]. }
  rewrite E, skip_day, <- E by (right; by exists t). unfold LATE_RULES. cbn [first_rule].
  assert (rule_nth_of_month (join #" " (day_words ds ++ [clock m h])) = Ok None) as ->.
  { unfold rule_nth_of_month. rewrite split_whitespace_join, Er.
    - by destruct rest as [|a [|b rest]], d.
    - eapply list.Forall_impl; [exact HF|]. intros w [? ?]. split; [done|by apply plain_no_blank]. }
  unfold rule_named_days. rewrite join_snoc, time_after by done.
  rewrite trim_framed by (apply join_framed; [done|apply plain_day_words]).
  rewrite split_day_words, (named_day_words []) by done. cbn [app]. destruct ds as [|d0 ds]; [done|]. done.
Qed.

(** C34: Every frequency with its numbers in range can be said: there are words for it that
    are accepted, and the line written for them is due exactly at its moments. *)
Theorem schedule_complete f :
  freq_ok f →
  ∃ c, parse (phrase f) = Ok c ∧ ∀ t, moment_ok t → cron_due (to_line c) t = Some (due f t).
Proof.
  intros Hf. exists (cron_of f). split; [|intros t Ht; by apply cron_of_due].
  destruct f as [n|n| |n| |m h|m h|m h|day m h|ds m h]; cbn [freq_ok] in Hf.
  - by apply (says_number EveryMinutes 59); [vm_compute; reflexivity|lia].
  - by apply (says_number EveryHours 23); [vm_compute; reflexivity|lia].
  - apply says_parse. vm_compute. reflexivity.
  - by apply (says_number EveryDays 31); [vm_compute; reflexivity|lia].
  - apply says_parse. vm_compute. reflexivity.
  - by apply said_daily.
  - by apply said_weekdays.
  - by apply said_weekends.
  - destruct Hf. by apply said_monthly.
  - destruct Hf as (? & ? & ?). by apply said_on_days.
Qed.

Lemma schedule_complete_witness :
  freq_ok (OnDays [Mon; Fri] 5 9) ∧ phrase (OnDays [Mon; Fri] 5 9) = #"monday and friday 09:05" ∧
  ∃ c, parse (phrase (OnDays [Mon; Fri] 5 9)) = Ok c ∧
       ∀ t, moment_ok t → cron_due (to_line c) t = Some (due (OnDays [Mon; Fri] 5 9) t).
Proof.
  assert (freq_ok (OnDays [Mon; Fri] 5 9)) as H0.
  { split; [done|]. split; [|split; reflexivity]. by apply (bool_decide_unpack _); vm_compute. }
  split; [exact H0|]. split; [vm_compute; reflexivity|]. exact (schedule_complete _ H0).
Defined.
