(* ===== verification/Crontab.v ===== *)
(** * Scheduled commands in the user's crontab
      ([orkia-builtin/src/every.rs], [every/crontab.rs], [every/migrate.rs],
       [every/binary_path.rs], [every/display.rs])

    [orkia every] keeps pairs of lines in the user's crontab: a tag and the command line
    crond runs. This file holds the crontab as the builtin sees it, the tags, the quoting
    of the command, the operations that list, add, remove, pause and resume entries, the
    migration that adds [--once] at boot, and the builtin itself. The programs [crontab]
    and [which], the terminal, the agents' files and the [cron] crate are parameters.

    The theorems: an added entry is listed back as it was given and every other line
    stays; removal and pausing act on the entry listed at that number, with what goes
    wrong when a tag has lost its command; and what a line break in a command, and the
    migration's search for a tag by part of its name, do to other lines. *)
From Stdlib Require Import NArith Lia.
From stdpp Require Import base gmap strings option numbers list list_basics.
From S2P Require Import Prelude Text Words Effects Schedule.

Definition chr_percent : char := 37%N.

(** ** Tags *)

Record EntryTag := mkTag { tag_agent : str; tag_slug : str; tag_timeout : option str }.

Definition slug_char (out : str) (last_hyphen : bool) (c : char) : str * bool :=
  let alnum := (in_range 48 57 c || in_range 65 90 c || in_range 97 122 c)%N in
  if alnum then (out ++ [ascii_lower c], false)
  else if negb last_hyphen && negb (is_empty out) then (out ++ [chr_minus], true)
  else (out, last_hyphen).

Fixpoint slug_go (out : str) (last_hyphen : bool) (s : str) : str :=
  match s with
  | [] => out
  | c :: s' => if (40 <=? byte_len out)%N then out
               else let '(out', l') := slug_char out last_hyphen c in slug_go out' l' s'
  end.

Definition slugify (s : str) : str := trim_matches (λ c, c =? chr_minus)%N (slug_go [] false s).

Definition tag_new (agent command : str) (timeout : option str) : EntryTag :=
  mkTag agent (slugify command) timeout.

Definition render (t : EntryTag) : str :=
  #"# orkia:" ++ tag_agent t ++ #":" ++ tag_slug t ++
  match tag_timeout t with Some d => #":timeout=" ++ d | None => [] end.

Fixpoint last_timeout (acc : option str) (parts : list str) : option str :=
  match parts with
  | [] => acc
  | p :: parts' => last_timeout (match strip_prefix #"timeout=" p with Some v => Some v | None => acc end) parts'
  end.

Definition parse_tag (line : str) : option EntryTag :=
  rest ← strip_prefix #"# orkia:" line;
  match split_char chr_colon rest with
  | agent :: slug :: extra => Some (mkTag agent slug (last_timeout None extra))
  | _ => None
  end.

(** ** Command lines *)

Definition replace (c : char) (by_ : str) (s : str) : str := s ≫= (λ d, if (d =? c)%N then by_ else [d]).

Definition escape_dash_c_arg (command : str) : str :=
  replace chr_percent [chr_backslash; chr_percent]
    (replace chr_dquote [chr_backslash; chr_dquote]
       (replace chr_backslash [chr_backslash; chr_backslash] command)).

(** The text up to the first quote that no backslash precedes, and what follows it. *)
Fixpoint scan_quoted (escaped : bool) (s : str) : option (str * str) :=
  match s with
  | [] => None
  | c :: s' =>
      if escaped then '(a, b) ← scan_quoted false s'; Some (c :: a, b)
      else if (c =? chr_backslash)%N then '(a, b) ← scan_quoted true s'; Some (c :: a, b)
      else if (c =? chr_dquote)%N then Some ([], s)
      else '(a, b) ← scan_quoted false s'; Some (c :: a, b)
  end.

(** The line cut around the quoted argument of [-c], the quotes left outside. *)
Definition dash_c_arg_span (s : str) : option (str * str * str) :=
  pos ← find_sub #"-c " s;
  let after := drop (pos + 3) s in
  open ← find_sub [chr_dquote] after;
  let before := take (pos + 3 + open + 1) s in
  '(arg, rest) ← scan_quoted false (drop (open + 1) after);
  Some (before, arg, rest).

Fixpoint unescape (escaped : bool) (s : str) : str :=
  match s with
  | [] => []
  | c :: s' =>
      if escaped then c :: unescape false s'
      else if (c =? chr_backslash)%N then unescape true s'
      else c :: unescape false s'
  end.

Definition extract_dash_c_arg (s : str) : option str :=
  '(_, arg, _) ← dash_c_arg_span s; Some (unescape false arg).

Definition rewrite_dash_c_arg (line new_command : str) : option str :=
  '(before, _, rest) ← dash_c_arg_span line; Some (before ++ escape_dash_c_arg new_command ++ rest).

Definition parse_command_line (line : str) : option (str * str) :=
  let words := split_whitespace line in
  if decide (length (take 5 words) = 5) then
    command ← extract_dash_c_arg (join #" " (drop 5 words));
    Some (join #" " (take 5 words), command)
  else None.

(** ** The crontab *)

Record OrkiaEntry := mkEntry {
  e_cron : str; e_agent : str; e_slug : str; e_timeout : option str; e_command : str; e_paused : bool }.

#[export] Instance OrkiaEntry_eq : EqDecision OrkiaEntry.
Proof. solve_decision. Defined.

Definition PAUSED : str := #"# PAUSED: ".

Definition entry_of (tag : EntryTag) (cmd_line : str) : option OrkiaEntry :=
  let '(paused, payload) := match strip_prefix PAUSED cmd_line with
                            | Some rest => (true, rest)
                            | None => (false, cmd_line)
                            end in
  '(cron, command) ← parse_command_line payload;
  Some (mkEntry cron (tag_agent tag) (tag_slug tag) (tag_timeout tag) command paused).

Definition Crontab := list str.

Fixpoint orkia_entries (lines : Crontab) : list OrkiaEntry :=
  match lines with
  | [] => []
  | l :: rest =>
      match parse_tag l, rest with
      | Some tag, cmd :: rest' =>
          match entry_of tag cmd with
          | Some e => e :: orkia_entries rest'
          | None => orkia_entries rest
          end
      | _, _ => orkia_entries rest
      end
  end.

Definition append_orkia (tag : EntryTag) (cron command_line : str) (c : Crontab) : Crontab :=
  c ++ [render tag; cron ++ #" " ++ command_line].

(** The lines left when the tag with the given number and the line after it are taken out,
    and whether it was met. *)
Fixpoint remove_go (index seen : nat) (lines : Crontab) : bool * Crontab :=
  match lines with
  | [] => (false, [])
  | l :: rest =>
      match parse_tag l with
      | Some _ =>
          if decide (S seen = index) then
            match rest with
            | [] => (true, [])
            | _ :: rest' => let '(_, out) := remove_go index (S seen) rest' in (true, out)
            end
          else let '(r, out) := remove_go index (S seen) rest in (r, l :: out)
      | None => let '(r, out) := remove_go index seen rest in (r, l :: out)
      end
  end.

Definition remove_orkia_at (index : nat) (c : Crontab) : option OrkiaEntry * Crontab :=
  match orkia_entries c !! (index - 1) with
  | None => (None, c)
  | Some target => let '(met, out) := remove_go index 0 c in (if met then Some target else None, out)
  end.

Definition toggle (pause : bool) (current : str) : str :=
  if pause then if starts_with PAUSED current then current else PAUSED ++ current
  else default current (strip_prefix PAUSED current).

(** The lines with the command of the tag with the given number toggled; [None] when there
    is no such tag before the last line. *)
Fixpoint pause_go (index : nat) (pause : bool) (seen : nat) (lines : Crontab) : option Crontab :=
  match lines with
  | l :: (cmd :: rest') as rest =>
      match parse_tag l with
      | Some _ =>
          if decide (S seen = index) then Some (l :: toggle pause cmd :: rest')
          else cons l <$> pause_go index pause (S seen) rest
      | None => cons l <$> pause_go index pause seen rest
      end
  | _ => None
  end.

Definition set_paused_at (index : nat) (pause : bool) (c : Crontab) : option OrkiaEntry * Crontab :=
  match pause_go index pause 0 c with
  | None => (None, c)
  | Some c' => (orkia_entries c' !! (index - 1), c')
  end.

(** ** The migration *)

Definition has_once_token (command : str) : bool := bool_decide (#"--once" ∈ split_whitespace command).

Fixpoint rewrite_entry_command (slug new_command : str) (lines : Crontab) : option Crontab :=
  match lines with
  | l :: (cmd :: rest') as rest =>
      if starts_with #"# orkia:" l && contains (chr_colon :: slug) l then
        (λ cmd', l :: cmd' :: rest') <$> rewrite_dash_c_arg cmd new_command
      else cons l <$> rewrite_entry_command slug new_command rest
  | _ => None
  end.

Definition migrate_entry (st : nat * Crontab) (e : OrkiaEntry) : nat * Crontab :=
  let '(n, c) := st in
  if bool_decide (e_agent e = #"shell") || has_once_token (e_command e) then (n, c)
  else match rewrite_entry_command (e_slug e) (e_command e ++ #" --once") c with
       | Some c' => (S n, c')
       | None => (n, c)
       end.

Definition add_once_to_agent_entries (c : Crontab) : nat * Crontab :=
  foldl migrate_entry (0, c) (orkia_entries c).

(** ** The spool, through the [crontab] program *)

Inductive Listed := ListNotRun (e : str) | ListRan (success : bool) (out err : str).
Inductive Written := NotSpawned (e : str) | PipeFailed (e : str) | WaitFailed (e : str) | Exited (success : bool) (status : str).

Class CrontabProgram (Spool : Type) := {
  crontab_l : Spool → Listed;
  crontab_write : str → Spool → Written * Spool }.

(** A text the program accepted is what it lists next. *)
Class CrontabLaws Spool `{!CrontabProgram Spool} : Prop :=
  listed_written : ∀ t s st s', crontab_write t s = (Exited true st, s') → crontab_l s' = ListRan true t [].

Section spool.
Context {Spool : Type} `{!CrontabProgram Spool}.

Definition load (s : Spool) : result str Crontab :=
  match crontab_l s with
  | ListNotRun e => Err (#"crontab not available on this system: " ++ e)
  | ListRan true out _ => Ok (lines out)
  | ListRan false _ err =>
      if contains #"no crontab" err then Ok []
      else if is_empty (trim err) then Ok []
      else Err (#"crontab -l failed: " ++ trim err)
  end.

Definition spool_text (c : Crontab) : str :=
  let body := join [chr_nl] c in
  if ends_with [chr_nl] body then body else body ++ [chr_nl].

Definition save (c : Crontab) : M Spool str unit := λ s,
  let '(w, s') := crontab_write (spool_text c) s in
  (match w with
   | NotSpawned e => Err (#"crontab not available on this system: " ++ e)
   | PipeFailed e => Err (#"failed to write to crontab: " ++ e)
   | WaitFailed e => Err (#"crontab process error: " ++ e)
   | Exited false st => Err (#"crontab - exited with " ++ st)
   | Exited true _ => Ok ()
   end, s').

Definition migrate_missing_once : M Spool str nat :=
  c ← λ s, (load s, s);
  let '(migrated, c') := add_once_to_agent_entries c in
  (if decide (0 < migrated) then save c' else mret ());;
  mret migrated.
End spool.

(** ** The command line *)

Record CreateSpec := mkCreate { frequency : str; cs_agent : str; cs_command : str; cs_timeout : option str }.

Inductive Action := Help | ListAction | Remove (n : N) | Pause (n : N) | Resume (n : N) | Create (spec : CreateSpec).

Definition usize_max : N := 18446744073709551615%N.

Definition parse_index (rest : list str) : result str N :=
  match rest with
  | [] => Err #"usage: orkia every <remove|pause|resume> <number>"
  | raw :: _ =>
      match parse_uint usize_max raw with
      | None => Err (#"expected a job number, got `" ++ raw ++ #"`")
      | Some n => if (n =? 0)%N then Err #"job numbers are 1-based; use `every list` to see them" else Ok n
      end
  end.

Fixpoint pop_timeout (filtered : list str) (timeout : option str) (args : list str)
  : result str (list str * option str) :=
  match args with
  | [] => Ok (filtered, timeout)
  | a :: args' =>
      if decide (a = #"--timeout") then
        match args' with
        | [] => Err #"--timeout requires an argument like 30m or 3600s"
        | v :: args'' => pop_timeout filtered (Some v) args''
        end
      else pop_timeout (filtered ++ [a]) timeout args'
  end.

Definition USAGE : str := #"usage: orkia every " ++ [chr_dquote] ++ #"<frequency>" ++ [chr_dquote] ++ #" <command>".

Definition parse_create (args : list str) : result str CreateSpec :=
  '(filtered, timeout) ← pop_timeout [] None args;
  match filtered with
  | [] | [_] => Err USAGE
  | freq :: first :: rest =>
      match strip_prefix #"@" first with
      | Some agent =>
          let body := join #" " rest in
          if is_empty body then Err #"missing command body after @agent" else Ok (mkCreate freq agent body timeout)
      | None => Ok (mkCreate freq #"shell" (join #" " (first :: rest)) timeout)
      end
  end.

Definition parse_args (args : list str) : result str Action :=
  match args with
  | [] => Ok Help
  | first :: rest =>
      if decide (first ∈ [ #"--help"; #"-h"; #"help"]) then Ok Help
      else if decide (first ∈ [ #"list"; #"ls"]) then Ok ListAction
      else if decide (first ∈ [ #"remove"; #"rm"; #"delete"]) then n ← parse_index rest; Ok (Remove n)
      else if decide (first = #"pause") then n ← parse_index rest; Ok (Pause n)
      else if decide (first = #"resume") then n ← parse_index rest; Ok (Resume n)
      else spec ← parse_create args; Ok (Create spec)
  end.

(** ** The builtin *)

Inductive Block := BError (msg : str) | BInfo (msg : str) | BText (msg : str).

(** What the builtin finds around it. The answer at the terminal is a line, if one can be
    read; an agent's file is text, if it can be read, and the TOML reader finds its
    [trust.approval]; the [cron] crate checks an expression and finds its next moment. *)
Record Around := mkAround {
  is_tty : bool;
  answer : option str;
  agent_file : str → bool;
  agent_text : str → option str;
  agent_approval : str → option (option str);
  which_out : option (bool * str);
  home_var : option str;
  current_exe : option str;
  path_exists : str → bool;
  check_schedule : str → result str unit;
  next_at : str → option (str * str) }.

Section every.
Context (w : Around) {Spool : Type} `{!CrontabProgram Spool}.

(** *** The binary *)

Definition which_orkia : option str :=
  '(success, out) ← which_out w;
  if negb success then None
  else let path := trim out in
       if is_empty path then None else if path_exists w path then Some path else None.

Definition home_install_path : option str :=
  (λ h, (if is_empty h || ends_with #"/" h then h else h ++ #"/") ++ #".orkia/bin/orkia") <$> home_var w.

Definition if_exists (p : option str) : option str := q ← p; if path_exists w q then Some q else None.

Definition resolve_orkia_binary : result str str :=
  match which_orkia with
  | Some p => Ok p
  | None =>
      match if_exists home_install_path with
      | Some p => Ok p
      | None =>
          match if_exists (current_exe w) with
          | Some p => Ok p
          | None => Err #"Could not resolve orkia binary path. Ensure orkia is installed."
          end
      end
  end.

(** *** The line that is written *)

Definition u64_max : N := 18446744073709551615%N.

Definition unit_seconds (c : char) : option N :=
  (if c =? 115 then Some 1 else if c =? 109 then Some 60 else if c =? 104 then Some 3600
   else if c =? 100 then Some 86400 else None)%N.

Definition parse_duration_secs (s : str) : option N :=
  let s := trim s in
  match parse_uint u64_max s with
  | Some n => Some n
  | None =>
      unit ← last s;
      n ← parse_uint u64_max (take (length s - 1) s);
      mult ← unit_seconds unit;
      if (n * mult <=? u64_max)%N then Some (n * mult)%N else None
  end.

Definition scheduled_command (agent user_command : str) : str :=
  if decide (agent = #"shell") then user_command else user_command ++ #" --once".

Record CommandLineSpec := mkLineSpec {
  ls_bin : str; ls_command : str; ls_timeout : option str; ls_approval : bool; ls_cron : str }.

Definition timeout_flag (timeout : option str) : str :=
  match timeout ≫= parse_duration_secs with Some secs => #" --timeout " ++ fmt_dec secs | None => [] end.

Definition schedule_envs (approval : bool) (cron_line : str) : str :=
  #"ORKIA_SCHEDULED=1" ++ (if approval then #" ORKIA_SCHEDULED_APPROVAL=required" else []) ++
  #" ORKIA_SCHEDULED_CRON=" ++ [chr_dquote] ++ replace chr_percent [chr_backslash; chr_percent] cron_line ++ [chr_dquote].

Definition render_command_line (spec : CommandLineSpec) : str :=
  #"/usr/bin/env " ++ schedule_envs (ls_approval spec) (ls_cron spec) ++ #" " ++ ls_bin spec ++ #" -c" ++
  timeout_flag (ls_timeout spec) ++ #" " ++ [chr_dquote] ++ escape_dash_c_arg (ls_command spec) ++ [chr_dquote].

Definition agent_requires_approval (name : str) : bool :=
  match agent_text w name ≫= agent_approval w with
  | Some (Some a) => bool_decide (to_ascii_lowercase (trim a) ∈ [ #"required"; #"require"; #"yes"; #"true"])
  | _ => false
  end.

Definition validate_cron (c : CronExpr) : result str unit := check_schedule w (#"0 " ++ to_line c ++ #" *").

Definition confirm_duplicate : bool :=
  is_tty w && match answer w with
              | Some buf => bool_decide (to_ascii_lowercase (trim buf) ∈ [ #"y"; #"yes"])
              | None => false
              end.

(** *** What is shown *)

Definition in_quotes (s : str) : str := [chr_dquote] ++ s ++ [chr_dquote].

Definition render_help : list Block :=
  [BInfo (unlines [
     #"orkia every " ++ [8212%N] ++ #" schedule agents via crond"; [];
     #"USAGE:";
     #"  orkia every " ++ in_quotes #"<frequency>" ++ #" [@<agent>] <command> [--timeout <dur>]";
     #"  orkia every list";
     #"  orkia every remove <number>";
     #"  orkia every pause  <number>";
     #"  orkia every resume <number>"; [];
     #"FREQUENCY EXAMPLES:";
     #"  " ++ in_quotes #"monday 9am" ++ #"        " ++ in_quotes #"weekdays 8am" ++ #"     " ++ in_quotes #"every 2 hours";
     #"  " ++ in_quotes #"daily 5pm" ++ #"         " ++ in_quotes #"weekends 10am" ++ #"    " ++ in_quotes #"every 30 minutes";
     #"  " ++ in_quotes #"1st of month" ++ #"      " ++ in_quotes #"15th of month" ++ #"    " ++ in_quotes #"twice a day"])].

Definition truncate (s : str) (max : nat) : str :=
  if decide (length s ≤ max) then s else take (max - 1) s ++ [8230%N].

Definition fmt_left (width : nat) (s : str) : str := s ++ replicate (width - length s) chr_space.

Definition next_run_display (cron : str) : str := default #"-" (fst <$> next_at w cron).

Definition render_created (cron command_line : str) : list Block :=
  [BInfo ([10003%N] ++ #" Scheduled: " ++ cron ++ #" " ++ command_line);
   BText (#"  Next run: " ++ default #"unknown (cron expression has no upcoming occurrences)" (snd <$> next_at w cron))].

Definition render_row (i : nat) (e : OrkiaEntry) : Block :=
  BText (#"  " ++ fmt_left 2 (fmt_dec (N.of_nat (S i))) ++ #" " ++ fmt_left 17 (truncate (e_cron e) 17) ++ #" " ++
         fmt_left 9 (truncate (e_agent e) 9) ++ #" " ++ fmt_left 36 (truncate (e_command e) 36) ++ #" " ++
         (if e_paused e then #"(paused)" else next_run_display (e_cron e))).

Definition render_list (entries : list OrkiaEntry) : list Block :=
  match entries with
  | [] => [BInfo #"no scheduled jobs"]
  | _ => [BInfo #"# Orkia scheduled jobs";
          BInfo #"  N  CRON              AGENT     COMMAND                              NEXT"] ++ imap render_row entries
  end.

Definition render_error (msg : str) : list Block := [BError msg].
Definition render_removed (e : OrkiaEntry) : list Block := [BInfo ([10003%N] ++ #" Removed: " ++ e_command e)].
Definition render_paused (e : OrkiaEntry) : list Block := [BInfo ([10003%N] ++ #" Paused: " ++ e_command e)].
Definition render_resumed (e : OrkiaEntry) : list Block :=
  [BInfo ([10003%N] ++ #" Resumed: " ++ e_command e ++ #" (next: " ++ next_run_display (e_cron e) ++ #")")].

(** *** Handlers: blocks, and the spool after *)

(** A failed read or write shows its error. *)
Definition shown (c : M Spool str (list Block)) (s : Spool) : list Block * Spool :=
  match c s with
  | (Ok bs, s') => (bs, s')
  | (Err e, s') => (render_error e, s')
  end.

Definition loaded : M Spool str Crontab := λ s, (load s, s).

Definition no_schedule (n : nat) : str :=
  #"no orkia schedule at index " ++ fmt_dec (N.of_nat n) ++ #" (use `every list` to see them)".

Definition handle_list : M Spool str (list Block) := c ← loaded; mret (render_list (orkia_entries c)).

Definition handle_remove (n : nat) : M Spool str (list Block) :=
  c ← loaded;
  match remove_orkia_at n c with
  | (None, _) => throw (no_schedule n)
  | (Some e, c') => save c';; mret (render_removed e)
  end.

Definition handle_pause (n : nat) (pause : bool) : M Spool str (list Block) :=
  c ← loaded;
  match set_paused_at n pause c with
  | (None, _) => throw (no_schedule n)
  | (Some e, c') => save c';; mret (if pause then render_paused e else render_resumed e)
  end.

Definition user_command (spec : CreateSpec) : str :=
  if decide (cs_agent spec = #"shell") then cs_command spec else #"@" ++ cs_agent spec ++ #" " ++ cs_command spec.

(** The command line and the expression of a schedule, before the crontab is read. *)
Definition plan_create (spec : CreateSpec) : result str (str * str * str) :=
  if negb (bool_decide (cs_agent spec = #"shell")) && negb (agent_file w (cs_agent spec)) then
    Err (#"Agent '" ++ cs_agent spec ++ #"' not found. Run `orkia agent list` to see available agents.")
  else
    cron ← map_err parse_error_text (parse (frequency spec));
    map_err (λ e, #"internal: synthesised invalid cron `" ++ to_line cron ++ #"`: " ++ e) (validate_cron cron);;
    bin ← resolve_orkia_binary;
    let scheduled := scheduled_command (cs_agent spec) (user_command spec) in
    let approval := negb (bool_decide (cs_agent spec = #"shell")) && agent_requires_approval (cs_agent spec) in
    Ok (to_line cron, scheduled,
        render_command_line (mkLineSpec bin scheduled (cs_timeout spec) approval (to_line cron))).

Definition duplicate (spec : CreateSpec) (cron_line scheduled : str) (c : Crontab) : bool :=
  existsb (λ e, bool_decide (e_agent e = cs_agent spec) && bool_decide (e_command e = scheduled)
                && bool_decide (e_cron e = cron_line)) (orkia_entries c).

Definition handle_create (spec : CreateSpec) : M Spool str (list Block) :=
  '(cron_line, scheduled, command_line) ← lift (plan_create spec);
  c ← loaded;
  if duplicate spec cron_line scheduled c && negb confirm_duplicate then throw #"aborted: duplicate schedule"
  else
    let tag := mkTag (cs_agent spec) (slugify (cs_agent spec ++ #" " ++ cs_command spec)) (cs_timeout spec) in
    save (append_orkia tag cron_line command_line c);;
    mret (render_created cron_line command_line).

Definition every (args : list str) (s : Spool) : list Block * Spool :=
  match parse_args args with
  | Err e => (render_error e, s)
  | Ok Help => (render_help, s)
  | Ok ListAction => shown handle_list s
  | Ok (Remove n) => shown (handle_remove (N.to_nat n)) s
  | Ok (Pause n) => shown (handle_pause (N.to_nat n) true) s
  | Ok (Resume n) => shown (handle_pause (N.to_nat n) false) s
  | Ok (Create spec) => shown (handle_create spec) s
  end.
End every.

(** ** Quoting *)

Definition escape_char (c : char) : str :=
  if bool_decide (c ∈ [chr_backslash; chr_dquote; chr_percent]) then [chr_backslash; c] else [c].

Lemma escape_chars s : escape_dash_c_arg s = s ≫= escape_char.
Proof.
  unfold escape_dash_c_arg, replace. induction s as [|c s IH]; [done|]. rewrite !bind_cons, !bind_app, IH. f_equal.
  unfold escape_char. destruct (N.eqb_spec c chr_backslash) as [->|H1]; [done|].
  destruct (N.eqb_spec c chr_dquote) as [->|H2].
  { cbn [mbind list_bind app]. by destruct (N.eqb_spec chr_dquote chr_dquote). }
  destruct (N.eqb_spec c chr_percent) as [->|H3].
  { cbn. done. }
  cbn [mbind list_bind app]. rewrite (proj2 (N.eqb_neq c chr_dquote)) by done. cbn [mbind list_bind app].
  rewrite (proj2 (N.eqb_neq c chr_percent)) by done. rewrite bool_decide_eq_false_2; [done|].
  rewrite !not_elem_of_cons. split_and!; try done. apply not_elem_of_nil.
Qed.

(** A command's quoted form ends at the quote put after it. *)
Lemma scan_escaped s rest : scan_quoted false (escape_dash_c_arg s ++ chr_dquote :: rest)
                            = Some (escape_dash_c_arg s, chr_dquote :: rest).
Proof.
  rewrite escape_chars. induction s as [|c s IH]; [done|]. rewrite bind_cons, <- app_assoc. unfold escape_char at 1 3.
  case_bool_decide as Hc.
  - cbn [app scan_quoted]. change ((chr_backslash =? chr_backslash)%N) with true. cbv iota.
    rewrite IH. done.
  - rewrite !not_elem_of_cons in Hc. destruct Hc as (H1 & H2 & _). cbn [app scan_quoted].
    rewrite (proj2 (N.eqb_neq c chr_backslash)), (proj2 (N.eqb_neq c chr_dquote)), IH by done. done.
Qed.

Lemma unescape_escaped s : unescape false (escape_dash_c_arg s) = s.
Proof.
  rewrite escape_chars. induction s as [|c s IH]; [done|]. rewrite bind_cons. unfold escape_char at 1.
  case_bool_decide as Hc.
  - cbn [app unescape]. change ((chr_backslash =? chr_backslash)%N) with true. cbv iota. by rewrite IH.
  - rewrite !not_elem_of_cons in Hc. destruct Hc as (H1 & H2 & _). cbn [app unescape].
    rewrite (proj2 (N.eqb_neq c chr_backslash)) by done. by rewrite IH.
Qed.

Lemma find_char_None c s : c ∉ s → find_sub [c] s = None.
Proof.
  induction s as [|d s IH]; intros Hc; [done|]. cbn [find_sub]. unfold starts_with. cbn [strip_prefix].
  destruct (N.eqb_spec c d) as [->|_]; [set_solver|]. by rewrite IH by set_solver.
Qed.

Lemma dash_c_span pre mid cmd rest :
  find_sub #"-c " pre = None → chr_dquote ∉ mid →
  dash_c_arg_span (pre ++ #"-c " ++ mid ++ chr_dquote :: escape_dash_c_arg cmd ++ chr_dquote :: rest)
  = Some (pre ++ #"-c " ++ mid ++ [chr_dquote], escape_dash_c_arg cmd, chr_dquote :: rest).
Proof.
  intros Hp Hm. unfold dash_c_arg_span. set (tail := mid ++ _).
  change #"-c " with (chr_minus :: #"c ") in *. rewrite find_sub_app by (done || by apply (bool_decide_unpack _); vm_compute).
  cbn [mbind option_bind].
  assert (drop (length pre + 3) (pre ++ (chr_minus :: #"c ") ++ tail) = tail) as ->.
  { rewrite app_assoc. change 3 with (length (chr_minus :: #"c ")). rewrite <- length_app. apply drop_app_length. }
  unfold tail. change (mid ++ chr_dquote :: ?x) with (mid ++ [chr_dquote] ++ x).
  rewrite find_sub_app; [|by intros ?%not_elem_of_nil|by apply find_char_None]. cbn [mbind option_bind].
  replace (drop (length mid + 1) (mid ++ [chr_dquote] ++ _)) with (escape_dash_c_arg cmd ++ chr_dquote :: rest).
  2: { rewrite (app_assoc mid). change 1 with (length [chr_dquote]). rewrite <- length_app. by rewrite drop_app_length. }
  rewrite scan_escaped. cbn [mbind option_bind]. do 3 f_equal.
  replace (length pre + 3 + length mid + 1) with (length (pre ++ (chr_minus :: #"c ") ++ mid ++ [chr_dquote]))
    by (rewrite !length_app; cbn [length]; rewrite (eq_refl : length #"c " = 2); lia).
  match goal with |- take _ ?whole = ?part => replace whole with (part ++ escape_dash_c_arg cmd ++ chr_dquote :: rest) end.
  - apply take_app_length.
  - by rewrite <- !app_assoc.
Qed.

(** ** Texts of single-spaced words *)

Definition spaced (s : str) : Prop := ∃ ws, ws ≠ [] ∧ Forall word ws ∧ s = join #" " ws.

Lemma spaced_word w : word w → spaced w.
Proof. intros Hw. exists [w]. split_and!; [done| |done]. by apply list.Forall_singleton. Qed.

Lemma join_app sep a b : a ≠ [] → b ≠ [] → join sep (a ++ b) = join sep a ++ sep ++ join sep b.
Proof.
  intros Ha Hb. induction a as [|x a IH]; [done|]. destruct a as [|y a].
  - destruct b as [|z b]; [done|]. done.
  - change (join sep ((x :: y :: a) ++ b)) with (x ++ sep ++ join sep ((y :: a) ++ b)).
    rewrite IH by done. change (join sep (x :: y :: a)) with (x ++ sep ++ join sep (y :: a)). by rewrite <- !app_assoc.
Qed.

Lemma spaced_app a b : spaced a → spaced b → spaced (a ++ #" " ++ b).
Proof.
  intros (wa & Ha & Fa & ->) (wb & Hb & Fb & ->). exists (wa ++ wb). split_and!.
  - by destruct wa.
  - by apply list.Forall_app.
  - by rewrite join_app.
Qed.

Lemma spaced_prefix p s : no_blank p → spaced s → spaced (p ++ s).
Proof.
  intros Hp (ws & Hne & HF & ->). destruct ws as [|w ws]; [done|]. apply list.Forall_cons in HF as [[Hw Hb] HF].
  exists ((p ++ w) :: ws). split_and!; [done| |].
  - apply list.Forall_cons_2; [|done]. split; [by destruct p|]. by apply list.Forall_app.
  - destruct ws as [|v ws]; [done|]. change (join #" " (?x :: v :: ws)) with (x ++ #" " ++ join #" " (v :: ws)).
    by rewrite <- app_assoc.
Qed.

Lemma spaced_suffix p s : no_blank p → spaced s → spaced (s ++ p).
Proof.
  intros Hp (ws & Hne & HF & ->). destruct (exists_last Hne) as (vs & w & ->).
  apply list.Forall_app in HF as [HF [[Hw Hb] _]%list.Forall_cons].
  exists (vs ++ [w ++ p]). split_and!; [by destruct vs| |].
  - apply list.Forall_app. split; [done|]. apply list.Forall_singleton. split; [by destruct w|]. by apply list.Forall_app.
  - destruct vs as [|v vs]; [done|]. rewrite !join_app by done. cbn [join]. by rewrite <- !app_assoc.
Qed.

Lemma spaced_split s : spaced s → join #" " (split_whitespace s) = s ∧ Forall word (split_whitespace s) ∧ s ≠ [].
Proof.
  intros (ws & Hne & HF & ->). rewrite split_whitespace_join by done. split_and!; [done..|].
  destruct ws as [|w ws]; [done|]. apply list.Forall_cons in HF as [[Hw _] _].
  destruct ws; [done|]. cbn [join]. by destruct w.
Qed.

Lemma split_spaced_app a b : Forall word a → a ≠ [] → spaced b →
  split_whitespace (join #" " a ++ #" " ++ b) = a ++ split_whitespace b.
Proof.
  intros Fa Ha (wb & Hb & Fb & ->). rewrite <- join_app, !split_whitespace_join by (done || by apply list.Forall_app). done.
Qed.

(** ** An added entry is listed *)

Lemma escape_app a b : escape_dash_c_arg (a ++ b) = escape_dash_c_arg a ++ escape_dash_c_arg b.
Proof. rewrite !escape_chars. apply bind_app. Qed.

Lemma escape_no_blank s : no_blank s → no_blank (escape_dash_c_arg s).
Proof.
  rewrite escape_chars. induction 1 as [|c s Hc HF IH]; [constructor|]. rewrite bind_cons.
  apply list.Forall_app. split; [|done]. unfold escape_char. case_bool_decide; by repeat constructor.
Qed.

Lemma escape_word s : word s → word (escape_dash_c_arg s).
Proof.
  intros [Hn Hb]. split; [|by apply escape_no_blank]. rewrite escape_chars. destruct s as [|c s]; [done|].
  rewrite bind_cons. unfold escape_char at 1. by case_bool_decide.
Qed.

Lemma escape_spaced s : spaced s → spaced (escape_dash_c_arg s).
Proof.
  intros (ws & Hne & HF & ->). exists (map escape_dash_c_arg ws). split_and!; [by destruct ws| |].
  - apply list.Forall_fmap. eapply list.Forall_impl; [exact HF|]. apply escape_word.
  - clear Hne HF. induction ws as [|w ws IH]; [done|]. destruct ws as [|v ws]; [done|].
    change (join #" " (w :: v :: ws)) with (w ++ #" " ++ join #" " (v :: ws)).
    rewrite !escape_app, IH. done.
Qed.

(** The first [-c ] is not before the binary when neither has one. *)
Lemma find_dash_c a b : 99%N ∉ a → last a ≠ Some chr_minus → find_sub #"-c " b = None → find_sub #"-c " (a ++ b) = None.
Proof.
  intros Ha Hl Hb. induction a as [|x a IH]; [done|].
  rewrite <- app_comm_cons. cbn [find_sub]. rewrite IH.
  - replace (starts_with #"-c " (x :: a ++ b)) with false; [done|]. symmetry. unfold starts_with. cbn [strip_prefix].
    change #"-c " with (chr_minus :: 99%N :: #" "). cbn [strip_prefix].
    destruct (N.eqb_spec chr_minus x) as [<-|]; [|done]. destruct a as [|y a]; [done|]. cbn [app strip_prefix].
    destruct (N.eqb_spec 99 y) as [<-|]; [|done]. set_solver.
  - set_solver.
  - destruct a; [done|]. exact Hl.
Qed.

(** The characters of a crontab expression that this program writes. *)
Definition cron_char (c : char) : Prop :=
  (48 ≤ c ≤ 57 ∨ 65 ≤ c ≤ 90)%N ∨ c ∈ [chr_star; chr_slash; chr_comma; chr_minus; chr_space].

Definition cron_check (s : str) : bool :=
  forallb (λ c, in_range 48 57 c || in_range 65 90 c
                || bool_decide (c ∈ [chr_star; chr_slash; chr_comma; chr_minus; chr_space])) s.

Lemma cron_checked s : cron_check s = true → Forall cron_char s.
Proof.
  intros Hs. apply list.Forall_forall. intros c Hc%list_elem_of_In. unfold cron_check in Hs. rewrite forallb_forall in Hs.
  specialize (Hs _ Hc). rewrite !orb_true_iff, !in_range_true, bool_decide_eq_true in Hs. unfold cron_char. tauto.
Qed.

Lemma cron_chars_fmt n : Forall cron_char (fmt_dec n).
Proof. eapply list.Forall_impl; [apply fmt_dec_digits|]. intros c Hc. left. by left. Qed.

Lemma cron_line_chars f : Forall cron_char (to_line (cron_of f)).
Proof.
  unfold to_line. destruct f; cbn [cron_of minute hour dom month dow at_time];
    repeat (apply list.Forall_app; split); try apply cron_chars_fmt; try by apply cron_checked.
  induction ds as [|d ds IH]; [constructor|]. destruct ds as [|d' ds]; [by destruct d; apply cron_checked|].
  change (Forall cron_char (day_code d ++ [chr_comma] ++ join #"," (map day_code (d' :: ds)))).
  repeat (apply list.Forall_app; split); [by destruct d; apply cron_checked|by apply cron_checked|done].
Qed.

Lemma cron_line_words f : freq_ok f →
  Forall word [minute (cron_of f); hour (cron_of f); dom (cron_of f); month (cron_of f); dow (cron_of f)].
Proof.
  intros Hf. destruct f; cbn [cron_of minute hour dom month dow at_time];
    repeat apply list.Forall_cons_2; try apply list.Forall_nil_2;
    first [apply fmt_dec_word | apply step_word | by apply word_check | idtac].
  apply codes_word. apply Hf.
Qed.

Lemma cron_spaced f : freq_ok f → spaced (to_line (cron_of f)).
Proof. intros Hf. eexists. split; [|split; [by apply cron_line_words|reflexivity]]. done. Qed.

Lemma replace_absent c by_ s : c ∉ s → replace c by_ s = s.
Proof.
  unfold replace. induction s as [|d s IH]; intros Hc; [done|]. rewrite bind_cons, IH by set_solver.
  destruct (N.eqb_spec d c) as [->|_]; [set_solver|done].
Qed.

Lemma cron_char_plain c : cron_char c → c ≠ 99%N ∧ c ≠ chr_percent.
Proof.
  intros [Hc|Hc]; [unfold chr_percent; lia|].
  repeat (apply elem_of_cons in Hc as [->|Hc]; [done|]). by apply not_elem_of_nil in Hc.
Qed.

Lemma cron_line_plain f : (99%N ∉ to_line (cron_of f)) ∧ (chr_percent ∉ to_line (cron_of f)).
Proof.
  pose proof (cron_line_chars f) as HF. rewrite list.Forall_forall in HF.
  split; intros [? ?]%HF%cron_char_plain; done.
Qed.

Lemma envs_spaced approval f : freq_ok f → spaced (schedule_envs approval (to_line (cron_of f))).
Proof.
  intros Hf. unfold schedule_envs. rewrite replace_absent by apply cron_line_plain.
  assert (spaced (#"ORKIA_SCHEDULED_CRON=" ++ [chr_dquote] ++ to_line (cron_of f) ++ [chr_dquote])) as Hc.
  { apply spaced_prefix; [by apply word_check|]. apply spaced_prefix; [by apply (word_check [chr_dquote])|].
    apply spaced_suffix; [by apply (word_check [chr_dquote])|]. by apply cron_spaced. }
  assert (∀ w, word w → spaced (w ++ #" " ++ (#"ORKIA_SCHEDULED_CRON=" ++ [chr_dquote] ++ to_line (cron_of f) ++ [chr_dquote]))) as Hw.
  { intros w Hw. apply spaced_app; [by apply spaced_word|done]. }
  destruct approval; [|by apply (Hw #"ORKIA_SCHEDULED=1"), word_check].
  change (spaced (#"ORKIA_SCHEDULED=1" ++ #" " ++ (#"ORKIA_SCHEDULED_APPROVAL=required" ++ #" " ++
           (#"ORKIA_SCHEDULED_CRON=" ++ [chr_dquote] ++ to_line (cron_of f) ++ [chr_dquote])))).
  apply spaced_app; [by apply spaced_word, word_check|]. by apply Hw, word_check.
Qed.

(** The flags between [-c] and the quote. *)
Definition flags (timeout : option str) : str :=
  match timeout ≫= parse_duration_secs with Some secs => #"--timeout " ++ fmt_dec secs ++ #" " | None => [] end.

Lemma flags_no_quote timeout : chr_dquote ∉ flags timeout.
Proof.
  unfold flags. destruct (timeout ≫= _) as [n|]; [|apply not_elem_of_nil]. rewrite !not_elem_of_app. split_and!.
  - by apply (bool_decide_unpack _); vm_compute.
  - apply digits_without; [unfold chr_dquote; lia|apply fmt_dec_digits].
  - by apply (bool_decide_unpack _); vm_compute.
Qed.

Lemma command_line_shape spec :
  render_command_line spec =
  (#"/usr/bin/env " ++ schedule_envs (ls_approval spec) (ls_cron spec) ++ #" " ++ ls_bin spec ++ #" ") ++ #"-c " ++
  flags (ls_timeout spec) ++ chr_dquote :: escape_dash_c_arg (ls_command spec) ++ [chr_dquote].
Proof.
  unfold render_command_line, timeout_flag, flags. rewrite <- !app_assoc. do 4 f_equal.
  destruct (ls_timeout spec ≫= _); [|done]. by rewrite <- !app_assoc.
Qed.

Lemma command_line_spaced bin cmd timeout approval f : word bin → spaced cmd → freq_ok f →
  spaced (render_command_line (mkLineSpec bin cmd timeout approval (to_line (cron_of f)))).
Proof.
  intros Hb Hc Hf. unfold render_command_line. cbn [ls_bin ls_command ls_timeout ls_approval ls_cron].
  assert (word [chr_dquote]) as Hq by (by apply word_check).
  assert (spaced ([chr_dquote] ++ escape_dash_c_arg cmd ++ [chr_dquote])) as H1.
  { apply spaced_prefix; [apply Hq|]. apply spaced_suffix; [apply Hq|]. by apply escape_spaced. }
  assert (spaced (#"-c" ++ timeout_flag timeout ++ #" " ++ [chr_dquote] ++ escape_dash_c_arg cmd ++ [chr_dquote])) as H2.
  { unfold timeout_flag. destruct (timeout ≫= _) as [n|].
    - change (spaced (#"-c" ++ #" " ++ (#"--timeout" ++ #" " ++ (fmt_dec n ++ #" " ++ ([chr_dquote] ++ escape_dash_c_arg cmd ++ [chr_dquote]))))).
      repeat (apply spaced_app; [first [by apply spaced_word, word_check | by apply spaced_word, fmt_dec_word]|]). done.
    - apply spaced_app; [by apply spaced_word, word_check|done]. }
  change (spaced (#"/usr/bin/env" ++ #" " ++ (schedule_envs approval (to_line (cron_of f)) ++ #" " ++ (bin ++ #" " ++
    (#"-c" ++ timeout_flag timeout ++ #" " ++ [chr_dquote] ++ escape_dash_c_arg cmd ++ [chr_dquote]))))).
  apply spaced_app; [by apply spaced_word, word_check|]. apply spaced_app; [by apply envs_spaced|].
  by apply spaced_app; [apply spaced_word|].
Qed.

Lemma before_flag bin approval f : contains #"-c " (bin ++ #" ") = false →
  find_sub #"-c " (#"/usr/bin/env " ++ schedule_envs approval (to_line (cron_of f)) ++ #" " ++ bin ++ #" ") = None.
Proof.
  intros Hb. assert (find_sub #"-c " (bin ++ #" ") = None) as Hn. { unfold contains in Hb. by destruct (find_sub _ _). }
  replace (_ ++ _ ++ _ ++ bin ++ #" ") with ((#"/usr/bin/env " ++ schedule_envs approval (to_line (cron_of f)) ++ #" ") ++ bin ++ #" ")
    by (by rewrite <- !app_assoc).
  apply find_dash_c; [| |done].
  - unfold schedule_envs. rewrite replace_absent by apply cron_line_plain. destruct (cron_line_plain f) as [Hc _].
    rewrite !not_elem_of_app. destruct approval; split_and!; try done; by apply (bool_decide_unpack _); vm_compute.
  - change #" " with [chr_space]. rewrite (app_assoc #"/usr/bin/env "), last_snoc. done.
Qed.

Lemma command_line_read bin cmd timeout approval f :
  word bin → contains #"-c " (bin ++ #" ") = false → spaced cmd → freq_ok f →
  parse_command_line (to_line (cron_of f) ++ #" " ++
    render_command_line (mkLineSpec bin cmd timeout approval (to_line (cron_of f)))) = Some (to_line (cron_of f), cmd).
Proof.
  intros Hb Hbc Hc Hf. pose proof (command_line_spaced bin cmd timeout approval f Hb Hc Hf) as Hr.
  pose proof (cron_line_words f Hf) as Hw. unfold parse_command_line.
  set (r := render_command_line _) in *. set (ws := [minute _; _; _; _; _]) in Hw.
  assert (split_whitespace (to_line (cron_of f) ++ #" " ++ r) = ws ++ split_whitespace r) as ->
    by (by apply (split_spaced_app ws)).
  change (take 5 (ws ++ split_whitespace r)) with ws. change (drop 5 (ws ++ split_whitespace r)) with (split_whitespace r).
  rewrite decide_True by done. destruct (spaced_split _ Hr) as (-> & _). unfold r.
  unfold extract_dash_c_arg. rewrite command_line_shape. cbn [ls_bin ls_command ls_timeout ls_approval ls_cron].
  rewrite dash_c_span by (apply before_flag || apply flags_no_quote; done). cbn [mbind option_bind].
  by rewrite unescape_escaped.
Qed.

(** *** Tags *)

Definition slug_ok (c : char) : Prop := (48 ≤ c ≤ 57 ∨ 97 ≤ c ≤ 122 ∨ c = chr_minus)%N.

Lemma slug_go_ok out l s : Forall slug_ok out → Forall slug_ok (slug_go out l s).
Proof.
  revert out l. induction s as [|c s IH]; intros out l Ho; simpl; [done|]. destruct (40 <=? byte_len out)%N; [done|].
  unfold slug_char. destruct (_ || in_range 97 122 c) eqn:E.
  - apply IH, list.Forall_app. split; [done|]. apply list.Forall_singleton.
    rewrite !orb_true_iff, !in_range_true in E. unfold ascii_lower, slug_ok.
    destruct (in_range 65 90 c) eqn:Er; [apply in_range_true in Er; lia|]. apply in_range_false in Er. lia.
  - destruct (negb l && negb (is_empty out)); apply IH; [|done]. apply list.Forall_app. split; [done|].
    apply list.Forall_singleton. right. by right.
Qed.

Lemma drop_while_sub p s c : c ∈ drop_while p s → c ∈ s.
Proof. induction s as [|d s IH]; [done|]. simpl. destruct (p d); [|done]. intros ?%IH. by right. Qed.

Lemma slugify_ok s : Forall slug_ok (slugify s).
Proof.
  apply list.Forall_forall. unfold slugify, trim_matches. intros c Hc%elem_of_reverse%drop_while_sub%elem_of_reverse%drop_while_sub.
  pose proof (slug_go_ok [] false s ltac:(constructor)) as HF. rewrite list.Forall_forall in HF. by apply HF.
Qed.

Lemma slug_free c s : ¬ slug_ok c → c ∉ slugify s.
Proof. intros Hc Hin. apply Hc. pose proof (slugify_ok s) as HF. rewrite list.Forall_forall in HF. by apply HF. Qed.

Definition tag_ok (t : EntryTag) : Prop :=
  (chr_colon ∉ tag_agent t) ∧ (chr_colon ∉ tag_slug t) ∧ (∀ d, tag_timeout t = Some d → chr_colon ∉ d).

Lemma parse_render t : tag_ok t → parse_tag (render t) = Some t.
Proof.
  intros (Ha & Hs & Ht). unfold parse_tag, render. rewrite strip_prefix_app. cbn [mbind option_bind].
  unfold split_char. change #":" with [chr_colon]. rewrite <- app_comm_cons, app_nil_l.
  rewrite split_char_go_at by done. destruct t as [a sl [d|]]; cbn [tag_agent tag_slug tag_timeout] in *.
  - change (#":timeout=" ++ d) with (chr_colon :: #"timeout=" ++ d).
    unfold split_char at 1. rewrite split_char_go_at by done. unfold split_char at 1.
    rewrite split_char_free.
    + cbn [app last_timeout]. by rewrite strip_prefix_app.
    + rewrite not_elem_of_app. split; [by apply (bool_decide_unpack _); vm_compute|by apply Ht].
  - rewrite app_nil_r. unfold split_char. rewrite split_char_free by done. done.
Qed.

(** *** Lines appended after a line that is not a tag *)

Lemma entries_app c d : (∀ l, last c = Some l → parse_tag l = None) →
  orkia_entries (c ++ d) = orkia_entries c ++ orkia_entries d.
Proof.
  remember (length c) as n eqn:Hn. revert c Hn. induction (lt_wf n) as [n _ IH]. intros c -> Hl.
  destruct c as [|l c]; [done|]. assert (∀ k, last c = Some k → parse_tag k = None) as Hl'.
  { intros k Hk. apply Hl. rewrite last_cons, Hk. done. }
  assert (orkia_entries (c ++ d) = orkia_entries c ++ orkia_entries d) as Hc.
  { apply (IH (length c)); [cbn; lia|done|done]. }
  cbn [app orkia_entries]. destruct (parse_tag l) as [tag|] eqn:E.
  - destruct c as [|cmd c]; [by rewrite (Hl l) in E|]. rewrite <- app_comm_cons in *. destruct (entry_of tag cmd); [|exact Hc].
    cbn [app]. f_equal. apply (IH (length c)); [cbn; lia|done|]. intros k Hk. apply Hl'. by rewrite last_cons, Hk.
  - by destruct (c ++ d), c.
Qed.

(** *** Saving and reading back *)

Section spool_laws.
Context {Spool : Type} `{!CrontabProgram Spool, !CrontabLaws Spool}.

Lemma save_loads (c : Crontab) (s s' : Spool) l : Forall one_line c → last c = Some l → l ≠ [] →
  save c s = (Ok (), s') → load s' = Ok c.
Proof.
  intros HF Hl Hne Hs. unfold save in Hs. destruct (crontab_write (spool_text c) s) as [w s1] eqn:Ew.
  injection Hs as Hw ->. destruct w as [| | |[] st]; try done. unfold load. rewrite (listed_written _ _ _ _ Ew). f_equal.
  apply last_Some in Hl as [a ->]. apply list.Forall_app in HF as HF'. destruct HF' as [_ [[Hn _] _]%list.Forall_cons].
  assert (spool_text (a ++ [l]) = unlines (a ++ [l])) as ->; [|by apply lines_unlines].
  unfold spool_text. replace (ends_with [chr_nl] (join [chr_nl] (a ++ [l]))) with false.
  - destruct (a ++ [l]) as [|x xs] eqn:E; [by destruct a|]. apply join_unlines.
  - symmetry. apply not_true_iff_false. intros (t & E)%ends_with_true.
    destruct (exists_last Hne) as (u & c & ->).
    assert (last (join [chr_nl] (a ++ [u ++ [c]])) = Some c) as Hc.
    { destruct a as [|b a]; [cbn; apply last_snoc|]. rewrite join_app by done. cbn [join]. rewrite !app_assoc. apply last_snoc. }
    rewrite E, last_snoc in Hc. injection Hc as <-. apply Hn, elem_of_app. right. by left.
Qed.

(** What an accepted request writes. *)
Definition created (w : Around) (spec : CreateSpec) (f : Freq) (bin : str) : Crontab :=
  let scheduled := scheduled_command (cs_agent spec) (user_command spec) in
  let approval := negb (bool_decide (cs_agent spec = #"shell")) && agent_requires_approval w (cs_agent spec) in
  [render (mkTag (cs_agent spec) (slugify (cs_agent spec ++ #" " ++ cs_command spec)) (cs_timeout spec));
   to_line (cron_of f) ++ #" " ++
   render_command_line (mkLineSpec bin scheduled (cs_timeout spec) approval (to_line (cron_of f)))].

Lemma handle_create_Ok w spec (s s' : Spool) bs : handle_create w spec s = (Ok bs, s') →
  ∃ f bin c, freq_ok f ∧ parse (frequency spec) = Ok (cron_of f) ∧ resolve_orkia_binary w = Ok bin ∧
    load s = Ok c ∧ save (c ++ created w spec f bin) s = (Ok (), s').
Proof.
  unfold handle_create. intros Hc. apply M_bind_Ok in Hc as ([[cl sc] cmdl] & s0 & H0 & Hc).
  unfold lift in H0. injection H0 as Hp <-. apply M_bind_Ok in Hc as (c & s1 & H1 & Hc). unfold loaded in H1.
  injection H1 as Hl <-. destruct (duplicate _ _ _ _ && _); [done|].
  apply M_bind_Ok in Hc as ([] & s2 & H2 & Hc). injection Hc as _ ->.
  unfold plan_create in Hp. destruct (_ && _); [done|]. apply result_bind_Ok in Hp as (cron & Hcron & Hp).
  destruct (parse (frequency spec)) as [cr|] eqn:Ep; [|done]. injection Hcron as ->.
  apply result_bind_Ok in Hp as ([] & _ & Hp). apply result_bind_Ok in Hp as (bin & Hb & Hp). injection Hp as <- <- <-.
  destruct (parse_freq _ _ Ep) as (f & Hf & ->). by exists f, bin, c.
Qed.
End spool_laws.

Lemma spaced_one_line s : spaced s → one_line s.
Proof.
  intros (ws & _ & HF & ->). assert (∀ c, is_whitespace c = true → c ≠ chr_space → c ∉ join #" " ws) as Hj.
  { intros c Hc Hs. induction HF as [|w ws [_ Hb] HF IH]; [apply not_elem_of_nil|].
    assert (c ∉ w) as Hw. { intros Hin. unfold no_blank in Hb. rewrite list.Forall_forall in Hb. specialize (Hb c Hin). congruence. }
    destruct ws as [|v ws]; [done|]. change (join #" " (w :: v :: ws)) with (w ++ #" " ++ join #" " (v :: ws)).
    rewrite !not_elem_of_app. split_and!; [done| |done]. intros Hin%list_elem_of_singleton. by destruct Hs. }
  by split; apply Hj.
Qed.

Lemma one_line_app a b : one_line a → one_line b → one_line (a ++ b).
Proof. intros [? ?] [? ?]. split; rewrite not_elem_of_app; done. Qed.

(** A request whose parts can be written on a line and read back. *)
Record plain_request (spec : CreateSpec) (bin : str) : Prop := {
  pr_bin : word bin;
  pr_flag : contains #"-c " (bin ++ #" ") = false;
  pr_agent : word (cs_agent spec);
  pr_colon : chr_colon ∉ cs_agent spec;
  pr_command : spaced (cs_command spec);
  pr_timeout : ∀ d, cs_timeout spec = Some d → one_line d ∧ chr_colon ∉ d }.

Lemma scheduled_spaced spec bin : plain_request spec bin →
  spaced (scheduled_command (cs_agent spec) (user_command spec)).
Proof.
  intros [_ _ Ha _ Hc _]. unfold scheduled_command, user_command.
  case_decide; [done|]. change (spaced ((#"@" ++ cs_agent spec ++ #" " ++ cs_command spec) ++ #" " ++ #"--once")).
  apply spaced_app; [|by apply spaced_word, word_check].
  apply (spaced_prefix #"@"); [by apply (word_check #"@")|]. by apply spaced_app; [apply spaced_word|].
Qed.

Lemma cron_line_head f : freq_ok f → ∃ c s, to_line (cron_of f) = c :: s ∧ cron_char c.
Proof.
  intros Hf. pose proof (cron_line_chars f) as HF. destruct (spaced_split _ (cron_spaced f Hf)) as (_ & _ & Hne).
  destruct (to_line (cron_of f)) as [|c s]; [done|]. apply list.Forall_cons in HF as [? _]. by exists c, s.
Qed.

Lemma no_hash f p s : freq_ok f → strip_prefix (35%N :: p) (to_line (cron_of f) ++ s) = None.
Proof.
  intros Hf. destruct (cron_line_head f Hf) as (c & t & -> & Hc). cbn [app].
  apply strip_prefix_head. intros <-. destruct Hc as [?|Hc]; [lia|].
  by apply (bool_decide_unpack (35%N ∉ [chr_star; chr_slash; chr_comma; chr_minus; chr_space])) in Hc.
Qed.

Lemma created_entry w spec f bin : plain_request spec bin → freq_ok f →
  Forall one_line (created w spec f bin) ∧ last (created w spec f bin) ≠ Some [] ∧
  orkia_entries (created w spec f bin) =
  [mkEntry (to_line (cron_of f)) (cs_agent spec) (slugify (cs_agent spec ++ #" " ++ cs_command spec)) (cs_timeout spec)
     (scheduled_command (cs_agent spec) (user_command spec)) false].
Proof.
  intros Hp Hf. pose proof (scheduled_spaced spec bin Hp) as Hs. destruct Hp as [Hb Hbc Ha Hac Hc Ht].
  unfold created. set (ap := _ && agent_requires_approval _ _).
  pose proof (command_line_spaced bin _ (cs_timeout spec) ap f Hb Hs Hf) as Hr. split_and!.
  - repeat apply list.Forall_cons_2; [| |constructor].
    + unfold render. cbn [tag_agent tag_slug tag_timeout].
      assert (one_line (slugify (cs_agent spec ++ #" " ++ cs_command spec))) as Hsl.
      { split; apply slug_free; unfold slug_ok, chr_nl, chr_cr, chr_minus; lia. }
      repeat apply one_line_app; try done; try (by split; apply (bool_decide_unpack _); vm_compute).
      * by apply spaced_one_line, spaced_word.
      * destruct (cs_timeout spec) as [d|]; [|split; apply not_elem_of_nil]. apply one_line_app; [|by apply Ht].
        split; by apply (bool_decide_unpack _); vm_compute.
    + apply spaced_one_line, spaced_app; [by apply cron_spaced|done].
  - rewrite last_cons. cbn [last]. intros [= E]. destruct (cron_line_head f Hf) as (c & t & E' & _). rewrite E' in E. done.
  - cbn [orkia_entries]. rewrite parse_render.
    + unfold entry_of. change PAUSED with (35%N :: #" PAUSED: "). rewrite no_hash by done.
      rewrite command_line_read by done. done.
    + split_and!; [done| |]; cbn [tag_slug tag_timeout].
      * apply slug_free. unfold slug_ok, chr_colon, chr_minus. lia.
      * intros d Hd. by apply Ht.
Qed.

Section spool_laws.
Context {Spool : Type} `{!CrontabProgram Spool, !CrontabLaws Spool}.

End spool_laws.

(** A spool that is a text. *)
#[export] Instance text_spool : CrontabProgram (option str) := {|
  crontab_l s := match s with Some t => ListRan true t [] | None => ListRan false [] #"no crontab for user" end;
  crontab_write t _ := (Exited true #"exit status: 0", Some t) |}.

#[export] Instance text_spool_laws : CrontabLaws (option str).
Proof. intros t s st s' [= _ <-]. done. Qed.

Definition sample_around : Around :=
  mkAround false None (λ n, bool_decide (n = #"faye")) (λ _, Some []) (λ _, Some (Some #"Required"))
    (Some (true, #"/opt/orkia")) None None (λ _, true) (λ _, Ok ()) (λ _, None).

Definition sample_create : CreateSpec :=
  mkCreate #"monday and fri 9:05am" #"faye" (#"say " ++ [chr_dquote] ++ #"100%" ++ [chr_dquote] ++ #" \ done") (Some #"60m").

Definition sample_spool : option str := Some #"0 1 * * * /bin/backup".

Lemma sample_create_plain : plain_request sample_create #"/opt/orkia".
Proof.
  split; [by apply word_check|by vm_compute|by apply word_check|by apply (bool_decide_unpack _); vm_compute| |].
  - exists (split_whitespace (cs_command sample_create)). split_and!; [done| |by vm_compute].
    repeat apply list.Forall_cons_2; try apply list.Forall_nil_2; by apply word_check.
  - intros d [= <-]. split; [split|]; by apply (bool_decide_unpack _); vm_compute.
Qed.


(** ** Removing and pausing *)

(** A command line with or without the mark of a pause. *)
Definition payload (cmd : str) : str := default cmd (strip_prefix PAUSED cmd).

(** Every tag heads the command line of an entry, and no command line looks like a tag or
    is marked twice. *)
Inductive tidy : Crontab → Prop :=
| tidy_nil : tidy []
| tidy_foreign l c : parse_tag l = None → tidy c → tidy (l :: c)
| tidy_entry t tag cmd e c :
    parse_tag t = Some tag → entry_of tag cmd = Some e → parse_tag (payload cmd) = None →
    strip_prefix PAUSED (payload cmd) = None → tidy c → tidy (t :: cmd :: c).

Lemma paused_no_tag s : parse_tag (PAUSED ++ s) = None.
Proof. done. Qed.

Lemma payload_cases cmd : (strip_prefix PAUSED cmd = None ∧ payload cmd = cmd) ∨ cmd = PAUSED ++ payload cmd.
Proof.
  unfold payload. destruct (strip_prefix PAUSED cmd) as [r|] eqn:E; [right|by left].
  by apply strip_prefix_Some in E.
Qed.

Lemma payload_no_tag cmd : parse_tag (payload cmd) = None → parse_tag cmd = None.
Proof. destruct (payload_cases cmd) as [[_ ->]| ->]; [done|]. intros _. apply paused_no_tag. Qed.

Lemma toggle_payload p cmd : strip_prefix PAUSED (payload cmd) = None →
  toggle p cmd = if p then PAUSED ++ payload cmd else payload cmd.
Proof.
  intros Hp. unfold toggle, payload, starts_with. destruct (strip_prefix PAUSED cmd) as [r|] eqn:E; destruct p; try done.
  by apply strip_prefix_Some in E.
Qed.

Definition set_paused (p : bool) (e : OrkiaEntry) : OrkiaEntry :=
  mkEntry (e_cron e) (e_agent e) (e_slug e) (e_timeout e) (e_command e) p.

Lemma entry_toggled tag p cmd e : strip_prefix PAUSED (payload cmd) = None → entry_of tag cmd = Some e →
  entry_of tag (toggle p cmd) = Some (set_paused p e).
Proof.
  intros Hp He. rewrite toggle_payload by done.
  assert (∃ q, parse_command_line (payload cmd) = Some q ∧
            e = mkEntry q.1 (tag_agent tag) (tag_slug tag) (tag_timeout tag) q.2 (e_paused e)) as ([cron command] & Hq & ->).
  { unfold entry_of, payload in *. destruct (strip_prefix PAUSED cmd) as [r|]; cbn [default from_option] in *;
      apply bind_Some in He as ([cr co] & Hq & [= <-]); by exists (cr, co). }
  unfold entry_of. destruct p; [rewrite strip_prefix_app|rewrite Hp]; rewrite Hq; done.
Qed.

(** Past its number, removal changes nothing. *)
Lemma remove_past c i seen : i ≤ seen → ∃ met, remove_go i seen c = (met, c).
Proof.
  revert seen. induction c as [|l c IH]; intros seen Hi; [by exists false|]. cbn [remove_go]. destruct (parse_tag l).
  - rewrite decide_False by lia. destruct (IH (S seen)) as [met ->]; [lia|]. by exists met.
  - destruct (IH seen) as [met ->]; [lia|]. by exists met.
Qed.

Lemma pause_go_cons i p seen l x xs :
  pause_go i p seen (l :: x :: xs) =
  match parse_tag l with
  | Some _ => if decide (S seen = i) then Some (l :: toggle p x :: xs) else cons l <$> pause_go i p (S seen) (x :: xs)
  | None => cons l <$> pause_go i p seen (x :: xs)
  end.
Proof. done. Qed.

(** Where the listed entry with a number is, and what finding its tag by counting does. *)
Lemma tidy_at c : tidy c → ∀ n e, orkia_entries c !! n = Some e →
  ∃ a t tag cmd b, c = a ++ t :: cmd :: b ∧ parse_tag t = Some tag ∧ entry_of tag cmd = Some e ∧
    parse_tag (payload cmd) = None ∧ strip_prefix PAUSED (payload cmd) = None ∧
    length (orkia_entries a) = n ∧ (∀ l, last a = Some l → parse_tag l = None) ∧
    (∀ seen, remove_go (seen + S n) seen c = (true, a ++ b)) ∧
    (∀ p seen, pause_go (seen + S n) p seen c = Some (a ++ t :: toggle p cmd :: b)).
Proof.
  induction 1 as [|l c Hl Hc IH|t tag cmd e0 c Ht He Hpt Hpp Hc IH]; intros n e Hn; [done| |].
  - assert (orkia_entries (l :: c) = orkia_entries c) as E by (cbn [orkia_entries]; by rewrite Hl; destruct c).
    rewrite E in Hn. destruct (IH n e Hn) as (a & t & tag & cmd & b & -> & Ht & He & H1 & H2 & Hlen & Hlast & Hrem & Hpau).
    exists (l :: a), t, tag, cmd, b. split_and!; try done.
    + cbn [orkia_entries]. rewrite Hl. by destruct a.
    + intros k. rewrite last_cons. destruct (last a) eqn:El; [intros [= <-]; by apply Hlast|by intros [= <-]].
    + intros seen. cbn [remove_go app]. by rewrite Hl, Hrem.
    + intros p seen. cbn [app]. destruct (a ++ t :: cmd :: b) as [|x xs] eqn:Ex; [by destruct a|].
      by rewrite pause_go_cons, Hl, (Hpau p seen).
  - assert (orkia_entries (t :: cmd :: c) = e0 :: orkia_entries c) as E by (cbn [orkia_entries]; by rewrite Ht, He).
    rewrite E in Hn. destruct n as [|n].
    + injection Hn as <-. exists [], t, tag, cmd, c. split_and!; try done.
      * intros seen. replace (seen + 1) with (S seen) by lia. destruct (remove_past c (S seen) (S seen)) as [met Hm]; [lia|].
        cbn [remove_go app]. by rewrite Ht, decide_True, Hm.
      * intros p seen. replace (seen + 1) with (S seen) by lia. cbn [pause_go app]. by rewrite Ht, decide_True.
    + destruct (IH n e Hn) as (a & t' & tag' & cmd' & b & -> & Ht' & He' & H1 & H2 & Hlen & Hlast & Hrem & Hpau).
      apply payload_no_tag in Hpt as Hct.
      exists (t :: cmd :: a), t', tag', cmd', b. split_and!; try done.
      * cbn [orkia_entries]. rewrite Ht, He. cbn. by rewrite Hlen.
      * intros k. rewrite !last_cons. destruct (last a) eqn:El; [intros [= <-]; by apply Hlast|by intros [= <-]].
      * intros seen. replace (seen + S (S n)) with (S seen + S n) by lia.
        cbn [remove_go app]. by rewrite Ht, decide_False, Hct, Hrem by lia.
      * intros p seen. replace (seen + S (S n)) with (S seen + S n) by lia. cbn [app].
        rewrite pause_go_cons, Ht, decide_False by lia. destruct (a ++ t' :: cmd' :: b) as [|x xs] eqn:Ex; [by destruct a|].
        by rewrite pause_go_cons, Hct, (Hpau p (S seen)).
Qed.

(** In a crontab whose tags all head a command, removing and pausing act on the entry
    listed at the given number and on nothing else. Removal takes out its two lines;
    pausing or resuming changes its command line only, and the list then shows the same
    entries with that one gone, or marked; and resuming undoes pausing. *)
Theorem edit_exact c n e p :
  tidy c → orkia_entries c !! n = Some e →
  ∃ a t cmd b, c = a ++ [t; cmd] ++ b ∧
    remove_orkia_at (S n) c = (Some e, a ++ b) ∧ orkia_entries (a ++ b) = delete n (orkia_entries c) ∧
    set_paused_at (S n) p c = (Some (set_paused p e), a ++ [t; toggle p cmd] ++ b) ∧
    orkia_entries (a ++ [t; toggle p cmd] ++ b) = <[n := set_paused p e]> (orkia_entries c) ∧
    toggle false (toggle p cmd) = toggle false cmd.
Proof.
  intros Hc Hn. destruct (tidy_at c Hc n e Hn) as (a & t & tag & cmd & b & -> & Ht & He & H1 & H2 & Hlen & Hlast & Hrem & Hpau).
  assert (∀ cmd' e', entry_of tag cmd' = Some e' →
    orkia_entries (a ++ t :: cmd' :: b) = orkia_entries a ++ e' :: orkia_entries b) as Hent.
  { intros cmd' e' He'. rewrite entries_app by done. cbn [orkia_entries]. by rewrite Ht, He'. }
  rewrite (Hent _ _ He) in Hn |- *. pose proof (entry_toggled tag p cmd e H2 He) as Hpe.
  exists a, t, cmd, b. split_and!; [done|..].
  - unfold remove_orkia_at. replace (S n - 1) with n by lia. rewrite (Hent _ _ He), Hn.
    pose proof (Hrem 0) as Hr. cbn [Nat.add] in Hr. by rewrite Hr.
  - rewrite entries_app by done. rewrite <- Hlen. by rewrite delete_middle.
  - unfold set_paused_at. replace (S n - 1) with n by lia. pose proof (Hpau p 0) as Hp. cbn [Nat.add] in Hp. rewrite Hp.
    f_equal. rewrite (Hent _ _ Hpe), <- Hlen. apply list_lookup_middle. done.
  - change ([t; toggle p cmd] ++ b) with (t :: toggle p cmd :: b). rewrite (Hent _ _ Hpe), <- Hlen.
    by rewrite insert_app_r_alt, Nat.sub_diag by lia.
  - rewrite !(toggle_payload _ cmd) by done. destruct p.
    + unfold toggle. by rewrite strip_prefix_app.
    + unfold toggle. by rewrite H2.
Qed.

Definition sample_crontab : Crontab :=
  [ #"# my own"; #"*/15 * * * * /bin/check";
    #"# orkia:faye:post"; #"0 9 * * MON /opt/orkia -c " ++ in_quotes #"@faye post";
    #"# orkia:sage:check"; #"# PAUSED: 0 8 * * 1-5 /opt/orkia -c " ++ in_quotes #"@sage check"].

Lemma sample_tidy : tidy sample_crontab.
Proof.
  unfold sample_crontab.
  apply tidy_foreign; [by vm_compute|]. apply tidy_foreign; [by vm_compute|].
  eapply tidy_entry; [by vm_compute..|]. eapply tidy_entry; [by vm_compute..|]. constructor.
Qed.

Lemma edit_exact_witness :
  ∃ e a t cmd b, sample_crontab = a ++ [t; cmd] ++ b ∧ remove_orkia_at 2 sample_crontab = (Some e, a ++ b).
Proof.
  destruct (orkia_entries sample_crontab !! 1) as [e|] eqn:E; [|vm_compute in E; discriminate E].
  destruct (edit_exact sample_crontab 1 e false sample_tidy E) as (a & t & cmd & b & Hc & Hr & _).
  exists e, a, t, cmd, b. split; [exact Hc|exact Hr].
Defined.

(** A tag that has lost its command shifts the numbers: the list does not count it, and
    removal does. Removing the first listed entry then takes out the stray tag and the
    line after it, which is not ours, and reports the entry, which is still there. *)
Theorem remove_takes_foreign t0 tag0 l t1 tag1 cmd e rest :
  parse_tag t0 = Some tag0 → entry_of tag0 l = None → parse_tag l = None →
  parse_tag t1 = Some tag1 → entry_of tag1 cmd = Some e → parse_tag cmd = None → tidy rest →
  orkia_entries (t0 :: l :: t1 :: cmd :: rest) !! 0 = Some e ∧
  remove_orkia_at 1 (t0 :: l :: t1 :: cmd :: rest) = (Some e, t1 :: cmd :: rest).
Proof.
  intros H0 He0 Hl H1 He Hc Hr.
  assert (orkia_entries (t0 :: l :: t1 :: cmd :: rest) = e :: orkia_entries rest) as E.
  { cbn [orkia_entries]. by rewrite H0, He0, Hl, H1, He. }
  split; [by rewrite E|]. unfold remove_orkia_at. change (1 - 1) with 0. rewrite E. cbn [lookup list_lookup].
  cbn [remove_go]. rewrite H0, decide_True by done.
  destruct (remove_past (t1 :: cmd :: rest) 1 1) as [met Hm]; [done|]. cbn [remove_go] in Hm. by rewrite Hm.
Qed.

Lemma remove_takes_foreign_witness :
  ∃ e, remove_orkia_at 1 ([ #"# orkia:old:gone"; #"@daily /bin/backup"] ++ drop 2 sample_crontab)
       = (Some e, drop 2 sample_crontab).
Proof.
  destruct (entry_of (mkTag #"faye" #"post" None) (#"0 9 * * MON /opt/orkia -c " ++ in_quotes #"@faye post")) as [e|] eqn:E;
    [|vm_compute in E; discriminate E].
  exists e. refine (proj2 (remove_takes_foreign #"# orkia:old:gone" (mkTag #"old" #"gone" None) #"@daily /bin/backup"
    #"# orkia:faye:post" (mkTag #"faye" #"post" None) _ e (drop 4 sample_crontab) _ _ _ _ E _ _)); try (vm_compute; reflexivity).
  eapply tidy_entry; [vm_compute; reflexivity..|]. constructor.
Defined.

(** ** The migration *)

(** The migration looks for the tag of an entry by part of a text. When an earlier tag
    contains the entry's name, as that of a longer name does, it is that other entry whose
    command is overwritten, with the command of this one; and this one is left as it was,
    so that it is not migrated at all. *)
Theorem migrate_overwrites_other t1 tag1 l1 e1 t2 tag2 l2 e2 before arg rest :
  parse_tag t1 = Some tag1 → entry_of tag1 l1 = Some e1 → has_once_token (e_command e1) = true →
  parse_tag t2 = Some tag2 → entry_of tag2 l2 = Some e2 → has_once_token (e_command e2) = false →
  e_agent e2 ≠ #"shell" → starts_with #"# orkia:" t1 = true → contains (chr_colon :: e_slug e2) t1 = true →
  dash_c_arg_span l1 = Some (before, arg, rest) →
  add_once_to_agent_entries [t1; l1; t2; l2]
  = (1, [t1; before ++ escape_dash_c_arg (e_command e2 ++ #" --once") ++ rest; t2; l2]).
Proof.
  intros H1 He1 Ho1 H2 He2 Ho2 Hs Hp Hcon Hspan. unfold add_once_to_agent_entries.
  assert (orkia_entries [t1; l1; t2; l2] = [e1; e2]) as -> by (cbn [orkia_entries]; by rewrite H1, He1, H2, He2).
  cbn [foldl]. unfold migrate_entry at 2. rewrite Ho1, orb_true_r. unfold migrate_entry.
  rewrite bool_decide_eq_false_2, Ho2 by done. cbn [orb rewrite_entry_command]. rewrite Hp, Hcon. cbn [andb].
  unfold rewrite_dash_c_arg. by rewrite Hspan.
Qed.

Definition clashing : Crontab :=
  [ #"# orkia:faye:post-weekly"; #"0 9 * * MON /opt/orkia -c " ++ in_quotes #"@faye post weekly --once";
    #"# orkia:faye:post"; #"0 9 * * * /opt/orkia -c " ++ in_quotes #"@faye post"].

Lemma migrate_overwrites_other_witness :
  map e_command (orkia_entries clashing) = [ #"@faye post weekly --once"; #"@faye post"] ∧
  map e_command (orkia_entries (add_once_to_agent_entries clashing).2) = [ #"@faye post --once"; #"@faye post"].
Proof.
  split; [vm_compute; reflexivity|].
  destruct (entry_of (mkTag #"faye" #"post-weekly" None) (clashing !!! 1)) as [e1|] eqn:E1; [|vm_compute in E1; discriminate E1].
  destruct (entry_of (mkTag #"faye" #"post" None) (clashing !!! 3)) as [e2|] eqn:E2; [|vm_compute in E2; discriminate E2].
  destruct (dash_c_arg_span (clashing !!! 1)) as [[[b a] r]|] eqn:E3; [|vm_compute in E3; discriminate E3].
  pose proof (migrate_overwrites_other (clashing !!! 0) (mkTag #"faye" #"post-weekly" None) (clashing !!! 1) e1
    (clashing !!! 2) (mkTag #"faye" #"post" None) (clashing !!! 3) e2 b a r) as T.
  change [clashing !!! 0; clashing !!! 1; clashing !!! 2; clashing !!! 3] with clashing in T.
  vm_compute in E1, E2, E3. injection E1 as <-. injection E2 as <-. injection E3 as <- <- <-.
  rewrite T; vm_compute; try reflexivity. discriminate.
Defined.
