(* ===== verification/Jobs.v ===== *)
(** * Jobs ([orkia-shell-types/src/job.rs], [orkia-shell/src/job/mod.rs], [job/entry.rs],
      [job/forge_entry.rs], [job/native_entry.rs])

    The identifiers a job is shown and addressed by, and the controller that owns the
    jobs of a shell: programs in a terminal, viewer processes and sessions that run
    in the shell itself, with one counter of identifiers and one queue of events. The
    processes are outside: what a child answers to [try_wait] and to a signal is the
    argument [w] of the operations that ask, and what the controller does to them is kept
    in [acts]. *)
From Stdlib Require Import NArith ZArith Lia Sorting.Sorted.
From stdpp Require Import base gmap strings option numbers list list_basics.
From S2P Require Import Prelude Text Words Effects CageProfile.

(** ** Identifiers *)

Definition JobId := N.

Inductive JobOwner := Local | Daemon.

Definition render_job_id (owner : JobOwner) (id : N) (stage : option N) : str :=
  let base := match stage with
              | Some s => #"[" ++ fmt_dec id ++ #":" ++ fmt_dec s ++ #"]"
              | None => #"[" ++ fmt_dec id ++ #"]"
              end in
  match owner with Local => base | Daemon => base ++ #"*" end.

Record ParsedJobTarget := mkTarget { core : str; stage : option N; prefer_daemon : bool }.

Definition split_stage (s : str) : str * option N :=
  match split_once chr_colon s with
  | Some (job, st) => match parse_u32 st with Some n => (job, Some n) | None => (s, None) end
  | None => (s, None)
  end.

Definition parse_job_target (input : str) : ParsedJobTarget :=
  let t := trim input in
  match (strip_suffix #"*" t ≫= strip_prefix #"[") ≫= strip_suffix #"]" with
  | Some inner => let '(c, st) := split_stage inner in mkTarget c st true
  | None =>
      match strip_prefix #"[" t ≫= strip_suffix #"]" with
      | Some inner => let '(c, st) := split_stage inner in mkTarget c st false
      | None => let '(c, st) := split_stage t in mkTarget c st false
      end
  end.

(** ** Kinds, states and events *)

Inductive JobKind :=
| Shell (cmd : str)
| Agent (agent_id agent_name : str)
| ForgeApp (app_name : str).

Inductive JobState := Foreground | Running | Stopped | Done (exit_code : Z) | Failed (reason : str).

#[export] Instance JobState_eq : EqDecision JobState.
Proof. solve_decision. Defined.

Inductive JobEvent :=
| Spawned (id : JobId) (kind : JobKind) (pid : option N)
| Attached (id : JobId)
| Detached (id : JobId)
| StoppedEv (id : JobId) (label : str)
| Continued (id : JobId) (label : str)
| Completed (id : JobId) (exit_code : Z) (label : str).

Definition event_job_id (e : JobEvent) : JobId :=
  match e with
  | Spawned id _ _ | Attached id | Detached id | StoppedEv id _ | Continued id _ | Completed id _ _ => id
  end.

Inductive SinkTarget := SinkCommand (sink_cmd cwd : str) (env : list (str * str)) | SinkTerminal.

Record SinkRecipe := mkSink { sink_target : SinkTarget; once : bool }.

Record JobInfo := mkInfo {
  ji_id : JobId; ji_kind : JobKind; ji_state : JobState; ji_label : str; ji_pid : option N; ji_sink : option str }.

(** The hooks a spawn attaches to a job ([job/lifecycle.rs]). *)
Inductive JobLifecycleHook :=
| SealChainLifecycle (project : option str) (agent_name : str)
| Osc133Lifecycle
| StateMachineLifecycle (pending_body : option str)
| InjectionExecutorLifecycle (provider : ProviderId).

Record JobEntry := mkEntry {
  je_id : JobId; je_kind : JobKind; je_state : JobState; je_engine : N; je_label : str;
  je_hooks : list JobLifecycleHook; je_sink : option SinkRecipe }.

Record ForgeJobEntry := mkForge {
  fj_id : JobId; fj_app_name : str; fj_child : N; fj_state : JobState; fj_label : str }.

Record NativeJobEntry := mkNative {
  nj_id : JobId; nj_agent_name : str; nj_agent_id : str; nj_session : N; nj_state : JobState; nj_label : str }.

Inductive ShellError := Io (msg : str) | JobIdExhausted | Other (msg : str).

Definition shell_error_text (e : ShellError) : str :=
  match e with
  | Io msg => #"io error: " ++ msg
  | JobIdExhausted => #"job id space exhausted; cannot allocate a new job without recycling ids"
  | Other msg => msg
  end.

(** ** The processes around *)

Inductive TryRecv := TOk (code : Z) | TEmpty | TClosed.

Record EngineConfig := mkEngine {
  ec_cmd : str; ec_args : list str; ec_env : list (str * str); ec_cwd : option str;
  ec_osc133 : bool; ec_persistent : bool }.

Record World := mkWorld {
  engine_start : EngineConfig → result str N;
  engine_wait : N → result str (option Z);
  engine_signal : N → Z → result str unit;
  engine_write : N → list N → result str unit;
  child_pid : N → option N;
  child_wait : N → result str (option (option Z));
  child_kill : N → Z → result str unit;
  viewer_pid : N → N;
  session_exit : N → TryRecv;
  rlimit_nofile : option N }.

Inductive act :=
| AStarted (engine : N) (cfg : EngineConfig)
| ASignal (engine : N) (sig : Z)
| AChildSignal (child : N) (sig : Z)
| AKillSession (session : N)
| AWrite (engine : N) (bytes : list N)
| ALog (engine : N) (path : list str).

Record JobController := mkCtl {
  jobs : list JobEntry;
  forge_jobs : list ForgeJobEntry;
  native_jobs : list NativeJobEntry;
  next_id : N;
  event_tx : list JobEvent;
  acts : list act }.

Definition Ctl := M JobController ShellError.

Definition SIGTERM : Z := 15.
Definition SIGCONT : Z := 18.
Definition SIGTSTP : Z := 20.

Definition set_jobs (l : list JobEntry) (c : JobController) : JobController :=
  mkCtl l (forge_jobs c) (native_jobs c) (next_id c) (event_tx c) (acts c).
Definition set_forge (l : list ForgeJobEntry) (c : JobController) : JobController :=
  mkCtl (jobs c) l (native_jobs c) (next_id c) (event_tx c) (acts c).
Definition set_native (l : list NativeJobEntry) (c : JobController) : JobController :=
  mkCtl (jobs c) (forge_jobs c) l (next_id c) (event_tx c) (acts c).
Definition set_next (n : N) (c : JobController) : JobController :=
  mkCtl (jobs c) (forge_jobs c) (native_jobs c) n (event_tx c) (acts c).
Definition send (e : JobEvent) (c : JobController) : JobController :=
  mkCtl (jobs c) (forge_jobs c) (native_jobs c) (next_id c) (event_tx c ++ [e]) (acts c).
Definition did (a : act) (c : JobController) : JobController :=
  mkCtl (jobs c) (forge_jobs c) (native_jobs c) (next_id c) (event_tx c) (acts c ++ [a]).

Definition je_set_state (s : JobState) (j : JobEntry) : JobEntry :=
  mkEntry (je_id j) (je_kind j) s (je_engine j) (je_label j) (je_hooks j) (je_sink j).
Definition fj_set_state (s : JobState) (j : ForgeJobEntry) : ForgeJobEntry :=
  mkForge (fj_id j) (fj_app_name j) (fj_child j) s (fj_label j).
Definition nj_set_state (s : JobState) (j : NativeJobEntry) : NativeJobEntry :=
  mkNative (nj_id j) (nj_agent_name j) (nj_agent_id j) (nj_session j) s (nj_label j).

(** [iter_mut().find(p)] followed by an update of what is found. *)
Fixpoint update_first {A} (p : A → bool) (f : A → A) (l : list A) : list A :=
  match l with
  | [] => []
  | x :: l' => if p x then f x :: l' else x :: update_first p f l'
  end.

(** [position(p)] followed by [remove]. *)
Fixpoint drop_first {A} (p : A → bool) (l : list A) : list A :=
  match l with
  | [] => []
  | x :: l' => if p x then l' else x :: drop_first p l'
  end.

Definition find_job {A} (idof : A → JobId) (id : JobId) (l : list A) : option A :=
  head (filter (λ j, idof j = id) l).

Definition is_job {A} (idof : A → JobId) (id : JobId) (j : A) : bool := (idof j =? id)%N.

Definition terminal (s : JobState) : bool := match s with Done _ | Failed _ => true | _ => false end.
Definition live (s : JobState) : bool := negb (terminal s).

(** ** The controller *)

Definition with_next_id (n : N) : JobController := mkCtl [] [] [] n [] [].
Definition controller_new : JobController := with_next_id 1.

Definition alloc_id : Ctl JobId := λ c,
  if (next_id c <? u32_max)%N then (Ok (next_id c), set_next (next_id c + 1)%N c) else (Err JobIdExhausted, c).

Definition push_entry (j : JobEntry) (c : JobController) : JobController := set_jobs (jobs c ++ [j]) c.

Definition last_entry (c : JobController) : option JobEntry := last (jobs c).

Definition get (id : JobId) (c : JobController) : option JobEntry := find_job je_id id (jobs c).

Section controller.
Context (w : World).

Definition register_forge_app (app_name : str) (child : N) : Ctl JobId :=
  id ← alloc_id;
  modify (λ c, send (Spawned id (ForgeApp app_name) (Some (viewer_pid w child)))
                 (set_forge (forge_jobs c ++ [mkForge id app_name child Running (#"app:" ++ app_name)]) c));;
  mret id.

Definition register_native (agent_name agent_id : str) (session : N) : Ctl JobId :=
  id ← alloc_id;
  modify (λ c, send (Spawned id (Agent agent_id agent_name) None)
                 (set_native (native_jobs c ++ [mkNative id agent_name agent_id session Running (agent_name ++ #" (native)")]) c));;
  mret id.

Definition find_live_native_by_name (name : str) (c : JobController) : option JobId :=
  nj_id <$> head (filter (λ j, nj_agent_name j = name ∧ nj_state j = Running) (reverse (native_jobs c))).

Definition native_inbound (id : JobId) (c : JobController) : option N :=
  nj_session <$> find_job nj_id id (native_jobs c).

Definition native_label (id : JobId) (c : JobController) : option str :=
  nj_label <$> find_job nj_id id (native_jobs c).

Definition agent_uuid (id : JobId) (c : JobController) : option str :=
  match get id c with
  | Some e => match je_kind e with Agent agent_id _ => Some agent_id | _ => None end
  | None => nj_agent_id <$> find_job nj_id id (native_jobs c)
  end.

Definition is_shell (k : JobKind) : bool := match k with Shell _ => true | _ => false end.

Definition live_shell_jobs (c : JobController) : nat :=
  length (filter (λ j, is_shell (je_kind j) && live (je_state j) = true) (jobs c)).

Definition bg_job_cap : option N :=
  cur ← rlimit_nofile w;
  let cap := (cur / 4)%N in
  if (cap =? 0)%N then None else Some cap.

Definition cap_error (live cap : N) : ShellError :=
  Other (#"too many background jobs (" ++ fmt_dec live ++ #" " ++ [8805%N] ++ #" " ++ fmt_dec cap ++
         #"); wait/kill some before spawning more").

Definition check_cap : Ctl unit := λ c,
  let n := N.of_nat (live_shell_jobs c) in
  match bg_job_cap with
  | Some cap => if (cap <=? n)%N then (Err (cap_error n cap), c) else (Ok (), c)
  | None => (Ok (), c)
  end.

Definition log_path (data_dir : list str) (id : JobId) : list str :=
  data_dir ++ [ #"jobs"; fmt_dec id; #"output.log"].

Definition spawn_shell (argv : list str) (env : list (str * str)) (cwd : option str) (label : str)
    (data_dir : list str) : Ctl JobId :=
  match argv with
  | [] => throw (Other #"spawn_shell: empty argv")
  | cmd :: args =>
      check_cap;;
      id ← alloc_id;
      let cfg := mkEngine cmd args (env ++ [(#"TERM", #"xterm-256color")]) cwd false false in
      match engine_start w cfg with
      | Err e => throw (Other (#"spawn_shell: " ++ e))
      | Ok engine =>
          modify (did (AStarted engine cfg));;
          modify (did (ALog engine (log_path data_dir id)));;
          modify (send (Spawned id (Shell cmd) (child_pid w engine)));;
          modify (push_entry (mkEntry id (Shell cmd) Running engine label [] None));;
          mret id
      end
  end.

Definition find_live_agent_by_name (name : str) (c : JobController) : option JobId :=
  head (omap (λ j, match je_kind j with
                   | Agent _ n => if bool_decide (n = name) then Some (je_id j) else None
                   | _ => None end)
             (filter (λ j, live (je_state j) = true) (reverse (jobs c)))).

(** *** Exits *)

Definition je_exit_code (j : JobEntry) : option Z :=
  match engine_wait w (je_engine j) with Ok o => o | Err _ => None end.

Definition fj_exit_code (j : ForgeJobEntry) : option Z :=
  match child_wait w (fj_child j) with
  | Ok (Some code) => Some (default 0%Z code)
  | Ok None => None
  | Err _ => Some 0%Z
  end.

Definition nj_exit_code (j : NativeJobEntry) : option Z :=
  match session_exit w (nj_session j) with TOk code => Some code | TEmpty => None | TClosed => Some 1%Z end.

(** The loops of [reap] over one table: the entries after, and the events sent. A viewer
    and a session are looked at when they are running or stopped, which is every live
    state they can be in. *)
Definition reap_entry (j : JobEntry) : JobEntry * list JobEvent :=
  if live (je_state j) then
    match je_exit_code j with
    | Some code => (je_set_state (Done code) j, [Completed (je_id j) code (je_label j)])
    | None => (j, [])
    end
  else (j, []).

Definition runs_or_stopped (s : JobState) : bool := match s with Running | Stopped => true | _ => false end.

Definition reap_forge (j : ForgeJobEntry) : ForgeJobEntry * list JobEvent :=
  if runs_or_stopped (fj_state j) then
    match fj_exit_code j with
    | Some code => (fj_set_state (Done code) j, [Completed (fj_id j) code (fj_label j)])
    | None => (j, [])
    end
  else (j, []).

Definition reap_native (j : NativeJobEntry) : NativeJobEntry * list JobEvent :=
  if runs_or_stopped (nj_state j) then
    match nj_exit_code j with
    | Some code => (nj_set_state (Done code) j, [Completed (nj_id j) code (nj_label j)])
    | None => (j, [])
    end
  else (j, []).

Definition reap (c : JobController) : JobController :=
  let rj := map reap_entry (jobs c) in
  let rf := map reap_forge (forge_jobs c) in
  let rn := map reap_native (native_jobs c) in
  mkCtl (filter (λ j, live (je_state j) = true) rj.*1)
        (filter (λ j, live (fj_state j) = true) rf.*1)
        (filter (λ j, live (nj_state j) = true) rn.*1)
        (next_id c)
        (event_tx c ++ concat rj.*2 ++ concat rf.*2 ++ concat rn.*2)
        (acts c).

Definition sink_text (r : SinkRecipe) : str :=
  match sink_target r with SinkCommand cmd _ _ => cmd | SinkTerminal => #"<terminal>" end.

Definition entry_info (j : JobEntry) : JobInfo :=
  mkInfo (je_id j) (je_kind j) (je_state j) (je_label j) (child_pid w (je_engine j)) (sink_text <$> je_sink j).
Definition forge_info (j : ForgeJobEntry) : JobInfo :=
  mkInfo (fj_id j) (ForgeApp (fj_app_name j)) (fj_state j) (fj_label j) (Some (viewer_pid w (fj_child j))) None.
Definition native_info (j : NativeJobEntry) : JobInfo :=
  mkInfo (nj_id j) (Agent (nj_agent_id j) (nj_agent_name j)) (nj_state j) (nj_label j) None None.

(** [sort_by_key], stable. *)
Fixpoint insert_info (x : JobInfo) (l : list JobInfo) : list JobInfo :=
  match l with
  | [] => [x]
  | y :: l' => if (ji_id x <? ji_id y)%N then x :: l else y :: insert_info x l'
  end.
Definition sort_infos (l : list JobInfo) : list JobInfo := foldl (λ acc x, insert_info x acc) [] l.

Definition list_jobs (c : JobController) : list JobInfo * JobController :=
  let c' := reap c in
  (sort_infos (map entry_info (jobs c') ++ map forge_info (forge_jobs c') ++ map native_info (native_jobs c')), c').

(** *** Signals *)

Definition not_found (id : JobId) : ShellError := Other (#"job " ++ fmt_dec id ++ #" not found").

Definition signal_engine (engine : N) (sig : Z) : Ctl unit :=
  match engine_signal w engine sig with
  | Ok _ => modify (did (ASignal engine sig))
  | Err e => throw (Other e)
  end.

(** The signal numbers of the code are positive. *)
Definition signal_child (child : N) (sig : Z) : Ctl unit :=
  match child_kill w child sig with
  | Ok _ => modify (did (AChildSignal child sig))
  | Err e => throw (Other (#"kill(" ++ fmt_dec (viewer_pid w child) ++ #", " ++ fmt_dec (Z.to_N sig) ++ #"): " ++ e))
  end.

Definition set_entry_state (id : JobId) (s : JobState) (c : JobController) : JobController :=
  set_jobs (update_first (is_job je_id id) (je_set_state s) (jobs c)) c.
Definition set_forge_state (id : JobId) (s : JobState) (c : JobController) : JobController :=
  set_forge (update_first (is_job fj_id id) (fj_set_state s) (forge_jobs c)) c.
Definition set_native_state (id : JobId) (s : JobState) (c : JobController) : JobController :=
  set_native (update_first (is_job nj_id id) (nj_set_state s) (native_jobs c)) c.

Definition stop (id : JobId) : Ctl unit := λ c,
  match find_job nj_id id (native_jobs c) with
  | Some n => (Ok (), send (StoppedEv id (nj_label n)) (set_native_state id Stopped (did (AKillSession (nj_session n)) c)))
  | None =>
      match find_job fj_id id (forge_jobs c) with
      | Some f => (signal_child (fj_child f) SIGTERM;;
                   modify (λ c, send (StoppedEv id (fj_label f)) (set_forge_state id Stopped c))) c
      | None =>
          match get id c with
          | Some e => (signal_engine (je_engine e) SIGTERM;;
                       modify (λ c, send (StoppedEv id (je_label e)) (set_entry_state id Stopped c))) c
          | None => (Err (not_found id), c)
          end
      end
  end.

Definition complete (id : JobId) (exit_code : Z) (c : JobController) : JobController :=
  match get id c with
  | Some e => if terminal (je_state e) then c
              else send (Completed id exit_code (je_label e)) (set_entry_state id (Done exit_code) c)
  | None => c
  end.

Definition bg (id : JobId) : Ctl unit := λ c,
  match find_job fj_id id (forge_jobs c) with
  | Some f => if bool_decide (fj_state f = Stopped) then
                (signal_child (fj_child f) SIGCONT;;
                 modify (λ c, send (Continued id (fj_label f)) (set_forge_state id Running c))) c
              else (Ok (), c)
  | None =>
      match get id c with
      | Some e => if bool_decide (je_state e = Stopped) then
                    (signal_engine (je_engine e) SIGCONT;;
                     modify (λ c, send (Continued id (je_label e)) (set_entry_state id Running c))) c
                  else (Ok (), c)
      | None => (Err (not_found id), c)
      end
  end.

Definition disown (id : JobId) : Ctl unit := λ c,
  match find_job fj_id id (forge_jobs c) with
  | Some _ => (Ok (), send (Detached id) (set_forge (drop_first (is_job fj_id id) (forge_jobs c)) c))
  | None =>
      match get id c with
      | Some _ => (Ok (), send (Detached id) (set_jobs (drop_first (is_job je_id id) (jobs c)) c))
      | None => (Err (not_found id), c)
      end
  end.

Definition write_to_pty (id : JobId) (data : list N) : Ctl unit := λ c,
  match get id c with
  | Some e => match engine_write w (je_engine e) data with
              | Ok _ => (Ok (), did (AWrite (je_engine e) data) c)
              | Err m => (Err (Io m), c)
              end
  | None => (Err (not_found id), c)
  end.

(** The part of [spawn::spawn] that starts the program and records the job. *)
Definition start_job (id : JobId) (cfg : EngineConfig) (kind : JobKind) (label : str)
    (hooks : list JobLifecycleHook) : Ctl (option N) :=
  match engine_start w cfg with
  | Err e => throw (Other e)
  | Ok engine =>
      modify (did (AStarted engine cfg));;
      modify (send (Spawned id kind (child_pid w engine)));;
      modify (push_entry (mkEntry id kind Running engine label hooks None));;
      mret (child_pid w engine)
  end.

(** The one-shot teardown ([repl/journal.rs]): a signal, whatever its answer, and the
    completion. *)
Definition finish_oneshot (id : JobId) (c : JobController) : JobController :=
  complete id 0 (stop id c).2.

(** *** The foreground ([repl/job_control.rs]) *)

Inductive AttachedOutcome := AttDetached | AttExited | AttUnsupported.

(** After the renderer's widget returns. *)
Definition after_attached (id : JobId) (o : AttachedOutcome) (c : JobController) : JobController :=
  match o with
  | AttDetached => send (Detached id) (set_entry_state id Running c)
  | AttExited | AttUnsupported => c
  end.

(** After the terminal is reclaimed: leaving a shell job suspends it, leaving an agent
    lets it run. *)
Definition after_yielded (id : JobId) (quit : bool) (c : JobController) : JobController :=
  if quit then
    if bool_decide (is_shell <$> (je_kind <$> get id c) = Some true) then
      let label := default [] (je_label <$> get id c) in
      let c1 := match get id c with Some e => (signal_engine (je_engine e) SIGTSTP c).2 | None => c end in
      send (StoppedEv id label) (set_entry_state id Stopped c1)
    else send (Detached id) (set_entry_state id Running c)
  else c.

(** The writer of the injection executor is dropped; the other hooks do nothing. *)
Definition on_complete (h : JobLifecycleHook) : bool :=
  match h with InjectionExecutorLifecycle _ => true | _ => false end.

(** The hooks that run when a completion is handled. *)
Definition dispatch_on_complete (id : JobId) (c : JobController) : list JobLifecycleHook :=
  match get id c with Some e => je_hooks e | None => [] end.

End controller.

(** ** Runs of the controller *)

(** One call of the shell into the controller. The commands that name a job list the
    jobs first. *)
Inductive call :=
| CSpawn (cfg : EngineConfig) (kind : JobKind) (label : str) (hooks : list JobLifecycleHook)
| CShell (argv : list str) (env : list (str * str)) (cwd : option str) (label : str) (data_dir : list str)
| CForge (app_name : str) (child : N)
| CNative (agent_name agent_id : str) (session : N)
| CList
| CStop (id : JobId)
| CBg (id : JobId)
| CDisown (id : JobId)
| CForeground (id : JobId) (o : AttachedOutcome)
| CYielded (id : JobId) (quit : bool)
| CWrite (id : JobId) (data : list N)
| CFinish (id : JobId).

Definition perform (w : World) (l : call) (c : JobController) : JobController :=
  match l with
  | CSpawn cfg kind label hooks => ((id ← alloc_id; start_job w id cfg kind label hooks) c).2
  | CShell argv env cwd label dir => (spawn_shell w argv env cwd label dir c).2
  | CForge app child => (register_forge_app w app child c).2
  | CNative name aid session => (register_native name aid session c).2
  | CList => reap w c
  | CStop id => (stop w id (reap w c)).2
  | CBg id => (bg w id (reap w c)).2
  | CDisown id => (disown id (reap w c)).2
  | CForeground id o => after_attached id o (set_entry_state id Foreground (reap w c))
  | CYielded id quit => after_yielded w id quit (set_entry_state id Foreground (reap w c))
  | CWrite id data => (write_to_pty w id data c).2
  | CFinish id => finish_oneshot w id c
  end.

Fixpoint perform_all (ls : list (World * call)) (c : JobController) : JobController :=
  match ls with
  | [] => c
  | (w, l) :: ls' => perform_all ls' (perform w l c)
  end.

(** ** Rendered identifiers *)

Lemma split_stage_plain id : split_stage (fmt_dec id) = (fmt_dec id, None).
Proof.
  unfold split_stage. rewrite split_once_None; [done|].
  apply digits_without; [right; done|apply fmt_dec_digits].
Qed.

Lemma parse_u32_fmt n : (n ≤ u32_max)%N → parse_u32 (fmt_dec n) = Some n.
Proof.
  intros Hn. pose proof (parse_u32_fmt_dec_pad 0 n Hn) as H. unfold fmt_dec_pad in H.
  by replace (0 - length (fmt_dec n))%nat with 0%nat in H by lia.
Qed.

Lemma split_stage_staged id s : (s ≤ u32_max)%N →
  split_stage (fmt_dec id ++ #":" ++ fmt_dec s) = (fmt_dec id, Some s).
Proof.
  intros Hs. unfold split_stage. change (fmt_dec id ++ #":" ++ fmt_dec s) with (fmt_dec id ++ chr_colon :: fmt_dec s).
  rewrite split_once_app by (apply digits_without; [right; done|apply fmt_dec_digits]). by rewrite parse_u32_fmt.
Qed.

Definition stage_ok (st : option N) : Prop := match st with Some s => (s ≤ u32_max)%N | None => True end.

(** What is between the brackets. *)
Definition inside (id : N) (st : option N) : str :=
  match st with Some s => fmt_dec id ++ #":" ++ fmt_dec s | None => fmt_dec id end.

Lemma split_inside id st : stage_ok st → split_stage (inside id st) = (fmt_dec id, st).
Proof. destruct st; [apply split_stage_staged|intros _; apply split_stage_plain]. Qed.

Lemma render_inside owner id st :
  render_job_id owner id st = #"[" ++ inside id st ++ match owner with Local => #"]" | Daemon => #"]*" end.
Proof. destruct owner, st; unfold render_job_id, inside; by rewrite <- ?app_assoc. Qed.

Lemma no_blank_fmt n : no_blank (fmt_dec n).
Proof. apply fmt_dec_word. Qed.

Lemma render_no_blank owner id st : no_blank (render_job_id owner id st).
Proof.
  assert (∀ a b, no_blank a → no_blank b → no_blank (a ++ b)) as Happ. { intros a b. apply Forall_app_2. }
  rewrite render_inside. apply Happ; [by repeat constructor|]. apply Happ; [|destruct owner; by repeat constructor].
  destruct st as [s|]; [|apply no_blank_fmt]. apply Happ; [apply no_blank_fmt|].
  apply Happ; [by repeat constructor|apply no_blank_fmt].
Qed.

Lemma target_render owner id st : stage_ok st →
  parse_job_target (render_job_id owner id st) =
  mkTarget (fmt_dec id) st (match owner with Daemon => true | Local => false end).
Proof.
  intros Hst. unfold parse_job_target. rewrite trim_no_blank by apply render_no_blank. rewrite render_inside.
  destruct owner; cbv zeta.
  - change (#"[" ++ inside id st ++ #"]") with ((#"[" ++ inside id st) ++ [93%N]) at 1.
    change #"*" with [42%N]. rewrite strip_suffix_snoc. cbn [N.eqb Pos.eqb mbind option_bind].
    change #"]" with [93%N]. rewrite strip_prefix_app. cbn [mbind option_bind].
    rewrite strip_suffix_snoc. cbn [N.eqb Pos.eqb]. by rewrite split_inside.
  - replace (#"[" ++ inside id st ++ #"]*") with ((#"[" ++ inside id st ++ [93%N]) ++ [42%N]) by (by rewrite <- !app_assoc).
    change #"*" with [42%N]. rewrite strip_suffix_snoc. cbn [N.eqb Pos.eqb mbind option_bind].
    rewrite strip_prefix_app. cbn [mbind option_bind]. change #"]" with [93%N]. rewrite strip_suffix_snoc.
    cbn [N.eqb Pos.eqb]. by rewrite split_inside.
Qed.

(** ** Every job is accounted for *)

Create HintDb jobs.

Definition spawned_ids (es : list JobEvent) : list JobId :=
  omap (λ e, match e with Spawned id _ _ => Some id | _ => None end) es.

Definition completed_ids (es : list JobEvent) : list JobId :=
  omap (λ e, match e with Completed id _ _ => Some id | _ => None end) es.

Definition live_ids {A} (idof : A → JobId) (st : A → JobState) (l : list A) : list JobId :=
  map idof (filter (λ j, live (st j) = true) l).

(** The jobs that have not ended, over the three tables. *)
Definition active_ids (c : JobController) : list JobId :=
  live_ids je_id je_state (jobs c) ++ live_ids fj_id fj_state (forge_jobs c) ++
  live_ids nj_id nj_state (native_jobs c).

Lemma update_elem {A} p f l (x : A) : x ∈ update_first p f l → x ∈ l ∨ ∃ y, y ∈ l ∧ p y = true ∧ x = f y.
Proof.
  induction l as [|y l IH]; cbn [update_first]; [set_solver|]. destruct (p y) eqn:E; rewrite elem_of_cons; [set_solver|].
  intros [->|H]; [set_solver|]. destruct (IH H) as [?|(z & ? & ? & ->)]; [set_solver|]. right. exists z. set_solver.
Qed.

Lemma drop_elem {A} p l (x : A) : x ∈ drop_first p l → x ∈ l.
Proof. induction l as [|y l IH]; cbn [drop_first]; [done|]. destruct (p y); set_solver. Qed.

Section tables.
Context {A : Type} (idof : A → JobId) (st : A → JobState).

Lemma live_ids_app l k : live_ids idof st (l ++ k) = live_ids idof st l ++ live_ids idof st k.
Proof. unfold live_ids. by rewrite list.filter_app, map_app. Qed.

Lemma live_ids_cons j l :
  live_ids idof st (j :: l) = (if live (st j) then [idof j] else []) ++ live_ids idof st l.
Proof. unfold live_ids. rewrite filter_cons. destruct (live (st j)) eqn:E; [by rewrite decide_True|by rewrite decide_False]. Qed.

Lemma find_job_Some id l j : find_job idof id l = Some j → j ∈ l ∧ idof j = id.
Proof.
  unfold find_job. intros H. assert (j ∈ filter (λ j, idof j = id) l) as Hj.
  { destruct (filter _ l); simplify_eq/=. by constructor. }
  by apply list_elem_of_filter in Hj as [? ?].
Qed.

Lemma find_job_cons id x l :
  find_job idof id (x :: l) = if is_job idof id x then Some x else find_job idof id l.
Proof.
  unfold find_job, is_job. rewrite filter_cons. destruct (N.eqb_spec (idof x) id); [by rewrite decide_True|by rewrite decide_False].
Qed.

(** A change of the job found that keeps whether it runs keeps the running jobs. *)
Lemma update_live id f l j :
  find_job idof id l = Some j → (∀ x, idof (f x) = idof x) → live (st (f j)) = live (st j) →
  live_ids idof st (update_first (is_job idof id) f l) = live_ids idof st l.
Proof.
  intros Hj Hid Hl. induction l as [|x l IH]; [done|]. rewrite find_job_cons in Hj. cbn [update_first].
  destruct (is_job idof id x); simplify_eq; rewrite !live_ids_cons; [by rewrite Hl, Hid|by rewrite IH].
Qed.

Lemma update_none id f l : find_job idof id l = None → update_first (is_job idof id) f l = l.
Proof.
  intros Hj. induction l as [|x l IH]; [done|]. rewrite find_job_cons in Hj. cbn [update_first].
  destruct (is_job idof id x); [done|by rewrite IH].
Qed.

Lemma update_ends id f l j :
  find_job idof id l = Some j → live (st j) = true → live (st (f j)) = false →
  live_ids idof st l ≡ₚ id :: live_ids idof st (update_first (is_job idof id) f l).
Proof.
  intros Hj Hl Hf. induction l as [|x l IH]; [done|]. rewrite find_job_cons in Hj. cbn [update_first].
  destruct (is_job idof id x) eqn:E; simplify_eq; rewrite !live_ids_cons.
  - rewrite Hl, Hf. apply N.eqb_eq in E. by rewrite E.
  - rewrite IH by done. destruct (live (st x)); [|done]. simpl. by rewrite Permutation_swap.
Qed.

Lemma drop_live id l j :
  find_job idof id l = Some j → live (st j) = true →
  live_ids idof st l ≡ₚ id :: live_ids idof st (drop_first (is_job idof id) l).
Proof.
  intros Hj Hl. induction l as [|x l IH]; [done|]. rewrite find_job_cons in Hj. cbn [drop_first].
  destruct (is_job idof id x) eqn:E; simplify_eq; rewrite live_ids_cons.
  - rewrite Hl. apply N.eqb_eq in E. by rewrite E.
  - rewrite live_ids_cons, IH by done. destruct (live (st x)); [|done]. simpl. by rewrite Permutation_swap.
Qed.

(** One table of [reap]: a job that runs stays or completes, never both. *)
Lemma reap_table (f : A → A * list JobEvent) l :
  (∀ j, f j = (j, []) ∨
     (live (st j) = true ∧ ∃ j' code lab, f j = (j', [Completed (idof j) code lab]) ∧ live (st j') = false)) →
  live_ids idof st (filter (λ j, live (st j) = true) (map f l).*1) ++ completed_ids (concat (map f l).*2)
    ≡ₚ live_ids idof st l
  ∧ spawned_ids (concat (map f l).*2) = [].
Proof.
  intros Hf. induction l as [|j l [IH IHs]]; [done|]. cbn [map fmap list_fmap concat].
  unfold completed_ids, spawned_ids in *. rewrite !omap_app, IHs, filter_cons, live_ids_cons.
  destruct (Hf j) as [->|(Hl & j' & code & lab & -> & Hj')]; simpl.
  - destruct (live (st j)) eqn:E; [rewrite decide_True by done|by rewrite decide_False by done].
    rewrite live_ids_cons, E. simpl. by rewrite IH.
  - rewrite decide_False by (by rewrite Hj'). rewrite Hl. split; [|done].
    change (idof j :: ?x) with ([idof j] ++ x). rewrite Permutation_app_comm. simpl. by rewrite <- IH, Permutation_app_comm.
Qed.
End tables.

(** From identifier [n] on: the jobs that run, those that completed and those let go are
    the jobs ever spawned, each once; identifiers only grow; a job that has ended and is
    still in its table is one the one-shot teardown ended. *)
Record accounted (n : N) (fin gone : list JobId) (c : JobController) : Prop := {
  acc_all : active_ids c ++ completed_ids (event_tx c) ++ gone ≡ₚ spawned_ids (event_tx c);
  acc_sorted : StronglySorted N.lt (spawned_ids (event_tx c));
  acc_range : Forall (λ i, n ≤ i < next_id c)%N (spawned_ids (event_tx c));
  acc_next : (n ≤ next_id c ≤ u32_max)%N;
  acc_ended : ∀ j, j ∈ jobs c → live (je_state j) = false → je_id j ∈ fin;
  acc_forge : ∀ j, j ∈ forge_jobs c → live (fj_state j) = true;
  acc_native : ∀ j, j ∈ native_jobs c → live (nj_state j) = true }.

(** The parts of the controller the accounts are about. *)
Definition same_accounts (c c' : JobController) : Prop :=
  active_ids c' = active_ids c ∧ spawned_ids (event_tx c') = spawned_ids (event_tx c) ∧
  completed_ids (event_tx c') = completed_ids (event_tx c) ∧ next_id c' = next_id c ∧
  (∀ j, j ∈ jobs c' → live (je_state j) = false → j ∈ jobs c) ∧
  (∀ j, j ∈ forge_jobs c' → live (fj_state j) = false → j ∈ forge_jobs c) ∧
  (∀ j, j ∈ native_jobs c' → live (nj_state j) = false → j ∈ native_jobs c).

Lemma accounts_refl c : same_accounts c c.
Proof. by split_and!. Qed.

Lemma accounts_trans c1 c2 c3 : same_accounts c1 c2 → same_accounts c2 c3 → same_accounts c1 c3.
Proof. unfold same_accounts. intros (?&?&?&?&?&?&?) (?&?&?&?&?&?&?). split_and!; (congruence || eauto). Qed.

Lemma same_accounted n fin gone c c' : same_accounts c c' → accounted n fin gone c → accounted n fin gone c'.
Proof.
  intros (Ha & Hs & Hc & Hn & Hj & Hf & Hv) [? ? ? ? He Hfo Hna]. split; rewrite ?Ha, ?Hs, ?Hc, ?Hn; try done; eauto.
  - intros j Hin. destruct (live (fj_state j)) eqn:E; [done|]. by rewrite Hfo in E by eauto.
  - intros j Hin. destruct (live (nj_state j)) eqn:E; [done|]. by rewrite Hna in E by eauto.
Qed.

Lemma omap_snoc_none {A B} (f : A → option B) l x : f x = None → omap f (l ++ [x]) = omap f l.
Proof. intros E. rewrite omap_app. simpl. rewrite E. apply app_nil_r. Qed.

Lemma send_same e c : match e with Spawned _ _ _ | Completed _ _ _ => False | _ => True end → same_accounts c (send e c).
Proof. intros He. split_and!; try done; apply omap_snoc_none; by destruct e. Qed.

Lemma did_same a c : same_accounts c (did a c).
Proof. by split_and!. Qed.

Lemma entry_state_same id s e c :
  get id c = Some e → live (je_state e) = true → live s = true → same_accounts c (set_entry_state id s c).
Proof.
  intros Hg Hl Hs. split_and!; try done.
  - unfold active_ids, set_entry_state. cbn [jobs forge_jobs native_jobs set_jobs].
    rewrite (update_live je_id je_state id (je_set_state s) (jobs c) e); [done|done|done|simpl; congruence].
  - intros j Hj. apply update_elem in Hj as [?|(y & _ & _ & ->)]; [done|]. simpl. congruence.
Qed.

Lemma forge_state_same id s f c :
  find_job fj_id id (forge_jobs c) = Some f → live (fj_state f) = true → live s = true →
  same_accounts c (set_forge_state id s c).
Proof.
  intros Hg Hl Hs. split_and!; try done.
  - unfold active_ids, set_forge_state. cbn [jobs forge_jobs native_jobs set_forge].
    rewrite (update_live fj_id fj_state id (fj_set_state s) (forge_jobs c) f); [done|done|done|simpl; congruence].
  - intros j Hj. apply update_elem in Hj as [?|(y & _ & _ & ->)]; [done|]. simpl. congruence.
Qed.

Lemma native_state_same id s f c :
  find_job nj_id id (native_jobs c) = Some f → live (nj_state f) = true → live s = true →
  same_accounts c (set_native_state id s c).
Proof.
  intros Hg Hl Hs. split_and!; try done.
  - unfold active_ids, set_native_state. cbn [jobs forge_jobs native_jobs set_native].
    rewrite (update_live nj_id nj_state id (nj_set_state s) (native_jobs c) f); [done|done|done|simpl; congruence].
  - intros j Hj. apply update_elem in Hj as [?|(y & _ & _ & ->)]; [done|]. simpl. congruence.
Qed.

Lemma entry_state_none id s c : get id c = None → same_accounts c (set_entry_state id s c).
Proof.
  intros Hg. unfold set_entry_state. rewrite (update_none je_id) by done. by split_and!.
Qed.

Lemma signal_engine_same w e sig c : same_accounts c (signal_engine w e sig c).2.
Proof. unfold signal_engine. destruct (engine_signal w e sig); [apply did_same|apply accounts_refl]. Qed.

Lemma signal_child_same w e sig c : same_accounts c (signal_child w e sig c).2.
Proof. unfold signal_child. destruct (child_kill w e sig); [apply did_same|apply accounts_refl]. Qed.

#[export] Hint Resolve accounts_refl send_same did_same signal_engine_same signal_child_same : jobs.

Lemma reap_shapes w :
  (∀ j, reap_entry w j = (j, []) ∨ (live (je_state j) = true ∧ ∃ j' code lab,
     reap_entry w j = (j', [Completed (je_id j) code lab]) ∧ live (je_state j') = false)) ∧
  (∀ j, reap_forge w j = (j, []) ∨ (live (fj_state j) = true ∧ ∃ j' code lab,
     reap_forge w j = (j', [Completed (fj_id j) code lab]) ∧ live (fj_state j') = false)) ∧
  (∀ j, reap_native w j = (j, []) ∨ (live (nj_state j) = true ∧ ∃ j' code lab,
     reap_native w j = (j', [Completed (nj_id j) code lab]) ∧ live (nj_state j') = false)).
Proof.
  split_and!; intros j.
  - unfold reap_entry. destruct (live (je_state j)) eqn:E; [|by left]. destruct (je_exit_code w j); [|by left]. right. eauto 7.
  - unfold reap_forge. destruct (runs_or_stopped (fj_state j)) eqn:E; [|by left].
    destruct (fj_exit_code w j); [|by left]. right. split; [by destruct (fj_state j)|eauto 7].
  - unfold reap_native. destruct (runs_or_stopped (nj_state j)) eqn:E; [|by left].
    destruct (nj_exit_code w j); [|by left]. right. split; [by destruct (nj_state j)|eauto 7].
Qed.

Lemma reap_live w c :
  (∀ j, j ∈ jobs (reap w c) → live (je_state j) = true) ∧
  (∀ j, j ∈ forge_jobs (reap w c) → live (fj_state j) = true) ∧
  (∀ j, j ∈ native_jobs (reap w c) → live (nj_state j) = true).
Proof. split_and!; intros j Hj; unfold reap in Hj; cbn in Hj; by apply list_elem_of_filter in Hj as [? _]. Qed.

Lemma get_live w id c e : get id (reap w c) = Some e → live (je_state e) = true.
Proof. intros [Hj _]%find_job_Some. by apply (reap_live w c). Qed.

Lemma perm_shuffle (a b d x y z k : list JobId) :
  (a ++ b ++ d) ++ (k ++ x ++ y ++ z) ≡ₚ (a ++ x) ++ (b ++ y) ++ (d ++ z) ++ k.
Proof. solve_Permutation. Qed.

(** Reaping moves jobs from those that run to those that completed. *)
Lemma reap_moves w c :
  active_ids (reap w c) ++ completed_ids (event_tx (reap w c)) ≡ₚ active_ids c ++ completed_ids (event_tx c) ∧
  spawned_ids (event_tx (reap w c)) = spawned_ids (event_tx c).
Proof.
  destruct (reap_shapes w) as (H1 & H2 & H3).
  destruct (reap_table je_id je_state (reap_entry w) (jobs c) H1) as [P1 S1].
  destruct (reap_table fj_id fj_state (reap_forge w) (forge_jobs c) H2) as [P2 S2].
  destruct (reap_table nj_id nj_state (reap_native w) (native_jobs c) H3) as [P3 S3].
  unfold active_ids, reap, completed_ids, spawned_ids in *. cbn [jobs forge_jobs native_jobs event_tx].
  rewrite !omap_app, S1, S2, S3, !app_nil_r. split; [|done].
  rewrite perm_shuffle, P1, P2, P3. by rewrite !app_assoc.
Qed.

Lemma reap_accounted n fin gone w c : accounted n fin gone c → accounted n fin gone (reap w c).
Proof.
  intros [Ha Hs Hr Hn He Hf Hv]. destruct (reap_moves w c) as [Hm Hsp]. destruct (reap_live w c) as (L1 & L2 & L3).
  split; rewrite ?Hsp; try done.
  - by rewrite app_assoc, Hm, <- app_assoc.
  - intros j Hj E. by rewrite L1 in E.
Qed.

(** Where the named job runs, so do the others of the two small tables. *)
Definition runs (id : JobId) (c : JobController) : Prop :=
  (∀ e, get id c = Some e → live (je_state e) = true) ∧
  (∀ j, j ∈ forge_jobs c → live (fj_state j) = true) ∧
  (∀ j, j ∈ native_jobs c → live (nj_state j) = true).

Lemma reap_runs w id c : runs id (reap w c).
Proof. destruct (reap_live w c) as (_ & ? & ?). split_and!; eauto using get_live. Qed.

(** A signal, then a new state that runs and an event. *)
Lemma signalled_same (m : Ctl unit) (f : JobController → JobController) c :
  (∀ c', (m c').2 = c' ∨ ∃ a, (m c').2 = did a c') →
  (∀ a, same_accounts c (f (did a c))) → same_accounts c (f c) →
  same_accounts c ((m;; modify f) c).2.
Proof.
  intros Hm Hf Hc. unfold mbind, M_bind. specialize (Hm c). destruct (m c) as [[] c']; simpl in *;
    destruct Hm as [->|[b ->]]; auto with jobs.
Qed.

Lemma signal_engine_acts w e sig c : (signal_engine w e sig c).2 = c ∨ ∃ a, (signal_engine w e sig c).2 = did a c.
Proof. unfold signal_engine. destruct (engine_signal w e sig); [right; eauto|by left]. Qed.

Lemma signal_child_acts w e sig c : (signal_child w e sig c).2 = c ∨ ∃ a, (signal_child w e sig c).2 = did a c.
Proof. unfold signal_child. destruct (child_kill w e sig); [right; eauto|by left]. Qed.

Lemma entry_event_same id s ev e c :
  get id c = Some e → live (je_state e) = true → live s = true →
  match ev with Spawned _ _ _ | Completed _ _ _ => False | _ => True end →
  same_accounts c (send ev (set_entry_state id s c)).
Proof. intros. eapply accounts_trans; [by eapply entry_state_same|by apply send_same]. Qed.

Lemma stop_same w id c : runs id c → same_accounts c (stop w id c).2.
Proof.
  intros (Hj & Hf & Hn). unfold stop.
  destruct (find_job nj_id id (native_jobs c)) as [n|] eqn:En.
  { eapply accounts_trans; [|by apply send_same].
    apply accounts_trans with (did (AKillSession (nj_session n)) c); [apply did_same|].
    apply native_state_same with n; [done|by apply Hn, (find_job_Some nj_id id)|done]. }
  destruct (find_job fj_id id (forge_jobs c)) as [f|] eqn:Ef.
  { apply signalled_same; [apply signal_child_acts|intros a|]; (eapply accounts_trans; [|by apply send_same]);
      [apply accounts_trans with (did a c); [apply did_same|]|];
      (apply forge_state_same with f; [done|by apply Hf, (find_job_Some fj_id id)|done]). }
  destruct (get id c) as [e|] eqn:Eg; [|apply accounts_refl].
  apply signalled_same; [apply signal_engine_acts|intros a|]; [apply accounts_trans with (did a c); [apply did_same|]|];
    (apply entry_event_same with e; auto).
Qed.

Lemma bg_same w id c : runs id c → same_accounts c (bg w id c).2.
Proof.
  intros (Hj & Hf & Hn). unfold bg.
  destruct (find_job fj_id id (forge_jobs c)) as [f|] eqn:Ef.
  { case_bool_decide; [|apply accounts_refl].
    apply signalled_same; [apply signal_child_acts|intros a|]; (eapply accounts_trans; [|by apply send_same]);
      [apply accounts_trans with (did a c); [apply did_same|]|];
      (apply forge_state_same with f; [done|by apply Hf, (find_job_Some fj_id id)|done]). }
  destruct (get id c) as [e|] eqn:Eg; [|apply accounts_refl]. case_bool_decide; [|apply accounts_refl].
  apply signalled_same; [apply signal_engine_acts|intros a|]; [apply accounts_trans with (did a c); [apply did_same|]|];
    (apply entry_event_same with e; auto).
Qed.

Lemma write_same w id data c : same_accounts c (write_to_pty w id data c).2.
Proof. unfold write_to_pty. destruct (get id c) as [e|]; [|apply accounts_refl]. by destruct (engine_write w _ data); auto with jobs. Qed.

Lemma state_same id s c : runs id c → live s = true → same_accounts c (set_entry_state id s c).
Proof.
  intros (Hj & _) Hs. destruct (get id c) as [e|] eqn:E; [apply entry_state_same with e; auto|by apply entry_state_none].
Qed.

Lemma state_event_same id s ev c : runs id c → live s = true →
  match ev with Spawned _ _ _ | Completed _ _ _ => False | _ => True end →
  same_accounts c (send ev (set_entry_state id s c)).
Proof. intros. apply accounts_trans with (set_entry_state id s c); [by apply state_same|by apply send_same]. Qed.

Lemma update_finds {A} (idof : A → JobId) id f (l : list A) : (∀ x, idof (f x) = idof x) →
  find_job idof id (update_first (is_job idof id) f l) = f <$> find_job idof id l.
Proof.
  intros Hf. induction l as [|x l IH]; [done|]. cbn [update_first]. rewrite (find_job_cons idof id x).
  destruct (is_job idof id x) eqn:E; rewrite find_job_cons; unfold is_job in *; [by rewrite Hf, E|by rewrite E].
Qed.

Lemma get_set_state id s c : get id (set_entry_state id s c) = je_set_state s <$> get id c.
Proof. by apply (update_finds je_id). Qed.

Lemma foreground_runs id c : runs id c → runs id (set_entry_state id Foreground c).
Proof.
  intros (Hj & Hf & Hn). split_and!; [|done..]. intros e. rewrite get_set_state.
  destruct (get id c); intros [= <-]. done.
Qed.

Lemma after_same w id c (d : AttachedOutcome + bool) : runs id c →
  same_accounts c (match d with inl o => after_attached id o c | inr q => after_yielded w id q c end).
Proof.
  intros Hr. destruct d as [[]|[]]; unfold after_attached, after_yielded; try apply accounts_refl.
  - by apply state_event_same.
  - destruct (get id c) as [e|] eqn:Eg; cbn [fmap option_fmap option_map].
    2:{ rewrite bool_decide_false by done. by apply state_event_same. }
    case_bool_decide; [|by apply state_event_same].
    eapply accounts_trans; [apply (signal_engine_same w (je_engine e) SIGTSTP)|].
    assert (runs id (signal_engine w (je_engine e) SIGTSTP c).2) as Hr'.
    { destruct (signal_engine_acts w (je_engine e) SIGTSTP c) as [->|[a ->]]; [done|]. apply Hr. }
    by apply state_event_same.
Qed.

(** *** New jobs *)

Lemma sorted_snoc (l : list N) x : StronglySorted N.lt l → Forall (λ i, i < x)%N l → StronglySorted N.lt (l ++ [x]).
Proof.
  intros Hs Hf. induction Hs as [|y l Hs IH Hy]; simpl; [by repeat constructor|].
  apply list.Forall_cons in Hf as [Hyx Hf]. constructor; [auto|]. apply list.Forall_app. by repeat constructor.
Qed.

Definition added (c c' : JobController) : Prop :=
  active_ids c' ≡ₚ next_id c :: active_ids c ∧ spawned_ids (event_tx c') = spawned_ids (event_tx c) ++ [next_id c] ∧
  completed_ids (event_tx c') = completed_ids (event_tx c) ∧ next_id c' = (next_id c + 1)%N ∧
  (∀ j, j ∈ jobs c' → live (je_state j) = false → j ∈ jobs c) ∧
  (∀ j, j ∈ forge_jobs c' → live (fj_state j) = false → j ∈ forge_jobs c) ∧
  (∀ j, j ∈ native_jobs c' → live (nj_state j) = false → j ∈ native_jobs c).

Lemma next_accounted n fin gone c : accounted n fin gone c → (next_id c < u32_max)%N →
  accounted n fin gone (set_next (next_id c + 1) c).
Proof.
  intros [Ha Hs Hr Hn He Hf Hv] Hlt. split; try done; cbn [set_next next_id event_tx].
  - eapply list.Forall_impl; [exact Hr|]. simpl. lia.
  - lia.
Qed.

Lemma added_accounted n fin gone c c' : accounted n fin gone c → (next_id c < u32_max)%N → added c c' →
  accounted n fin gone c'.
Proof.
  intros [Ha Hs Hr Hn He Hf Hv] Hlt (H1 & H2 & H3 & H4 & H5 & H6 & H7). split; rewrite ?H2, ?H3, ?H4; eauto.
  - rewrite H1. simpl. rewrite Ha. solve_Permutation.
  - apply sorted_snoc; [done|]. eapply list.Forall_impl; [exact Hr|]. simpl. lia.
  - apply list.Forall_app. split; [eapply list.Forall_impl; [exact Hr|simpl; lia]|].
    constructor; [lia|constructor].
  - lia.
  - intros j Hj. destruct (live (fj_state j)) eqn:E; [done|]. by rewrite Hf in E by eauto.
  - intros j Hj. destruct (live (nj_state j)) eqn:E; [done|]. by rewrite Hv in E by eauto.
Qed.

Lemma spawned_snoc es id k p : spawned_ids (es ++ [Spawned id k p]) = spawned_ids es ++ [id].
Proof. unfold spawned_ids. by rewrite omap_app. Qed.

Lemma completed_spawned es id k p : completed_ids (es ++ [Spawned id k p]) = completed_ids es.
Proof. by apply omap_snoc_none. Qed.

Ltac solve_added :=
  unfold added, active_ids;
  cbn [jobs forge_jobs native_jobs next_id event_tx set_next send did set_jobs set_forge set_native push_entry];
  rewrite spawned_snoc, completed_spawned, ?live_ids_app; split_and!;
    try done;
    [unfold live_ids; simpl; solve_Permutation
    |intros j Hj Hd; apply elem_of_app in Hj as [Hj|Hj]; [done|]; apply list_elem_of_singleton in Hj as ->; done].

Lemma forge_added w app child c : (next_id c < u32_max)%N → added c (register_forge_app w app child c).2.
Proof.
  intros Hlt. unfold register_forge_app, alloc_id, mbind, M_bind, modify. apply N.ltb_lt in Hlt as ->.
  cbn -[live_ids]. solve_added.
Qed.

Lemma native_added name aid session c : (next_id c < u32_max)%N → added c (register_native name aid session c).2.
Proof.
  intros Hlt. unfold register_native, alloc_id, mbind, M_bind, modify. apply N.ltb_lt in Hlt as ->.
  cbn -[live_ids]. solve_added.
Qed.

Lemma alloc_exhausted {A} (k : JobId → Ctl A) c : (next_id c <? u32_max)%N = false → ((id ← alloc_id; k id) c).2 = c.
Proof. intros E. unfold alloc_id, mbind, M_bind. by rewrite E. Qed.

Lemma alloc_next {A} (k : JobId → Ctl A) c : (next_id c <? u32_max)%N = true →
  (id ← alloc_id; k id) c = k (next_id c) (set_next (next_id c + 1) c).
Proof. intros E. unfold alloc_id, mbind, M_bind. by rewrite E. Qed.

Lemma start_accounted n fin gone w cfg kind label hooks c : accounted n fin gone c → (next_id c < u32_max)%N →
  accounted n fin gone (start_job w (next_id c) cfg kind label hooks (set_next (next_id c + 1) c)).2.
Proof.
  intros Ha Hlt. unfold start_job. destruct (engine_start w cfg) as [engine|e]; [|by apply next_accounted].
  apply (added_accounted n fin gone c); [done..|]. unfold mbind, M_bind, modify. cbn -[live_ids]. solve_added.
Qed.

Lemma spawn_accounted n fin gone w cfg kind label hooks c : accounted n fin gone c →
  accounted n fin gone ((id ← alloc_id; start_job w id cfg kind label hooks) c).2.
Proof.
  intros Ha. destruct (next_id c <? u32_max)%N eqn:E; [|by rewrite alloc_exhausted].
  rewrite alloc_next by done. by apply start_accounted, N.ltb_lt.
Qed.

Lemma check_cap_state w c : (check_cap w c).2 = c.
Proof. unfold check_cap. by repeat case_match. Qed.

Lemma shell_accounted n fin gone w argv env cwd label dir c : accounted n fin gone c →
  accounted n fin gone (spawn_shell w argv env cwd label dir c).2.
Proof.
  intros Ha. destruct argv as [|cmd args]; [done|]. unfold spawn_shell. unfold mbind at 1, M_bind at 1.
  pose proof (check_cap_state w c) as Hs. destruct (check_cap w c) as [[[]|e] c']; simpl in Hs; subst c'; [|done].
  destruct (next_id c <? u32_max)%N eqn:E; [|by rewrite alloc_exhausted].
  rewrite alloc_next by done. apply N.ltb_lt in E.
  destruct (engine_start w _) as [engine|e]; [|by apply next_accounted].
  apply (added_accounted n fin gone c); [done..|]. unfold mbind, M_bind, modify. cbn -[live_ids]. solve_added.
Qed.

(** *** Ends *)

Lemma disown_accounted n fin gone id c : accounted n fin gone c → runs id c →
  ∃ gone', accounted n fin gone' (disown id c).2 ∧ gone' ⊆ id :: gone.
Proof.
  intros Ha (Hj & _). pose proof Ha as [Hall Hs Hr Hn He Hf Hv]. unfold disown.
  destruct (find_job fj_id id (forge_jobs c)) as [f|] eqn:Ef.
  { exists (id :: gone). split; [|done].
    pose proof (drop_live fj_id fj_state id (forge_jobs c) f Ef (Hf _ (proj1 (find_job_Some fj_id id _ _ Ef)))) as Hd.
    split; try done; cbn.
    - unfold completed_ids, spawned_ids. rewrite !omap_snoc_none by done. rewrite <- Hall. unfold active_ids. cbn.
      rewrite Hd. solve_Permutation.
    - unfold spawned_ids. by rewrite omap_snoc_none.
    - unfold spawned_ids. by rewrite omap_snoc_none.
    - intros j Hin. by apply drop_elem, Hf in Hin. }
  destruct (get id c) as [e|] eqn:Eg; [|exists gone; split; [done|set_solver]].
  exists (id :: gone). split; [|done].
  pose proof (drop_live je_id je_state id (jobs c) e Eg (Hj _ eq_refl)) as Hd. split; try done; cbn.
  - unfold completed_ids, spawned_ids. rewrite !omap_snoc_none by done. rewrite <- Hall. unfold active_ids. cbn.
    rewrite Hd. solve_Permutation.
  - unfold spawned_ids. by rewrite omap_snoc_none.
  - unfold spawned_ids. by rewrite omap_snoc_none.
  - intros j Hin. apply drop_elem in Hin. eauto.
Qed.

Lemma complete_accounted n fin gone id code c : accounted n fin gone c →
  accounted n (id :: fin) gone (complete id code c).
Proof.
  intros [Hall Hs Hr Hn He Hf Hv]. unfold complete.
  assert (∀ j, j ∈ jobs c → live (je_state j) = false → je_id j ∈ id :: fin) as He' by (intros; right; eauto).
  destruct (get id c) as [e|] eqn:Eg; [|by split].
  destruct (terminal (je_state e)) eqn:Et; [by split|].
  assert (live (je_state e) = true) as Hl by (unfold live; by rewrite Et).
  pose proof (update_ends je_id je_state id (je_set_state (Done code)) (jobs c) e Eg Hl eq_refl) as Hd.
  split; try done; cbn.
  - unfold completed_ids, spawned_ids. rewrite omap_app, (omap_snoc_none (λ e, match e with Spawned _ _ _ => _ | _ => _ end)) by done.
    rewrite <- Hall. unfold active_ids. cbn. rewrite Hd. solve_Permutation.
  - unfold spawned_ids. by rewrite omap_snoc_none.
  - unfold spawned_ids. by rewrite omap_snoc_none.
  - intros j Hin Hd'. apply update_elem in Hin as [Hin|(y & Hin & Hy & ->)]; [eauto|].
    apply N.eqb_eq in Hy. simpl. rewrite Hy. constructor.
Qed.

Definition finished_by (ls : list (World * call)) : list JobId :=
  omap (λ l, match l.2 with CFinish id => Some id | _ => None end) ls.

Definition disowned_by (ls : list (World * call)) : list JobId :=
  omap (λ l, match l.2 with CDisown id => Some id | _ => None end) ls.

Lemma finish_accounted n fin gone w id c : accounted n fin gone c → id ∉ fin →
  accounted n (id :: fin) gone (finish_oneshot w id c).
Proof.
  intros Ha Hid. apply complete_accounted. apply (same_accounted _ _ _ c); [|done]. apply stop_same.
  destruct Ha as [_ _ _ _ He Hf Hv]. split_and!; [|done..]. intros e Hg.
  pose proof (find_job_Some je_id id _ _ Hg) as [Hin Hide]. destruct (live (je_state e)) eqn:E; [done|].
  exfalso. apply Hid. rewrite <- Hide. by apply He.
Qed.

Lemma perform_accounted n fin gone w l c :
  accounted n fin gone c → (∀ id, l = CFinish id → id ∉ fin) →
  ∃ gone', accounted n (finished_by [(w, l)] ++ fin) gone' (perform w l c) ∧ gone' ⊆ disowned_by [(w, l)] ++ gone.
Proof.
  intros Ha Hfin. pose proof (reap_accounted _ _ _ w _ Ha) as Hr. pose proof (λ id, reap_runs w id c) as Hru.
  destruct l; cbn [perform finished_by disowned_by omap list_omap snd app].
  - exists gone. split; [by apply spawn_accounted|done].
  - exists gone. split; [by apply shell_accounted|done].
  - exists gone. split; [|done]. destruct (next_id c <? u32_max)%N eqn:E; [|unfold register_forge_app; by rewrite alloc_exhausted].
    apply (added_accounted _ _ _ c); [done|by apply N.ltb_lt|by apply forge_added, N.ltb_lt].
  - exists gone. split; [|done]. destruct (next_id c <? u32_max)%N eqn:E; [|unfold register_native; by rewrite alloc_exhausted].
    apply (added_accounted _ _ _ c); [done|by apply N.ltb_lt|by apply native_added, N.ltb_lt].
  - by exists gone.
  - exists gone. split; [|done]. eapply same_accounted; [by apply stop_same|done].
  - exists gone. split; [|done]. eapply same_accounted; [by apply bg_same|done].
  - by apply disown_accounted.
  - exists gone. split; [|done]. eapply same_accounted; [|by eapply same_accounted; [by apply (state_same id Foreground)|]].
    apply (after_same w id _ (inl o)). by apply foreground_runs.
  - exists gone. split; [|done]. eapply same_accounted; [|by eapply same_accounted; [by apply (state_same id Foreground)|]].
    apply (after_same w id _ (inr quit)). by apply foreground_runs.
  - exists gone. split; [|done]. eapply same_accounted; [by apply write_same|done].
  - exists gone. split; [|done]. apply finish_accounted; auto.
Qed.

Lemma perform_all_accounted n fin gone ls c :
  accounted n fin gone c → NoDup (finished_by ls) → (∀ id, id ∈ finished_by ls → id ∉ fin) →
  ∃ fin' gone', accounted n fin' gone' (perform_all ls c) ∧ gone' ⊆ disowned_by ls ++ gone.
Proof.
  revert fin gone c. induction ls as [|[w l] ls IH]; intros fin gone c Ha Hnd Hfin; [by exists fin, gone|].
  change (finished_by ((w, l) :: ls)) with (finished_by ([(w, l)] ++ ls)) in *.
  change (disowned_by ((w, l) :: ls)) with (disowned_by ([(w, l)] ++ ls)).
  unfold finished_by, disowned_by in *. rewrite omap_app in *. apply list.NoDup_app in Hnd as (Hn1 & Hdis & Hn2).
  destruct (perform_accounted n fin gone w l c Ha) as (gone1 & Ha1 & Hg1).
  { intros id ->. apply Hfin. simpl. set_solver. }
  destruct (IH _ _ _ Ha1 Hn2) as (fin2 & gone2 & Ha2 & Hg2).
  { intros id Hid. rewrite elem_of_app. intros [H|H]; [by apply (Hdis id)|]. apply (Hfin id); [|done]. set_solver. }
  exists fin2, gone2. cbn [perform_all]. split; [done|]. unfold disowned_by in *. set_solver.
Qed.

(** C13: Over every run of the shell's calls into the job controller, whatever the
    processes answer and in whatever order the calls come, with the one-shot teardown of a
    job done at most once: the jobs that run, the jobs whose completion was announced and
    jobs that were disowned are together exactly the jobs announced as spawned, each once,
    so no completion is announced twice or for a job that was not spawned, and no job is
    lost; identifiers are handed out in strictly increasing order from the first one, and
    stay within 32 bits. *)
Theorem jobs_accounted (n : N) (ls : list (World * call)) :
  (n ≤ u32_max)%N → NoDup (finished_by ls) →
  let c := perform_all ls (with_next_id n) in
  (∃ gone, gone ⊆ disowned_by ls ∧
     active_ids c ++ completed_ids (event_tx c) ++ gone ≡ₚ spawned_ids (event_tx c)) ∧
  StronglySorted N.lt (spawned_ids (event_tx c)) ∧
  Forall (λ i, n ≤ i < u32_max)%N (spawned_ids (event_tx c)) ∧
  NoDup (active_ids c ++ completed_ids (event_tx c)).
Proof.
  intros Hn Hnd c. destruct (perform_all_accounted n [] [] ls (with_next_id n)) as (fin & gone & Ha & Hg).
  - split; try done; try (intros j Hj; cbn in Hj; set_solver); constructor; cbn; lia.
  - done.
  - set_solver.
  - destruct Ha as [Hall Hs Hr Hb _ _ _]. fold c in Hall, Hs, Hr, Hb. split_and!.
    + exists gone. split; [set_solver|done].
    + done.
    + eapply list.Forall_impl; [exact Hr|]. simpl. lia.
    + assert (NoDup (spawned_ids (event_tx c))) as Hd.
      { clear -Hs. induction Hs as [|x l Hs IH Hx]; constructor; [|done].
        rewrite list.Forall_forall in Hx. intros Hin%Hx. lia. }
      rewrite <- Hall, app_assoc, list.NoDup_app in Hd. apply Hd.
Qed.

(** A world in which programs start and take signals, and nothing has exited; and one in
    which every program has. *)
Definition sample_world (code : option Z) : World :=
  mkWorld (λ _, Ok 70%N) (λ _, Ok code) (λ _ _, Ok ()) (λ _ _, Ok ()) (λ e, Some (1000 + e)%N)
    (λ _, Ok (Some <$> code)) (λ _ _, Ok ()) (λ ch, (2000 + ch)%N)
    (λ _, match code with Some z => TOk z | None => TEmpty end) (Some 1024%N).

Definition sample_engine : EngineConfig := mkEngine #"claude" [] [] None true true.

Definition sample_calls : list (World * call) :=
  [(sample_world None, CSpawn sample_engine (Agent #"u1" #"faye") #"faye" [InjectionExecutorLifecycle Claude]);
   (sample_world None, CShell [ #"make"] [] None #"make" []);
   (sample_world None, CNative #"nova" #"u2" 5%N);
   (sample_world None, CForge #"board" 6%N);
   (sample_world None, CDisown 4%N);
   (sample_world None, CFinish 1%N);
   (sample_world (Some 0%Z), CList)].

Lemma jobs_accounted_witness :
  let c := perform_all sample_calls (with_next_id 1) in
  spawned_ids (event_tx c) = [1; 2; 3; 4]%N ∧ NoDup (active_ids c ++ completed_ids (event_tx c)).
Proof.
  split; [by vm_compute|].
  apply (jobs_accounted 1 sample_calls); [done|]. by apply (bool_decide_unpack _); vm_compute.
Defined.

(** The one-shot teardown of a job that is already torn down and not yet reaped,
    as two end-of-turn hooks in one batch make it: the second signal puts the job back
    among the stopped ones, and its completion is announced again. *)
Theorem oneshot_completes_twice (w : World) (id : JobId) (e : JobEntry) (c : JobController) :
  get id c = Some e → live (je_state e) = true →
  find_job nj_id id (native_jobs c) = None → find_job fj_id id (forge_jobs c) = None →
  engine_signal w (je_engine e) SIGTERM = Ok () →
  completed_ids (event_tx (finish_oneshot w id (finish_oneshot w id c))) =
  completed_ids (event_tx c) ++ [id; id].
Proof.
  intros Hg Hl Hn Hf Hs.
  assert (∀ c e, get id c = Some e → find_job nj_id id (native_jobs c) = None →
    find_job fj_id id (forge_jobs c) = None → engine_signal w (je_engine e) SIGTERM = Ok () →
    let c' := finish_oneshot w id c in
    get id c' = Some (je_set_state (Done 0) e) ∧ native_jobs c' = native_jobs c ∧ forge_jobs c' = forge_jobs c ∧
    completed_ids (event_tx c') = completed_ids (event_tx c) ++ [id]) as Hstep.
  { clear c e Hg Hl Hn Hf Hs. intros c e Hg Hn Hf Hs. unfold finish_oneshot, stop. rewrite Hn, Hf, Hg.
    unfold mbind, M_bind, signal_engine. rewrite Hs. unfold modify. cbn [fst snd].
    set (c1 := set_entry_state id Stopped (did (ASignal (je_engine e) SIGTERM) c)).
    assert (get id c1 = Some (je_set_state Stopped e)) as Hg1.
    { unfold c1. rewrite get_set_state. change (get id (did _ c)) with (get id c). by rewrite Hg. }
    unfold complete. change (get id (send ?ev c1)) with (get id c1). rewrite Hg1. cbn [je_set_state je_state terminal].
    split_and!; [|done|done|].
    - change (get id (send ?ev ?x)) with (get id x). rewrite get_set_state.
      change (get id (send ?ev c1)) with (get id c1). by rewrite Hg1.
    - cbn. unfold completed_ids. rewrite !omap_app. simpl. by rewrite app_nil_r. }
  destruct (Hstep c e Hg Hn Hf Hs) as (Hg1 & Hn1 & Hf1 & Hc1).
  destruct (Hstep (finish_oneshot w id c) _ Hg1) as (_ & _ & _ & Hc2); [by rewrite Hn1|by rewrite Hf1|done|].
  by rewrite Hc2, Hc1, <- app_assoc.
Qed.

Lemma oneshot_completes_twice_witness :
  let c := perform_all (take 1 sample_calls) (with_next_id 1) in
  completed_ids (event_tx (finish_oneshot (sample_world None) 1%N (finish_oneshot (sample_world None) 1%N c))) = [1; 1]%N.
Proof.
  intros c.
  exact (oneshot_completes_twice (sample_world None) 1%N
    (mkEntry 1%N (Agent #"u1" #"faye") Running 70 #"faye" [InjectionExecutorLifecycle Claude] None) c
    eq_refl eq_refl eq_refl eq_refl eq_refl).
Defined.

(** ** The limit on background jobs *)

(** [spawn_shell] never lets the shell jobs that run exceed a quarter of the limit on
    open files: when it accepts a job they are at most the cap, and at the cap it refuses,
    says so, and takes no identifier. *)
Theorem shell_jobs_capped (w : World) (cap : N) (argv : list str) (env : list (str * str)) (cwd : option str)
    (label : str) (dir : list str) (c : JobController) :
  bg_job_cap w = Some cap → argv ≠ [] →
  match spawn_shell w argv env cwd label dir c with
  | (Ok id, c') => id = next_id c ∧ (N.of_nat (live_shell_jobs c') ≤ cap)%N ∧
                   live_shell_jobs c' = S (live_shell_jobs c)
  | (Err _, c') => live_shell_jobs c' = live_shell_jobs c ∧
                   ((cap ≤ N.of_nat (live_shell_jobs c))%N → c' = c)
  end.
Proof.
  intros Hcap Hargv. destruct argv as [|cmd args]; [done|]. unfold spawn_shell. unfold mbind at 1, M_bind at 1.
  unfold check_cap. rewrite Hcap. destruct (N.leb_spec cap (N.of_nat (live_shell_jobs c))) as [Hle|Hlt]; [done|].
  destruct (next_id c <? u32_max)%N eqn:E; [|unfold alloc_id, mbind, M_bind; rewrite E; split; [done|lia]].
  rewrite alloc_next by done. destruct (engine_start w _) as [engine|m]; [|split; [done|lia]].
  unfold mbind, M_bind, modify. cbn. unfold live_shell_jobs. cbn. rewrite list.filter_app, length_app, filter_cons_True by done.
  rewrite filter_nil. cbn [length]. fold (live_shell_jobs c). split_and!; [done| |]; lia.
Qed.

Lemma shell_jobs_capped_witness :
  (spawn_shell (sample_world None) [ #"make"] [] None #"make" [] (with_next_id 1)).1 = Ok 1%N ∧
  live_shell_jobs (spawn_shell (sample_world None) [ #"make"] [] None #"make" [] (with_next_id 1)).2 = 1%nat.
Proof.
  split; [by vm_compute|].
  apply (shell_jobs_capped (sample_world None) 256%N [ #"make"] [] None #"make" [] (with_next_id 1)); by vm_compute.
Defined.
