(* ===== verification/Approval.v ===== *)
(** * Approvals ([orkia-shell/src/approval.rs], [repl/approval.rs])

    An agent asks for approval by a file in its run directory, or by a hook. A janitor
    thread reads the files and sends what it finds to the shell, which keeps a queue of
    at most one request per job; a person answers, and the answer goes to a response file
    or to the agent's terminal.

    The shell and the janitor are one state here: the queue, the two channels between
    them, the janitor's memory and the files; each operation of the shell, each command
    the janitor takes and each write of an agent is a step, in any order. The theorems
    say that a job has one request in the queue, that only a person's answer makes a
    response, to the job asked about, and what happens to a second request. *)
From Stdlib Require Import NArith Lia.
From stdpp Require Import base gmap strings option numbers list list_basics.
From S2P Require Import Prelude Text Effects Json Fs Jobs.

Record ApprovalRequest := mkRequest {
  action : str; description : option str; risk : option str; files_changed : option (list str);
  metadata : option json }.

#[export] Instance ApprovalRequest_eq : EqDecision ApprovalRequest.
Proof. solve_decision. Defined.

Record ApprovalResponse := mkResponse { approved : bool; responded_at : str; responded_by : str }.

Inductive ApprovalSource := File | Hook.

#[export] Instance ApprovalSource_eq : EqDecision ApprovalSource.
Proof. solve_decision. Defined.

Record PendingApproval := mkPending {
  pa_job : JobId; pa_request : ApprovalRequest; pa_request_path : path; pa_response_path : path;
  pa_received : str; pa_source : ApprovalSource }.

Inductive Cmd := Scan (jobs : list JobId) | Cleanup (job : JobId).

(** The shell's half ([ApprovalWatcher]), the channels, and the janitor's half. *)
Record Approvals := mkApprovals {
  pending : list PendingApproval;
  cmds : list Cmd;
  discovered : list PendingApproval;
  seen : gset N;
  disk : Fs;
  janitor_degraded : bool }.

Definition set_pending (f : list PendingApproval → list PendingApproval) (a : Approvals) : Approvals :=
  mkApprovals (f (pending a)) (cmds a) (discovered a) (seen a) (disk a) (janitor_degraded a).
Definition set_disk (d : Fs) (a : Approvals) : Approvals :=
  mkApprovals (pending a) (cmds a) (discovered a) (seen a) d (janitor_degraded a).

(** A command goes to the janitor, if there is one. *)
Definition send_cmd (c : Cmd) (a : Approvals) : Approvals :=
  if janitor_degraded a then a
  else mkApprovals (pending a) (cmds a ++ [c]) (discovered a) (seen a) (disk a) (janitor_degraded a).

Definition APPROVAL_REQUEST_MAX_BYTES : N := (64 * 1024)%N.

Section approval.
Context (run_dir : path) (detached_job_id : option str) `{!Serde ApprovalRequest, !Serde ApprovalResponse}.

Definition job_dir_name (job_id : JobId) : str :=
  match detached_job_id with
  | Some daemon => if is_empty daemon then fmt_dec job_id else daemon ++ #"-" ++ fmt_dec job_id
  | None => fmt_dec job_id
  end.

Definition job_dir (job_id : JobId) : path := run_dir ++ [job_dir_name job_id].
Definition request_path (job_id : JobId) : path := job_dir job_id ++ [ #"approval.request.json"].
Definition response_path (job_id : JobId) : path := job_dir job_id ++ [ #"approval.response.json"].

(** *** The shell *)

Definition approvals_new (spawned : bool) (d : Fs) : Approvals :=
  mkApprovals [] [] [] ∅ (create_dir_all d).2 (negb spawned).

Definition is_degraded (a : Approvals) : bool := janitor_degraded a.

Definition create_job_dir (job_id : JobId) (a : Approvals) : path * Approvals :=
  (job_dir job_id, set_disk (create_dir_all (disk a)).2 a).

Definition has_pending (job_id : JobId) (l : list PendingApproval) : bool :=
  existsb (λ p, (pa_job p =? job_id)%N) l.

(** Takes what was discovered, one request per job: the new entries, and the queue. *)
Fixpoint drain (found queue : list PendingApproval) : list PendingApproval * list PendingApproval :=
  match found with
  | [] => ([], queue)
  | p :: found' =>
      if has_pending (pa_job p) queue then drain found' queue
      else let '(new, q) := drain found' (queue ++ [p]) in (p :: new, q)
  end.

Definition poll (active : list JobId) (a : Approvals) : list PendingApproval * Approvals :=
  let '(new, queue) := if janitor_degraded a then ([], pending a) else drain (discovered a) (pending a) in
  let a' := mkApprovals queue (cmds a) (if janitor_degraded a then discovered a else []) (seen a) (disk a)
              (janitor_degraded a) in
  (new, if is_empty active then a' else send_cmd (Scan active) a').

Fixpoint remove_first (job_id : JobId) (l : list PendingApproval) : option (PendingApproval * list PendingApproval) :=
  match l with
  | [] => None
  | p :: l' =>
      if (pa_job p =? job_id)%N then Some (p, l')
      else '(q, r) ← remove_first job_id l'; Some (q, p :: r)
  end.

Definition resolve (job_id : JobId) (yes : bool) (now : str) (a : Approvals)
  : result io_error PendingApproval * Approvals :=
  match remove_first job_id (pending a) with
  | None => (Err (OtherIo #"no pending approval for this job"), a)
  | Some (p, rest) =>
      let a := set_pending (λ _, rest) a in
      match pa_source p with
      | Hook => (Ok p, a)
      | File =>
          match ser (mkResponse yes now #"user") with
          | Err e => (Err (OtherIo e), a)
          | Ok text =>
              let '(r, d) := fs_write (pa_response_path p) text (disk a) in
              ((λ _, p) <$> r, set_disk d a)
          end
      end
  end.

Definition push_from_hook (job_id : JobId) (request : ApprovalRequest) (now : str) (a : Approvals) : bool * Approvals :=
  if has_pending job_id (pending a) then (false, a)
  else (true, set_pending (λ l, l ++ [mkPending job_id request (request_path job_id) (response_path job_id) now Hook]) a).

Definition cleanup_job (job_id : JobId) (a : Approvals) : Approvals :=
  send_cmd (Cleanup job_id) (set_pending (filter (λ p, pa_job p ≠ job_id)) a).

(** *** The janitor *)

Definition read_bounded_string (p : path) (cap : N) : M Fs io_error str :=
  file_open p;;
  t ← read_to_string p;
  if (cap <? byte_len t)%N then throw (OtherIo (#"approval.request.json exceeds " ++ fmt_dec cap ++ #"-byte cap"))
  else mret t.

(** One job of a scan: the request to send, if there is a new one. *)
Definition scan_job (job_id : JobId) (now : str) (d : Fs) : option PendingApproval * Fs :=
  if bool_decide (is_Some (fs_files d !! response_path job_id)) || negb (bool_decide (is_Some (fs_files d !! request_path job_id)))
  then (None, d)
  else match read_bounded_string (request_path job_id) APPROVAL_REQUEST_MAX_BYTES d with
       | (Err _, d') => (None, d')
       | (Ok content, d') =>
           match de content with
           | Err _ => (None, d')
           | Ok request => (Some (mkPending job_id request (request_path job_id) (response_path job_id) now File), d')
           end
       end.

Fixpoint scan_jobs (jobs : list JobId) (now : str) (sd : gset N * list PendingApproval * Fs)
  : gset N * list PendingApproval * Fs :=
  match jobs with
  | [] => sd
  | j :: jobs' =>
      let '(sn, out, d) := sd in
      if decide (j ∈ sn) then scan_jobs jobs' now (sn, out, d)
      else match scan_job j now d with
           | (None, d') => scan_jobs jobs' now (sn, out, d')
           | (Some p, d') => scan_jobs jobs' now ({[j]} ∪ sn, out ++ [p], d')
           end
  end.

(** [remove_dir_all] of a run directory. *)
Definition remove_tree (dir : path) : M Fs io_error unit :=
  syscall (modify (set_files (filter (λ kv, below dir kv.1 = false)))).

Definition janitor_step (now : str) (a : Approvals) : Approvals :=
  match cmds a with
  | [] => a
  | Scan jobs :: rest =>
      let sn := filter (λ i, i ∈ jobs) (seen a) in
      let '(sn', out, d) := scan_jobs jobs now (sn, [], disk a) in
      mkApprovals (pending a) rest (discovered a ++ out) sn' d (janitor_degraded a)
  | Cleanup j :: rest =>
      mkApprovals (pending a) rest (discovered a) (seen a ∖ {[j]}) (remove_tree (job_dir j) (disk a)).2 (janitor_degraded a)
  end.

(** *** Steps, in any order *)

Inductive label :=
| LWrite (p : path) (text : option str)
| LPoll (active : list JobId)
| LJanitor (now : str)
| LResolve (job : JobId) (yes : bool) (now : str)
| LHook (job : JobId) (request : ApprovalRequest) (now : str)
| LCleanup (job : JobId).

(** What a step shows to the person, and the state after it. An agent may write or remove
    any file. *)
Definition step (l : label) (a : Approvals) : list PendingApproval * Approvals :=
  match l with
  | LWrite p (Some t) => ([], set_disk (set_files <[p := t]> (disk a)) a)
  | LWrite p None => ([], set_disk (set_files (delete p) (disk a)) a)
  | LPoll active => poll active a
  | LJanitor now => ([], janitor_step now a)
  | LResolve j yes now => ([], (resolve j yes now a).2)
  | LHook j request now => ([], (push_from_hook j request now a).2)
  | LCleanup j => ([], cleanup_job j a)
  end.

Fixpoint run (ls : list label) (a : Approvals) : list PendingApproval * Approvals :=
  match ls with
  | [] => ([], a)
  | l :: ls' => let '(out, a1) := step l a in let '(out', a2) := run ls' a1 in (out ++ out', a2)
  end.
(** ** One request per job *)

Lemma has_pending_true j l : has_pending j l = true ↔ j ∈ map pa_job l.
Proof.
  unfold has_pending. rewrite existsb_exists, list_elem_of_fmap. split.
  - intros (p & Hp & E%N.eqb_eq). exists p. split; [done|by apply list_elem_of_In].
  - intros (p & -> & Hp). exists p. split; [by apply list_elem_of_In|apply N.eqb_refl].
Qed.

Lemma has_pending_false j l : has_pending j l = false ↔ j ∉ map pa_job l.
Proof. rewrite <- has_pending_true. by destruct (has_pending j l). Qed.

Lemma remove_first_Some j l p rest : remove_first j l = Some (p, rest) →
  ∃ a b, l = a ++ p :: b ∧ rest = a ++ b ∧ pa_job p = j.
Proof.
  revert rest. induction l as [|q l IH]; intros rest; [done|]. cbn [remove_first].
  destruct (N.eqb_spec (pa_job q) j); [intros [= <- <-]; by exists [], l|].
  intros ([q' r] & Hr & [= <- <-])%bind_Some. destruct (IH r Hr) as (a & b & -> & -> & Hj). by exists (q :: a), b.
Qed.

Definition one_each (l : list PendingApproval) : Prop := NoDup (map pa_job l).

Lemma one_each_snoc l p : one_each l → pa_job p ∉ map pa_job l → one_each (l ++ [p]).
Proof.
  intros Hl Hp. unfold one_each. rewrite map_app. apply list.NoDup_app. split_and!; [done| |apply NoDup_singleton].
  by intros x Hx ->%list_elem_of_singleton.
Qed.

Lemma one_each_drain found : ∀ queue, one_each queue → one_each (drain found queue).2.
Proof.
  induction found as [|p found IH]; intros queue Hq; [done|]. cbn [drain]. destruct (has_pending (pa_job p) queue) eqn:E.
  - by apply IH.
  - apply has_pending_false in E. pose proof (IH _ (one_each_snoc queue p Hq E)) as H1. by destruct (drain found _).
Qed.

Lemma one_each_sub a p b : one_each (a ++ p :: b) → one_each (a ++ b).
Proof.
  unfold one_each. rewrite !map_app. cbn [map]. intros (H1 & H2 & H3)%list.NoDup_app. apply list.NoDup_cons in H3 as [_ H3].
  apply list.NoDup_app. split_and!; [done| |done]. intros x Hx Hb. apply (H2 x Hx). by right.
Qed.

Lemma pending_send c a : pending (send_cmd c a) = pending a.
Proof. unfold send_cmd. by destruct (janitor_degraded a). Qed.

Lemma pending_janitor now a : pending (janitor_step now a) = pending a.
Proof. unfold janitor_step. destruct (cmds a) as [|[]]; [done| |done]. by destruct (scan_jobs _ _ _) as [[??]?]. Qed.

Lemma step_one_each l a : one_each (pending a) → one_each (pending (step l a).2).
Proof.
  intros Ha. destruct l as [p [t|]|active|now|j yes now|j r now|j]; cbn [step snd]; try done.
  - unfold poll. destruct (if janitor_degraded a then _ else _) as [new q] eqn:E.
    assert (one_each q) as Hq.
    { destruct (janitor_degraded a); [by injection E as _ <-|]. pose proof (one_each_drain (discovered a) _ Ha) as Hd. by rewrite E in Hd. }
    cbn [snd]. destruct (is_empty active); [done|]. by rewrite pending_send.
  - by rewrite pending_janitor.
  - unfold resolve. destruct (remove_first j (pending a)) as [[p rest]|] eqn:E; [|done].
    apply remove_first_Some in E as (x & y & E & -> & _). rewrite E in Ha. apply one_each_sub in Ha.
    destruct (pa_source p); [|done]. destruct (ser _); [|done]. by destruct (fs_write _ _ _).
  - unfold push_from_hook. destruct (has_pending j (pending a)) eqn:E; [done|]. apply has_pending_false in E. by apply one_each_snoc.
  - unfold cleanup_job. rewrite pending_send. cbn [pending set_pending]. induction (pending a) as [|p l IH]; [done|].
    apply list.NoDup_cons in Ha as [Hp Hl]. rewrite filter_cons. case_decide; [|by apply IH].
    unfold one_each. cbn [map]. apply list.NoDup_cons. split; [|by apply IH].
    intros (q & E & [_ Hq]%list_elem_of_filter)%list_elem_of_fmap. apply Hp. rewrite E. by apply list_elem_of_fmap_2.
Qed.

(** Whatever the order of scans, polls, hooks, answers and completions, a job has at
    most one request in the queue. *)
Theorem pending_unique ls a : one_each (pending a) → one_each (pending (run ls a).2).
Proof.
  revert a. induction ls as [|l ls IH]; intros a Ha; [done|]. cbn [run]. pose proof (step_one_each l a Ha) as Hs.
  destruct (step l a) as [out a1]. specialize (IH a1 Hs). by destruct (run ls a1).
Qed.

(** ** Only an answer makes a response *)

Lemma job_dir_name_inj i j : job_dir_name i = job_dir_name j → i = j.
Proof.
  unfold job_dir_name. destruct detached_job_id as [daemon|]; [destruct (is_empty daemon)|]; try apply fmt_dec_inj.
  intros E. apply (app_inv_head daemon), (app_inv_head #"-") in E. by apply fmt_dec_inj.
Qed.

Lemma response_path_inj i j : response_path i = response_path j → i = j.
Proof.
  unfold response_path, job_dir. rewrite <- !app_assoc. intros E%app_inv_head. injection E as E. by apply job_dir_name_inj.
Qed.

(** Every request in the shell answers in its own job's directory. *)
Definition own_paths (a : Approvals) : Prop :=
  Forall (λ p, pa_response_path p = response_path (pa_job p)) (pending a ++ discovered a).

Lemma scan_own jobs now : ∀ sd, Forall (λ p, pa_response_path p = response_path (pa_job p)) sd.1.2 →
  Forall (λ p, pa_response_path p = response_path (pa_job p)) (scan_jobs jobs now sd).1.2.
Proof.
  induction jobs as [|j jobs IH]; intros [[sn out] d] Ho; [done|]. cbn [scan_jobs]. case_decide; [by apply IH|].
  destruct (scan_job j now d) as [[p|] d'] eqn:E; [|by apply IH]. apply IH. cbn [fst snd] in *.
  apply list.Forall_app. split; [done|]. apply list.Forall_singleton. unfold scan_job in E. destruct (_ || _); [done|].
  destruct (read_bounded_string _ _ _) as [[c|] ?]; [|done]. destruct (de c); [|done]. by injection E as <- _.
Qed.

Lemma drain_sub found : ∀ queue p, p ∈ (drain found queue).2 → p ∈ queue ++ found.
Proof.
  induction found as [|q found IH]; intros queue p; [by rewrite app_nil_r|]. cbn [drain].
  destruct (has_pending (pa_job q) queue).
  - intros Hp%IH. set_solver.
  - pose proof (IH (queue ++ [q]) p) as H1. destruct (drain found (queue ++ [q])). cbn [snd] in *. intros Hp%H1. set_solver.
Qed.

Lemma step_own l a : own_paths a → own_paths (step l a).2.
Proof.
  unfold own_paths. intros Ha. destruct l as [p [t|]|active|now|j yes now|j r now|j]; cbn [step snd]; try done.
  - unfold poll, send_cmd. destruct (janitor_degraded a) eqn:Ed; [by destruct (is_empty active); cbn; rewrite ?Ed|].
    pose proof (drain_sub (discovered a) (pending a)) as Hd. destruct (drain (discovered a) (pending a)) as [new q]. cbn [snd] in Hd.
    assert (Forall (λ p, pa_response_path p = response_path (pa_job p)) (q ++ [])) as Hq.
    { rewrite app_nil_r. rewrite list.Forall_forall in Ha |- *. intros p Hp. by apply Ha, Hd. }
    by destruct (is_empty active); cbn; rewrite ?Ed.
  - unfold janitor_step. destruct (cmds a) as [|[jobs|j] rest]; [done| |done].
    pose proof (scan_own jobs now (filter (λ i, i ∈ jobs) (seen a), [], disk a)) as Hs.
    destruct (scan_jobs jobs now _) as [[sn out] d]. cbn [fst snd pending discovered] in *. rewrite app_assoc.
    apply list.Forall_app. split; [done|]. apply Hs. constructor.
  - unfold resolve. destruct (remove_first j (pending a)) as [[p rest]|] eqn:E; [|done].
    apply remove_first_Some in E as (x & y & E & -> & _). rewrite E in Ha.
    assert (Forall (λ p, pa_response_path p = response_path (pa_job p)) ((x ++ y) ++ discovered a)) as Hr.
    { apply list.Forall_app in Ha as [[Hx [_ Hy]%list.Forall_cons]%list.Forall_app Hd]. by rewrite !list.Forall_app. }
    destruct (pa_source p); [|done]. destruct (ser _); [|done]. by destruct (fs_write _ _ _).
  - unfold push_from_hook. destruct (has_pending j (pending a)); [done|]. cbn. rewrite <- app_assoc.
    apply list.Forall_app in Ha as [Hp Hd]. apply list.Forall_app. split; [done|]. by apply list.Forall_cons_2.
  - unfold cleanup_job, send_cmd. cbn [janitor_degraded set_pending].
    assert (Forall (λ p, pa_response_path p = response_path (pa_job p)) (filter (λ p, pa_job p ≠ j) (pending a) ++ discovered a)).
    { apply list.Forall_app in Ha as [Hp Hd]. apply list.Forall_app. split; [|done].
      rewrite list.Forall_forall in Hp |- *. intros p [_ ?]%list_elem_of_filter. by apply Hp. }
    by destruct (janitor_degraded a).
Qed.
(** *** Files *)

Lemma read_bounded_files p cap : files_kept (read_bounded_string p cap).
Proof.
  apply files_kept_bind; [by apply files_kept_syscall|]. intros []. apply files_kept_bind; [by apply files_kept_syscall|].
  intros t. by destruct (cap <? byte_len t)%N.
Qed.

Lemma scan_job_files j now d : fs_files (scan_job j now d).2 = fs_files d.
Proof.
  unfold scan_job. destruct (_ || _); [done|].
  pose proof (read_bounded_files (request_path j) APPROVAL_REQUEST_MAX_BYTES d) as H1.
  destruct (read_bounded_string _ _ _) as [[c|] d']; [|done]. by destruct (de c).
Qed.

Lemma scan_jobs_files jobs now : ∀ sd, fs_files (scan_jobs jobs now sd).2 = fs_files sd.2.
Proof.
  induction jobs as [|j jobs IH]; intros [[sn out] d]; [done|]. cbn [scan_jobs]. case_decide; [by rewrite IH|].
  pose proof (scan_job_files j now d) as Hf. destruct (scan_job j now d) as [[p|] d']; rewrite IH; done.
Qed.

Lemma disk_send c a : disk (send_cmd c a) = disk a.
Proof. unfold send_cmd. by destruct (janitor_degraded a). Qed.

(** What a text written over a file may leave, if the writing fails halfway. *)
Lemma fs_write_leaves p text d t : fs_files (fs_write p text d).2 !! p = Some t →
  fs_files d !! p = Some t ∨ ∃ k, t = take k text.
Proof.
  unfold fs_write, file_create, mbind, M_bind.
  destruct (syscall_cases (modify (set_files <[p := []]>)) d) as [(d' & Hd & ->)|(d' & msg & Hd & ->)]; cbn [fst snd modify].
  2: { rewrite Hd. by left. }
  unfold write_all. destruct (next_fault _) as [[|k msg] d2] eqn:En; apply next_fault_files in En;
    cbn [snd set_files fs_files] in *; unfold append_text; rewrite En, lookup_insert_eq, lookup_insert_eq; intros [= <-]; right.
  - exists (length text). by rewrite firstn_all.
  - by exists k.
Qed.

Lemma fs_write_frame p text d q : q ≠ p → fs_files (fs_write p text d).2 !! q = fs_files d !! q.
Proof.
  intros Hq. apply (touches_bind (λ q, q = p) (file_create p) (λ _, write_all p text)); [|intros []|done];
    eauto with orkia.
Qed.

(** The text of an answer, whole or cut short. *)
Definition answer_of (yes : bool) (now : str) (t : str) : Prop :=
  ∃ text k, ser (mkResponse yes now #"user") = Ok text ∧ t = take k text.

Lemma step_response l a j t : own_paths a → fs_files (disk (step l a).2) !! response_path j = Some t →
  fs_files (disk a) !! response_path j = Some t ∨ l = LWrite (response_path j) (Some t) ∨
  ∃ yes now, l = LResolve j yes now ∧ answer_of yes now t.
Proof.
  intros Ha. destruct l as [p [u|]|active|now|i yes now|i r now|i]; cbn [step snd].
  - cbn. destruct (decide (p = response_path j)) as [->|Hp].
    + rewrite lookup_insert_eq. intros [= ->]. by right; left.
    + rewrite lookup_insert_ne by done. by left.
  - cbn. intros [_ ?]%lookup_delete_Some. by left.
  - unfold poll. destruct (if janitor_degraded a then _ else _). cbn [snd].
    destruct (is_empty active); rewrite ?disk_send; by left.
  - unfold janitor_step. destruct (cmds a) as [|[jobs|i] rest]; [by left| |].
    + pose proof (scan_jobs_files jobs now (filter (λ i, i ∈ jobs) (seen a), [], disk a)) as Hf.
      destruct (scan_jobs jobs now _) as [[sn out] d]. cbn [snd disk] in *. rewrite Hf. by left.
    + cbn [disk]. unfold remove_tree.
      destruct (syscall_cases (modify (set_files (filter (λ kv, below (job_dir i) kv.1 = false)))) (disk a))
        as [(d & Hd & ->)|(d & msg & Hd & ->)]; cbn [snd modify set_files fs_files]; rewrite Hd; [|by left].
      intros [? _]%map_lookup_filter_Some. by left.
  - unfold resolve. destruct (remove_first i (pending a)) as [[p rest]|] eqn:E; [|by left].
    apply remove_first_Some in E as (x & y & E & -> & Hj). destruct (pa_source p); [|by left].
    destruct (ser (mkResponse yes now #"user")) as [text|] eqn:Es; [|by left].
    assert (pa_response_path p = response_path i) as Hp.
    { unfold own_paths in Ha. rewrite list.Forall_forall in Ha. rewrite (Ha p); [by rewrite Hj|]. rewrite E. set_solver. }
    pose proof (fs_write_leaves (response_path i) text (disk a) t) as Hw.
    pose proof (fs_write_frame (response_path i) text (disk a) (response_path j)) as Hfr.
    rewrite Hp. cbn [disk set_pending]. destruct (fs_write (response_path i) text (disk a)) as [r d]. cbn [snd disk set_disk] in *.
    destruct (decide (i = j)) as [->|Hij].
    + intros [?|[k ->]]%Hw; [by left|]. right. right. exists yes, now. split; [done|]. by exists text, k.
    + rewrite Hfr; [by left|]. by intros ->%response_path_inj.
  - unfold push_from_hook. destruct (has_pending i (pending a)); by left.
  - unfold cleanup_job. rewrite disk_send. by left.
Qed.

Lemma run_own ls a : own_paths a → own_paths (run ls a).2.
Proof.
  revert a. induction ls as [|l ls IH]; intros a Ha; [done|]. cbn [run]. pose proof (step_own l a Ha) as Hs.
  destruct (step l a) as [out a1]. specialize (IH a1 Hs). by destruct (run ls a1).
Qed.

(** C15: A response in a job's run directory is one that was there, one that an agent wrote
    itself, or a person's answer to that very job: no scan, poll, hook or completion, and
    no answer to another job, ever approves anything. A write that fails leaves a part of
    the answer. *)
Theorem response_is_an_answer ls a j t :
  own_paths a → fs_files (disk (run ls a).2) !! response_path j = Some t →
  fs_files (disk a) !! response_path j = Some t ∨ LWrite (response_path j) (Some t) ∈ ls ∨
  ∃ yes now, LResolve j yes now ∈ ls ∧ answer_of yes now t.
Proof.
  revert a. induction ls as [|l ls IH]; intros a Ha; [by left|]. cbn [run]. pose proof (step_own l a Ha) as Hs.
  pose proof (step_response l a j t Ha) as Hr. destruct (step l a) as [out a1]. specialize (IH a1 Hs).
  destruct (run ls a1) as [out' a2]. cbn [snd] in *. intros [H1|[H1|(yes & now & H1 & Hans)]]%IH.
  - destruct (Hr H1) as [?|[->|(yes & now & -> & Hans)]]; [by left|right; left; by left|].
    right. right. exists yes, now. split; [by left|done].
  - right. left. by right.
  - right. right. exists yes, now. split; [by right|done].
Qed.

(** ** A second request of the same job *)

(** The janitor knows the job, and nothing under way will make it forget. *)
Definition known (j : JobId) (a : Approvals) : Prop :=
  j ∈ seen a ∧ (j ∉ map pa_job (discovered a)) ∧
  Forall (λ c, match c with Scan jobs => j ∈ jobs | Cleanup i => i ≠ j end) (cmds a).

(** The job stays active. *)
Definition stays (j : JobId) (l : label) : Prop :=
  match l with LPoll active => j ∈ active | LCleanup i => i ≠ j | _ => True end.

Lemma scan_known jobs now j : ∀ sd, j ∈ sd.1.1 → j ∉ map pa_job sd.1.2 →
  j ∈ (scan_jobs jobs now sd).1.1 ∧ j ∉ map pa_job (scan_jobs jobs now sd).1.2.
Proof.
  induction jobs as [|i jobs IH]; intros [[sn out] d] Hs Ho; [done|]. cbn [scan_jobs]. case_decide as Hi; [by apply IH|].
  destruct (scan_job i now d) as [[p|] d'] eqn:E; [|by apply IH]. apply IH; cbn [fst snd] in *; [set_solver|].
  rewrite map_app, not_elem_of_app. split; [done|]. unfold scan_job in E. destruct (_ || _); [done|].
  destruct (read_bounded_string _ _ _) as [[c|] ?]; [|done]. destruct (de c); [|done]. injection E as <- _.
  cbn [map pa_job]. set_solver.
Qed.

Lemma known_send j c a : match c with Scan jobs => j ∈ jobs | Cleanup i => i ≠ j end → known j a → known j (send_cmd c a).
Proof.
  intros Hc (H1 & H2 & H3). unfold send_cmd. destruct (janitor_degraded a); [done|]. split_and!; try done.
  apply list.Forall_app. split; [done|]. by apply list.Forall_singleton.
Qed.

Lemma drain_new found : ∀ queue p, p ∈ (drain found queue).1 → p ∈ found.
Proof.
  induction found as [|q found IH]; intros queue p; [done|]. cbn [drain]. destruct (has_pending (pa_job q) queue).
  - intros Hp%IH. by right.
  - pose proof (IH (queue ++ [q]) p) as H1. destruct (drain found (queue ++ [q])). cbn [fst] in *.
    intros [->|Hp]%elem_of_cons; [by left|]. right. by apply H1.
Qed.

Lemma step_known l a j : known j a → stays j l → known j (step l a).2 ∧ j ∉ map pa_job (step l a).1.
Proof.
  intros Hk Hl. destruct Hk as (H1 & H2 & H3) eqn:Ek. clear Ek.
  destruct l as [p [u|]|active|now|i yes now|i r now|i]; cbn [step fst snd]; try (split; [|by intros ?%not_elem_of_nil]).
  - done.
  - done.
  - unfold poll. destruct (janitor_degraded a) eqn:Ed.
    + cbn [fst snd]. split; [|by intros ?%not_elem_of_nil]. destruct (is_empty active); [done|]. by apply known_send.
    + pose proof (drain_new (discovered a) (pending a)) as Hn. destruct (drain (discovered a) (pending a)) as [new q]. cbn [fst snd] in *.
      assert (known j (mkApprovals q (cmds a) [] (seen a) (disk a) false)) as Hk'
        by (split_and!; [done|by intros ?%not_elem_of_nil|done]).
      split; [destruct (is_empty active); [done|by apply known_send]|].
      intros (p & -> & Hp%Hn)%list_elem_of_fmap. apply H2. by apply list_elem_of_fmap_2.
  - unfold janitor_step. destruct (cmds a) as [|[jobs|i] rest] eqn:Ec; [by split_and!; rewrite ?Ec|..]; apply list.Forall_cons in H3 as [Hc H3].
    + pose proof (scan_known jobs now j (filter (λ i, i ∈ jobs) (seen a), [], disk a)) as Hs.
      destruct (scan_jobs jobs now _) as [[sn out] d]. cbn [fst snd] in Hs. destruct Hs as [Hs1 Hs2].
      { by apply elem_of_filter. } { by intros ?%not_elem_of_nil. }
      split_and!; [done| |done]. cbn [discovered]. rewrite map_app, not_elem_of_app. done.
    + split_and!; [|done|done]. cbn [seen]. set_solver.
  - unfold resolve. destruct (remove_first i (pending a)) as [[p rest]|]; [|done]. destruct (pa_source p); [|done].
    destruct (ser _); [|done]. by destruct (fs_write _ _ _).
  - unfold push_from_hook. by destruct (has_pending i (pending a)).
  - unfold cleanup_job. by apply known_send.
Qed.

(** After the janitor has passed on a job's request, no other request of that job is
    ever shown while the job stays active: not after the first was answered and the agent
    has removed both files and written a new request, and not when the answer could not
    be written, so that the agent waits for ever. *)
Theorem second_request_hidden ls a j :
  known j a → Forall (stays j) ls → j ∉ map pa_job (run ls a).1.
Proof.
  intros Hk HF. revert a Hk. induction HF as [|l ls Hl HF IH]; intros a Hk; [by intros ?%not_elem_of_nil|].
  cbn [run]. destruct (step_known l a j Hk Hl) as [Hk' Ho]. destruct (step l a) as [out a1]. specialize (IH a1 Hk').
  destruct (run ls a1) as [out' a2]. cbn [fst] in *. rewrite map_app, not_elem_of_app. done.
Qed.

(** ** A first request is shown *)

(** A request that can be read, without a response, on a disk that works. *)
Definition asked (j : JobId) (r : ApprovalRequest) (d : Fs) : Prop :=
  fs_faults d = [] ∧ fs_files d !! response_path j = None ∧
  ∃ t, fs_files d !! request_path j = Some t ∧ (byte_len t ≤ APPROVAL_REQUEST_MAX_BYTES)%N ∧ de t = Ok r.

Lemma no_fault d : fs_faults d = [] → d = mkFs (fs_files d) [].
Proof. destruct d. cbn. by intros ->. Qed.

Lemma read_no_fault p cap d : fs_faults d = [] → (read_bounded_string p cap d).2 = d.
Proof.
  intros Hd. rewrite (no_fault d Hd). unfold read_bounded_string, file_open, read_to_string, mbind, M_bind.
  rewrite ?syscall_no_fault. cbn [fs_files]. destruct (fs_files d !! p) as [t|]; cbn; [|done]. rewrite ?syscall_no_fault. cbn.
  by destruct (cap <? byte_len t)%N.
Qed.

Lemma scan_job_disk i now d : fs_faults d = [] → (scan_job i now d).2 = d.
Proof.
  intros Hd. unfold scan_job. destruct (_ || _); [done|]. pose proof (read_no_fault (request_path i) APPROVAL_REQUEST_MAX_BYTES d Hd) as Hr.
  destruct (read_bounded_string _ _ _) as [[c|] d']; [|done]. by destruct (de c).
Qed.

Lemma scan_job_asked j r now d : asked j r d →
  (scan_job j now d).1 = Some (mkPending j r (request_path j) (response_path j) now File).
Proof.
  intros (Hd & Hn & t & Ht & Hb & Hde). unfold scan_job. rewrite Hn, Ht. cbn.
  rewrite (no_fault d Hd). unfold read_bounded_string, file_open, read_to_string, mbind, M_bind.
  rewrite ?syscall_no_fault. cbn. rewrite ?Ht. cbn. rewrite ?Ht. cbn.
  destruct (N.ltb_spec APPROVAL_REQUEST_MAX_BYTES (byte_len t)) as [Hlt|_]; [lia|]. cbn. by rewrite Hde.
Qed.

Lemma scan_keeps jobs now : ∀ sd p, p ∈ sd.1.2 → p ∈ (scan_jobs jobs now sd).1.2.
Proof.
  induction jobs as [|j jobs IH]; intros [[sn out] d] p Hp; [done|]. cbn [scan_jobs]. case_decide; [by apply IH|].
  destruct (scan_job j now d) as [[q|] d']; apply IH; cbn [fst snd] in *; set_solver.
Qed.

Lemma scan_finds jobs now j r : ∀ sd, j ∈ jobs → j ∉ sd.1.1 → asked j r sd.2 → j ∉ map pa_job sd.1.2 →
  (∃ p, p ∈ (scan_jobs jobs now sd).1.2 ∧ pa_job p = j) ∧
  ∀ p, p ∈ (scan_jobs jobs now sd).1.2 → pa_job p = j → pa_request p = r.
Proof.
  induction jobs as [|i jobs IH]; intros [[sn out] d] Hj Hs Ha Ho; [by apply not_elem_of_nil in Hj|]. cbn [fst snd] in *.
  cbn [scan_jobs]. destruct (decide (i = j)) as [->|Hij].
  - rewrite decide_False by done. pose proof (scan_job_asked j r now d Ha) as Hp.
    destruct (scan_job j now d) as [op d'] eqn:E. cbn [fst] in Hp. subst op.
    set (p := mkPending _ _ _ _ _ _). split.
    + exists p. split; [|done]. apply scan_keeps. cbn. set_solver.
    + intros q Hq Hqj. assert (∀ sd, j ∈ sd.1.1 → (∀ q, q ∈ sd.1.2 → pa_job q = j → pa_request q = r) →
        ∀ q, q ∈ (scan_jobs jobs now sd).1.2 → pa_job q = j → pa_request q = r) as Hrest.
      { clear. induction jobs as [|i jobs IH]; intros [[sn out] d] Hs Ho; [done|]. cbn [scan_jobs]. case_decide; [by apply IH|].
        destruct (scan_job i now d) as [[p|] d'] eqn:E; [|by apply IH]. apply IH; cbn [fst snd] in *; [set_solver|].
        intros q [Hq|Hq]%elem_of_app; [by apply Ho|]. apply list_elem_of_singleton in Hq as ->. unfold scan_job in E.
        destruct (_ || _); [done|]. destruct (read_bounded_string _ _ _) as [[c|] ?]; [|done]. destruct (de c); [|done].
        injection E as <- _. cbn. intros ->. done. }
      apply (Hrest ({[j]} ∪ sn, out ++ [p], d')); [cbn; set_solver| |done|done]. cbn [fst snd].
      intros q' [Hq'|Hq']%elem_of_app; [|by apply list_elem_of_singleton in Hq' as ->].
      intros Eq'. destruct Ho. rewrite <- Eq'. by apply list_elem_of_fmap_2.
  - assert (j ∈ jobs) as Hj' by set_solver. case_decide; [by apply IH|].
    pose proof (scan_job_disk i now d (proj1 Ha)) as Hd. destruct (scan_job i now d) as [[p|] d'] eqn:E; cbn [snd] in Hd; subst d';
      [|by apply IH]. apply IH; cbn [fst snd]; [done|set_solver|done|].
    rewrite map_app, not_elem_of_app. split; [done|]. unfold scan_job in E. destruct (_ || _); [done|].
    destruct (read_bounded_string _ _ _) as [[c|] ?]; [|done]. destruct (de c); [|done]. injection E as <- _. cbn. set_solver.
Qed.

Lemma drain_keeps found : ∀ queue p, p ∈ queue → p ∈ (drain found queue).2.
Proof.
  induction found as [|q found IH]; intros queue p Hp; [done|]. cbn [drain]. destruct (has_pending (pa_job q) queue); [by apply IH|].
  pose proof (IH (queue ++ [q]) p) as H1. destruct (drain found (queue ++ [q])). apply H1. set_solver.
Qed.

Lemma drain_finds found : ∀ queue j, j ∈ map pa_job found → j ∉ map pa_job queue →
  ∃ p, p ∈ found ∧ p ∈ (drain found queue).1 ∧ p ∈ (drain found queue).2 ∧ pa_job p = j.
Proof.
  induction found as [|q found IH]; intros queue j Hj Hq; [by apply not_elem_of_nil in Hj|]. cbn [drain].
  cbn [map] in Hj. destruct (decide (pa_job q = j)) as [Eq|Nq].
  - rewrite (proj2 (has_pending_false (pa_job q) queue)) by (by rewrite Eq). exists q.
    pose proof (drain_keeps found (queue ++ [q]) q) as H1. destruct (drain found (queue ++ [q])). cbn in *.
    split_and!; [by left|by left|apply H1; set_solver|done].
  - assert (j ∈ map pa_job found) as Hj' by set_solver. destruct (has_pending (pa_job q) queue).
    + destruct (IH queue j Hj' Hq) as (p & ? & ? & ? & ?). exists p. split_and!; [by right|done..].
    + destruct (IH (queue ++ [q]) j Hj') as (p & ? & H1 & H2 & ?). { rewrite map_app. cbn. set_solver. }
      destruct (drain found (queue ++ [q])). cbn in *. exists p. split_and!; [by right|by right|done|done].
Qed.

(** A request that an active job writes is shown: with the disk working and nothing of
    the job in the queue or in the janitor's memory, the second of two polls, with the
    janitor at work between them, shows it with its own contents and queues it. *)
Theorem request_shown a j r active now :
  janitor_degraded a = false → cmds a = [] → discovered a = [] → j ∉ seen a → j ∉ map pa_job (pending a) →
  asked j r (disk a) → j ∈ active →
  ∃ p, p ∈ (run [LPoll active; LJanitor now; LPoll active] a).1 ∧ pa_job p = j ∧ pa_request p = r ∧
       p ∈ pending (run [LPoll active; LJanitor now; LPoll active] a).2.
Proof.
  intros Hd Hc Hf Hs Hp Ha Hact. destruct a as [q cs fd sn dk dg]. cbn in Hd, Hc, Hf, Hs, Hp, Ha. subst dg cs fd.
  assert (is_empty active = false) as Hne by (destruct active; [by apply not_elem_of_nil in Hact|done]).
  cbn [run step]. unfold poll at 1 3. cbn [janitor_degraded discovered drain]. rewrite !Hne.
  unfold send_cmd. cbn [janitor_degraded cmds app]. unfold janitor_step. cbn [cmds seen disk pending discovered].
  destruct (scan_finds active now j r (filter (λ i, i ∈ active) sn, [], dk)) as [(p & Hp1 & Hp2) Hall]; cbn [fst snd].
  { done. } { set_solver. } { done. } { by intros ?%not_elem_of_nil. }
  destruct (scan_jobs active now _) as [[sn' out] d]. cbn [fst snd] in *. unfold poll. cbn [janitor_degraded discovered pending app].
  rewrite Hne. destruct (drain_finds out q j) as (p' & Hin & H1 & H2 & H3); [rewrite <- Hp2; by apply list_elem_of_fmap_2|done|].
  destruct (drain out q) as [new q']. cbn in *. exists p'. rewrite app_nil_r. split_and!; [done|done|by apply Hall|done].
Qed.
End approval.

(** ** A run with one job *)

Definition sample_request : ApprovalRequest := mkRequest #"write" None (Some #"high") None None.

#[local] Instance sample_request_serde : Serde ApprovalRequest := table_serde [sample_request].
#[local] Instance sample_response_serde : Serde ApprovalResponse :=
  {| ser r := Ok (if approved r then #"yes" else #"no"); de _ := Err #"unread" |}.

Definition sample_run_dir : path := [ #"run"].

Definition sample_approvals : Approvals :=
  mkApprovals [] [] [] ∅
    (mkFs {[request_path sample_run_dir None 7%N := default [] (to_option (ser sample_request))]} []) false.

Lemma sample_asked : asked sample_run_dir None 7%N sample_request (disk sample_approvals).
Proof. split; [done|]. split; [by vm_compute|]. eexists. split; [by vm_compute|]. split; by vm_compute. Qed.

Lemma request_shown_witness :
  ∃ p, p ∈ (run sample_run_dir None [LPoll [7%N]; LJanitor #"t"; LPoll [7%N]] sample_approvals).1 ∧ pa_job p = 7%N ∧
       pa_request p = sample_request.
Proof.
  destruct (request_shown sample_run_dir None sample_approvals 7%N sample_request [7%N] #"t") as (p & H1 & H2 & H3 & _);
    try reflexivity.
  - apply not_elem_of_empty.
  - apply not_elem_of_nil.
  - exact sample_asked.
  - apply list_elem_of_singleton. reflexivity.
  - exists p. split; [exact H1|]. split; [exact H2|exact H3].
Defined.

Lemma pending_unique_witness :
  one_each (pending (run sample_run_dir None [LPoll [7%N]; LJanitor #"t"; LPoll [7%N]; LHook 7%N sample_request #"u"] sample_approvals).2).
Proof. apply pending_unique. apply NoDup_nil_2. Defined.

(** The state after a person has answered the first request. *)
Definition answered : Approvals :=
  (run sample_run_dir None [LPoll [7%N]; LJanitor #"t"; LPoll [7%N]; LJanitor #"t"; LResolve 7%N true #"u"] sample_approvals).2.

Lemma response_is_an_answer_witness :
  ∃ t, fs_files (disk answered) !! response_path sample_run_dir None 7%N = Some t ∧
    ∃ yes now, LResolve 7%N yes now ∈ [LPoll [7%N]; LJanitor #"t"; LPoll [7%N]; LJanitor #"t"; LResolve 7%N true #"u"] ∧
               answer_of yes now t.
Proof.
  assert (fs_files (disk answered) !! response_path sample_run_dir None 7%N = Some #"yes") as E by (vm_compute; reflexivity).
  exists #"yes". split; [exact E|].
  destruct (response_is_an_answer sample_run_dir None
    [LPoll [7%N]; LJanitor #"t"; LPoll [7%N]; LJanitor #"t"; LResolve 7%N true #"u"] sample_approvals 7%N #"yes")
    as [H|[H|H]].
  - apply list.Forall_nil_2.
  - exact E.
  - vm_compute in H. discriminate H.
  - exfalso. repeat (apply elem_of_cons in H as [H|H]; [discriminate H|]). by apply not_elem_of_nil in H.
  - exact H.
Defined.

(** The agent then removes both files and asks again. *)
Lemma second_request_hidden_witness :
  known 7%N answered ∧
  7%N ∉ map pa_job
    (run sample_run_dir None
       [LWrite (response_path sample_run_dir None 7%N) None;
        LWrite (request_path sample_run_dir None 7%N) (Some (default [] (to_option (ser sample_request))));
        LPoll [7%N]; LJanitor #"v"; LPoll [7%N]; LJanitor #"v"; LPoll [7%N]] answered).1.
Proof.
  assert (known 7%N answered) as Hk.
  { split; [apply (bool_decide_unpack _); vm_compute; exact I|]. split; [apply (bool_decide_unpack _); vm_compute; exact I|].
    apply (list.Forall_nil_2). }
  split; [exact Hk|]. apply second_request_hidden; [exact Hk|].
  repeat apply list.Forall_cons_2; try apply list.Forall_nil_2; try exact I; apply list_elem_of_singleton; reflexivity.
Defined.
