(* ===== verification/Resolution.v ===== *)
(** * Answers to approvals ([orkia-shell/src/repl/approval.rs])

    What the shell does with the requests a poll returns, and with [approve] and [deny]:
    the queue's answer, then the attention queue, the audit record, the keystroke for a
    request that came by a hook, the journal, and the promotion of an RFC that was asked
    for. Each operation returns what it shows and the effects it has on other components,
    in order. The terminal, the prompt detector's state, the workspace and the RFC
    service's answer are arguments. *)
From Stdlib Require Import NArith ZArith Lia.
From stdpp Require Import base gmap strings option numbers list list_basics.
From S2P Require Import Prelude Text Effects Json Fs Journal Terminal Jobs Approval.

Inductive BlockContent :=
| SystemInfo (s : str) | TextBlock (s : str) | ErrorBlock (s : str) | ApprovalCard (agent action risk : str)
| SealRow (seq : N) (agent event hash_short : str).

Inductive Outcome :=
| OError (msg : str) | OUsageError (msg : str) | OBlocks (l : list BlockContent)
| OShellComplete (exit_code : Z) (output : str).

Inductive effect :=
| EBlockingApproval (job : JobId) (agent action risk : str)
| EAttentionResolved (job : JobId)
| EAudit (job : JobId) (agent name : str) (data : json)
| EPty (job : JobId) (bytes : str)
| EPromptResolved (job : JobId)
| EJournal (e : JournalEnvelope)
| EPromote (project slug : str).

(** The components around: the label of a job, a write to its terminal, the state of its
    detected prompt, whether a project is known, and the answer of the RFC service. *)
Record Around := mkAround {
  job_label : JobId → option str;
  write_to_pty : JobId → str → result str unit;
  prompt_state : JobId → option PendingState;
  project_known : str → bool;
  promote_rfc : str → str → result str str }.

Section resolution.
Context (w : Around) `{!Serde ApprovalRequest, !Serde ApprovalResponse}.

(** *** New requests *)

Definition risk_of (r : ApprovalRequest) : str := default #"unknown" (risk r).

Definition job_name (id : JobId) : str := #"job:" ++ fmt_dec id.

Definition render_approval_card (p : PendingApproval) : list BlockContent :=
  [ApprovalCard (job_name (pa_job p)) (action (pa_request p)) (risk_of (pa_request p))] ++
  match description (pa_request p) with Some d => [SystemInfo (#"  " ++ d)] | None => [] end ++
  map (λ f, TextBlock (#"  " ++ f)) (default [] (files_changed (pa_request p))).

Definition announce (p : PendingApproval) : effect * list BlockContent :=
  let id := pa_job p in
  (EBlockingApproval id (default (job_name id) (job_label w id)) (action (pa_request p)) (risk_of (pa_request p)),
   render_approval_card p ++
   [SystemInfo (#"  use 'orkia approve " ++ fmt_dec id ++ #"' or 'orkia deny " ++ fmt_dec id ++ #"' to respond")]).

Definition is_active (s : JobState) : bool := match s with Running | Foreground => true | _ => false end.

Definition poll_approvals (jobs : list (JobId * JobState)) (a : Approvals)
  : list (effect * list BlockContent) * Approvals :=
  let active := map fst (filter (λ js, is_active js.2 = true) jobs) in
  let '(new, a') := poll active a in
  (map announce new, a').

(** *** Answers *)

Definition verb (yes : bool) : str := if yes then #"approved" else #"denied".

Definition audit_data (id : JobId) (act : str) (yes : bool) : json :=
  json_obj [(#"job_id", jnat id); (#"action", JStr act); (#"approved", JBool yes)].

Definition resolution_envelope (now : str) (id : JobId) (act : str) (yes : bool) : JournalEnvelope :=
  mkJournalEnvelope ETSeal now None (Some id) None (Some #"orkia") None (Some #"approval.resolved") None None None
    (Some act) None (Some (verb yes)) None None None None None None None None None [].

Definition resolve_detector_pending (now : str) (id : JobId) (yes : bool) : Outcome * list effect :=
  let bytes := if yes then [chr_cr] else #"q" in
  match write_to_pty w id bytes with
  | Err e => (OError (#"approve: pty write failed: " ++ e), [EPty id bytes])
  | Ok _ =>
      (OBlocks [SystemInfo ([10003%N] ++ #" [" ++ fmt_dec id ++ #"] " ++ verb yes ++ #" (detector prompt)")],
       [EPty id bytes; EPromptResolved id;
        EAudit id (default [] (job_label w id)) #"approval" (audit_data id #"detector.prompt" yes);
        EJournal (resolution_envelope now id #"detector.prompt" yes)])
  end.

Definition parse_resolution_target (args : list str) : option JobId := head args ≫= parse_u32.

Definition handle_resolution_empty (now : str) (args : list str) (yes : bool) : Outcome * list effect :=
  match parse_resolution_target args with
  | Some id =>
      match prompt_state w id with
      | Some WaitingForBoot | Some WaitingForApproval => resolve_detector_pending now id yes
      | _ => (OBlocks [SystemInfo #"no pending approvals"], [])
      end
  | None => (OBlocks [SystemInfo #"no pending approvals"], [])
  end.

Definition list_pending_blocks (l : list PendingApproval) : list BlockContent :=
  [SystemInfo (fmt_dec (N.of_nat (length l)) ++ #" pending approval(s)")] ++
  map (λ p, ApprovalCard (job_name (pa_job p)) (action (pa_request p)) (risk_of (pa_request p))) l ++
  [SystemInfo #"use 'orkia approve <job_id>' or 'orkia deny <job_id>' to respond"].

Definition maybe_rfc_promote (yes : bool) (act : str) (rfc : option json) : option BlockContent * list effect :=
  match
    (if negb yes || negb (bool_decide (act = #"rfc.promote")) then None
     else meta ← rfc;
          slug ← jget #"slug" meta ≫= as_str;
          project ← jget #"project" meta ≫= as_str;
          if project_known w project then Some (project, slug) else None)
  with
  | None => (None, [])
  | Some (project, slug) =>
      (Some (match promote_rfc w project slug with
             | Ok state => SystemInfo (#"rfc " ++ slug ++ #" promoted: now " ++ state)
             | Err e => ErrorBlock (#"approve accepted but promote failed: " ++ e)
             end),
       [EAudit 0%N [] #"rfc.approved"
          (json_obj [(#"rfc_id", JStr slug); (#"project", JStr project); (#"operation", JStr #"promote");
                     (#"approver", JStr #"human")]);
        EPromote project slug])
  end.

Definition emit_resolution (now : str) (id : JobId) (yes : bool) (act : str) (rfc : option json) (p : PendingApproval)
  : Outcome * list effect :=
  let '(block, promotion) := maybe_rfc_promote yes act rfc in
  (OBlocks (SystemInfo ([10003%N] ++ #" [" ++ fmt_dec id ++ #"] " ++ verb yes ++ #" " ++ [183%N] ++ #" SEAL record created")
            :: option_list block),
   [EAudit id (default [] (job_label w id)) #"approval" (audit_data id act yes)] ++
   match pa_source p with Hook => [EPty id (if yes then #"y" ++ [chr_nl] else #"n" ++ [chr_nl])] | File => [] end ++
   [EJournal (resolution_envelope now id act yes)] ++ promotion).

Definition find_pending (id : JobId) (l : list PendingApproval) : option PendingApproval :=
  List.find (λ p, (pa_job p =? id)%N) l.

Definition rfc_metadata (r : ApprovalRequest) : option json := metadata r ≫= jget #"rfc".

Definition handle_resolution (now : str) (args : list str) (yes : bool) (a : Approvals)
  : Outcome * list effect * Approvals :=
  match pending a with
  | [] => (handle_resolution_empty now args yes, a)
  | _ =>
      match args with
      | [] => (OBlocks (list_pending_blocks (pending a)), [], a)
      | target :: _ =>
          match parse_u32 target with
          | None => (OError (#"invalid job id: " ++ target), [], a)
          | Some id =>
              let entry := find_pending id (pending a) in
              let act := default [] (action ∘ pa_request <$> entry) in
              let rfc := entry ≫= (rfc_metadata ∘ pa_request) in
              match resolve id yes now a with
              | (Err e, a') => (OError (io_error_text e), [], a')
              | (Ok p, a') =>
                  let '(out, effs) := emit_resolution now id yes act rfc p in
                  (out, EAttentionResolved id :: effs, a')
              end
          end
      end
  end.

(** ** What an answer does *)

Lemma resolve_finds id yes now a p a' : resolve id yes now a = (Ok p, a') → find_pending id (pending a) = Some p.
Proof.
  unfold resolve. destruct (remove_first id (pending a)) as [[q rest]|] eqn:E; [|done]. intros Hr.
  assert (q = p) as ->.
  { destruct (pa_source q); [|by injection Hr]. destruct (ser _); [|done]. destruct (fs_write _ _ _) as [[[]|] d]; [|done].
    by injection Hr. }
  clear Hr. unfold find_pending. revert rest E. induction (pending a) as [|q l IH]; intros rest; [done|].
  cbn [remove_first List.find]. destruct (N.eqb_spec (pa_job q) id); [by intros [= -> _]|].
  intros ([q' r] & Hr & [= -> _])%bind_Some. by eapply IH.
Qed.

(** An effect that an answer may have: keystrokes for the job of the answer alone, that say
    what was answered, and a promotion only of the RFC that the request in the queue names,
    when it was approved. *)
Definition allowed_effect (args : list str) (yes : bool) (a : Approvals) (e : effect) : Prop :=
  match e with
  | EPty j b =>
      parse_resolution_target args = Some j ∧
      b ∈ (if yes then [[chr_cr]; #"y" ++ [chr_nl]] else [ #"q"; #"n" ++ [chr_nl]])
  | EPromote project slug =>
      yes = true ∧ ∃ j p meta, parse_resolution_target args = Some j ∧ p ∈ pending a ∧ pa_job p = j ∧
        action (pa_request p) = #"rfc.promote" ∧ rfc_metadata (pa_request p) = Some meta ∧
        (jget #"slug" meta ≫= as_str) = Some slug ∧ (jget #"project" meta ≫= as_str) = Some project
  | EAudit j _ name data =>
      name = #"rfc.approved" ∧ yes = true ∨
      name = #"approval" ∧ parse_resolution_target args = Some j ∧ ∃ act, data = audit_data j act yes
  | EJournal env => ∃ j act now, parse_resolution_target args = Some j ∧ env = resolution_envelope now j act yes
  | EAttentionResolved j | EPromptResolved j => parse_resolution_target args = Some j
  | EBlockingApproval _ _ _ _ => False
  end.

Lemma detector_effects now args yes a id : parse_resolution_target args = Some id →
  Forall (allowed_effect args yes a) (resolve_detector_pending now id yes).2.
Proof.
  intros Hid. unfold resolve_detector_pending.
  assert ((if yes then [chr_cr] else #"q") ∈ (if yes then [[chr_cr]; #"y" ++ [chr_nl]] else [ #"q"; #"n" ++ [chr_nl]])) as Hb
    by (destruct yes; by left).
  destruct (write_to_pty w id _); cbn [snd]; repeat apply list.Forall_cons_2; try apply list.Forall_nil_2; cbn; try done.
  - right. split_and!; [done|done|by eexists].
  - by eexists id, _, _.
Qed.

Lemma find_pending_elem id l p : find_pending id l = Some p → p ∈ l ∧ pa_job p = id.
Proof. intros [Hin%list_elem_of_In E%N.eqb_eq]%List.find_some. done. Qed.

Lemma promote_effects args yes a id p act rfc :
  parse_resolution_target args = Some id → p ∈ pending a → pa_job p = id → act = action (pa_request p) →
  rfc = rfc_metadata (pa_request p) → Forall (allowed_effect args yes a) (maybe_rfc_promote yes act rfc).2.
Proof.
  intros Hid Hp Hj -> ->. unfold maybe_rfc_promote. destruct (if negb yes || _ then _ else _) as [[project slug]|] eqn:E; [|constructor].
  destruct yes; [|done]. cbn [negb orb] in E. case_bool_decide as Ha; [|done]. cbn [negb] in E.
  apply bind_Some in E as (meta & Hm & E). apply bind_Some in E as (sl & Hs & E). apply bind_Some in E as (pr & Hpr & E).
  destruct (project_known w pr); [|done]. injection E as -> ->. cbn [snd].
  repeat apply list.Forall_cons_2; try apply list.Forall_nil_2; cbn; [by left|]. split; [done|]. by exists id, p, meta.
Qed.

(** Whatever is in the queue, an answer goes to the job it names: keystrokes, records
    and notices are for that job and say what was answered, and an RFC is promoted only
    when the answer approves a promotion that the request in the queue asks for. *)
Theorem answer_stays_with_job now args yes a :
  Forall (allowed_effect args yes a) (handle_resolution now args yes a).1.2.
Proof.
  unfold handle_resolution. destruct (pending a) as [|q l] eqn:Eq.
  - cbn [fst snd]. unfold handle_resolution_empty. destruct (parse_resolution_target args) as [id|] eqn:Eid; [|constructor].
    destruct (prompt_state w id) as [[]|]; try constructor; by apply detector_effects.
  - rewrite <- Eq. destruct args as [|target args]; [constructor|]. destruct (parse_u32 target) as [id|] eqn:Eid; [|constructor].
    destruct (resolve id yes now a) as [[p|e] a'] eqn:Er; [|constructor]. pose proof (resolve_finds _ _ _ _ _ _ Er) as Hf.
    rewrite Hf. cbn [default from_option fmap option_fmap option_map mbind option_bind compose].
    destruct (find_pending_elem _ _ _ Hf) as [Hin Hj].
    assert (parse_resolution_target (target :: args) = Some id) as Ht by done.
    pose proof (promote_effects (target :: args) yes a id p _ _ Ht Hin Hj eq_refl eq_refl) as Hp. unfold emit_resolution.
    destruct (maybe_rfc_promote yes _ _) as [block promotion]. cbn [snd fst] in *.
    apply list.Forall_cons_2; [done|]. apply list.Forall_cons_2; [right; split_and!; [done|done|by eexists]|].
    repeat (apply list.Forall_app; split); [| |done].
    + destruct (pa_source p); [constructor|]. apply list.Forall_singleton. split; [done|]. destruct yes; right; by left.
    + apply list.Forall_singleton. by eexists id, _, _.
Qed.
End resolution.
