(* ===== verification/JobControl.v ===== *)
(** * Commands on jobs ([orkia-shell/src/builtin_resolve.rs], [repl/job_control.rs])

    How the word a user types names a job: the controller's own jobs first, then the
    daemon's. The handlers of [kill], [stop], [fg], [bg], [disown], [wait] and [attach] are
    here whole; the daemon's connection and the terminal are arguments, and what is asked
    of them is returned in order. *)
From Stdlib Require Import NArith ZArith Lia.
From stdpp Require Import base gmap strings option numbers list list_basics.
From S2P Require Import Prelude Text Words Effects Json Jobs Resolution.

(** ** Targets *)

Inductive KillAction := StopJob (id : JobId) | SystemKill (target signal : str).

Definition has_id (id : N) (infos : list JobInfo) : bool := existsb (λ j, (ji_id j =? id)%N) infos.

Definition agent_named (name : str) (j : JobInfo) : bool :=
  match ji_kind j with Agent _ n => bool_decide (n = name) | _ => false end.

(** [iter().rev().find(p)] *)
Definition rfind {A} (p : A → bool) (l : list A) : option A := head (filter (λ x, p x = true) (reverse l)).

Definition pct_candidate (k : JobKind) : str :=
  match k with Shell cmd => cmd | Agent _ n => n | ForgeApp a => a end.

Definition resolve_pct (rest : str) (infos : list JobInfo) : option JobId :=
  if is_empty rest || bool_decide (rest = #"+") || bool_decide (rest = #"%") then ji_id <$> last infos
  else if bool_decide (rest = #"-") then
    if (length infos <? 2)%nat then None else ji_id <$> infos !! (length infos - 2)%nat
  else
    let by_label := ji_id <$> rfind (λ j, starts_with rest (pct_candidate (ji_kind j))) infos in
    match parse_u32 rest with
    | Some id => if has_id id infos then Some id else by_label
    | None => by_label
    end.

Definition by_pid (pid : N) (infos : list JobInfo) : option JobId :=
  ji_id <$> head (filter (λ j, ji_pid j = Some pid) infos).

(** The agent's latest job, then the job of a process. *)
Definition by_name_or_pid (target : str) (infos : list JobInfo) : option JobId :=
  match rfind (agent_named target) infos with
  | Some j => Some (ji_id j)
  | None => parse_u32 target ≫= λ pid, by_pid pid infos
  end.

Definition by_number (target : str) (infos : list JobInfo) : option JobId :=
  id ← parse_u32 target; if has_id id infos then Some id else None.

Definition drop_sigil (c : str) (s : str) : str := default s (strip_prefix c s).

Definition resolve_job_target (target : str) (infos : list JobInfo) : option JobId :=
  let parsed := parse_job_target target in
  if prefer_daemon parsed then None else
  let target := core parsed in
  match strip_prefix #"%" target with
  | Some rest => resolve_pct rest infos
  | None =>
      let target := drop_sigil #"@" target in
      match by_number target infos with
      | Some id => Some id
      | None => by_name_or_pid target infos
      end
  end.

Definition resolve_kill (target : str) (signal : option str) (infos : list JobInfo) : KillAction :=
  match signal with
  | Some sig =>
      match (if starts_with #"%" target then resolve_job_target target infos else None) with
      | Some id => StopJob id
      | None => SystemKill target sig
      end
  | None =>
      match (if starts_with #"%" target then resolve_job_target target infos else None) with
      | Some id => StopJob id
      | None =>
          match by_number target infos with
          | Some id => StopJob id
          | None => match by_name_or_pid target infos with
                    | Some id => StopJob id
                    | None => SystemKill target #"TERM"
                    end
          end
      end
  end.

Fixpoint split_kill_go (args : list str) (signal target : option str) : result str (option str * str) :=
  match args with
  | [] => match target with Some t => Ok (signal, t) | None => Err #"kill: missing target" end
  | arg :: args' =>
      match strip_prefix #"-" arg with
      | Some rest => if is_empty rest then Err #"kill: empty signal flag" else split_kill_go args' (Some rest) target
      | None => match target with
                | None => split_kill_go args' signal (Some arg)
                | Some _ => Err (#"kill: unexpected extra argument '" ++ arg ++ #"'")
                end
      end
  end.
Definition split_kill_args (args : list str) : result str (option str * str) := split_kill_go args None None.

(** ** The daemon's jobs *)

Record DaemonJobView := mkView { dv_id : N; dv_agent : str; dv_state : str; dv_label : str }.

Definition daemon_view_is_live (v : DaemonJobView) : bool :=
  negb (starts_with #"done" (dv_state v)) && negb (starts_with #"fail" (dv_state v)) &&
  negb (bool_decide (dv_state v = #"pid_dead")) && negb (bool_decide (dv_state v = #"control_unavailable")).

Record DaemonBridge := mkBridge {
  db_list : list DaemonJobView;
  db_wait : N → result str Z;
  db_kill : N → result str unit;
  db_attach : N → result str unit;
  db_tell : N → str → result str unit }.

Definition resolve_in_views (target : str) (views : list DaemonJobView) : option N :=
  let target := drop_sigil #"@" (drop_sigil #"%" (core (parse_job_target target))) in
  let by_agent :=
    match rfind (λ v, bool_decide (dv_agent v = target) && daemon_view_is_live v) views with
    | Some v => Some (dv_id v)
    | None => dv_id <$> rfind (λ v, bool_decide (dv_agent v = target)) views
    end in
  match parse_u32 target with
  | Some id => if existsb (λ v, (dv_id v =? id)%N) views then Some id else by_agent
  | None => by_agent
  end.

Definition resolve_daemon_target (b : option DaemonBridge) (target : str) : option N :=
  b ≫= λ b, resolve_in_views target (db_list b).

(** ** The shell's part *)

(** What a command asks of the parts around the controller. *)
Inductive ask :=
| DKill (id : N) | DAttach (id : N) | DTell (id : N) (message : str) | DWait (id : N)
| SysKill (target signal : str)
| Unregister (id : JobId) | DropProject (id : JobId)
| DrainDetector | Muted (id : JobId) | Unmuted (id : JobId) | Yield | Reclaim | AttachedWidget (id : JobId).

Definition Cmd : Type := JobController → Outcome * list ask * JobController.

Definition info_line (s : str) : Outcome := OBlocks [SystemInfo s].
Definition shown (id : N) : str := #"[" ++ fmt_dec id ++ #"]".

Definition persistent_wait_hint (agent : str) (id : N) : str :=
  #"wait: '@" ++ agent ++ #"' is a persistent agent session; it ends only when killed. Use `tell " ++ agent ++
  #" <msg>` to message it, `attach @" ++ agent ++ #"` to attach, `kill " ++ fmt_dec id ++
  #"` to end it " ++ [8212%N] ++ #" or dispatch with `--once` for a one-shot `wait` can block on".

Definition local_wait_refusal (id : JobId) (c : JobController) : option str :=
  match get id c with
  | Some e => match je_kind e with
              | Agent _ agent_name =>
                  if terminal (je_state e) then None
                  else if default false (once <$> je_sink e) then None
                  else Some (persistent_wait_hint agent_name id)
              | _ => None
              end
  | None => None
  end.

Definition daemon_wait_refusal_for (v : DaemonJobView) : option str :=
  if negb (daemon_view_is_live v) then None
  else if existsb (λ w, bool_decide (w = #"--once")) (split_whitespace (dv_label v)) then None
  else Some (persistent_wait_hint (dv_agent v) (dv_id v)).

Definition attach_target_is_explicit (target : str) : bool :=
  let parsed := parse_job_target target in
  if prefer_daemon parsed then bool_decide (is_Some (parse_u32 (core parsed))) else
  match strip_prefix #"@" (core parsed) with
  | Some name => negb (is_empty name)
  | None =>
      match strip_prefix #"%" (core parsed) with
      | Some n => bool_decide (is_Some (parse_u32 n))
      | None =>
          match split_once chr_colon (core parsed) with
          | Some (job, st) => bool_decide (is_Some (parse_u32 job)) &&
              match strip_prefix #"@" st with Some name => negb (is_empty name) | None => false end
          | None => false
          end
      end
  end.

Section commands.
Context (w : World) (b : option DaemonBridge) (system_kill : str → str → list BlockContent).
(** How the foreground ends: in the widget of a renderer that has one, and on the terminal
    given up to the job (whether the user left it, and the exit code). *)
Context (widget : option AttachedOutcome) (yielded : result str (bool * Z)).

Definition daemon_wait_refusal (id : N) : option str :=
  b ≫= λ b, head (filter (λ v, dv_id v = id) (db_list b)) ≫= daemon_wait_refusal_for.

Definition kill_daemon_job (id : N) : Outcome * list ask :=
  match b with
  | None => (OError #"kill: daemon unavailable", [])
  | Some b => match db_kill b id with
              | Ok _ => (info_line (render_job_id Daemon id None ++ #" killed"), [DKill id])
              | Err e => (OError (#"kill: " ++ e), [DKill id])
              end
  end.

Definition tell_daemon_job (id : N) (message : str) : Outcome * list ask :=
  match b with
  | None => (OError #"tell: daemon unavailable", [])
  | Some b => match db_tell b id message with
              | Ok _ => (info_line (#"tell: delivered to job " ++ fmt_dec id), [DTell id message])
              | Err e => (OError (#"tell: " ++ e), [DTell id message])
              end
  end.

Definition attach_daemon_job (id : N) : Outcome * list ask :=
  match b with
  | None => (OError #"attach: daemon unavailable", [])
  | Some b => (match db_attach b id with
               | Ok _ => OBlocks []
               | Err e => OError (#"attach: " ++ e)
               end, [Yield; DAttach id; Reclaim])
  end.

Definition wait_daemon_job (id : N) : Outcome * list ask :=
  match b with
  | None => (OError #"wait: daemon unavailable", [])
  | Some b => (match db_wait b id with
               | Ok code => OShellComplete code []
               | Err e => OError (#"wait: " ++ e)
               end, [DWait id])
  end.

Definition ended (r : result ShellError unit) (id : JobId) (what : str) : Outcome :=
  match r with
  | Ok _ => info_line (shown id ++ #" " ++ what)
  | Err e => OError (shell_error_text e)
  end.

Definition handle_disown (target : option str) : Cmd := λ c,
  let '(infos, c) := list_jobs w c in
  let go id := let '(r, c') := disown id c in (ended r id #"disowned", [Unregister id; DropProject id], c') in
  match target with
  | Some t => match resolve_job_target t infos with
              | Some id => go id
              | None => (OError (#"disown: no job matching '" ++ t ++ #"'"), [], c)
              end
  | None => match last infos with
            | Some j => go (ji_id j)
            | None => (OError #"disown: no jobs to disown", [], c)
            end
  end.

Definition handle_bg_target (target : option str) : Cmd := λ c,
  let '(infos, c) := list_jobs w c in
  let go id := let '(r, c') := bg w id c in (ended r id #"continued", [], c') in
  match target with
  | Some t => match resolve_job_target t infos with
              | Some id => go id
              | None => (OError (#"no job matching '" ++ t ++ #"'"), [], c)
              end
  | None => match head infos with
            | Some j => go (ji_id j)
            | None => (OError #"no jobs to background", [], c)
            end
  end.

Definition handle_stop_target (target : str) : Cmd := λ c,
  if is_empty target then (OUsageError #"usage: stop <job_id|agent>", [], c) else
  let '(infos, c) := list_jobs w c in
  match resolve_job_target target infos with
  | Some id => let '(r, c') := stop w id c in (ended r id #"stopped", [], c')
  | None => (OError (#"no orkia job matching '" ++ target ++ #"'"), [], c)
  end.

Definition handle_kill (target : str) (signal : option str) : Cmd := λ c,
  if is_empty target then (OUsageError #"usage: kill <target> [-SIG]", [], c) else
  let '(infos, c) := list_jobs w c in
  match resolve_kill target signal infos with
  | StopJob id => let '(r, c') := stop w id c in (ended r id #"stopped", [], c')
  | SystemKill t sig =>
      match resolve_daemon_target b t with
      | Some did => let '(o, fx) := kill_daemon_job did in (o, fx, c)
      | None => (OBlocks (system_kill t sig), [SysKill t sig], c)
      end
  end.

Definition native_attach_refusal (id : JobId) (c : JobController) : option Outcome :=
  match native_inbound id c with
  | Some _ => Some (OError (shown id ++ #" is a native session " ++ [8212%N] ++ #" it has no terminal. Use `tell " ++
      fmt_dec id ++ #"`, `journal --job " ++ fmt_dec id ++ #"`, or the final response"))
  | None => None
  end.

Definition run_foreground_yielded (id : JobId) : Cmd := λ c,
  match get id c with
  | None => (OError (shell_error_text (not_found id)), [], c)
  | Some _ =>
      let fx := [DrainDetector; Muted id; Yield; Reclaim; Unmuted id] in
      match yielded with
      | Ok (true, _) => (OBlocks [], fx, after_yielded w id true c)
      | Ok (false, code) => (OShellComplete code [], fx, c)
      | Err e => (OError (#"foreground error: " ++ e), fx, c)
      end
  end.

Definition run_foreground_attached (id : JobId) (o : AttachedOutcome) : Cmd := λ c,
  match get id c with
  | None => (OError (shell_error_text (not_found id)), [], c)
  | Some e =>
      match o with
      | AttDetached => (OBlocks [], [AttachedWidget id], after_attached id AttDetached c)
      | AttExited => (OShellComplete (default 0%Z (je_exit_code w e)) [], [AttachedWidget id], c)
      | AttUnsupported => let '(out, fx, c') := run_foreground_yielded id c in (out, AttachedWidget id :: fx, c')
      end
  end.

Definition run_foreground_job (id : JobId) : Cmd := λ c,
  match get id c with
  | None => (OError (shell_error_text (not_found id)), [], c)
  | Some _ =>
      let c := set_entry_state id Foreground c in
      match widget with
      | Some o => run_foreground_attached id o c
      | None => run_foreground_yielded id c
      end
  end.

Definition handle_fg (target : option str) : Cmd := λ c,
  let '(infos, c) := list_jobs w c in
  let go id :=
    match native_attach_refusal id c with
    | Some refusal => (refusal, [], c)
    | None => match get id c with
              | None => (OError (shell_error_text (not_found id)), [], c)
              | Some _ => run_foreground_job id c
              end
    end in
  match target with
  | Some t => match resolve_job_target t infos with
              | Some id => go id
              | None => match resolve_daemon_target b t with
                        | Some did => let '(o, fx) := attach_daemon_job did in (o, fx, c)
                        | None => (OError (#"no job matching '" ++ t ++ #"'"), [], c)
                        end
              end
  | None => match head infos with
            | Some j => go (ji_id j)
            | None => (OError #"no jobs to foreground", [], c)
            end
  end.

Definition attach_elsewhere (target : str) (c : JobController) : Outcome * list ask * JobController :=
  match resolve_daemon_target b (drop_sigil #"%" target) with
  | Some did => let '(o, fx) := attach_daemon_job did in (o, fx, c)
  | None => (OError (#"no job matching '" ++ target ++ #"' (try `ps` to see live jobs)"), [], c)
  end.

Definition handle_attach (target : str) : Cmd := λ c,
  if negb (attach_target_is_explicit target)
  then (OUsageError #"usage: attach @name | %n | N:@name (explicit target required)", [], c) else
  let '(infos, c) := list_jobs w c in
  match resolve_job_target target infos with
  | Some id =>
      match native_attach_refusal id c with
      | Some refusal => (refusal, [], c)
      | None => match get id c with
                | Some _ => run_foreground_job id c
                | None => attach_elsewhere target c
                end
      end
  | None => attach_elsewhere target c
  end.

(** The rows of [ps]: a daemon job whose identifier a local job has is not shown. *)
Definition build_ps_model : JobController → list JobInfo * list DaemonJobView * JobController := λ c,
  let '(infos, c) := list_jobs w c in
  (infos, filter (λ v, has_id (dv_id v) infos = false) (default [] (db_list <$> b)), c).

(** *** Waiting *)

(** The loop of [handle_wait]: one list of the jobs for each world it wakes up in; [None]
    when it is still waiting after the last. *)
Fixpoint wait_loop (id : option JobId) (ws : list World) (c : JobController) : option Outcome * JobController :=
  match ws with
  | [] => (None, c)
  | w' :: ws' =>
      let '(infos, c) := list_jobs w' c in
      let still := match id with
                   | Some id => has_id id infos
                   | None => existsb (λ j, negb (bool_decide (is_Some (local_wait_refusal (ji_id j) c)))) infos
                   end in
      if still then wait_loop id ws' c else (Some (OBlocks []), c)
  end.

Definition handle_wait (target : option str) (ws : list World) (c : JobController)
    : option Outcome * list ask * JobController :=
  match target with
  | None => let '(o, c) := wait_loop None ws c in (o, [], c)
  | Some t =>
      let '(infos, c) := list_jobs w c in
      match resolve_job_target t infos with
      | Some id => match local_wait_refusal id c with
                   | Some refusal => (Some (OError refusal), [], c)
                   | None => let '(o, c) := wait_loop (Some id) ws c in (o, [], c)
                   end
      | None =>
          match resolve_daemon_target b t with
          | Some did => match daemon_wait_refusal did with
                        | Some refusal => (Some (OError refusal), [], c)
                        | None => let '(o, fx) := wait_daemon_job did in (Some o, fx, c)
                        end
          | None => (Some (OError (#"wait: no job matching '" ++ t ++ #"'")), [], c)
          end
      end
  end.

End commands.

(** ** What a typed word names *)

Lemma str_uint_digits s d : str_uint s = Some d → digits s.
Proof.
  revert d. induction s as [|c s IH]; intros d; [constructor|]. cbn [str_uint].
  destruct (str_uint s) as [d'|]; [|done]. cbn [mbind option_bind]. intros Hc. constructor; [|by apply (IH d')].
  unfold digit_cons in Hc. destruct (N.leb_spec 48 c) as [Hle|_]; [|by repeat case_match].
  destruct (c - 48)%N as [|p] eqn:E; [lia|].
  destruct p as [[[p|p|]|[p|p|]|]|[[p|p|]|[p|p|]|]|]; first [lia|discriminate Hc|destruct p; first [lia|discriminate Hc]].
Qed.

Lemma parse_u32_None c s : c ≠ chr_plus → (c < 48 ∨ 57 < c)%N → c ∈ s → parse_u32 s = None.
Proof.
  intros Hp Hc Hin. unfold parse_u32. destruct s as [|x s]; [done|].
  assert (c ∈ (if (x =? chr_plus)%N then s else x :: s)) as Hin'.
  { destruct (N.eqb_spec x chr_plus); set_solver. }
  destruct (if (x =? chr_plus)%N then s else x :: s) as [|y l]; [done|].
  destruct (str_uint (y :: l)) as [d|] eqn:E; [|done]. apply str_uint_digits in E.
  exfalso. by apply (digits_without c (y :: l)).
Qed.

Lemma fmt_no_prefix c n : (c < 48 ∨ 57 < c)%N → strip_prefix [c] (fmt_dec n) = None.
Proof.
  intros Hc. destruct (strip_prefix [c] (fmt_dec n)) as [t|] eqn:E; [|done]. apply strip_prefix_Some in E.
  exfalso. apply (digits_without c (fmt_dec n)); [done|apply fmt_dec_digits|]. rewrite E. set_solver.
Qed.

Lemma fmt_no_pct n : strip_prefix #"%" (fmt_dec n) = None.
Proof. apply (fmt_no_prefix 37). by left. Qed.

Lemma fmt_no_at n : strip_prefix #"@" (fmt_dec n) = None.
Proof. apply (fmt_no_prefix 64). by right. Qed.

Lemma fmt_single c n : (c < 48 ∨ 57 < c)%N → bool_decide (fmt_dec n = [c]) = false.
Proof.
  intros Hc. apply bool_decide_eq_false. intros E. pose proof (fmt_dec_digits n) as Hd. rewrite E in Hd.
  apply list.Forall_cons in Hd as [Hd _]. lia.
Qed.

Lemma by_number_fmt id infos : (id ≤ u32_max)%N → has_id id infos = true → by_number (fmt_dec id) infos = Some id.
Proof. intros Hid Hin. unfold by_number. rewrite parse_u32_fmt by done. cbn [mbind option_bind]. by rewrite Hin. Qed.

Lemma has_id_spec id infos : has_id id infos = true ↔ ∃ j, j ∈ infos ∧ ji_id j = id.
Proof.
  unfold has_id. rewrite existsb_exists. setoid_rewrite N.eqb_eq. setoid_rewrite list_elem_of_In. done.
Qed.

Lemma fmt_target id : parse_job_target (fmt_dec id) = mkTarget (fmt_dec id) None false.
Proof.
  unfold parse_job_target. rewrite trim_no_blank by apply no_blank_fmt.
  assert (strip_prefix #"[" (fmt_dec id) = None) as Hb by (by apply (fmt_no_prefix 91); right).
  rewrite Hb. cbn [mbind option_bind].
  destruct (strip_suffix #"*" (fmt_dec id)) as [t|] eqn:E.
  { apply strip_suffix_Some in E. exfalso. apply (digits_without 42 (fmt_dec id)); [by left|apply fmt_dec_digits|].
    rewrite E. change #"*" with [42%N]. set_solver. }
  cbn [mbind option_bind]. by rewrite split_stage_plain.
Qed.

Lemma pct_target id : parse_job_target (#"%" ++ fmt_dec id) = mkTarget (#"%" ++ fmt_dec id) None false.
Proof.
  unfold parse_job_target. rewrite trim_no_blank.
  2:{ apply Forall_app_2; [by repeat constructor|apply no_blank_fmt]. }
  assert ((42%N ∉ fmt_dec id) ∧ (chr_colon ∉ fmt_dec id)) as [Hs Hc].
  { split; apply digits_without; try apply fmt_dec_digits; [by left|by right]. }
  destruct (strip_suffix #"*" (#"%" ++ fmt_dec id)) as [t|] eqn:E.
  { apply strip_suffix_Some in E. exfalso. assert (42%N ∈ #"%" ++ fmt_dec id) as Hin.
    { rewrite E. change #"*" with [42%N]. set_solver. }
    change #"%" with [37%N] in Hin. set_solver. }
  change (strip_prefix #"[" (#"%" ++ fmt_dec id)) with (@None str). cbn [mbind option_bind].
  unfold split_stage. rewrite split_once_None; [done|]. change #"%" with [37%N].
  rewrite not_elem_of_app. split; [|done]. by apply (bool_decide_unpack _); vm_compute.
Qed.

Lemma resolve_fmt t id infos : parse_job_target t = mkTarget (fmt_dec id) None false →
  (id ≤ u32_max)%N → has_id id infos = true → resolve_job_target t infos = Some id.
Proof.
  intros Ht Hid Hin. unfold resolve_job_target. rewrite Ht. cbn [prefer_daemon core]. rewrite fmt_no_pct.
  unfold drop_sigil. rewrite fmt_no_at. cbn [default]. by rewrite by_number_fmt.
Qed.

Lemma resolve_pct_fmt id infos : (id ≤ u32_max)%N → has_id id infos = true →
  resolve_job_target (#"%" ++ fmt_dec id) infos = Some id.
Proof.
  intros Hid Hin. unfold resolve_job_target. rewrite pct_target. cbn [prefer_daemon core]. rewrite strip_prefix_app.
  unfold resolve_pct. change #"+" with [43%N]. change #"%" with [37%N]. change #"-" with [45%N].
  rewrite !fmt_single by (by left).
  destruct (is_empty (fmt_dec id)) eqn:Ee; [by destruct (fmt_dec id) eqn:E; [apply fmt_dec_nonempty in E|]|].
  cbn [orb]. rewrite parse_u32_fmt by done. by rewrite Hin.
Qed.

Lemma resolve_views_fmt t st pd id views : parse_job_target t = mkTarget (fmt_dec id) st pd →
  (id ≤ u32_max)%N → existsb (λ v, (dv_id v =? id)%N) views = true → resolve_in_views t views = Some id.
Proof.
  intros Ht Hid Hin. unfold resolve_in_views. rewrite Ht. cbn [core]. unfold drop_sigil. rewrite fmt_no_pct. cbn [default].
  rewrite fmt_no_at. cbn [default]. rewrite parse_u32_fmt by done. by rewrite Hin.
Qed.

(** C32: What [ps] shows can be typed back. A local job's [[N]], its number and [%N] all
    resolve to that job, whatever other jobs, agents or processes the number also fits;
    the daemon's [[N]*] and [[N:M]*] never resolve to a local job, even one with that
    number, and resolve to that job of the daemon. *)
Theorem shown_ids_resolve (id : N) (st : option N) (infos : list JobInfo) (views : list DaemonJobView) :
  (id ≤ u32_max)%N → stage_ok st →
  (has_id id infos = true →
     resolve_job_target (render_job_id Local id None) infos = Some id ∧
     resolve_job_target (fmt_dec id) infos = Some id ∧
     resolve_job_target (#"%" ++ fmt_dec id) infos = Some id) ∧
  resolve_job_target (render_job_id Daemon id st) infos = None ∧
  (existsb (λ v, (dv_id v =? id)%N) views = true → resolve_in_views (render_job_id Daemon id st) views = Some id).
Proof.
  intros Hid Hst. split_and!.
  - intros Hin. split_and!; [by apply resolve_fmt; [apply (target_render Local)|..]|by apply resolve_fmt; [apply fmt_target|..]|].
    by apply resolve_pct_fmt.
  - unfold resolve_job_target. by rewrite target_render.
  - intros Hin. by eapply resolve_views_fmt; [apply target_render|..].
Qed.

Definition sample_infos : list JobInfo := [mkInfo 3%N (Shell #"make") Running #"make" (Some 900%N) None].
Definition sample_views : list DaemonJobView := [mkView 3%N #"faye" #"running" #"@faye fix the tests"].

Lemma shown_ids_resolve_witness :
  resolve_job_target #"[3]" sample_infos = Some 3%N ∧ resolve_in_views #"[3:1]*" sample_views = Some 3%N.
Proof.
  destruct (shown_ids_resolve 3 (Some 1%N) sample_infos sample_views) as (H1 & _ & H2); [done|done|].
  split; [exact (proj1 (H1 eq_refl))|exact (H2 eq_refl)].
Defined.


Definition sample_bridge : DaemonBridge :=
  mkBridge [mkView 1%N #"faye" #"running" #"@faye fix the tests"] (λ _, Ok 0%Z) (λ _, Ok ()) (λ _, Ok ()) (λ _ _, Ok ()).

Definition one_shell_job : JobController :=
  perform (sample_world None) (CShell [ #"make"] [] None #"make" []) (with_next_id 1).


(** ** The stage form of [attach] *)

(** A name without blanks, separators or the survival marker. *)
Definition plain_name (name : str) : Prop :=
  name ≠ [] ∧ no_blank name ∧ (chr_colon ∉ name) ∧ (42%N ∉ name).

Definition stage_form (n : N) (name : str) : str := fmt_dec n ++ #":@" ++ name.

Lemma stage_form_target n name : plain_name name →
  parse_job_target (stage_form n name) = mkTarget (stage_form n name) None false ∧
  split_once chr_colon (stage_form n name) = Some (fmt_dec n, #"@" ++ name).
Proof.
  intros (Hne & Hb & Hc & Hs). unfold parse_job_target, stage_form.
  assert (split_once chr_colon (fmt_dec n ++ #":@" ++ name) = Some (fmt_dec n, #"@" ++ name)) as Hsplit.
  { apply (split_once_app chr_colon (fmt_dec n) (#"@" ++ name)). apply digits_without; [by right|apply fmt_dec_digits]. }
  split; [|done]. rewrite trim_no_blank.
  2:{ apply Forall_app_2; [apply no_blank_fmt|]. apply Forall_app_2; [by repeat constructor|done]. }
  destruct (strip_suffix #"*" (fmt_dec n ++ #":@" ++ name)) as [t|] eqn:E.
  { apply strip_suffix_Some in E. exfalso.
    assert (42%N ∈ fmt_dec n ++ #":@" ++ name) as Hin by (rewrite E; change #"*" with [42%N]; set_solver).
    rewrite !elem_of_app in Hin. destruct Hin as [Hin|[Hin|Hin]]; [|by apply (bool_decide_eq_true_2 _) in Hin; vm_compute in Hin|done].
    apply (digits_without 42 (fmt_dec n)) in Hin; [done|by left|apply fmt_dec_digits]. }
  assert (strip_prefix #"[" (fmt_dec n ++ #":@" ++ name) = None) as ->.
  { destruct (strip_prefix #"[" _) as [t|] eqn:E2; [|done]. apply strip_prefix_Some in E2. exfalso.
    pose proof (fmt_dec_digits n) as Hd. pose proof (fmt_dec_nonempty n).
    destruct (fmt_dec n) as [|x l]; [done|]. injection E2 as -> _. apply list.Forall_cons in Hd as [Hd _]. lia. }
  cbn [mbind option_bind]. unfold split_stage. rewrite Hsplit.
  rewrite (parse_u32_None 64 (#"@" ++ name)); [done|done|by right|]. change #"@" with [64%N]. set_solver.
Qed.

Lemma rfind_and {A} (p q : A → bool) l : rfind p l = None → rfind (λ x, p x && q x) l = None.
Proof.
  unfold rfind. generalize (reverse l) as k. intros k. induction k as [|x k IH]; [done|]. rewrite !filter_cons.
  destruct (p x); [rewrite decide_True by done; done|]. simpl. auto.
Qed.

(** [attach N:@name], the form its usage line offers for a stage of a pipeline, passes
    the check for an explicit target and then finds nothing: no part of the resolution
    splits a named stage off, so it is looked up whole, as the name of an agent, here and
    at the daemon. Unless an agent has that very text as its name, the command always
    answers that no job matches, whatever jobs and stages run. *)
Theorem attach_stage_never_found (w : World) (b : option DaemonBridge) (widget : option AttachedOutcome)
    (yielded : result str (bool * Z)) (n : N) (name : str) (c : JobController) :
  (n ≤ u32_max)%N → plain_name name →
  rfind (agent_named (stage_form n name)) (list_jobs w c).1 = None →
  rfind (λ v, bool_decide (dv_agent v = stage_form n name)) (default [] (db_list <$> b)) = None →
  attach_target_is_explicit (stage_form n name) = true ∧
  handle_attach w b widget yielded (stage_form n name) c =
    (OError (#"no job matching '" ++ stage_form n name ++ #"' (try `ps` to see live jobs)"), [], reap w c).
Proof.
  intros Hn Hname Hl Hv. destruct (stage_form_target n name Hname) as [Ht Hsp].
  assert (∀ x, (x < 48 ∨ 57 < x)%N → strip_prefix [x] (stage_form n name) = None) as Hpre.
  { intros x Hx. unfold stage_form. pose proof (fmt_dec_digits n) as Hd. pose proof (fmt_dec_nonempty n).
    destruct (fmt_dec n) as [|y l]; [done|]. apply list.Forall_cons in Hd as [Hd _]. simpl.
    destruct (N.eqb_spec x y); [lia|done]. }
  assert (strip_prefix #"%" (stage_form n name) = None) as Hpct by (apply (Hpre 37%N); by left).
  assert (strip_prefix #"@" (stage_form n name) = None) as Hat by (apply (Hpre 64%N); by right).
  assert (parse_u32 (stage_form n name) = None) as Hnum.
  { apply (parse_u32_None 64); [done|by right|]. unfold stage_form. change #":@" with [58%N; 64%N]. set_solver. }
  assert (attach_target_is_explicit (stage_form n name) = true) as Hex.
  { unfold attach_target_is_explicit. rewrite Ht. cbn [prefer_daemon core]. rewrite Hat, Hpct, Hsp, parse_u32_fmt by done.
    rewrite strip_prefix_app, bool_decide_true by eauto. destruct Hname as [Hne _]. by destruct name. }
  split; [done|]. unfold handle_attach. rewrite Hex. cbn [negb].
  change (list_jobs w c) with ((list_jobs w c).1, reap w c). cbv beta iota.
  unfold resolve_job_target. rewrite Ht. cbn [prefer_daemon core]. rewrite Hpct. unfold drop_sigil at 1. rewrite Hat.
  cbn [default]. unfold by_number, drop_sigil. rewrite Hnum, Hat. cbn [mbind option_bind default]. unfold by_name_or_pid.
  rewrite Hl, Hnum. cbn [mbind option_bind]. unfold attach_elsewhere, drop_sigil. rewrite Hpct. cbn [default].
  unfold resolve_daemon_target. destruct b as [b|]; [|done]. cbn [mbind option_bind fmap option_fmap option_map default] in *.
  unfold resolve_in_views, drop_sigil. rewrite Ht. cbn [core]. rewrite Hpct. cbn [default]. rewrite Hat. cbn [default].
  change (id (db_list b)) with (db_list b) in Hv. rewrite Hnum, Hv. by rewrite rfind_and.
Qed.

Lemma attach_stage_never_found_witness :
  (handle_attach (sample_world None) (Some sample_bridge) None (Ok (true, 0%Z)) #"1:@faye" one_shell_job).1.1 =
  OError #"no job matching '1:@faye' (try `ps` to see live jobs)".
Proof.
  destruct (attach_stage_never_found (sample_world None) (Some sample_bridge) None (Ok (true, 0%Z)) 1%N #"faye" one_shell_job)
    as [_ H].
  - done.
  - split_and!; [done|by repeat constructor|by apply (bool_decide_unpack _); vm_compute..].
  - by vm_compute.
  - by vm_compute.
  - exact (f_equal (λ x, x.1.1) H).
Defined.
