(* ===== verification/JobSpawn.v ===== *)
(** * Starting a job and handling its end ([orkia-shell/src/job/spawn.rs], [job/lifecycle.rs],
      [job/config.rs], [repl/drains.rs])

    The one path that starts a program in a terminal: its identifier, its run directory, its
    environment, the attachments and the hooks they install, the cage around its command
    line. And the queue of job events at the other end: what is taken down when a job
    completes, and what is shown. The shell's own tables are the state; what is asked of the
    detector, the audit trail, the attention queue, the journal and the screen is kept in
    order in [sh_fx]. *)
From Stdlib Require Import NArith ZArith Lia.
From stdpp Require Import base gmap strings option numbers list list_basics.
From S2P Require Import Prelude Text Words Effects Json Fs Journal CageProfile Jobs Approval.

(** ** What is started *)

Inductive StdinSource := Pty | Inherit | Null | InitialBytes (bytes : list N).

Record CageWrapper := mkCage { cage_bin : str; policy_path : str }.

Inductive Attachment (C : Type) :=
| Hooks (mediate : bool)
| StateMachine (pending_body : option str)
| PendingPrompt
| InjectionExecutor
| SealChain (project : option str)
| AgentContext (context : C)
| Osc133Listener.
Arguments Hooks {C}. Arguments StateMachine {C}. Arguments PendingPrompt {C}.
Arguments InjectionExecutor {C}. Arguments SealChain {C}. Arguments AgentContext {C}. Arguments Osc133Listener {C}.

Record JobConfig (C : Type) := mkConfig {
  cf_command : str; cf_provider : ProviderId; cf_args : list str; cf_label : str; cf_env : list (str * str);
  cf_working_dir : option str; cf_stdin : StdinSource; cf_attachments : list (Attachment C);
  cf_cage : option CageWrapper }.
Arguments cf_command {C}. Arguments cf_provider {C}. Arguments cf_args {C}. Arguments cf_label {C}.
Arguments cf_env {C}. Arguments cf_working_dir {C}. Arguments cf_stdin {C}. Arguments cf_attachments {C}.
Arguments cf_cage {C}. Arguments mkConfig {C}.

Definition is_context {C} (a : Attachment C) : bool := match a with AgentContext _ => true | _ => false end.
Definition has_agent_context {C} (cf : JobConfig C) : bool := existsb is_context (cf_attachments cf).

(** What writing an agent's context answers ([job/util.rs], [agent_context.rs]): its hashes
    and the environment and arguments it adds. *)
Record Injected := mkInjected {
  in_prompt_hash : str; in_memory_hash : str; in_tools : N; in_env : list (str * str); in_args : list str }.

Record SpawnResult := mkSpawned { sr_job : JobId; sr_prompt_hash : str; sr_memory_hash : str; sr_tools : N }.

(** ** The shell's tables and what it asks of others *)

Inductive fx :=
| FHooksInstalled (provider : ProviderId) (mediate : bool)
| FAgentSpawn (id : JobId) (agent prompt_hash memory_hash : str) (tools : N)
| FDetector (id : JobId) (agent : str) (pid : N) (pending_body : option str)
| FObserved (e : JobEvent)
| FPublicComplete (id : JobId) (uuid : str) (exit_code : Z)
| FSessionEnd (id : JobId) (agent : str) (exit_code : Z)
| FPromptRemoved (id : JobId)
| FAttentionEnded (id : JobId)
| FLifecycle (e : JournalEnvelope)
| FRender (e : JobEvent).

Record ShellState := mkShell {
  sh_jobs : JobController;
  sh_approvals : Approvals;
  sh_writers : gset N;
  sh_projects : gmap N str;
  sh_scopes : gset N;
  sh_public : gset N;
  sh_announced : gset N;
  sh_rendered : gmap N str;
  sh_fx : list fx }.

Definition Sh := M ShellState ShellError.

Definition set_sh_jobs (c : JobController) (s : ShellState) : ShellState :=
  mkShell c (sh_approvals s) (sh_writers s) (sh_projects s) (sh_scopes s) (sh_public s) (sh_announced s) (sh_rendered s) (sh_fx s).
Definition set_sh_approvals (a : Approvals) (s : ShellState) : ShellState :=
  mkShell (sh_jobs s) a (sh_writers s) (sh_projects s) (sh_scopes s) (sh_public s) (sh_announced s) (sh_rendered s) (sh_fx s).
Definition set_sh_writers (f : gset N → gset N) (s : ShellState) : ShellState :=
  mkShell (sh_jobs s) (sh_approvals s) (f (sh_writers s)) (sh_projects s) (sh_scopes s) (sh_public s) (sh_announced s)
    (sh_rendered s) (sh_fx s).
Definition set_sh_projects (f : gmap N str → gmap N str) (s : ShellState) : ShellState :=
  mkShell (sh_jobs s) (sh_approvals s) (sh_writers s) (f (sh_projects s)) (sh_scopes s) (sh_public s) (sh_announced s)
    (sh_rendered s) (sh_fx s).
Definition set_sh_scopes (f : gset N → gset N) (s : ShellState) : ShellState :=
  mkShell (sh_jobs s) (sh_approvals s) (sh_writers s) (sh_projects s) (f (sh_scopes s)) (sh_public s) (sh_announced s)
    (sh_rendered s) (sh_fx s).
Definition set_sh_public (f : gset N → gset N) (s : ShellState) : ShellState :=
  mkShell (sh_jobs s) (sh_approvals s) (sh_writers s) (sh_projects s) (sh_scopes s) (f (sh_public s)) (sh_announced s)
    (sh_rendered s) (sh_fx s).
Definition set_sh_shown (an : gset N) (re : gmap N str) (s : ShellState) : ShellState :=
  mkShell (sh_jobs s) (sh_approvals s) (sh_writers s) (sh_projects s) (sh_scopes s) (sh_public s) an re (sh_fx s).
Definition emit (e : fx) (s : ShellState) : ShellState :=
  mkShell (sh_jobs s) (sh_approvals s) (sh_writers s) (sh_projects s) (sh_scopes s) (sh_public s) (sh_announced s)
    (sh_rendered s) (sh_fx s ++ [e]).

Definition on_jobs {A} (m : Ctl A) : Sh A := zoom sh_jobs set_sh_jobs m.

(** ** The command line *)

Definition cage_wrap_argv (wrapper : option CageWrapper) (command : str) (args : list str) : str * list str :=
  match wrapper with
  | Some w => (cage_bin w, [ #"--policy"; policy_path w; #"--"; command] ++ args)
  | None => (command, args)
  end.

Definition path_text (p : path) : str := p ≫= λ c, #"/" ++ c.

Definition path_parent (p : path) : option path :=
  match reverse p with [] => None | _ :: r => Some (reverse r) end.

Definition detached_runtime_job_id (env : option str) : option N :=
  id ← env ≫= parse_u32; if (id =? 0)%N then None else Some id.

Definition detached_runtime_hub_socket (env : option str) (data_dir : path) : option path :=
  id ← detached_runtime_job_id env; Some (data_dir ++ [ #"run"; #"jobs"; fmt_dec id; #"agent.sock"]).

(** ** Attachments *)

Record AttachmentPlan := mkPlan {
  pl_hooks : list JobLifecycleHook; pl_osc133 : bool; pl_prompt_hash : str; pl_memory_hash : str; pl_tools : N;
  pl_env : list (str * str); pl_args : list str }.

(** The loop's variables. *)
Record Walk := mkWalk {
  wk_osc133 : bool; wk_prompt_hash : str; wk_memory_hash : str; wk_tools : N;
  wk_seal : option (option str); wk_machine : option (option str); wk_injection : bool;
  wk_env : list (str * str); wk_args : list str }.

Section spawn.
Context {C : Type} (w : World) (data_dir : path) (detached : option str).
Context (inject_agent_context : C → ProviderId → path → path → JobId → result str Injected).
Context (agent_name new_uuid : str).

Definition walk_step (provider : ProviderId) (run_dir socket : path) (id : JobId) (a : Attachment C) (k : Walk)
    : Sh Walk :=
  match a with
  | Hooks mediate => modify (emit (FHooksInstalled provider mediate));; mret k
  | AgentContext context =>
      match inject_agent_context context provider run_dir socket id with
      | Err e => throw (Other e)
      | Ok i => mret (mkWalk (wk_osc133 k) (in_prompt_hash i) (in_memory_hash i) (in_tools i) (wk_seal k) (wk_machine k)
                        (wk_injection k) (wk_env k ++ in_env i) (wk_args k ++ in_args i))
      end
  | Osc133Listener => mret (mkWalk true (wk_prompt_hash k) (wk_memory_hash k) (wk_tools k) (wk_seal k) (wk_machine k)
                              (wk_injection k) (wk_env k) (wk_args k))
  | SealChain project => mret (mkWalk (wk_osc133 k) (wk_prompt_hash k) (wk_memory_hash k) (wk_tools k) (Some project)
                                 (wk_machine k) (wk_injection k) (wk_env k) (wk_args k))
  | StateMachine body => mret (mkWalk (wk_osc133 k) (wk_prompt_hash k) (wk_memory_hash k) (wk_tools k) (wk_seal k)
                                 (Some body) (wk_injection k) (wk_env k) (wk_args k))
  | PendingPrompt => mret k
  | InjectionExecutor => mret (mkWalk (wk_osc133 k) (wk_prompt_hash k) (wk_memory_hash k) (wk_tools k) (wk_seal k)
                                 (wk_machine k) true (wk_env k) (wk_args k))
  end.

Fixpoint walk (provider : ProviderId) (run_dir socket : path) (id : JobId) (l : list (Attachment C)) (k : Walk)
    : Sh Walk :=
  match l with
  | [] => mret k
  | a :: l' => k' ← walk_step provider run_dir socket id a k; walk provider run_dir socket id l' k'
  end.

(** The audit trail's hook is first, whatever the order of the attachments. *)
Definition plan_hooks (provider : ProviderId) (k : Walk) : list JobLifecycleHook :=
  match wk_seal k with Some project => [SealChainLifecycle project agent_name] | None => [] end ++
  (if wk_osc133 k then [Osc133Lifecycle] else []) ++
  match wk_machine k with Some body => [StateMachineLifecycle body] | None => [] end ++
  (if wk_injection k then [InjectionExecutorLifecycle provider] else []).

Definition apply_attachments (cf : JobConfig C) (run_dir socket : path) (id : JobId) (env : list (str * str))
    (args : list str) : Sh AttachmentPlan :=
  k ← walk (cf_provider cf) run_dir socket id (cf_attachments cf) (mkWalk false [] [] 0 None None false env args);
  mret (mkPlan (plan_hooks (cf_provider cf) k) (wk_osc133 k) (wk_prompt_hash k) (wk_memory_hash k) (wk_tools k)
          (wk_env k) (wk_args k)).

(** *** Hooks at the start *)

(** The project is linked before the event that makes the job's chain. *)
Definition seal_on_spawn (id : JobId) (plan : AttachmentPlan) (project : option str) (name : str) (s : ShellState)
    : ShellState :=
  let s := match project with Some p => set_sh_projects (insert id p) s | None => s end in
  if is_empty (pl_prompt_hash plan) then s
  else emit (FAgentSpawn id name (pl_prompt_hash plan) (pl_memory_hash plan) (pl_tools plan)) s.

Definition machine_on_spawn (id : JobId) (pid : option N) (body : option str) (s : ShellState) : ShellState :=
  match pid with Some p => emit (FDetector id agent_name p body) s | None => s end.

Definition writer_on_spawn (id : JobId) (s : ShellState) : ShellState := set_sh_writers (union {[id]}) s.

Definition on_spawn (id : JobId) (pid : option N) (plan : AttachmentPlan) (h : JobLifecycleHook) (s : ShellState)
    : ShellState :=
  match h with
  | SealChainLifecycle project name => seal_on_spawn id plan project name s
  | Osc133Lifecycle => s
  | StateMachineLifecycle body => machine_on_spawn id pid body s
  | InjectionExecutorLifecycle _ => writer_on_spawn id s
  end.

Definition dispatch_on_spawn (id : JobId) (pid : option N) (plan : AttachmentPlan) (s : ShellState) : ShellState :=
  match get id (sh_jobs s) with
  | Some _ => foldl (λ s h, on_spawn id pid plan h s) s (pl_hooks plan)
  | None => s
  end.

(** *** The start *)

Definition job_socket (run_dir : path) : path :=
  let global_socket := default run_dir (path_parent run_dir) ++ [ #"orkia.sock"] in
  default global_socket ((path_parent run_dir ≫= path_parent) ≫= detached_runtime_hub_socket detached).

Definition spawn_env (cf : JobConfig C) (run_dir socket : path) (id : JobId) : list (str * str) :=
  cf_env cf ++ [(#"ORKIA_RUN_DIR", path_text run_dir); (#"ORKIA_JOB_ID", fmt_dec id);
                (#"ORKIA_SOCKET_PATH", path_text socket)].

Definition late_env (cf : JobConfig C) (plan : AttachmentPlan) : list (str * str) :=
  (if has_agent_context cf then [(#"ORKIA_AGENT_NAME", agent_name)] else []) ++
  (if pl_osc133 plan then [(#"ORKIA", #"1"); (#"ORKIA_PROTOCOL_VERSION", #"1"); (#"TERM_PROGRAM", #"orkia")]
   else [(#"TERM", #"xterm-256color")]).

Definition engine_config (cf : JobConfig C) (plan : AttachmentPlan) : EngineConfig :=
  let '(cmd, args) := cage_wrap_argv (cf_cage cf) (cf_command cf) (pl_args plan) in
  mkEngine cmd args (pl_env plan ++ late_env cf plan) (cf_working_dir cf) (pl_osc133 plan) (has_agent_context cf).

Definition job_kind (cf : JobConfig C) : JobKind :=
  if has_agent_context cf then Agent new_uuid agent_name else Shell (cf_command cf).

Definition write_initial (stdin : StdinSource) : Sh unit :=
  match stdin with
  | InitialBytes bytes =>
      if is_empty bytes then mret () else
      λ s, match last_entry (sh_jobs s) with
           | Some e =>
               let buf := if ends_with [chr_nl] bytes then bytes else bytes ++ [chr_nl] in
               match engine_write w (je_engine e) buf with
               | Ok _ => (Ok (), set_sh_jobs (did (AWrite (je_engine e) buf) (sh_jobs s)) s)
               | Err _ => (Ok (), s)
               end
           | None => (Ok (), s)
           end
  | _ => mret ()
  end.

Definition make_run_dir (id : JobId) : Sh path :=
  λ s, let '(p, a) := create_job_dir (data_dir ++ [ #"run"]) detached id (sh_approvals s) in
       (Ok p, set_sh_approvals a s).

Definition spawn (cf : JobConfig C) : Sh SpawnResult :=
  id ← on_jobs alloc_id;
  run_dir ← make_run_dir id;
  let socket := job_socket run_dir in
  plan ← apply_attachments cf run_dir socket id (spawn_env cf run_dir socket id) (cf_args cf);
  pid ← on_jobs (start_job w id (engine_config cf plan) (job_kind cf) (cf_label cf) (pl_hooks plan));
  modify (dispatch_on_spawn id pid plan);;
  write_initial (cf_stdin cf);;
  mret (mkSpawned id (pl_prompt_hash plan) (pl_memory_hash plan) (pl_tools plan)).

End spawn.

(** ** The queue of job events *)

Definition job_event_tag (e : JobEvent) : str :=
  match e with
  | Spawned _ _ _ => #"spawned" | Attached _ => #"attached" | Detached _ => #"detached"
  | StoppedEv _ _ => #"stopped" | Continued _ _ => #"continued" | Completed _ _ _ => #"completed"
  end.

Definition lifecycle_label (e : JobEvent) : str * option Z :=
  match e with
  | Spawned _ _ _ => (#"spawn", None)
  | Completed _ code _ => (#"completed", Some code)
  | StoppedEv _ _ => (#"stopped", None)
  | Continued _ _ => (#"continued", None)
  | Attached _ => (#"attached", None)
  | Detached _ => (#"detached", None)
  end.

Definition lifecycle_envelope (now : str) (e : JobEvent) : JournalEnvelope :=
  let '(label, exit) := lifecycle_label e in
  mkJournalEnvelope ETLifecycle now None (Some (event_job_id e)) None (Some #"orkia") None (Some label) None None exit
    None None None None None None None None None None None None [].

(** A pushed event is dropped when its job is one of the programs in a terminal here. *)
Definition inject_pushed (pushed : list JobEvent) (c : JobController) : JobController :=
  foldl (λ c e, match get (event_job_id e) c with Some _ => c | None => send e c end) c pushed.

Definition name_for_end (id : JobId) (c : JobController) : str :=
  match je_label <$> get id c with
  | Some l => l
  | None => default [] (native_label id c)
  end.

(** The [Completed] arm. *)
Definition on_completed (id : JobId) (exit_code : Z) (s : ShellState) : ShellState :=
  let agent := name_for_end id (sh_jobs s) in
  let s := if bool_decide (id ∈ sh_public s) then
             let s := set_sh_public (λ p, p ∖ {[id]}) s in
             match agent_uuid id (sh_jobs s) with
             | Some uuid => emit (FPublicComplete id uuid exit_code) s
             | None => s
             end
           else s in
  let s := emit (FSessionEnd id agent exit_code) s in
  let s := set_sh_approvals (cleanup_job id (sh_approvals s)) s in
  let s := set_sh_scopes (λ p, p ∖ {[id]}) s in
  let s := emit (FPromptRemoved id) s in
  let s := emit (FAttentionEnded id) s in
  if existsb on_complete (dispatch_on_complete id (sh_jobs s)) then set_sh_writers (λ p, p ∖ {[id]}) s else s.

Definition is_completed (e : JobEvent) : bool := match e with Completed _ _ _ => true | _ => false end.

Definition show_event (e : JobEvent) (s : ShellState) : ShellState :=
  let job := event_job_id e in
  let announced := is_completed e && bool_decide (job ∈ sh_announced s) in
  let dup := bool_decide (sh_rendered s !! job = Some (job_event_tag e)) in
  let an := if is_completed e then sh_announced s ∖ {[job]} else sh_announced s in
  let re := if is_completed e then delete job (sh_rendered s) else <[job := job_event_tag e]> (sh_rendered s) in
  let s := set_sh_shown an re s in
  if negb announced && negb dup then emit (FRender e) s else s.

Definition drain_event (now : str) (observer : bool) (e : JobEvent) (s : ShellState) : ShellState :=
  let s := if observer then emit (FObserved e) s else s in
  let s := match e with Completed id code _ => on_completed id code s | _ => s end in
  show_event e (emit (FLifecycle (lifecycle_envelope now e)) s).

Definition take_events (c : JobController) : list JobEvent * JobController :=
  (event_tx c, mkCtl (jobs c) (forge_jobs c) (native_jobs c) (next_id c) [] (acts c)).

(** Handling an event sends none, so the loop runs over the queue as it is. *)
Definition drain_job_events (now : str) (observer : bool) (pushed : list JobEvent) (s : ShellState) : ShellState :=
  let '(es, c) := take_events (inject_pushed pushed (sh_jobs s)) in
  foldl (λ s e, drain_event now observer e s) (set_sh_jobs c s) es.

(** ** The program that is started *)

Section spawn_theorems.
Context {C : Type} (w : World) (data_dir : path) (detached : option str).
Context (inject_agent_context : C → ProviderId → path → path → JobId → result str Injected).
Context (agent_name new_uuid : str).

(** The attachments touch nothing of the controller; arguments are only added. *)
Lemma walk_keeps provider run_dir socket id l k s r s' :
  walk inject_agent_context provider run_dir socket id l k s = (r, s') →
  sh_jobs s' = sh_jobs s ∧ match r with Ok k' => ∃ extra, wk_args k' = wk_args k ++ extra | Err _ => True end.
Proof.
  revert k s. induction l as [|a l IH]; intros k s; simpl.
  { intros [= <- <-]. split; [done|]. exists []. by rewrite app_nil_r. }
  unfold mbind, M_bind. destruct (walk_step inject_agent_context provider run_dir socket id a k s) as [r1 s1] eqn:E.
  assert (sh_jobs s1 = sh_jobs s ∧ match r1 with Ok k1 => ∃ extra, wk_args k1 = wk_args k ++ extra | Err _ => True end)
    as [Hj1 Hr1].
  { destruct a; simpl in E; unfold mbind, M_bind, modify, mret, M_ret, throw in E; simplify_eq/=;
      try (split; [done|]; exists []; by rewrite app_nil_r).
    destruct (inject_agent_context _ _ _ _ _) as [i|e]; simplify_eq; (split; [done|]); simpl; eauto. }
  destruct r1 as [k1|e]; [|intros [= <- <-]; by split]. intros [Hj Hr]%IH. split; [congruence|].
  destruct r as [k2|]; [|done]. destruct Hr1 as [e1 Hr1], Hr as [e2 Hr]. exists (e1 ++ e2). by rewrite Hr, Hr1, <- app_assoc.
Qed.

Lemma attachments_keep cf run_dir socket id env args s r s' :
  apply_attachments inject_agent_context agent_name cf run_dir socket id env args s = (r, s') →
  sh_jobs s' = sh_jobs s ∧ match r with Ok p => ∃ extra, pl_args p = args ++ extra | Err _ => True end.
Proof.
  unfold apply_attachments, mbind, M_bind. destruct (walk _ _ _ _ _ _ _ s) as [r1 s1] eqn:E. apply walk_keeps in E as [Hj Hr].
  destruct r1; intros [= <- <-]; auto.
Qed.

Lemma on_spawn_jobs id pid plan hs s : sh_jobs (foldl (λ s h, on_spawn agent_name id pid plan h s) s hs) = sh_jobs s.
Proof.
  revert s. induction hs as [|h hs IH]; intros s; [done|]. simpl. rewrite IH.
  destruct h; unfold on_spawn, seal_on_spawn, machine_on_spawn; repeat case_match; done.
Qed.

Lemma dispatch_spawn_jobs id pid plan s : sh_jobs (dispatch_on_spawn agent_name id pid plan s) = sh_jobs s.
Proof. unfold dispatch_on_spawn. destruct (get id (sh_jobs s)); [apply on_spawn_jobs|done]. Qed.

Lemma write_initial_acts stdin s e cfg :
  AStarted e cfg ∈ acts (sh_jobs (write_initial w stdin s).2) → AStarted e cfg ∈ acts (sh_jobs s).
Proof.
  unfold write_initial. destruct stdin; try done. destruct (is_empty bytes); [done|].
  destruct (last_entry (sh_jobs s)); [|done]. destruct (engine_write w _ _); [|done]. cbn. set_solver.
Qed.

(** What the start of one program does to the controller. *)
Lemma start_acts id ecfg kind label hooks c :
  let '(r, c') := start_job w id ecfg kind label hooks c in
  match r with
  | Ok _ => ∃ e, acts c' = acts c ++ [AStarted e ecfg]
  | Err _ => c' = c
  end.
Proof.
  unfold start_job. destruct (engine_start w ecfg) as [e|m]; [|done]. unfold mbind, M_bind, modify. cbn. eauto.
Qed.

(** C14: A caged job's program is never started bare. Whatever the attachments are and
    whatever they add to its arguments, and also when the spawn fails half way, every
    program [spawn] starts for a configuration with a cage is the cage's launcher, with
    the policy, the separator, and then the job's own command, its arguments in their
    order and what the attachments added after them. *)
Theorem caged_spawn_only_launcher (cf : JobConfig C) (k : CageWrapper) (s : ShellState) (e : N) (cfg : EngineConfig) :
  cf_cage cf = Some k →
  AStarted e cfg ∈ acts (sh_jobs (spawn w data_dir detached inject_agent_context agent_name new_uuid cf s).2) →
  AStarted e cfg ∈ acts (sh_jobs s) ∨
  (ec_cmd cfg = cage_bin k ∧
   ∃ extra, ec_args cfg = [ #"--policy"; policy_path k; #"--"; cf_command cf] ++ cf_args cf ++ extra).
Proof.
  intros Hk. unfold spawn. unfold mbind at 1, M_bind at 1. unfold on_jobs at 1, zoom at 1, alloc_id.
  destruct (next_id (sh_jobs s) <? u32_max)%N; [|by left]. set (id := next_id (sh_jobs s)). cbv zeta.
  unfold mbind at 1, M_bind at 1. unfold make_run_dir at 1. cbn [create_job_dir].
  set (s1 := set_sh_approvals _ _). set (dir := job_dir _ _ id).
  unfold mbind at 1, M_bind at 1. destruct (apply_attachments _ _ _ _ _ _ _ _ s1) as [r2 s2] eqn:E2.
  apply attachments_keep in E2 as [Hj2 Hr2].
  assert (acts (sh_jobs s2) = acts (sh_jobs s)) as Ha2 by (by rewrite Hj2).
  destruct r2 as [plan|m]; [|cbn; rewrite Ha2; by left].
  unfold mbind at 1, M_bind at 1. unfold on_jobs, zoom.
  pose proof (start_acts id (engine_config agent_name cf plan) (job_kind agent_name new_uuid cf) (cf_label cf) (pl_hooks plan)
    (sh_jobs s2)) as Hs. destruct (start_job w id _ _ _ _ (sh_jobs s2)) as [[pid|m] c3].
  2:{ cbn. rewrite Hs, Ha2. by left. }
  destruct Hs as [en Hs]. unfold mbind at 1, M_bind at 1, modify. unfold mbind at 1, M_bind at 1.
  set (s4 := dispatch_on_spawn agent_name id pid plan (set_sh_jobs c3 s2)).
  destruct (write_initial w (cf_stdin cf) s4) as [r5 s5] eqn:E5. intros Hin.
  assert (AStarted e cfg ∈ acts (sh_jobs s5)) as Hin5 by (by destruct r5).
  replace s5 with (write_initial w (cf_stdin cf) s4).2 in Hin5 by (by rewrite E5).
  apply write_initial_acts in Hin5. unfold s4 in Hin5. rewrite dispatch_spawn_jobs in Hin5. cbn in Hin5.
  rewrite Hs, Ha2 in Hin5. apply elem_of_app in Hin5 as [Hin5|Hin5]; [by left|]. right.
  apply list_elem_of_singleton in Hin5. injection Hin5 as -> ->. unfold engine_config. rewrite Hk. cbn. split; [done|].
  destruct Hr2 as [extra ->]. by exists extra.
Qed.
End spawn_theorems.

Definition bare_shell : ShellState :=
  mkShell (with_next_id 1) (mkApprovals [] [] [] ∅ (mkFs ∅ []) false) ∅ ∅ ∅ ∅ ∅ ∅ [].

Definition caged_config : JobConfig unit :=
  mkConfig #"claude" Claude [ #"--resume"] #"faye" [] None Pty
    [SealChain None; AgentContext (); StateMachine (Some #"fix it"); InjectionExecutor]
    (Some (mkCage #"orkia-cage" #"/p/policy.toml")).

Definition sample_inject (_ : unit) (_ : ProviderId) (_ _ : path) (_ : JobId) : result str Injected :=
  Ok (mkInjected #"h1" #"h2" 3%N [] [ #"--mcp-config"; #"x.json"]).

Definition spawn_sample (cf : JobConfig unit) (s : ShellState) : ShellState :=
  (spawn (sample_world None) [ #"data"] None sample_inject #"faye" #"u1" cf s).2.

Lemma caged_spawn_only_launcher_witness :
  ∃ cfg, AStarted 70%N cfg ∈ acts (sh_jobs (spawn_sample caged_config bare_shell)) ∧ ec_cmd cfg = #"orkia-cage".
Proof.
  eexists. assert (AStarted 70%N _ ∈ acts (sh_jobs (spawn_sample caged_config bare_shell))) as Hin by (vm_compute; left).
  split; [exact Hin|].
  destruct (caged_spawn_only_launcher (sample_world None) [ #"data"] None sample_inject #"faye" #"u1" caged_config
    (mkCage #"orkia-cage" #"/p/policy.toml") bare_shell 70%N _ eq_refl Hin) as [H|[H _]]; [|exact H].
  by apply not_elem_of_nil in H.
Defined.

(** ** Ends found by reaping *)

Definition owned (id : JobId) (c : JobController) : Prop := get id c ≠ None ∨ native_label id c ≠ None.

Lemma find_job_id {A} (idof : A → JobId) id l : find_job idof id l ≠ None → id ∈ map idof l.
Proof.
  intros H. destruct (find_job idof id l) as [j|] eqn:E; [|done]. apply find_job_Some in E as [Hin <-].
  by apply list_elem_of_fmap_2.
Qed.

Lemma live_all {A} (idof : A → JobId) (st : A → JobState) l :
  (∀ j, j ∈ l → live (st j) = true) → live_ids idof st l = map idof l.
Proof.
  intros H. unfold live_ids. f_equal. induction l as [|x l IH]; [done|]. rewrite filter_cons_True by (apply H; left).
  f_equal. apply IH. set_solver.
Qed.

Lemma owned_active w id c : owned id (reap w c) → id ∈ active_ids (reap w c).
Proof.
  destruct (reap_live w c) as (L1 & L2 & L3). unfold active_ids. rewrite !live_all by done. rewrite !elem_of_app.
  unfold owned, get, native_label. intros [H|H]; [left|right; right].
  - by apply find_job_id.
  - apply find_job_id. by destruct (find_job nj_id id (native_jobs (reap w c))).
Qed.

(** The events a reaping adds are completions of jobs no longer in any table. *)
Lemma reaped_events w c e : NoDup (active_ids c) → event_tx c = [] → e ∈ event_tx (reap w c) →
  ∃ id code lab, e = Completed id code lab ∧ ~ owned id (reap w c).
Proof.
  intros Hnd Hq Hin.
  assert (∀ e, e ∈ event_tx (reap w c) → is_completed e = true) as Hall.
  { clear e Hin. destruct (reap_shapes w) as (H1 & H2 & H3). unfold reap. cbn [event_tx]. rewrite Hq. simpl.
    assert (∀ {A} (f : A → A * list JobEvent) l e, (∀ j, Forall (λ e, is_completed e = true) (f j).2) →
      e ∈ concat (map f l).*2 → is_completed e = true) as Hc.
    { intros A f l e Hf. rewrite list_elem_of_In, in_concat. intros (x & Hx & He). apply list_elem_of_In in Hx, He.
      rewrite <- list_fmap_compose in Hx. apply list_elem_of_fmap in Hx as (j & -> & _). specialize (Hf j).
      rewrite list.Forall_forall in Hf. by apply Hf. }
    intros e. rewrite !elem_of_app. intros [H|[H|H]]; (eapply Hc; [|exact H]); intros j.
    - destruct (H1 j) as [->|(_ & ? & ? & ? & -> & _)]; by repeat constructor.
    - destruct (H2 j) as [->|(_ & ? & ? & ? & -> & _)]; by repeat constructor.
    - destruct (H3 j) as [->|(_ & ? & ? & ? & -> & _)]; by repeat constructor. }
  specialize (Hall e Hin). destruct e as [| | | | |id code lab]; try done. exists id, code, lab. split; [done|].
  intros Ho%owned_active. destruct (reap_moves w c) as [Hm _]. rewrite Hq in Hm. cbn [completed_ids omap list_omap] in Hm.
  rewrite app_nil_r in Hm. rewrite <- Hm in Hnd. apply list.NoDup_app in Hnd as (_ & Hdis & _). apply (Hdis id Ho).
  apply list_elem_of_omap. by exists (Completed id code lab).
Qed.

Ltac shell_simpl :=
  cbn [emit set_sh_jobs set_sh_approvals set_sh_scopes set_sh_writers set_sh_public set_sh_shown
       sh_jobs sh_writers sh_fx sh_approvals sh_public sh_scopes sh_announced sh_rendered].

(** What a completion leaves alone when its job is gone from the tables. *)
Lemma orphan_completed now obs id code lab s : ~ owned id (sh_jobs s) →
  let s' := drain_event now obs (Completed id code lab) s in
  sh_jobs s' = sh_jobs s ∧ sh_writers s' = sh_writers s ∧
  (∃ pre post, sh_fx s' = sh_fx s ++ pre ++ [FSessionEnd id [] code] ++ post ∧
     (∀ i u z, FPublicComplete i u z ∉ pre ++ post)).
Proof.
  intros Hno. assert (get id (sh_jobs s) = None ∧ native_label id (sh_jobs s) = None) as [Hg Hn].
  { unfold owned in Hno. destruct (get id (sh_jobs s)), (native_label id (sh_jobs s)); naive_solver. }
  assert (agent_uuid id (sh_jobs s) = None) as Hu.
  { unfold agent_uuid. rewrite Hg. unfold native_label in Hn. by destruct (find_job nj_id id (native_jobs (sh_jobs s))). }
  unfold drain_event, on_completed, show_event, name_for_end, dispatch_on_complete. cbv zeta.
  set (s0 := if obs then emit (FObserved _) s else s).
  assert (sh_jobs s0 = sh_jobs s ∧ sh_writers s0 = sh_writers s ∧ sh_public s0 = sh_public s) as (Hj & Hw & Hp) by (by destruct obs).
  assert (∃ o, sh_fx s0 = sh_fx s ++ o ∧ ∀ i u z, FPublicComplete i u z ∉ o) as (o & Hfx & Ho).
  { destruct obs; [exists [FObserved (Completed id code lab)]|exists []; rewrite app_nil_r]; (split; [done|]); intros; set_solver. }
  clearbody s0. rewrite Hj, Hg, Hn, Hp. cbn [fmap option_fmap option_map default].
  destruct (bool_decide (id ∈ sh_public s)); shell_simpl; rewrite ?Hj, ?Hu; shell_simpl; rewrite ?Hj, ?Hg;
    cbn [existsb]; destruct (_ && _); shell_simpl; rewrite ?Hj, ?Hw, ?Hfx; (split; [done|]); (split; [done|]).
  all: exists o; rewrite <- !app_assoc; cbn [app]; eexists; (split; [reflexivity|]); intros i u z; rewrite elem_of_app;
    intros [Hin|Hin]; [by apply (Ho i u z)|]; set_solver.
Qed.

Lemma drain_orphans now obs es s :
  Forall (λ e, ∃ id code lab, e = Completed id code lab ∧ ~ owned id (sh_jobs s)) es →
  let s' := foldl (λ s e, drain_event now obs e s) s es in
  sh_writers s' = sh_writers s ∧
  (∀ i u z, FPublicComplete i u z ∈ sh_fx s' → FPublicComplete i u z ∈ sh_fx s) ∧
  (∀ id code lab, Completed id code lab ∈ es → FSessionEnd id [] code ∈ sh_fx s') ∧
  (∀ f, f ∈ sh_fx s → f ∈ sh_fx s').
Proof.
  intros HF. revert s HF. induction es as [|e es IH]; intros s HF.
  { cbn. split_and!; [done|done|set_solver|done]. }
  apply list.Forall_cons in HF as [(id & code & lab & -> & Hno) HF]. cbn [foldl].
  destruct (orphan_completed now obs id code lab s Hno) as (Hj & Hw & pre & post & Hfx & Hpub).
  set (s1 := drain_event now obs (Completed id code lab) s) in *.
  destruct (IH s1) as (IHw & IHp & IHs & IHk); [by rewrite Hj|]. clearbody s1. split_and!.
  - by rewrite IHw.
  - intros i u z Hin%IHp. rewrite Hfx, !elem_of_app in Hin. specialize (Hpub i u z). set_solver.
  - intros i z l [Heq|Hin]%elem_of_cons; [|by apply (IHs i z l)]. injection Heq as -> -> ->. apply IHk. rewrite Hfx. set_solver.
  - intros f Hf. apply IHk. rewrite Hfx. set_solver.
Qed.

(** C36: A job whose process simply exits is taken out of its table in the same call that
    announces its completion, so when the announcement is handled the job is gone: none of
    its hooks runs and its input writer stays registered with the injection executor, its
    session ends under an empty agent name, and no completion of a public job is ever
    emitted, although the handler means to read the job there. *)
Theorem exit_skips_teardown (w : World) (now : str) (obs : bool) (s : ShellState) :
  NoDup (active_ids (sh_jobs s)) → event_tx (sh_jobs s) = [] →
  let s' := drain_job_events now obs [] (set_sh_jobs (reap w (sh_jobs s)) s) in
  sh_writers s' = sh_writers s ∧
  (∀ i u z, FPublicComplete i u z ∈ sh_fx s' → FPublicComplete i u z ∈ sh_fx s) ∧
  (∀ id code lab, Completed id code lab ∈ event_tx (reap w (sh_jobs s)) → FSessionEnd id [] code ∈ sh_fx s').
Proof.
  intros Hnd Hq. unfold drain_job_events, inject_pushed. cbn [foldl set_sh_jobs sh_jobs].
  unfold take_events. cbv beta iota zeta. set (c := reap w (sh_jobs s)).
  set (s1 := set_sh_jobs _ (set_sh_jobs c s)).
  destruct (drain_orphans now obs (event_tx c) s1) as (H1 & H2 & H3 & _); [|by split_and!].
  apply list.Forall_forall. intros e He. destruct (reaped_events w (sh_jobs s) e Hnd Hq He) as (id & code & lab & -> & Hno).
  by exists id, code, lab.
Qed.

(** A shell with one agent job started; the queue was read. *)
Definition one_agent : ShellState :=
  drain_job_events #"t" false [] (spawn_sample caged_config bare_shell).

Lemma exit_skips_teardown_witness :
  1%N ∈ sh_writers one_agent ∧
  1%N ∈ sh_writers (drain_job_events #"t" false []
    (set_sh_jobs (reap (sample_world (Some 0%Z)) (sh_jobs one_agent)) one_agent)).
Proof.
  split; [by apply (bool_decide_unpack _); vm_compute|].
  destruct (exit_skips_teardown (sample_world (Some 0%Z)) #"t" false one_agent) as (H & _ & _).
  - by apply (bool_decide_unpack _); vm_compute.
  - by vm_compute.
  - rewrite H. by apply (bool_decide_unpack _); vm_compute.
Defined.

(** What is emitted when the completion of a public agent job is handled. *)
Definition public_fx (id : JobId) (code : Z) (k : JobKind) (public : bool) : list fx :=
  if public then match k with Agent uuid _ => [FPublicComplete id uuid code] | _ => [] end else [].

Lemma on_completed_spec id code e s : get id (sh_jobs s) = Some e →
  let s' := on_completed id code s in
  sh_fx s' = sh_fx s ++ public_fx id code (je_kind e) (bool_decide (id ∈ sh_public s)) ++
             [FSessionEnd id (je_label e) code; FPromptRemoved id; FAttentionEnded id] ∧
  sh_writers s' = (if existsb on_complete (je_hooks e) then sh_writers s ∖ {[id]} else sh_writers s) ∧
  sh_scopes s' = sh_scopes s ∖ {[id]} ∧ sh_approvals s' = cleanup_job id (sh_approvals s).
Proof.
  intros Hg. unfold on_completed, name_for_end, dispatch_on_complete, agent_uuid, public_fx. cbv zeta. rewrite Hg.
  cbn [fmap option_fmap option_map].
  destruct (bool_decide (id ∈ sh_public s)); shell_simpl; rewrite ?Hg; [destruct (je_kind e)|]; shell_simpl; rewrite ?Hg;
    destruct (existsb on_complete (je_hooks e)); shell_simpl; rewrite <- ?app_assoc; done.
Qed.

Lemma show_event_spec e s :
  let s' := show_event e s in
  sh_writers s' = sh_writers s ∧ sh_scopes s' = sh_scopes s ∧ sh_approvals s' = sh_approvals s ∧
  ∃ post, sh_fx s' = sh_fx s ++ post.
Proof.
  unfold show_event. cbv zeta. destruct (_ && _) eqn:E; shell_simpl; split_and!; eauto. exists []. by rewrite app_nil_r.
Qed.

(** When the completion of a job that runs is announced by the one-shot teardown and
    handled before the next reaping, everything is taken down: the hooks of the job run,
    so an input writer is released; the session ends under the job's own label; a public
    agent job's completion is emitted with the job's identity; its pending approvals and
    its reasoning scope are dropped. *)
Theorem completion_tears_down (now : str) (obs : bool) (id : JobId) (code : Z) (e : JobEntry) (s : ShellState) :
  get id (sh_jobs s) = Some e → live (je_state e) = true → event_tx (sh_jobs s) = [] →
  let s' := drain_job_events now obs [] (set_sh_jobs (complete id code (sh_jobs s)) s) in
  (existsb on_complete (je_hooks e) = true → id ∉ sh_writers s') ∧
  (FSessionEnd id (je_label e) code ∈ sh_fx s') ∧
  (∀ uuid name, je_kind e = Agent uuid name → id ∈ sh_public s → FPublicComplete id uuid code ∈ sh_fx s') ∧
  (id ∉ sh_scopes s') ∧ (∀ p, p ∈ pending (sh_approvals s') → pa_job p ≠ id).
Proof.
  intros Hg Hl Hq. unfold complete. rewrite Hg. unfold live in Hl. apply negb_true_iff in Hl. rewrite Hl.
  set (c := set_entry_state id (Done code) (sh_jobs s)).
  assert (get id c = Some (je_set_state (Done code) e)) as Hgc by (unfold c; by rewrite get_set_state, Hg).
  assert (event_tx c = []) as Hqc by done. clearbody c.
  unfold drain_job_events, inject_pushed, take_events. cbn [foldl]. cbv beta iota zeta.
  assert (∀ ev, event_tx (sh_jobs (set_sh_jobs (send ev c) s)) = [ev]) as -> by (intros; cbn; by rewrite Hqc). cbn [foldl].
  set (s1 := set_sh_jobs (mkCtl _ _ _ _ _ _) _).
  assert (get id (sh_jobs s1) = Some (je_set_state (Done code) e)) as Hg1 by done.
  assert (sh_public s1 = sh_public s) as Hp1 by done. clearbody s1. unfold drain_event.
  set (s0 := if obs then emit (FObserved _) s1 else s1).
  assert (get id (sh_jobs s0) = Some (je_set_state (Done code) e)) as Hg0 by (by destruct obs).
  assert (sh_public s0 = sh_public s) as Hp0 by (by destruct obs). clearbody s0.
  destruct (on_completed_spec id code _ s0 Hg0) as (Hfx & Hw & Hs & Ha). cbv zeta.
  set (s2 := on_completed id code s0) in *. clearbody s2.
  destruct (show_event_spec (Completed id code (je_label e)) (emit (FLifecycle (lifecycle_envelope now (Completed id code (je_label e)))) s2))
    as (Hw' & Hs' & Ha' & post & Hfx'). cbn [je_hooks je_kind je_label je_set_state] in *. rewrite Hw', Hs', Ha', Hfx'. shell_simpl.
  rewrite Hw, Hs, Ha, Hfx. split_and!.
  - intros ->. set_solver.
  - set_solver.
  - intros uuid name Hk Hin. unfold public_fx. rewrite Hk, Hp0, bool_decide_true by done. set_solver.
  - set_solver.
  - intros p Hin. unfold cleanup_job, send_cmd in Hin. destruct (janitor_degraded _) in Hin;
      by apply list_elem_of_filter in Hin as [Hin _].
Qed.

Lemma completion_tears_down_witness :
  1%N ∉ sh_writers (drain_job_events #"t" false [] (set_sh_jobs (complete 1%N 0%Z (sh_jobs one_agent)) one_agent)).
Proof.
  destruct (completion_tears_down #"t" false 1%N 0%Z
    (mkEntry 1%N (Agent #"u1" #"faye") Running 70%N #"faye"
       [SealChainLifecycle None #"faye"; StateMachineLifecycle (Some #"fix it"); InjectionExecutorLifecycle Claude] None)
    one_agent) as (H & _).
  - by vm_compute.
  - done.
  - by vm_compute.
  - by apply H.
Defined.

(** ** Events the daemon pushes *)

(** What the shell keeps for a job. *)
Definition kept (id : JobId) (s s' : ShellState) : Prop :=
  (id ∈ sh_writers s' ↔ id ∈ sh_writers s) ∧ (id ∈ sh_scopes s' ↔ id ∈ sh_scopes s) ∧
  filter (λ p, pa_job p = id) (pending (sh_approvals s')) = filter (λ p, pa_job p = id) (pending (sh_approvals s)) ∧
  (∀ a z, FSessionEnd id a z ∈ sh_fx s' → FSessionEnd id a z ∈ sh_fx s).

Lemma kept_refl id s : kept id s s.
Proof. by split_and!. Qed.

Lemma kept_trans id s1 s2 s3 : kept id s1 s2 → kept id s2 s3 → kept id s1 s3.
Proof. unfold kept. intros (H1 & H2 & H3 & H4) (G1 & G2 & G3 & G4). split_and!; [by rewrite G1|by rewrite G2|congruence|auto]. Qed.

Lemma kept_emit id f s : (∀ a z, f ≠ FSessionEnd id a z) → kept id s (emit f s).
Proof. intros Hf. split_and!; try done. intros a z. shell_simpl. rewrite elem_of_app, list_elem_of_singleton. intros [?|E]; [done|]. by destruct (Hf a z). Qed.

Lemma filter_other (l : list PendingApproval) id j : id ≠ j →
  filter (λ p, pa_job p = id) (filter (λ p, pa_job p ≠ j) l) = filter (λ p, pa_job p = id) l.
Proof.
  intros Hne. induction l as [|p l IH]; [done|]. rewrite (filter_cons (λ p, pa_job p ≠ j)).
  destruct (decide (pa_job p ≠ j)) as [Hj|Hj]; rewrite !filter_cons, ?IH; [done|].
  apply dec_stable in Hj. by rewrite decide_False by congruence.
Qed.

Lemma kept_writers id j s : id ≠ j → kept id s (set_sh_writers (λ p, p ∖ {[j]}) s).
Proof. intros Hne. split_and!; try done. shell_simpl. set_solver. Qed.

Lemma kept_scopes id j s : id ≠ j → kept id s (set_sh_scopes (λ p, p ∖ {[j]}) s).
Proof. intros Hne. split_and!; try done. shell_simpl. set_solver. Qed.

Lemma kept_cleanup id j s : id ≠ j → kept id s (set_sh_approvals (cleanup_job j (sh_approvals s)) s).
Proof.
  intros Hne. split_and!; try done. shell_simpl. unfold cleanup_job, send_cmd.
  by destruct (janitor_degraded _); apply filter_other.
Qed.

Lemma kept_completed id j code s : id ≠ j → kept id s (on_completed j code s).
Proof.
  intros Hne. unfold on_completed. cbv zeta.
  set (s1 := if bool_decide (j ∈ sh_public s) then _ else s).
  assert (kept id s s1) as H1.
  { unfold s1. destruct (bool_decide _); [|apply kept_refl]. destruct (agent_uuid j _); [|by split_and!].
    eapply kept_trans; [|by apply kept_emit]. by split_and!. }
  clearbody s1. eapply kept_trans; [exact H1|]. clear H1. set (n := name_for_end _ _).
  match goal with |- kept id s1 (if _ then set_sh_writers _ ?s2 else _) => assert (kept id s1 s2) as H2 end.
  2:{ destruct (existsb _ _); [eapply kept_trans; [exact H2|by apply kept_writers]|exact H2]. }
  eapply kept_trans; [|by apply kept_emit]. eapply kept_trans; [|by apply kept_emit].
  eapply kept_trans; [|by apply kept_scopes]. eapply kept_trans; [|by apply kept_cleanup].
  apply kept_emit. intros a z E. by injection E.
Qed.

Lemma kept_show id e s : kept id s (show_event e s).
Proof.
  unfold show_event. cbv zeta. destruct (_ && _); [|by split_and!].
  eapply kept_trans; [|by apply kept_emit]. by split_and!.
Qed.

Lemma kept_event now obs id e s : (∀ z l, e ≠ Completed id z l) → kept id s (drain_event now obs e s).
Proof.
  intros He. unfold drain_event. cbv zeta. eapply kept_trans; [|apply kept_show]. eapply kept_trans; [|by apply kept_emit].
  set (s0 := if obs then emit (FObserved e) s else s). assert (kept id s s0) as H0.
  { unfold s0. destruct obs; [by apply kept_emit|apply kept_refl]. }
  clearbody s0. eapply kept_trans; [exact H0|]. destruct e as [| | | | |j z l]; try apply kept_refl.
  apply kept_completed. intros ->. by apply (He z l).
Qed.

Lemma inject_pushed_tables pushed c :
  jobs (inject_pushed pushed c) = jobs c ∧
  ∃ es, event_tx (inject_pushed pushed c) = event_tx c ++ es ∧ Forall (λ e, get (event_job_id e) c = None) es.
Proof.
  unfold inject_pushed. revert c. induction pushed as [|e l IH]; intros c; cbn [foldl].
  { split; [done|]. exists []. by rewrite app_nil_r. }
  destruct (get (event_job_id e) c) eqn:E; [apply IH|].
  destruct (IH (send e c)) as [Hj (es & Hes & HF)]. split; [done|]. exists (e :: es). split.
  - rewrite Hes. cbn. by rewrite <- app_assoc.
  - constructor; [done|]. exact HF.
Qed.

(** Events pushed by the daemon cannot take down a program of this shell's: as long as
    the job is in the table and its own completion is not in the queue, handling the
    queue, with whatever events the daemon pushed, on whatever identifiers, keeps its
    input writer, its reasoning scope and its pending approvals, and ends no session of
    its. *)
Theorem pushed_events_spare_jobs (now : str) (obs : bool) (pushed : list JobEvent) (id : JobId) (s : ShellState) :
  get id (sh_jobs s) ≠ None → (∀ z l, Completed id z l ∉ event_tx (sh_jobs s)) →
  kept id s (drain_job_events now obs pushed s).
Proof.
  intros Hg Hq. unfold drain_job_events, take_events. cbv beta iota zeta.
  destruct (inject_pushed_tables pushed (sh_jobs s)) as [Hj (es & Hes & HF)].
  set (c := inject_pushed pushed (sh_jobs s)) in *. set (s1 := set_sh_jobs _ s).
  assert (Forall (λ e, ∀ z l, e ≠ Completed id z l) (event_tx c)) as Hall.
  { rewrite Hes. apply Forall_app_2; apply list.Forall_forall.
    - intros e He z l ->. by apply (Hq z l).
    - intros e He z l ->. rewrite list.Forall_forall in HF. by specialize (HF _ He). }
  apply kept_trans with s1; [by split_and!|]. clearbody s1. generalize (event_tx c) Hall. intros q Hall'.
  revert s1. induction Hall' as [|e q He Hq' IH]; intros s1; cbn [foldl]; [apply kept_refl|].
  eapply kept_trans; [by apply kept_event|apply IH; by apply list.Forall_forall, list.Forall_forall].
Qed.

Lemma pushed_events_spare_jobs_witness :
  1%N ∈ sh_writers one_agent ∧
  1%N ∈ sh_writers (drain_job_events #"t" false [Completed 1%N 0%Z #"x"; Completed 2%N 0%Z #"y"] one_agent).
Proof.
  assert (1%N ∈ sh_writers one_agent) as Hin by (by apply (bool_decide_unpack _); vm_compute).
  split; [exact Hin|].
  destruct (pushed_events_spare_jobs #"t" false [Completed 1%N 0%Z #"x"; Completed 2%N 0%Z #"y"] 1%N one_agent) as [H _].
  - by vm_compute.
  - intros z l. assert (event_tx (sh_jobs one_agent) = []) as -> by (by vm_compute). apply not_elem_of_nil.
  - by apply H.
Defined.

Lemma on_completed_native id code n s :
  get id (sh_jobs s) = None → find_job nj_id id (native_jobs (sh_jobs s)) = Some n →
  let s' := on_completed id code s in
  (FSessionEnd id (nj_label n) code ∈ sh_fx s') ∧ sh_scopes s' = sh_scopes s ∖ {[id]} ∧
  sh_approvals s' = cleanup_job id (sh_approvals s) ∧ sh_jobs s' = sh_jobs s.
Proof.
  intros Hg Hn. unfold on_completed, name_for_end, dispatch_on_complete, agent_uuid, native_label. cbv zeta.
  rewrite Hg, Hn. cbn [fmap option_fmap option_map default].
  destruct (bool_decide (id ∈ sh_public s)); shell_simpl; rewrite ?Hg, ?Hn; cbn [fmap option_fmap option_map]; shell_simpl;
    rewrite ?Hg; cbn [existsb]; shell_simpl; (split; [|done]); set_solver.
Qed.

(** The check that a pushed event is not about a job of this shell looks only at the
    programs in a terminal. A completion the daemon pushes with the identifier of a native
    session that runs here, which both sides number from one, is handled as this session's:
    its session ends in the audit trail, its reasoning scope goes and its pending approvals
    are dropped, while the session itself stays in its table and runs on. *)
Theorem pushed_completion_ends_native (now : str) (obs : bool) (id : JobId) (code : Z) (lab : str)
    (n : NativeJobEntry) (s : ShellState) :
  get id (sh_jobs s) = None → find_job nj_id id (native_jobs (sh_jobs s)) = Some n → event_tx (sh_jobs s) = [] →
  let s' := drain_job_events now obs [Completed id code lab] s in
  (FSessionEnd id (nj_label n) code ∈ sh_fx s') ∧ (id ∉ sh_scopes s') ∧
  (∀ p, p ∈ pending (sh_approvals s') → pa_job p ≠ id) ∧
  find_job nj_id id (native_jobs (sh_jobs s')) = Some n.
Proof.
  intros Hg Hn Hq. unfold drain_job_events, take_events, inject_pushed. cbn [foldl event_job_id]. rewrite Hg.
  cbv beta iota zeta. assert (event_tx (send (Completed id code lab) (sh_jobs s)) = [Completed id code lab]) as ->
    by (cbn; by rewrite Hq). cbn [foldl].
  set (s1 := set_sh_jobs _ s). assert (get id (sh_jobs s1) = None ∧ find_job nj_id id (native_jobs (sh_jobs s1)) = Some n) as [Hg1 Hn1]
    by done. clearbody s1. unfold drain_event. cbv zeta.
  set (s0 := if obs then emit (FObserved _) s1 else s1).
  assert (get id (sh_jobs s0) = None ∧ find_job nj_id id (native_jobs (sh_jobs s0)) = Some n) as [Hg0 Hn0] by (by destruct obs).
  clearbody s0. destruct (on_completed_native id code n s0 Hg0 Hn0) as (Hf & Hs & Ha & Hj).
  set (s2 := on_completed id code s0) in *. clearbody s2.
  assert (∀ e s, sh_jobs (show_event e s) = sh_jobs s) as Hsj.
  { intros e t. unfold show_event. cbv zeta. by destruct (_ && _). }
  match goal with |- context [show_event ?e ?t] => destruct (show_event_spec e t) as (_ & Hs' & Ha' & post & Hf') end.
  rewrite Hs', Ha', Hf', Hsj. shell_simpl. rewrite Hs, Ha, Hj. split_and!; [set_solver|set_solver| |done].
  intros p Hin. unfold cleanup_job, send_cmd in Hin. destruct (janitor_degraded _) in Hin;
    by apply list_elem_of_filter in Hin as [Hin _].
Qed.

Definition one_native : ShellState :=
  mkShell (take_events (perform (sample_world None) (CNative #"nova" #"u2" 5%N) (with_next_id 1))).2
    (sh_approvals bare_shell) ∅ ∅ {[1%N]} ∅ ∅ ∅ [].

Lemma pushed_completion_ends_native_witness :
  (1%N ∈ sh_scopes one_native) ∧ (1%N ∉ sh_scopes (drain_job_events #"t" false [Completed 1%N 0%Z #"x"] one_native)).
Proof.
  split; [by apply (bool_decide_unpack _); vm_compute|].
  destruct (pushed_completion_ends_native #"t" false 1%N 0%Z #"x"
    (mkNative 1%N #"nova" #"u2" 5%N Running #"nova (native)") one_native) as (_ & H & _).
  - by vm_compute.
  - by vm_compute.
  - by vm_compute.
  - exact H.
Defined.
