(* ===== verification/Attention.v ===== *)
(** * The attention queue ([orkia-shell/src/attention.rs], [attention/resource.rs],
      [attention/audit.rs], [orkia-shell-types/src/attention.rs])

    One actor owns the list of what waits for the user: prompts of agents, queued input,
    approvals that block, and conflicts between agents that read and write the same files,
    which it finds in the hooks it is shown. Here are the actor's commands, the tracking
    of resources and the snapshot it publishes. The clock is an argument in nanoseconds;
    the order in which the table of reads is walked is the map's. *)
From Stdlib Require Import NArith ZArith Lia.
From stdpp Require Import base gmap strings option numbers list list_basics.
From S2P Require Import Prelude Text Words Effects Json Fs Journal Jobs.

(** ** Vocabulary *)

Definition AttentionId := N.
Definition attention_id_text (id : AttentionId) : str := #"attn-" ++ fmt_dec id.

Inductive AttentionKind := AgentPrompt | QueuedInput | BlockingApproval | ResourceConflict | AgentMessage.
#[export] Instance AttentionKind_eq : EqDecision AttentionKind.
Proof. solve_decision. Defined.

Definition kind_text (k : AttentionKind) : str :=
  match k with
  | AgentPrompt => #"agent_prompt" | QueuedInput => #"queued_input" | BlockingApproval => #"blocking_approval"
  | ResourceConflict => #"resource_conflict" | AgentMessage => #"agent_message"
  end.

Inductive AttentionSeverity := Fresh | Muted | Warning | Overdue | Blocking | Conflict.
#[export] Instance AttentionSeverity_eq : EqDecision AttentionSeverity.
Proof. solve_decision. Defined.

Inductive AttentionAction := Pull | Resolve | Allow | Deny | Inspect | Hold | AbortAgent (agent : str) | ProceedAnyway.

Definition action_text (a : AttentionAction) : str :=
  match a with
  | Pull => #"pull" | Resolve => #"resolve" | Allow => #"allow" | Deny => #"deny" | Inspect => #"inspect"
  | Hold => #"hold" | AbortAgent agent => #"abort-" ++ agent | ProceedAnyway => #"proceed-anyway"
  end.

Inductive AttentionResolveEffect :=
| NoEffect | HoldJob (id : N) | ReleaseJob (id : N) | StopJobEffect (id : N) | ApprovalEffect (id : N) (approved : bool).

Inductive AttentionHint := Passive (s : str) | BlockingHint (count : nat).

Record AttentionRow := mkRow {
  row_id : AttentionId; row_job : option N; row_agent : str; row_kind : AttentionKind; row_severity : AttentionSeverity;
  row_age : str; row_summary : str; row_actions : list AttentionAction }.

Record AttentionCommandResult := mkResult {
  res_rows : list AttentionRow; res_message : option str; res_effect : AttentionResolveEffect }.

(** ** Entries *)

(** A normalized path: rooted or not, and its parts; the path [.] has the part [.]. *)
Definition NPath : Type := bool * list str.

Record Entry := mkAttn {
  en_id : AttentionId; en_job : option JobId; en_agent : str; en_kind : AttentionKind; en_created : Z;
  en_summary : str; en_actions : list AttentionAction; en_resource : option NPath;
  en_journaled : AttentionSeverity }.

Record ResourceAccess := mkAccess { ac_job : JobId; ac_agent : str }.

Record State := mkState {
  next_entry : N;
  entries : list Entry;
  reads : gmap NPath ResourceAccess;
  held_jobs : gset N;
  journal_on : bool;
  journaled : list JournalEnvelope }.

Definition state_new : State := mkState 0 [] ∅ ∅ false [].

Definition set_entries (l : list Entry) (s : State) : State :=
  mkState (next_entry s) l (reads s) (held_jobs s) (journal_on s) (journaled s).
Definition set_reads (r : gmap NPath ResourceAccess) (s : State) : State :=
  mkState (next_entry s) (entries s) r (held_jobs s) (journal_on s) (journaled s).
Definition set_held (h : gset N) (s : State) : State :=
  mkState (next_entry s) (entries s) (reads s) h (journal_on s) (journaled s).

Inductive EntryKey := KindJob (kind : AttentionKind) (job : JobId) | ConflictKey (path : NPath) (job : JobId).

Record EntrySpec := mkSpec {
  sp_key : EntryKey; sp_job : option JobId; sp_agent : str; sp_kind : AttentionKind; sp_summary : str;
  sp_actions : list AttentionAction; sp_resource : option NPath }.

Definition spec_matches (sp : EntrySpec) (e : Entry) : bool :=
  match sp_key sp with
  | KindJob kind job => bool_decide (en_kind e = kind) && bool_decide (en_job e = Some job)
  | ConflictKey path job => bool_decide (en_kind e = ResourceConflict) && bool_decide (en_job e = Some job) &&
                            bool_decide (en_resource e = Some path)
  end.

Definition cut (s : str) (max : nat) : str :=
  if (length s <=? max)%nat then s else take max s ++ #"...".

(** ** Ages *)

Definition minutes (n : Z) : Z := (n * 60 * 1000000000)%Z.

Definition severity_for_age (age : Z) : AttentionSeverity :=
  if (minutes 60 <=? age)%Z then Overdue
  else if (minutes 30 <=? age)%Z then Warning
  else if (minutes 15 <=? age)%Z then Muted
  else Fresh.

Definition severity_for (now : Z) (e : Entry) : AttentionSeverity :=
  match en_kind e with
  | BlockingApproval => Blocking
  | ResourceConflict => Conflict
  | _ => severity_for_age (now - en_created e)
  end.

Definition severity_rank (s : AttentionSeverity) : N :=
  match s with Blocking => 5 | Conflict => 4 | Overdue => 3 | Warning => 2 | Muted => 1 | Fresh => 0 end.

Definition age_label (now created : Z) : str :=
  let age := (now - created)%Z in
  let mins := Z.quot age (minutes 1) in
  let hours := Z.quot age (minutes 60) in
  if (0 <? hours)%Z then fmt_dec (Z.to_N hours) ++ #"h " ++ fmt_dec (Z.to_N (Z.rem mins 60)) ++ #"m"
  else if (0 <? mins)%Z then fmt_dec (Z.to_N mins) ++ #"m"
  else #"now".

Definition row_for (now : Z) (e : Entry) : AttentionRow :=
  mkRow (en_id e) (en_job e) (en_agent e) (en_kind e) (severity_for now e) (age_label now (en_created e))
    (en_summary e) (en_actions e).

(** ** The journal ([attention/audit.rs]) *)

Definition path_display (p : NPath) : str :=
  let '(rooted, parts) := p in (if rooted then #"/" else []) ++ join #"/" parts.

Definition attention_envelope (event : str) (ts : str) (job : option N) (agent : str) (id : AttentionId) (summary : str)
    (target : option str) : JournalEnvelope :=
  mkJournalEnvelope ETShell ts None job None (Some #"orkia") (Some agent) (Some event) None target None
    (Some (attention_id_text id)) None (Some (cut summary 200)) None None None None None None None None None [].

Definition journal (e : JournalEnvelope) (s : State) : State :=
  if journal_on s
  then mkState (next_entry s) (entries s) (reads s) (held_jobs s) (journal_on s) (journaled s ++ [e])
  else s.

Section actor.
Context (now : Z) (ts : str).

Definition emit_entry_event (event : str) (e : Entry) (s : State) : State :=
  journal (attention_envelope event ts (en_job e) (en_agent e) (en_id e) (en_summary e) (path_display <$> en_resource e)) s.

Definition emit_row_event (event : str) (r : AttentionRow) (s : State) : State :=
  journal (attention_envelope event ts (row_job r) (row_agent r) (row_id r) (row_summary r) None) s.

(** ** Operations on the list *)

Definition u64_saturating_succ (n : N) : N := N.min (n + 1) 18446744073709551615.

Definition revise (sp : EntrySpec) (e : Entry) : Entry :=
  mkAttn (en_id e) (en_job e) (en_agent e) (en_kind e) (en_created e) (sp_summary sp) (sp_actions sp) (en_resource e)
    (en_journaled e).

Definition fresh_entry (id : AttentionId) (sp : EntrySpec) : Entry :=
  let e := mkAttn id (sp_job sp) (sp_agent sp) (sp_kind sp) now (sp_summary sp) (sp_actions sp) (sp_resource sp) Fresh in
  mkAttn id (sp_job sp) (sp_agent sp) (sp_kind sp) now (sp_summary sp) (sp_actions sp) (sp_resource sp)
    (severity_for now e).

Definition upsert (sp : EntrySpec) (s : State) : State :=
  if existsb (spec_matches sp) (entries s)
  then set_entries (update_first (spec_matches sp) (revise sp) (entries s)) s
  else
    let id := u64_saturating_succ (next_entry s) in
    let s := mkState id (entries s) (reads s) (held_jobs s) (journal_on s) (journaled s) in
    let e := fresh_entry id sp in
    let s := emit_entry_event #"attention.queued" e s in
    let s := if decide (en_kind e = ResourceConflict) then emit_entry_event #"resource.conflict" e s else s in
    set_entries (entries s ++ [e]) s.

(** [a] before [b]: older, then more severe, then the smaller identifier. *)
Definition entry_before (a b : Entry) : bool :=
  (en_created a <? en_created b)%Z ||
  ((en_created a =? en_created b)%Z &&
   ((severity_rank (severity_for now b) <? severity_rank (severity_for now a))%N ||
    ((severity_rank (severity_for now b) =? severity_rank (severity_for now a))%N && (en_id a <? en_id b)%N))).

Fixpoint insert_entry (x : Entry) (l : list Entry) : list Entry :=
  match l with
  | [] => [x]
  | y :: l' => if entry_before x y then x :: l else y :: insert_entry x l'
  end.
Definition sort_entries (l : list Entry) : list Entry := foldl (λ acc x, insert_entry x acc) [] l.

Definition rows (s : State) : list AttentionRow := map (row_for now) (sort_entries (entries s)).

Definition with_job (e : Entry) (f : N → AttentionResolveEffect) : AttentionResolveEffect :=
  match en_job e with Some id => f id | None => NoEffect end.

Definition resolve_effect (e : Entry) (action : str) : AttentionResolveEffect :=
  match en_kind e with
  | BlockingApproval =>
      if decide (action = #"allow") then with_job e (λ id, ApprovalEffect id true)
      else if decide (action = #"deny") then with_job e (λ id, ApprovalEffect id false)
      else NoEffect
  | ResourceConflict =>
      if starts_with #"abort-" action then with_job e StopJobEffect
      else if decide (action = #"proceed-anyway") then with_job e ReleaseJob
      else NoEffect
  | _ => NoEffect
  end.

Definition is_release (f : AttentionResolveEffect) : bool := match f with ReleaseJob _ => true | _ => false end.

Definition attention_resolve (id : AttentionId) (action : str) (s : State) : AttentionCommandResult * State :=
  match head (filter (λ e, en_id e = id) (entries s)) with
  | None => (mkResult [] (Some (#"attention entry " ++ attention_id_text id ++ #" not found")) NoEffect, s)
  | Some e =>
      match (if decide (en_kind e = ResourceConflict ∧ action = #"hold") then en_job e else None) with
      | Some job =>
          (mkResult [row_for now e] (Some (attention_id_text id ++ #" held")) (HoldJob job),
           emit_entry_event #"attention.resolved" e (set_held ({[job]} ∪ held_jobs s) s))
      | None =>
          let effect := resolve_effect e action in
          let s := set_entries (drop_first (λ x, (en_id x =? id)%N) (entries s)) s in
          let s := match en_job e with
                   | Some job => if is_release effect then set_held (held_jobs s ∖ {[job]}) s else s
                   | None => s
                   end in
          (mkResult [row_for now e] (Some (attention_id_text id ++ #" resolved with " ++ action)) effect,
           emit_entry_event #"attention.resolved" e s)
      end
  end.

Definition remove_job_entries (job : JobId) (event : str) (s : State) : State :=
  let s' := foldl (λ s e, if decide (en_job e = Some job) then emit_entry_event event e s else s) s (entries s) in
  set_entries (filter (λ e, en_job e ≠ Some job) (entries s)) s'.

Definition forget_job (job : JobId) (s : State) : State :=
  set_held (held_jobs s ∖ {[job]}) (set_reads (filter (λ ra, ac_job ra.2 ≠ job) (reads s)) s).

Definition emit_aged_events (s : State) : State :=
  let age e := mkAttn (en_id e) (en_job e) (en_agent e) (en_kind e) (en_created e) (en_summary e) (en_actions e)
                 (en_resource e) (severity_for now e) in
  let changed := map age (filter (λ e, severity_for now e ≠ en_journaled e) (entries s)) in
  foldl (λ s e, emit_entry_event #"attention.aged" e s) (set_entries (map age (entries s)) s) changed.

Definition hint_for (l : list AttentionRow) : option AttentionHint :=
  let blocking := length (filter (λ r, row_kind r = BlockingApproval) l) in
  if (0 <? blocking)%nat then Some (BlockingHint blocking) else
  match l with
  | [] => None
  | r :: l' =>
      let n := fmt_dec (N.of_nat (length l)) in
      if existsb (λ r, bool_decide (row_kind r = ResourceConflict)) l
      then Some (Passive (#"(" ++ n ++ #" queued " ++ [183%N] ++ #" conflict " ++ [183%N] ++ #" ^G)"))
      else if is_empty l' then Some (Passive (#"(@" ++ row_agent r ++ #" queued " ++ [183%N] ++ #" ^G)"))
      else Some (Passive (#"(" ++ n ++ #" queued " ++ [183%N] ++ #" oldest " ++ row_age r ++ #" " ++ [183%N] ++ #" ^G)"))
  end.

Definition publish_snapshot (s : State) : list AttentionRow * option AttentionHint * State :=
  let s := emit_aged_events s in (rows s, hint_for (rows s), s).

(** ** Resources ([attention/resource.rs]) *)

Definition normalize_step (acc : option NPath) (c : component) : option NPath :=
  '(rooted, parts) ← acc;
  match c with
  | RootDir => Some (true, [])
  | CurDir => Some (rooted, parts)
  | ParentDir => match reverse parts with [] => None | _ :: r => Some (rooted, reverse r) end
  | Normal s => Some (rooted, parts ++ [s])
  end.

Definition normalize_path (cs : list component) : option NPath :=
  '(rooted, parts) ← foldl normalize_step (Some (false, [])) cs;
  Some (if rooted || negb (is_empty parts) then (rooted, parts) else (false, [ #"."])).

Definition push_path (cwd : option str) (raw : option str) (out : list NPath) : list NPath :=
  match trim <$> raw with
  | None => out
  | Some raw =>
      if is_empty raw || (512 <? byte_len raw)%N || existsb (λ c, (c =? 0)%N) raw || starts_with #"-" raw then out else
      let joined := if starts_with #"/" raw then path_components raw
                    else match cwd with
                         | Some d => path_components d ++ path_components raw
                         | None => path_components raw
                         end in
      match normalize_path joined with Some p => out ++ [p] | None => out end
  end.

Definition push_value_paths (cwd : option str) (value : option json) (out : list NPath) : list NPath :=
  match value with
  | Some (JStr s) => push_path cwd (Some s) out
  | Some (JArr items) =>
      foldl (λ out item, match as_str item with Some s => push_path cwd (Some s) out | None => out end) out items
  | _ => out
  end.

Definition windows2 {A} (l : list A) : list (A * A) := zip l (drop 1 l).
Definition windows3 {A} (l : list A) : list (A * A * A) := zip (zip l (drop 1 l)) (drop 2 l).

Definition one_of (s : str) (l : list str) : bool := bool_decide (s ∈ l).

Definition push_bash_paths (cwd : option str) (command : option str) (out : list NPath) : list NPath :=
  match command with
  | None => out
  | Some command =>
      let tokens := split_whitespace command in
      let out := foldl (λ out '(a, b),
        if one_of a [ #"git"] && one_of b [ #"commit"] then push_path cwd (Some #".") out
        else if one_of a [ #"rm"; #"mv"; #"cp"] then push_path cwd (Some b) out
        else if one_of a [ #">"; #">>"] then push_path cwd (Some b) out
        else out) out (windows2 tokens) in
      foldl (λ out '(a, b, c),
        if one_of a [ #"cargo"] && one_of b [ #"test"; #"bench"; #"nextest"] then push_path cwd (Some c) out
        else if one_of a [ #"git"] && one_of b [ #"add"; #"restore"] then push_path cwd (Some c) out
        else if one_of a [ #"git"] && one_of b [ #"checkout"] && one_of c [ #"--"] then push_path cwd (Some #".") out
        else out) out (windows3 tokens)
  end.

Definition command_text (env : JournalEnvelope) : option str :=
  match obj_get #"command" (je_extra env) ≫= as_str with
  | Some s => Some s
  | None => match je_description env with Some s => Some s | None => je_target env end
  end.

(** The order of [Path]: component by component, a root before [.] before a name. *)
Definition part_leb (a b : str) : bool :=
  if decide (a = #".") then true else if decide (b = #".") then false else str_leb a b.

Fixpoint parts_leb (a b : list str) : bool :=
  match a, b with
  | [], _ => true
  | _ :: _, [] => false
  | x :: a', y :: b' => if decide (x = y) then parts_leb a' b' else part_leb x y
  end.

Definition path_leb (a b : NPath) : bool := if eqb a.1 b.1 then parts_leb a.2 b.2 else a.1.

Fixpoint insert_path (x : NPath) (l : list NPath) : list NPath :=
  match l with
  | [] => [x]
  | y :: l' => if decide (x = y) then l else if path_leb x y then x :: l else y :: insert_path x l'
  end.

(** [sort] and [dedup]. *)
Definition sort_paths (l : list NPath) : list NPath := foldr insert_path [] l.

Definition resource_paths (env : JournalEnvelope) : list NPath :=
  let x := je_extra env in
  let cwd := obj_get #"cwd" x ≫= as_str in
  let push key out := push_value_paths cwd (obj_get key x) out in
  let out := push_path cwd (je_target env) [] in
  let out := push #"target" (push #"path" (push #"file_path" out)) in
  let out := push #"files" (push #"paths" out) in
  let out := match obj_get #"tool_input" x with
             | Some ti => foldl (λ out key, push_value_paths cwd (jget key ti) out) out
                            [ #"file_path"; #"path"; #"target"; #"paths"; #"files"]
             | None => out
             end in
  let out := if is_empty out then push_bash_paths cwd (command_text env) out else out in
  sort_paths out.

Inductive ResourceIntent := ReadLong | Write | Unknown.

Definition is_test_command (env : JournalEnvelope) : bool :=
  match command_text env with
  | Some s => contains #"cargo test" s || contains #"cargo bench" s || contains #"cargo nextest" s
  | None => false
  end.

Definition is_write_command (env : JournalEnvelope) : bool :=
  match command_text env with
  | Some s => existsb (λ p, contains p s)
      [ #"git commit"; #"git add"; #"git restore"; #"git checkout --"; #"rm "; #"mv "; #"cp "; #" >"; #">>"]
  | None => false
  end.

Definition resource_intent (env : JournalEnvelope) : ResourceIntent :=
  let tool := default [] (je_tool env) in
  if one_of tool [ #"Read"; #"Grep"; #"Glob"; #"LS"] || is_test_command env then ReadLong
  else if one_of tool [ #"Edit"; #"Write"; #"MultiEdit"] || is_write_command env then Write
  else Unknown.

(** [Path::starts_with]: whole components. *)
Definition path_under (a b : NPath) : bool := eqb a.1 b.1 && bool_decide (take (length b.2) a.2 = b.2).
Definition paths_overlap (a b : NPath) : bool := bool_decide (a = b) || path_under a b || path_under b a.

Definition conflicts (job : JobId) (path : NPath) (s : State) : list (NPath * ResourceAccess) :=
  filter (λ ra, ac_job ra.2 ≠ job ∧ paths_overlap ra.1 path = true) (map_to_list (reads s)).

Definition conflict_spec (job : JobId) (agent : str) (path : NPath) (ra : NPath * ResourceAccess) : EntrySpec :=
  mkSpec (ConflictKey path job) (Some job) agent ResourceConflict
    (#"conflict: requester=" ++ agent ++ #" resource=" ++ path_display path ++ #" owner=" ++ ac_agent ra.2 ++
     #" active_read=" ++ path_display ra.1)
    [Hold; AbortAgent agent; ProceedAnyway] (Some path).

Definition blocking_spec (job : JobId) (agent action risk : str) : EntrySpec :=
  mkSpec (KindJob BlockingApproval job) (Some job) agent BlockingApproval
    (#"approval needed: " ++ action ++ #" (risk: " ++ risk ++ #")") [Allow; Deny; Inspect] None.

Definition finish_resource_access (env : JournalEnvelope) (s : State) : State :=
  match je_job_id env with
  | None => s
  | Some job =>
      let paths := resource_paths env in
      if is_empty paths then set_reads (filter (λ ra, ac_job ra.2 ≠ job) (reads s)) s
      else set_reads (filter (λ ra, ac_job ra.2 ≠ job ∨ existsb (paths_overlap ra.1) paths = false) (reads s)) s
  end.

Definition observe_hook (env : JournalEnvelope) (s : State) : State :=
  if decide (je_event env = Some #"PermissionRequest") then
    match je_job_id env with
    | Some job => upsert (blocking_spec job (default [] (je_agent env))
        (default #"request" (match je_action env with Some a => Some a | None => je_tool env end))
        (default #"unknown" (je_risk env))) s
    | None => s
    end
  else if decide (je_event env = Some #"PostToolUse" ∨ je_event env = Some #"Stop") then finish_resource_access env s
  else if decide (je_event env ≠ Some #"PreToolUse") then s
  else
    match je_job_id env with
    | None => s
    | Some job =>
        let paths := resource_paths env in
        let agent := default [] (je_agent env) in
        match resource_intent env with
        | ReadLong => set_reads (foldl (λ r p, <[p := mkAccess job agent]> r) (reads s) paths) s
        | Write => foldl (λ s path, foldl (λ s ra, upsert (conflict_spec job agent path ra) s) s (conflicts job path s)) s paths
        | Unknown => s
        end
    end.

(** ** The actor *)

Inductive Command :=
| CAgentPrompt (job : JobId) (agent summary : str) (pending_body : option str)
| CQueuedInput (job : JobId) (agent : str) (depth : N) (body : str)
| CBlockingApproval (job : JobId) (agent action risk : str)
| CResolveByJob (job : JobId)
| CJobEnded (job : JobId)
| CSetJournal (on : bool)
| CObserveHook (env : JournalEnvelope)
| CPull
| CResolve (id : AttentionId) (action : str).

Definition apply_command (c : Command) (s : State) : option AttentionCommandResult * State :=
  match c with
  | CAgentPrompt job agent summary body =>
      (None, upsert (mkSpec (KindJob AgentPrompt job) (Some job) agent AgentPrompt
               (match body with
                | Some b => #"waiting for input " ++ [8212%N] ++ #" pending: " ++ cut b 80
                | None => summary end) [Pull; Inspect] None) s)
  | CQueuedInput job agent depth body =>
      (None, upsert (mkSpec (KindJob QueuedInput job) (Some job) agent QueuedInput
               (fmt_dec depth ++ #" queued input(s): " ++ cut body 80) [Pull] None) s)
  | CBlockingApproval job agent action risk => (None, upsert (blocking_spec job agent action risk) s)
  | CResolveByJob job => (None, forget_job job (remove_job_entries job #"attention.resolved" s))
  | CJobEnded job => (None, forget_job job (remove_job_entries job #"attention.expired" s))
  | CSetJournal on => (None, mkState (next_entry s) (entries s) (reads s) (held_jobs s) on (journaled s))
  | CObserveHook env => (None, observe_hook env s)
  | CPull =>
      let l := rows s in
      let s := match head l with Some r => emit_row_event #"attention.pulled" r s | None => s end in
      let msg := match head l with
                 | Some r => attention_id_text (row_id r) ++ #" " ++ kind_text (row_kind r) ++ #" " ++ [183%N] ++ #" " ++
                             row_summary r
                 | None => #"attention queue is empty"
                 end in
      (Some (mkResult (take 1 l) (Some msg) NoEffect), s)
  | CResolve id action => let '(r, s) := attention_resolve id action s in (Some r, s)
  end.

(** One turn of the actor: a command or a tick, then the snapshot. *)
Definition turn (c : option Command) (s : State) : State :=
  let s := match c with Some c => (apply_command c s).2 | None => s end in (publish_snapshot s).2.

End actor.

Fixpoint turns (ts : str) (l : list (Z * option Command)) (s : State) : State :=
  match l with [] => s | (now, c) :: l' => turns ts l' (turn now ts c s) end.

(** ** Paths of resources *)

(** A name of a path: no separator, and not one of the dot names. *)
Definition part_ok (s : str) : Prop := s ≠ [] ∧ s ≠ #"." ∧ s ≠ #".." ∧ (chr_slash ∉ s).

Definition path_ok (p : NPath) : Prop :=
  p = (false, [ #"."]) ∨ (Forall part_ok p.2 ∧ (p.1 = true ∨ p.2 ≠ [])).

Lemma split_char_go_free sep cur s x : (sep ∉ cur) → x ∈ split_char_go sep cur s → sep ∉ x.
Proof.
  revert cur. induction s as [|c s IH]; intros cur Hc; simpl; [intros ->%list_elem_of_singleton; done|].
  destruct (N.eqb_spec c sep) as [->|Hne]; [rewrite elem_of_cons; intros [->|H]; [done|]; by apply (IH []); [set_solver|]|].
  apply IH. set_solver.
Qed.

Lemma components_ok t s : Normal s ∈ path_components t → part_ok s.
Proof.
  unfold path_components. rewrite elem_of_app. intros [H|H].
  { exfalso. destruct (starts_with _ t); [set_solver|]. destruct (split_char chr_slash t); [set_solver|].
    destruct (decide _); set_solver. }
  apply list_elem_of_bind in H as (seg & H & Hin). unfold segment_component in H.
  destruct (decide (seg = [])); [set_solver|]. destruct (decide (seg = #".")); [set_solver|].
  destruct (decide (seg = #"..")); [set_solver|]. apply list_elem_of_singleton in H. injection H as ->.
  split_and!; try done. apply (split_char_go_free chr_slash [] t); [set_solver|done].
Qed.

Lemma normalize_steps cs acc p : (∀ s, Normal s ∈ cs → part_ok s) →
  match acc with Some q => Forall part_ok q.2 | None => True end →
  foldl normalize_step acc cs = Some p → Forall part_ok p.2.
Proof.
  revert acc. induction cs as [|c cs IH]; intros acc Hcs Hacc; cbn [foldl]; [intros ->; done|].
  apply IH; [intros s Hs; apply Hcs; set_solver|]. destruct acc as [[r parts]|]; [|done]. simpl in Hacc |- *.
  destruct c; cbn; try done.
  - destruct (reverse parts) as [|x l] eqn:E; [done|]. simpl. apply list.Forall_reverse.
    apply (f_equal reverse) in E. rewrite reverse_involutive in E. rewrite E in Hacc. apply list.Forall_reverse in Hacc.
    rewrite reverse_involutive in Hacc. by apply list.Forall_cons in Hacc as [_ ?].
  - simpl. apply Forall_app_2; [done|]. constructor; [|constructor]. apply Hcs. set_solver.
Qed.

Lemma normalize_ok cs p : (∀ s, Normal s ∈ cs → part_ok s) → normalize_path cs = Some p → path_ok p.
Proof.
  intros Hcs. unfold normalize_path. destruct (foldl normalize_step (Some (false, [])) cs) as [[r parts]|] eqn:E; [|done].
  cbn [mbind option_bind]. intros [= <-]. apply normalize_steps in E; [|done|constructor].
  destruct (r || negb (is_empty parts)) eqn:Er; [right|by left]. split; [done|]. simpl.
  destruct r; [by left|]. right. by destruct parts.
Qed.

Lemma push_path_ok cwd raw out : Forall path_ok out → Forall path_ok (push_path cwd raw out).
Proof.
  intros Ho. unfold push_path. destruct (trim <$> raw) as [t|]; [|done]. destruct (_ || _ || _ || _); [done|].
  set (j := if starts_with #"/" t then _ else _).
  assert (∀ s, Normal s ∈ j → part_ok s) as Hj.
  { intros s. unfold j. destruct (starts_with #"/" t); [apply components_ok|].
    destruct cwd; [rewrite elem_of_app; intros [H|H]; by apply components_ok in H|apply components_ok]. }
  destruct (normalize_path j) as [p|] eqn:E; [|done]. apply Forall_app_2; [done|]. constructor; [|constructor].
  by apply normalize_ok in E.
Qed.

Lemma foldl_paths_ok {A} (f : list NPath → A → list NPath) (l : list A) out :
  (∀ o x, Forall path_ok o → Forall path_ok (f o x)) → Forall path_ok out → Forall path_ok (foldl f out l).
Proof. intros Hf. revert out. induction l as [|x l IH]; intros out Ho; simpl; auto. Qed.

Lemma push_value_ok cwd v out : Forall path_ok out → Forall path_ok (push_value_paths cwd v out).
Proof.
  intros Ho. unfold push_value_paths. destruct v as [[]|]; try done; [by apply push_path_ok|].
  apply foldl_paths_ok; [|done]. intros o x Hx. destruct (as_str x); [by apply push_path_ok|done].
Qed.

Lemma push_bash_ok cwd c out : Forall path_ok out → Forall path_ok (push_bash_paths cwd c out).
Proof.
  intros Ho. unfold push_bash_paths. destruct c as [c|]; [|done].
  apply foldl_paths_ok; [intros o [[a b] d] Hx; repeat case_match; by try apply push_path_ok|].
  apply foldl_paths_ok; [intros o [a b] Hx; repeat case_match; by try apply push_path_ok|done].
Qed.

Lemma insert_path_elem x y l : y ∈ insert_path x l ↔ y = x ∨ y ∈ l.
Proof. induction l as [|z l IH]; simpl; [set_solver|]. repeat case_decide; [set_solver|]. destruct (path_leb x z); set_solver. Qed.

Lemma sort_paths_elem y l : y ∈ sort_paths l ↔ y ∈ l.
Proof. unfold sort_paths. induction l as [|x l IH]; simpl; [done|]. rewrite insert_path_elem, IH. set_solver. Qed.

Lemma sort_paths_ok l : Forall path_ok l → Forall path_ok (sort_paths l).
Proof.
  intros H. apply list.Forall_forall. intros p Hp. rewrite sort_paths_elem in Hp. rewrite list.Forall_forall in H. by apply H.
Qed.

Lemma resource_paths_ok env : Forall path_ok (resource_paths env).
Proof.
  unfold resource_paths. cbv zeta. set (cwd := obj_get #"cwd" _ ≫= as_str).
  match goal with |- Forall _ (sort_paths (if is_empty ?o then _ else _)) => assert (Forall path_ok o) as Ho end.
  { destruct (obj_get #"tool_input" (je_extra env)) as [ti|];
      [apply foldl_paths_ok; [intros; by apply push_value_ok|]|]; do 5 apply push_value_ok; apply push_path_ok; constructor. }
  apply sort_paths_ok. destruct (is_empty _); [by apply push_bash_ok|done].
Qed.

(** ** The queue stays well formed *)

Definition slot (e : Entry) : AttentionKind * option JobId * option NPath := (en_kind e, en_job e, en_resource e).

Definition u64_max : N := 18446744073709551615.

Record well_formed (s : State) : Prop := {
  wf_ids : (next_entry s < u64_max)%N → NoDup (map en_id (entries s));
  wf_le : ∀ e, e ∈ entries s → (en_id e ≤ next_entry s)%N;
  wf_slots : NoDup (map slot (entries s));
  wf_shape : ∀ e, e ∈ entries s → is_Some (en_job e) ∧ (en_kind e = ResourceConflict ↔ is_Some (en_resource e)) ∧
                                  (∀ p, en_resource e = Some p → path_ok p);
  wf_reads : ∀ p a, reads s !! p = Some a → path_ok p;
  wf_next : (next_entry s ≤ u64_max)%N }.

Definition spec_ok (sp : EntrySpec) : Prop :=
  match sp_key sp with
  | KindJob k j => k ≠ ResourceConflict ∧ sp_kind sp = k ∧ sp_job sp = Some j ∧ sp_resource sp = None
  | ConflictKey p j => sp_kind sp = ResourceConflict ∧ sp_job sp = Some j ∧ sp_resource sp = Some p ∧ path_ok p
  end.

(** The parts the journal does not touch. *)
Definition same_queue (s s' : State) : Prop :=
  next_entry s' = next_entry s ∧ entries s' = entries s ∧ reads s' = reads s ∧ held_jobs s' = held_jobs s ∧
  journal_on s' = journal_on s.

Lemma journal_same e s : same_queue s (journal e s).
Proof. unfold journal. destruct (journal_on s) eqn:E; by split_and!. Qed.

Lemma foldl_same {A} (f : State → A → State) (l : list A) s :
  (∀ s x, same_queue s (f s x)) → same_queue s (foldl f s l).
Proof.
  intros Hf. revert s. induction l as [|x l IH]; intros s; simpl; [by split_and!|].
  destruct (Hf s x) as (?&?&?&?&?), (IH (f s x)) as (?&?&?&?&?). split_and!; congruence.
Qed.

Lemma wf_same s s' : same_queue s s' → well_formed s → well_formed s'.
Proof. intros (Hn & He & Hr & _) [H1 H2 H3 H4 H5 H6]. split; rewrite ?Hn, ?He, ?Hr; done. Qed.

Lemma wf_sub s s' : next_entry s' = next_entry s → entries s' `sublist_of` entries s → reads s' ⊆ reads s →
  well_formed s → well_formed s'.
Proof.
  intros Hn He Hr [H1 H2 H3 H4 H5 H6].
  assert (∀ e, e ∈ entries s' → e ∈ entries s) as Hin. { intros e Hin. by eapply elem_of_sublist. }
  split; rewrite ?Hn.
  - intros H. eapply sublist_NoDup; [by apply H1|]. by apply fmap_sublist.
  - eauto.
  - eapply sublist_NoDup; [exact H3|]. by apply fmap_sublist.
  - eauto.
  - intros p a Hp. apply (H5 p a). eapply lookup_weaken; eauto.
  - done.
Qed.

Lemma matches_slot sp e : spec_ok sp → is_Some (en_job e) →
  (en_kind e = ResourceConflict ↔ is_Some (en_resource e)) →
  spec_matches sp e = true ↔ slot e = (sp_kind sp, sp_job sp, sp_resource sp).
Proof.
  unfold spec_ok, spec_matches, slot. intros Hsp Hj Hk. destruct (sp_key sp) as [k j|p j].
  - destruct Hsp as (Hne & -> & -> & ->). rewrite andb_true_iff, !bool_decide_eq_true. split.
    + intros [Hek ->]. rewrite Hek in *. destruct (en_resource e); [|done]. exfalso. apply Hne, Hk. eauto.
    + by intros [= -> -> _].
  - destruct Hsp as (-> & -> & -> & _). rewrite !andb_true_iff, !bool_decide_eq_true. split; [by intros [[-> ->] ->]|].
    by intros [= -> -> ->].
Qed.

Lemma map_update {A B} (g : A → B) p f l : (∀ x, g (f x) = g x) → map g (update_first p f l) = map g l.
Proof. intros Hg. induction l as [|x l IH]; [done|]. simpl. destruct (p x); simpl; [by rewrite Hg|by rewrite IH]. Qed.

Lemma upsert_wf now ts sp s : spec_ok sp → well_formed s → well_formed (upsert now ts sp s).
Proof.
  intros Hsp Hwf. destruct Hwf as [H1 H2 H3 H4 H5 H6]. unfold upsert.
  destruct (existsb (spec_matches sp) (entries s)) eqn:Ex.
  { split; cbn [set_entries entries next_entry reads]; rewrite ?map_update by done; try done;
      intros e [He|(y & Hy & _ & ->)]%update_elem; [by apply H2|by apply (H2 y)|by apply H4|by apply (H4 y)]. }
  cbv zeta. set (id := u64_saturating_succ (next_entry s)). set (e := fresh_entry now id sp).
  set (s1 := mkState id _ _ _ _ _).
  match goal with |- well_formed (set_entries (entries ?s2 ++ [e]) ?s2) => assert (same_queue s1 s2) as (Hn & He & Hr & _) end.
  { destruct (decide _); [|apply journal_same].
    destruct (journal_same (attention_envelope #"attention.queued" ts (en_job e) (en_agent e) (en_id e) (en_summary e)
      (path_display <$> en_resource e)) s1) as (?&?&?&?&?).
    match goal with |- same_queue s1 (emit_entry_event _ _ _ ?s3) => destruct (journal_same (attention_envelope
      #"resource.conflict" ts (en_job e) (en_agent e) (en_id e) (en_summary e) (path_display <$> en_resource e)) s3)
      as (?&?&?&?&?) end. unfold emit_entry_event in *. split_and!; congruence. }
  match goal with |- well_formed (set_entries (entries ?s2 ++ [e]) ?s2) => set (s3 := s2) in * end. clearbody s3.
  assert (∀ x, x ∈ entries s → slot x ≠ (sp_kind sp, sp_job sp, sp_resource sp)) as Hno.
  { intros x Hx Hs. apply not_true_iff_false in Ex. apply Ex, existsb_exists. exists x. split; [by apply list_elem_of_In|].
    destruct (H4 x Hx) as (Hj & Hk & _). by apply matches_slot. }
  assert (next_entry s ≤ id ∧ (id < u64_max → next_entry s < u64_max ∧ next_entry s < id))%N as [Hle Hlt]
    by (unfold id, u64_saturating_succ, u64_max in *; lia).
  split; cbn [set_entries entries next_entry reads]; rewrite ?Hn, ?He, ?Hr; cbn [s1 next_entry entries reads].
  - intros [Hb Hs]%Hlt. rewrite map_app. apply list.NoDup_app. split_and!; [by apply H1| |by apply list.NoDup_singleton].
    intros i Hi Hi'. cbn in Hi'. apply list_elem_of_singleton in Hi' as ->. apply list_elem_of_fmap in Hi as (x & Hx & Hin).
    specialize (H2 x Hin). lia.
  - intros x [Hx|Hx]%elem_of_app; [specialize (H2 x Hx); lia|]. apply list_elem_of_singleton in Hx as ->. done.
  - rewrite map_app. apply list.NoDup_app. split_and!; [done| |by apply list.NoDup_singleton].
    intros i Hi Hi'. cbn in Hi'. apply list_elem_of_singleton in Hi' as ->. apply list_elem_of_fmap in Hi as (x & Hx & Hin).
    by apply (Hno x Hin).
  - intros x [Hx|Hx]%elem_of_app; [by apply H4|]. apply list_elem_of_singleton in Hx as ->. cbn.
    unfold spec_ok in Hsp. destruct (sp_key sp); destruct Hsp as (Ha & Hb & Hc & Hd).
    + rewrite Hc, Hd. split_and!; [eauto| |done]. rewrite Hb. split; [done|]. by intros [? ?].
    + rewrite Hb, Hc, Ha. split_and!; [eauto|split; eauto|congruence].
  - done.
  - unfold id, u64_saturating_succ, u64_max. lia.
Qed.

Lemma foldl_wf {A} (f : State → A → State) (l : list A) s :
  (∀ s x, x ∈ l → well_formed s → well_formed (f s x)) → well_formed s → well_formed (foldl f s l).
Proof.
  revert s. induction l as [|x l IH]; intros s Hf Hs; simpl; [done|]. apply IH; [intros; apply Hf; set_solver|].
  apply Hf; [set_solver|done].
Qed.

Lemma emit_same ts event e s : same_queue s (emit_entry_event ts event e s).
Proof. apply journal_same. Qed.

Lemma forget_wf job s : well_formed s → well_formed (forget_job job s).
Proof. apply wf_sub; [done|done|]. apply map_filter_subseteq. Qed.

Lemma remove_job_same ts job event s :
  let s' := remove_job_entries ts job event s in
  next_entry s' = next_entry s ∧ entries s' = filter (λ e, en_job e ≠ Some job) (entries s) ∧ reads s' = reads s ∧
  held_jobs s' = held_jobs s.
Proof.
  unfold remove_job_entries. cbv zeta. cbn [set_entries next_entry entries reads held_jobs].
  destruct (foldl_same (λ s e, if decide (en_job e = Some job) then emit_entry_event ts event e s else s) (entries s) s)
    as (?&?&?&?&_); [|by split_and!]. intros t x. destruct (decide _); [apply emit_same|by split_and!].
Qed.

Lemma remove_job_wf ts job event s : well_formed s → well_formed (remove_job_entries ts job event s).
Proof.
  destruct (remove_job_same ts job event s) as (Hn & He & Hr & _). apply wf_sub; [done| |by rewrite Hr].
  rewrite He. apply sublist_filter.
Qed.

Lemma drop_sublist {A} p (l : list A) : drop_first p l `sublist_of` l.
Proof. induction l as [|x l IH]; simpl; [done|]. destruct (p x); [by apply sublist_cons|by apply sublist_skip]. Qed.

Lemma attention_resolve_wf now ts id action s : well_formed s → well_formed (attention_resolve now ts id action s).2.
Proof.
  intros Hs. unfold attention_resolve. destruct (head _) as [e|]; [|done].
  destruct (if decide _ then en_job e else None) as [job|].
  - eapply wf_same; [apply emit_same|]. revert Hs. by apply wf_sub.
  - cbn [snd]. eapply wf_same; [apply emit_same|]. revert Hs. destruct (en_job e); [destruct (is_release _)|];
      apply wf_sub; try done; apply drop_sublist.
Qed.

Lemma conflict_spec_ok job agent path ra : path_ok path → spec_ok (conflict_spec job agent path ra).
Proof. done. Qed.

Lemma reads_ok (job : JobId) (agent : str) (paths : list NPath) (r : gmap NPath ResourceAccess) : Forall path_ok paths → (∀ p a, r !! p = Some a → path_ok p) →
  ∀ p a, foldl (λ (r : gmap NPath ResourceAccess) p, <[p := mkAccess job agent]> r) r paths !! p = Some a → path_ok p.
Proof.
  intros HF. revert r. induction HF as [|x l Hx HF IH]; intros r Hr; simpl; [done|]. apply IH. intros p a.
  destruct (decide (p = x)) as [->|Hne]; [done|]. rewrite lookup_insert_ne by done. apply Hr.
Qed.

Lemma observe_wf now ts env s : well_formed s → well_formed (observe_hook now ts env s).
Proof.
  intros Hs. unfold observe_hook. destruct (decide _); [destruct (je_job_id env); [by apply upsert_wf|done]|].
  destruct (decide _).
  { unfold finish_resource_access. destruct (je_job_id env); [|done]. destruct (is_empty _); revert Hs; apply wf_sub; try done;
      apply map_filter_subseteq. }
  destruct (decide _); [done|]. destruct (je_job_id env) as [job|]; [|done].
  pose proof (resource_paths_ok env) as Hp. destruct (resource_intent env); [| |done].
  - destruct Hs as [H1 H2 H3 H4 H5 H6]. split; try done. cbn. by apply reads_ok.
  - apply foldl_wf; [|done]. intros t path Hin Ht. apply foldl_wf; [|done]. intros t' ra _ Ht'.
    apply upsert_wf; [|done]. apply conflict_spec_ok. rewrite list.Forall_forall in Hp. by apply Hp.
Qed.

Lemma command_wf now ts c s : well_formed s → well_formed (apply_command now ts c s).2.
Proof.
  intros Hs. destruct c; cbn [apply_command snd]; try (by apply upsert_wf); try (by apply forget_wf, remove_job_wf).
  - revert Hs. by apply wf_sub.
  - by apply observe_wf.
  - destruct (head (rows now s)); [|done]. eapply wf_same; [apply journal_same|done].
  - pose proof (attention_resolve_wf now ts id action s Hs). by destruct (attention_resolve now ts id action s).
Qed.

Lemma aged_wf now ts s : well_formed s → well_formed (emit_aged_events now ts s).
Proof.
  intros Hs. unfold emit_aged_events. cbv zeta. set (age := λ e : Entry, mkAttn _ _ _ _ _ _ _ _ _).
  eapply wf_same; [apply foldl_same; intros; apply emit_same|].
  destruct Hs as [H1 H2 H3 H4 H5 H6].
  assert (∀ {B} (g : Entry → B) l, (∀ e, g (age e) = g e) → map g (map age l) = map g l) as Hmap.
  { intros B g l Hg. rewrite map_map. apply map_ext. done. }
  split; cbn [set_entries next_entry entries reads]; rewrite ?Hmap by done; try done.
  - intros e He. apply list_elem_of_fmap in He as (x & -> & Hx). by apply (H2 x).
  - intros e He. apply list_elem_of_fmap in He as (x & -> & Hx). by apply (H4 x).
Qed.

Lemma turns_wf ts l s : well_formed s → well_formed (turns ts l s).
Proof.
  revert s. induction l as [|[now c] l IH]; intros s Hs; [done|]. cbn [turns]. apply IH. unfold turn, publish_snapshot. cbn [snd].
  apply aged_wf. destruct c; [by apply command_wf|done].
Qed.

(** C31: Whatever commands, hooks and ticks the attention actor handles, its queue stays
    well formed: while fewer than 2^64 - 1 entries were made no two entries share an
    identifier; there is at most one entry for a kind and job, and one for a conflict's
    job and resource; every entry names its job; exactly the conflicts carry a resource;
    and every path kept, of an entry or of a recorded read, is normalized: no empty, [.]
    or [..] part and no separator inside a part, whatever text a hook carried. *)
Theorem attention_well_formed (ts : str) (l : list (Z * option Command)) :
  well_formed (turns ts l state_new).
Proof.
  apply turns_wf. split; cbn; try done; try (intros; set_solver); constructor.
Qed.

(** ** Conflicts *)

Lemma upsert_queue now ts sp s :
  reads (upsert now ts sp s) = reads s ∧
  (∀ k, k ∈ map slot (entries s) → k ∈ map slot (entries (upsert now ts sp s))).
Proof.
  unfold upsert. destruct (existsb _ _); [split; [done|]; cbn; by rewrite map_update by done|]. cbv zeta.
  set (s1 := mkState _ _ _ _ _ _).
  match goal with |- context [set_entries (entries ?s2 ++ _) ?s2] => assert (same_queue s1 s2) as (_ & He & Hr & _) end.
  { destruct (decide _); [|apply emit_same].
    match goal with |- same_queue s1 (emit_entry_event ts ?a ?b (emit_entry_event ts ?c ?d s1)) =>
      destruct (emit_same ts c d s1) as (?&?&?&?&?), (emit_same ts a b (emit_entry_event ts c d s1)) as (?&?&?&?&?) end.
    split_and!; congruence. }
  split; [cbn [set_entries reads]; by rewrite Hr|]. intros k Hk. cbn [set_entries entries]. rewrite He. cbn [s1 entries]. rewrite map_app. set_solver.
Qed.

Lemma upsert_makes now ts sp s path job : sp_key sp = ConflictKey path job → spec_ok sp →
  (ResourceConflict, Some job, Some path) ∈ map slot (entries (upsert now ts sp s)).
Proof.
  intros Hk Hsp. unfold spec_ok in Hsp. rewrite Hk in Hsp. destruct Hsp as (H1 & H2 & H3 & _). unfold upsert.
  destruct (existsb (spec_matches sp) (entries s)) eqn:Ex.
  - cbn. rewrite map_update by done. apply existsb_exists in Ex as (e & Hin%list_elem_of_In & Hm).
    apply list_elem_of_fmap. exists e. split; [|done]. unfold spec_matches in Hm. rewrite Hk in Hm. unfold slot.
    apply andb_true_iff in Hm as [[Ha%bool_decide_eq_true Hb%bool_decide_eq_true]%andb_true_iff Hc%bool_decide_eq_true].
    by rewrite Ha, Hb, Hc.
  - cbv zeta. cbn [set_entries entries]. rewrite map_app, elem_of_app. right. cbn [map]. rewrite list_elem_of_singleton.
    unfold slot, fresh_entry. cbn. by rewrite H1, H2, H3.
Qed.

Lemma foldl_slots {A} (f : State → A → State) (l : list A) s :
  (∀ s x, reads (f s x) = reads s ∧ ∀ k, k ∈ map slot (entries s) → k ∈ map slot (entries (f s x))) →
  reads (foldl f s l) = reads s ∧ ∀ k, k ∈ map slot (entries s) → k ∈ map slot (entries (foldl f s l)).
Proof.
  intros Hf. revert s. induction l as [|x l IH]; intros s; simpl; [done|].
  destruct (Hf s x) as [Hr Hk], (IH (f s x)) as [Hr' Hk']. split; [congruence|auto].
Qed.

(** The hooks of one tool call. *)
Definition tool_hook (env : JournalEnvelope) (event : str) (job : JobId) (paths : list NPath) (i : ResourceIntent) : Prop :=
  je_event env = Some event ∧ je_job_id env = Some job ∧ resource_paths env = paths ∧ resource_intent env = i.

Lemma observe_write now ts env job paths s : tool_hook env #"PreToolUse" job paths Write →
  observe_hook now ts env s =
  foldl (λ s path, foldl (λ s ra, upsert now ts (conflict_spec job (default [] (je_agent env)) path ra) s) s
                     (conflicts job path s)) s paths.
Proof.
  intros (He & Hj & Hp & Hi). unfold observe_hook. rewrite He, Hj, Hp, Hi.
  rewrite decide_False by done. rewrite decide_False by naive_solver. by rewrite decide_False by naive_solver.
Qed.

Lemma observe_read now ts env job paths s : tool_hook env #"PreToolUse" job paths ReadLong →
  observe_hook now ts env s =
  set_reads (foldl (λ (r : gmap NPath ResourceAccess) p, <[p := mkAccess job (default [] (je_agent env))]> r) (reads s) paths) s.
Proof.
  intros (He & Hj & Hp & Hi). unfold observe_hook. rewrite He, Hj, Hp, Hi.
  rewrite decide_False by done. rewrite decide_False by naive_solver. by rewrite decide_False by naive_solver.
Qed.

(** A write that overlaps a read another agent's job has recorded raises a conflict:
    after the hook of the write there is an entry for that job and that path, whatever
    else is in the queue and however many paths the call writes. *)
Theorem conflict_raised (now : Z) (ts : str) (env : JournalEnvelope) (job : JobId) (paths : list NPath) (path q : NPath)
    (a : ResourceAccess) (s : State) :
  tool_hook env #"PreToolUse" job paths Write → path ∈ paths →
  reads s !! q = Some a → ac_job a ≠ job → paths_overlap q path = true →
  ∃ e, e ∈ entries (observe_hook now ts env s) ∧ en_kind e = ResourceConflict ∧ en_job e = Some job ∧
       en_resource e = Some path.
Proof.
  intros Hh Hin Hq Ha Ho. pose proof (resource_paths_ok env) as Hok. destruct Hh as (He & Hj & Hp & Hi).
  rewrite (observe_write now ts env job paths s) by (by split_and!). rewrite Hp in Hok.
  set (f := λ s path, foldl _ s (conflicts job path s)).
  assert (∀ s x, reads (f s x) = reads s ∧ ∀ k, k ∈ map slot (entries s) → k ∈ map slot (entries (f s x))) as Hf.
  { intros t x. apply foldl_slots. intros u ra. apply upsert_queue. }
  assert ((ResourceConflict, Some job, Some path) ∈ map slot (entries (foldl f s paths))) as Hs.
  { apply list_elem_of_split in Hin as (l1 & l2 & ->). rewrite foldl_app. cbn [foldl].
    destruct (foldl_slots f l1 s Hf) as [Hr1 _]. set (s1 := foldl f s l1) in *. apply (foldl_slots f l2); [done|].
    unfold f. assert ((q, a) ∈ conflicts job path s1) as Hc.
    { unfold conflicts. apply list_elem_of_filter. split; [done|]. by apply elem_of_map_to_list; rewrite Hr1. }
    apply list_elem_of_split in Hc as (c1 & c2 & ->). rewrite foldl_app. cbn [foldl].
    apply (foldl_slots _ c2); [intros; apply upsert_queue|]. eapply upsert_makes; [done|].
    apply conflict_spec_ok. rewrite list.Forall_forall in Hok. apply Hok. set_solver. }
  apply list_elem_of_fmap in Hs as (e & Hse & Hine). exists e. unfold slot in Hse. by injection Hse as -> -> ->.
Qed.

(** C40: The table of reads keeps one reader per path, the last. When a second job reads a
    path a first one is still reading and then writes it, no conflict is raised, though
    without its own read one would be: the queue is as it was, while the first job's read
    was never finished. *)
Theorem second_reader_hides_conflict (now : Z) (ts : str) (h1 h2 hw : JournalEnvelope) (j1 j2 : JobId) (p : NPath)
    (s : State) :
  j1 ≠ j2 → reads s = ∅ →
  tool_hook h1 #"PreToolUse" j1 [p] ReadLong → tool_hook h2 #"PreToolUse" j2 [p] ReadLong →
  tool_hook hw #"PreToolUse" j2 [p] Write →
  entries (observe_hook now ts hw (observe_hook now ts h2 (observe_hook now ts h1 s))) = entries s ∧
  ∃ e, e ∈ entries (observe_hook now ts hw (observe_hook now ts h1 s)) ∧
       en_kind e = ResourceConflict ∧ en_job e = Some j2 ∧ en_resource e = Some p.
Proof.
  intros Hne Hr H1 H2 Hw.
  assert (path_ok p) as Hok.
  { pose proof (resource_paths_ok hw) as Hp. destruct Hw as (_ & _ & Hp' & _). rewrite Hp' in Hp. by apply list.Forall_cons in Hp as [? _]. }
  rewrite (observe_read now ts h1 j1 [p]) by done. cbn [foldl]. rewrite Hr. split.
  - rewrite (observe_read now ts h2 j2 [p]) by done. cbn [foldl set_reads reads]. rewrite insert_insert_eq.
    rewrite (observe_write now ts hw j2 [p]) by done. cbn [foldl]. unfold conflicts. cbn [set_reads reads].
    rewrite insert_empty, map_to_list_singleton, filter_cons, decide_False; [done|]. cbn. naive_solver.
  - rewrite (observe_write now ts hw j2 [p]) by done. cbn [foldl]. unfold conflicts. cbn [set_reads reads].
    rewrite insert_empty, map_to_list_singleton, filter_cons, decide_True.
    2:{ cbn. split; [done|]. unfold paths_overlap. by rewrite bool_decide_true. }
    rewrite filter_nil. cbn [foldl].
    assert ((ResourceConflict, Some j2, Some p) ∈ map slot (entries (upsert now ts (conflict_spec j2 (default [] (je_agent hw)) p
      (p, mkAccess j1 (default [] (je_agent h1)))) (set_reads {[p := mkAccess j1 (default [] (je_agent h1))]} s)))) as Hs
      by (by apply upsert_makes).
    apply list_elem_of_fmap in Hs as (e & Hse & Hine). exists e. unfold slot in Hse. by injection Hse as -> -> ->.
Qed.

(** A tool hook with its target. *)
Definition sample_hook (tool : str) (job : JobId) (agent target : str) : JournalEnvelope :=
  mkJournalEnvelope ETHook #"t" None (Some job) None None (Some agent) (Some #"PreToolUse") (Some tool) (Some target) None
    None None None None None None None None None None None None [].

Definition lib_rs : NPath := (true, [ #"src"; #"lib.rs"]).

Lemma conflict_raised_witness :
  ∃ e, e ∈ entries (observe_hook 5 #"t" (sample_hook #"Edit" 2%N #"nova" #"/src/lib.rs")
                     (mkState 0 [] {[(true, [ #"src"]) := mkAccess 1%N #"faye"]} ∅ false [])) ∧
       en_kind e = ResourceConflict ∧ en_job e = Some 2%N ∧ en_resource e = Some lib_rs.
Proof.
  apply (conflict_raised 5 #"t" _ 2%N [lib_rs] lib_rs (true, [ #"src"]) (mkAccess 1%N #"faye")).
  - split_and!; by vm_compute.
  - left.
  - apply lookup_singleton_eq.
  - done.
  - by vm_compute.
Defined.

Lemma second_reader_hides_conflict_witness :
  let read j a := sample_hook #"Read" j a #"/src/lib.rs" in
  entries (observe_hook 5 #"t" (sample_hook #"Edit" 2%N #"nova" #"/src/lib.rs")
             (observe_hook 5 #"t" (read 2%N #"nova") (observe_hook 5 #"t" (read 1%N #"faye") state_new))) = [].
Proof.
  apply (second_reader_hides_conflict 5 #"t" (sample_hook #"Read" 1%N #"faye" #"/src/lib.rs")
    (sample_hook #"Read" 2%N #"nova" #"/src/lib.rs") (sample_hook #"Edit" 2%N #"nova" #"/src/lib.rs") 1%N 2%N lib_rs state_new).
  - done.
  - done.
  - split_and!; by vm_compute.
  - split_and!; by vm_compute.
  - split_and!; by vm_compute.
Defined.

(** ** Answers *)

Lemma head_filter_id id l e : head (filter (λ e, en_id e = id) l) = Some e → e ∈ l ∧ en_id e = id.
Proof.
  intros H. assert (e ∈ filter (λ e, en_id e = id) l) as Hin by (destruct (filter _ l); simplify_eq/=; constructor).
  by apply list_elem_of_filter in Hin as [? ?].
Qed.

Lemma drop_id id l : NoDup (map en_id l) → id ∉ map en_id (drop_first (λ x, (en_id x =? id)%N) l).
Proof.
  induction l as [|x l IH]; simpl; [set_solver|]. intros [Hx Hl]%list.NoDup_cons.
  destruct (N.eqb_spec (en_id x) id) as [<-|Hne]; [done|]. simpl. rewrite not_elem_of_cons. auto.
Qed.

(** The queue answers for an approval only what the user said about that approval: an
    approval effect comes from an entry of that identifier that blocks on an approval,
    carries that entry's job, says yes only to [allow] and no only to [deny], and the
    entry is then gone, so it is given once. No other kind of entry and no other word
    approves or denies anything. *)
Theorem approval_answers_entry (now : Z) (ts : str) (id : AttentionId) (action : str) (job : N) (yes : bool) (s : State) :
  NoDup (map en_id (entries s)) →
  res_effect (attention_resolve now ts id action s).1 = ApprovalEffect job yes →
  (∃ e, e ∈ entries s ∧ en_id e = id ∧ en_kind e = BlockingApproval ∧ en_job e = Some job) ∧
  action = (if yes then #"allow" else #"deny") ∧
  id ∉ map en_id (entries (attention_resolve now ts id action s).2).
Proof.
  intros Hnd. unfold attention_resolve. destruct (head _) as [e|] eqn:Eh; [|done]. apply head_filter_id in Eh as [Hin Hid].
  destruct (if decide _ then en_job e else None) as [j|] eqn:Eho; [done|]. cbn [fst snd res_effect].
  unfold resolve_effect, with_job. destruct (en_kind e) eqn:Ek; try done.
  2:{ intros Hf. exfalso. revert Hf. destruct (starts_with #"abort-" action); [by destruct (en_job e)|].
      destruct (decide (action = #"proceed-anyway")); [by destruct (en_job e)|done]. }
  intros Hf. assert (∃ b, en_job e = Some job ∧ b = yes ∧ action = (if b then #"allow" else #"deny")) as (b & Hj & -> & Ha).
  { destruct (decide (action = #"allow")) as [->|]; [exists true|destruct (decide (action = #"deny")) as [->|]; [exists false|done]];
      (destruct (en_job e); [|done]); by injection Hf as -> <-. }
  split_and!; [by exists e|done|].
  match goal with |- id ∉ map en_id (entries (emit_entry_event ts ?a ?b ?t)) => destruct (emit_same ts a b t) as (_ & He & _) end.
  rewrite He. clear He. rewrite Hj.
  match goal with |- context [if is_release ?x then _ else _] => destruct (is_release x) end; cbn [set_held set_entries entries];
    by apply drop_id.
Qed.

Definition one_approval : State := (apply_command 0 #"t" (CBlockingApproval 7%N #"faye" #"rm -rf" #"high") state_new).2.

Lemma approval_answers_entry_witness :
  res_effect (attention_resolve 5 #"t" 1%N #"allow" one_approval).1 = ApprovalEffect 7%N true ∧
  1%N ∉ map en_id (entries (attention_resolve 5 #"t" 1%N #"allow" one_approval).2).
Proof.
  split; [by vm_compute|].
  apply (approval_answers_entry 5 #"t" 1%N #"allow" 7%N true one_approval); [|by vm_compute].
  by apply (bool_decide_unpack _); vm_compute.
Defined.

(** Any other word resolves an approval away. [resolve] of a blocking approval with a
    word that is neither [allow] nor [deny], the offered [inspect] or a misspelling, has no
    effect on the approval and still takes the entry off the queue and says it was
    resolved: the agent waits on and the queue no longer shows it. *)
Theorem other_word_hides_approval (now : Z) (ts : str) (id : AttentionId) (action : str) (e : Entry) (s : State) :
  NoDup (map en_id (entries s)) → e ∈ entries s → en_id e = id → en_kind e = BlockingApproval →
  action ≠ #"allow" → action ≠ #"deny" →
  let '(r, s') := attention_resolve now ts id action s in
  res_effect r = NoEffect ∧ res_message r = Some (attention_id_text id ++ #" resolved with " ++ action) ∧
  id ∉ map en_id (entries s').
Proof.
  intros Hnd Hin Hid Hk Ha Hd. unfold attention_resolve.
  destruct (head (filter (λ e, en_id e = id) (entries s))) as [e'|] eqn:Eh.
  2:{ exfalso. assert (e ∈ filter (λ e, en_id e = id) (entries s)) as Hf by (by apply list_elem_of_filter).
      destruct (filter _ (entries s)); [set_solver|done]. }
  assert (e' = e) as ->.
  { apply head_filter_id in Eh as [Hin' Hid']. apply list_elem_of_lookup in Hin as [i Hi], Hin' as [k Hk'].
    assert (i = k) as -> by (eapply (NoDup_lookup (map en_id (entries s))); [done|rewrite list_lookup_fmap, Hi; cbn; by rewrite Hid
      |rewrite list_lookup_fmap, Hk'; cbn; by rewrite Hid']). congruence. }
  rewrite decide_False by (rewrite Hk; naive_solver). cbv beta iota zeta.
  unfold resolve_effect. rewrite Hk, !decide_False by done. split_and!; [done|done|].
  match goal with |- id ∉ map en_id (entries (emit_entry_event ts ?a ?b ?t)) => destruct (emit_same ts a b t) as (_ & He & _) end.
  rewrite He. cbn [is_release]. destruct (en_job e); by apply drop_id.
Qed.

Lemma other_word_hides_approval_witness :
  entries (attention_resolve 5 #"t" 1%N #"inspect" one_approval).2 = [] ∧
  1%N ∉ map en_id (entries (attention_resolve 5 #"t" 1%N #"inspect" one_approval).2).
Proof.
  split; [by vm_compute|].
  refine (proj2 (proj2 (other_word_hides_approval 5 #"t" 1%N #"inspect"
    (fresh_entry 0 1%N (blocking_spec 7%N #"faye" #"rm -rf" #"high")) one_approval _ _ eq_refl eq_refl _ _))).
  - by apply (bool_decide_unpack _); vm_compute.
  - vm_compute. left.
  - done.
  - done.
Defined.
