(* ===== verification/SealAudit.v ===== *)
(** * Reports on the audit chains ([orkia-shell/src/seal/audit.rs], [seal/audit_verify.rs]),
      the migration of the old chain ([seal/migrate.rs]) and scope events ([seal/emit.rs])

    The [audit] command reads the chains of [Seal] from disk, verifies them and shows them.
    The file system may refuse any call; a slice of a string off a character boundary is a
    panic, the one error of a report. The two functions that change something here are the
    renaming of the chain older versions wrote and the double emission of a scope change,
    to a chain and to the journal.

    The theorems: when a report says that all chains verify, which exit code a verdict is
    shown with, that an export is a chain file, and what the reports do not see. *)
From Stdlib Require Import NArith ZArith Lia.
From stdpp Require Import base gmap strings option numbers list list_basics sorting.
From S2P Require Import Prelude Text Words Effects Json Fs Journal RfcCore RfcStore Seal Stream Detector SealConsumer Resolution.

(** ** Reports *)

Inductive panicked := Panic.

Abbreviation Report := (M Fs panicked) (only parsing).

Section report.
Context `{!Sha256, !JsonText, !Serde SealRecord}.

Definition subdirs_of (dir : path) : Report (list str) := λ s,
  let '(names, s') := read_subdirs dir s in (Ok names, s').

Fixpoint collect {A B} (f : A → Report (list B)) (l : list A) : Report (list B) :=
  match l with
  | [] => mret []
  | x :: l' => y ← f x; ys ← collect f l'; mret (y ++ ys)
  end.

Fixpoint fold_m {A B} (f : A → B → Report A) (acc : A) (l : list B) : Report A :=
  match l with
  | [] => mret acc
  | x :: l' => acc' ← f acc x; fold_m f acc' l'
  end.

(** [{:<w}] *)
Definition pad_right (w : nat) (t : str) : str := t ++ replicate (w - length t) chr_space.

Definition CHAIN : str := [9939%N; 32%N].
Definition TICK : str := [10003%N].
Definition CROSS : str := [10007%N].
Definition DOT : str := [32%N; 183%N; 32%N].
Definition ARROW : str := [32%N; 8594%N; 32%N].
Definition DASH : str := [32%N; 8212%N; 32%N].

Definition fmt_len {A} (l : list A) : str := fmt_dec (N.of_nat (length l)).
Definition plural (n : nat) : str := if decide (n = 1) then [] else #"s".

(** *** Options *)

Record Opts := mkOpts {
  op_job : option N;
  op_project : option str;
  op_rfc : option str;
  op_verify : bool;
  op_rich : bool;
  op_deep : bool;
  op_export : bool;
  op_last : option N;
}.

Definition opts_default : Opts := mkOpts None None None false false false false None.

Definition with_job (v : option N) (o : Opts) : Opts :=
  match v with
  | Some _ => mkOpts v (op_project o) (op_rfc o) (op_verify o) (op_rich o) (op_deep o) (op_export o) (op_last o)
  | None => o
  end.
Definition with_project (v : option str) (o : Opts) : Opts :=
  match v with
  | Some _ => mkOpts (op_job o) v (op_rfc o) (op_verify o) (op_rich o) (op_deep o) (op_export o) (op_last o)
  | None => o
  end.
Definition with_rfc (v : option str) (o : Opts) : Opts :=
  match v with
  | Some _ => mkOpts (op_job o) (op_project o) v (op_verify o) (op_rich o) (op_deep o) (op_export o) (op_last o)
  | None => o
  end.
Definition with_last (v : option N) (o : Opts) : Opts :=
  match v with
  | Some _ => mkOpts (op_job o) (op_project o) (op_rfc o) (op_verify o) (op_rich o) (op_deep o) (op_export o) v
  | None => o
  end.
Definition with_verify (rich : bool) (o : Opts) : Opts :=
  mkOpts (op_job o) (op_project o) (op_rfc o) true (rich || op_rich o) (op_deep o) (op_export o) (op_last o).
Definition with_deep (o : Opts) : Opts :=
  mkOpts (op_job o) (op_project o) (op_rfc o) (op_verify o) (op_rich o) true (op_export o) (op_last o).
Definition with_export (o : Opts) : Opts :=
  mkOpts (op_job o) (op_project o) (op_rfc o) (op_verify o) (op_rich o) (op_deep o) true (op_last o).

Definition parse_usize : str → option N := parse_uint 18446744073709551615.

(** The text after an option's [=]. *)
Definition after_eq (name a : str) : option str :=
  if starts_with name a then Some (drop (length name) a) else None.

(** An argument that does not take the next one. *)
Definition parse_single (a : str) (out : Opts) : Opts :=
  if decide (a = #"--verify") then with_verify true out
  else if decide (a = #"--deep") then with_deep out
  else if decide (a = #"--export") then with_export out
  else match after_eq #"--job=" a with
  | Some v => with_job (parse_u32 v) out
  | None => match after_eq #"--project=" a with
  | Some v => with_project (Some v) out
  | None => match after_eq #"--rfc=" a with
  | Some v => with_rfc (Some v) out
  | None => match after_eq #"--last=" a with
  | Some v => with_last (parse_usize v) out
  | None =>
      if decide (a = #"verify") then with_verify false out
      else if negb (starts_with #"--" a) && bool_decide (op_project out = None)
      then with_project (Some a) out
      else out
  end end end end.

(** One that does, with the value found there. *)
Definition parse_valued (a : str) : option (option str → Opts → Opts) :=
  if decide (a = #"--job") then Some (λ v, with_job (v ≫= parse_u32))
  else if decide (a = #"--project") then Some with_project
  else if decide (a = #"--rfc") then Some with_rfc
  else if decide (a = #"--last") then Some (λ v, with_last (v ≫= parse_usize))
  else None.

Fixpoint parse_args_from (out : Opts) (args : list str) : Opts :=
  match args with
  | [] => out
  | a :: rest =>
      match parse_valued a with
      | Some set =>
          match rest with
          | [] => set None out
          | v :: rest' => parse_args_from (set (Some v) out) rest'
          end
      | None => parse_args_from (parse_single a out) rest
      end
  end.

Definition parse_args (args : list str) : Opts := parse_args_from opts_default args.

(** *** Rows *)

(** [s[..n]]: a panic off a character boundary. *)
Fixpoint byte_prefix (n : N) (s : str) : option str :=
  if (n =? 0)%N then Some []
  else match s with
       | [] => None
       | c :: s' => if (n <? utf8_len c)%N then None else cons c <$> byte_prefix (n - utf8_len c) s'
       end.

Definition hash_short (h : str) : Report str :=
  if (12 <=? byte_len h)%N
  then match byte_prefix 12 h with Some p => mret p | None => throw Panic end
  else mret h.

Definition record_row (record : SealRecord) : Report (list BlockContent) :=
  h ← hash_short (sr_hash record);
  mret [SealRow (sr_seq record) #"system" (sr_event_type record) h].

Definition verify_summary (ok : bool) (broken : option N) (label : str) : BlockContent :=
  if ok then SystemInfo (CHAIN ++ label ++ #" verified " ++ TICK)
  else ErrorBlock (CHAIN ++ label ++ #" BROKEN at seq " ++ fmt_dec (default 0%N broken)).

Definition verify_block (label : str) (verify_result : bool * option N) (record_count : nat) : list BlockContent :=
  let '(ok, broken) := verify_result in
  if ok then [SystemInfo (CHAIN ++ label ++ #": SEAL chain verified " ++ TICK ++ #" (" ++
                fmt_dec (N.of_nat record_count) ++ #" records)")]
  else [ErrorBlock (CHAIN ++ label ++ #": SEAL chain BROKEN at seq " ++ fmt_dec (default 0%N broken))].

Definition export_records (rs : list SealRecord) : list BlockContent :=
  [TextBlock (join [chr_nl] (omap (λ r, to_option (ser r)) rs))].

Definition export_chain (chain : SealChain) : list BlockContent := export_records (ch_records chain).

(** The records a view shows: the last ones asked for. *)
Definition last_records (last : option N) (rs : list SealRecord) : list SealRecord :=
  let n := match last with Some n => N.to_nat n | None => length rs end in drop (length rs - n) rs.

Definition load (p : path) : Report (result io_error SealChain) := attempt (chain_load p).

Definition load_failed (e : io_error) : list BlockContent :=
  [ErrorBlock (#"audit: load failed: " ++ io_error_text e)].

(** *** The chains on disk *)

Record JobChainSummary := mkJobChainSummary {
  jc_job_id : N; jc_agent : str; jc_record_count : nat; jc_closed : bool
}.

Record ProjectChainSummary := mkProjectChainSummary { pc_name : str; pc_record_count : nat; pc_job_refs : nat }.

Definition job_le (a b : JobChainSummary) : Prop :=
  (if decide (jc_agent a = jc_agent b) then (jc_job_id a <=? jc_job_id b)%N
   else str_leb (jc_agent a) (jc_agent b)) = true.
#[export] Instance job_le_dec : RelDecision job_le.
Proof. intros a b. unfold job_le. apply _. Defined.

Definition project_le (a b : ProjectChainSummary) : Prop := str_leb (pc_name a) (pc_name b) = true.
#[export] Instance project_le_dec : RelDecision project_le.
Proof. intros a b. unfold project_le. apply _. Defined.

Definition job_entry (agent_name : str) (jobs_dir : path) (name : str) : Report (list JobChainSummary) :=
  match parse_u32 name with
  | None => mret []
  | Some job_id =>
      let chain_path := path_join (jobs_dir ++ [name]) #"seal.jsonl" in
      there ← file_exists chain_path;
      if (there : bool) then
        c ← load chain_path;
        match c with
        | Ok chain => mret [mkJobChainSummary job_id agent_name (length (ch_records chain)) (ch_closed chain)]
        | Err _ => mret []
        end
      else mret []
  end.

Definition agent_entry (agents_dir : path) (agent_name : str) : Report (list JobChainSummary) :=
  let jobs_dir := path_join (agents_dir ++ [agent_name]) #"jobs" in
  entries ← subdirs_of jobs_dir;
  collect (job_entry agent_name jobs_dir) entries.

Definition list_job_chains (data_dir : path) : Report (list JobChainSummary) :=
  let agents_dir := path_join data_dir #"agents" in
  agents ← subdirs_of agents_dir;
  out ← collect (agent_entry agents_dir) agents;
  mret (merge_sort job_le out).

Definition is_reference (r : SealRecord) : bool := bool_decide (sr_event_type r = #"job.reference").

Definition project_entry (dir : path) (name : str) : Report (list ProjectChainSummary) :=
  let chain_path := path_join (dir ++ [name]) #"seal.jsonl" in
  there ← file_exists chain_path;
  if (there : bool) then
    c ← load chain_path;
    match c with
    | Ok chain => mret [mkProjectChainSummary name (length (ch_records chain))
                          (length (filter (λ r, is_reference r = true) (ch_records chain)))]
    | Err _ => mret []
    end
  else mret [].

Definition list_project_chains (data_dir : path) : Report (list ProjectChainSummary) :=
  let dir := path_join data_dir #"projects" in
  entries ← subdirs_of dir;
  out ← collect (project_entry dir) entries;
  mret (merge_sort project_le out).

Fixpoint first_there (candidate : str → path) (names : list str) : Report (option str) :=
  match names with
  | [] => mret None
  | name :: names' =>
      there ← file_exists (candidate name);
      if (there : bool) then mret (Some name) else first_there candidate names'
  end.

Definition find_agent_for_job (data_dir : path) (job_id : N) : Report (option str) :=
  let agents_dir := path_join data_dir #"agents" in
  agents ← subdirs_of agents_dir;
  first_there (λ a, path_join (path_join (path_join (agents_dir ++ [a]) #"jobs") (fmt_dec job_id)) #"seal.jsonl") agents.

Definition resolve_project_for_rfc (data_dir : path) (rfc_id : str) : Report (option str) :=
  let projects_dir := path_join data_dir #"projects" in
  entries ← subdirs_of projects_dir;
  first_there (λ p, path_join (path_join (projects_dir ++ [p]) #"rfcs") (rfc_id ++ #".md")) entries.

Definition job_path (data_dir : path) (agent : str) (job_id : N) : path :=
  path_join (path_join (path_join (path_join (path_join data_dir #"agents") agent) #"jobs") (fmt_dec job_id)) #"seal.jsonl".

Definition project_path (data_dir : path) (project : str) : path :=
  path_join (path_join (path_join data_dir #"projects") project) #"seal.jsonl".

(** *** [audit verify] *)

(** One chain: the blocks so far, whether all verify, whether there was one. *)
Definition verify_chain_at (acc : list BlockContent * bool * bool) (pl : path * str)
  : Report (list BlockContent * bool * bool) :=
  let '(blocks, all_ok, any) := acc in
  c ← load pl.1;
  match c with
  | Ok chain =>
      let '(ok, broken) := verify chain in
      mret (blocks ++ [verify_summary ok broken pl.2], all_ok && ok, true)
  | Err _ => mret acc
  end.

Definition ALL_VERIFIED : BlockContent := SystemInfo (CHAIN ++ #"all chains verified " ++ TICK).
Definition VERIFICATION_FAILED : BlockContent := ErrorBlock (CHAIN ++ #"verification failed").

Definition render_verify_all (data_dir : path) : Report (list BlockContent) :=
  let blocks := [SystemInfo (CHAIN ++ #"audit verify" ++ DOT ++ #"all chains")] in
  jobs ← list_job_chains data_dir;
  acc ← fold_m verify_chain_at (blocks, true, false)
          (map (λ j, (job_path data_dir (jc_agent j) (jc_job_id j),
                      #"job " ++ fmt_dec (jc_job_id j) ++ #" (" ++ jc_agent j ++ #")")) jobs);
  projects ← list_project_chains data_dir;
  acc' ← fold_m verify_chain_at acc
          (map (λ p, (project_path data_dir (pc_name p), #"project " ++ pc_name p)) projects);
  let '(blocks, all_ok, any) := acc' in
  mret (blocks ++ [if negb any then SystemInfo #" no SEAL chains yet"
                   else if (all_ok : bool) then ALL_VERIFIED else VERIFICATION_FAILED]).

(** *** One RFC *)

Definition record_belongs_to_rfc (record : SealRecord) (rfc_id : str) : bool :=
  if negb (starts_with #"rfc." (sr_event_type record)) then false
  else bool_decide (jget #"rfc_id" (sr_detail record) ≫= as_str = Some rfc_id)
       || bool_decide (jget #"slug" (sr_detail record) ≫= as_str = Some rfc_id).

Definition render_rfc_scope (data_dir : path) (rfc_id : str) (opts : Opts) : Report (list BlockContent) :=
  project ← match op_project opts with
            | Some p => mret (Some p)
            | None => resolve_project_for_rfc data_dir rfc_id
            end;
  match project with
  | None => mret [ErrorBlock (#"audit: rfc '" ++ rfc_id ++ #"' not found in any project (or pass --project <name>)")]
  | Some project =>
      c ← load (project_path data_dir project);
      match c with
      | Err e => mret (load_failed e)
      | Ok chain =>
          let filtered := filter (λ r, record_belongs_to_rfc r rfc_id = true) (ch_records chain) in
          if is_empty filtered then
            mret [SystemInfo (#"audit: no rfc.* records for '" ++ rfc_id ++ #"' in project " ++ project)]
          else if op_export opts then mret (export_records filtered)
          else if op_verify opts then
            mret (SystemInfo (CHAIN ++ #"rfc " ++ rfc_id ++ #": " ++ fmt_len filtered ++ #" rfc.* record(s) of "
                              ++ fmt_len (ch_records chain) ++ #" total in project chain")
                  :: verify_block (#"rfc " ++ rfc_id ++ #" (project " ++ project ++ #")") (verify chain)
                       (length filtered))
          else
            rows ← collect record_row (last_records (op_last opts) filtered);
            mret (SystemInfo (CHAIN ++ #"SEAL chain" ++ DOT ++ #"rfc " ++ rfc_id ++ #" (project " ++ project ++ #")"
                              ++ DOT ++ fmt_len filtered ++ #" rfc record(s)") :: rows)
      end
  end.

(** *** Summary *)

Definition job_line (j : JobChainSummary) : BlockContent :=
  TextBlock (#"  job " ++ pad_right 4 (fmt_dec (jc_job_id j)) ++ #" (" ++ jc_agent j ++ #")" ++ DOT
             ++ fmt_dec (N.of_nat (jc_record_count j)) ++ #" records"
             ++ if jc_closed j then DOT ++ #"closed" else []).

Definition project_line (p : ProjectChainSummary) : BlockContent :=
  TextBlock (#"  " ++ pad_right 24 (pc_name p) ++ DOT ++ fmt_dec (N.of_nat (pc_record_count p)) ++ #" records" ++ DOT
             ++ fmt_dec (N.of_nat (pc_job_refs p)) ++ #" job ref" ++ plural (pc_job_refs p)).

Definition render_summary (data_dir : path) : Report (list BlockContent) :=
  jobs ← list_job_chains data_dir;
  projects ← list_project_chains data_dir;
  let job_blocks := if is_empty jobs then [] else SystemInfo #" JOB CHAINS" :: map job_line jobs in
  let project_blocks := if is_empty projects then [] else SystemInfo #" PROJECT CHAINS" :: map project_line projects in
  let chains := length jobs + length projects in
  let total := sum_list (map jc_record_count jobs) + sum_list (map pc_record_count projects) in
  mret (job_blocks ++ project_blocks ++
        [if is_empty jobs && is_empty projects
         then SystemInfo (#" no SEAL chains yet" ++ DASH ++ #"run an agent or `rfc create` to start one")
         else TextBlock (#"  total: " ++ fmt_dec (N.of_nat total) ++ #" records across " ++ fmt_dec (N.of_nat chains)
                         ++ #" chain" ++ plural chains)]).

(** *** One job, one project *)

Definition render_job_scope (data_dir : path) (job_id : N) (opts : Opts) : Report (list BlockContent) :=
  agent ← find_agent_for_job data_dir job_id;
  match agent with
  | None => mret [ErrorBlock (#"audit: no job chain found for job " ++ fmt_dec job_id)]
  | Some agent =>
      c ← load (job_path data_dir agent job_id);
      match c with
      | Err e => mret (load_failed e)
      | Ok chain =>
          let label := #"job " ++ fmt_dec job_id ++ #" (" ++ agent ++ #")" in
          if op_export opts then mret (export_chain chain)
          else if op_verify opts then mret (verify_block label (verify chain) (length (ch_records chain)))
          else
            rows ← collect record_row (last_records (op_last opts) (ch_records chain));
            let '(ok, broken) := verify chain in
            mret (SystemInfo (CHAIN ++ #"SEAL chain" ++ DOT ++ label ++ DOT ++ fmt_len (ch_records chain) ++ #" records"
                              ++ if ch_closed chain then DOT ++ #"closed" else [])
                  :: rows ++ [verify_summary ok broken #"chain"])
      end
  end.

Definition mark (ok : bool) : str := if ok then TICK else CROSS.

Definition deep_job_line (jr : JobVerifyResult) : BlockContent :=
  TextBlock (#"    job " ++ pad_right 4 (fmt_dec (jv_job_id jr)) ++ #" (" ++ jv_agent jr ++ #")" ++ DOT
             ++ fmt_dec (N.of_nat (jv_record_count jr)) ++ #" records" ++ DOT ++ #"chain " ++ mark (jv_chain_ok jr)
             ++ DOT ++ #"tip " ++ mark (jv_tip_matches jr)).

Definition render_deep (data_dir : path) (scheduled : option str) (project : str) (s : Fs) : list BlockContent :=
  let result := verify_project_deep (manager_new data_dir scheduled) project s in
  let all_ok := dv_project_ok result && forallb (λ jr, jv_chain_ok jr && jv_tip_matches jr) (dv_job_results result) in
  [SystemInfo (CHAIN ++ #"DEEP VERIFY" ++ DOT ++ #"project " ++ project);
   TextBlock (#"  project chain: " ++ fmt_dec (N.of_nat (dv_project_records result)) ++ #" records "
              ++ mark (dv_project_ok result))]
  ++ (if is_empty (dv_job_results result) then [TextBlock #"  (no job references)"]
      else TextBlock #"  referenced jobs:" :: map deep_job_line (dv_job_results result))
  ++ [if all_ok then ALL_VERIFIED else VERIFICATION_FAILED].

Definition render_project_scope (data_dir : path) (scheduled : option str) (project : str) (opts : Opts)
  : Report (list BlockContent) :=
  c ← load (project_path data_dir project);
  match c with
  | Err e => mret (load_failed e)
  | Ok chain =>
      if is_empty (ch_records chain) then
        mret [ErrorBlock (#"audit: project '" ++ project ++ #"' has no SEAL chain yet")]
      else if op_export opts then mret (export_chain chain)
      else if op_deep opts then gets (render_deep data_dir scheduled project)
      else if op_verify opts then mret (verify_block (#"project " ++ project) (verify chain) (length (ch_records chain)))
      else
        rows ← collect record_row (last_records (op_last opts) (ch_records chain));
        let '(ok, broken) := verify chain in
        mret (SystemInfo (CHAIN ++ #"SEAL chain" ++ DOT ++ #"project " ++ project ++ DOT
                          ++ fmt_len (ch_records chain) ++ #" records")
              :: rows ++ [verify_summary ok broken #"chain"])
  end.

(** *** [audit --verify]: the verdicts of the cage *)

Record VerdictRow := mkVerdictRow {
  vr_verdict : str; vr_capability : option str; vr_command : str; vr_exit_code : option Z
}.

Definition str_field (r : SealRecord) (key : str) : option str := jget key (sr_detail r) ≫= as_str.

(** [as i32] *)
Definition wrap_i32 (z : Z) : Z := ((z + 2 ^ 31) mod 2 ^ 32 - 2 ^ 31)%Z.

Definition exit_field (r : SealRecord) : option Z := wrap_i32 <$> (jget #"exit_code" (sr_detail r) ≫= as_i64).

Definition set_exit (row : VerdictRow) (e : option Z) : VerdictRow :=
  mkVerdictRow (vr_verdict row) (vr_capability row) (vr_command row) e.

(** The rows so far, the last one first. *)
Definition collect_step (out : list VerdictRow) (r : SealRecord) : list VerdictRow :=
  if decide (sr_event_type r = #"cage.verdict") then
    let verdict := default #"?" (str_field r #"verdict") in
    let capability := str_field r #"capability" in
    if bool_decide (verdict = #"deny") || bool_decide (is_Some capability)
    then mkVerdictRow verdict capability (default [] (str_field r #"command")) None :: out
    else out
  else if decide (sr_event_type r = #"command.outcome") then
    match out with
    | row :: out' => match vr_exit_code row with None => set_exit row (exit_field r) :: out' | Some _ => out end
    | [] => out
    end
  else out.

Definition collect_verdicts (records : list SealRecord) : list VerdictRow :=
  reverse (foldl collect_step [] records).

Definition spine (verdicts : list VerdictRow) : str :=
  if is_empty verdicts then #"genesis" ++ ARROW ++ #"(no policy verdicts)"
  else #"genesis" ++ ARROW ++ [8230%N] ++ ARROW
       ++ join ARROW (map (λ v, #"verdict(" ++ vr_verdict v ++ #")") verdicts).

Definition truncate (s : str) (max : nat) : str :=
  if bool_decide (length s ≤ max) then s else take max s ++ [8230%N].

Definition verdict_row (row : VerdictRow) : BlockContent :=
  let cap := default #"default" (vr_capability row) in
  let exit := match vr_exit_code row with
              | Some e => #"  " ++ ESC ++ #"[90m(exit " ++ fmt_i32 e ++ #")" ++ ESC ++ #"[0m"
              | None => []
              end in
  let m := if decide (vr_verdict row = #"deny") then ESC ++ #"[31mdeny " ++ ESC ++ #"[0m"
           else ESC ++ #"[32mallow" ++ ESC ++ #"[0m" in
  TextBlock (#"     " ++ [9492%N; 9472%N; 32%N] ++ m ++ #" " ++ pad_right 11 cap ++ #" "
             ++ truncate (vr_command row) 48 ++ exit).

Definition render_chain (chain : SealChain) (j : JobChainSummary) : list BlockContent :=
  let verdicts := collect_verdicts (ch_records chain) in
  let '(ok, broken) := verify chain in
  [SystemInfo (CHAIN ++ #"audit verify" ++ DOT ++ #"job " ++ fmt_dec (jc_job_id j) ++ #" (" ++ jc_agent j ++ #")");
   TextBlock (#"  " ++ ESC ++ #"[90mwalking chain" ++ DOT ++ #"agents/" ++ jc_agent j ++ #"/jobs/"
              ++ fmt_dec (jc_job_id j) ++ #"/seal.jsonl" ++ ESC ++ #"[0m");
   TextBlock (#"  " ++ ESC ++ #"[90m" ++ spine verdicts ++ ESC ++ #"[0m");
   if ok then TextBlock (#"  " ++ ESC ++ #"[32m" ++ TICK ++ #" " ++ fmt_len (ch_records chain) ++ #" records" ++ DOT
                         ++ #"SHA-256 chain intact" ++ DOT ++ #"verify ok" ++ ESC ++ #"[0m")
   else ErrorBlock (#"SEAL chain BROKEN at seq " ++ fmt_dec (default 0%N broken))]
  ++ map verdict_row verdicts.

Definition rich_step (data_dir : path) (acc : list BlockContent * bool) (j : JobChainSummary)
  : Report (list BlockContent * bool) :=
  let '(blocks, all_ok) := acc in
  c ← load (job_path data_dir (jc_agent j) (jc_job_id j));
  match c with
  | Ok chain => mret (blocks ++ render_chain chain j, all_ok && (verify chain).1)
  | Err _ => mret (blocks, false)
  end.

Definition render_rich (data_dir : path) : Report (list BlockContent) :=
  jobs ← list_job_chains data_dir;
  if is_empty jobs then
    mret [SystemInfo (#" no SEAL chains yet" ++ DASH ++ #"run an agent to start one")]
  else
    acc ← fold_m (rich_step data_dir) ([], true) jobs;
    let '(blocks, all_ok) := acc in
    mret (blocks ++ if bool_decide (1 < length jobs)
                    then [if (all_ok : bool) then ALL_VERIFIED else VERIFICATION_FAILED] else []).

(** *** The command *)

Definition render (data_dir : path) (scheduled : option str) (args : list str) : Report (list BlockContent) :=
  let opts := parse_args args in
  match op_job opts, op_project opts, op_rfc opts with
  | Some job_id, _, _ => render_job_scope data_dir job_id opts
  | None, _, Some rfc_id => render_rfc_scope data_dir rfc_id opts
  | None, Some project, None => render_project_scope data_dir scheduled project opts
  | None, None, None =>
      if op_rich opts then render_rich data_dir
      else if op_verify opts then render_verify_all data_dir
      else render_summary data_dir
  end.

End report.

(** ** The chain older versions wrote *)

Definition LEGACY_FILE : str := #"seal.jsonl".
Definition MIGRATED_FILE : str := #"seal.jsonl.migrated".

(** [stamp]: the time, to the second. *)
Definition migrate_global_seal (stamp : str) (data_dir : path) (s : Fs) : option path * Fs :=
  let legacy := path_join data_dir LEGACY_FILE in
  if bool_decide (fs_files s !! legacy = None) then (None, s)
  else
    let primary := path_join data_dir MIGRATED_FILE in
    let destination := if bool_decide (is_Some (fs_files s !! primary))
                       then path_join data_dir (MIGRATED_FILE ++ #"-" ++ stamp) else primary in
    match rename legacy destination s with
    | (Ok _, s') => (Some destination, s')
    | (Err _, s') => (None, s')
    end.

(** ** Scope events *)

Record ScopeChangeEvent := mkScopeChangeEvent {
  sc_kind : str;
  sc_project : option str;
  sc_artifact_id : str;
  sc_previous : option Scope;
  sc_current : Scope;
  sc_actor : str;
}.

Definition scope_str (s : Scope) : str :=
  match s with Private => #"private" | Team => #"team" | Public => #"public" end.

Definition set_je_target (v : option str) (e : JournalEnvelope) : JournalEnvelope :=
  mkJournalEnvelope (je_event_type e) (je_timestamp e) (je_hub_seq e) (je_job_id e)
    (je_session_id e) (je_source e) (je_agent e) (je_event e) (je_tool e) v (je_exit_code e)
    (je_action e) (je_risk e) (je_description e) (je_message e) (je_model e) (je_prompt e)
    (je_response_path e) (je_response_sha256 e) (je_response_bytes e) (je_response_preview e)
    (je_pipeline_id e) (je_stage_index e) (je_extra e).

Definition scope_detail (event : ScopeChangeEvent) : list (str * json) :=
  foldl (λ m kv, obj_insert kv.1 kv.2 m) []
    [(#"kind", JStr (sc_kind event)); (#"artifact_id", JStr (sc_artifact_id event));
     (#"previous", json_opt_str (scope_str <$> sc_previous event));
     (#"current", JStr (scope_str (sc_current event))); (#"actor", JStr (sc_actor event))].

Definition scope_envelope (now : str) (event : ScopeChangeEvent) : JournalEnvelope :=
  let e := set_je_event (Some (sc_kind event)) (set_je_source (Some #"scope") (envelope_now ETScopeChange now)) in
  let e := match sc_project event with Some p => set_je_target (Some p) e | None => e end in
  foldl (λ e kv, extra_insert kv.1 kv.2 e) e (scope_detail event).

Section emit.
Context `{!Sha256, !JsonText, !Serde SealRecord, !Serde JournalEnvelope}.

(** [sealed_at], [now]: the clock at the append and at the envelope. *)
Definition emit_scope_event (sealed_at now : str) (event : ScopeChangeEvent) (st : SealManager * Fs)
    (journal : JournalStore) : result SealError unit * (SealManager * Fs) * JournalStore :=
  let detail := JObj (scope_detail event) in
  let '(r, st') := match sc_project event with
                   | Some project => seal_project_with_rfc sealed_at project (sc_kind event) detail None st
                   | None => seal_workspace_with_rfc sealed_at (sc_kind event) detail None st
                   end in
  match r with
  | Err e => (Err e, st', journal)
  | Ok _ => (Ok (), st', store_append (scope_envelope now event) journal)
  end.

End emit.

(** The chain at a path of a disk on which no call fails. *)
Definition chain_on `{!Serde SealRecord} (m : gmap path str) (p : path) : SealChain :=
  chain_of_records (parse_records (default [] (m !! p))) p.

(** ** Exit codes of verdicts *)

Definition shown (r : SealRecord) : option VerdictRow :=
  let verdict := default #"?" (str_field r #"verdict") in
  let capability := str_field r #"capability" in
  if bool_decide (sr_event_type r = #"cage.verdict")
     && (bool_decide (verdict = #"deny") || bool_decide (is_Some capability))
  then Some (mkVerdictRow verdict capability (default [] (str_field r #"command")) None)
  else None.

Definition outcome_exit (r : SealRecord) : option Z :=
  if bool_decide (sr_event_type r = #"command.outcome") then exit_field r else None.

(** The first exit code of an outcome before the next verdict that is shown. *)
Fixpoint first_exit (rs : list SealRecord) : option Z :=
  match rs with
  | [] => None
  | r :: rs' =>
      match shown r, outcome_exit r with
      | Some _, _ => None
      | None, Some e => Some e
      | None, None => first_exit rs'
      end
  end.

Fixpoint verdict_rows (rs : list SealRecord) : list VerdictRow :=
  match rs with
  | [] => []
  | r :: rs' =>
      match shown r with
      | Some row => set_exit row (first_exit rs') :: verdict_rows rs'
      | None => verdict_rows rs'
      end
  end.

(** What the rows that are already there become. *)
Definition settle_last (out : list VerdictRow) (e : option Z) : list VerdictRow :=
  match out with
  | row :: out' => match vr_exit_code row with None => set_exit row e :: out' | Some _ => out end
  | [] => []
  end.

Lemma set_exit_id row : vr_exit_code row = None → set_exit row None = row.
Proof. by destruct row; simpl; intros ->. Qed.

Lemma settle_last_None out : settle_last out None = out.
Proof.
  destruct out as [|row out]; [done|]. simpl. destruct (vr_exit_code row) eqn:E; [done|]. by rewrite set_exit_id.
Qed.

Lemma collect_step_spec out r :
  collect_step out r = match shown r with Some row => row :: out | None => settle_last out (outcome_exit r) end.
Proof.
  unfold collect_step, shown, outcome_exit.
  destruct (decide (sr_event_type r = #"cage.verdict")) as [E|E].
  - rewrite (bool_decide_eq_true_2 _ E), E. cbn [andb].
    rewrite (bool_decide_eq_false_2 (#"cage.verdict" = #"command.outcome")) by done.
    destruct (_ || _); [done|]. by rewrite settle_last_None.
  - rewrite (bool_decide_eq_false_2 _ E). cbn [andb].
    destruct (decide (sr_event_type r = #"command.outcome")) as [E'|E'].
    + rewrite (bool_decide_eq_true_2 _ E'). by destruct out.
    + rewrite (bool_decide_eq_false_2 _ E'). by rewrite settle_last_None.
Qed.

Lemma foldl_collect rs out :
  foldl collect_step out rs = reverse (verdict_rows rs) ++ settle_last out (first_exit rs).
Proof.
  revert out. induction rs as [|r rs IH]; intros out; cbn [foldl verdict_rows first_exit];
    [by rewrite settle_last_None|].
  rewrite IH, collect_step_spec. destruct (shown r) as [row|] eqn:Es.
  - assert (vr_exit_code row = None) as Hn by (unfold shown in Es; by destruct (_ && _); simplify_eq).
    rewrite reverse_cons, settle_last_None, <- app_assoc. simpl. by rewrite Hn.
  - f_equal. destruct (outcome_exit r) as [e|]; [|by rewrite settle_last_None].
    destruct out as [|row out]; [done|]. simpl.
    destruct (vr_exit_code row) as [?|] eqn:E; simpl; [by rewrite E|done].
Qed.

(** C0: The tree of verdicts pairs each verdict it shows with the first exit code that an
    outcome carries before the next verdict it shows, and shows every denial and every
    allow by a capability, in the order of the chain. *)
Theorem collect_verdicts_spec rs : collect_verdicts rs = verdict_rows rs.
Proof.
  unfold collect_verdicts. rewrite foldl_collect. simpl. by rewrite app_nil_r, reverse_involutive.
Qed.

Lemma verdict_rows_app pre r rs :
  is_Some (shown r) → verdict_rows (pre ++ r :: rs) = verdict_rows pre ++ verdict_rows (r :: rs).
Proof.
  intros [row Hr]. induction pre as [|x pre IH]; [done|]. cbn [verdict_rows app] in *. rewrite IH.
  destruct (shown x) as [row'|]; [|done]. simpl. do 2 f_equal. clear IH.
  induction pre as [|y pre IH]; simpl; [by rewrite Hr|].
  destruct (shown y), (outcome_exit y); done.
Qed.

(** A record of the cage's decision, and of an exit code. *)
Definition decided (verdict : str) (capability : option str) (command : str) (r : SealRecord) : Prop :=
  sr_event_type r = #"cage.verdict" ∧ str_field r #"verdict" = Some verdict
  ∧ str_field r #"capability" = capability ∧ str_field r #"command" = Some command.

Definition exited (code : Z) (r : SealRecord) : Prop :=
  sr_event_type r = #"command.outcome" ∧ jget #"exit_code" (sr_detail r) = Some (JInt code).

(** C0: A denied command, which never ran and has no outcome of its own, is shown with the
    exit code of the next command when that one is allowed by default: the outcome of a
    command the tree leaves out goes to the verdict before it. *)
Theorem denied_shows_other_exit pre d a o post cap cmd cmd' code :
  decided #"deny" cap cmd d → decided #"allow" None cmd' a → exited code o → (- 2 ^ 31 <= code < 2 ^ 31)%Z →
  collect_verdicts (pre ++ [d; a; o] ++ post)
  = collect_verdicts pre ++ mkVerdictRow #"deny" cap cmd (Some code) :: collect_verdicts post.
Proof.
  intros (Hd1 & Hd2 & Hd3 & Hd4) (Ha1 & Ha2 & Ha3 & Ha4) [Ho1 Ho2] Hc.
  unfold collect_verdicts. rewrite !foldl_collect. cbn [settle_last]. rewrite !app_nil_r, !reverse_involutive.
  assert (shown d = Some (mkVerdictRow #"deny" cap cmd None)) as Hd.
  { unfold shown. by rewrite Hd1, Hd2, Hd3, Hd4. }
  assert (shown a = None) as Ha. { unfold shown. by rewrite Ha1, Ha2, Ha3. }
  assert (shown o = None) as Ho. { unfold shown. by rewrite Ho1. }
  assert (outcome_exit a = None) as Hae. { unfold outcome_exit. by rewrite Ha1. }
  assert (outcome_exit o = Some code) as Hoe.
  { unfold outcome_exit, exit_field. rewrite Ho1, Ho2. cbn.
    rewrite (proj2 (Z.leb_le _ _)), (proj2 (Z.ltb_lt _ _)) by lia. cbn. unfold wrap_i32. f_equal.
    rewrite Z.mod_small by lia. lia. }
  cbn [app]. rewrite verdict_rows_app by (by rewrite Hd). f_equal.
  cbn [verdict_rows first_exit]. by rewrite Hd, Ha, Ho, Hae, Hoe.
Qed.

Section sample_records.

Definition sample_verdict (verdict : str) (cap : json) (command : str) : SealRecord :=
  mkSealRecord 0 #"t" #"cage.verdict"
    (json_obj [(#"verdict", JStr verdict); (#"capability", cap); (#"command", JStr command)]) [] [] None.
Definition sample_outcome (code : Z) : SealRecord :=
  mkSealRecord 0 #"t" #"command.outcome" (json_obj [(#"exit_code", JInt code)]) [] [] None.

Lemma denied_shows_other_exit_witness :
  collect_verdicts [sample_verdict #"deny" (JStr #"git.push") #"git push"; sample_verdict #"allow" JNull #"ls";
                    sample_outcome 0]
  = [mkVerdictRow #"deny" (Some #"git.push") #"git push" (Some 0%Z)].
Proof.
  exact (denied_shows_other_exit [] (sample_verdict #"deny" (JStr #"git.push") #"git push")
    (sample_verdict #"allow" JNull #"ls") (sample_outcome 0) [] (Some #"git.push") #"git push" #"ls" 0
    ltac:(by repeat split) ltac:(by repeat split) ltac:(by repeat split) ltac:(lia)).
Defined.

End sample_records.

(** ** Exports *)

Lemma lines_join ls : Forall (λ l, one_line l ∧ l ≠ []) ls → lines (join [chr_nl] ls) = ls.
Proof.
  induction 1 as [|l ls [Hl Hne] Hls IH]; [done|]. destruct ls as [|l' ls].
  - cbn [join]. enough (∀ cur, chr_nl ∉ l → lines_go cur l = flush (cur ++ l)) as Hgo.
    { unfold lines. rewrite Hgo by apply Hl. by destruct l. }
    clear. induction l as [|c l IH]; intros cur Hn; cbn [lines_go]; [by rewrite app_nil_r|].
    destruct (N.eqb_spec c chr_nl) as [->|_]; [set_solver|]. rewrite IH by set_solver. by rewrite <- app_assoc.
  - change (join [chr_nl] (l :: l' :: ls)) with (l ++ chr_nl :: join [chr_nl] (l' :: ls)).
    rewrite lines_cons by done. by rewrite IH.
Qed.

Section export_theorems.
Context `{!Sha256, !JsonText, !Serde SealRecord, !SerdeLaws SealRecord}.

Lemma ser_texts rs : Forall (λ r, is_Some (to_option (ser r))) rs →
  Forall2 (λ r t, ser r = Ok t) rs (omap (λ r, to_option (ser r)) rs).
Proof.
  induction 1 as [|r rs [t Ht] _ IH]; cbn; [constructor|]. rewrite Ht. constructor; [|done].
  by destruct (ser r); simplify_eq/=.
Qed.

(** C0: What [audit --export] shows of a chain is a chain file: when every record has a text,
    reading the exported text gives the records back, so it verifies as the chain does. *)
Theorem export_reload c m :
  Forall (λ r, is_Some (to_option (ser r))) (ch_records c) →
  ∃ text, export_chain c = [TextBlock text] ∧ parse_records text = ch_records c
  ∧ ∀ p, verify (chain_on (<[p := text]> m) p) = verify c.
Proof.
  intros Hall%ser_texts. eexists. split; [done|].
  assert (parse_records (join [chr_nl] (omap (λ r, to_option (ser r)) (ch_records c))) = ch_records c) as Hp.
  { unfold parse_records. rewrite lines_join.
    - induction Hall as [|r t rs texts Hr _ IH]; [done|]. simpl.
      destruct (trim t) eqn:E; [by apply ser_not_blank in Hr|]. simpl.
      rewrite (de_ser _ _ Hr). simpl. f_equal. exact IH.
    - clear -Hall SerdeLaws0. induction Hall as [|r t rs texts Hr _ IH]; constructor; [|done].
      split; [by eapply ser_one_line|]. intros ->. by apply ser_not_blank in Hr. }
  split; [exact Hp|]. intros p. unfold chain_on. rewrite lookup_insert_eq.
  unfold verify. cbn [ch_records chain_of_records from_option]. unfold id. by rewrite Hp.
Qed.

End export_theorems.

(** ** What a report says *)

(** On a disk [m] no call of which fails, a report has the value [a] and changes nothing. *)
Definition reports {A : Type} (m : gmap path str) (r : Report A) (a : A) : Prop :=
  r (mkFs m []) = (Ok a, mkFs m []).

Lemma reports_bind {A B : Type} m (r : Report A) (k : A → Report B) a b :
  reports m r a → reports m (k a) b → reports m (x ← r; k x) b.
Proof. unfold reports, mbind, M_bind. by intros ->. Qed.

(** Whatever a report lists, by a key of it. *)
Lemma reports_collect {A B K : Type} m (f : A → Report (list B)) (key : B → K) (Q : A → K → Prop) l :
  (∀ x, ∃ ys, reports m (f x) ys ∧ ∀ k, k ∈ map key ys ↔ Q x k) →
  ∃ ys, reports m (collect f l) ys ∧ ∀ k, k ∈ map key ys ↔ ∃ x, x ∈ l ∧ Q x k.
Proof.
  intros Hf. induction l as [|x l (zs & Hzs & Hk)]; [exists []; set_solver|].
  destruct (Hf x) as (ys & Hys & Hq). exists (ys ++ zs). split.
  - cbn [collect]. eapply reports_bind; [apply Hys|]. by eapply reports_bind; [apply Hzs|].
  - intros k. rewrite map_app, elem_of_app, Hq, Hk. set_solver.
Qed.

Lemma reports_subdirs m dir : reports m (subdirs_of dir) (subdirs dir m).
Proof. done. Qed.

Lemma elem_of_subdirs name dir m :
  name ∈ subdirs dir m ↔ ∃ x rest, is_Some (m !! (dir ++ name :: x :: rest)).
Proof.
  unfold subdirs. rewrite elem_of_remove_dups, list_elem_of_omap. split.
  - intros (p & Hp & Hname). case_bool_decide as Ht; [|done].
    destruct (drop (length dir) p) as [|n [|x rest]] eqn:Ed; simplify_eq. exists x, rest.
    apply list_elem_of_fmap in Hp as ([q t] & -> & Hin%elem_of_map_to_list). simpl in *.
    rewrite <- (take_drop (length dir) q), Ht, Ed in Hin. eauto.
  - intros (x & rest & t & Hm). exists (dir ++ name :: x :: rest). split.
    + apply list_elem_of_fmap. exists (dir ++ name :: x :: rest, t). split; [done|]. by apply elem_of_map_to_list.
    + rewrite take_app_length, drop_app_length. by rewrite bool_decide_eq_true_2.
Qed.

Section report_theorems.
Context `{!Sha256, !JsonText, !Serde SealRecord}.

Lemma reports_load m p : reports m (load p) (Ok (chain_on m p)).
Proof. unfold reports, load, attempt. by rewrite chain_load_ok. Qed.

Lemma reports_exists m p : reports m (file_exists p) (bool_decide (is_Some (m !! p))).
Proof. done. Qed.

(** The chain files of jobs and projects, as the listing finds them. *)
Definition job_there (dd : path) (m : gmap path str) (agent : str) (n : N) : Prop :=
  ∃ name, parse_u32 name = Some n
  ∧ is_Some (m !! (dd ++ [ #"agents"; agent; #"jobs"; name; #"seal.jsonl"])).

Definition project_there (dd : path) (m : gmap path str) (p : str) : Prop :=
  is_Some (m !! (dd ++ [ #"projects"; p; #"seal.jsonl"])).

Definition job_key (j : JobChainSummary) : str * N := (jc_agent j, jc_job_id j).

Lemma reports_job_entry m agent dir name :
  ∃ l, reports m (job_entry agent dir name) l
  ∧ ∀ k, k ∈ map job_key l ↔
      k.1 = agent ∧ parse_u32 name = Some k.2 ∧ is_Some (m !! (dir ++ [name; #"seal.jsonl"])).
Proof.
  unfold job_entry. destruct (parse_u32 name) as [n|]; [|exists []; set_solver].
  change (path_join (dir ++ [name]) #"seal.jsonl") with ((dir ++ [name]) ++ [ #"seal.jsonl"]).
  rewrite <- app_assoc. cbn [app]. case_eq (m !! (dir ++ [name; #"seal.jsonl"])); [intros t E|intros E].
  - eexists. split.
    + eapply reports_bind; [apply reports_exists|]. rewrite E. cbn.
      eapply reports_bind; [apply reports_load|]. done.
    + intros [a k]. cbn [map fst snd]. rewrite list_elem_of_singleton.
      split; [by intros [= -> ->]|by intros (-> & [= ->] & _)].
  - exists []. split; [|intros k; split; [by intros ?%elem_of_nil|by intros (_ & _ & ?%is_Some_None)]].
    eapply reports_bind; [apply reports_exists|]. by rewrite E.
Qed.

Lemma reports_jobs dd m :
  ∃ l, reports m (list_job_chains dd) l ∧ ∀ k, k ∈ map job_key l ↔ job_there dd m k.1 k.2.
Proof.
  assert (∀ agent, ∃ l, reports m (agent_entry (dd ++ [ #"agents"]) agent) l ∧
    ∀ k, k ∈ map job_key l ↔ k.1 = agent ∧ job_there dd m agent k.2) as Ha.
  { intros agent. unfold agent_entry.
    change (path_join ((dd ++ [ #"agents"]) ++ [agent]) #"jobs")
      with (((dd ++ [ #"agents"]) ++ [agent]) ++ [ #"jobs"]).
    rewrite <- !app_assoc. cbn [app].
    destruct (reports_collect m (job_entry agent (dd ++ [ #"agents"; agent; #"jobs"])) job_key
      _ (subdirs (dd ++ [ #"agents"; agent; #"jobs"]) m) (reports_job_entry m agent _)) as (l & Hl & Hk).
    exists l. split; [by eapply reports_bind; [apply reports_subdirs|]|]. intros k. rewrite Hk. unfold job_there. split.
    - intros (name & _ & -> & Hn & Hm). split; [done|]. exists name. by rewrite <- app_assoc in Hm.
    - intros (-> & name & Hn & Hm). exists name. rewrite elem_of_subdirs, <- app_assoc.
      split_and!; [|done..]. exists #"seal.jsonl", []. by rewrite <- app_assoc. }
  destruct (reports_collect m _ job_key _ (subdirs (dd ++ [ #"agents"]) m) Ha) as (l & Hl & Hk).
  exists (merge_sort job_le l). split.
  - unfold list_job_chains. eapply reports_bind; [apply reports_subdirs|].
    by eapply reports_bind; [apply Hl|].
  - intros k. rewrite (fmap_Permutation job_key _ _ (merge_sort_Permutation job_le l)), Hk.
    split; [by intros (agent & _ & -> & Hj)|]. intros Hj. exists k.1. split_and!; [|done..].
    destruct Hj as (name & _ & Hm). apply elem_of_subdirs. exists #"jobs", [name; #"seal.jsonl"].
    by rewrite <- app_assoc.
Qed.

Lemma reports_projects dd m :
  ∃ l, reports m (list_project_chains dd) l ∧ ∀ p, p ∈ map pc_name l ↔ project_there dd m p.
Proof.
  assert (∀ name, ∃ l, reports m (project_entry (dd ++ [ #"projects"]) name) l ∧
    ∀ k, k ∈ map pc_name l ↔ k = name ∧ project_there dd m name) as Ha.
  { intros name. unfold project_entry, project_there.
    change (path_join ((dd ++ [ #"projects"]) ++ [name]) #"seal.jsonl")
      with (((dd ++ [ #"projects"]) ++ [name]) ++ [ #"seal.jsonl"]).
    rewrite <- !app_assoc. cbn [app].
    case_eq (m !! (dd ++ [ #"projects"; name; #"seal.jsonl"])); [intros t E|intros E].
    - eexists. split.
      + eapply reports_bind; [apply reports_exists|]. rewrite E. cbn.
        eapply reports_bind; [apply reports_load|]. done.
      + intros k. cbn [map pc_name]. rewrite list_elem_of_singleton. split; [by intros ->|by intros [-> _]].
    - exists []. split; [|intros k; split; [by intros ?%elem_of_nil|by intros (_ & ?%is_Some_None)]].
      eapply reports_bind; [apply reports_exists|]. by rewrite E. }
  destruct (reports_collect m _ pc_name _ (subdirs (dd ++ [ #"projects"]) m) Ha) as (l & Hl & Hk).
  exists (merge_sort project_le l). split.
  - unfold list_project_chains. eapply reports_bind; [apply reports_subdirs|].
    by eapply reports_bind; [apply Hl|].
  - intros k. rewrite (fmap_Permutation pc_name _ _ (merge_sort_Permutation project_le l)), Hk.
    split; [by intros (name & _ & -> & Hj)|]. intros Hj. exists k. split_and!; [|done..].
    apply elem_of_subdirs. exists #"seal.jsonl", []. by rewrite <- app_assoc.
Qed.

Definition verifies_at (m : gmap path str) (p : path) : bool := (verify (chain_on m p)).1.

(** The verdict lines of a list of chains. *)
Definition summary_at (m : gmap path str) (pl : path * str) : BlockContent :=
  let '(ok, broken) := verify (chain_on m pl.1) in verify_summary ok broken pl.2.

Lemma reports_verify_chains m blocks all_ok any l :
  reports m (fold_m verify_chain_at (blocks, all_ok, any) l)
    (blocks ++ map (summary_at m) l, all_ok && forallb (λ pl, verifies_at m pl.1) l, any || negb (is_empty l)).
Proof.
  revert blocks all_ok any. induction l as [|pl l IH]; intros blocks all_ok any; cbn [fold_m].
  { cbn. by rewrite app_nil_r, andb_true_r, orb_false_r. }
  eapply reports_bind.
  - unfold verify_chain_at. eapply reports_bind; [apply reports_load|]. cbv beta iota.
    instantiate (1 := (blocks ++ [summary_at m pl], all_ok && verifies_at m pl.1, true)).
    unfold reports, summary_at, verifies_at. by destruct (verify (chain_on m pl.1)).
  - assert (any || negb (is_empty (pl :: l)) = true || negb (is_empty l)) as -> by (by destruct any).
    cbn [map forallb]. rewrite andb_assoc. change (summary_at m pl :: map (summary_at m) l)
      with ([summary_at m pl] ++ map (summary_at m) l). rewrite app_assoc. apply IH.
Qed.

(** The last line, by the chains. *)
Definition verdict_of (m : gmap path str) (l : list (path * str)) : BlockContent :=
  if is_empty l then SystemInfo #" no SEAL chains yet"
  else if forallb (λ pl, verifies_at m pl.1) l then ALL_VERIFIED else VERIFICATION_FAILED.

Lemma forallb_false_exists {A : Type} (f : A → bool) l : forallb f l = false ↔ ∃ x, x ∈ l ∧ f x = false.
Proof.
  induction l as [|x l IH]; cbn [forallb]; [set_solver|]. rewrite andb_false_iff, IH. set_solver.
Qed.

Lemma forallb_true_all {A : Type} (f : A → bool) l : forallb f l = true ↔ ∀ x, x ∈ l → f x = true.
Proof.
  induction l as [|x l IH]; cbn [forallb]; [set_solver|]. rewrite andb_true_iff, IH. set_solver.
Qed.

Lemma verdict_of_verified m l :
  Some (verdict_of m l) = Some ALL_VERIFIED ↔ (∃ pl, pl ∈ l) ∧ ∀ pl, pl ∈ l → verifies_at m pl.1 = true.
Proof.
  unfold verdict_of. rewrite <- (forallb_true_all (λ pl, verifies_at m pl.1)).
  destruct l as [|pl l]; cbn [is_empty]; [split; [by vm_compute|by intros [[? ?%elem_of_nil] _]]|].
  destruct (forallb _ _); split.
  - intros _. split; [exists pl; left|done].
  - done.
  - by intros [=].
  - by intros [_ [=]].
Qed.

Lemma verdict_of_failed m l :
  Some (verdict_of m l) = Some VERIFICATION_FAILED ↔ ∃ pl, pl ∈ l ∧ verifies_at m pl.1 = false.
Proof.
  unfold verdict_of. rewrite <- (forallb_false_exists (λ pl, verifies_at m pl.1)).
  by destruct l as [|pl l]; cbn [is_empty]; [|destruct (forallb _ _)].
Qed.

Definition job_at (dd : path) (k : str * N) : path * str :=
  (job_path dd k.1 k.2, #"job " ++ fmt_dec k.2 ++ #" (" ++ k.1 ++ #")").
Definition project_at (dd : path) (p : str) : path * str := (project_path dd p, #"project " ++ p).

Lemma reports_verify_all dd m :
  ∃ jobs projects,
    (∀ k, k ∈ jobs ↔ job_there dd m k.1 k.2) ∧ (∀ p, p ∈ projects ↔ project_there dd m p)
    ∧ let l := map (job_at dd) jobs ++ map (project_at dd) projects in
      reports m (render_verify_all dd)
        (SystemInfo (CHAIN ++ #"audit verify" ++ DOT ++ #"all chains") :: map (summary_at m) l
         ++ [verdict_of m l]).
Proof.
  destruct (reports_jobs dd m) as (js & Hjs & Hj), (reports_projects dd m) as (ps & Hps & Hp).
  exists (map job_key js), (map pc_name ps). split; [done|]. split; [done|]. cbv zeta.
  unfold render_verify_all. eapply reports_bind; [apply Hjs|].
  eapply reports_bind; [apply reports_verify_chains|].
  eapply reports_bind; [apply Hps|].
  eapply reports_bind; [apply reports_verify_chains|]. cbv beta iota. unfold reports, mret, M_ret. f_equal. f_equal.
  unfold verdict_of. rewrite !map_map, map_app, forallb_app, !map_map, <- !app_assoc. cbn [app]. do 4 f_equal.
  by destruct js, ps.
Qed.

(** C0: On a disk that answers every call, [audit verify] reads without changing anything and
    ends by saying that all chains verify exactly when there is a chain file of a job or a
    project and the chain of each of them verifies, by saying that verification failed
    exactly when the chain of one of them does not, and has a line for each chain. *)
Theorem verify_all_report dd sched m :
  ∃ blocks, render dd sched [ #"verify"] (mkFs m []) = (Ok blocks, mkFs m [])
  ∧ (last blocks = Some ALL_VERIFIED ↔
       ((∃ a n, job_there dd m a n) ∨ (∃ p, project_there dd m p))
       ∧ (∀ a n, job_there dd m a n → verifies_at m (job_path dd a n) = true)
       ∧ (∀ p, project_there dd m p → verifies_at m (project_path dd p) = true))
  ∧ (last blocks = Some VERIFICATION_FAILED ↔
       (∃ a n, job_there dd m a n ∧ verifies_at m (job_path dd a n) = false)
       ∨ (∃ p, project_there dd m p ∧ verifies_at m (project_path dd p) = false))
  ∧ (∀ a n, job_there dd m a n → summary_at m (job_at dd (a, n)) ∈ blocks)
  ∧ (∀ p, project_there dd m p → summary_at m (project_at dd p) ∈ blocks).
Proof.
  destruct (reports_verify_all dd m) as (js & ps & Hj & Hp & Hr). cbv zeta in Hr.
  set (l := map (job_at dd) js ++ map (project_at dd) ps) in *. eexists. split; [exact Hr|].
  assert (∀ pl, pl ∈ l ↔ (∃ a n, job_there dd m a n ∧ pl = job_at dd (a, n))
                        ∨ (∃ p, project_there dd m p ∧ pl = project_at dd p)) as Hl.
  { intros pl. unfold l. rewrite elem_of_app, !list_elem_of_fmap. split.
    - intros [([a n] & -> & H1%Hj)|(p & -> & H1%Hp)]; eauto 6.
    - intros [(a & n & H1 & ->)|(p & H1 & ->)]; [left; exists (a, n)|right; exists p]; by rewrite ?Hj, ?Hp. }
  assert (∀ b, last (SystemInfo (CHAIN ++ #"audit verify" ++ DOT ++ #"all chains") :: map (summary_at m) l ++ [b])
               = Some b) as Hlast by (intros b; by rewrite app_comm_cons, last_snoc).
  rewrite !Hlast. split_and!.
  - rewrite (verdict_of_verified m l). split.
    + intros [[pl Hin] Hall]. split_and!.
      * apply Hl in Hin. naive_solver.
      * intros a n H1. apply (Hall (job_at dd (a, n))), Hl. eauto.
      * intros p H1. apply (Hall (project_at dd p)), Hl. eauto.
    + intros (Hex & H1 & H2). split.
      * destruct Hex as [(a & n & H3)|(p & H3)]; eexists; apply Hl; eauto.
      * intros pl [(a & n & H3 & ->)|(p & H3 & ->)]%Hl; [by apply H1|by apply H2].
  - rewrite (verdict_of_failed m l). split.
    + intros (pl & [(a & n & H3 & ->)|(p & H3 & ->)]%Hl & Hv); eauto.
    + intros [(a & n & H3 & Hv)|(p & H3 & Hv)]; [exists (job_at dd (a, n))|exists (project_at dd p)];
        (split; [apply Hl; eauto|done]).
  - intros a n H1. apply list_elem_of_further, elem_of_app. left.
    apply list_elem_of_fmap. exists (job_at dd (a, n)). split; [done|]. apply Hl. eauto.
  - intros p H1. apply list_elem_of_further, elem_of_app. left.
    apply list_elem_of_fmap. exists (project_at dd p). split; [done|]. apply Hl. eauto.
Qed.

End report_theorems.

(** ** What a report does not see *)

(** A hash that cannot be cut at its twelfth byte. *)
Definition uncuttable (h : str) : bool := (12 <=? byte_len h)%N && bool_decide (byte_prefix 12 h = None).

Section limits.
Context `{!Sha256, !JsonText, !Serde SealRecord}.

Lemma record_row_cases r s :
  (uncuttable (sr_hash r) = true ∧ record_row r s = (Err Panic, s))
  ∨ (uncuttable (sr_hash r) = false ∧ ∃ t, record_row r s = (Ok t, s)).
Proof.
  unfold uncuttable, record_row, hash_short, mbind, M_bind. destruct (12 <=? byte_len (sr_hash r))%N; [|by right; eauto].
  destruct (byte_prefix 12 (sr_hash r)); [right|left]; eauto.
Qed.

Lemma rows_panic rs s :
  (∃ rows, collect record_row rs s = (Ok rows, s) ∧ Forall (λ r, uncuttable (sr_hash r) = false) rs)
  ∨ (collect record_row rs s = (Err Panic, s) ∧ Exists (λ r, uncuttable (sr_hash r) = true) rs).
Proof.
  induction rs as [|r rs IH]; [left; eexists; split; [done|constructor]|].
  cbn [collect]. unfold mbind, M_bind.
  destruct (record_row_cases r s) as [(Hu & ->)|(Hu & t & ->)]; [right; split; [done|by left]|].
  destruct IH as [(rows & -> & Hf)|(-> & He)]; [left|right].
  - eexists. split; [done|]. by constructor.
  - split; [done|]. by right.
Qed.

(** C0: The view of a project whose chain is there panics exactly when one of the records it
    shows carries a hash whose twelfth byte is inside a character: a chain file edited by
    hand stops the report, where [--verify] names the broken record. *)
Theorem edited_hash_panics dd sched m project last :
  ch_records (chain_on m (project_path dd project)) ≠ [] →
  ((render_project_scope dd sched project (with_last last opts_default) (mkFs m [])).1 = Err Panic ↔
   ∃ r, r ∈ last_records last (ch_records (chain_on m (project_path dd project))) ∧ uncuttable (sr_hash r) = true)
  ∧ (render_project_scope dd sched project (with_last last (with_verify false opts_default)) (mkFs m [])).1
    = Ok (verify_block (#"project " ++ project) (verify (chain_on m (project_path dd project)))
            (length (ch_records (chain_on m (project_path dd project))))).
Proof.
  intros Hne. unfold render_project_scope, mbind, M_bind. rewrite !(reports_load m).
  set (c := chain_on m (project_path dd project)) in *.
  assert (is_empty (ch_records c) = false) as -> by (by destruct (ch_records c)).
  assert (op_last (with_last last opts_default) = last) as -> by (by destruct last).
  assert (op_export (with_last last opts_default) = false ∧ op_deep (with_last last opts_default) = false
          ∧ op_verify (with_last last opts_default) = false) as (-> & -> & ->) by (by destruct last).
  assert (op_export (with_last last (with_verify false opts_default)) = false
    ∧ op_deep (with_last last (with_verify false opts_default)) = false
    ∧ op_verify (with_last last (with_verify false opts_default)) = true) as (-> & -> & ->) by (by destruct last).
  split; [|done]. rewrite <- Exists_exists.
  destruct (rows_panic (last_records last (ch_records c)) (mkFs m [])) as [(rows & -> & Hf)|(-> & He)]; [|done].
  destruct (verify c) as [ok broken]. split; [done|]. intros (r & Hin & Hu)%Exists_exists.
  rewrite list.Forall_forall in Hf. by rewrite Hf in Hu.
Qed.

Lemma job_path_end dd agent n : ∃ pre, job_path dd agent n = pre ++ [fmt_dec n; #"seal.jsonl"].
Proof.
  unfold job_path. set (base := path_join (path_join (path_join dd #"agents") agent) #"jobs"). exists base.
  assert (∀ c, c ∈ fmt_dec n → (48 ≤ c ≤ 57)%N) as Hd by (intros c; apply fmt_dec_digit).
  rewrite (path_join_dir base (fmt_dec n)).
  - change (path_join (base ++ [fmt_dec n]) #"seal.jsonl") with ((base ++ [fmt_dec n]) ++ [ #"seal.jsonl"]).
    by rewrite <- app_assoc.
  - intros Hin%Hd. by destruct Hin.
  - apply fmt_dec_nonempty.
  - intros E. rewrite E in Hd. destruct (Hd 46%N); [left|done].
  - intros E. rewrite E in Hd. destruct (Hd 46%N); [left|done].
Qed.

(** C0: A job directory whose name is a number written otherwise than the number is shown (with
    a leading zero or a plus sign) is listed under the number, but the chain verified for it
    is the one at the plain number, which need not exist: whatever the file holds, its job
    and all chains are said to verify. *)
Theorem padded_directory_unread dd sched agent name n t :
  parse_u32 name = Some n → name ≠ fmt_dec n →
  ∃ blocks, (render dd sched [ #"verify"]
               (mkFs {[ dd ++ [ #"agents"; agent; #"jobs"; name; #"seal.jsonl"] := t ]} [])).1 = Ok blocks
  ∧ last blocks = Some ALL_VERIFIED
  ∧ SystemInfo (CHAIN ++ #"job " ++ fmt_dec n ++ #" (" ++ agent ++ #") verified " ++ TICK) ∈ blocks.
Proof.
  intros Hn Hne. set (m := {[ dd ++ [ #"agents"; agent; #"jobs"; name; #"seal.jsonl"] := t ]} : gmap path str).
  destruct (reports_verify_all dd m) as (js & ps & Hj & Hp & Hr). cbv zeta in Hr.
  change (render dd sched [ #"verify"] (mkFs m [])) with (render_verify_all dd (mkFs m [])).
  rewrite Hr. eexists. split; [done|]. rewrite app_comm_cons, last_snoc.
  assert (m !! job_path dd agent n = None) as Hnone.
  { destruct (job_path_end dd agent n) as [pre ->]. apply lookup_singleton_ne.
    change [ #"agents"; agent; #"jobs"; name; #"seal.jsonl"]
      with ([ #"agents"; agent; #"jobs"] ++ [name; #"seal.jsonl"]).
    rewrite app_assoc. intros [_ [=]]%app_inj_2; done. }
  assert (job_there dd m agent n) as Hthere.
  { exists name. split; [done|]. unfold m. rewrite lookup_singleton_eq. eauto. }
  assert (∀ a k, job_there dd m a k → a = agent ∧ k = n) as Honly.
  { intros a k (nm & Hk & [u [E _]%lookup_singleton_Some]). apply app_inv_head in E. naive_solver. }
  assert (ps = []) as ->.
  { destruct ps as [|p ps]; [done|]. assert (project_there dd m p) as [u [E _]%lookup_singleton_Some] by (apply Hp; left).
    apply app_inv_head in E. done. }
  assert (verify (chain_on m (job_path dd agent n)) = (true, None)) as Hv.
  { unfold chain_on. by rewrite Hnone. }
  split.
  - apply verdict_of_verified. cbn [map]. rewrite app_nil_r. split.
    + exists (job_at dd (agent, n)). apply list_elem_of_fmap. exists (agent, n). by rewrite Hj.
    + intros pl ([a k] & -> & Hin%Hj)%list_elem_of_fmap. cbn [fst snd] in Hin. apply Honly in Hin as [-> ->].
      unfold verifies_at. cbn [job_at fst snd]. by rewrite Hv.
  - rewrite <- app_comm_cons. apply list_elem_of_further, elem_of_app. left. apply list_elem_of_fmap.
    exists (job_at dd (agent, n)). split.
    + unfold summary_at. cbn [job_at fst snd]. rewrite Hv. cbn [verify_summary]. by rewrite <- !app_assoc.
    + cbn [map]. rewrite app_nil_r. apply list_elem_of_fmap. exists (agent, n). by rewrite Hj.
Qed.

End limits.

(** ** The migration and scope events *)

(** C0: Whatever the disk answers, the migration changes no file but the old chain and the place
    it goes to, and the old chain's text is afterwards at one of the two. It is destructive
    only when the place with the time in its name is taken: then that file is replaced. *)
Theorem migrate_global_seal_spec stamp dd s :
  let legacy := path_join dd LEGACY_FILE in
  let stamped := path_join dd (MIGRATED_FILE ++ #"-" ++ stamp) in
  let '(r, s') := migrate_global_seal stamp dd s in
  match r with
  | None => fs_files s' = fs_files s
  | Some d =>
      ∃ t, fs_files s !! legacy = Some t ∧ fs_files s' = <[d := t]> (delete legacy (fs_files s))
      ∧ ((d = path_join dd MIGRATED_FILE ∧ fs_files s !! d = None)
         ∨ (d = stamped ∧ is_Some (fs_files s !! path_join dd MIGRATED_FILE)))
  end.
Proof.
  intros legacy stamped. unfold migrate_global_seal. fold legacy.
  case_bool_decide as Hn; [done|]. fold stamped.
  set (d := if bool_decide (is_Some (fs_files s !! path_join dd MIGRATED_FILE)) then stamped
            else path_join dd MIGRATED_FILE).
  unfold rename, syscall. destruct (next_fault s) as [f s1] eqn:Ef. pose proof (next_fault_files _ _ _ Ef) as Hf.
  destruct f as [|k msg]; [|done]. rewrite Hf. destruct (fs_files s !! legacy) as [t|]; [|done].
  exists t. split; [done|]. split; [unfold set_files; cbn [fs_files]; by rewrite Hf|].
  unfold d. case_bool_decide as Hp; [by right|left]. split; [done|]. by apply eq_None_not_Some.
Qed.

(** The chain a scope event goes to, when it is open in the manager. *)
Definition scope_chain (event : ScopeChangeEvent) (m : SealManager) : option SealChain :=
  match sc_project event with
  | Some p => sm_project_chains m !! p
  | None => sm_workspace_chain m
  end.

Section emit_theorems.
Context `{!Sha256, !JsonText, !Serde SealRecord, !Serde JournalEnvelope}.

(** C0: A scope event is published only after its record is in the chain it belongs to: an
    error leaves the journal and the chain as they were; success adds the envelope, and the
    record to an open chain and its file. But a closed chain (one that could not be read, too)
    takes no record and reports no error, so that the event is published unsealed. *)
Theorem scope_event_durable_first sealed_at now event m s journal c :
  scope_chain event m = Some c →
  let rec := next_record c sealed_at (sc_kind event) (tag_origin m (JObj (scope_detail event))) None in
  let '(r, (m', s'), journal') := emit_scope_event sealed_at now event (m, s) journal in
  match r with
  | Err _ => journal' = journal ∧ scope_chain event m' = Some c
  | Ok _ =>
      journal' = store_append (scope_envelope now event) journal
      ∧ if ch_closed c then scope_chain event m' = Some c ∧ s' = s
        else scope_chain event m' = Some (pushed c rec)
             ∧ fs_files s' = <[ch_file_path c := default [] (fs_files s !! ch_file_path c) ++ seal_line rec]> (fs_files s)
  end.
Proof.
  intros Hc rec. unfold emit_scope_event, scope_chain in *.
  pose proof (append_cases sealed_at (sc_kind event) (tag_origin m (JObj (scope_detail event))) None c s) as Ha.
  destruct (sc_project event) as [p|]; unfold seal_project_with_rfc, seal_workspace_with_rfc; rewrite Hc;
    destruct (append_with_rfc sealed_at (sc_kind event) (tag_origin m (JObj (scope_detail event))) None (c, s))
      as [[rec'|e] [c' s']] eqn:E; cbn [swallow_closed].
  1,3: destruct Ha as (-> & Hcl & _ & -> & Hf); rewrite Hcl; cbn; by rewrite ?lookup_insert_eq.
  all: destruct Ha as (-> & _ & Hx); destruct (ch_closed c) eqn:Hcl.
  1,3: destruct (Hx eq_refl) as [-> ->]; cbn; by rewrite ?lookup_insert_eq.
  all: assert (e ≠ SealClosed) as Hne by (intros ->; by rewrite (append_closed _ _ _ _ _ _ (f_equal fst E)) in Hcl).
  all: destruct e; try done; cbn; by rewrite ?lookup_insert_eq.
Qed.

End emit_theorems.

(** ** The theorems at concrete chains *)

Module AuditExample.

#[local] Instance toy_sha : Sha256 := λ s, take 64 (map (λ c, N.succ (c mod 200)) s ++ replicate 64 49%N).
#[local] Instance toy_json : JsonText := λ _, #"{}".

Definition good : SealRecord := next_record (mkSealChain [] [] 0 false) #"t1" #"rfc.created" JNull None.
Definition forged : SealRecord := mkSealRecord 0 #"t1" #"agent.spawn" JNull (replicate 11 97%N ++ [8364%N]) ZERO_HASH None.

#[local] Instance toy_serde : Serde SealRecord := table_serde [good; forged].
#[local] Instance toy_laws : SerdeLaws SealRecord := table_serde_laws _.

Definition job_file : path := [ #"agents"; #"faye"; #"jobs"; #"1"; #"seal.jsonl"].
Definition project_file : path := [ #"projects"; #"web"; #"seal.jsonl"].

(** A forged chain of a job, a good one of a project. *)
Definition disk : gmap path str := <[job_file := [48; 48; 10]%N]> {[project_file := [48; 10]%N]}.

Definition last_line (faults : list fault) : option BlockContent :=
  match (render [] None [ #"verify"] (mkFs disk faults)).1 with Ok blocks => last blocks | Err _ => None end.

(** A chain that cannot be read is left out of the report: the forged chain makes verification
    fail, but when its file cannot be read (a byte that is not UTF-8 is enough) all chains are
    said to verify. *)
Theorem unreadable_chain_passes :
  last_line [] = Some VERIFICATION_FAILED
  ∧ last_line [NoFault; NoFault; NoFault; Fault 0 #"stream did not contain valid UTF-8"] = Some ALL_VERIFIED.
Proof. split; vm_compute; reflexivity. Qed.

Lemma export_reload_witness :
  ∃ text, export_chain (chain_on disk project_file) = [TextBlock text]
  ∧ parse_records text = ch_records (chain_on disk project_file)
  ∧ ∀ p, verify (chain_on (<[p := text]> disk) p) = verify (chain_on disk project_file).
Proof. apply (export_reload (chain_on disk project_file) disk). vm_compute. repeat constructor; eauto. Defined.

Lemma edited_hash_panics_witness :
  (render_project_scope [] None #"web" (with_last None opts_default)
     (mkFs {[project_file := [48; 48; 10]%N]} [])).1 = Err Panic.
Proof.
  apply (edited_hash_panics [] None {[project_file := [48; 48; 10]%N]} #"web" None); [by vm_compute|].
  exists forged. split; [|by vm_compute].
  replace (last_records _ _) with [forged] by (by vm_compute). left.
Defined.

Lemma padded_directory_unread_witness :
  ∃ blocks, (render [] None [ #"verify"]
     (mkFs {[ [ #"agents"; #"faye"; #"jobs"; #"007"; #"seal.jsonl"] := [48; 48; 10]%N ]} [])).1 = Ok blocks
  ∧ last blocks = Some ALL_VERIFIED.
Proof.
  destruct (padded_directory_unread [] None #"faye" #"007" 7 [48; 48; 10]%N) as (blocks & H1 & H2 & _);
    [by vm_compute|by vm_compute|]. exists blocks. split; [exact H1|exact H2].
Defined.

#[local] Instance toy_envelopes : Serde JournalEnvelope := table_serde [].

Definition quarantined : SealManager :=
  mkSealManager ∅ ∅ (Some (mkSealChain [] [ #"workspace"; #"seal.jsonl"] 0 true)) [] None.

Definition team_default : ScopeChangeEvent :=
  mkScopeChangeEvent #"workspace.scope_default_changed" None #"ws-1" (Some Private) Team #"user".

Lemma scope_event_durable_first_witness :
  let '(r, _, journal') :=
    emit_scope_event #"t1" #"t2" team_default (quarantined, mkFs ∅ []) (mkJournalStore [] []) in
  r = Ok () ∧ length (js_entries journal') = 1.
Proof.
  pose proof (scope_event_durable_first #"t1" #"t2" team_default quarantined (mkFs ∅ []) (mkJournalStore [] [])
    (mkSealChain [] [ #"workspace"; #"seal.jsonl"] 0 true) eq_refl) as H.
  destruct (emit_scope_event _ _ _ _ _) as [[[[]|e] [m' s']] journal'] eqn:E; [|by vm_compute in E].
  destruct H as [-> _]. done.
Defined.

End AuditExample.
