(* ===== verification/BuiltinTable.v ===== *)
(** * The table of commands ([orkia-shell/src/builtin_table.rs])

    Every command name with its family, whether it is a typed command, whether its bare word
    is the builtin, and how it yields to a system program of the same name. *)
From Stdlib Require Import NArith Lia.
From stdpp Require Import base gmap strings option numbers list list_basics sorting.
From S2P Require Import Prelude Text Words.

Inductive BuiltinKind := ShellControl | AuthService | Effectful | Typed.

#[export] Instance BuiltinKind_eq_dec : EqDecision BuiltinKind.
Proof. solve_decision. Defined.

Inductive FallbackRule := PrefixOnly | PosixShapeToBrush (bare_is_builtin : bool).

#[export] Instance FallbackRule_eq_dec : EqDecision FallbackRule.
Proof. solve_decision. Defined.

Record ShapeGrammar := mkShapeGrammar {
  long_flags : list str;
  value_flags : list str;
  subcommands : list str;
  allow_at : bool;
  allow_percent : bool;
}.

Record BuiltinSpec := mkBuiltinSpec {
  bs_name : str;
  bs_kind : BuiltinKind;
  bs_collision : option FallbackRule;
  bs_typed : bool;
  bs_bare_builtin : bool;
  bs_grammar : option ShapeGrammar;
}.

Definition POSIX_BARE_BUILTIN : option FallbackRule := Some (PosixShapeToBrush true).

Definition shell_control (name : str) : BuiltinSpec := mkBuiltinSpec name ShellControl None false true None.
Definition auth_service (name : str) : BuiltinSpec := mkBuiltinSpec name AuthService None false true None.
Definition effectful (name : str) : BuiltinSpec := mkBuiltinSpec name Effectful None false true None.
Definition typed (name : str) : BuiltinSpec := mkBuiltinSpec name Typed None true true None.

Definition with_collision (spec : BuiltinSpec) (rule : option FallbackRule) : BuiltinSpec :=
  mkBuiltinSpec (bs_name spec) (bs_kind spec) rule (bs_typed spec) (bs_bare_builtin spec) (bs_grammar spec).
Definition with_grammar (spec : BuiltinSpec) (grammar : ShapeGrammar) : BuiltinSpec :=
  mkBuiltinSpec (bs_name spec) (bs_kind spec) (bs_collision spec) (bs_typed spec) (bs_bare_builtin spec) (Some grammar).
Definition also_typed (spec : BuiltinSpec) : BuiltinSpec :=
  mkBuiltinSpec (bs_name spec) (bs_kind spec) (bs_collision spec) true (bs_bare_builtin spec) (bs_grammar spec).
Definition bare_excluded (spec : BuiltinSpec) : BuiltinSpec :=
  mkBuiltinSpec (bs_name spec) (bs_kind spec) (bs_collision spec) (bs_typed spec) false (bs_grammar spec).

Definition PS_GRAMMAR : ShapeGrammar :=
  mkShapeGrammar [ #"--agents"; #"--system"; #"--full"; #"--json"] [] [] false false.
Definition WHOAMI_GRAMMAR : ShapeGrammar := mkShapeGrammar [] [] [] false false.
Definition AUDIT_GRAMMAR : ShapeGrammar :=
  mkShapeGrammar [ #"--verify"; #"--deep"; #"--export"] [ #"--job"; #"--project"; #"--rfc"; #"--last"]
    [ #"verify"; #"redact"] false false.
Definition LOG_GRAMMAR : ShapeGrammar := mkShapeGrammar [ #"--json"] [ #"--tail"] [] true true.
Definition ROUTE_GRAMMAR : ShapeGrammar := mkShapeGrammar [] [] [ #"show"] true false.

Definition BUILTINS : list BuiltinSpec :=
  [ shell_control #"fg"; shell_control #"bg"; shell_control #"stop";
    with_collision (shell_control #"kill") POSIX_BARE_BUILTIN;
    shell_control #"run"; shell_control #"attach"; shell_control #"wait"; shell_control #"disown";
    shell_control #"tui";
    auth_service #"app";
    bare_excluded (with_collision (auth_service #"login") (Some PrefixOnly));
    auth_service #"logout"; auth_service #"kernel"; auth_service #"reasoning"; auth_service #"contribute";
    auth_service #"team"; auth_service #"invite"; auth_service #"members"; auth_service #"share";
    with_collision (auth_service #"leave") POSIX_BARE_BUILTIN;
    auth_service #"stream";
    effectful #"plugin"; also_typed (effectful #"help");
    with_grammar (with_collision (also_typed (effectful #"ps")) POSIX_BARE_BUILTIN) PS_GRAMMAR;
    effectful #"detach"; effectful #"approve"; effectful #"deny";
    with_grammar (with_collision (effectful #"audit") POSIX_BARE_BUILTIN) AUDIT_GRAMMAR;
    effectful #"rfc"; effectful #"operator"; effectful #"project"; effectful #"issue"; effectful #"agent";
    effectful #"cap"; with_collision (effectful #"trust") POSIX_BARE_BUILTIN;
    effectful #"config"; effectful #"connect"; effectful #"disconnect"; effectful #"migrate-rc";
    effectful #"setup"; effectful #"tell"; effectful #"every";
    bare_excluded (with_collision (typed #"ls") (Some PrefixOnly));
    bare_excluded (typed #"where"); bare_excluded (typed #"first"); bare_excluded (typed #"sort-by");
    bare_excluded (typed #"from"); typed #"version";
    bare_excluded (with_grammar (with_collision (typed #"route") (Some (PosixShapeToBrush false))) ROUTE_GRAMMAR);
    typed #"briefing";
    bare_excluded (with_grammar (with_collision (typed #"log") (Some (PosixShapeToBrush false))) LOG_GRAMMAR);
    with_grammar (with_collision (typed #"whoami") POSIX_BARE_BUILTIN) WHOAMI_GRAMMAR;
    typed #"plan"; typed #"history"; typed #"journal"; typed #"jobs"; typed #"attention" ].

Definition CLI_ONLY : list str :=
  [ #"bridge"; #"daemon"; #"inspect"; #"logs"; #"mcp-bridge"; #"mcp-pipe"; #"pty-daemon"; #"pty-daemon-stop";
    #"update"].

Definition is_cli_only (name : str) : bool := bool_decide (name ∈ CLI_ONLY).

Definition spec_for (name : str) : option BuiltinSpec := head (filter (λ s, bs_name s = name) BUILTINS).

Definition is_builtin (name : str) : bool :=
  match spec_for name with Some s => bs_bare_builtin s | None => false end.

Definition bare_typed_blocked (name : str) : bool :=
  match spec_for name with
  | Some s => bool_decide (is_Some (bs_collision s))
              && (bool_decide (bs_collision s = Some PrefixOnly) || bool_decide (bs_kind s ≠ Typed))
  | None => false
  end.

Inductive ShapeRoute := Builtin | Brush.

#[export] Instance ShapeRoute_eq_dec : EqDecision ShapeRoute.
Proof. solve_decision. Defined.

(** A token that needs no other: a flag, a flag with its value, a target. *)
Definition plain_shape (grammar : ShapeGrammar) (tok : str) : bool :=
  match split_once 61%N tok with Some (flag, _) => bool_decide (flag ∈ value_flags grammar) | None => false end
  || (allow_at grammar && match strip_prefix [64%N] tok with Some n => negb (is_empty n) | None => false end)
  || (allow_percent grammar
      && match strip_prefix [37%N] tok with Some n => bool_decide (is_Some (parse_u32 n)) | None => false end).

Fixpoint shapes (grammar : ShapeGrammar) (args : list str) : ShapeRoute :=
  match args with
  | [] => Builtin
  | tok :: rest =>
      if bool_decide (tok ∈ long_flags grammar) then shapes grammar rest
      else if bool_decide (tok ∈ value_flags grammar) then
        match rest with [] => Builtin | _ :: rest' => shapes grammar rest' end
      else if plain_shape grammar tok then shapes grammar rest
      else Brush
  end.

Definition route_for (name : str) (args : list str) : option ShapeRoute :=
  spec ← spec_for name;
  match bs_collision spec with
  | Some (PosixShapeToBrush bare_is_builtin) =>
      grammar ← bs_grammar spec;
      match args with
      | [] => Some (if bare_is_builtin then Builtin else Brush)
      | a :: _ => Some (if bool_decide (a ∈ subcommands grammar) then Builtin else shapes grammar args)
      end
  | _ => None
  end.

#[local] Instance str_leb_dec : RelDecision (λ a b : str, str_leb a b = true).
Proof. intros a b. apply _. Defined.

Definition completion_names : list str := merge_sort (λ a b, str_leb a b = true) (map bs_name BUILTINS).

Definition names_of_kind (kind : BuiltinKind) : list str := map bs_name (filter (λ s, bs_kind s = kind) BUILTINS).

Definition typed_names : list str := map bs_name (filter (λ s, bs_typed s = true) BUILTINS).

(** ** Suggestions *)

(** One row of the table: [prev] is the row above from the current column on, [left] the
    cell to the left. *)
Fixpoint next_row (ca : char) (b : str) (prev : list nat) (left : nat) : list nat :=
  match b, prev with
  | cb :: b', p :: (q :: _) as prev' =>
      let cost := if (ca =? cb)%N then 0 else 1 in
      let v := Nat.min (Nat.min (p + cost) (q + 1)) (left + 1) in
      v :: next_row ca b' (tail prev) v
  | _, _ => []
  end.

Fixpoint rows (i : nat) (a b : str) (prev : list nat) : list nat :=
  match a with
  | [] => prev
  | ca :: a' => rows (S i) a' b (S i :: next_row ca b prev (S i))
  end.

Definition edit_distance (a b : str) : nat :=
  default 0 (rows 0 a b (seq 0 (S (length b))) !! length b).

(** The order of pairs of a rank and a name. *)
Definition rank_le (a b : nat * str) : Prop :=
  (if decide (a.1 = b.1) then str_leb a.2 b.2 else bool_decide (a.1 < b.1)) = true.
#[local] Instance rank_le_dec : RelDecision rank_le.
Proof. intros a b. unfold rank_le. apply _. Defined.

Definition suggestions_for (input : str) : list str :=
  if is_empty input then []
  else
    let ranked := omap (λ n, if starts_with input n then Some (0, n)
                             else let d := edit_distance input n in
                                  if bool_decide (d ≤ 2) then Some (d, n) else None)
                    (map bs_name BUILTINS ++ CLI_ONLY) in
    take 3 (map snd (merge_sort rank_le ranked)).

Definition unknown_builtin_message (name : str) : str :=
  let nearest := suggestions_for name in
  if is_empty nearest then #"unknown builtin: " ++ name ++ #" (run 'orkia help' for the command list)"
  else #"unknown builtin: " ++ name ++ #" (did you mean: " ++ join #", " nearest ++ #"?)".

Example suggestions_ex : suggestions_for #"jbs" = [ #"jobs"; #"bg"; #"ls"] ∧ edit_distance #"kitten" #"sitting" = 3.
Proof. split; vm_compute; reflexivity. Qed.

(** ** The distance is the least number of edits *)

(** [b] is reached from [a] by [n] single edits, from the last character back. *)
Inductive edited : str → str → nat → Prop :=
| ed_nil : edited [] [] 0
| ed_keep a b x n : edited a b n → edited (a ++ [x]) (b ++ [x]) n
| ed_replace a b x y n : edited a b n → edited (a ++ [x]) (b ++ [y]) (S n)
| ed_delete a b x n : edited a b n → edited (a ++ [x]) b (S n)
| ed_insert a b y n : edited a b n → edited a (b ++ [y]) (S n).

Definition least_edits (a b : str) (d : nat) : Prop := edited a b d ∧ ∀ n, edited a b n → d ≤ n.

Lemma edited_length a b n : edited a b n → length a ≤ length b + n ∧ length b ≤ length a + n.
Proof. induction 1; rewrite ?length_app; simpl in *; lia. Qed.

Lemma least_nil_l b : least_edits [] b (length b).
Proof.
  split; [|intros n H%edited_length; simpl in *; lia].
  induction b as [|y b IH] using rev_ind; [constructor|]. rewrite length_app. simpl. rewrite Nat.add_1_r.
  by constructor.
Qed.

Lemma least_nil_r a : least_edits a [] (length a).
Proof.
  split; [|intros n H%edited_length; simpl in *; lia].
  induction a as [|y a IH] using rev_ind; [constructor|]. rewrite length_app. simpl. rewrite Nat.add_1_r.
  by constructor.
Qed.

Lemma least_step a b x y d1 d2 d3 :
  least_edits a b d1 → least_edits a (b ++ [y]) d2 → least_edits (a ++ [x]) b d3 →
  least_edits (a ++ [x]) (b ++ [y])
    (Nat.min (Nat.min (d1 + if (x =? y)%N then 0 else 1) (d2 + 1)) (d3 + 1)).
Proof.
  intros [E1 M1] [E2 M2] [E3 M3]. split.
  - destruct (Nat.min_spec (Nat.min (d1 + if (x =? y)%N then 0 else 1) (d2 + 1)) (d3 + 1)) as [[_ ->]|[_ ->]];
      [destruct (Nat.min_spec (d1 + if (x =? y)%N then 0 else 1) (d2 + 1)) as [[_ ->]|[_ ->]]|].
    + destruct (N.eqb_spec x y) as [->|_]; [rewrite Nat.add_0_r|rewrite Nat.add_1_r]; by constructor.
    + rewrite Nat.add_1_r. by constructor.
    + rewrite Nat.add_1_r. by constructor.
  - intros n H. inversion H as [Ha Hb|a' b' z m Hm Ha Hb|a' b' z w m Hm Ha Hb|a' b' z m Hm Ha Hb|a' b' w m Hm Ha Hb];
      repeat match goal with E : _ ++ [_] = _ ++ [_] |- _ => apply app_inj_tail in E as [? ?] end; simplify_eq.
    + by destruct a.
    + specialize (M1 n Hm). rewrite N.eqb_refl. lia.
    + specialize (M1 m Hm). destruct (x =? y)%N; lia.
    + specialize (M2 m Hm). lia.
    + specialize (M3 m Hm). lia.
Qed.

(** The row of distances from [a] to the prefixes of [b] that are at least [pre]. *)
Definition row_of (a pre b : str) (l : list nat) : Prop :=
  length l = S (length b) ∧ ∀ j d, l !! j = Some d → least_edits a (pre ++ take j b) d.

Lemma row_of_tail a pre y b p l :
  row_of a pre (y :: b) (p :: l) → least_edits a pre p ∧ row_of a (pre ++ [y]) b l.
Proof.
  intros [Hl Hr]. split; [|split].
  - specialize (Hr 0 p eq_refl). simpl in Hr. by rewrite app_nil_r in Hr.
  - by injection Hl.
  - intros j d Hj. specialize (Hr (S j) d Hj). simpl in Hr. by rewrite <- app_assoc.
Qed.

Lemma next_row_spec a x pre b prev left :
  row_of a pre b prev → least_edits (a ++ [x]) pre left →
  row_of (a ++ [x]) pre b (left :: next_row x b prev left).
Proof.
  revert pre prev left. induction b as [|y b IH]; intros pre prev left Hrow Hleft.
  { split; [done|]. intros [|j] d; cbn; [intros [= <-]; by rewrite app_nil_r|done]. }
  destruct prev as [|p prev]; [by destruct Hrow|]. apply row_of_tail in Hrow as [Hp Hrow].
  destruct prev as [|q prev]; [by destruct Hrow|].
  assert (least_edits a (pre ++ [y]) q) as Hq.
  { destruct Hrow as [_ Hr]. specialize (Hr 0 q eq_refl). simpl in Hr. by rewrite app_nil_r in Hr. }
  pose proof (least_step _ _ _ _ _ _ _ Hp Hq Hleft) as Hv. cbn [next_row tail].
  destruct (IH _ _ _ Hrow Hv) as [Hlen Hall]. split; [simpl in *; lia|].
  intros [|j] d; [cbn; intros [= <-]; by rewrite app_nil_r|]. cbn [take lookup list_lookup]. intros Hj.
  specialize (Hall j d Hj). by rewrite <- app_assoc in Hall.
Qed.

Lemma rows_spec pre a b prev :
  row_of pre [] b prev → row_of (pre ++ a) [] b (rows (length pre) a b prev).
Proof.
  revert pre prev. induction a as [|x a IH]; intros pre prev Hrow; cbn [rows]; [by rewrite app_nil_r|].
  replace (pre ++ x :: a) with ((pre ++ [x]) ++ a) by (by rewrite <- app_assoc).
  replace (S (length pre)) with (length (pre ++ [x])) by (rewrite length_app; simpl; lia).
  apply IH, next_row_spec; [done|]. apply least_nil_r.
Qed.

(** C0: The distance by which suggestions are ranked is the least number of replaced, deleted
    and inserted characters that turn one name into the other. *)
Theorem edit_distance_least a b : least_edits a b (edit_distance a b).
Proof.
  assert (row_of [] [] b (seq 0 (S (length b)))) as H0.
  { split; [apply length_seq|]. intros j d [-> Hj]%lookup_seq. simpl.
    pose proof (least_nil_l (take j b)) as Hl. rewrite length_take in Hl.
    by replace (Nat.min j (length b)) with j in Hl by lia. }
  apply (rows_spec [] a b) in H0 as [Hlen Hall]. cbn [length app] in *.
  unfold edit_distance. destruct (lookup_lt_is_Some_2 (rows 0 a b (seq 0 (S (length b)))) (length b)) as [d Hd]; [lia|].
  rewrite Hd. cbn. specialize (Hall _ _ Hd). by rewrite firstn_all in Hall.
Qed.

(** *** The table *)

(** The names of the table are distinct, and the typed commands whose bare name is left to
    others are [ls] and [ps]. *)
Theorem builtin_names_distinct :
  NoDup (map bs_name BUILTINS) ∧ filter (λ n, bare_typed_blocked n = true) typed_names = [ #"ps"; #"ls"].
Proof. split; [by apply (bool_decide_unpack _); vm_compute|by vm_compute]. Qed.
