(* ===== verification/Values.v ===== *)
(** * Values and types of the pipeline language ([crates/orkia-value])

    [value.rs], [typ.rs] and [bridge.rs]: the values that flow between commands, their
    structural types with the relation that decides which output fits which input, the
    comparison of values, and the bridge to JSON. A float is its 64-bit pattern; its
    arithmetic is the standard library's specification of binary64. A date is the number of
    its nanoseconds. Base64 and the text of a date are class members. *)
From Stdlib Require Import NArith ZArith Lia SpecFloat DecimalN.
From stdpp Require Import base gmap strings option numbers list list_basics.
From S2P Require Import Prelude Text Words Json.

(** ** Floats *)

Definition bits_to_sf (n : N) : spec_float :=
  let s := N.testbit n 63 in
  let e := ((n / 2 ^ 52) mod 2048)%N in
  let m := (n mod 2 ^ 52)%N in
  if (e =? 2047)%N then (if (m =? 0)%N then S754_infinity s else S754_nan)
  else if (e =? 0)%N then
    match m with N0 => S754_zero s | Npos p => S754_finite s p (-1074) end
  else match (m + 2 ^ 52)%N with N0 => S754_zero s | Npos p => S754_finite s p (Z.of_N e - 1075) end.

Definition sign_bit (s : bool) : N := if s then (2 ^ 63)%N else 0%N.

Definition sf_to_bits (f : spec_float) : N :=
  match f with
  | S754_zero s => sign_bit s
  | S754_infinity s => (sign_bit s + 2047 * 2 ^ 52)%N
  | S754_nan => (2047 * 2 ^ 52 + 2 ^ 51)%N
  | S754_finite s m e =>
      (sign_bit s + if (Npos m <? 2 ^ 52)%N then Npos m
                    else Z.to_N (e + 1075) * 2 ^ 52 + (Npos m - 2 ^ 52))%N
  end.

Definition is_finite (n : N) : bool :=
  match bits_to_sf n with S754_zero _ | S754_finite _ _ _ => true | _ => false end.

(** [z as f64] *)
Definition f64_of_Z (z : Z) : N := sf_to_bits (binary_normalize 53 1024 z 0 false).

(** [partial_cmp] *)
Definition f64_cmp (a b : N) : option comparison := SFcompare (bits_to_sf a) (bits_to_sf b).

(** [==]: neither reflexive on NaN nor equality of patterns on zeros. *)
Definition f64_eqb (a b : N) : bool := match f64_cmp a b with Some Eq => true | _ => false end.

Definition f64_mul (a b : N) : N := sf_to_bits (SFmul 53 1024 (bits_to_sf a) (bits_to_sf b)).

Definition saturate_i64 (z : Z) : Z := Z.max (- 2 ^ 63) (Z.min z (2 ^ 63 - 1)).

(** [f.round() as i64]: half away from zero, then saturating; not a number is zero. *)
Definition f64_round_i64 (n : N) : Z :=
  match bits_to_sf n with
  | S754_zero _ | S754_nan => 0
  | S754_infinity s => if s then (- 2 ^ 63)%Z else (2 ^ 63 - 1)%Z
  | S754_finite s m e =>
      let a := if (0 <=? e)%Z then (Zpos m * 2 ^ e)%Z
               else ((Zpos m + 2 ^ (- e - 1)) / 2 ^ (- e))%Z in
      saturate_i64 (if s then (- a)%Z else a)
  end.

(** The float nearest to [m * 10^e]: one bit for what division leaves out. *)
Definition f64_of_decimal (s : bool) (m : N) (e : Z) : spec_float :=
  let v :=
    if (m =? 0)%N then S754_zero s
    else if (0 <=? e)%Z then binary_normalize 53 1024 (Z.of_N m * 10 ^ e) 0 s
    else let d := (10 ^ (- e))%Z in
         let k := (Z.log2 d + 66)%Z in
         let q := (Z.of_N m * 2 ^ k / d)%Z in
         binary_normalize 53 1024 (2 * q + if (Z.of_N m * 2 ^ k mod d =? 0)%Z then 0 else 1) (- k - 1) s in
  if s then SFopp v else v.

Fixpoint take_digits (s : str) : str * str :=
  match s with
  | c :: s' => if (48 <=? c)%N && (c <=? 57)%N then let '(d, r) := take_digits s' in (c :: d, r) else ([], s)
  | [] => ([], [])
  end.

Definition digits_value (d : str) : N := foldl (λ n c, (10 * n + (c - 48))%N) 0%N d.

Definition ascii_lower (c : char) : char := if (65 <=? c)%N && (c <=? 90)%N then (c + 32)%N else c.

Definition take_sign (s : str) : bool * str :=
  match s with
  | c :: s' => if (c =? chr_minus)%N then (true, s') else if (c =? chr_plus)%N then (false, s') else (false, s)
  | [] => (false, s)
  end.

(** What follows the digits: nothing, or [e] with a signed number. *)
Definition parse_exponent (s : str) : option Z :=
  match s with
  | [] => Some 0%Z
  | c :: s' =>
      if (ascii_lower c =? 101)%N then
        let '(neg, s'') := take_sign s' in
        match take_digits s'' with
        | ([], _) => None
        | (d, []) => Some (if neg then (- Z.of_N (digits_value d))%Z else Z.of_N (digits_value d))
        | (_, _ :: _) => None
        end
      else None
  end.

(** [str::parse::<f64>] *)
Definition parse_f64 (text : str) : option N :=
  let '(neg, s) := take_sign text in
  let low := map ascii_lower s in
  if decide (low = #"inf" ∨ low = #"infinity") then Some (sf_to_bits (S754_infinity neg))
  else if decide (low = #"nan") then Some (sf_to_bits S754_nan)
  else
    let '(int, s1) := take_digits s in
    let '(frac, s2) := match s1 with
                       | c :: s1' => if (c =? 46)%N then take_digits s1' else ([], s1)
                       | [] => ([], [])
                       end in
    if is_empty int && is_empty frac then None
    else e ← parse_exponent s2;
         Some (sf_to_bits (f64_of_decimal neg (digits_value (int ++ frac)) (e - Z.of_nat (length frac)))).

Example parse_f64_ex :
  map parse_f64 [ #"1"; #"0.5"; #"-2.5"; #".1"; #"1e3"; #"1e400"; #"."; #"1.5x"; #"9007199254740993"]
  = [Some 4607182418800017408; Some 4602678819172646912; Some 13836183955189006336; Some 4591870180066957722;
     Some 4652007308841189376; Some 9218868437227405312; None; None; Some 4845873199050653696]%N.
Proof. vm_compute. reflexivity. Qed.

(** ** Types *)

Inductive Type' :=
| TAny | TNothing | TBool | TInt | TFloat | TFilesize | TDuration | TDate | TString | TBinary
| TList (t : Type')
| TRecord (cols : list (str * Type'))
| TTable
| TByteStream.

Fixpoint type_eqb (a b : Type') {struct a} : bool :=
  match a, b with
  | TAny, TAny | TNothing, TNothing | TBool, TBool | TInt, TInt | TFloat, TFloat | TFilesize, TFilesize
  | TDuration, TDuration | TDate, TDate | TString, TString | TBinary, TBinary | TTable, TTable
  | TByteStream, TByteStream => true
  | TList x, TList y => type_eqb x y
  | TRecord xs, TRecord ys =>
      (fix go (xs ys : list (str * Type')) : bool :=
         match xs, ys with
         | [], [] => true
         | x :: xs', y :: ys' => bool_decide (x.1 = y.1) && type_eqb x.2 y.2 && go xs' ys'
         | _, _ => false
         end) xs ys
  | _, _ => false
  end.

(** A table is a list of records of any columns. *)
Definition untable (t : Type') : Type' := match t with TTable => TList (TRecord []) | _ => t end.

(** [accepts]; [accepts_untable] is the equation by which the code replaces a table. *)
Fixpoint accepts (self got : Type') {struct self} : bool :=
  match self, got with
  | TAny, _ | _, TAny => true
  | TTable, _ => match untable got with
                 | TList inner => match inner with TAny | TRecord _ => true | _ => false end
                 | _ => false
                 end
  | TList a, TTable => accepts a (TRecord [])
  | _, TTable => false
  | TList a, TList b => accepts a b
  | TRecord cols, TRecord cols' => is_empty cols || type_eqb (TRecord cols) (TRecord cols')
  | a, b => type_eqb a b
  end.

Lemma accepts_untable self got :
  self ≠ TAny → got ≠ TAny → self = TTable ∨ got = TTable →
  accepts self got = accepts (untable self) (untable got).
Proof.
  intros Hs Hg [->| ->].
  - destruct got as [| | | | | | | | | |t| | |]; try done. by destruct t.
  - destruct self as [| | | | | | | | | |t| | |]; try done.
Qed.

(** ** Values *)

Inductive Value :=
| VNothing
| VBool (b : bool)
| VInt (z : Z)
| VFloat (bits : N)
| VFilesize (z : Z)
| VDuration (z : Z)
| VDate (ns : Z)
| VString (s : str)
| VBinary (b : list N)
| VList (items : list Value)
| VRecord (map : list (str * Value)).

(** Induction that reaches into lists and records. *)
Definition Value_rect_nested (P : Value → Prop)
    (Hnothing : P VNothing) (Hbool : ∀ b, P (VBool b)) (Hint : ∀ z, P (VInt z)) (Hfloat : ∀ n, P (VFloat n))
    (Hsize : ∀ z, P (VFilesize z)) (Hdur : ∀ z, P (VDuration z)) (Hdate : ∀ z, P (VDate z))
    (Hstr : ∀ s, P (VString s)) (Hbin : ∀ b, P (VBinary b))
    (Hlist : ∀ l, Forall P l → P (VList l))
    (Hrec : ∀ m, Forall (λ kv, P kv.2) m → P (VRecord m)) : ∀ v, P v :=
  fix go v :=
    match v with
    | VNothing => Hnothing
    | VBool b => Hbool b
    | VInt z => Hint z
    | VFloat n => Hfloat n
    | VFilesize z => Hsize z
    | VDuration z => Hdur z
    | VDate z => Hdate z
    | VString s => Hstr s
    | VBinary b => Hbin b
    | VList l => Hlist l ((fix arr l := match l return Forall P l with
                                        | [] => Forall_nil_2 _
                                        | x :: l' => Forall_cons_2 _ _ _ (go x) (arr l')
                                        end) l)
    | VRecord m => Hrec m ((fix obj m := match m return Forall (λ kv, P kv.2) m with
                                         | [] => Forall_nil_2 _
                                         | kv :: m' => Forall_cons_2 _ _ _ (go kv.2) (obj m')
                                         end) m)
    end.

(** [get] of a record: its keys are distinct. *)
Definition rec_get (k : str) (m : list (str * Value)) : option Value := snd <$> head (filter (λ kv, kv.1 = k) m).

(** [insert]: an existing key keeps its place. *)
Fixpoint rec_insert (k : str) (v : Value) (m : list (str * Value)) : list (str * Value) :=
  match m with
  | [] => [(k, v)]
  | kv :: m' => if decide (kv.1 = k) then (k, v) :: m' else kv :: rec_insert k v m'
  end.

Definition is_record (v : Value) : bool := match v with VRecord _ => true | _ => false end.

Definition list_is_table (items : list Value) : bool := negb (is_empty items) && forallb is_record items.

Definition type_of (v : Value) : Type' :=
  match v with
  | VNothing => TNothing
  | VBool _ => TBool
  | VInt _ => TInt
  | VFloat _ => TFloat
  | VFilesize _ => TFilesize
  | VDuration _ => TDuration
  | VDate _ => TDate
  | VString _ => TString
  | VBinary _ => TBinary
  | VList items => if list_is_table items then TTable else TList TAny
  | VRecord _ => TRecord []
  end.

Definition as_record (v : Value) : option (list (str * Value)) := match v with VRecord m => Some m | _ => None end.

Definition get_path (v : Value) (p : str) : option Value :=
  foldl (λ (cur : option Value) segment, m ← (cur ≫= as_record); rec_get segment m) (Some v) (split_char chr_dot p).

(** [==] of values: records compare without their order. *)
Fixpoint value_eqb (a b : Value) {struct a} : bool :=
  match a, b with
  | VNothing, VNothing => true
  | VBool x, VBool y => Bool.eqb x y
  | VInt x, VInt y | VFilesize x, VFilesize y | VDuration x, VDuration y | VDate x, VDate y => (x =? y)%Z
  | VFloat x, VFloat y => f64_eqb x y
  | VString x, VString y => bool_decide (x = y)
  | VBinary x, VBinary y => bool_decide (x = y)
  | VList xs, VList ys =>
      (fix go (xs ys : list Value) : bool :=
         match xs, ys with
         | [], [] => true
         | x :: xs', y :: ys' => value_eqb x y && go xs' ys'
         | _, _ => false
         end) xs ys
  | VRecord xs, VRecord ys =>
      bool_decide (length xs = length ys)
      && (fix go (xs : list (str * Value)) : bool :=
            match xs with
            | [] => true
            | x :: xs' => match rec_get x.1 ys with Some y => value_eqb x.2 y | None => false end && go xs'
            end) xs
  | _, _ => false
  end.

(** [str::cmp]: the byte order of UTF-8 is the order of the characters. *)
Fixpoint str_cmp (a b : str) : comparison :=
  match a, b with
  | [], [] => Eq
  | [], _ :: _ => Lt
  | _ :: _, [] => Gt
  | x :: a', y :: b' => match (x ?= y)%N with Eq => str_cmp a' b' | c => c end
  end.

Definition bool_cmp (a b : bool) : comparison :=
  match a, b with false, true => Lt | true, false => Gt | _, _ => Eq end.

Definition compare_values (a b : Value) : option comparison :=
  match a, b with
  | VBool x, VBool y => Some (bool_cmp x y)
  | VInt x, VInt y => Some (x ?= y)%Z
  | VFloat x, VFloat y => f64_cmp x y
  | VInt x, VFloat y => f64_cmp (f64_of_Z x) y
  | VFloat x, VInt y => f64_cmp x (f64_of_Z y)
  | VFilesize x, VFilesize y | VDuration x, VDuration y => Some (x ?= y)%Z
  | VFilesize x, VInt y | VInt x, VFilesize y => Some (x ?= y)%Z
  | VDuration x, VInt y | VInt x, VDuration y => Some (x ?= y)%Z
  | VDate x, VDate y => Some (x ?= y)%Z
  | VString x, VString y => Some (str_cmp x y)
  | _, _ => None
  end.

(** ** The bridge to JSON *)

Class Base64 := { b64_encode : list N → str; b64_decode : str → option (list N) }.
Class DateText := { date_text : Z → str; date_parse : str → option Z }.

Definition TAG_FILESIZE : str := #"$filesize".
Definition TAG_DURATION : str := #"$duration_ns".
Definition TAG_DATE : str := #"$date".
Definition TAG_BINARY : str := #"$binary".

Section bridge.
Context `{!Base64, !DateText}.

Definition tagged (tag : str) (payload : json) : json := JObj [(tag, payload)].

Fixpoint value_to_json (v : Value) : json :=
  match v with
  | VNothing => JNull
  | VBool b => JBool b
  | VInt z => JInt z
  | VFloat n => if is_finite n then JFloat n else JNull
  | VFilesize z => tagged TAG_FILESIZE (JInt z)
  | VDuration z => tagged TAG_DURATION (JInt z)
  | VDate d => tagged TAG_DATE (JStr (date_text d))
  | VString s => JStr s
  | VBinary b => tagged TAG_BINARY (JStr (b64_encode b))
  | VList items => JArr (map value_to_json items)
  | VRecord m => json_obj (map (λ kv, (kv.1, value_to_json kv.2)) m)
  end.

Definition decode_tagged (key : str) (val : json) : option Value :=
  if decide (key = TAG_FILESIZE) then VFilesize <$> as_i64 val
  else if decide (key = TAG_DURATION) then VDuration <$> as_i64 val
  else if decide (key = TAG_DATE) then VDate <$> (as_str val ≫= date_parse)
  else if decide (key = TAG_BINARY) then VBinary <$> (as_str val ≫= b64_decode)
  else None.

Definition number_to_value (j : json) : Value :=
  match as_i64 j with
  | Some i => VInt i
  | None => match j with JInt z => VFloat (f64_of_Z z) | JFloat n => VFloat n | _ => VFloat 0 end
  end.

(** The keys of an object are distinct: inserting them one by one gives them back. *)
Fixpoint json_to_value (j : json) : Value :=
  match j with
  | JNull => VNothing
  | JBool b => VBool b
  | JInt _ | JFloat _ => number_to_value j
  | JStr s => VString s
  | JArr items => VList (map json_to_value items)
  | JObj m =>
      let record := VRecord (foldl (λ r kv, rec_insert kv.1 kv.2 r) [] (map (λ kv, (kv.1, json_to_value kv.2)) m)) in
      match m with
      | [(key, val)] => default record (decode_tagged key val)
      | _ => record
      end
  end.

End bridge.

(** ** The bridge gives values back *)

(** Columns in the order of their names, as a JSON object keeps them. *)
Fixpoint key_insert {A : Type} (k : str) (v : A) (m : list (str * A)) : list (str * A) :=
  match m with
  | [] => [(k, v)]
  | (k', v') :: m' =>
      if decide (k = k') then (k, v) :: m'
      else if str_leb k k' then (k, v) :: m
      else (k', v') :: key_insert k v m'
  end.

Definition by_key {A : Type} (m : list (str * A)) : list (str * A) :=
  foldl (λ m kv, key_insert kv.1 kv.2 m) [] m.

Definition on_values {A B : Type} (f : A → B) (m : list (str * A)) : list (str * B) :=
  map (λ kv, (kv.1, f kv.2)) m.

(** A value with the columns of every record in that order. *)
Fixpoint canon (v : Value) : Value :=
  match v with
  | VList items => VList (map canon items)
  | VRecord m => VRecord (by_key (map (λ kv, (kv.1, canon kv.2)) m))
  | _ => v
  end.

Lemma key_insert_map {A B : Type} (f : A → B) k v m :
  key_insert k (f v) (on_values f m) = on_values f (key_insert k v m).
Proof.
  induction m as [|[k' v'] m IH]; [done|]. cbn. case_decide; [done|]. destruct (str_leb k k'); [done|].
  cbn. f_equal. exact IH.
Qed.

Lemma by_key_map {A B : Type} (f : A → B) m : by_key (on_values f m) = on_values f (by_key m).
Proof.
  unfold by_key. change (@nil (str * B)) with (on_values f []). generalize (@nil (str * A)).
  induction m as [|[k v] m IH]; intros acc; [done|]. cbn. rewrite key_insert_map. apply IH.
Qed.

Lemma obj_insert_key k v m : obj_insert k v m = key_insert k v m.
Proof. induction m as [|[k' v'] m IH]; [done|]. cbn. by rewrite IH. Qed.

Lemma json_obj_by_key m : json_obj m = JObj (by_key m).
Proof.
  unfold json_obj, by_key. f_equal. generalize (@nil (str * json)).
  induction m as [|[k v] m IH]; intros acc; [done|]. cbn. by rewrite obj_insert_key, IH.
Qed.

Lemma key_insert_perm {A : Type} k (v : A) m :
  k ∉ map fst m → key_insert k v m ≡ₚ (k, v) :: m.
Proof.
  induction m as [|[k' v'] m IH]; intros Hn; [done|]. cbn in *.
  rewrite decide_False by set_solver. destruct (str_leb k k'); [done|].
  rewrite IH by set_solver. apply Permutation_swap.
Qed.

Lemma foldl_key_perm {A : Type} (m acc : list (str * A)) :
  NoDup (map fst acc ++ map fst m) →
  foldl (λ m kv, key_insert kv.1 kv.2 m) acc m ≡ₚ acc ++ m.
Proof.
  revert acc. induction m as [|[k v] m IH]; intros acc Hnd; cbn; [by rewrite app_nil_r|].
  assert (k ∉ map fst acc) as Hk.
  { intros Hin. apply list.NoDup_app in Hnd as (_ & Hd & _). apply (Hd k Hin). left. }
  pose proof (key_insert_perm k v acc Hk) as Hp. rewrite IH.
  - rewrite Hp. cbn. by rewrite Permutation_middle.
  - rewrite (Permutation_map fst Hp). cbn in *. by rewrite Permutation_middle.
Qed.

Lemma by_key_perm {A : Type} (m : list (str * A)) : NoDup (map fst m) → by_key m ≡ₚ m.
Proof. intros H. by apply (foldl_key_perm m []). Qed.

Lemma rec_insert_fresh k v m : k ∉ map fst m → rec_insert k v m = m ++ [(k, v)].
Proof.
  induction m as [|[k' v'] m IH]; intros Hn; [done|]. cbn in *. rewrite decide_False by set_solver.
  f_equal. apply IH. set_solver.
Qed.

Lemma rec_insert_all (m acc : list (str * Value)) :
  NoDup (map fst acc ++ map fst m) → foldl (λ r kv, rec_insert kv.1 kv.2 r) acc m = acc ++ m.
Proof.
  revert acc. induction m as [|[k v] m IH]; intros acc Hnd; cbn; [by rewrite app_nil_r|].
  rewrite rec_insert_fresh.
  - rewrite IH; [by rewrite <- app_assoc|]. by rewrite map_app, <- app_assoc.
  - intros Hin. apply list.NoDup_app in Hnd as (_ & Hd & _). apply (Hd k Hin). left.
Qed.

Section roundtrip.
Context `{!Base64, !DateText}.

Class BridgeLaws : Prop := {
  b64_decode_encode b : b64_decode (b64_encode b) = Some b;
  date_parse_text d : date_parse (date_text d) = Some d;
}.

Definition in_i64 (z : Z) : bool := ((- 2 ^ 63 <=? z) && (z <? 2 ^ 63))%Z.

(** What the bridge carries: integers of 64 bits, finite floats, records with distinct columns
    and none whose only column is a tag with a payload of that tag. *)
Fixpoint carried (v : Value) : Prop :=
  match v with
  | VInt z | VFilesize z | VDuration z => in_i64 z = true
  | VFloat n => is_finite n = true
  | VList items => foldr (λ x P, carried x ∧ P) True items
  | VRecord m => NoDup (map fst m) ∧ foldr (λ kv P, carried kv.2 ∧ P) True m
                 ∧ match m with [(k, v)] => decode_tagged k (value_to_json v) = None | _ => True end
  | _ => True
  end.

Lemma foldr_and_Forall {A : Type} (P : A → Prop) l : foldr (λ x Q, P x ∧ Q) True l ↔ Forall P l.
Proof.
  induction l as [|x l IH]; cbn; [by split|].
  split; [intros [H1 H2%IH]; by constructor|]. intros [H1 H2]%list.Forall_cons. split; [done|]. by apply IH.
Qed.

Lemma as_i64_in z : in_i64 z = true → as_i64 (JInt z) = Some z.
Proof. unfold as_i64, in_i64. by intros ->. Qed.

Lemma json_to_value_tagged tag p v : decode_tagged tag p = Some v → json_to_value (tagged tag p) = v.
Proof. intros E. cbn [tagged json_to_value]. by rewrite E. Qed.

Context `{!BridgeLaws}.

(** C0: A value that crosses the bridge to JSON and back is the value itself, with the columns of
    its records in the order of their names: sizes, durations, dates and binary data keep
    their kind. *)
Theorem bridge_roundtrip v : carried v → json_to_value (value_to_json v) = canon v.
Proof.
  induction v as [| | | | | | | | |l IH|m IH] using Value_rect_nested; cbn [carried value_to_json]; intros Hc.
  - done.
  - done.
  - cbn [json_to_value]. unfold number_to_value. by rewrite as_i64_in.
  - rewrite Hc. done.
  - apply json_to_value_tagged. change (VFilesize <$> as_i64 (JInt z) = Some (VFilesize z)). by rewrite as_i64_in.
  - apply json_to_value_tagged. change (VDuration <$> as_i64 (JInt z) = Some (VDuration z)). by rewrite as_i64_in.
  - apply json_to_value_tagged. change (VDate <$> date_parse (date_text z) = Some (VDate z)).
    by rewrite date_parse_text.
  - done.
  - apply json_to_value_tagged. change (VBinary <$> b64_decode (b64_encode b) = Some (VBinary b)).
    by rewrite b64_decode_encode.
  - cbn. f_equal. apply (foldr_and_Forall carried) in Hc. rewrite map_map.
    induction Hc as [|x l Hx _ IHl]; cbn; [done|]. apply list.Forall_cons in IH as [Hy Hys].
    rewrite Hy by done. f_equal. by apply IHl.
  - destruct Hc as (Hnd & Hall & Htag). apply (foldr_and_Forall (λ kv, carried kv.2)) in Hall.
    rewrite json_obj_by_key. change (map (λ kv, (kv.1, value_to_json kv.2)) m) with (on_values value_to_json m).
    rewrite by_key_map. cbn [json_to_value canon].
    assert (VRecord (foldl (λ r kv, rec_insert kv.1 kv.2 r) []
              (map (λ kv, (kv.1, json_to_value kv.2)) (on_values value_to_json (by_key m))))
            = canon (VRecord m)) as Hrec.
    { cbn [canon]. f_equal. change (map (λ kv, (kv.1, canon kv.2)) m) with (on_values canon m).
      rewrite by_key_map. rewrite rec_insert_all.
      - cbn [app]. unfold on_values. rewrite map_map. cbn [fst snd].
        assert (Forall (λ kv, json_to_value (value_to_json kv.2) = canon kv.2) (by_key m)) as Hf.
        { rewrite (by_key_perm m Hnd). rewrite list.Forall_forall in IH, Hall |- *. intros kv Hin. by apply IH, Hall. }
        induction Hf as [|kv l Hkv _ IHl]; cbn; [done|]. by rewrite Hkv, IHl.
      - cbn [app]. unfold on_values. rewrite !map_map. cbn [fst]. change (map (λ x, x.1)) with (map (@fst str Value)).
        by rewrite (by_key_perm m Hnd). }
    destruct m as [|[k v] [|kv' m]].
    + done.
    + cbn [by_key foldl key_insert on_values map fst snd] in *. by rewrite Htag.
    + assert (length (on_values value_to_json (by_key ((k, v) :: kv' :: m))) = S (S (length m))) as Hlen.
      { unfold on_values. rewrite length_map. by rewrite (by_key_perm _ Hnd). }
      destruct (on_values value_to_json (by_key ((k, v) :: kv' :: m))) as [|[k1 v1] [|kv2 l]]; try done.
Qed.

End roundtrip.

(** A record of one column named as a tag comes back as what the tag stands for. *)
Theorem record_taken_for_size `{!Base64, !DateText} z :
  in_i64 z = true → json_to_value (value_to_json (VRecord [(TAG_FILESIZE, VInt z)])) = VFilesize z.
Proof.
  intros Hz. change (value_to_json (VRecord [(TAG_FILESIZE, VInt z)])) with (tagged TAG_FILESIZE (JInt z)).
  apply json_to_value_tagged. change (VFilesize <$> as_i64 (JInt z) = Some (VFilesize z)). by rewrite as_i64_in.
Qed.

Module ValuesExample.

#[local] Instance toy_base64 : Base64 := {| b64_encode := id; b64_decode := Some |}.
#[local] Instance toy_dates : DateText :=
  {| date_text := λ z, if (z <? 0)%Z then chr_minus :: fmt_dec (Z.to_N (- z)) else fmt_dec (Z.to_N z);
     date_parse := λ s, match s with
                        | c :: s' => if (c =? chr_minus)%N then (λ n, (- Z.of_N (N.of_uint n))%Z) <$> str_uint s'
                                     else (λ n, Z.of_N (N.of_uint n)) <$> str_uint s
                        | [] => None
                        end |}.

Lemma toy_laws : BridgeLaws.
Proof.
  split; [done|]. intros d. cbn.
  assert (∀ n, (N.of_uint <$> str_uint (fmt_dec n)) = Some n) as Hn.
  { intros n. unfold fmt_dec. rewrite str_uint_uint_str. cbn. by rewrite DecimalN.Unsigned.of_to. }
  destruct (Z.ltb_spec d 0) as [Hd|Hd].
  - cbn. specialize (Hn (Z.to_N (- d))). destruct (str_uint (fmt_dec (Z.to_N (- d)))); simplify_eq/=.
    rewrite Hn. f_equal. lia.
  - specialize (Hn (Z.to_N d)). destruct (fmt_dec (Z.to_N d)) as [|c s] eqn:E; [by apply fmt_dec_nonempty in E|].
    assert ((c =? chr_minus)%N = false) as ->.
    { apply N.eqb_neq. intros ->. pose proof (fmt_dec_digits (Z.to_N d)) as Hdig. rewrite E in Hdig.
      apply list.Forall_cons in Hdig as [Hc _]. unfold chr_minus in Hc. lia. }
    destruct (str_uint (c :: s)); simplify_eq/=. rewrite Hn. f_equal. lia.
Qed.

Definition sample : Value :=
  VRecord [(#"when", VDate (-7)); (#"name", VString #"a.rs"); (#"size", VFilesize 2048); (#"raw", VList [VBinary [0; 255]%N; VNothing])].

Lemma bridge_roundtrip_witness :
  json_to_value (value_to_json sample)
  = VRecord [(#"name", VString #"a.rs"); (#"raw", VList [VBinary [0; 255]%N; VNothing]);
             (#"size", VFilesize 2048); (#"when", VDate (-7))].
Proof.
  pose proof toy_laws as Hl. rewrite (bridge_roundtrip sample); [by vm_compute|].
  cbn [carried sample foldr]. split_and!; try done. vm_compute. repeat constructor; set_solver.
Defined.

End ValuesExample.
