(* ===== verification/Pipeline.v ===== *)
(** * The pipeline language: lines, arguments and predicates
      ([orkia-shell/src/exec/tokenize.rs], [parse.rs], [eval.rs], [commands/predicate.rs],
       [orkia-shell-types/src/exec])

    A line of the shell is cut into stages; a run of typed commands among them is a plan, with
    what stands before and after it left to the system's shell. The arguments of a stage are
    bound to the signature of its command, and the words after [where] are parsed into a
    predicate over records. Values and types are those of [Values]. *)
From Stdlib Require Import NArith ZArith Lia.
From stdpp Require Import base gmap strings option numbers list list_basics.
From S2P Require Import Prelude Text Words Effects Fs Values BuiltinTable.

(** ** Quotes *)

Definition chr_squote : char := 39%N.
Definition chr_pipe : char := 124%N.
Definition chr_at : char := 64%N.

Definition is_quote (c : char) : bool := (c =? 34)%N || (c =? 39)%N.

(** [split_pipeline]: [cur] holds the stage so far. *)
Fixpoint split_go (cur : str) (quote : option char) (s : str) : list str :=
  match s with
  | [] => [trim cur]
  | c :: s' =>
      match quote with
      | None =>
          if is_quote c then split_go (cur ++ [c]) (Some c) s'
          else if (c =? chr_pipe)%N then trim cur :: split_go [] None s'
          else split_go (cur ++ [c]) None s'
      | Some open => split_go (cur ++ [c]) (if (c =? open)%N then None else quote) s'
      end
  end.

Definition split_pipeline (input : str) : list str := split_go [] None input.

(** [tokenize]: a quote opens a token and is not part of it. *)
Fixpoint tokenize_go (cur : str) (quote : option char) (had_token : bool) (s : str) : list str :=
  match s with
  | [] => if had_token then [cur] else []
  | c :: s' =>
      match quote with
      | None =>
          if is_quote c then tokenize_go cur (Some c) true s'
          else if is_whitespace c then
            (if had_token then cur :: tokenize_go [] None false s' else tokenize_go cur None false s')
          else tokenize_go (cur ++ [c]) None true s'
      | Some open =>
          if (c =? open)%N then tokenize_go cur None had_token s'
          else tokenize_go (cur ++ [c]) quote true s'
      end
  end.

Definition tokenize (input : str) : list str := tokenize_go [] None false input.

(** ** Signatures, calls, errors *)

Record PositionalArg := mkPositionalArg { pa_name : str; pa_ty : Type'; pa_desc : str }.

Record FlagSpec := mkFlagSpec { fl_long : str; fl_short : option char; fl_takes_arg : option Type'; fl_desc : str }.

Record Signature := mkSignature {
  sg_name : str;
  sg_io_types : list (Type' * Type');
  sg_required : list PositionalArg;
  sg_optional : list PositionalArg;
  sg_flags : list FlagSpec;
  sg_rest : option PositionalArg;
}.

Definition output_for (sig : Signature) (input : Type') : option Type' :=
  snd <$> head (filter (λ io, accepts io.1 input = true) (sg_io_types sig)).

Inductive ExecError :=
| TypeMismatch (command : str) (expected got : Type') (upstream : str)
| MissingArg (command name : str)
| UnknownFlag (command flag : str)
| BadArgs (command message : str)
| BadValue (command message : str)
| ConversionRefused (from : str)
| CapabilityDenied (command capability detail : str)
| Runtime (command message : str)
| Cancelled.

Definition exit_code (e : ExecError) : N :=
  match e with
  | TypeMismatch _ _ _ _ | MissingArg _ _ | UnknownFlag _ _ | BadArgs _ _ | BadValue _ _ | ConversionRefused _ => 2
  | CapabilityDenied _ _ _ | Runtime _ _ | Cancelled => 1
  end.

(** [named]: in the order of insertion, the last value of a flag wins. *)
Record EvaluatedCall := mkEvaluatedCall {
  ec_head : str;
  ec_positional : list Value;
  ec_named : list (str * option Value);
}.

Definition named_get (k : str) (m : list (str * option Value)) : option (option Value) :=
  snd <$> head (filter (λ kv, kv.1 = k) m).

Fixpoint named_insert (k : str) (v : option Value) (m : list (str * option Value)) : list (str * option Value) :=
  match m with
  | [] => [(k, v)]
  | kv :: m' => if decide (kv.1 = k) then (k, v) :: m' else kv :: named_insert k v m'
  end.

Definition req (call : EvaluatedCall) (index : nat) : result ExecError Value :=
  match ec_positional call !! index with
  | Some v => Ok v
  | None => Err (MissingArg (ec_head call) (#"#" ++ fmt_dec (N.of_nat index)))
  end.

Definition opt (call : EvaluatedCall) (index : nat) : option Value := ec_positional call !! index.
Definition has_flag (call : EvaluatedCall) (name : str) : bool := bool_decide (is_Some (named_get name (ec_named call))).
Definition get_flag (call : EvaluatedCall) (name : str) : option Value := named_get name (ec_named call) ≫= id.

(** ** Literals *)

Definition number_char (c : char) : bool :=
  ((48 <=? c) && (c <=? 57))%N || (c =? 46)%N || (c =? 45)%N || (c =? 43)%N.

Fixpoint split_number (s : str) : str * str :=
  match s with
  | c :: s' => if number_char c then let '(a, b) := split_number s' in (c :: a, b) else ([], s)
  | [] => ([], [])
  end.

Definition split_number_unit (input : str) : option (N * str) :=
  match split_number input with
  | (_, []) | ([], _) => None
  | (num, unit) => value ← parse_f64 num; Some (value, map ascii_lower unit)
  end.

Definition scaled (value : N) (multiplier : Z) : Z := f64_round_i64 (f64_mul value (f64_of_Z multiplier)).

Definition filesize_unit (unit : str) : option Z :=
  if decide (unit = #"b") then Some 1%Z
  else if decide (unit = #"kb" ∨ unit = #"kib") then Some (2 ^ 10)%Z
  else if decide (unit = #"mb" ∨ unit = #"mib") then Some (2 ^ 20)%Z
  else if decide (unit = #"gb" ∨ unit = #"gib") then Some (2 ^ 30)%Z
  else if decide (unit = #"tb" ∨ unit = #"tib") then Some (2 ^ 40)%Z
  else None.

Definition parse_filesize (input : str) : option Z :=
  '(value, unit) ← split_number_unit input; scaled value <$> filesize_unit unit.

Definition duration_unit (unit : str) : option Z :=
  if decide (unit = #"ns") then Some 1%Z
  else if decide (unit = #"us") then Some 1000%Z
  else if decide (unit = #"ms") then Some 1000000%Z
  else if decide (unit = #"s" ∨ unit = #"sec") then Some 1000000000%Z
  else if decide (unit = #"min") then Some (60 * 1000000000)%Z
  else if decide (unit = #"hr") then Some (3600 * 1000000000)%Z
  else if decide (unit = #"day") then Some (86400 * 1000000000)%Z
  else None.

Definition parse_duration (input : str) : option Z :=
  '(value, unit) ← split_number_unit input; scaled value <$> duration_unit unit.

Definition parse_bool (token : str) : option bool :=
  if decide (token = #"true") then Some true else if decide (token = #"false") then Some false else None.

(** [str::parse::<i64>] *)
Definition parse_i64 (token : str) : option Z :=
  let '(neg, digits) := take_sign token in
  match digits with
  | [] => None
  | _ :: _ => d ← str_uint digits;
              let z := if neg then (- Z.of_N (N.of_uint d))%Z else Z.of_N (N.of_uint d) in
              if ((- 2 ^ 63 <=? z) && (z <? 2 ^ 63))%Z then Some z else None
  end.

Definition infer_literal (token : str) : Value :=
  match parse_bool token with Some b => VBool b | None =>
  match parse_filesize token with Some size => VFilesize size | None =>
  match parse_duration token with Some dur => VDuration dur | None =>
  match parse_i64 token with Some i => VInt i | None =>
  match parse_f64 token with Some f => VFloat f | None => VString token
  end end end end end.

Example literals_ex :
  map infer_literal [ #"1mb"; #"5sec"; #"1.5KB"; #"-3"; #"2.5"; #"true"; #"9tb9"; #"inf"; #"999999999tb"]
  = [VFilesize 1048576; VDuration 5000000000; VFilesize 1536; VInt (-3); VFloat 4612811918334230528; VBool true;
     VString #"9tb9"; VFloat 9218868437227405312; VFilesize (2 ^ 63 - 1)].
Proof. vm_compute. reflexivity. Qed.

(** ** Binding arguments *)

Definition bad (head token what : str) : ExecError := BadArgs head (#"`" ++ token ++ #"` is not a valid " ++ what).

Definition coerce (head token : str) (ty : Type') : result ExecError Value :=
  match ty with
  | TString => Ok (VString token)
  | TInt => map_err (λ _ : unit, bad head token #"integer") (VInt <$> ok_or (parse_i64 token) ())
  | TFloat => map_err (λ _ : unit, bad head token #"float") (VFloat <$> ok_or (parse_f64 token) ())
  | TBool => map_err (λ _ : unit, bad head token #"bool") (VBool <$> ok_or (parse_bool token) ())
  | TFilesize => map_err (λ _ : unit, bad head token #"filesize") (VFilesize <$> ok_or (parse_filesize token) ())
  | TDuration => map_err (λ _ : unit, bad head token #"duration") (VDuration <$> ok_or (parse_duration token) ())
  | _ => Ok (infer_literal token)
  end.

Definition is_flag_shaped (token : str) : bool :=
  match strip_prefix #"--" token with
  | Some rest => negb (is_empty rest)
  | None =>
      match strip_prefix #"-" token with
      | Some (c :: rest) => bool_decide (parse_f64 (c :: rest) = None)
      | _ => false
      end
  end.

Definition flag_lookup (sig : Signature) (token : str) : option FlagSpec :=
  match strip_prefix #"--" token with
  | Some long => head (filter (λ f, fl_long f = long) (sg_flags sig))
  | None =>
      match strip_prefix #"-" token with
      | Some [c] => if ((48 <=? c) && (c <=? 57))%N then None
                    else head (filter (λ f, fl_short f = Some c) (sg_flags sig))
      | _ => None
      end
  end.

Definition positional_type (sig : Signature) (index : nat) : Type' :=
  match sg_required sig !! index with
  | Some arg => pa_ty arg
  | None => match sg_optional sig !! (index - length (sg_required sig)) with
            | Some arg => pa_ty arg
            | None => match sg_rest sig with Some a => pa_ty a | None => TString end
            end
  end.

Fixpoint bind_args (sig : Signature) (hd : str) (args : list str) (positional : list Value)
    (named : list (str * option Value)) : result ExecError (list Value * list (str * option Value)) :=
  match args with
  | [] => Ok (positional, named)
  | token :: rest =>
      match flag_lookup sig token with
      | Some flag =>
          match fl_takes_arg flag with
          | None => bind_args sig hd rest positional (named_insert (fl_long flag) None named)
          | Some ty =>
              match rest with
              | [] => Err (BadArgs hd (#"flag `--" ++ fl_long flag ++ #"` requires a value"))
              | v :: rest' =>
                  match coerce hd v ty with
                  | Err e => Err e
                  | Ok value => bind_args sig hd rest' positional (named_insert (fl_long flag) (Some value) named)
                  end
              end
          end
      | None =>
          if bool_decide (sg_rest sig = None) && is_flag_shaped token then Err (UnknownFlag hd token)
          else match coerce hd token (positional_type sig (length positional)) with
               | Err e => Err e
               | Ok v => bind_args sig hd rest (positional ++ [v]) named
               end
      end
  end.

Definition evaluate (sig : Signature) (hd : str) (raw_args : list str) : result ExecError EvaluatedCall :=
  match bind_args sig hd raw_args [] [] with
  | Err e => Err e
  | Ok (positional, named) =>
      match sg_required sig !! length positional with
      | Some missing => Err (MissingArg hd (pa_name missing))
      | None => Ok (mkEvaluatedCall hd positional named)
      end
  end.

(** ** Predicates *)

Inductive CmpOp := OpEq | OpNe | OpGt | OpLt | OpGe | OpLe.

#[export] Instance CmpOp_eq_dec : EqDecision CmpOp.
Proof. solve_decision. Defined.

Inductive Predicate :=
| POr (a b : Predicate)
| PAnd (a b : Predicate)
| PCmp (field : str) (op : CmpOp) (rhs : Value).

Inductive Lexeme := LWord (w : str) | LOp (op : CmpOp) | LAnd | LOr.

Definition is_op_char (c : char) : bool := (c =? 62)%N || (c =? 60)%N || (c =? 61)%N || (c =? 33)%N.

Definition op_from (symbol : str) : option CmpOp :=
  if decide (symbol = #"==" ∨ symbol = #"=") then Some OpEq
  else if decide (symbol = #"!=") then Some OpNe
  else if decide (symbol = #">=") then Some OpGe
  else if decide (symbol = #"<=") then Some OpLe
  else if decide (symbol = #">") then Some OpGt
  else if decide (symbol = #"<") then Some OpLt
  else None.

Definition flush_op (op : str) : result str CmpOp := ok_or (op_from op) (#"unknown operator `" ++ op ++ #"`").

Definition push_op (op : str) (r : result str (list Lexeme)) : result str (list Lexeme) :=
  if is_empty op then r
  else match flush_op op with Err e => Err e | Ok o => cons (LOp o) <$> r end.

Definition push_word (word : str) (r : result str (list Lexeme)) : result str (list Lexeme) :=
  if is_empty word then r else cons (LWord word) <$> r.

Fixpoint lex_token (word op : str) (s : str) : result str (list Lexeme) :=
  match s with
  | [] => push_op op (push_word word (Ok []))
  | c :: s' =>
      if is_op_char c then push_word word (lex_token [] (op ++ [c]) s')
      else push_op op (lex_token (word ++ [c]) [] s')
  end.

Fixpoint lex (tokens : list str) : result str (list Lexeme) :=
  match tokens with
  | [] => Ok []
  | token :: rest =>
      if decide (token = #"and") then cons LAnd <$> lex rest
      else if decide (token = #"or") then cons LOr <$> lex rest
      else match lex_token [] [] token with
           | Err e => Err e
           | Ok l => app l <$> lex rest
           end
  end.

Definition parse_cmp (l : list Lexeme) : result str (Predicate * list Lexeme) :=
  match l with
  | LWord field :: LOp op :: LWord w :: rest => Ok (PCmp field op (infer_literal w), rest)
  | LWord field :: LOp _ :: _ => Err (#"expected a value after `" ++ field ++ #"`")
  | LWord field :: _ => Err (#"expected an operator after `" ++ field ++ #"`")
  | _ => Err #"expected a field name"
  end.

(** The loops of [parse_and] and [parse_or]; each turn takes a lexeme at least, so that the
    length of the input is fuel enough. *)
Fixpoint and_loop (fuel : nat) (lhs : Predicate) (l : list Lexeme) : result str (Predicate * list Lexeme) :=
  match fuel, l with
  | S fuel, LAnd :: rest =>
      match parse_cmp rest with
      | Err e => Err e
      | Ok (rhs, rest') => and_loop fuel (PAnd lhs rhs) rest'
      end
  | _, _ => Ok (lhs, l)
  end.

Definition parse_and (l : list Lexeme) : result str (Predicate * list Lexeme) :=
  match parse_cmp l with Err e => Err e | Ok (lhs, rest) => and_loop (length rest) lhs rest end.

Fixpoint or_loop (fuel : nat) (lhs : Predicate) (l : list Lexeme) : result str (Predicate * list Lexeme) :=
  match fuel, l with
  | S fuel, LOr :: rest =>
      match parse_and rest with
      | Err e => Err e
      | Ok (rhs, rest') => or_loop fuel (POr lhs rhs) rest'
      end
  | _, _ => Ok (lhs, l)
  end.

Definition parse_or (l : list Lexeme) : result str (Predicate * list Lexeme) :=
  match parse_and l with Err e => Err e | Ok (lhs, rest) => or_loop (length rest) lhs rest end.

Definition parse_predicate (tokens : list str) : result str Predicate :=
  if is_empty tokens then Err #"empty predicate"
  else match lex tokens with
       | Err e => Err e
       | Ok lexemes => match parse_or lexemes with
                       | Err e => Err e
                       | Ok (p, []) => Ok p
                       | Ok (_, _ :: _) => Err #"trailing tokens in predicate"
                       end
       end.

Definition ordering_matches (op : CmpOp) (ord : comparison) : bool :=
  match op, ord with
  | OpGt, Gt | OpLt, Lt | OpGe, (Gt | Eq) | OpLe, (Lt | Eq) => true
  | _, _ => false
  end.

Fixpoint eval_predicate (p : Predicate) (record : Value) : bool :=
  match p with
  | POr a b => eval_predicate a record || eval_predicate b record
  | PAnd a b => eval_predicate a record && eval_predicate b record
  | PCmp field op rhs =>
      match get_path record field with
      | None => false
      | Some lhs =>
          match op with
          | OpEq => value_eqb lhs rhs
          | OpNe => negb (value_eqb lhs rhs)
          | _ => match compare_values lhs rhs with Some ord => ordering_matches op ord | None => false end
          end
      end
  end.

Example predicate_ex :
  (λ p, map (eval_predicate p) [VRecord [(#"size", VFilesize 2048)]; VRecord [(#"size", VFilesize 100)]])
    <$> parse_predicate (tokenize #"size>1kb and size <= 2kb or name == x") = Ok [true; false].
Proof. vm_compute. reflexivity. Qed.

(** ** Plans *)

Record ParsedStage := mkParsedStage { ps_name : str; ps_raw_args : list str }.

Record ExecPlan := mkExecPlan {
  ep_shell_prefix : option str;
  ep_stages : list ParsedStage;
  ep_external_suffix : option str;
}.

Definition strip_namespace (stage : str) : bool * str :=
  let s := trim stage in
  match strip_prefix #"orkia " s with
  | Some rest => (true, trim_start rest)
  | None => match strip_prefix #"ork " s with
            | Some rest => (true, trim_start rest)
            | None => (false, s)
            end
  end.

Definition is_agent_stage (s : str) : bool := starts_with [chr_at] (trim_start s).

Definition PIPE : str := #" | ".

Inductive AgentLeft :=
| AgentTypeMismatch (e : ExecError)
| Sink (agent body : str) (once : bool) (sink_cmd : str)
| NotAgentOnLeft.

(** [trim_start_matches('@')] *)
Fixpoint trim_ats (s : str) : str :=
  match s with c :: s' => if (c =? chr_at)%N then trim_ats s' else s | [] => [] end.

Definition split_agent_stage (stage : str) : str * str * bool :=
  match split_whitespace (trim_ats (trim_start stage)) with
  | [] => ([], [], false)
  | agent :: words =>
      (agent, join #" " (filter (λ w, w ≠ #"--once") words), bool_decide (#"--once" ∈ words))
  end.

Section parse.
(** The signature of a registered command. *)
Context (registry : str → option Signature).

Definition contains (name : str) : bool := bool_decide (is_Some (registry name)).

Definition typed_head (stage : str) : option ParsedStage :=
  let '(namespaced, body) := strip_namespace stage in
  match tokenize body with
  | [] => None
  | hd :: args =>
      if negb (contains hd) then None
      else if namespaced then Some (mkParsedStage hd args)
      else if bare_typed_blocked hd then None
      else if bool_decide (route_for hd args = Some Brush) then None
      else Some (mkParsedStage hd args)
  end.

(** The stages before the first typed one, and the typed run from there with what follows. *)
Fixpoint span_untyped (stages : list str) : list str * list str :=
  match stages with
  | [] => ([], [])
  | s :: rest => match typed_head s with
                 | Some _ => ([], stages)
                 | None => let '(a, b) := span_untyped rest in (s :: a, b)
                 end
  end.

Fixpoint span_typed (stages : list str) : list ParsedStage * list str :=
  match stages with
  | [] => ([], [])
  | s :: rest => match typed_head s with
                 | Some p => let '(a, b) := span_typed rest in (p :: a, b)
                 | None => ([], stages)
                 end
  end.

Definition join_stages (stages : list str) : option str :=
  if is_empty stages then None else Some (join PIPE stages).

Definition try_parse_exec (line : str) : option ExecPlan :=
  let raw := trim line in
  if is_empty raw then None
  else
    let stages := split_pipeline raw in
    let '(prefix, rest) := span_untyped stages in
    let '(typed, suffix) := span_typed rest in
    if is_empty typed then None
    else if existsb (λ s, bool_decide (is_Some (typed_head s))) suffix then None
    else if existsb is_agent_stage prefix || existsb is_agent_stage suffix then None
    else Some (mkExecPlan (join_stages prefix) typed (join_stages suffix)).

(** What a downstream stage takes, for an agent in front of it. *)
Definition agent_mismatch (agent downstream : str) : ExecError :=
  let command := default [] (head (tokenize (strip_namespace downstream).2)) in
  let expected := default TTable (sig ← registry command; fst <$> head (sg_io_types sig)) in
  TypeMismatch command expected TByteStream (#"@" ++ agent).

Fixpoint agent_left_from (stages : list str) : option ExecError :=
  match stages with
  | up :: (down :: _) as rest =>
      let upstream := trim_start up in
      let downstream := trim_start down in
      if starts_with [chr_at] upstream && negb (starts_with [chr_at] downstream)
      then Some (agent_mismatch (default [] (head (split_whitespace (trim_ats upstream)))) downstream)
      else agent_left_from rest
  | _ => None
  end.

Definition agent_left_type_mismatch (line : str) : option ExecError := agent_left_from (split_pipeline line).

Fixpoint classify_from (first : bool) (stages : list str) : AgentLeft :=
  match stages with
  | up :: (down :: _) as rest =>
      let upstream := trim_start up in
      let downstream := trim_start down in
      if negb (starts_with [chr_at] upstream) || starts_with [chr_at] downstream then classify_from false rest
      else
        let '(agent, body, once) := split_agent_stage upstream in
        if bool_decide (typed_head downstream = None) && first && negb (existsb is_agent_stage rest)
        then Sink agent body once (join PIPE rest)
        else AgentTypeMismatch (agent_mismatch agent downstream)
  | _ => NotAgentOnLeft
  end.

Definition classify_agent_on_left (line : str) : AgentLeft := classify_from true (split_pipeline line).

End parse.

(** ** Splitting again *)

(** What is read of a text: the quote it leaves open, or nothing when it has a bare bar. *)
Fixpoint scan (quote : option char) (s : str) : option (option char) :=
  match s with
  | [] => Some quote
  | c :: s' =>
      match quote with
      | None => if is_quote c then scan (Some c) s' else if (c =? chr_pipe)%N then None else scan None s'
      | Some open => scan (if (c =? open)%N then None else quote) s'
      end
  end.

Lemma split_go_scan cur q s q' rest :
  scan q s = Some q' → split_go cur q (s ++ rest) = split_go (cur ++ s) q' rest.
Proof.
  revert cur q. induction s as [|c s IH]; intros cur q; cbn [scan app split_go].
  { intros [= ->]. by rewrite app_nil_r. }
  replace (cur ++ c :: s) with ((cur ++ [c]) ++ s) by (by rewrite <- app_assoc).
  destruct q as [open|]; [apply IH|].
  destruct (is_quote c); [apply IH|]. destruct (c =? chr_pipe)%N; [done|apply IH].
Qed.

Lemma scan_app q s t : scan q (s ++ t) = scan q s ≫= λ q', scan q' t.
Proof.
  revert q. induction s as [|c s IH]; intros q; [done|]. cbn [scan app].
  destruct q; [apply IH|]. destruct (is_quote c); [apply IH|]. by destruct (c =? chr_pipe)%N.
Qed.

Definition blank (s : str) : Prop := Forall (λ c, is_whitespace c = true) s.
Definition trimmed (s : str) : Prop := trim_start s = s ∧ trim_end s = s.

Lemma trim_start_drops a s : blank a → trim_start (a ++ s) = trim_start s.
Proof. induction 1 as [|c a Hc _ IH]; [done|]. cbn. by rewrite Hc. Qed.

Lemma trim_start_split s : ∃ a, s = a ++ trim_start s ∧ blank a.
Proof.
  induction s as [|c s (a & Ha & Hb)]; [exists []; split; [done|constructor]|]. cbn.
  destruct (is_whitespace c) eqn:E; [|exists []; split; [done|constructor]].
  exists (c :: a). split; [cbn; by f_equal|by constructor].
Qed.

Lemma trim_start_idem s : trim_start (trim_start s) = trim_start s.
Proof. induction s as [|c s IH]; [done|]. cbn. destruct (is_whitespace c) eqn:E; [done|]. cbn. by rewrite E. Qed.

Lemma trim_end_split s : ∃ b, s = trim_end s ++ b ∧ blank b.
Proof.
  unfold trim_end. destruct (trim_start_split (reverse s)) as (a & Ha & Hb). exists (reverse a). split.
  - rewrite <- reverse_app, <- Ha. by rewrite reverse_involutive.
  - by apply Forall_reverse.
Qed.

Lemma trim_trimmed s : trimmed (trim s).
Proof.
  unfold trim. set (u := trim_start s). assert (trim_start u = u) as Hu by apply trim_start_idem. clearbody u.
  split; [|unfold trim_end; by rewrite reverse_involutive, trim_start_idem].
  destruct (trim_end_split u) as (b & Hb & Hbl). destruct (trim_end u) as [|c t] eqn:E; [done|]. cbn.
  destruct (is_whitespace c) eqn:Hc; [|done]. rewrite Hb in Hu. cbn in Hu. rewrite Hc in Hu.
  destruct (trim_start_split (t ++ b)) as (a & Ha & _). apply (f_equal length) in Hu, Ha.
  cbn [length] in Hu. rewrite !length_app in *. lia.
Qed.

Lemma trim_around a t b : blank a → trimmed t → blank b → trim (a ++ t ++ b) = t.
Proof.
  intros Ha [Hs He] Hb. unfold trim. rewrite trim_start_drops by done.
  assert (blank (reverse b)) as Hrb by (by apply Forall_reverse).
  destruct t as [|c t].
  - cbn [app]. replace b with (b ++ []) by apply app_nil_r. by rewrite trim_start_drops.
  - assert (is_whitespace c = false) as Hc.
    { cbn in Hs. destruct (is_whitespace c); [|done]. destruct (trim_start_split t) as (a' & Ha' & _).
      apply (f_equal length) in Hs, Ha'. cbn [length] in Hs. rewrite length_app in Ha'. lia. }
    cbn [trim_start app]. rewrite Hc. unfold trim_end. change (c :: t ++ b) with ((c :: t) ++ b).
    rewrite reverse_app, trim_start_drops by done. exact He.
Qed.

Definition quoteish (q : option char) : Prop := match q with Some c => is_quote c = true | None => True end.

Lemma whitespace_plain c : is_whitespace c = true → is_quote c = false ∧ (c =? chr_pipe)%N = false.
Proof.
  unfold is_whitespace, is_quote, chr_pipe. intros H.
  rewrite !orb_true_iff, !andb_true_iff, !N.leb_le, !N.eqb_eq in H. split; [apply orb_false_iff; split|];
    apply N.eqb_neq; lia.
Qed.

Lemma scan_blank q s : blank s → quoteish q → scan q s = Some q.
Proof.
  intros Hb Hq. induction Hb as [|c s Hc _ IH]; [done|]. cbn. apply whitespace_plain in Hc as [H1 H2].
  destruct q as [open|]; [|by rewrite H1, H2].
  destruct (N.eqb_spec c open) as [->|_]; [cbn in Hq; congruence|exact IH].
Qed.

Lemma scan_quoteish q s q' : quoteish q → scan q s = Some q' → quoteish q'.
Proof.
  revert q. induction s as [|c s IH]; intros q Hq; cbn; [by intros [= <-]|].
  destruct q as [open|]; [destruct (c =? open)%N; by apply IH|].
  destruct (is_quote c) eqn:E; [by apply IH|]. destruct (c =? chr_pipe)%N; [done|by apply IH].
Qed.

Lemma trim_split s : ∃ a b, s = a ++ trim s ++ b ∧ blank a ∧ blank b.
Proof.
  destruct (trim_start_split s) as (a & Ha & Hba). destruct (trim_end_split (trim_start s)) as (b & Hb & Hbb).
  exists a, b. split_and!; [|done..]. rewrite Ha at 1. by rewrite Hb at 1.
Qed.

Lemma scan_trim s q : scan None s = Some q → scan None (trim s) = Some q.
Proof.
  destruct (trim_split s) as (a & b & Hs & Ha & Hb). intros H. rewrite Hs in H.
  rewrite scan_app, (scan_blank None a) in H by done. cbn [mbind option_bind] in H. rewrite scan_app in H.
  destruct (scan None (trim s)) as [q'|] eqn:E; [|done]. cbn [mbind option_bind] in H.
  rewrite scan_blank in H; [by simplify_eq| |by eapply scan_quoteish; [|exact E]]. done.
Qed.

(** The stages of a line: trimmed, without a bare bar, and closed but for the last. *)
Definition stages_ok (l : list str) : Prop :=
  ∃ init lst q, l = init ++ [lst] ∧ Forall (λ s, trimmed s ∧ scan None s = Some None) init
                ∧ trimmed lst ∧ scan None lst = Some q.

Lemma split_go_ok cur q s : scan None cur = Some q → stages_ok (split_go cur q s).
Proof.
  revert cur q. induction s as [|c s IH]; intros cur q Hc; cbn [split_go].
  { exists [], (trim cur), q. split_and!; [done|constructor|apply trim_trimmed|by apply scan_trim]. }
  assert (∀ q', scan q [c] = Some q' → stages_ok (split_go (cur ++ [c]) q' s)) as Hgo.
  { intros q' Hq'. apply IH. rewrite scan_app, Hc. exact Hq'. }
  destruct q as [open|]; [by apply Hgo; cbn; destruct (c =? open)%N|].
  destruct (is_quote c) eqn:E; [apply Hgo; cbn; by rewrite E|].
  destruct (c =? chr_pipe)%N eqn:Ep; [|apply Hgo; cbn; by rewrite E, Ep].
  destruct (IH [] None eq_refl) as (init & lst & q' & -> & Hi & Hl). exists (trim cur :: init), lst, q'.
  split_and!; [done| |apply Hl..]. constructor; [|done]. split; [apply trim_trimmed|by apply scan_trim].
Qed.

Lemma split_join lead l :
  blank lead → stages_ok l → split_go lead None (join PIPE l) = l.
Proof.
  intros Hlead (init & lst & q & -> & Hi & Ht & Hq). revert lead Hlead.
  induction Hi as [|x init [Hx Hs] Hi IH]; intros lead Hlead.
  - cbn [app join]. replace lst with (lst ++ []) at 1 by apply app_nil_r. rewrite (split_go_scan _ _ _ _ _ Hq).
    assert (trim (lead ++ lst) = lst) as Htrim.
    { replace (lead ++ lst) with (lead ++ lst ++ []) by (by rewrite app_nil_r).
      apply trim_around; [done|done|constructor]. }
    destruct q; cbn [split_go]; by rewrite Htrim.
  - assert (∃ y l', init ++ [lst] = y :: l') as (y & l' & El) by (destruct init; eauto).
    cbn [app]. rewrite El in *. change (join PIPE (x :: y :: l')) with (x ++ 32%N :: 124%N :: 32%N :: join PIPE (y :: l')).
    rewrite (split_go_scan _ _ _ _ _ Hs). cbn [split_go is_quote].
    change ((124 =? chr_pipe)%N) with true. cbn iota.
    change (split_go ([] ++ [32%N]) None) with (split_go [32%N] None). f_equal.
    + rewrite <- app_assoc. apply trim_around; [done|done|]. by repeat constructor.
    + apply IH. by repeat constructor.
Qed.

(** C0: Joining the stages of a line by bars and splitting again gives the same stages, for every
    line and whatever quotes it has: the part of a line handed on as text is the pipeline it
    was. *)
Theorem resplit line : split_pipeline (join PIPE (split_pipeline line)) = split_pipeline line.
Proof. apply split_join; [constructor|]. by apply split_go_ok. Qed.

(** ** Arguments in quotes *)

Definition quoted (w : str) : str := 34%N :: w ++ [34%N].

Lemma tokenize_in_quotes w cur rest :
  34%N ∉ w → tokenize_go cur (Some 34%N) true (w ++ 34%N :: rest) = tokenize_go (cur ++ w) None true rest.
Proof.
  revert cur. induction w as [|c w IH]; intros cur Hw; cbn [app tokenize_go].
  - cbn. by rewrite app_nil_r.
  - destruct (N.eqb_spec c 34) as [->|_]; [set_solver|]. rewrite IH by set_solver. by rewrite <- app_assoc.
Qed.

(** C0: Whatever words are put in double quotes and set apart by blanks are the words a command
    gets, empty ones and ones with blanks, bars and single quotes too. *)
Theorem tokenize_quoted ws : Forall (λ w, 34%N ∉ w) ws → tokenize (join #" " (map quoted ws)) = ws.
Proof.
  intros Hws. unfold tokenize.
  induction Hws as [|w ws Hw _ IH]; [done|]. cbn [map]. destruct ws as [|v ws].
  - cbn [map join]. unfold quoted. cbn [tokenize_go is_quote]. change (is_quote 34) with true. cbn iota.
    rewrite (tokenize_in_quotes w [] []) by done. done.
  - change (join #" " (quoted w :: map quoted (v :: ws)))
      with (34%N :: (w ++ [34%N]) ++ 32%N :: join #" " (map quoted (v :: ws))).
    rewrite <- app_assoc. cbn [app tokenize_go]. change (is_quote 34) with true. cbn iota.
    rewrite (tokenize_in_quotes w []) by done. cbn [tokenize_go app]. change (is_quote 32) with false.
    change (is_whitespace 32) with true. cbn iota. by rewrite IH.
Qed.

Lemma tokenize_quoted_witness :
  tokenize (quoted #"a b" ++ #" " ++ quoted [] ++ #" " ++ quoted #"x|y") = [ #"a b"; []; #"x|y"].
Proof.
  apply (tokenize_quoted [ #"a b"; []; #"x|y"]).
  apply (bool_decide_unpack _). vm_compute. exact I.
Defined.

(** ** Predicates as they are written *)

(** A word of a predicate: not empty, without an operator, not one of the connectives. *)
Definition plain_word (w : str) : bool :=
  negb (is_empty w) && forallb (λ c, negb (is_op_char c)) w && bool_decide (w ≠ #"and") && bool_decide (w ≠ #"or").

Definition op_text (op : CmpOp) : str :=
  match op with OpEq => #"==" | OpNe => #"!=" | OpGt => #">" | OpLt => #"<" | OpGe => #">=" | OpLe => #"<=" end.

(** Comparisons by [and], and alternatives of them by [or]. *)
Abbreviation comparison_text := (str * CmpOp * str)%type (only parsing).

Definition cmp_words (c : comparison_text) : list str := let '(field, op, w) := c in [field; op_text op; w].

Fixpoint and_words (cs : list comparison_text) : list str :=
  match cs with [] => [] | [c] => cmp_words c | c :: cs' => cmp_words c ++ #"and" :: and_words cs' end.

Fixpoint or_words (ds : list (list comparison_text)) : list str :=
  match ds with [] => [] | [d] => and_words d | d :: ds' => and_words d ++ #"or" :: or_words ds' end.

Definition cmp_ok (c : comparison_text) : Prop := plain_word c.1.1 = true ∧ plain_word c.2 = true.

Definition cmp_lexemes (c : comparison_text) : list Lexeme := let '(field, op, w) := c in [LWord field; LOp op; LWord w].
Fixpoint and_lexemes (cs : list comparison_text) : list Lexeme :=
  match cs with [] => [] | [c] => cmp_lexemes c | c :: cs' => cmp_lexemes c ++ LAnd :: and_lexemes cs' end.
Fixpoint or_lexemes (ds : list (list comparison_text)) : list Lexeme :=
  match ds with [] => [] | [d] => and_lexemes d | d :: ds' => and_lexemes d ++ LOr :: or_lexemes ds' end.

Definition cmp_predicate (c : comparison_text) : Predicate := let '(field, op, w) := c in PCmp field op (infer_literal w).

Lemma lex_token_word w : forallb (λ c, negb (is_op_char c)) w = true →
  ∀ word, lex_token word [] w = push_word (word ++ w) (Ok []).
Proof.
  induction w as [|c w IH]; intros Hw word; cbn [lex_token]; [by rewrite app_nil_r|].
  cbn in Hw. apply andb_true_iff in Hw as [Hc Hw]. apply negb_true_iff in Hc. rewrite Hc.
  cbn [push_op is_empty]. rewrite IH by done. by rewrite <- app_assoc.
Qed.

Lemma lex_word w rest l : plain_word w = true → lex rest = Ok l → lex (w :: rest) = Ok (LWord w :: l).
Proof.
  unfold plain_word. rewrite !andb_true_iff, !bool_decide_eq_true. intros [[[Hne Hop] Ha] Ho] Hl. cbn [lex].
  rewrite !decide_False by done. rewrite lex_token_word by done. cbn [app]. unfold push_word.
  apply negb_true_iff in Hne. rewrite Hne. cbn. by rewrite Hl.
Qed.

Lemma lex_op op rest l : lex rest = Ok l → lex (op_text op :: rest) = Ok (LOp op :: l).
Proof. intros Hl. destruct op; cbn -[lex]; (rewrite (eq_refl : lex (_ :: rest) = app [LOp _] <$> lex rest)); by rewrite Hl. Qed.

Lemma lex_cmp c rest l : cmp_ok c → lex rest = Ok l → lex (cmp_words c ++ rest) = Ok (cmp_lexemes c ++ l).
Proof. destruct c as [[f op] w]. intros [Hf Hw] Hl. cbn [cmp_words cmp_lexemes app]. by apply lex_word, lex_op, lex_word. Qed.

Lemma lex_connective rest l : lex rest = Ok l → lex (#"and" :: rest) = Ok (LAnd :: l) ∧ lex (#"or" :: rest) = Ok (LOr :: l).
Proof. intros Hl. split; cbn [lex]; by rewrite Hl. Qed.

Lemma lex_and cs rest l : Forall cmp_ok cs → lex rest = Ok l → lex (and_words cs ++ rest) = Ok (and_lexemes cs ++ l).
Proof.
  induction 1 as [|c cs Hc Hcs IH]; intros Hl; [done|]. destruct cs as [|c' cs]; [by apply lex_cmp|].
  change (and_words (c :: c' :: cs)) with (cmp_words c ++ #"and" :: and_words (c' :: cs)).
  change (and_lexemes (c :: c' :: cs)) with (cmp_lexemes c ++ LAnd :: and_lexemes (c' :: cs)).
  rewrite <- !app_assoc. apply lex_cmp; [done|]. by apply lex_connective, IH.
Qed.

Lemma lex_or ds : Forall (Forall cmp_ok) ds → lex (or_words ds) = Ok (or_lexemes ds).
Proof.
  induction 1 as [|d ds Hd Hds IH]; [done|]. destruct ds as [|d' ds].
  - cbn. rewrite <- (app_nil_r (and_words d)), <- (app_nil_r (and_lexemes d)). by apply lex_and.
  - change (or_words (d :: d' :: ds)) with (and_words d ++ #"or" :: or_words (d' :: ds)).
    change (or_lexemes (d :: d' :: ds)) with (and_lexemes d ++ LOr :: or_lexemes (d' :: ds)).
    apply lex_and; [done|]. by apply lex_connective.
Qed.

Lemma and_lexemes_cons c cs :
  and_lexemes (c :: cs) = cmp_lexemes c ++ (cs ≫= λ c, LAnd :: cmp_lexemes c).
Proof.
  revert c. induction cs as [|c' cs IH]; intros c; [cbn; by rewrite app_nil_r|].
  change (and_lexemes (c :: c' :: cs)) with (cmp_lexemes c ++ LAnd :: and_lexemes (c' :: cs)). by rewrite IH.
Qed.

Lemma or_lexemes_cons d ds :
  or_lexemes (d :: ds) = and_lexemes d ++ (ds ≫= λ d, LOr :: and_lexemes d).
Proof.
  revert d. induction ds as [|d' ds IH]; intros d; [cbn; by rewrite app_nil_r|].
  change (or_lexemes (d :: d' :: ds)) with (and_lexemes d ++ LOr :: or_lexemes (d' :: ds)). by rewrite IH.
Qed.

Lemma parse_cmp_lexemes c rest : parse_cmp (cmp_lexemes c ++ rest) = Ok (cmp_predicate c, rest).
Proof. by destruct c as [[f op] w]. Qed.

Definition no_and (l : list Lexeme) : Prop := match l with LAnd :: _ => False | _ => True end.
Definition no_or (l : list Lexeme) : Prop := match l with LOr :: _ => False | _ => True end.

Lemma and_loop_spec n cs lhs rest :
  length cs ≤ n → no_and rest →
  and_loop n lhs ((cs ≫= λ c, LAnd :: cmp_lexemes c) ++ rest) = Ok (foldl PAnd lhs (map cmp_predicate cs), rest).
Proof.
  revert n lhs. induction cs as [|c cs IH]; intros n lhs Hn Hr.
  - cbn [mbind list_bind app map foldl]. destruct n, rest as [|[] rest]; done.
  - destruct n as [|n]; [cbn in Hn; lia|]. rewrite bind_cons. cbn [app and_loop].
    rewrite <- app_assoc, parse_cmp_lexemes. cbn [map foldl]. apply IH; [cbn in Hn; lia|done].
Qed.

Lemma length_bind_ge {A B : Type} (f : A → list B) l :
  (∀ x, 1 ≤ length (f x)) → length l ≤ length (l ≫= f).
Proof.
  intros Hf. induction l as [|x l IH]; [done|]. rewrite bind_cons, length_app. cbn. specialize (Hf x). lia.
Qed.

Definition and_predicate (c : comparison_text) (cs : list comparison_text) : Predicate :=
  foldl PAnd (cmp_predicate c) (map cmp_predicate cs).

Lemma parse_and_spec c cs rest :
  no_and rest → parse_and (and_lexemes (c :: cs) ++ rest) = Ok (and_predicate c cs, rest).
Proof.
  intros Hr. rewrite and_lexemes_cons, <- app_assoc. unfold parse_and. rewrite parse_cmp_lexemes.
  apply and_loop_spec; [|done]. rewrite length_app.
  pose proof (length_bind_ge (λ c, LAnd :: cmp_lexemes c) cs ltac:(intros x; cbn; lia)). lia.
Qed.

Definition alternative (d : list comparison_text) : Predicate :=
  match d with c :: cs => and_predicate c cs | [] => PCmp [] OpEq VNothing end.

Lemma or_loop_spec n ds lhs :
  length ds ≤ n → Forall (λ d, d ≠ []) ds →
  or_loop n lhs (ds ≫= λ d, LOr :: and_lexemes d) = Ok (foldl POr lhs (map alternative ds), []).
Proof.
  revert n lhs. induction ds as [|d ds IH]; intros n lhs Hn Hd; [by destruct n|].
  apply list.Forall_cons in Hd as [Hd Hds]. destruct d as [|c cs]; [done|].
  destruct n as [|n]; [cbn in Hn; lia|]. rewrite bind_cons. cbn [app or_loop].
  rewrite parse_and_spec by (by destruct ds). cbn [map foldl]. apply IH; [cbn in Hn; lia|done].
Qed.

Lemma eval_and lhs cs r :
  eval_predicate (foldl PAnd lhs (map cmp_predicate cs)) r
  = eval_predicate lhs r && forallb (λ c, eval_predicate (cmp_predicate c) r) cs.
Proof.
  revert lhs. induction cs as [|c cs IH]; intros lhs; cbn [map foldl forallb]; [by rewrite andb_true_r|].
  rewrite IH. cbn [eval_predicate]. by rewrite andb_assoc.
Qed.

Lemma eval_or lhs ds r :
  eval_predicate (foldl POr lhs (map alternative ds)) r
  = eval_predicate lhs r || existsb (λ d, eval_predicate (alternative d) r) ds.
Proof.
  revert lhs. induction ds as [|d ds IH]; intros lhs; cbn [map foldl existsb]; [by rewrite orb_false_r|].
  rewrite IH. cbn [eval_predicate]. by rewrite orb_assoc.
Qed.

(** C0: The words after [where], comparisons joined by [and] and [or], are accepted and select the
    records for which one of the alternatives has all its comparisons true: [and] binds
    tighter than [or]. *)
Theorem where_words d ds :
  Forall (λ d, d ≠ [] ∧ Forall cmp_ok d) (d :: ds) →
  ∃ p, parse_predicate (or_words (d :: ds)) = Ok p
  ∧ ∀ r, eval_predicate p r
         = existsb (λ d, forallb (λ c, eval_predicate (cmp_predicate c) r) d) (d :: ds).
Proof.
  intros [Hne Hok]%list.Forall_and.
  pose proof (lex_or (d :: ds) Hok) as Hlex. exists (foldl POr (alternative d) (map alternative ds)). split.
  - unfold parse_predicate. rewrite Hlex. apply list.Forall_cons in Hne as [Hd Hds].
    destruct d as [|c cs]; [done|].
    assert (is_empty (or_words ((c :: cs) :: ds)) = false) as ->.
    { destruct c as [[f op] w], cs, ds; done. }
    unfold parse_or. rewrite or_lexemes_cons, parse_and_spec by (by destruct ds).
    rewrite or_loop_spec; [done| |done]. apply length_bind_ge. intros x. cbn. lia.
  - intros r. rewrite eval_or. cbn [existsb].
    assert (∀ d, d ≠ [] → eval_predicate (alternative d) r = forallb (λ c, eval_predicate (cmp_predicate c) r) d) as Ha.
    { intros [|c cs]; [done|]. intros _. apply eval_and. }
    apply list.Forall_cons in Hne as [Hd Hds]. rewrite Ha by done. f_equal.
    clear Hok Hlex Hd. induction Hds as [|d' ds Hd' _ IH]; [done|]. cbn [existsb]. by rewrite Ha, IH by done.
Qed.

Lemma where_words_witness :
  ∃ p, parse_predicate [ #"size"; #">"; #"1kb"; #"and"; #"type"; #"=="; #"file"; #"or"; #"name"; #"!="; #"x"] = Ok p
  ∧ eval_predicate p (VRecord [(#"name", VString #"x"); (#"size", VFilesize 2048); (#"type", VString #"file")]) = true.
Proof.
  destruct (where_words [(#"size", OpGt, #"1kb"); (#"type", OpEq, #"file")] [[(#"name", OpNe, #"x")]]) as (p & Hp & He).
  - repeat constructor; vm_compute; done.
  - exists p. split; [exact Hp|]. rewrite He. vm_compute. reflexivity.
Defined.

(** A size is never equal to a bare number, though it is neither more nor less: [size == 50] and
    [size != 50] disagree with [size >= 50 and size <= 50]. *)
Theorem quantity_equality_gap z r :
  get_path r #"size" = Some (VFilesize z) →
  let test op := eval_predicate (PCmp #"size" op (VInt z)) r in
  test OpEq = false ∧ test OpNe = true ∧ test OpGe = true ∧ test OpLe = true.
Proof.
  intros Hr. cbn [eval_predicate]. rewrite Hr. cbn [compare_values value_eqb]. by rewrite Z.compare_refl.
Qed.

(** ** Calls are typed *)

(** The types an argument is converted to; the others take what a token looks like. *)
Definition converted (t : Type') : bool :=
  match t with TString | TInt | TFloat | TBool | TFilesize | TDuration => true | _ => false end.

Lemma coerce_type hd token ty v : coerce hd token ty = Ok v → converted ty = true → type_of v = ty.
Proof.
  destruct ty; try done; cbn; intros H _.
  - by destruct (parse_bool token); simplify_eq/=.
  - by destruct (parse_i64 token); simplify_eq/=.
  - by destruct (parse_f64 token); simplify_eq/=.
  - by destruct (parse_filesize token); simplify_eq/=.
  - by destruct (parse_duration token); simplify_eq/=.
  - by simplify_eq.
Qed.

Definition positional_typed (sig : Signature) (vs : list Value) : Prop :=
  ∀ i v, vs !! i = Some v → converted (positional_type sig i) = true → type_of v = positional_type sig i.

(** A named argument is of a declared flag, with a value exactly when the flag takes one. *)
Definition flag_typed (sig : Signature) (kv : str * option Value) : Prop :=
  ∃ flag, flag ∈ sg_flags sig ∧ fl_long flag = kv.1
  ∧ match fl_takes_arg flag, kv.2 with
    | None, None => True
    | Some ty, Some v => converted ty = true → type_of v = ty
    | _, _ => False
    end.

Lemma named_insert_Forall (P : str * option Value → Prop) k v m :
  P (k, v) → Forall P m → Forall P (named_insert k v m).
Proof.
  intros Hk. induction 1 as [|kv m Hkv Hm IH]; cbn; [by constructor|]. destruct (decide _); by constructor.
Qed.

Lemma flag_lookup_in sig token flag : flag_lookup sig token = Some flag → flag ∈ sg_flags sig.
Proof.
  unfold flag_lookup. intros H.
  repeat case_match; simplify_eq; apply head_Some_elem_of in H; by apply list_elem_of_filter in H as [_ H].
Qed.

Lemma bind_args_typed sig hd args vs named vs' named' :
  positional_typed sig vs → Forall (flag_typed sig) named →
  bind_args sig hd args vs named = Ok (vs', named') →
  positional_typed sig vs' ∧ Forall (flag_typed sig) named'.
Proof.
  revert vs named. induction args as [args IH] using (induction_ltof1 _ length). intros vs named Hv Hn.
  destruct args as [|token rest]; cbn [bind_args]; [by intros [= <- <-]|].
  destruct (flag_lookup sig token) as [flag|] eqn:Ef.
  - pose proof (flag_lookup_in _ _ _ Ef) as Hin. destruct (fl_takes_arg flag) as [ty|] eqn:Et.
    + destruct rest as [|w rest']; [done|]. destruct (coerce hd w ty) as [v|e] eqn:Ec; [|done].
      apply IH; [unfold ltof; cbn; lia|done|]. apply named_insert_Forall; [|done].
      exists flag. split_and!; [done|done|]. rewrite Et. cbn. by apply (coerce_type hd w).
    + apply IH; [unfold ltof; cbn; lia|done|]. apply named_insert_Forall; [|done].
      exists flag. split_and!; [done|done|]. by rewrite Et.
  - destruct (_ && _); [done|]. destruct (coerce hd token _) as [v|e] eqn:Ec; [|done].
    apply IH; [unfold ltof; cbn; lia| |done]. intros i w [[_ Hi]|[-> <-]]%lookup_snoc_Some Hc; [|by eapply coerce_type].
    by apply Hv.
Qed.

(** C0: When the arguments of a stage are accepted, every required one is there, each positional
    argument has the type its place declares, and each named one is a declared flag, with a
    value of the declared type exactly when the flag takes one. *)
Theorem calls_typed sig hd args call :
  evaluate sig hd args = Ok call →
  length (sg_required sig) ≤ length (ec_positional call)
  ∧ positional_typed sig (ec_positional call) ∧ Forall (flag_typed sig) (ec_named call).
Proof.
  unfold evaluate. destruct (bind_args sig hd args [] []) as [[vs named]|e] eqn:Eb; [|done].
  apply bind_args_typed in Eb as [Hv Hn]; [|by intros i v|constructor].
  destruct (sg_required sig !! length vs) eqn:El; [done|]. intros [= <-]. cbn.
  split_and!; [by apply lookup_ge_None|done|done].
Qed.

(** ** Plans are the line *)

Lemma existsb_false {A : Type} (f : A → bool) l : existsb f l = false → ∀ x, x ∈ l → f x = false.
Proof.
  induction l as [|y l IH]; cbn; intros H x Hx; [by apply elem_of_nil in Hx|].
  apply orb_false_iff in H as [Hy Hl]. apply elem_of_cons in Hx as [->|Hx]; [done|by apply IH].
Qed.

Lemma existsb_none {A : Type} (f : A → bool) l : Forall (λ x, f x = false) l → existsb f l = false.
Proof. induction 1 as [|x l Hx _ IH]; [done|]. cbn. by rewrite Hx, IH. Qed.

Section plan.
Context (registry : str → option Signature).

Lemma span_untyped_spec l a b :
  span_untyped registry l = (a, b) →
  l = a ++ b ∧ Forall (λ s, typed_head registry s = None) a
  ∧ match b with [] => True | s :: _ => is_Some (typed_head registry s) end.
Proof.
  revert a b. induction l as [|s l IH]; intros a b; cbn; [by intros [= <- <-]; split_and!|].
  destruct (typed_head registry s) as [p|] eqn:E.
  - intros [= <- <-]. split_and!; [done|constructor|by rewrite E].
  - destruct (span_untyped registry l) as [a' b'] eqn:Es. intros [= <- <-].
    destruct (IH a' b' eq_refl) as (-> & Ha & Hb). split_and!; [done|by constructor|done].
Qed.

Lemma span_typed_spec l ps b :
  span_typed registry l = (ps, b) →
  ∃ mid, l = mid ++ b ∧ Forall2 (λ s p, typed_head registry s = Some p) mid ps
  ∧ match b with [] => True | s :: _ => typed_head registry s = None end.
Proof.
  revert ps b. induction l as [|s l IH]; intros ps b; cbn.
  { intros [= <- <-]. exists []. split_and!; [done|constructor|done]. }
  destruct (typed_head registry s) as [p|] eqn:E.
  - destruct (span_typed registry l) as [ps' b'] eqn:Es. intros [= <- <-].
    destruct (IH ps' b' eq_refl) as (mid & -> & Hm & Hb). exists (s :: mid). split_and!; [done|by constructor|done].
  - intros [= <- <-]. exists []. split_and!; [done|constructor|done].
Qed.

Lemma span_untyped_app a b :
  Forall (λ s, typed_head registry s = None) a →
  match b with [] => True | s :: _ => is_Some (typed_head registry s) end →
  span_untyped registry (a ++ b) = (a, b).
Proof.
  intros Ha Hb. induction Ha as [|s a Hs _ IH]; cbn; [|by rewrite Hs, IH].
  destruct b as [|s b]; [done|]. destruct Hb as [p Hp]. cbn. by rewrite Hp.
Qed.

Lemma span_typed_app mid ps b :
  Forall2 (λ s p, typed_head registry s = Some p) mid ps → Forall (λ s, typed_head registry s = None) b →
  span_typed registry (mid ++ b) = (ps, b).
Proof.
  intros Hm Hb. induction Hm as [|s p mid ps Hs _ IH]; cbn; [|by rewrite Hs, IH].
  destruct Hb as [|s b Hs _]; [done|]. cbn. by rewrite Hs.
Qed.

Definition outside (s : str) : Prop := typed_head registry s = None ∧ is_agent_stage s = false.

(** C0: A line is taken as a pipeline of typed commands exactly when its stages are some that are
    not typed, then one or more typed ones, then some that are not, and no agent is among
    the outer ones; and the plan is these: the typed stages in order, and the text of the
    outer ones joined again. *)
Theorem plan_is_line line plan :
  try_parse_exec registry line = Some plan ↔
  trim line ≠ []
  ∧ ∃ pre mid suf, split_pipeline (trim line) = pre ++ mid ++ suf
      ∧ Forall outside pre ∧ Forall outside suf ∧ mid ≠ []
      ∧ Forall2 (λ s p, typed_head registry s = Some p) mid (ep_stages plan)
      ∧ ep_shell_prefix plan = join_stages pre ∧ ep_external_suffix plan = join_stages suf.
Proof.
  unfold try_parse_exec. destruct (trim line) as [|c raw] eqn:Et; cbn [is_empty]; [by split; [|intros [? _]]|].
  set (l := split_pipeline (c :: raw)).
  destruct (span_untyped registry l) as [a b] eqn:Ea. destruct (span_typed registry b) as [ps suf0] eqn:Eb.
  pose proof (span_untyped_spec _ _ _ Ea) as (Hl & Ha & Hb0). pose proof (span_typed_spec _ _ _ Eb) as (mid0 & Hb & Hm & Hs).
  split.
  - destruct ps as [|p ps]; [done|]. cbn [is_empty].
    destruct (existsb _ suf0) eqn:E1; [done|]. destruct (_ || _) eqn:E2; [done|]. apply orb_false_iff in E2 as [E2 E3].
    intros [= <-]. split; [done|]. exists a, mid0, suf0.
    apply Forall2_length in Hm as Hlen.
    split_and!; [by rewrite Hl, Hb| | |by intros ->|done|done|done].
    + apply list.Forall_forall. intros s Hin. rewrite list.Forall_forall in Ha. split; [by apply Ha|].
      by apply (existsb_false is_agent_stage a).
    + apply list.Forall_forall. intros s Hin. split; [|by apply (existsb_false is_agent_stage suf0)].
      pose proof (existsb_false _ _ E1 s Hin) as Hx. cbn in Hx. apply bool_decide_eq_false in Hx. by apply eq_None_not_Some.
  - intros (_ & pre & mid & suf & El & Hpre & Hsuf & Hne & Hmid & Hp & Hq).
    fold l in El. rewrite El, (span_untyped_app pre (mid ++ suf)) in Ea.
    + injection Ea as <- <-. rewrite (span_typed_app _ _ _ Hmid) in Eb by (by eapply list.Forall_impl; [exact Hsuf|intros s []]).
      injection Eb as <- <-. destruct (ep_stages plan) as [|p ps'] eqn:Ep; [by apply Forall2_length in Hmid; destruct mid|].
      cbn [is_empty]. rewrite !existsb_none.
      * rewrite <- Hp, <- Hq, <- Ep. by destruct plan.
      * eapply list.Forall_impl; [exact Hsuf|]. by intros s [_ ?].
      * eapply list.Forall_impl; [exact Hpre|]. by intros s [_ ?].
      * eapply list.Forall_impl; [exact Hsuf|]. intros s [-> _]. done.
    + eapply list.Forall_impl; [exact Hpre|]. by intros s [].
    + destruct Hmid as [|s p mid ps' Hs1 _]; [done|]. cbn. by rewrite Hs1.
Qed.

End plan.
