(* ===== verification/PipelineRun.v ===== *)
(** * The pipeline language: commands and the engine
      ([orkia-shell/src/exec/engine.rs], [registry.rs], [convert.rs], [commands/],
       [orkia-shell-types/src/exec/capability.rs], [command.rs], [pipeline_data.rs],
       [orkia-shell/src/repl/dispatch.rs])

    A plan is resolved, bound and type-checked as a whole, then its commands run one after the
    other on the data of the one before. A stream is the list of what it yields: values, or
    an error that ends what is read of it. What a command is asked to run with is kept in
    order. The machine (files, directories, history) and the texts of floats, dates and
    nested values are arguments. *)
From Stdlib Require Import NArith ZArith Lia SpecFloat.
From stdpp Require Import base gmap strings option numbers list list_basics sorting.
From S2P Require Import Prelude Text Words Effects Json Fs Values BuiltinTable Pipeline Jobs Resolution JobControl.

(** ** Capabilities *)

Inductive CapScopeItem := ScopePath (prefix : path) | ScopeHost (h : str) | ScopeVar (v : str).
Inductive CapabilityScope := CapNone | CapScoped (l : list CapScopeItem) | CapAny.

Definition cap_is_none (c : CapabilityScope) : bool := match c with CapNone => true | _ => false end.

(** [Path::starts_with] compares whole components. *)
Definition path_starts_with (p prefix : path) : bool := bool_decide (prefix `prefix_of` p).

Definition allows_path (c : CapabilityScope) (p : path) : bool :=
  match c with
  | CapNone => false
  | CapAny => true
  | CapScoped l => existsb (λ s, match s with ScopePath prefix => path_starts_with p prefix | _ => false end) l
  end.

Definition allows_named (c : CapabilityScope) (name : str) (want_host : bool) : bool :=
  match c with
  | CapNone => false
  | CapAny => true
  | CapScoped l => existsb (λ s, match s, want_host with
                                 | ScopeHost h, true => bool_decide (h = name)
                                 | ScopeVar v, false => bool_decide (v = name)
                                 | _, _ => false
                                 end) l
  end.

Record CapabilitySet := mkCapabilitySet {
  cap_fs_read : CapabilityScope;
  cap_fs_write : CapabilityScope;
  cap_net : CapabilityScope;
  cap_env : CapabilityScope;
  cap_clock : bool;
  cap_random : bool;
}.

Definition sandbox : CapabilitySet := mkCapabilitySet CapNone CapNone CapNone CapNone false false.
Definition shell_default : CapabilitySet := mkCapabilitySet CapAny CapAny CapNone CapAny true true.

Definition is_total_sandbox (c : CapabilitySet) : bool :=
  cap_is_none (cap_fs_read c) && cap_is_none (cap_fs_write c) && cap_is_none (cap_net c) && cap_is_none (cap_env c)
  && negb (cap_clock c) && negb (cap_random c).

Definition allows_fs_read (c : CapabilitySet) (p : path) : bool := allows_path (cap_fs_read c) p.
Definition allows_fs_write (c : CapabilitySet) (p : path) : bool := allows_path (cap_fs_write c) p.
Definition allows_net (c : CapabilitySet) (host : str) : bool := allows_named (cap_net c) host true.
Definition allows_env (c : CapabilitySet) (var : str) : bool := allows_named (cap_env c) var false.

(** ** Data *)

Inductive PipelineData :=
| PDValue (v : Value)
| PDListStream (items : list (result ExecError Value))
| PDByteStream (chunks : list (result ExecError (list N)))
| PDEmpty.

Definition pd_type_of (d : PipelineData) : Type' :=
  match d with
  | PDValue v => type_of v
  | PDListStream _ => TTable
  | PDByteStream _ => TByteStream
  | PDEmpty => TNothing
  end.

(** Draining a stream: the first error is the result. *)
Fixpoint drain {A : Type} (l : list (result ExecError A)) : result ExecError (list A) :=
  match l with
  | [] => Ok []
  | Ok x :: l' => cons x <$> drain l'
  | Err e :: _ => Err e
  end.

Definition into_value (d : PipelineData) : result ExecError Value :=
  match d with
  | PDValue v => Ok v
  | PDEmpty => Ok VNothing
  | PDListStream l => VList <$> drain l
  | PDByteStream l => (λ bs, VBinary (mjoin bs)) <$> drain l
  end.

(** ** Texts *)

Class ValueText := {
  float_text : N → str;
  date_rfc3339 : Z → str;
  value_json : Value → str;
}.

Definition fmt_i64 (z : Z) : str :=
  if (z <? 0)%Z then chr_minus :: fmt_dec (Z.to_N (- z)) else fmt_dec (Z.to_N z).

Definition scalar_to_string `{!ValueText} (v : Value) : str :=
  match v with
  | VNothing => []
  | VBool b => if b then #"true" else #"false"
  | VInt z | VFilesize z | VDuration z => fmt_i64 z
  | VFloat n => float_text n
  | VDate d => date_rfc3339 d
  | VString s => s
  | VBinary b => from_utf8_lossy b
  | VList _ | VRecord _ => value_json v
  end.

Definition chr_tab : char := 9%N.
Definition chr_backslash : char := 92%N.

Definition replace_char (c : char) (by_text : str) (s : str) : str := s ≫= λ x, if (x =? c)%N then by_text else [x].

Definition escape_tsv_cell (s : str) : str :=
  replace_char chr_nl [92; 110]%N (replace_char chr_tab [92; 116]%N (replace_char chr_backslash [92; 92]%N s)).

Fixpoint value_to_lines `{!ValueText} (v : Value) : str :=
  match v with
  | VRecord m => join [chr_tab] (map (λ kv, escape_tsv_cell (scalar_to_string kv.2)) m) ++ [chr_nl]
  | VList items => mjoin (map value_to_lines items)
  | scalar => scalar_to_string scalar ++ [chr_nl]
  end.

Definition value_to_bytes `{!ValueText} (d : PipelineData) : list (result ExecError (list N)) :=
  match d with
  | PDByteStream chunks => chunks
  | PDEmpty => []
  | PDValue v => [Ok (utf8 (value_to_lines v))]
  | PDListStream items => map (fmap (λ v, utf8 (value_to_lines v))) items
  end.

(** ** Commands *)

(** What a command ends with: an error of the language, or a panic. *)
Inductive stop := Stop (e : ExecError) | StopPanic.

Definition ok_stop {A : Type} (r : result ExecError A) : result stop A := map_err Stop r.

Inductive AgentStatus := StIdle | StWorking | StWaiting | StError.

(** The fields of an agent that its table shows. *)
Record AgentInfo := mkAgentInfo { ag_name : str; ag_archetype : str; ag_status : AgentStatus; ag_model : str }.

Inductive HistoryType :=
| HShell | HIntent | HAgentDelegation | HBuiltin | HApproval | HPipeline | HShellToAgent | HAgentToSink.

#[export] Instance HistoryType_eq_dec : EqDecision HistoryType.
Proof. solve_decision. Defined.

Record HistoryEntry := mkHistoryEntry { he_seq : N; he_timestamp : str; he_type : HistoryType; he_line : str }.

Inductive EntryKind := KDir | KSymlink | KFile.

(** A directory entry, and what [metadata] answers for it. *)
Record DirEntry := mkDirEntry { de_name : str; de_meta : option (Z * option Z * EntryKind) }.

(** The machine and the shell's state as a command sees them. *)
Record CommandCtx := mkCommandCtx {
  cx_cwd : path;
  cx_data_dir : path;
  cx_agents : list AgentInfo;
  cx_jobs : list JobInfo;
  cx_capabilities : CapabilitySet;
  cx_user : option str;
  cx_whoami : option (list str);
  cx_plan : option (list str);
  cx_history : list HistoryEntry;
  cx_read_dir : path → result str (list (result str DirEntry));
  cx_read_file : path → result str str;
}.

Record Command := mkCommand {
  cm_signature : Signature;
  cm_is_streaming : bool;
  cm_run : CommandCtx → EvaluatedCall → PipelineData → result stop PipelineData;
}.

Definition display_path (p : path) : str := mjoin (map (λ c, chr_slash :: c) p).

Definition require_fs_read (ctx : CommandCtx) (command : str) (p : path) : result ExecError unit :=
  if allows_fs_read (cx_capabilities ctx) p then Ok () else Err (CapabilityDenied command #"fs_read" (display_path p)).
Definition require_fs_write (ctx : CommandCtx) (command : str) (p : path) : result ExecError unit :=
  if allows_fs_write (cx_capabilities ctx) p then Ok () else Err (CapabilityDenied command #"fs_write" (display_path p)).
Definition require_net (ctx : CommandCtx) (command host : str) : result ExecError unit :=
  if allows_net (cx_capabilities ctx) host then Ok () else Err (CapabilityDenied command #"net" host).

Definition strings (l : list str) : PipelineData := PDValue (VList (map VString l)).

Definition string_args (vs : list Value) : list str := omap (λ v, match v with VString s => Some s | _ => None end) vs.

Definition stream (rows : list Value) : PipelineData := PDListStream (map Ok rows).

Definition sig_io (name : str) (i o : Type') : Signature := mkSignature name [(i, o)] [] [] [] None.

(** *** [where] *)

Definition where_signature : Signature :=
  mkSignature #"where" [(TTable, TTable)] [] [] []
    (Some (mkPositionalArg #"predicate" TString #"filter expression, e.g. `size > 1mb and type == file`")).

(** A row that passes, and every error. *)
Definition kept (p : Predicate) (item : result ExecError Value) : bool :=
  match item with Ok v => eval_predicate p v | Err _ => true end.

Definition where_run (ctx : CommandCtx) (call : EvaluatedCall) (input : PipelineData) : result stop PipelineData :=
  match parse_predicate (string_args (ec_positional call)) with
  | Err message => Err (Stop (BadArgs #"where" message))
  | Ok p =>
      Ok match input with
         | PDListStream items =>
             PDListStream (filter (λ item, kept p item = true) items)
         | _ => PDEmpty
         end
  end.

(** *** [first] *)

Definition first_signature : Signature :=
  mkSignature #"first" [(TTable, TTable)] [] [mkPositionalArg #"count" TInt #"number of rows to take (default 1)"] [] None.

(** [Vec::with_capacity] panics when the bytes it is asked for are more than the largest
    [isize]; [value_size] is the size of a value. *)
Definition capacity_overflows (value_size : N) (count : Z) : bool := (2 ^ 63 - 1 <? count * Z.of_N value_size)%Z.

Definition first_run (value_size : N) (ctx : CommandCtx) (call : EvaluatedCall) (input : PipelineData)
  : result stop PipelineData :=
  let count := match opt call 0 with Some (VInt n) => if (0 <=? n)%Z then n else 1%Z | _ => 1%Z end in
  if capacity_overflows value_size count then Err StopPanic
  else
    taken ← match input with
            | PDListStream items => ok_stop (drain (take (Z.to_nat count) items))
            | _ => Ok []
            end;
    Ok (stream taken).

(** *** [sort-by] *)

Definition sort_by_signature : Signature :=
  mkSignature #"sort-by" [(TTable, TTable)] [mkPositionalArg #"column" TString #"column(s) to sort by"] []
    [mkFlagSpec #"reverse" (Some 114%N) None #"descending order"]
    (Some (mkPositionalArg #"more" TString #"additional columns")).

Fixpoint compare_by_columns (a b : Value) (columns : list str) : comparison :=
  match columns with
  | [] => Eq
  | column :: rest =>
      match get_path a column, get_path b column with
      | Some lhs, Some rhs => match compare_values lhs rhs with
                              | Some Lt => Lt
                              | Some Gt => Gt
                              | _ => compare_by_columns a b rest
                              end
      | _, _ => compare_by_columns a b rest
      end
  end.

Definition row_order (columns : list str) (reverse : bool) (a b : Value) : comparison :=
  let c := compare_by_columns a b columns in if reverse then CompOpp c else c.

(** What [slice::sort_by] asks of its comparison, on the elements of the slice. *)
Definition total_order (cmp : Value → Value → comparison) (l : list Value) : bool :=
  forallb (λ a, forallb (λ b, bool_decide (cmp a b = CompOpp (cmp b a))
    && forallb (λ c, bool_decide (cmp a b ≠ Gt → cmp b c ≠ Gt → cmp a c ≠ Gt)) l) l) l.

Definition not_after (cmp : Value → Value → comparison) (a b : Value) : Prop := cmp a b ≠ Gt.
#[export] Instance not_after_dec cmp : RelDecision (not_after cmp).
Proof. intros a b. unfold not_after. apply _. Defined.

(** [slice::sort_by] is stable on a total order; otherwise the order it leaves, or whether it
    panics, is not specified: [unordered] says. *)
Definition slice_sort_by (unordered : list Value → option (list Value)) (cmp : Value → Value → comparison)
    (l : list Value) : option (list Value) :=
  if total_order cmp l then Some (merge_sort (not_after cmp) l) else unordered l.

Definition sort_by_run (unordered : list Value → option (list Value)) (ctx : CommandCtx) (call : EvaluatedCall)
    (input : PipelineData) : result stop PipelineData :=
  let columns := string_args (ec_positional call) in
  let reverse := has_flag call #"reverse" in
  v ← ok_stop (into_value input);
  let rows := match v with VList items => items | other => [other] end in
  match slice_sort_by unordered (row_order columns reverse) rows with
  | Some sorted => Ok (stream sorted)
  | None => Err StopPanic
  end.

(** *** [from json] *)

Definition from_signature : Signature :=
  mkSignature #"from" [(TByteStream, TTable)]
    [mkPositionalArg #"format" TString #"input format (only `json` in V1)"] [] [] None.

Fixpoint json_row (j : json) : Value :=
  match j with
  | JNull => VNothing
  | JBool b => VBool b
  | JInt _ | JFloat _ => number_to_value j
  | JStr s => VString s
  | JArr items => VList (map json_row items)
  | JObj m => VRecord (foldl (λ r kv, rec_insert kv.1 kv.2 r) [] (map (λ kv, (kv.1, json_row kv.2)) m))
  end.

Definition from_run `{!ValueText} (parse_json : list N → result str json) (ctx : CommandCtx) (call : EvaluatedCall)
    (input : PipelineData) : result stop PipelineData :=
  fmt ← ok_stop (req call 0);
  let fmt := match fmt with VString s => s | _ => [] end in
  if decide (fmt = #"json") then
    v ← ok_stop (into_value input);
    let bytes := match v with
                 | VBinary b => b
                 | VString s => utf8 s
                 | VNothing => []
                 | other => utf8 (scalar_to_string other)
                 end in
    match parse_json bytes with
    | Err message => Err (Stop (BadValue #"from json" message))
    | Ok (JArr items) => Ok (stream (map json_row items))
    | Ok other => Ok (stream [json_row other])
    end
  else Err (Stop (BadArgs #"from" (#"unsupported format `" ++ fmt ++ #"` (only `json` is supported)"))).

(** *** [ps], [ls] *)

Definition status_label (s : AgentStatus) : str :=
  match s with StIdle => #"idle" | StWorking => #"working" | StWaiting => #"waiting" | StError => #"error" end.

Definition agent_record (a : AgentInfo) : Value :=
  VRecord [(#"name", VString (ag_name a)); (#"archetype", VString (ag_archetype a));
           (#"status", VString (status_label (ag_status a))); (#"model", VString (ag_model a))].

Definition ps_run (ctx : CommandCtx) (call : EvaluatedCall) (input : PipelineData) : result stop PipelineData :=
  Ok (stream (map agent_record (cx_agents ctx))).

Definition ls_signature : Signature :=
  mkSignature #"ls" [(TNothing, TTable)] [] [mkPositionalArg #"path" TString #"directory to list (default: cwd)"] [] None.

Definition entry_record (e : DirEntry) : Value :=
  let '(size, modified, kind) :=
    match de_meta e with
    | Some (len, t, k) =>
        (VFilesize len, match t with Some d => VDate d | None => VNothing end,
         VString (match k with KDir => #"dir" | KSymlink => #"symlink" | KFile => #"file" end))
    | None => (VNothing, VNothing, VString #"?")
    end in
  VRecord [(#"name", VString (de_name e)); (#"size", size); (#"modified", modified); (#"type", kind)].

(** The walk ends after an error. *)
Fixpoint walk_entries (l : list (result str DirEntry)) : list (result ExecError Value) :=
  match l with
  | [] => []
  | Ok e :: l' => Ok (entry_record e) :: walk_entries l'
  | Err message :: _ => [Err (Runtime #"ls" message)]
  end.

Definition ls_run (ctx : CommandCtx) (call : EvaluatedCall) (input : PipelineData) : result stop PipelineData :=
  let p := match opt call 0 with Some (VString p) => path_join (cx_cwd ctx) p | _ => cx_cwd ctx end in
  match cx_read_dir ctx p with
  | Err e => Err (Stop (Runtime #"ls" (display_path p ++ #": " ++ e)))
  | Ok entries => Ok (PDListStream (walk_entries entries))
  end.

(** *** [log] *)

Definition log_signature : Signature :=
  mkSignature #"log" [(TNothing, TString)] [mkPositionalArg #"target" TString #"job id, %N, or @agent"] []
    [mkFlagSpec #"tail" (Some 110%N) (Some TInt) #"show only the last N lines"] None.

Definition log_run `{!ValueText} (ctx : CommandCtx) (call : EvaluatedCall) (input : PipelineData) : result stop PipelineData :=
  t ← ok_stop (req call 0);
  let target := match t with VString s => s | other => scalar_to_string other end in
  id ← (if starts_with #"%" target || starts_with #"@" target
        then ok_or (resolve_job_target target (cx_jobs ctx)) (Stop (BadArgs #"log" (#"no job matching '" ++ target ++ #"'")))
        else ok_or (parse_u32 target) (Stop (BadArgs #"log" (#"invalid target '" ++ target ++ #"'"))));
  let p := path_join (path_join (path_join (cx_data_dir ctx) #"jobs") (fmt_dec id)) #"output.log" in
  _ ← ok_stop (require_fs_read ctx #"log" p);
  content ← map_err (λ e, Stop (Runtime #"log" (#"no output log for job " ++ fmt_dec id ++ #" at "
                                  ++ display_path p ++ #": " ++ e))) (cx_read_file ctx p);
  let ls := lines content in
  let start := match get_flag call #"tail" with
               | Some (VInt n) => if (0 <=? n)%Z then length ls - Z.to_nat n else 0
               | _ => 0
               end in
  Ok (PDValue (VString (join [chr_nl] (drop start ls)))).

(** *** [history] *)

Definition history_signature : Signature :=
  mkSignature #"history" [(TNothing, TTable)] [] []
    [mkFlagSpec #"limit" (Some 110%N) (Some TInt) #"show only the last N entries (default 20)";
     mkFlagSpec #"shell" None None #"only shell commands";
     mkFlagSpec #"agents" None None #"only agent/intent/pipeline entries";
     mkFlagSpec #"approvals" None None #"only approval entries";
     mkFlagSpec #"search" None (Some TString) #"substring filter on the command line"] None.

Record HistoryQuery := mkHistoryQuery {
  hq_limit : nat; hq_only_shell : bool; hq_only_agents : bool; hq_only_approvals : bool; hq_search : option str
}.

Definition contains_sub (s needle : str) : bool := bool_decide (is_Some (find_sub needle s)).

Definition history_matches (q : HistoryQuery) (e : HistoryEntry) : bool :=
  if hq_only_shell q && bool_decide (he_type e ≠ HShell) then false
  else if hq_only_agents q && negb (bool_decide (he_type e ∈ [HIntent; HAgentDelegation; HPipeline])) then false
  else if hq_only_approvals q && bool_decide (he_type e ≠ HApproval) then false
  else match hq_search q with Some needle => contains_sub (he_line e) needle | None => true end.

Definition history_short (t : HistoryType) : str :=
  match t with
  | HShell => #"shell" | HIntent => #"intent" | HAgentDelegation => #"@agent" | HBuiltin => #"builtin"
  | HApproval => #"approval" | HPipeline => #"pipeline" | HShellToAgent => #"sh|@" | HAgentToSink => #"@|sh"
  end.

(** [as i64] *)
Definition u64_as_i64 (n : N) : Z := if (n <? 2 ^ 63)%N then Z.of_N n else (Z.of_N n - 2 ^ 64)%Z.

(** [hhmm]: hours and minutes of a timestamp that can be parsed. *)
Definition history_record (hhmm : str → option str) (e : HistoryEntry) : Value :=
  VRecord [(#"seq", VInt (u64_as_i64 (he_seq e))); (#"time", VString (default #"--:--" (hhmm (he_timestamp e))));
           (#"type", VString (history_short (he_type e))); (#"command", VString (he_line e))].

Definition history_run (hhmm : str → option str) (ctx : CommandCtx) (call : EvaluatedCall) (input : PipelineData)
  : result stop PipelineData :=
  let limit := match get_flag call #"limit" with
               | Some (VInt n) => if (0 <=? n)%Z then Z.to_nat n else 20
               | _ => 20
               end in
  let search := match get_flag call #"search" with Some (VString s) => Some s | _ => None end in
  let query := mkHistoryQuery limit (has_flag call #"shell") (has_flag call #"agents") (has_flag call #"approvals") search in
  let rows := reverse (take limit (filter (λ e, history_matches query e = true) (reverse (cx_history ctx)))) in
  Ok (PDValue (VList (map (history_record hhmm) rows))).

(** *** [jobs], [whoami], [plan] *)

Definition is_shell_job (j : JobInfo) : bool := match ji_kind j with Shell _ => true | _ => false end.

Definition pad_to (w : nat) (t : str) : str := t ++ replicate (w - length t) chr_space.

Definition job_line (j : JobInfo) (marker : str) : str :=
  let state := match ji_state j with
               | Running | Foreground => #"Running"
               | Stopped => #"Stopped"
               | Done _ => #"Done"
               | Failed _ => #"Failed"
               end in
  #"  [" ++ fmt_dec (ji_id j) ++ #"]" ++ marker ++ #" " ++ pad_to 10 state ++ #" " ++ ji_label j.

Definition jobs_run (ctx : CommandCtx) (call : EvaluatedCall) (input : PipelineData) : result stop PipelineData :=
  let shell_jobs := filter (λ j, is_shell_job j = true) (cx_jobs ctx) in
  let current := ji_id <$> last shell_jobs in
  let prev := ji_id <$> (reverse shell_jobs !! 1) in
  Ok (strings (map (λ j, job_line j (if bool_decide (Some (ji_id j) = current) then #"+"
                                     else if bool_decide (Some (ji_id j) = prev) then #"-" else #" ")) shell_jobs)).

Definition whoami_run (ctx : CommandCtx) (call : EvaluatedCall) (input : PipelineData) : result stop PipelineData :=
  Ok (strings (default #"unknown" (cx_user ctx) :: default [] (cx_whoami ctx))).

Definition plan_run (ctx : CommandCtx) (call : EvaluatedCall) (input : PipelineData) : result stop PipelineData :=
  Ok (strings (default [] (cx_plan ctx))).

(** *** The registry *)

Abbreviation Registry := (gmap str Command) (only parsing).

Definition register (cmd : Command) (r : Registry) : Registry := <[sg_name (cm_signature cmd) := cmd]> r.

Definition signature_of (r : Registry) (name : str) : option Signature := cm_signature <$> r !! name.

(** What the commands are given: the size of a value, the sort of an order that is none, the JSON
    parser, the clock text, the pages of text, and the queries of the journal and of the
    attention queue. *)
Record Pilots := mkPilots {
  pl_value_size : N;
  pl_unordered : list Value → option (list Value);
  pl_parse_json : list N → result str json;
  pl_hhmm : str → option str;
  pl_help : list str;
  pl_version : list str;
  pl_route : list str;
  pl_briefing : list str;
  pl_journal : list str → result str (list Value);
  pl_attention : list Value → result ExecError (list Value);
}.

Section pilots.
Context `{!ValueText} (pl : Pilots).

Definition text_command (name : str) (text : list str) : Command :=
  mkCommand (sig_io name TNothing (TList TString)) false (λ _ _ _, Ok (strings text)).

Definition journal_signature : Signature :=
  mkSignature #"journal" [(TNothing, TTable)] [] [] []
    (Some (mkPositionalArg #"args" TString
      (#"filters (--agent X, --job N, --type T, --event E, --last N, --since " ++ [8230%N] ++ #")"))).

Definition journal_run (ctx : CommandCtx) (call : EvaluatedCall) (input : PipelineData) : result stop PipelineData :=
  let args := map (λ v, match v with VString s => s | other => scalar_to_string other end) (ec_positional call) in
  match pl_journal pl args with
  | Err e => Err (Stop (BadArgs #"journal" e))
  | Ok rows => Ok (PDValue (VList rows))
  end.

Definition attention_signature : Signature :=
  mkSignature #"attention" [(TNothing, TTable)] []
    [mkPositionalArg #"sub" TString #"subcommand: list (default), pull, resolve, or help";
     mkPositionalArg #"id" TString #"attention id"; mkPositionalArg #"action" TString #"resolution action"] [] None.

Definition attention_run (ctx : CommandCtx) (call : EvaluatedCall) (input : PipelineData) : result stop PipelineData :=
  rows ← ok_stop (pl_attention pl (ec_positional call)); Ok (PDValue (VList rows)).

Definition pilots : list Command :=
  [ mkCommand ls_signature true ls_run;
    mkCommand where_signature true where_run;
    mkCommand first_signature true (first_run (pl_value_size pl));
    mkCommand sort_by_signature false (sort_by_run (pl_unordered pl));
    mkCommand from_signature false (from_run (pl_parse_json pl));
    mkCommand (sig_io #"ps" TNothing TTable) true ps_run;
    text_command #"help" (pl_help pl);
    text_command #"version" (pl_version pl);
    text_command #"route" (pl_route pl);
    text_command #"briefing" (pl_briefing pl);
    mkCommand log_signature false log_run;
    mkCommand (sig_io #"whoami" TNothing (TList TString)) false whoami_run;
    mkCommand (sig_io #"plan" TNothing (TList TString)) false plan_run;
    mkCommand history_signature false (history_run (pl_hhmm pl));
    mkCommand journal_signature false journal_run;
    mkCommand (sig_io #"jobs" TNothing (TList TString)) false jobs_run;
    mkCommand attention_signature false attention_run ].

Definition with_pilots : Registry := foldl (λ r c, register c r) ∅ pilots.

End pilots.

(** ** The engine *)

(** The commands that ran, with the data each was given. *)
Abbreviation Run := (M (list (str * PipelineData)) stop) (only parsing).

Fixpoint check_stages (registry : Registry) (stages : list ParsedStage) (current_type : Type') (upstream : str)
  : result ExecError (list (Command * EvaluatedCall)) :=
  match stages with
  | [] => Ok []
  | stage :: rest =>
      match registry !! ps_name stage with
      | None => Err (Runtime (ps_name stage) #"command not found in registry")
      | Some command =>
          let signature := cm_signature command in
          match output_for signature current_type with
          | None => Err (TypeMismatch (ps_name stage) (default TAny (fst <$> head (sg_io_types signature)))
                           current_type upstream)
          | Some next_type =>
              call ← evaluate signature (ps_name stage) (ps_raw_args stage);
              bound ← check_stages registry rest next_type (ps_name stage);
              Ok ((command, call) :: bound)
          end
      end
  end.

Fixpoint run_bound (ctx : CommandCtx) (bound : list (Command * EvaluatedCall)) (data : PipelineData) : Run PipelineData :=
  match bound with
  | [] => mret data
  | (command, call) :: rest =>
      modify (λ t, t ++ [(ec_head call, data)]);;
      data' ← lift (cm_run command ctx call data);
      run_bound ctx rest data'
  end.

Definition run_plan (registry : Registry) (ctx : CommandCtx) (stages : list ParsedStage) (data : PipelineData)
    (label : str) : Run PipelineData :=
  bound ← lift (ok_stop (check_stages registry stages (pd_type_of data) label));
  run_bound ctx bound data.

(** ** From the line *)

Inductive exec_event :=
| RanShell (command : str)
| RanTyped (name : str) (data : PipelineData)
| FedShell (command : str) (chunks : list (result ExecError (list N)))
| Displayed (data : PipelineData).

Inductive ExecOutcome := ExUsageError (e : ExecError) | ExError | ExPanic | ExOutput | ExNoop.

(** [capture]: the bytes a shell command prints, or that it could not be run; [engine_ready]:
    whether the shell engine starts. *)
Definition dispatch_exec `{!ValueText} (registry : Registry) (ctx : CommandCtx) (engine_ready : bool)
    (capture : str → option (list N)) (plan : ExecPlan) : ExecOutcome * list exec_event :=
  if negb engine_ready then (ExError, [])
  else
    let input := match ep_shell_prefix plan with
                 | Some prefix => match capture prefix with
                                  | Some bytes => Some (PDByteStream [Ok bytes], prefix)
                                  | None => None
                                  end
                 | None => Some (PDEmpty, #"input")
                 end in
    let shell := match ep_shell_prefix plan with Some prefix => [RanShell prefix] | None => [] end in
    match input with
    | None => (ExError, shell)
    | Some (data, label) =>
        let '(r, ran) := run_plan registry ctx (ep_stages plan) data label [] in
        let events := shell ++ map (λ nd, RanTyped nd.1 nd.2) ran in
        match r with
        | Err StopPanic => (ExPanic, events)
        | Err (Stop e) => (if (exit_code e =? 2)%N then ExUsageError e else ExError, events)
        | Ok result =>
            match ep_external_suffix plan with
            | Some suffix =>
                let chunks := value_to_bytes result in
                (match drain chunks with Ok _ => ExOutput | Err _ => ExError end, events ++ [FedShell suffix chunks])
            | None => (match result with
                       | PDListStream l => match drain l with Ok _ => ExNoop | Err _ => ExError end
                       | PDByteStream l => match drain l with Ok _ => ExNoop | Err _ => ExError end
                       | _ => ExNoop
                       end, events ++ [Displayed result])
            end
        end
    end.

(** ** Types before runs *)

Section engine.
Context (registry : Registry) (ctx : CommandCtx).

Lemma evaluate_head sig hd args call : evaluate sig hd args = Ok call → ec_head call = hd.
Proof. unfold evaluate. intros H. repeat case_match; by simplify_eq. Qed.

Lemma check_stages_heads stages t up bound :
  check_stages registry stages t up = Ok bound → map (λ b, ec_head b.2) bound = map ps_name stages.
Proof.
  revert t up bound. induction stages as [|s stages IH]; intros t up bound; cbn; [by intros [= <-]|].
  destruct (registry !! ps_name s) as [c|]; [|done]. destruct (output_for _ t) as [t'|]; [|done].
  destruct (evaluate _ _ _) as [call|e] eqn:Ee; [|done]. cbn.
  destruct (check_stages registry stages t' (ps_name s)) as [b|e] eqn:Ec; [|done]. intros [= <-]. cbn.
  f_equal; [by eapply evaluate_head|by eapply IH].
Qed.

Lemma run_bound_trace bound data t :
  ∃ ran, (run_bound ctx bound data t).2 = t ++ ran
  ∧ map fst ran = take (length ran) (map (λ b, ec_head b.2) bound)
  ∧ match (run_bound ctx bound data t).1 with
    | Ok _ => length ran = length bound
    | Err _ => 0 < length ran ≤ length bound
    end.
Proof.
  revert data t. induction bound as [|[c call] bound IH]; intros data t; cbn [run_bound].
  { exists []. cbn. by rewrite app_nil_r. }
  unfold mbind, M_bind, modify, lift. destruct (cm_run c ctx call data) as [d|e].
  - destruct (IH d (t ++ [(ec_head call, data)])) as (ran & Ht & Hm & Hr). exists ((ec_head call, data) :: ran).
    rewrite Ht. split_and!; [by rewrite <- app_assoc|cbn; by f_equal|].
    destruct (run_bound ctx bound d _) as [[v|e] t']; cbn in *; lia.
  - exists [(ec_head call, data)]. cbn. split_and!; [done|done|lia|lia].
Qed.

(** C0: No command of a pipeline runs before all of its stages are found, typed and bound: a
    refused line has run nothing, and otherwise the commands that ran are the first ones of
    the line, in order, all of them when it succeeds and up to the failing one when not. *)
Theorem type_before_run stages data label :
  let '(r, ran) := run_plan registry ctx stages data label [] in
  match check_stages registry stages (pd_type_of data) label with
  | Err e => r = Err (Stop e) ∧ ran = []
  | Ok _ => map fst ran = take (length ran) (map ps_name stages)
            ∧ match r with
              | Ok _ => length ran = length stages
              | Err _ => 0 < length ran ≤ length stages
              end
  end.
Proof.
  unfold run_plan, mbind, M_bind, lift, ok_stop.
  destruct (check_stages registry stages (pd_type_of data) label) as [bound|e] eqn:Ec; [|done]. cbn [map_err].
  pose proof (check_stages_heads _ _ _ _ Ec) as Hh.
  assert (length bound = length stages) as Hl by (by rewrite <- (length_map (λ b, ec_head b.2)), Hh, length_map).
  destruct (run_bound_trace bound data []) as (ran & Ht & Hm & Hr).
  destruct (run_bound ctx bound data []) as [r t] eqn:E. cbn in Ht, Hr. subst t. rewrite <- Hh, <- Hl. done.
Qed.

End engine.

(** ** The pilots *)

Section pilot_theorems.
Context `{!ValueText} (pl : Pilots) (ctx : CommandCtx).

Lemma register_all l r name c :
  foldl (λ r c, register c r) r l !! name = Some c → (c ∈ l ∧ sg_name (cm_signature c) = name) ∨ r !! name = Some c.
Proof.
  revert r. induction l as [|x l IH]; intros r; cbn; [by right|]. intros Hl.
  apply IH in Hl as [[H1 H2]|Hl]; [left; split; [by right|done]|]. unfold register in Hl.
  apply lookup_insert_Some in Hl as [[<- ->]|[_ Hl]]; [left; split; [left|done]|by right].
Qed.

Lemma with_pilots_in name c : with_pilots pl !! name = Some c → c ∈ pilots pl ∧ sg_name (cm_signature c) = name.
Proof. intros [Hl|Hl]%register_all; [done|]. by rewrite lookup_empty in Hl. Qed.

Lemma pilot_refuses_bytes c : c ∈ pilots pl → sg_name (cm_signature c) ≠ #"from" →
  output_for (cm_signature c) TByteStream = None.
Proof.
  intros Hin Hn. unfold pilots in Hin.
  repeat (apply elem_of_cons in Hin as [->|Hin]; [first [done|by destruct Hn]|]). by apply elem_of_nil in Hin.
Qed.

(** C0: Bytes become rows only by [from]: when the input of a plan is the output of a program, no
    command runs unless the first one is [from]. *)
Theorem bytes_need_converter chunks s stages label :
  let '(_, ran) := run_plan (with_pilots pl) ctx (s :: stages) (PDByteStream chunks) label [] in
  ran ≠ [] → ps_name s = #"from".
Proof.
  unfold run_plan, mbind, M_bind, lift, ok_stop. cbn [check_stages pd_type_of].
  destruct (with_pilots pl !! ps_name s) as [c|] eqn:El; [|by cbn; intros []].
  apply with_pilots_in in El as [Hin <-]. destruct (decide (sg_name (cm_signature c) = #"from")) as [Hf|Hf].
  - by case_match.
  - rewrite pilot_refuses_bytes by done. by cbn; intros [].
Qed.

Lemma register_all_is l r name :
  is_Some (r !! name) ∨ name ∈ map (λ c, sg_name (cm_signature c)) l →
  is_Some (foldl (λ r c, register c r) r l !! name).
Proof.
  revert r. induction l as [|x l IH]; intros r Hn; cbn; [destruct Hn as [|[]%elem_of_nil]; done|].
  apply IH. unfold register. destruct (decide (sg_name (cm_signature x) = name)) as [->|Hne].
  - left. rewrite lookup_insert_eq. eauto.
  - rewrite lookup_insert_ne by done. cbn in Hn. rewrite elem_of_cons in Hn. naive_solver.
Qed.

Definition pilot_names : list str :=
  [ #"ls"; #"where"; #"first"; #"sort-by"; #"from"; #"ps"; #"help"; #"version"; #"route"; #"briefing"; #"log";
    #"whoami"; #"plan"; #"history"; #"journal"; #"jobs"; #"attention"].

Lemma pilots_named : map (λ c, sg_name (cm_signature c)) (pilots pl) = pilot_names.
Proof. done. Qed.

Lemma with_pilots_is name : is_Some (with_pilots pl !! name) ↔ name ∈ pilot_names.
Proof.
  split.
  - intros [c [Hin <-]%with_pilots_in]. rewrite <- pilots_named. apply list_elem_of_fmap. eauto.
  - intros Hin. apply register_all_is. right. by rewrite pilots_named.
Qed.

(** The typed commands of the table are those of the registry: a line is a plan exactly when the
    engine can resolve its commands. *)
Lemma registry_names name : is_Some (with_pilots pl !! name) ↔ name ∈ typed_names.
Proof.
  rewrite with_pilots_is. split; intros Hin.
  - assert (Forall (λ n, n ∈ typed_names) pilot_names) as Ha by (apply (bool_decide_unpack _); vm_compute; exact I).
    rewrite list.Forall_forall in Ha. by apply Ha.
  - assert (Forall (λ n, n ∈ pilot_names) typed_names) as Ha by (apply (bool_decide_unpack _); vm_compute; exact I).
    rewrite list.Forall_forall in Ha. by apply Ha.
Qed.

End pilot_theorems.

(** ** Tables that are values *)

Section tables.
Context `{!ValueText} (pl : Pilots) (ctx : CommandCtx).

Lemma register_all_last l r c :
  NoDup (map (λ c, sg_name (cm_signature c)) l) → c ∈ l →
  foldl (λ r c, register c r) r l !! sg_name (cm_signature c) = Some c.
Proof.
  revert r. induction l as [|x l IH]; intros r Hnd Hin; [by apply elem_of_nil in Hin|]. cbn in Hnd |- *.
  apply list.NoDup_cons in Hnd as [Hx Hnd]. apply elem_of_cons in Hin as [->|Hin]; [|by apply IH].
  clear IH Hnd. assert (register x r !! sg_name (cm_signature x) = Some x) as Hr
    by (unfold register; by rewrite lookup_insert_eq).
  revert Hr. generalize (register x r) as r'. induction l as [|y l IH]; intros r' Hr; cbn; [done|].
  cbn in Hx. apply not_elem_of_cons in Hx as [Hne Hx]. apply IH; [done|]. unfold register.
  by rewrite lookup_insert_ne.
Qed.

Lemma pilot_names_distinct : NoDup pilot_names.
Proof. apply (bool_decide_unpack _). vm_compute. exact I. Qed.

Lemma with_pilots_lookup c : c ∈ pilots pl → with_pilots pl !! sg_name (cm_signature c) = Some c.
Proof. apply register_all_last. rewrite pilots_named. apply pilot_names_distinct. Qed.

Ltac pilot_in := unfold pilots; repeat first [left; reflexivity | right].

Lemma lookup_history : with_pilots pl !! #"history" = Some (mkCommand history_signature false (history_run (pl_hhmm pl))).
Proof. apply (with_pilots_lookup (mkCommand history_signature false (history_run (pl_hhmm pl)))). pilot_in. Qed.
Lemma lookup_where : with_pilots pl !! #"where" = Some (mkCommand where_signature true where_run).
Proof. apply (with_pilots_lookup (mkCommand where_signature true where_run)). pilot_in. Qed.

(** C0: The rows of [history] do not reach [where]: its table is a value, not a stream, so the
    typed line succeeds and its result is empty, whatever the history holds and whatever the
    predicate accepts. *)
Theorem value_tables_lost args words hcall call p label :
  evaluate history_signature #"history" args = Ok hcall →
  evaluate where_signature #"where" words = Ok call →
  parse_predicate (string_args (ec_positional call)) = Ok p →
  ∃ rows, run_plan (with_pilots pl) ctx [mkParsedStage #"history" args; mkParsedStage #"where" words] PDEmpty label []
          = (Ok PDEmpty, [(#"history", PDEmpty); (#"where", PDValue (VList rows))]).
Proof.
  intros He Hw Hp. unfold run_plan, mbind, M_bind, lift, ok_stop.
  cbn [check_stages ps_name ps_raw_args pd_type_of]. rewrite lookup_history, lookup_where.
  cbn [cm_signature]. change (output_for history_signature TNothing) with (Some TTable). cbn iota beta.
  change (output_for where_signature TTable) with (Some TTable). rewrite He. cbn. rewrite Hw. cbn.
  unfold mbind, M_bind, modify, lift, where_run. rewrite Hp. cbn.
  rewrite (evaluate_head _ _ _ _ He), (evaluate_head _ _ _ _ Hw). eauto.
Qed.

End tables.

(** ** Rows for a program *)

Section rows.
Context `{!ValueText}.

(** What reads a cell back. *)
Fixpoint unescape_cell (s : str) : str :=
  match s with
  | 92%N :: c :: s' => (if (c =? 116)%N then chr_tab else if (c =? 110)%N then chr_nl else c) :: unescape_cell s'
  | c :: s' => c :: unescape_cell s'
  | [] => []
  end.

(** The three replacements at once. *)
Definition escape_char (c : char) : str :=
  if (c =? chr_backslash)%N then [92; 92]%N else if (c =? chr_tab)%N then [92; 116]%N
  else if (c =? chr_nl)%N then [92; 110]%N else [c].

Lemma escape_tsv_cell_chars s : escape_tsv_cell s = s ≫= escape_char.
Proof.
  unfold escape_tsv_cell, replace_char. induction s as [|c s IH]; [done|]. cbn [mbind list_bind] in *.
  unfold escape_char at 1. destruct (N.eqb_spec c chr_backslash) as [->|Hb].
  { cbn. by rewrite IH. }
  destruct (N.eqb_spec c chr_tab) as [->|Ht]; [cbn; by rewrite IH|].
  apply N.eqb_neq in Ht. rewrite bind_app. cbn [mbind list_bind]. rewrite Ht, app_nil_r, bind_app. cbn [mbind list_bind].
  rewrite app_nil_r. by f_equal.
Qed.

Lemma escape_char_free c : (chr_tab ∉ escape_char c) ∧ (chr_nl ∉ escape_char c).
Proof.
  unfold escape_char, chr_tab, chr_nl, chr_backslash. repeat case_match;
    repeat match goal with H : (_ =? _)%N = false |- _ => apply N.eqb_neq in H end; set_solver by lia.
Qed.

Lemma escape_free s : (chr_tab ∉ escape_tsv_cell s) ∧ (chr_nl ∉ escape_tsv_cell s).
Proof.
  rewrite escape_tsv_cell_chars. split; rewrite list_elem_of_bind; intros (c & Hc & _); by apply escape_char_free in Hc.
Qed.

Lemma unescape_other c t : c ≠ chr_backslash → unescape_cell (c :: t) = c :: unescape_cell t.
Proof.
  intros Hb. unfold chr_backslash in Hb. destruct t as [|d t]; cbn; repeat case_match; congruence.
Qed.

Lemma unescape_escape s : unescape_cell (escape_tsv_cell s) = s.
Proof.
  rewrite escape_tsv_cell_chars. induction s as [|c s IH]; [done|]. cbn [mbind list_bind] in *. unfold escape_char at 1.
  destruct (N.eqb_spec c chr_backslash) as [->|Hb]; [cbn; by f_equal|].
  destruct (N.eqb_spec c chr_tab) as [->|Ht]; [cbn; by f_equal|].
  destruct (N.eqb_spec c chr_nl) as [->|Hn]; [cbn; by f_equal|].
  cbn [app]. rewrite unescape_other by done. by f_equal.
Qed.

Lemma join_free (c sep : char) l : c ≠ sep → Forall (λ w, c ∉ w) l → c ∉ join [sep] l.
Proof.
  intros Hne. induction 1 as [|w l Hw _ IH]; [set_solver|]. destruct l as [|v l]; [done|].
  change (join [sep] (w :: v :: l)) with (w ++ [sep] ++ join [sep] (v :: l)). set_solver.
Qed.

(** C0: A record handed to a program is one line, and the line gives the record's texts back: it
    holds one line feed, at its end, and its parts between tabs, unescaped, are the texts of
    the fields in order, whatever characters they hold. *)
Theorem row_framing m :
  ∃ line, value_to_lines (VRecord m) = line ++ [chr_nl] ∧ (chr_nl ∉ line)
  ∧ (m = [] ∨ map unescape_cell (split_char chr_tab line) = map (λ kv, scalar_to_string kv.2) m).
Proof.
  cbn [value_to_lines]. eexists. split; [done|]. set (cells := map _ m).
  assert (Forall (λ w, (chr_tab ∉ w) ∧ (chr_nl ∉ w)) cells) as Hf.
  { apply list.Forall_forall. intros w (kv & -> & _)%list_elem_of_fmap. apply escape_free. }
  split.
  - apply join_free; [done|]. eapply Forall_impl; [exact Hf|]. by intros w [].
  - destruct m as [|kv m]; [by left|right]. rewrite split_char_join; [|done|].
    + unfold cells. rewrite map_map. apply map_ext. intros []. apply unescape_escape.
    + eapply Forall_impl; [exact Hf|]. by intros w [].
Qed.

(** The texts of a list are not escaped: one string of two lines reads as two strings. *)
Theorem list_text_unframed s t :
  value_to_lines (VList [VString (s ++ [chr_nl] ++ t)]) = value_to_lines (VList [VString s; VString t]).
Proof. cbn. by rewrite !app_nil_r, <- !app_assoc. Qed.

End rows.

(** ** Sorting *)

Definition opp (o : option comparison) : option comparison := CompOpp <$> o.

Lemma str_cmp_opp a b : str_cmp a b = CompOpp (str_cmp b a).
Proof.
  revert b. induction a as [|x a IH]; intros [|y b]; cbn; try done. rewrite (N.compare_antisym y x).
  destruct (y ?= x)%N; cbn; [apply IH|done|done].
Qed.

Lemma f64_cmp_opp a b : f64_cmp a b = opp (f64_cmp b a).
Proof.
  unfold f64_cmp, SpecFloat.SFcompare. destruct (bits_to_sf a) as [s1|s1| |s1 m1 e1], (bits_to_sf b) as [s2|s2| |s2 m2 e2];
    try (by destruct s1, s2); try (by destruct s1); try (by destruct s2); try done.
  rewrite (Z.compare_antisym e2 e1). pose proof (Pos.compare_cont_antisym m1 m2 Eq) as Hp. cbn [CompOpp] in Hp.
  destruct s1, s2; try done; destruct (e2 ?= e1)%Z; cbn; try done; rewrite <- Hp; by destruct (Pos.compare_cont Eq m1 m2).
Qed.

Lemma compare_values_opp a b : compare_values a b = opp (compare_values b a).
Proof.
  destruct a, b; cbn; try done; try apply f64_cmp_opp; f_equal; try apply Z.compare_antisym; try apply str_cmp_opp.
  all: by repeat match goal with b : bool |- _ => destruct b end.
Qed.

Lemma compare_by_columns_opp a b columns : compare_by_columns a b columns = CompOpp (compare_by_columns b a columns).
Proof.
  induction columns as [|c columns IH]; [done|]. cbn [compare_by_columns].
  destruct (get_path a c) as [x|], (get_path b c) as [y|]; try done.
  rewrite (compare_values_opp x y). by destruct (compare_values y x) as [[]|].
Qed.

Lemma row_order_opp columns rev a b : row_order columns rev a b = CompOpp (row_order columns rev b a).
Proof. unfold row_order. rewrite (compare_by_columns_opp a b). by destruct rev. Qed.

#[export] Instance row_order_total columns rev : Total (not_after (row_order columns rev)).
Proof.
  intros a b. unfold not_after. rewrite (row_order_opp columns rev a b).
  destruct (row_order columns rev b a); [by left|by right|by left].
Qed.

Lemma total_order_trans cmp l a b c : total_order cmp l = true → a ∈ l → b ∈ l → c ∈ l →
  not_after cmp a b → not_after cmp b c → not_after cmp a c.
Proof.
  unfold total_order. rewrite forallb_forall. intros Hl Ha Hb Hc. apply list_elem_of_In in Ha, Hb, Hc.
  specialize (Hl a Ha). cbn in Hl. rewrite forallb_forall in Hl. specialize (Hl b Hb). cbn in Hl.
  apply andb_true_iff in Hl as [_ Hl].
  rewrite forallb_forall in Hl. specialize (Hl c Hc). by apply bool_decide_eq_true in Hl.
Qed.

Lemma sorted_strongly (R : relation Value) l :
  (∀ a b c, a ∈ l → b ∈ l → c ∈ l → R a b → R b c → R a c) → Sorted R l → StronglySorted R l.
Proof.
  intros Ht. induction 1 as [|x l Hs IH Hh]; [constructor|].
  assert (StronglySorted R l) as Hl by (apply IH; intros a b c Ha Hb Hc; apply Ht; by right).
  constructor; [done|]. inversion Hh as [|y l' Hxy]; subst; [constructor|].
  apply StronglySorted_inv in Hl as [_ Hy]. constructor; [done|]. rewrite list.Forall_forall in Hy |- *.
  intros z Hz. apply (Ht x y z); [left|by right; left|by right; right|done|by apply Hy].
Qed.

Lemma drain_stream {A : Type} (l : list A) : drain (map Ok l) = Ok l.
Proof. induction l as [|x l IH]; [done|]. cbn. by rewrite IH. Qed.

(** C0: [sort-by] sorts: on rows its columns order totally it returns the same rows, none after a
    row it should precede; descending with the flag. *)
Theorem sort_by_sorted unordered ctx call rows :
  let order := row_order (string_args (ec_positional call)) (has_flag call #"reverse") in
  total_order order rows = true →
  ∃ sorted, sort_by_run unordered ctx call (stream rows) = Ok (stream sorted)
  ∧ sorted ≡ₚ rows ∧ StronglySorted (not_after order) sorted.
Proof.
  intros order Ht. unfold sort_by_run, stream. cbn. rewrite drain_stream. cbn. fold order. unfold slice_sort_by.
  rewrite Ht. eexists. split; [done|]. pose proof (merge_sort_Permutation (not_after order) rows) as Hp. split; [done|].
  apply sorted_strongly; [|apply Sorted_merge_sort, row_order_total].
  intros a b c. rewrite Hp. apply total_order_trans. done.
Qed.

(** Rows with an integer in the column are ordered totally. *)
Theorem int_column_orders column rev rows :
  Forall (λ r, ∃ z, get_path r column = Some (VInt z)) rows → total_order (row_order [column] rev) rows = true.
Proof.
  intros Hr. rewrite list.Forall_forall in Hr. unfold total_order.
  assert (∀ a b x y, get_path a column = Some (VInt x) → get_path b column = Some (VInt y) →
    row_order [column] rev a b = (if rev then CompOpp (x ?= y) else (x ?= y))%Z) as Hc.
  { intros a b x y Ha Hb. unfold row_order. cbn. rewrite Ha, Hb. cbn. by destruct (x ?= y)%Z. }
  apply forallb_forall. intros a [x Hx]%list_elem_of_In%Hr. apply forallb_forall. intros b [y Hy]%list_elem_of_In%Hr.
  apply andb_true_iff. split; [apply bool_decide_eq_true, row_order_opp|].
  apply forallb_forall. intros c [z Hz]%list_elem_of_In%Hr. apply bool_decide_eq_true.
  rewrite (Hc a b x y), (Hc b c y z), (Hc a c x z) by done. rewrite <- !Z.compare_antisym.
  destruct rev; rewrite <- ?Z.compare_antisym, !Z.compare_ngt_iff || (unfold not; rewrite ?Z.compare_gt_iff); lia.
Qed.

(** C0: A row without the column breaks the order: it ties with every row, so a row that should
    follow another can precede it through the tie, and the standard library's sort is asked to
    sort by an order that is none. *)
Theorem missing_breaks_order column rev rows a b m x y :
  a ∈ rows → b ∈ rows → m ∈ rows →
  get_path a column = Some (VInt x) → get_path b column = Some (VInt y) → get_path m column = None → (y < x)%Z →
  total_order (row_order [column] rev) rows = false.
Proof.
  intros Ha Hb Hm Hx Hy Hn Hlt. apply not_true_iff_false. intros Ht.
  assert (∀ r, row_order [column] rev r m = Eq ∧ row_order [column] rev m r = Eq) as Hq.
  { intros r. unfold row_order. cbn. rewrite Hn. by destruct (get_path r column), rev. }
  pose proof (total_order_trans _ _ a m b Ht Ha Hm Hb) as H1. pose proof (total_order_trans _ _ b m a Ht Hb Hm Ha) as H2.
  unfold not_after in H1, H2. rewrite (proj1 (Hq a)), (proj2 (Hq b)) in H1.
  rewrite (proj1 (Hq b)), (proj2 (Hq a)) in H2. revert H1 H2. unfold row_order. cbn. rewrite Hx, Hy. cbn. rewrite (proj2 (Z.compare_gt_iff x y) Hlt).
  rewrite (proj2 (Z.compare_lt_iff y x) Hlt). destruct rev; cbn; intros H1 H2; [by apply H2|by apply H1].
Qed.

(** C0: The count of [first] is a capacity before it is a limit: a count of the largest integers
    panics on any input, the empty one too, as soon as a value takes two bytes. *)
Theorem first_capacity_panic value_size ctx call input :
  (2 ≤ value_size)%N → opt call 0 = Some (VInt (2 ^ 63 - 1)) → first_run value_size ctx call input = Err StopPanic.
Proof.
  intros Hv Ho. unfold first_run. rewrite Ho. unfold capacity_overflows.
  replace (0 <=? 2 ^ 63 - 1)%Z with true by done. by rewrite (proj2 (Z.ltb_lt _ _)) by lia.
Qed.

(** [ls] reads a directory whatever has been granted. *)
Theorem ls_ignores_grants ctx caps call input :
  ls_run (mkCommandCtx (cx_cwd ctx) (cx_data_dir ctx) (cx_agents ctx) (cx_jobs ctx) caps (cx_user ctx) (cx_whoami ctx)
            (cx_plan ctx) (cx_history ctx) (cx_read_dir ctx) (cx_read_file ctx)) call input = ls_run ctx call input.
Proof. done. Qed.

(** [log] reads only what has been granted: with no grant it opens no file, whatever is on disk. *)
Theorem log_needs_grant `{!ValueText} ctx call input : cx_capabilities ctx = sandbox →
  ∃ e, log_run ctx call input = Err (Stop e).
Proof.
  intros Hc. unfold log_run. destruct (req call 0) as [v|e]; [|by eexists]. cbn. destruct (_ || _); cbn.
  - destruct (resolve_job_target _ _) as [id|]; [|by eexists]. cbn. unfold require_fs_read. rewrite Hc. by eexists.
  - destruct (parse_u32 _) as [id|]; [|by eexists]. cbn. unfold require_fs_read. rewrite Hc. by eexists.
Qed.

(** ** The line's program runs first *)

Section line.
Context `{!ValueText} (pl : Pilots) (ctx : CommandCtx).

(** C0: The type check comes after the program in front of the line: a line whose first typed
    command takes no bytes is refused as a usage error, and by then the program has run, alone. *)
Theorem refused_after_prefix capture prefix bytes s stages suffix :
  ps_name s ∈ typed_names → ps_name s ≠ #"from" → capture prefix = Some bytes →
  ∃ expected, dispatch_exec (with_pilots pl) ctx true capture (mkExecPlan (Some prefix) (s :: stages) suffix)
  = (ExUsageError (TypeMismatch (ps_name s) expected TByteStream prefix), [RanShell prefix]).
Proof.
  intros Hin Hf Hc. apply (registry_names pl) in Hin as [c Hl]. destruct (with_pilots_in _ _ _ Hl) as [Hp Hn].
  unfold dispatch_exec. cbn [negb ep_shell_prefix ep_stages ep_external_suffix]. rewrite Hc.
  unfold run_plan, mbind, M_bind, lift, ok_stop. cbn [check_stages pd_type_of]. rewrite Hl.
  rewrite (pilot_refuses_bytes pl) by congruence. by eexists.
Qed.

End line.

(** ** On a small machine *)

Module RunExample.

#[export] Instance plain_text : ValueText := { float_text _ := #"f"; date_rfc3339 _ := #"d"; value_json _ := #"{}" }.

Definition example_pilots : Pilots :=
  mkPilots 32 (λ _, None) (λ _, Err #"eof") (λ _, Some #"09:30") [] [] [] [] (λ _, Ok []) (λ _, Ok []).

Definition entry : HistoryEntry := mkHistoryEntry 1 #"2026-05-01T09:30:00Z" HShell #"ls".

Definition example_ctx (caps : CapabilitySet) : CommandCtx :=
  mkCommandCtx [ #"home"] [ #"data"] [] [] caps None None None [entry] (λ _, Ok []) (λ _, Ok #"text").

(** A history whose only entry satisfies the predicate. *)
Lemma value_tables_lost_witness :
  ∃ p, parse_predicate [ #"seq"; #"=="; #"1"] = Ok p
  ∧ eval_predicate p (history_record (pl_hhmm example_pilots) entry) = true
  ∧ ∃ rows, run_plan (with_pilots example_pilots) (example_ctx shell_default)
              [mkParsedStage #"history" []; mkParsedStage #"where" [ #"seq"; #"=="; #"1"]] PDEmpty #"input" []
            = (Ok PDEmpty, [(#"history", PDEmpty); (#"where", PDValue (VList rows))]).
Proof.
  pose proof (value_tables_lost example_pilots (example_ctx shell_default) [] [ #"seq"; #"=="; #"1"]
    (mkEvaluatedCall #"history" [] []) (mkEvaluatedCall #"where" [VString #"seq"; VString #"=="; VString #"1"] [])
    (PCmp #"seq" OpEq (VInt 1)) #"input") as H.
  exists (PCmp #"seq" OpEq (VInt 1)). split; [vm_compute; reflexivity|]. split; [vm_compute; reflexivity|].
  apply H; vm_compute; reflexivity.
Defined.

Definition sort_call : EvaluatedCall := mkEvaluatedCall #"sort-by" [VString #"n"] [].
Definition n_row (z : Z) : Value := VRecord [(#"n", VInt z)].

Lemma sort_by_sorted_witness :
  ∃ sorted, sort_by_run (λ _, None) (example_ctx sandbox) sort_call (stream [n_row 2; n_row 1]) = Ok (stream sorted)
  ∧ sorted ≡ₚ [n_row 2; n_row 1] ∧ StronglySorted (not_after (row_order [ #"n"] false)) sorted.
Proof. apply (sort_by_sorted (λ _, None) (example_ctx sandbox) sort_call). vm_compute. reflexivity. Defined.

Lemma missing_breaks_order_witness :
  total_order (row_order [ #"n"] false) [n_row 1; VRecord []; n_row 0] = false.
Proof.
  apply (missing_breaks_order #"n" false [n_row 1; VRecord []; n_row 0] (n_row 1) (n_row 0) (VRecord []) 1 0).
  all: first [vm_compute; reflexivity | repeat first [left; reflexivity|right]].
Defined.

Lemma first_capacity_panic_witness :
  first_run 32 (example_ctx sandbox) (mkEvaluatedCall #"first" [VInt (2 ^ 63 - 1)] []) PDEmpty = Err StopPanic.
Proof. apply first_capacity_panic; [lia|reflexivity]. Defined.

Lemma log_needs_grant_witness :
  ∃ e, log_run (example_ctx sandbox) (mkEvaluatedCall #"log" [VString #"3"] []) PDEmpty = Err (Stop e).
Proof. apply log_needs_grant. reflexivity. Defined.

Lemma refused_after_prefix_witness :
  ∃ expected, dispatch_exec (with_pilots example_pilots) (example_ctx shell_default) true (λ _, Some [])
                (mkExecPlan (Some #"rm -r old") [mkParsedStage #"first" []] None)
              = (ExUsageError (TypeMismatch #"first" expected TByteStream #"rm -r old"), [RanShell #"rm -r old"]).
Proof.
  apply (refused_after_prefix example_pilots (example_ctx shell_default) (λ _, Some []) #"rm -r old" []
           (mkParsedStage #"first" [])).
  - apply (bool_decide_unpack _). vm_compute. exact I.
  - discriminate.
  - reflexivity.
Defined.

End RunExample.
